(* ===== verification/_CoqProject ===== *)
-Q . S2P
Prelude.v
GoStrings.v
Decimal.v
Hash.v
Prog.v
K8s.v
GoTime.v
Effects.v
Config.v
Util.v
MountRefs.v
PodUtil.v
VolumeUtil.v
Setting.v
JfsSetting.v
Builder.v
PodMount.v
ProcessMount.v
Juicefs.v
Sidecar.v
Webhook.v
DriverServices.v
BuilderFacts.v
MountTable.v
Interp.v
KubeClient.v
Cluster.v
KubeCluster.v
PodDriver.v
Controllers.v
Dashboard.v
DashboardApi.v
DashboardServer.v
Startup.v
Managers.v
Driver.v
PodDriverFacts.v
PodMountFacts.v
JuicefsFacts.v
ProcessFacts.v
DriverFacts.v
ControllersFacts.v
DashboardFacts.v
DashboardSync.v
DashboardServerFacts.v
SidecarFacts.v
WebhookFacts.v
StartupFacts.v
ManagersFacts.v
DriverRpcFacts.v
KubeClientFacts.v
PublishFacts.v
References.v
Sharing.v
VolumeJobs.v
Witnesses.v
ServiceWitnesses.v
ControllerWitnesses.v
WebhookWitnesses.v
SharingWitnesses.v
PublishWitnesses.v
VolumeJobWitnesses.v
DashboardWitnesses.v
DashboardSyncWitnesses.v
StartupWitnesses.v
ManagersWitnesses.v
