(* ===== verification/Prelude.v ===== *)
(** * JuiceFS CSI driver: a verification development

    ** The program

    The driver mounts JuiceFS volumes for pods.  One mount pod per volume and
    node runs the client; every target of an app pod is a bind mount of its
    mount point, recorded as a reference, an annotation of the mount pod named
    by the hash of the target.  The parts, and how they act on each other:

    - the CSI services (pkg/driver) call the provider (pkg/juicefs), which
      parses the settings of a volume (pkg/config/setting.go), runs the client
      for authentication, formats, quotas, and mounts through one of two
      mounters: the pod mount creates or shares a mount pod built by
      pkg/juicefs/mount/builder, the process mount starts the client itself;
    - the pod driver (pkg/controller) runs for every mount pod of the node, from
      the loop that polls the kubelet or from the pod controller: it collects
      dead references, deletes unused pods, redeploys failed ones, recovers
      broken targets with the mount table, aborts stuck file systems;
    - the controllers recycle mount pods of vanished nodes, jobs, side cars, and
      refresh secrets; the provisioner creates and deletes dynamic volumes;
    - the webhook (pkg/webhook) injects the client as a side car and validates
      secrets; the dashboard (pkg/dashboard) indexes and lists what runs;
    - cmd reads flags, environment and the configuration file, and builds and
      starts the managers that run the controllers and the webhook.
    The parts meet in the API server (the annotations, finalizers and labels of
    mount pods), in the mount table, and in the pod locks.

    ** How it is modelled

    A function without effects is a Gallina function.  Everything else is a
    [prog] (Prog): a tree of calls to the environment, one command of Effects
    per call that leaves the repository.  Go's errors are values ([option error],
    [res A]), panics and exhausted fuel are outcomes ([Halted]); [defer
    lock.Unlock()] is [locked], which also releases on a panic.  Theorems
    quantify over the answers of the environment ([runs]): between two calls the
    other actors of the cluster may have done anything.  Where the API server
    must keep what it stores the relation [api] of References says so.
    Integers that wrap are wrapped explicitly ([wrap64], [int64], [W64]); Go
    maps are [gmap]s, with nil kept apart where the code tests it; the order of
    a [range] over a map is a command whose answer is a permutation; strings
    are byte strings, SHA-256 and FNV are executable.

    Fuel and bounds: every waiting loop ([for] with a sleep) takes a fuel, and
    [needs n p] (Prog) says that it runs out only in runs in which the
    environment told the program at least as often to go on waiting; so with a
    fuel above the number of polls of a run the result is the code's.  Loops
    over data recurse on the data.

    ** Files

    - Base: Prelude; GoStrings, Decimal, GoTime, Hash (what Go's library
      computes); Prog (programs, runs, [wp], [avoids], [issues], [needs]);
      K8s (objects and errors), Effects (commands).
    - pkg/config: Config (constants, patches, [GetPodLock]; the package variables
      are the class [Globals]), Setting and JfsSetting (setting.go, escape.go).
    - pkg/util: Util, MountRefs (util.go, job.go), PodUtil (pod.go), VolumeUtil
      (volume.go, namespace.go, pvc.go).
    - pkg/juicefs: Builder (mount pods, jobs, secrets), PodMount (pod_mount.go),
      ProcessMount (process_mount.go, interface.go: [MntInterface]), Juicefs
      (juicefs.go), Sidecar (the four builders: [SidecarInterface]).
    - pkg/driver: DriverServices, Driver (driver.go: the server, the endpoint,
      the dispatch of the calls).  pkg/webhook: Webhook.
    - pkg/k8sclient: KubeClient, the code behind the commands, over the requests
      that client-go and net/http send; Interp links a program with it.
    - pkg/controller: MountTable (mountinfo.go), PodDriver (pod_driver.go),
      Controllers (the five reconcilers and the polling loop).
    - pkg/dashboard: Dashboard (indexes and their controllers), DashboardApi,
      DashboardServer (the routes of api.go, cmd/dashboard).
    - cmd, configuration file, identity, version: Startup; cmd/app: Managers,
      programs over the calls of controller-runtime.
    - Cluster and KubeCluster: one executable environment, answering commands
      and requests, for the examples.
    - The theorems: a file [<Part>Facts] per part; References, Sharing,
      VolumeJobs, DashboardSync, PublishFacts and KubeClientFacts for what the
      parts do together.  Concrete instances: the files [*Witnesses].

    ** What is shown

    - Sharing (Sharing, References): any number of publishes, unpublishes and
      runs of the pod driver, interleaved with each other and with the rest of
      the cluster, exclude each other where they must, delete only unreferenced
      mount pods, and neither lose nor revive a reference, but for redeployments,
      which work on copies ([redeploy_forgets] shows what that costs); one after
      the other publishes and unpublishes refine adding and removing targets of
      an abstract set.
    - Publishing end to end (PublishFacts): what a successful answer of the node
      service has done, from the request through the provider and the pod mount
      to the bind mount, and back.
    - Volume jobs (VolumeJobs): the controller and the provisioner deleting a
      volume, interleaved with other handlers, the job controller and the TTL
      controller; what their success says of the job, and that a failed job can
      be taken for a finished one ([failed_deletion_reported]).
    - Linking (KubeClientFacts): the runs of a program linked with the clients
      are its runs, each command refined by the requests of its client; so what
      holds of the commands of an unpublish holds of the requests.
    - The pod driver (PodDriverFacts): what it deletes, patches, creates and
      recovers and when; its lock discipline on every run; termination.
    - Pod mount and provider (PodMountFacts, JuicefsFacts, BuilderFacts):
      creation only after a lookup, order of unmounting, round trip of the mount
      path through the shell command, well formed volumes, secrets that do not
      reach commands, targets that in pod mode stay in the kubelet directory,
      what a bind mount does for every mount table, option bounds, quotas,
      versions.  ProcessFacts: the last reference of a process mount in the
      table, exact sizes.
    - Services (DriverFacts): exclusion of volume handlers in every
      interleaving, safe deletion by the provisioner, capacities, statistics.
      The gRPC server (DriverRpcFacts) implements what it advertises.
    - Controllers (ControllersFacts): the polling loop starts what is due and,
      over any number of rounds, does not hand over a pod again within ten
      minutes unless its status changed; the filters of events drop nothing
      that would be acted upon, recyclers act only on unused objects.
    - Webhook (SidecarFacts, WebhookFacts): one side car per claim and no second
      injection for every builder; without the builders for serverless nodes
      the app sees the mounts of its side cars and names do not collide.
    - Dashboard (DashboardFacts): adding to an index is insertion by age, pages
      partition a list.  In the step relation of cluster, informer, queue and
      the single steps of the controllers (DashboardSync) no labelled pod is
      missed in any interleaving; in a calm cluster, where deletions do not
      overlap the work on a pod, the indexes are ordered and the one of the apps
      is the set of their pods, and outside of it a name can stay after its pod
      ([stale_entry]).  Its requests (DashboardServerFacts) only read, and only
      the logs of pods with the labels of the driver or of an app, or with an
      existing claim of whatever driver; static files stay below their
      directory.
    - Start-up (StartupFacts): consistent settings and managers, a reloader
      that keeps the last valid configuration.  Managers (ManagersFacts) start
      only with everything registered; their caches hold what the driver makes
      for them.

    ** Classes that stand for other libraries

    [QuantityParser] (apimachinery's quantities), [SettingCodec], [ConfigCodec]
    and [PropagationCodec] (YAML, JSON, label selectors), [Retry] (client-go's
    RetryOnConflict, with the documented laws that it only repeats its function
    and sleeps), [SelectorCodec] (the text of selectors, the JSON of
    pod lists).  [MountJobs] is an interface inside the driver: what the pod
    driver needs of the pod mount, with its instance in PodMountFacts.

    ** Not modelled

    - client-go, net/http and TLS: the requests of KubeClient are where the
      model ends.  Prometheus counters, klog, gRPC, gin's matching of routes,
      controller-runtime's queues and leader election, signals and pprof are
      I/O.  The reader of the dashboard is the cache
      of its manager, not the client of pkg/k8sclient, so it is not linked.
    - The dashboard's process never sets the driver name, so there it is the
      constant of config.go; elsewhere it is the package variable.
    - Goroutines of one round of the polling loop run one after the other;
      Sharing models the handlers of a node as interleaved threads, without two
      nodes sharing a pod.
    - Pod templates of DaemonSets, probes, affinities and other objects the
      driver only copies are carried as serialised text. *)
From stdpp Require Export base gmap strings list fin_maps pretty.
From Stdlib Require Export ZArith Lia.

#[global] Arguments String.append !_ _ / : simpl nomatch.

(** ** Integers *)

(** Go's [int64] arithmetic wraps. *)
Definition wrap64 (x : Z) : Z := ((x + 2 ^ 63) mod 2 ^ 64 - 2 ^ 63)%Z.

(** ** Options and lists *)

(** The [Some] value, or a default: reading a key of a Go map gives the zero
    value when the key is absent. *)
Definition or_zero {A} (z : A) (o : option A) : A := default z o.

Lemma bool_decide_iff P Q `{Decision P, Decision Q} : bool_decide P = bool_decide Q -> (P <-> Q).
Proof. intros E. by rewrite <-(bool_decide_spec P), <-(bool_decide_spec Q), E. Qed.

Section lists.
Context {A B : Type}.
Implicit Types (l k : list A).

(** Go's [for i := len(s)-1; i >= 0; i--] search for the last element
    satisfying a test. *)
Fixpoint find_last (p : A -> bool) l : option A :=
  match l with
  | [] => None
  | x :: l' => match find_last p l' with
               | Some y => Some y
               | None => if p x then Some x else None
               end
  end.

Lemma find_last_Some p l x :
  find_last p l = Some x ->
  p x = true /\ exists l1 l2, l = l1 ++ x :: l2 /\ Forall (fun y => p y = false) l2.
Proof.
  induction l as [|y l IH]; simpl; [done|].
  destruct (find_last p l) eqn:E.
  - intros [= ->]. destruct (IH eq_refl) as (Hp & l1 & l2 & -> & Hall).
    split; [done|]. by exists (y :: l1), l2.
  - destruct (p y) eqn:Hy; [|done]. intros [= ->]. split; [done|].
    exists [], l. split; [done|]. clear IH Hy.
    induction l as [|z l IH]; [constructor|]. simpl in E.
    destruct (find_last p l); [done|]. destruct (p z) eqn:Hz; [done|].
    constructor; auto.
Qed.

Lemma find_last_None p l :
  find_last p l = None <-> Forall (fun y => p y = false) l.
Proof.
  induction l as [|y l IH]; simpl; [by split; [constructor|]|].
  destruct (find_last p l) eqn:E.
  - split; [done|]. intros H. inversion H; subst.
    by apply IH in H3.
  - destruct (p y) eqn:Hy; split; try done.
    + intros H. inversion H; congruence.
    + intros _. constructor; [done|]. by apply IH.
Qed.

Lemma existsb_false (p : A -> bool) l :
  existsb p l = false <-> Forall (fun x => p x = false) l.
Proof.
  induction l as [|x l IH]; simpl; [by split; [constructor|]|].
  rewrite orb_false_iff, IH. split; [intros []; by constructor|].
  by inversion 1.
Qed.

Lemma existsb_true (p : A -> bool) l :
  existsb p l = true <-> exists x, x ∈ l /\ p x = true.
Proof.
  rewrite existsb_exists. by setoid_rewrite list_elem_of_In.
Qed.

(** [removes x l]: drop every occurrence, the loops that rebuild a slice
    without one element. *)
Lemma filter_not_elem `{EqDecision A} (x : A) l : x ∉ filter (fun y => y <> x) l.
Proof. rewrite list_elem_of_filter. tauto. Qed.
End lists.

Create HintDb go.
#[export] Hint Resolve filter_not_elem : go.

#[export] Set Warnings "-clear-no-such-hyp".
