(* ===== verification/GoStrings.v ===== *)
(** * Go's [strings] package, on byte strings

    A Go [string] is a sequence of bytes; it is modelled by [String.string],
    whose characters are 8-bit [ascii]s.  Every function the driver uses is
    given as a structural recursion on the string, so that all of them
    evaluate.  [strings.Fields] and [strings.TrimSpace] also treat a few
    multi-byte Unicode runes as spaces; the model recognises the six ASCII
    ones, which is exact on ASCII input. *)
From S2P Require Import Prelude.
From Stdlib Require Import Ascii.

(** ** Prefixes, suffixes, searching *)

Definition HasPrefix (s p : string) : bool := String.prefix p s.
#[global] Arguments HasPrefix : simpl never.

(** [s[n:]] and [s[:n]] with [n] within bounds. *)
Fixpoint str_drop (n : nat) (s : string) : string :=
  match n, s with
  | O, _ => s
  | S n', String _ s' => str_drop n' s'
  | S _, EmptyString => EmptyString
  end.
Fixpoint str_take (n : nat) (s : string) : string :=
  match n, s with
  | S n', String c s' => String c (str_take n' s')
  | _, _ => EmptyString
  end.

Definition TrimPrefix (s p : string) : string :=
  if HasPrefix s p then str_drop (String.length p) s else s.

Definition HasSuffix (s p : string) : bool :=
  (String.length p <=? String.length s)%nat &&
  bool_decide (str_drop (String.length s - String.length p) s = p).

Definition TrimSuffix (s p : string) : string :=
  if HasSuffix s p then str_take (String.length s - String.length p) s else s.

(** [strings.Index]: the first position of [sub], [None] for Go's [-1]. *)
Fixpoint Index (s sub : string) : option nat :=
  if HasPrefix s sub then Some O
  else match s with
       | EmptyString => None
       | String _ s' => S <$> Index s' sub
       end.

Definition Contains (s sub : string) : bool :=
  match Index s sub with Some _ => true | None => false end.

(** [strings.LastIndex]. *)
Fixpoint LastIndex (s sub : string) : option nat :=
  match s with
  | EmptyString => if HasPrefix s sub then Some O else None
  | String _ s' =>
      match LastIndex s' sub with
      | Some n => Some (S n)
      | None => if HasPrefix s sub then Some O else None
      end
  end.

(** ** Splitting, joining, replacing *)

Definition cons_head (c : ascii) (l : list string) : list string :=
  match l with
  | [] => [String c EmptyString]
  | h :: t => String c h :: t
  end.

(** [strings.Split s sep] for a non-empty [sep]; [skip] counts the bytes of a
    separator already matched. *)
Fixpoint split_go (sep : string) (skip : nat) (s : string) : list string :=
  match s with
  | EmptyString => [EmptyString]
  | String c s' =>
      match skip with
      | S k => split_go sep k s'
      | O => if HasPrefix s sep
             then EmptyString :: split_go sep (Nat.pred (String.length sep)) s'
             else cons_head c (split_go sep O s')
      end
  end.
Definition Split (s sep : string) : list string := split_go sep O s.

(** [strings.SplitN s sep 2]. *)
Definition SplitN2 (s sep : string) : list string :=
  match Index s sep with
  | None => [s]
  | Some n => [str_take n s; str_drop (n + String.length sep) s]
  end.

Fixpoint Join (l : list string) (sep : string) : string :=
  match l with
  | [] => EmptyString
  | [s] => s
  | s :: l' => s +:+ sep +:+ Join l' sep
  end.

(** [strings.ReplaceAll s old new] for a non-empty [old]. *)
Fixpoint replace_go (old new : string) (skip : nat) (s : string) : string :=
  match s with
  | EmptyString => EmptyString
  | String c s' =>
      match skip with
      | S k => replace_go old new k s'
      | O => if HasPrefix s old
             then new +:+ replace_go old new (Nat.pred (String.length old)) s'
             else String c (replace_go old new O s')
      end
  end.
Definition ReplaceAll (s old new : string) : string := replace_go old new O s.

(** ** Trimming and fields *)

Definition is_space (c : ascii) : bool :=
  match N_of_ascii c with
  | 9%N | 10%N | 11%N | 12%N | 13%N | 32%N => true
  | _ => false
  end.

Fixpoint trim_left (p : ascii -> bool) (s : string) : string :=
  match s with
  | String c s' => if p c then trim_left p s' else s
  | EmptyString => EmptyString
  end.
Fixpoint trim_right (p : ascii -> bool) (s : string) : string :=
  match s with
  | EmptyString => EmptyString
  | String c s' =>
      match trim_right p s' with
      | EmptyString => if p c then EmptyString else String c EmptyString
      | s'' => String c s''
      end
  end.
Definition TrimSpace (s : string) : string := trim_right is_space (trim_left is_space s).

Definition ascii_in (cutset : string) (c : ascii) : bool :=
  existsb (fun d => bool_decide (c = d)) (String.list_ascii_of_string cutset).
(** [strings.Trim s cutset]. *)
Definition Trim (s cutset : string) : string :=
  trim_right (ascii_in cutset) (trim_left (ascii_in cutset) s).

(** [strings.Fields]: maximal runs of non-space bytes. [inw] says whether the
    previous byte belonged to a field. *)
Fixpoint fields_go (inw : bool) (s : string) : list string :=
  match s with
  | EmptyString => if inw then [EmptyString] else []
  | String c s' =>
      if is_space c
      then (if inw then EmptyString :: fields_go false s' else fields_go false s')
      else cons_head c (fields_go true s')
  end.
Definition Fields (s : string) : list string := fields_go false s.

(** [path.Clean] and [path.Join]. *)
Definition clean_step (rooted : bool) (stack : list string) (comp : string) : list string :=
  if String.eqb comp "" || String.eqb comp "." then stack
  else if String.eqb comp ".." then
    match stack with
    | top :: rest => if String.eqb top ".." then comp :: stack else rest
    | [] => if rooted then [] else [comp]
    end
  else comp :: stack.
Definition path_Clean (p : string) : string :=
  let rooted := HasPrefix p "/" in
  let comps := rev (fold_left (clean_step rooted) (Split p "/") []) in
  if rooted then "/" +:+ Join comps "/"
  else match comps with [] => "." | _ => Join comps "/" end.
Definition path_Join (elems : list string) : string :=
  match List.filter (fun e => negb (String.eqb e "")) elems with
  | [] => ""
  | l => path_Clean (Join l "/")
  end.

Definition ascii_lower (c : ascii) : ascii :=
  let n := N_of_ascii c in
  if (65 <=? n)%N && (n <=? 90)%N then ascii_of_N (n + 32) else c.
Fixpoint ToLower (s : string) : string :=
  match s with
  | EmptyString => EmptyString
  | String c s' => String (ascii_lower c) (ToLower s')
  end.

Definition is_digit (c : ascii) : bool :=
  let n := N_of_ascii c in ((48 <=? n) && (n <=? 57))%N.

(** The longest prefix of digits, and the rest. *)
Fixpoint span_digits (s : string) : string * string :=
  match s with
  | String c s' => if is_digit c then let '(a, b) := span_digits s' in (String c a, b) else ("", s)
  | EmptyString => ("", "")
  end.

(** [strconv.Atoi]: decimal digits with a sign, in the range of [int]. *)
Fixpoint digits_value (s : string) (acc : Z) : option Z :=
  match s with
  | EmptyString => Some acc
  | String c s' => if is_digit c then digits_value s' (acc * 10 + (Z.of_N (N_of_ascii c) - 48))%Z else None
  end.
Definition Atoi (s : string) : option Z :=
  let '(sign, d) := match s with
                    | String "-" r => ((-1)%Z, r)
                    | String "+" r => (1%Z, r)
                    | _ => (1%Z, s) end in
  if bool_decide (d = "") then None else
  v ← digits_value d 0%Z;
  let n := (sign * v)%Z in
  if ((- 2 ^ 63 <=? n) && (n <? 2 ^ 63))%Z then Some n else None.

(** [strconv.ParseUint(s, 10, 64)]: digits only. *)
Definition ParseUint (s : string) : option Z :=
  match s with
  | EmptyString => None
  | _ => v ← digits_value s 0; if (v <? 2 ^ 64)%Z then Some v else None
  end.

(** ** Laws *)

Lemma str_app_nil_r (s : string) : s +:+ "" = s.
Proof. induction s as [|c s IH]; simpl; congruence. Qed.

Lemma str_app_assoc (a b c : string) : (a +:+ b) +:+ c = a +:+ (b +:+ c).
Proof. induction a as [|x a IH]; simpl; [done|]. by rewrite IH. Qed.

Lemma str_length_app (a b : string) :
  String.length (a +:+ b) = (String.length a + String.length b)%nat.
Proof. induction a; simpl; congruence. Qed.

Lemma str_drop_app (a b : string) : str_drop (String.length a) (a +:+ b) = b.
Proof. by induction a. Qed.

Lemma str_take_app (a b : string) : str_take (String.length a) (a +:+ b) = a.
Proof. induction a; simpl; [by destruct b|]. congruence. Qed.

Lemma str_take_drop n (s : string) : str_take n s +:+ str_drop n s = s.
Proof. revert s. induction n; intros [|c s]; simpl; try done. by rewrite IHn. Qed.

Lemma str_length_take n (s : string) :
  (n <= String.length s)%nat -> String.length (str_take n s) = n.
Proof.
  revert s. induction n; intros [|c s]; simpl; try lia. intros. rewrite IHn; lia.
Qed.

Lemma str_app_inv_head (a b c : string) : a +:+ b = a +:+ c -> b = c.
Proof. induction a; simpl; [done|]. intros [= H]. auto. Qed.

(** [HasPrefix] is decomposition. *)
Lemma HasPrefix_spec (s p : string) : HasPrefix s p = true <-> exists r, s = p +:+ r.
Proof.
  revert s. induction p as [|c p IH]; intros s; unfold HasPrefix; simpl.
  - split; [by exists s|by destruct s].
  - destruct s as [|d s]; [split; [done|by intros [r Hr]]|].
    simpl. destruct (ascii_dec c d) as [->|Hne].
    + specialize (IH s). unfold HasPrefix in IH. rewrite IH.
      split; intros [r Hr]; exists r; simpl in *; congruence.
    + split; [done|]. intros [r Hr]. simpl in Hr. congruence.
Qed.

Lemma HasPrefix_app (p r : string) : HasPrefix (p +:+ r) p = true.
Proof. apply HasPrefix_spec. by exists r. Qed.

Lemma HasPrefix_refl (p : string) : HasPrefix p p = true.
Proof. apply HasPrefix_spec. exists "". by rewrite str_app_nil_r. Qed.

Lemma TrimPrefix_app (p r : string) : TrimPrefix (p +:+ r) p = r.
Proof. unfold TrimPrefix. by rewrite HasPrefix_app, str_drop_app. Qed.

Lemma TrimPrefix_spec (s p : string) :
  s = (if HasPrefix s p then p else "") +:+ TrimPrefix s p.
Proof.
  unfold TrimPrefix. destruct (HasPrefix s p) eqn:E; [|done].
  apply HasPrefix_spec in E as [r ->]. by rewrite str_drop_app.
Qed.

Lemma HasSuffix_app (s x : string) : HasSuffix (s +:+ x) x = true.
Proof.
  unfold HasSuffix. rewrite str_length_app, Nat.add_sub, str_drop_app.
  rewrite bool_decide_true by done. rewrite andb_true_r. apply Nat.leb_le. lia.
Qed.

Lemma TrimSuffix_app (s x : string) : TrimSuffix (s +:+ x) x = s.
Proof.
  unfold TrimSuffix. rewrite HasSuffix_app, str_length_app, Nat.add_sub. apply str_take_app.
Qed.

(** [Index] finds the first occurrence. *)
Lemma Index_Some (s sub : string) n :
  Index s sub = Some n ->
  exists a b, s = a +:+ sub +:+ b /\ String.length a = n.
Proof.
  revert n. induction s as [|c s IH]; intros n; simpl.
  - destruct (HasPrefix "" sub) eqn:E; intros H; [|discriminate H]. injection H as <-.
    apply HasPrefix_spec in E as [r Hr]. by exists "", r.
  - destruct (HasPrefix (String c s) sub) eqn:E.
    + intros [= <-]. apply HasPrefix_spec in E as [r Hr]. by exists "", r.
    + intros (m & Hm & ->)%fmap_Some_1. destruct (IH m Hm) as (a & b & -> & <-).
      by exists (String c a), b.
Qed.

Lemma Index_app_is_Some (a sub b : string) : is_Some (Index (a +:+ sub +:+ b) sub).
Proof.
  induction a as [|c a [n IH]].
  - change ("" +:+ sub +:+ b) with (sub +:+ b).
    destruct (sub +:+ b) eqn:E; cbn [Index]; rewrite <-E, HasPrefix_app; eauto.
  - cbn [String.append Index]. case_match; eauto. rewrite IH. simpl. eauto.
Qed.

Lemma Contains_spec (s sub : string) :
  Contains s sub = true <-> exists a b, s = a +:+ sub +:+ b.
Proof.
  unfold Contains. split.
  - destruct (Index s sub) as [n|] eqn:E; [|done]. intros _.
    apply Index_Some in E as (a & b & -> & _). by exists a, b.
  - intros (a & b & ->). destruct (Index_app_is_Some a sub b) as [n ->]. done.
Qed.

Lemma LastIndex_Some (s sub : string) n :
  LastIndex s sub = Some n ->
  exists a b, s = a +:+ sub +:+ b /\ String.length a = n.
Proof.
  revert n. induction s as [|c s IH]; intros n; simpl.
  - destruct (HasPrefix "" sub) eqn:E; intros H; [|discriminate H]. injection H as <-.
    apply HasPrefix_spec in E as [r Hr]. by exists "", r.
  - destruct (LastIndex s sub) as [m|] eqn:E.
    + intros [= <-]. destruct (IH m eq_refl) as (a & b & -> & <-).
      by exists (String c a), b.
    + destruct (HasPrefix (String c s) sub) eqn:E'; [|done].
      intros [= <-]. apply HasPrefix_spec in E' as [r Hr]. by exists "", r.
Qed.

(** [Split] loses nothing: joining the pieces gives the string back. *)
Lemma split_go_nonempty sep k s : split_go sep k s <> [].
Proof.
  revert k. induction s as [|c s IH]; intros [|k]; simpl; try done.
  case_match; [done|]. unfold cons_head. by case_match.
Qed.

Lemma Join_cons s l sep : l <> [] -> Join (s :: l) sep = s +:+ sep +:+ Join l sep.
Proof. by destruct l. Qed.

Lemma Join_cons_head c l sep :
  l <> [] -> Join (cons_head c l) sep = String c (Join l sep).
Proof. destruct l as [|h [|h' t]]; done. Qed.

Lemma Join_split_go sep k s :
  sep <> "" -> (k <= String.length s)%nat ->
  Join (split_go sep k s) sep = str_drop k s.
Proof.
  intros Hsep. revert k. induction s as [|c s IH]; intros [|k]; cbn [split_go String.length];
    intros Hk; try done; try lia.
  - destruct (HasPrefix (String c s) sep) eqn:E.
    + apply HasPrefix_spec in E as [r Hr].
      destruct sep as [|c' sep]; [done|]. simpl in Hr. injection Hr as <- Hr.
      rewrite Join_cons by apply split_go_nonempty.
      cbn [Nat.pred String.length]. rewrite IH, Hr, str_drop_app; [done|].
      rewrite Hr, str_length_app. lia.
    + rewrite Join_cons_head by apply split_go_nonempty. rewrite IH by lia. done.
  - simpl. apply IH. lia.
Qed.

Theorem Join_Split s sep : sep <> "" -> Join (Split s sep) sep = s.
Proof. intros. unfold Split. rewrite Join_split_go; [done|done|lia]. Qed.

Lemma Split_nonempty s sep : Split s sep <> [].
Proof. apply split_go_nonempty. Qed.

(** Splitting a string without the separator is a singleton. *)
Lemma split_go_absent sep s :
  sep <> "" -> Contains s sep = false -> split_go sep 0 s = [s].
Proof.
  intros Hsep. induction s as [|c s IH]; intros H; [done|]. cbn [split_go].
  unfold Contains in *. cbn [Index] in H.
  destruct (HasPrefix (String c s) sep); [done|].
  rewrite IH; [done|]. by destruct (Index s sep).
Qed.

Lemma Contains_false_cons c s sub :
  Contains (String c s) sub = false -> Contains s sub = false.
Proof.
  unfold Contains. cbn [Index].
  destruct (HasPrefix (String c s) sub); [done|]. by destruct (Index s sub).
Qed.

(** [ReplaceAll] is the identity where the pattern does not occur. *)
Lemma ReplaceAll_absent s old new : Contains s old = false -> ReplaceAll s old new = s.
Proof.
  unfold ReplaceAll. induction s as [|c s IH]; intros H; [done|]. cbn [replace_go].
  pose proof H as H'. unfold Contains in H'. cbn [Index] in H'.
  destruct (HasPrefix (String c s) old); [done|].
  by rewrite IH by (by eapply Contains_false_cons).
Qed.

(** Searching for a single character. *)
Definition free_of (c : ascii) (s : string) : Prop := Contains s (String c "") = false.

Lemma HasPrefix_char c s d : HasPrefix (String c s) (String d "") = bool_decide (c = d).
Proof.
  unfold HasPrefix. simpl. destruct (ascii_dec d c) as [->|Hne].
  - rewrite bool_decide_true by done. by destruct s.
  - rewrite bool_decide_false; [done|congruence].
Qed.

Lemma free_of_cons c d s : free_of c (String d s) <-> d <> c /\ free_of c s.
Proof.
  unfold free_of, Contains. cbn [Index]. rewrite HasPrefix_char.
  case_bool_decide; [naive_solver|]. destruct (Index s _); naive_solver.
Qed.

Lemma Index_char_app c a b :
  free_of c a -> Index (a +:+ String c b) (String c "") = Some (String.length a).
Proof.
  induction a as [|d a IH]; intros Ha.
  - cbn [String.append Index]. by rewrite HasPrefix_char, bool_decide_true.
  - apply free_of_cons in Ha as [Hd Ha]. cbn [String.append Index String.length].
    rewrite HasPrefix_char, bool_decide_false by done. by rewrite IH.
Qed.

Lemma LastIndex_char_free c b : free_of c b -> LastIndex b (String c "") = None.
Proof.
  induction b as [|d b IH]; [done|]. intros [Hd Hb]%free_of_cons. cbn [LastIndex].
  by rewrite IH, HasPrefix_char, bool_decide_false.
Qed.

Lemma LastIndex_char_app c a b :
  free_of c b -> LastIndex (a +:+ String c b) (String c "") = Some (String.length a).
Proof.
  intros Hb. induction a as [|d a IH]; cbn [String.append LastIndex String.length].
  - by rewrite (LastIndex_char_free c b), HasPrefix_char, bool_decide_true.
  - by rewrite IH.
Qed.

(** A string in which the separator occurs once splits in two. *)
Lemma split_go_skip sep k s r :
  String.length s = k -> split_go sep k (s +:+ r) = split_go sep 0 r.
Proof.
  revert s. induction k as [|k IH]; intros [|c s] H; try done. simpl. apply IH. by injection H.
Qed.

Lemma Split_once sep a b :
  sep <> "" -> Index (a +:+ sep +:+ b) sep = Some (String.length a) ->
  Contains b sep = false -> Split (a +:+ sep +:+ b) sep = [a; b].
Proof.
  intros Hsep Hi Hb. unfold Split. induction a as [|c a IH].
  - destruct sep as [|c sep]; [done|]. cbn [String.append split_go].
    change (String c (sep +:+ b)) with (String c sep +:+ b). rewrite HasPrefix_app.
    cbn [String.length Nat.pred]. rewrite split_go_skip by done. by rewrite split_go_absent.
  - cbn [String.append split_go]. cbn [String.append Index String.length] in Hi.
    destruct (HasPrefix _ sep); [done|]. apply fmap_Some in Hi as (n & Hn & Heq).
    injection Heq as <-. by rewrite IH.
Qed.

(** Splitting at a character takes off the part before its first occurrence. *)
Lemma Split_char_cons c w rest :
  free_of c w -> Split (w +:+ String c rest) (String c "") = w :: Split rest (String c "").
Proof.
  unfold Split. induction w as [|d w IH]; cbn [String.append split_go].
  - intros _. by rewrite HasPrefix_char, bool_decide_true.
  - intros [Hd Hw]%free_of_cons. rewrite HasPrefix_char, bool_decide_false by done. by rewrite IH.
Qed.

(** ** Strings over a class of characters *)

Fixpoint all_chars (p : ascii -> bool) (s : string) : bool :=
  match s with
  | EmptyString => true
  | String c s' => p c && all_chars p s'
  end.

Lemma all_chars_app p a b : all_chars p (a +:+ b) = all_chars p a && all_chars p b.
Proof. induction a as [|c a IH]; [done|]. simpl. by rewrite IH, andb_assoc. Qed.

Lemma all_chars_weaken (p q : ascii -> bool) s :
  (forall c, p c = true -> q c = true) -> all_chars p s = true -> all_chars q s = true.
Proof.
  intros H. induction s as [|c s IH]; [done|]. simpl. rewrite !andb_true_iff. intros [? ?]. auto.
Qed.

Lemma all_chars_free p c s : p c = false -> all_chars p s = true -> free_of c s.
Proof.
  intros Hc. induction s as [|d s IH]; [done|]. simpl. rewrite andb_true_iff. intros [Hd Hs].
  apply free_of_cons. split; [intros ->; congruence|auto].
Qed.

Lemma all_chars_Join p l sep :
  all_chars p sep = true -> Forall (fun s => all_chars p s = true) l -> all_chars p (Join l sep) = true.
Proof.
  intros Hsep. induction 1 as [|s l Hs Hl IH]; [done|]. destruct l as [|s' l]; [done|].
  change (Join (s :: s' :: l) sep) with (s +:+ sep +:+ Join (s' :: l) sep).
  by rewrite !all_chars_app, Hs, Hsep, IH.
Qed.

(** Replacing a character is a map on characters. *)
Lemma ReplaceAll_cons c s d new :
  ReplaceAll (String c s) (String d "") new =
  (if bool_decide (c = d) then new +:+ ReplaceAll s (String d "") new
   else String c (ReplaceAll s (String d "") new)).
Proof. unfold ReplaceAll. cbn [replace_go]. rewrite HasPrefix_char. by case_bool_decide. Qed.

Lemma ReplaceAll_char_app a b d new :
  ReplaceAll (a +:+ b) (String d "") new =
  ReplaceAll a (String d "") new +:+ ReplaceAll b (String d "") new.
Proof.
  induction a as [|c a IH]; [done|]. cbn [String.append]. rewrite !ReplaceAll_cons, IH.
  case_bool_decide; [by rewrite str_app_assoc|done].
Qed.

Lemma all_chars_ReplaceAll p s d new :
  all_chars p new = true -> all_chars p s = true -> all_chars p (ReplaceAll s (String d "") new) = true.
Proof.
  intros Hn. induction s as [|c s IH]; [done|]. simpl. rewrite andb_true_iff. intros [Hc Hs].
  rewrite ReplaceAll_cons. case_bool_decide.
  - by rewrite all_chars_app, Hn, IH.
  - simpl. by rewrite Hc, IH.
Qed.

(** *** Fields of space-separated words *)

Definition no_space (s : string) : bool := all_chars (fun c => negb (is_space c)) s.

Lemma fields_go_word w rest :
  no_space w = true -> fields_go true (w +:+ String " " rest) = w :: Fields rest.
Proof.
  induction w as [|c w IH]; [done|]. unfold no_space. simpl. rewrite andb_true_iff, negb_true_iff.
  intros [Hc Hw]. rewrite Hc. by rewrite IH.
Qed.

Lemma Fields_word w rest :
  w <> "" -> no_space w = true -> Fields (w +:+ String " " rest) = w :: Fields rest.
Proof.
  intros Hne. destruct w as [|c w]; [done|]. unfold no_space. simpl. rewrite andb_true_iff, negb_true_iff.
  intros [Hc Hw]. unfold Fields at 1. cbn [String.append fields_go]. rewrite Hc. by rewrite fields_go_word.
Qed.

(** A text without white space is trimmed. *)
Lemma trim_left_no_space s : no_space s = true -> trim_left is_space s = s.
Proof. destruct s as [|c s]; [done|]. unfold no_space. simpl. by rewrite andb_true_iff, negb_true_iff; intros [-> _]. Qed.
Lemma trim_right_no_space s : no_space s = true -> trim_right is_space s = s.
Proof.
  unfold no_space. induction s as [|c s IH]; [done|]. simpl. rewrite andb_true_iff, negb_true_iff.
  intros [Hc Hs]. rewrite IH by done. rewrite Hc. by destruct s.
Qed.
Lemma trim_right_app p a b : trim_right p b = b -> b <> "" -> trim_right p (a +:+ b) = a +:+ b.
Proof.
  intros Hb Hne. induction a as [|c a IH]; [done|]. cbn [String.append trim_right]. rewrite IH.
  destruct a as [|d a]; cbn [String.append]; [by destruct b|done].
Qed.
Lemma TrimSpace_no_space s : no_space s = true -> TrimSpace s = s.
Proof. intros Hs. unfold TrimSpace. by rewrite trim_left_no_space, trim_right_no_space. Qed.

(** *** The last line *)

Lemma last_cons_head c l : l <> [] -> length l <> 1%nat -> last (cons_head c l) = last l.
Proof. destruct l as [|x [|y l]]; done. Qed.

Lemma last_Split_char c a b :
  free_of c b -> last (Split (a +:+ String c b) (String c "")) = Some b.
Proof.
  intros Hb. unfold Split.
  assert (forall r, (1 < length (split_go (String c "") 0 (r +:+ String c b)))%nat /\
                    last (split_go (String c "") 0 (r +:+ String c b)) = Some b) as H; [|apply H].
  induction r as [|d r [IHn IHl]].
  - cbn [String.append split_go]. rewrite HasPrefix_char, bool_decide_true by done.
    cbn [String.length Nat.pred]. rewrite split_go_absent by done. split; [simpl; lia|done].
  - cbn [String.append split_go]. rewrite HasPrefix_char. case_bool_decide.
    + cbn [String.length Nat.pred length last]. split; [lia|].
      destruct (split_go (String c "") 0 (r +:+ String c b)); [done|]. done.
    + destruct (split_go _ 0 _) as [|x [|y l]]; simpl in *; [lia|lia|]. split; [lia|done].
Qed.

(** ** Elements of a path *)

(** The elements of a cleaned path, and the path they make. *)
Definition path_elements (rooted : bool) (p : string) : list string :=
  rev (fold_left (clean_step rooted) (Split p "/") []).
Definition path_of (rooted : bool) (comps : list string) : string :=
  if rooted then "/" +:+ Join comps "/" else match comps with [] => "." | _ => Join comps "/" end.

Lemma Split_char_app c a b : Split (a +:+ String c b) (String c "") = Split a (String c "") ++ Split b (String c "").
Proof.
  unfold Split. induction a as [|d a IH]; cbn [String.append split_go].
  - by rewrite HasPrefix_char, bool_decide_true.
  - rewrite !HasPrefix_char. case_bool_decide; cbn [String.length Nat.pred]; [by rewrite IH|]. rewrite IH.
    pose proof (split_go_nonempty (String c "") 0 a). by destruct (split_go _ 0 a).
Qed.

(** The pieces of a string are parts of it. *)
Lemma Split_char_parts c s x : x ∈ Split s (String c "") -> exists a b, s = a +:+ x +:+ b.
Proof.
  enough (exists h l, Split s (String c "") = h :: l /\ (exists b, s = h +:+ b) /\
            forall x, x ∈ l -> exists a b, s = a +:+ x +:+ b) as (h & l & -> & [b Hb] & Hl).
  { intros [->|Hx]%elem_of_cons; [by exists "", b|by apply Hl]. }
  unfold Split. induction s as [|d s (h & l & E & [b Hb] & Hl)]; cbn [split_go].
  - exists "", []. split; [done|]. split; [by exists ""|]. by intros y ?%elem_of_nil.
  - rewrite HasPrefix_char. cbn [String.length Nat.pred]. rewrite E. case_bool_decide; cbn [cons_head].
    + exists "", (h :: l). split; [done|]. split; [by eexists|]. intros y [->|Hy]%elem_of_cons.
      * exists (String d ""), b. cbn. by rewrite <-Hb.
      * destruct (Hl y Hy) as (a' & b' & ->). by exists (String d a'), b'.
    + exists (String d h), l. split; [done|]. split; [exists b; cbn; by rewrite <-Hb|]. intros y Hy.
      destruct (Hl y Hy) as (a' & b' & ->). by exists (String d a'), b'.
Qed.

(** Elements without dots are put on top. *)
Lemma clean_steps rooted l stack :
  ".." ∉ l -> exists rest, fold_left (clean_step rooted) l stack = rest ++ stack /\ Forall (fun x => x ∈ l /\ x <> "" /\ x <> ".") rest.
Proof.
  revert stack. induction l as [|x l IH]; intros stack Hl; [by exists []|].
  apply not_elem_of_cons in Hl as [Hx Hl]. cbn [fold_left]. unfold clean_step at 2.
  rewrite (proj2 (String.eqb_neq x "..")) by done.
  assert (forall rest, Forall (fun x => x ∈ l /\ x <> "" /\ x <> ".") rest -> Forall (fun y => y ∈ x :: l /\ y <> "" /\ y <> ".") rest) as Hw.
  { intros rest Hr. eapply Forall_impl; [exact Hr|]. cbn. intros y (? & ? & ?). split_and!; [|done..]. by right. }
  destruct (String.eqb_spec x ""), (String.eqb_spec x "."); cbn [orb];
    try (destruct (IH stack Hl) as (rest & -> & Hr); exists rest; auto; fail).
  destruct (IH (x :: stack) Hl) as (rest & -> & Hr). exists (rest ++ [x]). rewrite <-app_assoc. split; [done|].
  apply Forall_app. split; [by auto|]. constructor; [|done]. split_and!; [by left|done..].
Qed.

(** A path without ".." joined to a directory stays below it. *)
Lemma path_Join_below dir p :
  dir <> "" -> Contains p ".." = false ->
  exists rest, path_Join [dir; p] = path_of (HasPrefix dir "/") (path_elements (HasPrefix dir "/") dir ++ rest) /\
    Forall (fun x => x <> "" /\ x <> "." /\ x <> "..") rest.
Proof.
  intros Hd Hp. unfold path_Join. cbn [List.filter]. rewrite (proj2 (String.eqb_neq dir "")) by done. cbn [negb].
  destruct (String.eqb_spec p "") as [->|Hne]; cbn [negb].
  { exists []. rewrite app_nil_r. by split. }
  cbn [Join]. change ("/" +:+ p) with (String "/"%char p). unfold path_Clean.
  assert (HasPrefix (dir +:+ String "/"%char p) "/" = HasPrefix dir "/") as ->.
  { destruct dir as [|c dir]; [done|]. cbn [String.append]. by rewrite !HasPrefix_char. }
  rewrite Split_char_app, fold_left_app.
  destruct (clean_steps (HasPrefix dir "/") (Split p "/") (fold_left (clean_step (HasPrefix dir "/")) (Split dir "/") []))
    as (rest & -> & Hr).
  { intros (a & b & ->)%Split_char_parts. assert (Contains (a +:+ ".." +:+ b) ".." = true) by (apply Contains_spec; by exists a, b).
    congruence. }
  exists (rev rest). rewrite rev_app_distr. split; [done|].
  apply Forall_rev. apply Forall_forall. intros x Hx. rewrite Forall_forall in Hr. destruct (Hr x Hx) as (Hin & H1 & H2).
  split_and!; [done|done|]. intros ->. apply Split_char_parts in Hin as (a & b & ->).
  assert (Contains (a +:+ ".." +:+ b) ".." = true) by (apply Contains_spec; by exists a, b). congruence.
Qed.

Create Rewrite HintDb go_str.
#[export] Hint Rewrite str_app_nil_r TrimPrefix_app TrimSuffix_app HasPrefix_app
  HasPrefix_refl : go_str.
