(* ===== verification/Decimal.v ===== *)
(** * Decimal numerals

    What [strconv] prints and reads: the digits of [pretty] numbers, and that
    reading them back gives the number. *)
From S2P Require Import Prelude.
From S2P Require Import GoStrings.
From Stdlib Require Import Ascii.

Lemma pretty_N_char_digit x : is_digit (pretty_N_char x) = true.
Proof. destruct x as [|[[[|[]|]|[[]|[]|]|]|[[|[]|]|[[]|[]|]|]|]]; done. Qed.

Lemma pretty_N_go_digit x s :
  (0 < x)%N -> exists c r, pretty_N_go x s = String c r /\ is_digit c = true.
Proof.
  revert s. induction (N.lt_wf_0 x) as [x _ IH]. intros s Hx. rewrite pretty_N_go_step by done.
  destruct (decide (x / 10 = 0)%N) as [E|E].
  - rewrite E, pretty_N_go_0. eexists _, _. split; [done|apply pretty_N_char_digit].
  - apply IH; [apply N.div_lt; lia|by apply N.neq_0_lt_0].
Qed.

Lemma pretty_digit (n : nat) : exists c r, pretty n = String c r /\ is_digit c = true.
Proof.
  unfold pretty, pretty_nat, pretty, pretty_N. destruct (decide _); [by exists "0"%char, ""|].
  apply pretty_N_go_digit. lia.
Qed.

(** Every character of the numeral is a digit. *)
Lemma pretty_N_go_digits x s :
  all_chars is_digit s = true -> all_chars is_digit (pretty_N_go x s) = true.
Proof.
  revert s. induction (N.lt_wf_0 x) as [x _ IH]. intros s Hs.
  destruct (decide (x = 0)%N) as [->|Hx]; [by rewrite pretty_N_go_0|].
  rewrite pretty_N_go_step by lia. apply IH; [apply N.div_lt; lia|].
  cbn [all_chars]. by rewrite pretty_N_char_digit.
Qed.

Lemma digits_value_char x s acc :
  (x < 10)%N ->
  digits_value (String (pretty_N_char x) s) acc = digits_value s (acc * 10 + Z.of_N x)%Z.
Proof.
  intros Hx. cbn [digits_value]. rewrite pretty_N_char_digit. do 2 f_equal.
  destruct x as [|[[[|[]|]|[[]|[]|]|]|[[|[]|]|[[]|[]|]|]|]]; try done; lia.
Qed.

Lemma digits_value_nonneg s acc v : (0 <= acc)%Z -> digits_value s acc = Some v -> (0 <= v)%Z.
Proof.
  revert acc. induction s as [|c s IH]; intros acc Ha; cbn [digits_value]; [intros [= <-]; lia|].
  unfold is_digit. destruct (N.leb_spec 48 (N_of_ascii c)); [|done]. destruct (N.leb_spec (N_of_ascii c) 57); [|done].
  cbn [andb]. apply IH. lia.
Qed.

(** Reading the numeral of [x] adds [x] in front of the digits that follow. *)
Lemma digits_value_pretty_go x s : digits_value (pretty_N_go x s) 0 = digits_value s (Z.of_N x).
Proof.
  revert s. induction (N.lt_wf_0 x) as [x _ IH]. intros s.
  destruct (decide (x = 0)%N) as [->|Hx]; [by rewrite pretty_N_go_0|].
  rewrite pretty_N_go_step by lia. rewrite IH by (apply N.div_lt; lia).
  rewrite digits_value_char by (by apply N.mod_lt). f_equal.
  rewrite N2Z.inj_div, N2Z.inj_mod. change (Z.of_N 10) with 10%Z.
  pose proof (Z.div_mod (Z.of_N x) 10 ltac:(done)). lia.
Qed.

(** A non-negative number as it is printed: digits that read back as it. *)
Lemma pretty_Z_digits (z : Z) :
  (0 <= z)%Z ->
  all_chars is_digit (pretty z) = true /\ pretty z <> "" /\ digits_value (pretty z) 0 = Some z.
Proof.
  intros Hz. destruct z as [|p|p]; [by vm_compute|..|lia].
  change (pretty (Z.pos p)) with (pretty_N_go (N.pos p) "").
  split_and!.
  - by apply pretty_N_go_digits.
  - destruct (pretty_N_go_digit (N.pos p) "") as (c & r & -> & _); [lia|done].
  - by rewrite digits_value_pretty_go.
Qed.

Lemma Atoi_pretty (z : Z) : (0 <= z < 2 ^ 63)%Z -> Atoi (pretty z) = Some z.
Proof.
  intros Hz. destruct (pretty_Z_digits z) as (Hd & Hne & Hv); [lia|].
  unfold Atoi. destruct (pretty z) as [|c s] eqn:E; [done|].
  assert (c <> "-"%char /\ c <> "+"%char) as [Hm Hp].
  { cbn [all_chars] in Hd. apply andb_true_iff in Hd as [Hd _]. by split; intros ->. }
  replace (match String c s with String "-" r => ((-1)%Z, r) | String "+" r => (1%Z, r) | _ => (1%Z, String c s) end)
    with (1%Z, String c s) by (by destruct c as [[] [] [] [] [] [] [] []]).
  rewrite bool_decide_false by done. rewrite Hv. cbn [mbind option_bind].
  rewrite Z.mul_1_l. by rewrite (proj2 (Z.leb_le _ _)), (proj2 (Z.ltb_lt _ _)) by lia.
Qed.

(** The digits of a numeral end where another character begins. *)
Definition no_digit_first (s : string) : bool :=
  match s with String c _ => negb (is_digit c) | EmptyString => true end.

Lemma span_digits_app d rest :
  all_chars is_digit d = true -> no_digit_first rest = true -> span_digits (d +:+ rest) = (d, rest).
Proof.
  intros Hd Hr. induction d as [|c d IH]; simpl in *.
  - destruct rest as [|c rest]; [done|]. simpl in *. by apply negb_true_iff in Hr as ->.
  - apply andb_true_iff in Hd as [-> Hd]. by rewrite IH.
Qed.

Lemma digits_no_space d : all_chars is_digit d = true -> no_space d = true.
Proof.
  apply all_chars_weaken. intros c. unfold is_digit, is_space. destruct c as [[] [] [] [] [] [] [] []]; by vm_compute.
Qed.
