(* ===== verification/Hash.v ===== *)
(** * The hash functions of the driver: [crypto/sha256], [encoding/hex], [hash/fnv]

    SHA-256 (FIPS 180-4) on 32-bit words kept in [N] with their wrap-around
    written out, and 32-bit FNV-1a.  They are executable, so reference keys,
    setting hashes and lock indices evaluate to the strings and numbers the
    driver computes. *)
From S2P Require Import Prelude.
From S2P Require Import GoStrings.
From Stdlib Require Import Ascii NArith.
#[local] Open Scope N_scope.

(** ** 32-bit words *)

Definition W32 : N := 2 ^ 32.
Definition add32 (a b : N) : N := (a + b) mod W32.
Definition rotr32 (n x : N) : N :=
  N.lor (N.shiftr x n) (N.shiftl x (32 - n) mod W32).
Definition not32 (x : N) : N := N.lxor x (W32 - 1).

Definition sum32 : list N -> N := foldr add32 0.

(** ** SHA-256 *)

(** The round constants and the initial state are the first 32 bits of the
    fractional parts of the cube (square) roots of the first primes; they are
    computed here, and the test vectors below confirm them. *)
Fixpoint nth_root (k n : N) (bits : nat) (acc : N) : N :=
  match bits with
  | O => acc
  | S b => let acc' := acc + 2 ^ N.of_nat b in
           nth_root k n b (if acc' ^ k <=? n then acc' else acc)
  end.
Definition primes_below (n : nat) : list N :=
  map N.of_nat (List.filter (fun p => forallb (fun d => negb (Nat.eqb (Nat.modulo p d) 0)) (seq 2 (p - 2)))
                  (seq 2 (n - 2))).
Definition root_fraction (k p : N) : N := nth_root k (p * 2 ^ (32 * k)) 38 0 mod W32.

Definition sha_k : list N :=
  Eval vm_compute in map (root_fraction 3) (primes_below 312).

(** The eight working variables. *)
Record sha_state := ShaState { sa : N; sb : N; sc : N; sd : N; se : N; sf : N; sg : N; sh : N }.

Definition sha_init : sha_state :=
  Eval vm_compute in
    match map (root_fraction 2) (primes_below 20) with
    | [a; b; c; d; e; f; g; h] => ShaState a b c d e f g h
    | _ => ShaState 0 0 0 0 0 0 0 0
    end.

Definition sha_words (s : sha_state) : list N :=
  [sa s; sb s; sc s; sd s; se s; sf s; sg s; sh s].

(** Message schedule: [win] is the window of the last 16 words, oldest first. *)
Definition sha_next_word (win : list N) : N :=
  let w n := nth n win 0 in
  let s0 := N.lxor (N.lxor (rotr32 7 (w 1%nat)) (rotr32 18 (w 1%nat))) (N.shiftr (w 1%nat) 3) in
  let s1 := N.lxor (N.lxor (rotr32 17 (w 14%nat)) (rotr32 19 (w 14%nat))) (N.shiftr (w 14%nat) 10) in
  sum32 [w 0%nat; s0; w 9%nat; s1].

Definition sha_round (k w : N) (s : sha_state) : sha_state :=
  let S1 := N.lxor (N.lxor (rotr32 6 (se s)) (rotr32 11 (se s))) (rotr32 25 (se s)) in
  let ch := N.lxor (N.land (se s) (sf s)) (N.land (not32 (se s)) (sg s)) in
  let t1 := sum32 [sh s; S1; ch; k; w] in
  let S0 := N.lxor (N.lxor (rotr32 2 (sa s)) (rotr32 13 (sa s))) (rotr32 22 (sa s)) in
  let maj := N.lxor (N.lxor (N.land (sa s) (sb s)) (N.land (sa s) (sc s))) (N.land (sb s) (sc s)) in
  let t2 := add32 S0 maj in
  ShaState (add32 t1 t2) (sa s) (sb s) (sc s) (add32 (sd s) t1) (se s) (sf s) (sg s).

Fixpoint sha_rounds (ks : list N) (win : list N) (s : sha_state) : sha_state :=
  match ks with
  | [] => s
  | k :: ks' =>
      sha_rounds ks' (drop 1 win ++ [sha_next_word win]) (sha_round k (nth 0 win 0) s)
  end.

Definition sha_block (s : sha_state) (block : list N) : sha_state :=
  let t := sha_rounds sha_k block s in
  ShaState (add32 (sa s) (sa t)) (add32 (sb s) (sb t)) (add32 (sc s) (sc t)) (add32 (sd s) (sd t))
           (add32 (se s) (se t)) (add32 (sf s) (sf t)) (add32 (sg s) (sg t)) (add32 (sh s) (sh t)).

(** Big-endian bytes of a number, and words of bytes. *)
Fixpoint be_bytes (n : nat) (x : N) : list N :=
  match n with
  | O => []
  | S n' => N.shiftr x (8 * N.of_nat n') mod 256 :: be_bytes n' x
  end.

Fixpoint be_words (bs : list N) : list N :=
  match bs with
  | a :: b :: c :: d :: bs' => (((a * 256 + b) * 256 + c) * 256 + d) :: be_words bs'
  | _ => []
  end.

Definition sha_pad (bs : list N) : list N :=
  let len := N.of_nat (length bs) in
  bs ++ 0x80 :: replicate (N.to_nat ((119 - len mod 64) mod 64)) 0 ++ be_bytes 8 (8 * len).

Fixpoint sha_blocks (fuel : nat) (ws : list N) (s : sha_state) : sha_state :=
  match fuel with
  | O => s
  | S fuel' =>
      match ws with
      | [] => s
      | _ => sha_blocks fuel' (drop 16 ws) (sha_block s (take 16 ws))
      end
  end.

Definition bytes_of_string (s : string) : list N :=
  map N_of_ascii (String.list_ascii_of_string s).

(** [sha256.Sum]: the eight words of the digest. *)
Definition sha256 (s : string) : list N :=
  let ws := be_words (sha_pad (bytes_of_string s)) in
  sha_words (sha_blocks (length ws) ws sha_init).

(** ** Hexadecimal *)

Definition hex_digit (n : N) : ascii :=
  if (n <? 10)%N then ascii_of_N (48 + n) else ascii_of_N (87 + n).

(** The [n] low nibbles of [x], most significant first. *)
Fixpoint hex_nibbles (n : nat) (x : N) : string :=
  match n with
  | O => EmptyString
  | S n' => String (hex_digit (N.shiftr x (4 * N.of_nat n') mod 16)) (hex_nibbles n' x)
  end.

Definition hex_words (ws : list N) : string := foldr (fun w s => hex_nibbles 8 w +:+ s) "" ws.

(** [hex.EncodeToString(h.Sum(nil))], also the [%x] verb on the digest. *)
Definition sha256_hex (s : string) : string := hex_words (sha256 s).

Lemma hex_nibbles_length n x : String.length (hex_nibbles n x) = n.
Proof. induction n; simpl; congruence. Qed.

Lemma hex_words_length ws : String.length (hex_words ws) = (8 * length ws)%nat.
Proof.
  induction ws as [|w ws IH]; [done|].
  unfold hex_words in *. cbn [foldr]. rewrite str_length_app, hex_nibbles_length, IH. simpl. lia.
Qed.

Lemma sha256_hex_length s : String.length (sha256_hex s) = 64%nat.
Proof. unfold sha256_hex. by rewrite hex_words_length. Qed.

(** ** FNV-1a, 32 bits *)

Definition fnv_offset32 : N := 2166136261.
Definition fnv_prime32 : N := 16777619.

Definition fnv32a (s : string) : N :=
  foldl (fun h c => (N.lxor h c * fnv_prime32) mod W32) fnv_offset32 (bytes_of_string s).

Lemma fnv32a_bound s : fnv32a s < W32.
Proof.
  unfold fnv32a. induction (bytes_of_string s) as [|c l IH] using rev_ind; [done|].
  rewrite foldl_app. simpl. apply N.mod_lt. done.
Qed.

(** ** Test vectors (FIPS 180-4, the FNV reference code) *)

Example sha256_abc :
  sha256_hex "abc" = "ba7816bf8f01cfea414140de5dae2223b00361a396177a9cb410ff61f20015ad".
Proof. vm_compute. reflexivity. Qed.

Example sha256_two_blocks :
  sha256_hex "abcdbcdecdefdefgefghfghighijhijkijkljklmklmnlmnomnopnopq"
  = "248d6a61d20638b8e5c026930c3e6039a33ce45964ff2167f6ecedd419db06c1".
Proof. vm_compute. reflexivity. Qed.

Example fnv32a_foobar : fnv32a "foobar" = 0xbf9cf968.
Proof. vm_compute. reflexivity. Qed.
