(* ===== verification/Prog.v ===== *)
(** * Effectful programs

    The driver is a sequential program between calls to its environment: the
    Kubernetes API, the kubelet, the mount table, the operating system, the
    clock.  A handler is modelled as a [prog]: a tree that returns, halts, or
    issues one command and continues with the environment's answer.

    - [runs p t o]: the program can perform exactly the calls of the trace [t]
      (each with its answer) and end with the outcome [o].  The answers are
      arbitrary: a theorem about [runs] holds whatever the other actors of the
      cluster do between two calls.
    - [wp p Q t]: every run that extends the history [t] ends in [Q]; the
      compositional way to prove properties of [runs].
    - [exec]: the executable semantics against a stateful environment. *)
From S2P Require Import Prelude.

(** A signature: commands, and the type of the answer to each. *)
Record signature := Signature { cmd : Type; answer : cmd -> Type }.

(** A Go panic, or the fuel of a [for] loop exhausted. *)
Inductive stop := GoPanic (msg : string) | NoFuel.

Inductive outcome (A : Type) :=
| Done (a : A)
| Halted (s : stop).
Arguments Done {A}. Arguments Halted {A}.

Inductive prog (S : signature) (A : Type) : Type :=
| Ret (a : A)
| Halt (s : stop)
| Vis (c : cmd S) (k : answer S c -> prog S A).
Arguments Ret {S A}. Arguments Halt {S A}. Arguments Vis {S A}.

Definition event (S : signature) : Type := { c : cmd S & answer S c }.
Definition ev {S} (c : cmd S) (a : answer S c) : event S := existT c a.
Abbreviation trace S := (list (event S)).

Declare Scope go_scope.
Delimit Scope go_scope with go.
Reserved Notation "x <- p ;; q" (at level 100, p at next level, right associativity).
Reserved Notation "p ;;; q" (at level 100, right associativity).

Section prog.
Context {S : signature}.

Definition panic {A} (msg : string) : prog S A := Halt (GoPanic msg).
Definition call (c : cmd S) : prog S (answer S c) := Vis c Ret.

Fixpoint bind {A B} (p : prog S A) (f : A -> prog S B) : prog S B :=
  match p with
  | Ret a => f a
  | Halt s => Halt s
  | Vis c k => Vis c (fun a => bind (k a) f)
  end.

(** Go's [for x := range l] with a body that may return early
    ([inr r]) or go on ([inl s]). *)
Fixpoint for_each {X St R} (l : list X) (body : X -> St -> prog S (St + R)) (s : St)
  : prog S (St + R) :=
  match l with
  | [] => Ret (inl s)
  | x :: l' => bind (body x s) (fun r =>
               match r with
               | inl s' => for_each l' body s'
               | inr v => Ret (inr v)
               end)
  end.

(** A range loop without early return. *)
Fixpoint fold_prog {X St} (l : list X) (body : X -> St -> prog S St) (s : St) : prog S St :=
  match l with
  | [] => Ret s
  | x :: l' => bind (body x s) (fold_prog l' body)
  end.

(** [for { body }]: at most [fuel] iterations. *)
Fixpoint loop {St R} (fuel : nat) (body : St -> prog S (St + R)) (s : St) : prog S R :=
  match fuel with
  | O => Halt NoFuel
  | Datatypes.S n => bind (body s) (fun r =>
                     match r with
                     | inl s' => loop n body s'
                     | inr v => Ret v
                     end)
  end.
End prog.

Notation "x <- p ;; q" := (bind p (fun x => q)) : go_scope.
Notation "p ;;; q" := (bind p (fun _ => q)) : go_scope.

(** ** Runs *)

Section runs.
Context {S : signature}.
Implicit Types (t : trace S).

Fixpoint runs {A} (p : prog S A) t (o : outcome A) : Prop :=
  match p with
  | Ret a => t = [] /\ o = Done a
  | Halt s => t = [] /\ o = Halted s
  | Vis c k => exists a t', t = ev c a :: t' /\ runs (k a) t' o
  end.

Fixpoint wp {A} (p : prog S A) (Q : trace S -> outcome A -> Prop) t : Prop :=
  match p with
  | Ret a => Q t (Done a)
  | Halt s => Q t (Halted s)
  | Vis c k => forall a, wp (k a) Q (t ++ [ev c a])
  end.

Lemma wp_runs {A} (p : prog S A) Q t0 :
  wp p Q t0 <-> forall t o, runs p t o -> Q (t0 ++ t) o.
Proof.
  revert t0. induction p as [a|s|c k IH]; intros t0; simpl.
  - split; [intros H t o [-> ->]; by rewrite app_nil_r|].
    intros H. rewrite <-(app_nil_r t0). by apply H.
  - split; [intros H t o [-> ->]; by rewrite app_nil_r|].
    intros H. rewrite <-(app_nil_r t0). by apply H.
  - setoid_rewrite IH. split.
    + intros H t o (a & t' & -> & Hr). specialize (H a t' o Hr).
      by rewrite <-app_assoc in H.
    + intros H a t o Hr. rewrite <-app_assoc. apply H. by exists a, t.
Qed.

Lemma wp_elim {A} (p : prog S A) Q t o : runs p t o -> wp p Q [] -> Q t o.
Proof. intros Hr Hw. rewrite wp_runs in Hw. by apply (Hw t o). Qed.

Lemma wp_mono {A} (p : prog S A) (Q Q' : trace S -> outcome A -> Prop) t :
  wp p Q t -> (forall t' o, Q t' o -> Q' t' o) -> wp p Q' t.
Proof. rewrite !wp_runs. eauto. Qed.

(** What happens after a program whose outcome is known. *)
Definition then_wp {A B} (f : A -> prog S B) (Q : trace S -> outcome B -> Prop)
    (t : trace S) (o : outcome A) : Prop :=
  match o with
  | Done a => wp (f a) Q t
  | Halted s => Q t (Halted s)
  end.

Lemma wp_bind {A B} (p : prog S A) (f : A -> prog S B) Q t :
  wp (bind p f) Q t <-> wp p (then_wp f Q) t.
Proof.
  revert t. induction p as [a|s|c k IH]; intros t; simpl; [done..|].
  split; intros H a; apply IH, H.
Qed.

Lemma runs_bind {A B} (p : prog S A) (f : A -> prog S B) t o :
  runs (bind p f) t o <->
  (exists t1 t2 a, t = t1 ++ t2 /\ runs p t1 (Done a) /\ runs (f a) t2 o)
  \/ (exists s, runs p t (Halted s) /\ o = Halted s).
Proof.
  revert t. induction p as [a|s|c k IH]; intros t; simpl.
  - split; [intros H; left; by exists [], t, a|].
    intros [(t1 & t2 & b & -> & [-> [= ->]] & Hr)|(s & [_ ?] & _)]; done.
  - split; [intros [-> ->]; right; by exists s|].
    intros [(t1 & t2 & b & -> & [_ ?] & _)|(s' & [-> [= ->]] & ->)]; done.
  - split.
    + intros (a & t' & -> & Hr). apply IH in Hr.
      destruct Hr as [(t1 & t2 & b & -> & H1 & H2)|(s & H1 & ->)].
      * left. exists (ev c a :: t1), t2, b. split; [done|]. split; [|done]. by exists a, t1.
      * right. exists s. split; [|done]. by exists a, t'.
    + intros [(t1 & t2 & b & -> & (a & t' & -> & H1) & H2)|(s & (a & t' & -> & H1) & ->)].
      * exists a, (t' ++ t2). split; [done|]. apply IH. left. by exists t', t2, b.
      * exists a, t'. split; [done|]. apply IH. right. by exists s.
Qed.

(** Loop rules: an invariant of the state and the history. *)
Lemma wp_loop {St R} (I : St -> trace S -> Prop) (body : St -> prog S (St + R)) Q fuel s t :
  I s t ->
  (forall t', Q t' (Halted NoFuel)) ->
  (forall s t, I s t ->
     wp (body s) (fun t' o => match o with
                              | Done (inl s') => I s' t'
                              | Done (inr v) => Q t' (Done v)
                              | Halted e => Q t' (Halted e)
                              end) t) ->
  wp (loop fuel body s) Q t.
Proof.
  intros HI HF HB. revert s t HI. induction fuel as [|n IH]; intros s t HI; simpl; [done|].
  apply wp_bind. eapply wp_mono; [by apply HB|].
  intros t' [[s'|v]|e]; simpl; auto.
Qed.

Lemma wp_for_each {X St R} (I : list X -> St -> trace S -> Prop) l
    (body : X -> St -> prog S (St + R)) Q s t :
  I l s t ->
  (forall x l' s t, I (x :: l') s t ->
     wp (body x s) (fun t' o => match o with
                                | Done (inl s') => I l' s' t'
                                | Done (inr v) => Q t' (Done (inr v))
                                | Halted e => Q t' (Halted e)
                                end) t) ->
  (forall s t, I [] s t -> Q t (Done (inl s))) ->
  wp (for_each l body s) Q t.
Proof.
  intros HI HB HE. revert s t HI. induction l as [|x l IH]; intros s t HI; simpl; [auto|].
  apply wp_bind. eapply wp_mono; [by apply HB|].
  intros t' [[s'|v]|e]; simpl; auto.
Qed.

Lemma wp_fold {X St} (I : list X -> St -> trace S -> Prop) l
    (body : X -> St -> prog S St) (Q : trace S -> outcome St -> Prop) s t :
  I l s t ->
  (forall x l' s t, I (x :: l') s t ->
     wp (body x s) (fun t' o => match o with
                                | Done s' => I l' s' t'
                                | Halted e => Q t' (Halted e)
                                end) t) ->
  (forall s t, I [] s t -> Q t (Done s)) ->
  wp (fold_prog l body s) Q t.
Proof.
  intros HI HB HE. revert s t HI. induction l as [|x l IH]; intros s t HI; simpl; [auto|].
  apply wp_bind. eapply wp_mono; [by apply HB|].
  intros t' [s'|e]; simpl; auto.
Qed.

(** A loop that returns does so in its last round. *)
Lemma loop_last {St R} (body : St -> prog S (St + R)) n s t v :
  runs (loop n body s) t (Done v) ->
  exists t0 t1 s', t = t0 ++ t1 /\ runs (body s') t1 (Done (inr v)).
Proof.
  revert s t. induction n as [|n IH]; intros s t; simpl; [by intros [_ ?]|].
  rewrite runs_bind. intros [(t1 & t2 & [s'|v'] & -> & H1 & H2)|(e & _ & ?)]; [..|done].
  - destruct (IH _ _ H2) as (t3 & t4 & s'' & -> & H3). exists (t1 ++ t3), t4, s''. by rewrite app_assoc.
  - destruct H2 as [-> [= ->]]. exists [], t1, s. by rewrite app_nil_r.
Qed.

(** More fuel never changes a run that ended. *)
Lemma loop_fuel_mono {St R} (body : St -> prog S (St + R)) n m s t v :
  (n <= m)%nat -> runs (loop n body s) t (Done v) -> runs (loop m body s) t (Done v).
Proof.
  revert m s t. induction n as [|n IH]; intros m s t Hle; [simpl; by intros [_ ?]|].
  destruct m as [|m]; [lia|]. simpl. rewrite !runs_bind.
  intros [(t1 & t2 & [s'|v'] & -> & H1 & H2)|(e & _ & ?)]; [..|done].
  - left. exists t1, t2, (inl s'). split_and!; [done|done|]. apply IH; [lia|done].
  - left. by exists t1, t2, (inr v').
Qed.
End runs.

(** ** Traces *)

Section traces.
Context {S : signature}.
Implicit Types (t : trace S) (P Q : event S -> bool).

(** Some event of the trace satisfies [P]. *)
Definition happens P t : bool := existsb P t.
Definition never P t : bool := negb (existsb P t).

(** Every [P]-event comes after a [Q]-event; [seen]: one came already. *)
Fixpoint preceded_from (seen : bool) Q P t : bool :=
  match t with
  | [] => true
  | e :: t' => (negb (P e) || seen) && preceded_from (seen || Q e) Q P t'
  end.
Definition preceded := preceded_from false.

Lemma happens_app P t1 t2 : happens P (t1 ++ t2) = happens P t1 || happens P t2.
Proof. apply existsb_app. Qed.

Lemma never_app P t1 t2 : never P (t1 ++ t2) = never P t1 && never P t2.
Proof. unfold never. by rewrite existsb_app, negb_orb. Qed.

Lemma never_spec P t : never P t = true <-> Forall (fun e => P e = false) t.
Proof. unfold never. rewrite negb_true_iff. apply existsb_false. Qed.

Lemma preceded_from_app b Q P t1 t2 :
  preceded_from b Q P (t1 ++ t2) =
  preceded_from b Q P t1 && preceded_from (b || happens Q t1) Q P t2.
Proof.
  revert b. induction t1 as [|e t1 IH]; intros b; simpl.
  - by rewrite orb_false_r.
  - rewrite IH, <-andb_assoc. by rewrite orb_assoc.
Qed.

Lemma preceded_from_true Q P t : preceded_from true Q P t = true.
Proof. induction t as [|e t IH]; simpl; [done|]. by rewrite orb_true_r, IH. Qed.

Lemma preceded_never Q P t b : never P t = true -> preceded_from b Q P t = true.
Proof.
  unfold never. revert b. induction t as [|e t IH]; intros b; simpl; [done|].
  rewrite negb_orb, andb_true_iff. intros [-> H]. simpl. auto.
Qed.

Lemma preceded_spec Q P t :
  preceded Q P t = true <->
  forall t1 e t2, t = t1 ++ e :: t2 -> P e = true -> happens Q t1 = true.
Proof.
  unfold preceded.
  assert (forall b, preceded_from b Q P t = true <->
    forall t1 e t2, t = t1 ++ e :: t2 -> P e = true -> b || happens Q t1 = true) as H; [|apply H].
  induction t as [|e t IH]; intros b; simpl.
  - split; [|done]. intros _ [|? ?] ? ? [=].
  - rewrite andb_true_iff, IH. split.
    + intros [Hb Hr] [|e1 t1] e' t2 [= -> ->] HP.
      * rewrite HP in Hb. simpl in Hb. by rewrite Hb.
      * specialize (Hr t1 e' t2 eq_refl HP). by rewrite <-orb_assoc in Hr.
    + intros H. split.
      * destruct (P e) eqn:HP; [|done]. simpl.
        specialize (H [] e t eq_refl HP). simpl in H. by rewrite orb_false_r in H.
      * intros t1 e' t2 -> HP. specialize (H (e :: t1) e' t2 eq_refl HP).
        simpl in H. by rewrite <-orb_assoc.
Qed.

(** Every [P]-event is the very next event after a [Q]-event. *)
Fixpoint immediately_from (prev : bool) Q P t : bool :=
  match t with
  | [] => true
  | e :: t' => (negb (P e) || prev) && immediately_from (Q e) Q P t'
  end.
Definition immediately := immediately_from false.

Lemma immediately_spec Q P t :
  immediately Q P t = true ->
  forall t1 e t2, t = t1 ++ e :: t2 -> P e = true ->
    exists t0 e0, t1 = t0 ++ [e0] /\ Q e0 = true.
Proof.
  unfold immediately.
  assert (forall b, immediately_from b Q P t = true ->
    forall t1 e t2, t = t1 ++ e :: t2 -> P e = true ->
    (t1 = [] /\ b = true) \/ exists t0 e0, t1 = t0 ++ [e0] /\ Q e0 = true) as H.
  { induction t as [|x t IH]; intros b Hi t1 e t2 Ht HP; [by destruct t1|].
    simpl in Hi. apply andb_true_iff in Hi as [Hb Hi].
    destruct t1 as [|y t1]; injection Ht as -> ->.
    - left. split; [done|]. rewrite HP in Hb. done.
    - right. destruct (IH _ Hi t1 e t2 eq_refl HP) as [[-> HQ]|(t0 & e0 & -> & HQ)].
      + by exists [], y.
      + by exists (y :: t0), e0. }
  intros Hi t1 e t2 Ht HP. destruct (H _ Hi t1 e t2 Ht HP) as [[_ ?]|?]; done.
Qed.
End traces.

(** ** Programs that never issue some commands *)

Section avoids.
Context {S : signature} (P : cmd S -> bool).

Fixpoint avoids {A} (p : prog S A) : Prop :=
  match p with
  | Ret _ | Halt _ => True
  | Vis c k => P c = false /\ forall a, avoids (k a)
  end.

Lemma avoids_ret {A} (a : A) : avoids (Ret a). Proof. done. Qed.
Lemma avoids_halt {A} s : avoids (Halt (A := A) s). Proof. done. Qed.
Lemma avoids_call c : P c = false -> avoids (call c). Proof. done. Qed.

Lemma avoids_bind {A B} (p : prog S A) (f : A -> prog S B) :
  avoids p -> (forall a, avoids (f a)) -> avoids (bind p f).
Proof.
  intros Hp Hf. induction p as [a|s|c k IH]; simpl in *; [done..|].
  destruct Hp as [Hc Hk]. split; [done|]. intros a. by apply IH.
Qed.

Lemma avoids_for_each {X St R} (l : list X) (body : X -> St -> prog S (St + R)) s :
  (forall x s, avoids (body x s)) -> avoids (for_each l body s).
Proof.
  intros H. revert s. induction l as [|x l IH]; intros s; simpl; [done|].
  apply avoids_bind; [done|]. by intros [].
Qed.

Lemma avoids_fold {X St} (l : list X) (body : X -> St -> prog S St) s :
  (forall x s, avoids (body x s)) -> avoids (fold_prog l body s).
Proof.
  intros H. revert s. induction l as [|x l IH]; intros s; simpl; [done|].
  by apply avoids_bind.
Qed.

Lemma avoids_loop {St R} n (body : St -> prog S (St + R)) s :
  (forall s, avoids (body s)) -> avoids (loop n body s).
Proof.
  intros H. revert s. induction n as [|n IH]; intros s; simpl; [done|].
  apply avoids_bind; [done|]. by intros [].
Qed.

Lemma avoids_runs {A} (p : prog S A) t o :
  avoids p -> runs p t o -> never (fun e => P (projT1 e)) t = true.
Proof.
  intros Hp. revert t. induction p as [a|s|c k IH]; intros t; simpl in *.
  - by intros [-> _].
  - by intros [-> _].
  - intros (a & t' & -> & H). destruct Hp as [Hc Hk].
    unfold never in *. simpl. rewrite Hc. simpl. by eapply IH.
Qed.
End avoids.

(** Running a program that avoids [P] only adds events outside [P]. *)
Lemma wp_avoids {S : signature} (P : cmd S -> bool) {A} (p : prog S A) t :
  avoids P p ->
  wp p (fun t' o => exists t1, t' = t ++ t1 /\ never (fun e => P (projT1 e)) t1 = true) t.
Proof.
  intros Hp. apply wp_runs. intros t1 o Hr. exists t1. split; [done|]. by eapply avoids_runs.
Qed.

Lemma avoids_weaken {S : signature} (P P' : cmd S -> bool) {A} (p : prog S A) :
  (forall c, P' c = true -> P c = true) -> avoids P p -> avoids P' p.
Proof.
  intros HP. induction p as [a|s|c k IH]; simpl; [done..|]. intros [Hc Hk]. split; [|auto].
  destruct (P' c) eqn:E; [|done]. apply HP in E. congruence.
Qed.

Create HintDb avoids.
#[export] Hint Resolve avoids_ret avoids_halt avoids_bind avoids_for_each avoids_fold
  avoids_loop : avoids.

(** ** Programs that issue commands only under a condition on the history *)

Section issues.
Context {S : signature} (R : trace S -> cmd S -> Prop).
Implicit Types (t : trace S).

(** Every command [c] the program issues after the history [t] has [R t c]. *)
Fixpoint issues {A} (p : prog S A) t : Prop :=
  match p with
  | Ret _ | Halt _ => True
  | Vis c k => R t c /\ forall a, issues (k a) (t ++ [ev c a])
  end.

Lemma issues_runs {A} (p : prog S A) t0 t o :
  issues p t0 -> runs p t o ->
  forall t1 e t2, t = t1 ++ e :: t2 -> R (t0 ++ t1) (projT1 e).
Proof.
  revert t0 t. induction p as [a|s|c k IH]; intros t0 t Hi Hr t1 e t2 ->; simpl in *.
  - destruct Hr as [Ht _]. by destruct t1.
  - destruct Hr as [Ht _]. by destruct t1.
  - destruct Hr as (a & t' & Ht & Hr), Hi as [Hc Hk].
    destruct t1 as [|e1 t1]; injection Ht as -> Ht.
    + by rewrite app_nil_r.
    + rewrite (app_assoc t0 [_] t1 : t0 ++ _ :: t1 = _). by eapply IH.
Qed.

Lemma issues_bind {A B} (p : prog S A) (f : A -> prog S B) t :
  issues p t -> (forall t' a, runs p t' (Done a) -> issues (f a) (t ++ t')) ->
  issues (bind p f) t.
Proof.
  revert t. induction p as [a|s|c k IH]; intros t Hp Hf; simpl in *.
  - rewrite <-(app_nil_r t). by apply Hf.
  - done.
  - destruct Hp as [Hc Hk]. split; [done|]. intros a. apply IH; [done|].
    intros t' b Hr. rewrite <-app_assoc. apply Hf. by exists a, t'.
Qed.

Lemma issues_avoids (P : cmd S -> bool) {A} (p : prog S A) t :
  (forall t c, P c = false -> R t c) -> avoids P p -> issues p t.
Proof.
  intros HR. revert t. induction p as [a|s|c k IH]; intros t; simpl; [done..|].
  intros [Hc Hk]. auto.
Qed.

Lemma issues_loop {St Rt} (I : St -> trace S -> Prop) n (body : St -> prog S (St + Rt)) s t :
  I s t ->
  (forall s t, I s t -> issues (body s) t /\
     forall t' s', runs (body s) t' (Done (inl s')) -> I s' (t ++ t')) ->
  issues (loop n body s) t.
Proof.
  intros HI HB. revert s t HI. induction n as [|n IH]; intros s t HI; simpl; [done|].
  destruct (HB _ _ HI) as [H1 H2]. apply issues_bind; [done|].
  intros t' [s'|v] Hr; [|done]. by apply IH, H2.
Qed.

Lemma issues_fold {X St} (I : trace S -> Prop) (l : list X) (body : X -> St -> prog S St) s t :
  I t ->
  (forall x s t, x ∈ l -> I t -> issues (body x s) t /\
     forall t' s', runs (body x s) t' (Done s') -> I (t ++ t')) ->
  issues (fold_prog l body s) t.
Proof.
  intros HI HB. revert s t HI. induction l as [|x l IH]; intros s t HI; simpl; [done|].
  destruct (HB x s t (list_elem_of_here x l) HI) as [H1 H2]. apply issues_bind; [done|].
  intros t' s' Hr. apply IH; [|by eapply H2].
  intros y ? ? Hy. apply HB. by apply list_elem_of_further.
Qed.
End issues.

Lemma issues_weaken {S : signature} (R R' : trace S -> cmd S -> Prop) {A} (p : prog S A) t :
  (forall t' c, R (t ++ t') c -> R' (t ++ t') c) -> issues R p t -> issues R' p t.
Proof.
  revert t. induction p as [a|s|c k IH]; intros t HR; simpl; [done..|].
  intros [Hc Hk]. split.
  - specialize (HR [] c). rewrite app_nil_r in HR. auto.
  - intros a. apply IH; [|done]. intros t' c'. rewrite <-app_assoc. apply HR.
Qed.

(** A condition that does not depend on the history. *)
Lemma Forall_issues {S : signature} (P : cmd S -> Prop) {A} (p : prog S A) t o :
  issues (fun _ => P) p [] -> runs p t o -> Forall (fun e : event S => P (projT1 e)) t.
Proof.
  intros Hi Hr. apply Forall_forall. intros e (t1 & t2 & ->)%list_elem_of_split.
  by apply (issues_runs (fun _ => P) p [] _ o Hi Hr t1 e t2).
Qed.

(** An event of the history stays in it. *)
Lemma issues_after {S : signature} (R : trace S -> cmd S -> Prop) {A} (p : prog S A) e (t : trace S) :
  e ∈ t -> issues R p t -> issues (fun t c => R t c /\ e ∈ t) p t.
Proof.
  revert t. induction p as [a|s|c k IH]; intros t He; simpl; [done..|].
  intros [Hc Hk]. split; [done|]. intros a. apply IH; [|done]. apply elem_of_app. by left.
Qed.

(** ** Termination of polling loops

    A loop of the code ends when the environment makes it end: a pod goes, a
    deadline passes.  [needs n p]: the program exhausts the fuel of a loop only
    in runs with at least [n] polls, the events in which the environment told
    it to go on waiting. *)

Section polls.
Context {S : signature} (poll : event S -> bool).
Implicit Types (t : trace S).

Definition polls t : nat := length (List.filter poll t).

Lemma polls_app t1 t2 : polls (t1 ++ t2) = (polls t1 + polls t2)%nat.
Proof. unfold polls. by rewrite List.filter_app, length_app. Qed.

Definition needs (n : nat) {A} (p : prog S A) : Prop :=
  forall t, runs p t (Halted NoFuel) -> (n <= polls t)%nat.

Lemma needs_ret n {A} (a : A) : needs n (Ret a).
Proof. by intros t [_ ?]. Qed.
Lemma needs_panic n {A} m : needs n (panic (A := A) m).
Proof. by intros t [_ ?]. Qed.
Lemma needs_call n c : needs n (call c).
Proof. by intros t (a & t' & _ & _ & ?). Qed.

Lemma needs_vis n c {A} (k : answer S c -> prog S A) :
  (forall a, needs n (k a)) -> needs n (Vis c k).
Proof.
  intros Hk t (a & t' & -> & H). apply Hk in H.
  unfold polls. simpl. destruct (poll _); simpl; unfold polls in H; lia.
Qed.

Lemma needs_bind n {A B} (p : prog S A) (f : A -> prog S B) :
  needs n p -> (forall a, needs n (f a)) -> needs n (bind p f).
Proof.
  intros Hp Hf t [(t1 & t2 & a & -> & _ & H)|(s & H & [= <-])]%runs_bind.
  - apply Hf in H. rewrite polls_app. lia.
  - by apply Hp.
Qed.

Lemma needs_loop n m {St R} (body : St -> prog S (St + R)) s :
  (n <= m)%nat ->
  (forall s t s', runs (body s) t (Done (inl s')) -> (1 <= polls t)%nat) ->
  (forall s, needs n (body s)) ->
  needs n (loop m body s).
Proof.
  intros Hnm Hpoll Hbody t Hr.
  enough (forall m s t, runs (loop m body s) t (Halted NoFuel) ->
            (n <= polls t \/ m <= polls t)%nat) as H.
  { destruct (H _ _ _ Hr); lia. }
  clear m s t Hnm Hr. induction m as [|m IH]; intros s t Hr; [lia|]. simpl in Hr.
  apply runs_bind in Hr as [(t1 & t2 & [s'|v] & -> & H1 & H2)|(e & H1 & [= <-])].
  - apply Hpoll in H1. apply IH in H2. rewrite polls_app. lia.
  - by destruct H2.
  - left. by apply Hbody in H1.
Qed.

Lemma needs_fold n {X St} (l : list X) (body : X -> St -> prog S St) s :
  (forall x s, needs n (body x s)) -> needs n (fold_prog l body s).
Proof.
  intros H. revert s. induction l as [|x l IH]; intros s; simpl; [apply needs_ret|].
  by apply needs_bind.
Qed.

Lemma needs_for_each n {X St R} (l : list X) (body : X -> St -> prog S (St + R)) s :
  (forall x s, needs n (body x s)) -> needs n (for_each l body s).
Proof.
  intros H. revert s. induction l as [|x l IH]; intros s; simpl; [apply needs_ret|].
  apply needs_bind; [done|]. intros [s'|v]; [done|apply needs_ret].
Qed.

Lemma needs_weaken n m {A} (p : prog S A) : (n <= m)%nat -> needs m p -> needs n p.
Proof. intros Hnm Hp t Hr. apply Hp in Hr. lia. Qed.
End polls.

(** ** Execution against a stateful environment *)

Section exec.
Context {S : signature} {W : Type} (serve : W -> forall c, W * answer S c).

Fixpoint exec {A} (w : W) (p : prog S A) : W * trace S * outcome A :=
  match p with
  | Ret a => (w, [], Done a)
  | Halt s => (w, [], Halted s)
  | Vis c k => let '(w1, a) := serve w c in
               let '(w2, t, o) := exec w1 (k a) in (w2, ev c a :: t, o)
  end.

Definition exec_state {A} w (p : prog S A) : W := (exec w p).1.1.
Definition exec_trace {A} w (p : prog S A) : trace S := (exec w p).1.2.
Definition exec_out {A} w (p : prog S A) : outcome A := (exec w p).2.

(** Execution is one of the runs. *)
Lemma exec_runs {A} w (p : prog S A) : runs p (exec_trace w p) (exec_out w p).
Proof.
  unfold exec_trace, exec_out. revert w.
  induction p as [a|s|c k IH]; intros w; simpl; [done..|].
  destruct (serve w c) as [w1 a]. specialize (IH a w1).
  destruct (exec w1 (k a)) as [[w2 t] o]. simpl in *. by exists a, t.
Qed.

Lemma exec_bind {A B} w (p : prog S A) (f : A -> prog S B) :
  exec w (bind p f) =
  let '(w1, t1, o) := exec w p in
  match o with
  | Done a => let '(w2, t2, o2) := exec w1 (f a) in (w2, t1 ++ t2, o2)
  | Halted s => (w1, t1, Halted s)
  end.
Proof.
  revert w. induction p as [a|s|c k IH]; intros w.
  - cbn. by destruct (exec w (f a)) as [[]].
  - done.
  - cbn [exec bind].
    destruct (serve w c) as [w1 a]. rewrite (IH a w1).
    destruct (exec w1 (k a)) as [[w2 t2] [b|s]]; [|done].
    by destruct (exec w2 (f b)) as [[w3 t3] o3].
Qed.
End exec.

(** ** Equivalence of programs

    Continuations are functions, so two programs are compared up to pointwise
    equality of their continuations. *)

#[export] Instance prog_equiv {S A} : Equiv (prog S A) := fun p q =>
  forall t o, runs p t o <-> runs q t o.

#[export] Instance prog_equiv_equivalence {S A} : Equivalence (≡@{prog S A}).
Proof.
  split.
  - by intros p t o.
  - intros p q H t o. by rewrite (H t o).
  - intros p q r H1 H2 t o. by rewrite (H1 t o).
Qed.

#[export] Instance bind_proper {S A B} :
  Proper ((≡) ==> pointwise_relation A (≡) ==> (≡)) (@bind S A B).
Proof.
  intros p q Hpq f g Hfg t o. rewrite !runs_bind. unfold pointwise_relation in Hfg.
  setoid_rewrite (fun t o => Hpq t o). split.
  - intros [(t1 & t2 & a & -> & H1 & H2)|H]; [|by right].
    left. exists t1, t2, a. split_and!; [done..|]. by apply Hfg.
  - intros [(t1 & t2 & a & -> & H1 & H2)|H]; [|by right].
    left. exists t1, t2, a. split_and!; [done..|]. by apply Hfg.
Qed.

#[export] Instance wp_proper {S A} :
  Proper ((≡) ==> (=) ==> (=) ==> iff) (@wp S A).
Proof.
  intros p q Hpq Q ? <- t ? <-. rewrite !wp_runs. by setoid_rewrite (fun t o => Hpq t o).
Qed.

Lemma bind_ret_r {S A} (p : prog S A) : bind p Ret ≡ p.
Proof.
  intros t o. rewrite runs_bind. split.
  - intros [(t1 & t2 & a & -> & H1 & [-> ->])|(s & H & ->)]; [by rewrite app_nil_r|done].
  - intros H. destruct o as [a|s]; [left|right; by exists s].
    exists t, [], a. by rewrite app_nil_r.
Qed.

Lemma bind_assoc {S A B C} (p : prog S A) (f : A -> prog S B) (g : B -> prog S C) :
  bind (bind p f) g ≡ bind p (fun a => bind (f a) g).
Proof.
  intros t o. revert t. induction p as [a|s|c k IH]; intros t; simpl; [done..|].
  split; intros (a & t' & -> & H); exists a, t'; split; try done; by apply IH.
Qed.
