(* ===== verification/K8s.v ===== *)
(** * Kubernetes objects and errors

    The data the driver exchanges with its environment: the fields of the
    [corev1], [batchv1] and [storagev1] objects that the modelled code reads or
    writes, with Go's nil kept apart from the empty map where the code tests
    it.  Sub-objects the driver only copies (probes, affinity, tolerations, ...)
    are carried as their serialised form, [raw]. *)
From S2P Require Import Prelude.
From S2P Require Import GoStrings.
#[local] Open Scope Z_scope.

Abbreviation smap := (gmap string string).
Definition raw : Type := string.

(** Reading a key of a Go [map[string]string], nil included. *)
Definition sget (m : smap) (k : string) : string := default "" (m !! k).
Definition nil_map (m : option smap) : smap := default ∅ m.

(** ** Errors

    An [error] value of the driver, by the ways the code inspects it:
    [k8serrors.IsNotFound] and its siblings look at the reason of an API
    status, [os.IsNotExist] and [mount.IsCorruptedMnt] at the errno,
    comparisons at the two context errors, gRPC at the status code. *)
Inductive api_reason := NotFound | Conflict | Timeout | AlreadyExistsReason | OtherReason.
Inductive os_errno := ENotExist | ECorruptedMnt | EOther.
Inductive grpc_code := InvalidArgument | CodeNotFound | AlreadyExists | Aborted | Unimplemented | Internal.

Inductive ctx_err := Canceled | DeadlineExceeded.

Inductive error :=
| APIError (r : api_reason) (msg : string)
| OSError (e : os_errno) (msg : string)
| CtxError (c : ctx_err)
| StatusError (c : grpc_code) (msg : string)
| Errorf (msg : string).

#[export] Instance api_reason_eq_dec : EqDecision api_reason.
Proof. solve_decision. Defined.
#[export] Instance os_errno_eq_dec : EqDecision os_errno.
Proof. solve_decision. Defined.
#[export] Instance grpc_code_eq_dec : EqDecision grpc_code.
Proof. solve_decision. Defined.
#[export] Instance ctx_err_eq_dec : EqDecision ctx_err.
Proof. solve_decision. Defined.
#[export] Instance error_eq_dec : EqDecision error.
Proof. solve_decision. Defined.

Definition IsNotFound (e : error) : bool :=
  match e with APIError NotFound _ => true | _ => false end.
Definition IsConflict (e : error) : bool :=
  match e with APIError Conflict _ => true | _ => false end.
Definition IsTimeout (e : error) : bool :=
  match e with APIError Timeout _ => true | _ => false end.
Definition IsNotExist (e : error) : bool :=
  match e with OSError ENotExist _ => true | _ => false end.
Definition IsCorruptedMnt (e : error) : bool :=
  match e with OSError ECorruptedMnt _ => true | _ => false end.
Definition is_ctx_error (e : error) : bool :=
  match e with CtxError _ => true | _ => false end.

(** The text of an error; only its use inside other messages matters. *)
Definition error_text (e : error) : string :=
  match e with
  | APIError _ m | OSError _ m | StatusError _ m | Errorf m => m
  | CtxError Canceled => "context canceled"
  | CtxError DeadlineExceeded => "context deadline exceeded"
  end.

(** A Go pair [(T, error)] of which exactly one is set. *)
Inductive res (A : Type) :=
| Ok (a : A)
| Err (e : error).
Arguments Ok {A}. Arguments Err {A}.

Definition res_map {A B} (f : A -> B) (r : res A) : res B :=
  match r with Ok a => Ok (f a) | Err e => Err e end.
Definition is_ok {A} (r : res A) : bool := match r with Ok _ => true | Err _ => false end.

(** ** Metadata *)

Record OwnerReference := { or_kind : string; or_name : string; or_uid : string }.

Record ObjectMeta := {
  Name : string;
  Namespace : string;
  UID : string;
  ResourceVersion : string;
  Labels : option smap;
  Annotations : option smap;
  Finalizers : list string;
  CreationTimestamp : Z;
  DeletionTimestamp : option Z;
  OwnerReferences : option (list OwnerReference);
}.

(** ** Quantities

    [resource.Quantity], in units of [10^-9] (the finest the format has). *)
Definition Quantity : Type := Z.
Definition nano : Z := 1000000000.
(** [q.Value()]: rounded up to an integer. *)
Definition QuantityValue (q : Quantity) : Z := - (- q / nano).
Abbreviation ResourceList := (gmap string Quantity).

Record ResourceRequirements := {
  Limits : option ResourceList;
  Requests : option ResourceList;
}.

(** ** Pods *)

Record ContainerState := {
  Waiting : option string;                (** reason *)
  Running : bool;
  Terminated : option (Z * string);       (** exit code, reason *)
}.
Record ContainerStatus := { cs_name : string; cs_ready : bool; cs_state : ContainerState }.
Record PodCondition := {
  pc_type : string; pc_status : string; pc_reason : string; pc_message : string }.

(** [VolumeSource]: at most one of Go's pointer fields is set. *)
Inductive VolumeSource :=
| HostPath (path : string) (type : option string)
| SecretVolume (secret : string) (items : list (string * string)) (mode : option Z)   (** key, path *)
| PVCVolume (claim : string) (readOnly : bool)
| EmptyDir (medium : string) (sizeLimit : option Quantity)
| CSIVolume (source : raw)
| InlineCSI (driver : string) (fsType : option string) (attributes : smap)
| OtherVolume (source : raw).

Record Volume := { v_name : string; v_source : VolumeSource }.

Definition v_hostPath (v : Volume) : option string :=
  match v_source v with HostPath p _ => Some p | _ => None end.
Definition v_pvc (v : Volume) : option string :=
  match v_source v with PVCVolume c _ => Some c | _ => None end.

Record VolumeMount := {
  vm_name : string;
  vm_path : string;
  vm_subPath : string;
  vm_readOnly : bool;
  vm_propagation : option string;
}.

(** [Lifecycle]: each hook runs a command or is of another kind. *)
Inductive Handler :=
| ExecHandler (command : list string)
| OtherHandler (h : raw).
Record Lifecycle := { PostStart : option Handler; PreStop : option Handler }.
Definition pre_stop (command : list string) : Lifecycle :=
  {| PostStart := None; PreStop := Some (ExecHandler command) |}.
Definition post_start (command : list string) (l : Lifecycle) : Lifecycle :=
  {| PostStart := Some (ExecHandler command); PreStop := PreStop l |}.

Record Container := {
  c_name : string;
  c_image : string;
  c_command : list string;
  c_env : list (string * string);
  c_envFrom : list string;                (** names of secrets *)
  c_resources : ResourceRequirements;
  c_volumeMounts : list VolumeMount;
  c_ports : list (string * Z);
  c_lifecycle : option Lifecycle;
  c_livenessProbe : option raw;
  c_readinessProbe : option raw;
  c_startupProbe : option raw;
  c_privileged : bool;
  c_capabilities : list string;           (** capabilities added *)
}.

Record PodSpec := {
  NodeName : string;
  NodeSelector : smap;
  Containers : list Container;
  InitContainers : list Container;
  Volumes : list Volume;
  RestartPolicy : string;
  TerminationGracePeriodSeconds : option Z;
  PriorityClassName : string;
  ServiceAccountName : string;
  HostNetwork : bool;
  HostPID : bool;
  PreemptionPolicy : option string;
  Affinity : raw;
  SchedulerName : string;
  Tolerations : raw;
  inherited : raw;       (** host aliases, HostIPC, DNS, image pull secrets *)
}.

Record PodStatus := {
  Phase : string;
  Reason : string;
  Message : string;
  Conditions : list PodCondition;
  ContainerStatuses : list ContainerStatus;
  InitContainerStatuses : list ContainerStatus;
}.

Record Pod := { p_meta : ObjectMeta; p_spec : PodSpec; p_status : PodStatus }.

Definition pod_name (p : Pod) := Name (p_meta p).
Definition pod_namespace (p : Pod) := Namespace (p_meta p).
Definition pod_annotations (p : Pod) : smap := nil_map (Annotations (p_meta p)).
Definition pod_labels (p : Pod) : smap := nil_map (Labels (p_meta p)).

(** ** Jobs, secrets, volumes, nodes *)

Record Job := {
  j_meta : ObjectMeta;
  j_spec : PodSpec;                       (** [Spec.Template.Spec] *)
  TTLSecondsAfterFinished : option Z;
  j_conditions : list (string * string);  (** type, status *)
  CompletionTime : option Z;
}.

Record Secret := {
  s_meta : ObjectMeta;
  Data : smap;
  StringData : smap;
}.

Record SecretReference := { sr_name : string; sr_namespace : string }.

Record CSIPersistentVolumeSource := {
  Driver : string;
  VolumeHandle : string;
  ReadOnly : bool;
  FSType : string;
  VolumeAttributes : smap;
  NodePublishSecretRef : option SecretReference;
  ControllerExpandSecretRef : option SecretReference;
}.

Record PersistentVolume := {
  pv_meta : ObjectMeta;
  pv_csi : option CSIPersistentVolumeSource;
  pv_claimRef : option (string * string);           (** name, namespace *)
  pv_storageClassName : string;
  pv_reclaimPolicy : string;
  pv_mountOptions : list string;
  pv_capacity : Quantity;
  pv_accessModes : list string;
  pv_volumeMode : option string;
}.

Record PersistentVolumeClaim := {
  pvc_meta : ObjectMeta;
  pvc_storageClassName : option string;
  pvc_volumeName : string;
  pvc_accessModes : list string;
  pvc_storage : Quantity;
  pvc_selector : option raw;
  pvc_volumeMode : option string;
  pvc_phase : string;
}.

Record StorageClass := {
  sc_name : string;
  sc_provisioner : string;
  sc_parameters : smap;
  sc_mountOptions : list string;
  sc_reclaimPolicy : option string;
}.

Record Node := { n_meta : ObjectMeta; n_podCIDR : string }.

(** ** Defaults and updates *)

Definition empty_meta : ObjectMeta :=
  {| Name := ""; Namespace := ""; UID := ""; ResourceVersion := ""; Labels := None;
     Annotations := None; Finalizers := []; CreationTimestamp := 0; DeletionTimestamp := None; OwnerReferences := None |}.
Definition empty_spec : PodSpec :=
  {| NodeName := ""; NodeSelector := ∅; Containers := []; InitContainers := []; Volumes := [];
     RestartPolicy := ""; TerminationGracePeriodSeconds := None; PriorityClassName := "";
     ServiceAccountName := ""; HostNetwork := false; HostPID := false; PreemptionPolicy := None;
     Affinity := ""; SchedulerName := ""; Tolerations := ""; inherited := "" |}.
Definition empty_status : PodStatus :=
  {| Phase := ""; Reason := ""; Message := ""; Conditions := []; ContainerStatuses := [];
     InitContainerStatuses := [] |}.
Definition no_resources : ResourceRequirements := {| Limits := None; Requests := None |}.

Definition with_annotations (a : option smap) (m : ObjectMeta) : ObjectMeta :=
  {| Name := Name m; Namespace := Namespace m; UID := UID m; ResourceVersion := ResourceVersion m;
     Labels := Labels m; Annotations := a; Finalizers := Finalizers m;
     CreationTimestamp := CreationTimestamp m; DeletionTimestamp := DeletionTimestamp m; OwnerReferences := OwnerReferences m |}.
Definition with_labels (l : option smap) (m : ObjectMeta) : ObjectMeta :=
  {| Name := Name m; Namespace := Namespace m; UID := UID m; ResourceVersion := ResourceVersion m;
     Labels := l; Annotations := Annotations m; Finalizers := Finalizers m;
     CreationTimestamp := CreationTimestamp m; DeletionTimestamp := DeletionTimestamp m; OwnerReferences := OwnerReferences m |}.
Definition with_finalizers (f : list string) (m : ObjectMeta) : ObjectMeta :=
  {| Name := Name m; Namespace := Namespace m; UID := UID m; ResourceVersion := ResourceVersion m;
     Labels := Labels m; Annotations := Annotations m; Finalizers := f;
     CreationTimestamp := CreationTimestamp m; DeletionTimestamp := DeletionTimestamp m; OwnerReferences := OwnerReferences m |}.
Definition with_deletion (d : option Z) (m : ObjectMeta) : ObjectMeta :=
  {| Name := Name m; Namespace := Namespace m; UID := UID m; ResourceVersion := ResourceVersion m;
     Labels := Labels m; Annotations := Annotations m; Finalizers := Finalizers m;
     CreationTimestamp := CreationTimestamp m; DeletionTimestamp := d; OwnerReferences := OwnerReferences m |}.
Definition empty_container : Container :=
  {| c_name := ""; c_image := ""; c_command := []; c_env := []; c_envFrom := [];
     c_resources := no_resources; c_volumeMounts := []; c_ports := []; c_lifecycle := None;
     c_livenessProbe := None; c_readinessProbe := None; c_startupProbe := None;
     c_privileged := false; c_capabilities := [] |}.
Definition with_resources (r : ResourceRequirements) (c : Container) : Container :=
  {| c_name := c_name c; c_image := c_image c; c_command := c_command c; c_env := c_env c;
     c_envFrom := c_envFrom c; c_resources := r; c_volumeMounts := c_volumeMounts c;
     c_ports := c_ports c; c_lifecycle := c_lifecycle c; c_livenessProbe := c_livenessProbe c;
     c_readinessProbe := c_readinessProbe c; c_startupProbe := c_startupProbe c;
     c_privileged := c_privileged c; c_capabilities := c_capabilities c |}.
Definition with_command (cmd : list string) (c : Container) : Container :=
  {| c_name := c_name c; c_image := c_image c; c_command := cmd; c_env := c_env c;
     c_envFrom := c_envFrom c; c_resources := c_resources c; c_volumeMounts := c_volumeMounts c;
     c_ports := c_ports c; c_lifecycle := c_lifecycle c; c_livenessProbe := c_livenessProbe c;
     c_readinessProbe := c_readinessProbe c; c_startupProbe := c_startupProbe c;
     c_privileged := c_privileged c; c_capabilities := c_capabilities c |}.
Definition with_env (env : list (string * string)) (c : Container) : Container :=
  {| c_name := c_name c; c_image := c_image c; c_command := c_command c; c_env := env;
     c_envFrom := c_envFrom c; c_resources := c_resources c; c_volumeMounts := c_volumeMounts c;
     c_ports := c_ports c; c_lifecycle := c_lifecycle c; c_livenessProbe := c_livenessProbe c;
     c_readinessProbe := c_readinessProbe c; c_startupProbe := c_startupProbe c;
     c_privileged := c_privileged c; c_capabilities := c_capabilities c |}.
Definition with_volumeMounts (vms : list VolumeMount) (c : Container) : Container :=
  {| c_name := c_name c; c_image := c_image c; c_command := c_command c; c_env := c_env c;
     c_envFrom := c_envFrom c; c_resources := c_resources c; c_volumeMounts := vms;
     c_ports := c_ports c; c_lifecycle := c_lifecycle c; c_livenessProbe := c_livenessProbe c;
     c_readinessProbe := c_readinessProbe c; c_startupProbe := c_startupProbe c;
     c_privileged := c_privileged c; c_capabilities := c_capabilities c |}.
Definition with_lifecycle (l : option Lifecycle) (c : Container) : Container :=
  {| c_name := c_name c; c_image := c_image c; c_command := c_command c; c_env := c_env c;
     c_envFrom := c_envFrom c; c_resources := c_resources c; c_volumeMounts := c_volumeMounts c;
     c_ports := c_ports c; c_lifecycle := l; c_livenessProbe := c_livenessProbe c;
     c_readinessProbe := c_readinessProbe c; c_startupProbe := c_startupProbe c;
     c_privileged := c_privileged c; c_capabilities := c_capabilities c |}.
Definition with_containers (cs : list Container) (s : PodSpec) : PodSpec :=
  {| NodeName := NodeName s; NodeSelector := NodeSelector s; Containers := cs;
     InitContainers := InitContainers s; Volumes := Volumes s; RestartPolicy := RestartPolicy s;
     TerminationGracePeriodSeconds := TerminationGracePeriodSeconds s;
     PriorityClassName := PriorityClassName s; ServiceAccountName := ServiceAccountName s;
     HostNetwork := HostNetwork s; HostPID := HostPID s; PreemptionPolicy := PreemptionPolicy s;
     Affinity := Affinity s; SchedulerName := SchedulerName s; Tolerations := Tolerations s;
     inherited := inherited s |}.
Definition with_volumes (vs : list Volume) (s : PodSpec) : PodSpec :=
  {| NodeName := NodeName s; NodeSelector := NodeSelector s; Containers := Containers s;
     InitContainers := InitContainers s; Volumes := vs; RestartPolicy := RestartPolicy s;
     TerminationGracePeriodSeconds := TerminationGracePeriodSeconds s;
     PriorityClassName := PriorityClassName s; ServiceAccountName := ServiceAccountName s;
     HostNetwork := HostNetwork s; HostPID := HostPID s; PreemptionPolicy := PreemptionPolicy s;
     Affinity := Affinity s; SchedulerName := SchedulerName s; Tolerations := Tolerations s;
     inherited := inherited s |}.
(** Node, priority and restart policy, the way a job overrides them. *)
Definition with_placement (node priority restart : string) (s : PodSpec) : PodSpec :=
  {| NodeName := node; NodeSelector := NodeSelector s; Containers := Containers s;
     InitContainers := InitContainers s; Volumes := Volumes s; RestartPolicy := restart;
     TerminationGracePeriodSeconds := TerminationGracePeriodSeconds s;
     PriorityClassName := priority; ServiceAccountName := ServiceAccountName s;
     HostNetwork := HostNetwork s; HostPID := HostPID s; PreemptionPolicy := PreemptionPolicy s;
     Affinity := Affinity s; SchedulerName := SchedulerName s; Tolerations := Tolerations s;
     inherited := inherited s |}.
(** Node selection by label, and the scheduling of the app pod. *)
Definition with_node_selector (sel : smap) (s : PodSpec) : PodSpec :=
  {| NodeName := ""; NodeSelector := sel; Containers := Containers s;
     InitContainers := InitContainers s; Volumes := Volumes s; RestartPolicy := RestartPolicy s;
     TerminationGracePeriodSeconds := TerminationGracePeriodSeconds s;
     PriorityClassName := PriorityClassName s; ServiceAccountName := ServiceAccountName s;
     HostNetwork := HostNetwork s; HostPID := HostPID s; PreemptionPolicy := PreemptionPolicy s;
     Affinity := Affinity s; SchedulerName := SchedulerName s; Tolerations := Tolerations s;
     inherited := inherited s |}.
Definition with_scheduling (from s : PodSpec) : PodSpec :=
  {| NodeName := NodeName s; NodeSelector := NodeSelector s; Containers := Containers s;
     InitContainers := InitContainers s; Volumes := Volumes s; RestartPolicy := RestartPolicy s;
     TerminationGracePeriodSeconds := TerminationGracePeriodSeconds s;
     PriorityClassName := PriorityClassName s; ServiceAccountName := ServiceAccountName s;
     HostNetwork := HostNetwork s; HostPID := HostPID s; PreemptionPolicy := PreemptionPolicy s;
     Affinity := Affinity from; SchedulerName := SchedulerName from; Tolerations := Tolerations from;
     inherited := inherited s |}.
Definition with_meta (m : ObjectMeta) (p : Pod) : Pod :=
  {| p_meta := m; p_spec := p_spec p; p_status := p_status p |}.
Definition with_spec (s : PodSpec) (p : Pod) : Pod :=
  {| p_meta := p_meta p; p_spec := s; p_status := p_status p |}.

(** Rewriting the first container, which every mount pod has. *)
Definition update_first (f : Container -> Container) (s : PodSpec) : PodSpec :=
  with_containers (match Containers s with [] => [] | c :: cs => f c :: cs end) s.
