(* ===== verification/GoTime.v ===== *)
(** * Go's [time] package, as used by [util.GetTime] and [util.GetTimeAfterDelay]

    Instants are nanoseconds since the Unix epoch.  [Format] and [Parse] are
    those of the one layout the driver uses, ["2006-01-02 15:04:05"];
    [ParseDuration] follows the library's loop (the fractional part of a
    component is computed exactly and truncated, the library rounds it in
    [float64] first). *)
From S2P Require Import Prelude.
From S2P Require Import GoStrings.
From S2P Require Import K8s.
From Stdlib Require Import Ascii.
#[local] Open Scope Z_scope.

(** ** The civil calendar (proleptic Gregorian) *)

Record date := { year : Z; month : Z; day : Z }.

Definition civil_of_days (z : Z) : date :=
  let z' := z + 719468 in
  let era := z' / 146097 in
  let doe := z' mod 146097 in
  let yoe := (doe - doe / 1460 + doe / 36524 - doe / 146096) / 365 in
  let doy := doe - (365 * yoe + yoe / 4 - yoe / 100) in
  let mp := (5 * doy + 2) / 153 in
  let d := doy - (153 * mp + 2) / 5 + 1 in
  let m := if mp <? 10 then mp + 3 else mp - 9 in
  {| year := yoe + era * 400 + (if m <=? 2 then 1 else 0); month := m; day := d |}.

Definition days_of_civil (c : date) : Z :=
  let y := year c - (if month c <=? 2 then 1 else 0) in
  let era := y / 400 in
  let yoe := y mod 400 in
  let mp := if 2 <? month c then month c - 3 else month c + 9 in
  let doy := (153 * mp + 2) / 5 + day c - 1 in
  let doe := yoe * 365 + yoe / 4 - yoe / 100 + doy in
  era * 146097 + doe - 719468.

Definition is_leap (y : Z) : bool :=
  (y mod 4 =? 0) && (negb (y mod 100 =? 0) || (y mod 400 =? 0)).
Definition days_in (m y : Z) : Z :=
  if m =? 2 then (if is_leap y then 29 else 28)
  else if (m =? 4) || (m =? 6) || (m =? 9) || (m =? 11) then 30 else 31.

#[local] Ltac Zify.zify_post_hook ::= Z.to_euclidean_division_equations.

(** Within a 400-year era the year estimate is exact: the day of the year it
    leaves is in range, and is 365 only at the end of a leap year. *)
Lemma year_of_era doe :
  0 <= doe < 146097 ->
  let yoe := (doe - doe / 1460 + doe / 36524 - doe / 146096) / 365 in
  let doy := doe - (365 * yoe + yoe / 4 - yoe / 100) in
  0 <= yoe < 400 /\ 0 <= doy <= 365 /\
  (doy = 365 -> (yoe + 1) mod 4 = 0 /\ ((yoe + 1) mod 100 <> 0 \/ (yoe + 1) mod 400 = 0)).
Proof.
  intros H yoe doy.
  assert (doe / 146096 = 0 \/ doe / 146096 = 1) as Hq3 by lia.
  assert (doe / 36524 = 0 \/ doe / 36524 = 1 \/ doe / 36524 = 2 \/ doe / 36524 = 3
          \/ doe / 36524 = 4) as Hq2 by lia.
  unfold doy, yoe.
  destruct Hq3 as [E3|E3]; rewrite E3;
    destruct Hq2 as [E2|[E2|[E2|[E2|E2]]]]; rewrite E2; lia.
Qed.

(** The calendar is a bijection between days and valid dates. *)
Definition valid_date (c : date) : Prop :=
  1 <= month c <= 12 /\ 1 <= day c <= days_in (month c) (year c).

(** The month and the day of a day of the (March-based) year. *)
Lemma month_of_doy doy :
  0 <= doy <= 365 ->
  let mp := (5 * doy + 2) / 153 in
  let d := doy - (153 * mp + 2) / 5 + 1 in
  let m := if mp <? 10 then mp + 3 else mp - 9 in
  0 <= mp <= 11 /\ 1 <= d /\
  (if 2 <? m then m - 3 else m + 9) = mp /\ 1 <= m <= 12 /\
  (forall y, m <> 2 -> d <= days_in m y) /\
  (m = 2 -> d <= 29 /\ (d = 29 -> doy = 365)).
Proof.
  intros H mp d m.
  assert (0 <= mp <= 11) as Hmp by (unfold mp; lia).
  assert (mp = 0 \/ mp = 1 \/ mp = 2 \/ mp = 3 \/ mp = 4 \/ mp = 5 \/ mp = 6 \/ mp = 7 \/
          mp = 8 \/ mp = 9 \/ mp = 10 \/ mp = 11) as Hc by lia.
  unfold d, m. clearbody m d. assert (5 * doy + 2 = 153 * mp + (5 * doy + 2) mod 153) as Hdm
    by (unfold mp; lia).
  pose proof (Z.mod_pos_bound (5 * doy + 2) 153 ltac:(lia)). clearbody mp.
  split; [done|].
  repeat (destruct Hc as [->|Hc]; [unfold days_in; simpl; split_and!; intros; lia|]).
  subst mp. unfold days_in; simpl; split_and!; intros; lia.
Qed.

Lemma civil_of_days_spec z :
  days_of_civil (civil_of_days z) = z /\ valid_date (civil_of_days z).
Proof.
  unfold civil_of_days, days_of_civil, valid_date. cbn [year month day].
  set (z' := z + 719468). pose proof (Z.mod_pos_bound z' 146097 ltac:(lia)) as Hdoe.
  pose proof (Z.div_mod z' 146097 ltac:(lia)) as Hz.
  set (doe := z' mod 146097) in *. set (era := z' / 146097) in *.
  pose proof (year_of_era doe Hdoe) as Hyoe. cbn zeta in Hyoe.
  set (yoe := (doe - doe / 1460 + doe / 36524 - doe / 146096) / 365) in *.
  set (doy := doe - (365 * yoe + yoe / 4 - yoe / 100)) in *.
  destruct Hyoe as (Hyoe & Hdoy & Hleap).
  pose proof (month_of_doy doy Hdoy) as Hm. cbn zeta in Hm.
  set (mp := (5 * doy + 2) / 153) in *. set (d := doy - (153 * mp + 2) / 5 + 1) in *.
  set (m := if mp <? 10 then mp + 3 else mp - 9) in *.
  destruct Hm as (Hmp & Hd & -> & Hm & Hother & Hfeb).
  assert (yoe + era * 400 + (if m <=? 2 then 1 else 0) - (if m <=? 2 then 1 else 0)
          = yoe + era * 400) as -> by lia.
  rewrite Z.div_add, Z.mod_add, (Z.div_small yoe), (Z.mod_small yoe) by lia.
  split; [unfold d, z' in *; lia|]. split; [done|]. split; [done|].
  destruct (decide (m = 2)) as [Em|]; [|by apply Hother].
  destruct (Hfeb Em) as [H29 H365]. rewrite Em. unfold days_in. simpl.
  destruct (is_leap (yoe + era * 400 + 1)) eqn:E; [done|].
  assert (d <> 29); [|lia]. intros H. destruct (Hleap (H365 H)) as [H4 H100].
  unfold is_leap in E. rewrite andb_false_iff, orb_false_iff, negb_false_iff in E.
  rewrite !Z.eqb_neq, Z.eqb_eq in E. lia.
Qed.

(** ** Digits *)

Definition digit (n : Z) : ascii := ascii_of_N (48 + Z.to_N n).
Definition digit_val (c : ascii) : option Z :=
  let n := N_of_ascii c in
  if (48 <=? n)%N && (n <=? 57)%N then Some (Z.of_N (n - 48)) else None.

Lemma digit_val_digit n : 0 <= n < 10 -> digit_val (digit n) = Some n.
Proof.
  intros H. unfold digit_val, digit. rewrite N_ascii_embedding by lia.
  rewrite (proj2 (N.leb_le _ _)), (proj2 (N.leb_le _ _)) by lia. simpl. f_equal. lia.
Qed.

Definition pad2 (n : Z) : string := String (digit (n / 10)) (String (digit (n mod 10)) "").
Definition pad4 (n : Z) : string :=
  String (digit (n / 1000)) (String (digit (n / 100 mod 10)) (pad2 (n mod 100))).

(** ** Formatting *)

Definition nsPerSec : Z := 1000000000.

(** [t.Format("2006-01-02 15:04:05")] for years 0 to 9999, in a zone [tz]
    seconds east of UTC. *)
Definition Format (tz t : Z) : string :=
  let s := t / nsPerSec + tz in
  let c := civil_of_days (s / 86400) in
  let r := s mod 86400 in
  pad4 (year c) +:+ "-" +:+ pad2 (month c) +:+ "-" +:+ pad2 (day c) +:+ " " +:+
  pad2 (r / 3600) +:+ ":" +:+ pad2 (r / 60 mod 60) +:+ ":" +:+ pad2 (r mod 60).

(** ** Parsing *)

(** [getnum]: one or two digits, exactly two when [fixed]. *)
Definition getnum (s : string) (fixed : bool) : option (Z * string) :=
  match s with
  | String a s1 =>
      match digit_val a with
      | None => None
      | Some x =>
          match s1 with
          | String b s2 =>
              match digit_val b with
              | Some y => Some (x * 10 + y, s2)
              | None => if fixed then None else Some (x, s1)
              end
          | EmptyString => if fixed then None else Some (x, s1)
          end
      end
  | EmptyString => None
  end.

Definition getyear (s : string) : option (Z * string) :=
  match getnum s true with
  | Some (a, s1) => match getnum s1 true with
                    | Some (b, s2) => Some (a * 100 + b, s2)
                    | None => None
                    end
  | None => None
  end.

Definition skip_char (c : ascii) (s : string) : option string :=
  match s with
  | String d s' => if ascii_dec d c then Some s' else None
  | EmptyString => None
  end.

(** A space of the layout: any number of spaces, or the end. *)
Definition skip_spaces (s : string) : option string :=
  match s with
  | String d _ => if ascii_dec d " " then Some (trim_left (fun c => bool_decide (c = " "%char)) s)
                  else None
  | EmptyString => Some EmptyString
  end.

(** The fractional seconds accepted after the seconds field: at most nine
    digits count. *)
Fixpoint frac_digits (n : nat) (acc : Z) (s : string) : Z * string :=
  match s with
  | String c s' =>
      match digit_val c with
      | Some d => match n with
                  | O => let '(v, r) := frac_digits O acc s' in (v, r)
                  | S n' => frac_digits n' (acc * 10 + d) s'
                  end
      | None => (acc * 10 ^ Z.of_nat n, s)
      end
  | EmptyString => (acc * 10 ^ Z.of_nat n, s)
  end.
Definition getfrac (s : string) : Z * string :=
  match s with
  | String c (String d _ as s') =>
      if (bool_decide (c = "."%char) || bool_decide (c = ","%char)) &&
         (match digit_val d with Some _ => true | None => false end)
      then frac_digits 9 0 s'
      else (0, s)
  | _ => (0, s)
  end.

Definition in_range (lo x hi : Z) : option unit := if (lo <=? x) && (x <=? hi) then Some tt else None.

(** [time.Parse("2006-01-02 15:04:05", s)]: the instant, in UTC. *)
Definition parse_time (s : string) : option Z :=
  '(y, s) ← getyear s; s ← skip_char "-" s;
  '(m, s) ← getnum s true; _ ← in_range 1 m 12; s ← skip_char "-" s;
  '(d, s) ← getnum s true; s ← skip_spaces s;
  '(h, s) ← getnum s false; _ ← in_range 0 h 23; s ← skip_char ":" s;
  '(mi, s) ← getnum s true; _ ← in_range 0 mi 59; s ← skip_char ":" s;
  '(sec, s) ← getnum s true; _ ← in_range 0 sec 59;
  let '(ns, s) := getfrac s in
  match s with
  | EmptyString =>
      _ ← in_range 1 d (days_in m y);
      Some ((days_of_civil {| year := y; month := m; day := d |} * 86400
             + h * 3600 + mi * 60 + sec) * nsPerSec + ns)
  | _ => None
  end.

(** [util.GetTime]. *)
Definition GetTime (str : string) : res Z :=
  match parse_time str with
  | Some t => Ok t
  | None => Err (Errorf ("parsing time " +:+ str))
  end.

Lemma getnum_pad2 n s b : 0 <= n < 100 -> getnum (pad2 n +:+ s) b = Some (n, s).
Proof.
  intros H. unfold pad2. simpl. unfold getnum.
  rewrite !digit_val_digit by lia. do 2 f_equal. lia.
Qed.

Lemma getyear_pad4 n s : 0 <= n < 10000 -> getyear (pad4 n +:+ s) = Some (n, s).
Proof.
  intros H. unfold getyear.
  assert (pad4 n +:+ s = pad2 (n / 100) +:+ (pad2 (n mod 100) +:+ s)) as ->.
  { unfold pad4, pad2. simpl. f_equal. f_equal. lia. }
  rewrite !getnum_pad2 by lia. do 2 f_equal. lia.
Qed.

Lemma in_range_true lo x hi : lo <= x <= hi -> in_range lo x hi = Some tt.
Proof.
  intros [H1 H2]. unfold in_range. by rewrite (proj2 (Z.leb_le _ _) H1), (proj2 (Z.leb_le _ _) H2).
Qed.

Lemma skip_spaces_pad2 n s : 0 <= n < 100 -> skip_spaces (" " +:+ pad2 n +:+ s) = Some (pad2 n +:+ s).
Proof.
  intros H. unfold skip_spaces. cbn [String.append pad2 trim_left].
  destruct (ascii_dec " " " "); [|done]. rewrite bool_decide_true by done.
  rewrite bool_decide_false; [done|]. unfold digit. intros Heq.
  apply (f_equal N_of_ascii) in Heq.
  rewrite N_ascii_embedding in Heq by lia. change (N_of_ascii " ") with 32%N in Heq. lia.
Qed.

Lemma pad2_bound r k : 0 < k -> 0 <= r < k * 100 -> 0 <= r / k < 100.
Proof. intros. split; [apply Z.div_pos|apply Z.div_lt_upper_bound]; nia. Qed.

(** The first second of year 0 and of year 10000. *)
Definition time_min : Z := -62167219200.
Definition time_max : Z := 253402300800.

Lemma civil_year_bound s :
  time_min <= s < time_max -> 0 <= year (civil_of_days (s / 86400)) < 10000.
Proof.
  unfold time_min, time_max. intros Hs.
  assert (-719528 <= s / 86400 < 2932897) as Hz by lia. clear Hs.
  set (z := s / 86400) in *. clearbody z.
  unfold civil_of_days. cbn [year].
  set (z' := z + 719468). pose proof (Z.mod_pos_bound z' 146097 ltac:(lia)) as Hdoe.
  pose proof (Z.div_mod z' 146097 ltac:(lia)) as Hz'.
  set (doe := z' mod 146097) in *. set (era := z' / 146097) in *.
  pose proof (year_of_era doe Hdoe) as Hyoe. cbn zeta in Hyoe.
  set (yoe := (doe - doe / 1460 + doe / 36524 - doe / 146096) / 365) in *.
  set (doy := doe - (365 * yoe + yoe / 4 - yoe / 100)) in *.
  destruct Hyoe as (Hyoe & Hdoy & _).
  set (mp := (5 * doy + 2) / 153) in *.
  assert (10 <= mp <-> 306 <= doy) as Hmp by (unfold mp; lia).
  assert (doe = 365 * yoe + yoe / 4 - yoe / 100 + doy) as Hde by (unfold doy; lia).
  assert (0 <= mp <= 11) as Hmp' by (unfold mp; lia).
  clearbody mp doy yoe doe era. unfold z' in *. clear z'.
  destruct (Z.ltb_spec mp 10); destruct (Z.leb_spec (mp + 3) 2);
    destruct (Z.leb_spec (mp - 9) 2); lia.
Qed.

(** Formatting in a zone and parsing as UTC gives the local wall clock, to
    the second: [tz] seconds off the instant that was formatted. *)
Lemma GetTime_Format_wall tz t :
  time_min <= t / nsPerSec + tz < time_max ->
  GetTime (Format tz t) = Ok ((t / nsPerSec + tz) * nsPerSec).
Proof.
  intros Hy%civil_year_bound. unfold GetTime, Format. set (s := t / nsPerSec + tz) in *.
  destruct (civil_of_days_spec (s / 86400)) as [Hrt [Hm Hd]].
  set (c := civil_of_days (s / 86400)) in *. set (r := s mod 86400).
  pose proof (Z.mod_pos_bound s 86400 ltac:(lia)) as Hr. fold r in Hr.
  assert (day c <= 31) as Hd31.
  { unfold days_in in Hd. repeat case_match; lia. }
  assert (0 <= r / 3600 <= 23) by lia.
  rewrite <-(str_app_nil_r (pad2 (r mod 60))).
  unfold parse_time. rewrite getyear_pad4 by done.
  repeat first
    [ progress cbn [mbind option_bind skip_char String.append getfrac]
    | rewrite getnum_pad2 by lia
    | rewrite in_range_true by lia
    | change (String " " (pad2 (r / 3600) +:+ ?x)) with (" " +:+ pad2 (r / 3600) +:+ x);
      rewrite skip_spaces_pad2 by lia
    | match goal with |- context [ascii_dec ?a ?a] => destruct (ascii_dec a a); [|done] end ].
  replace {| year := year c; month := month c; day := day c |} with c by (by destruct c).
  rewrite Hrt. do 2 f_equal. rewrite Z.add_0_r. f_equal. unfold r. lia.
Qed.

(** ** Durations *)

(** [leadingInt]: the digits at the front; [None] when the value passes
    [1 << 63]. *)
Fixpoint leading_int (acc : Z) (s : string) : option (Z * string) :=
  match s with
  | String c s' =>
      match digit_val c with
      | Some d => if 2 ^ 63 / 10 <? acc then None
                  else if 2 ^ 63 <? acc * 10 + d then None
                  else leading_int (acc * 10 + d) s'
      | None => Some (acc, s)
      end
  | EmptyString => Some (acc, EmptyString)
  end.

(** [leadingFraction]: the digits after the point, with their scale; digits
    that would overflow are skipped. *)
Fixpoint leading_fraction (over : bool) (acc scale : Z) (s : string) : Z * Z * string :=
  match s with
  | String c s' =>
      match digit_val c with
      | Some d => if over || ((2 ^ 63 - 1) / 10 <? acc) || (2 ^ 63 <? acc * 10 + d)
                  then leading_fraction true acc scale s'
                  else leading_fraction false (acc * 10 + d) (scale * 10) s'
      | None => (acc, scale, s)
      end
  | EmptyString => (acc, scale, s)
  end.

Definition is_unit_char (c : ascii) : bool :=
  negb (bool_decide (c = "."%char)) && match digit_val c with Some _ => false | None => true end.
Fixpoint take_unit (s : string) : string * string :=
  match s with
  | String c s' => if is_unit_char c then let '(u, r) := take_unit s' in (String c u, r)
                   else (EmptyString, s)
  | EmptyString => (EmptyString, EmptyString)
  end.

Definition unit_ns (u : string) : option Z :=
  if bool_decide (u = "ns") then Some 1
  else if bool_decide (u = "us" \/ u = "µs" \/ u = "μs") then Some 1000
  else if bool_decide (u = "ms") then Some 1000000
  else if bool_decide (u = "s") then Some 1000000000
  else if bool_decide (u = "m") then Some 60000000000
  else if bool_decide (u = "h") then Some 3600000000000
  else None.

(** One component [number unit]; the sum so far is checked against [1 << 63]. *)
Definition parse_component (d : Z) (s : string) : option (Z * string) :=
  '(v, s1) ← leading_int 0 s;
  let pre := negb (String.length s =? String.length s1)%nat in
  let '(f, scale, s2, post) :=
    match s1 with
    | String c s' => if bool_decide (c = "."%char)
                     then let '(f, sc, r) := leading_fraction false 0 1 s' in
                          (f, sc, r, negb (String.length s' =? String.length r)%nat)
                     else (0, 1, s1, false)
    | EmptyString => (0, 1, s1, false)
    end in
  if negb pre && negb post then None else
  let '(u, s3) := take_unit s2 in
  unit ← unit_ns u;
  if 2 ^ 63 / unit <? v then None else
  let v := v * unit + f * unit / scale in
  if (2 ^ 63 <? v) || (2 ^ 63 <? d + v) then None else Some (d + v, s3).

Fixpoint parse_components (fuel : nat) (d : Z) (s : string) : option Z :=
  match s with
  | EmptyString => Some d
  | _ => match fuel with
         | O => None
         | S n => '(d', s') ← parse_component d s; parse_components n d' s'
         end
  end.

(** [time.ParseDuration], in nanoseconds; each component consumes at least a
    byte, so the length of the string is fuel enough. *)
Definition ParseDuration (str : string) : option Z :=
  let '(neg, s) := match str with
                   | String c s' => if bool_decide (c = "-"%char) then (true, s')
                                    else if bool_decide (c = "+"%char) then (false, s')
                                    else (false, str)
                   | EmptyString => (false, str)
                   end in
  if bool_decide (s = "0") then Some 0 else
  if bool_decide (s = "") then None else
  d ← parse_components (String.length s) 0 s;
  if neg then Some (- d) else if 2 ^ 63 - 1 <? d then None else Some d.

Lemma leading_int_bound acc s v r :
  0 <= acc -> leading_int acc s = Some (v, r) -> acc <= 2 ^ 63 -> 0 <= v <= 2 ^ 63.
Proof.
  revert acc. induction s as [|c s IH]; intros acc Ha; simpl.
  - by intros [= <- <-].
  - destruct (digit_val c) as [d|] eqn:E; [|by intros [= <- <-]].
    assert (0 <= d) by (unfold digit_val in E; case_match; [|done]; injection E as <-; lia).
    destruct (_ <? acc); [done|]. destruct (Z.ltb_spec (2 ^ 63) (acc * 10 + d)); [done|].
    intros H' _. apply (IH (acc * 10 + d)); [lia|done|lia].
Qed.

Lemma leading_fraction_bound b acc sc s v sc' r :
  0 <= acc -> 0 < sc -> leading_fraction b acc sc s = (v, sc', r) -> 0 <= v /\ 0 < sc'.
Proof.
  revert b acc sc. induction s as [|c s IH]; intros b acc sc Ha Hs; simpl.
  - by intros [= <- <- <-].
  - destruct (digit_val c) as [d|] eqn:E; [|by intros [= <- <- <-]].
    assert (0 <= d) by (unfold digit_val in E; case_match; [|done]; injection E as <-; lia).
    case_match; intros Heq; eapply IH; try exact Heq; lia.
Qed.

(** The result of [ParseDuration] is always an [int64]. *)
Lemma parse_component_bound d s d' s' :
  0 <= d -> parse_component d s = Some (d', s') -> 0 <= d' <= 2 ^ 63.
Proof.
  intros Hd. unfold parse_component.
  destruct (leading_int 0 s) as [[v s1]|] eqn:Ev; [|done]. cbn [mbind option_bind].
  apply leading_int_bound in Ev; [|lia|lia].
  destruct (match s1 with String c s' => _ | EmptyString => _ end) as [[[f sc] s2] post] eqn:Ef.
  assert (0 <= f /\ 0 < sc) as [Hf Hsc].
  { destruct s1 as [|c s1']; [by injection Ef as <- <- <- <-|].
    case_bool_decide; [|by injection Ef as <- <- <- <-].
    destruct (leading_fraction false 0 1 s1') as [[f' sc'] r] eqn:El.
    injection Ef as <- <- <- <-. by eapply leading_fraction_bound in El. }
  destruct (_ && negb post); [done|]. destruct (take_unit s2) as [u s3].
  destruct (unit_ns u) as [un|] eqn:Eu; [|done]. cbn [mbind option_bind].
  assert (0 < un) by (unfold unit_ns in Eu; repeat case_bool_decide; simplify_eq; lia).
  destruct (_ <? v); [done|].
  assert (0 <= f * un / sc) by (apply Z.div_pos; nia).
  destruct (Z.ltb_spec (2 ^ 63) (v * un + f * un / sc)); [done|].
  destruct (Z.ltb_spec (2 ^ 63) (d + (v * un + f * un / sc))); [done|].
  intros [= <- <-]. nia.
Qed.

Lemma parse_components_bound fuel d s d' :
  0 <= d <= 2 ^ 63 -> parse_components fuel d s = Some d' -> 0 <= d' <= 2 ^ 63.
Proof.
  revert d s. induction fuel as [|n IH]; intros d s Hd; destruct s as [|c s]; simpl;
    try (by intros [= <-]).
  destruct (parse_component d (String c s)) as [[d1 s1]|] eqn:E; [|done].
  cbn [mbind option_bind]. apply IH. eapply parse_component_bound; [|done]. lia.
Qed.

Lemma ParseDuration_int64 s d : ParseDuration s = Some d -> - 2 ^ 63 <= d <= 2 ^ 63 - 1.
Proof.
  unfold ParseDuration. destruct (match s with String c s' => _ | EmptyString => _ end) as [neg s'].
  case_bool_decide; [intros [= <-]; lia|]. case_bool_decide; [done|].
  destruct (parse_components (String.length s') 0 s') as [d0|] eqn:E; [|done].
  apply parse_components_bound in E; [|lia]. cbn [mbind option_bind].
  destruct neg; [intros [= <-]; lia|].
  destruct (Z.ltb_spec (2 ^ 63 - 1) d0); [done|]. intros [= <-]. lia.
Qed.

Example duration_1h30m : ParseDuration "1h30m" = Some 5400000000000.
Proof. reflexivity. Qed.
Example duration_frac : ParseDuration "-1.5s" = Some (-1500000000).
Proof. reflexivity. Qed.
Example duration_no_unit : ParseDuration "10" = None.
Proof. reflexivity. Qed.
