(* ===== verification/Effects.v ===== *)
(** * The environment of the driver: its commands and their answers

    One command per call the modelled code makes outside the repository: the
    Kubernetes API and the kubelet (through pkg/k8sclient, whose code KubeClient
    links below these commands), the operating system and the mount table, the
    clock, the scheduler.  Answers are arbitrary values of the answer type. *)
From S2P Require Import Prelude.
From S2P Require Import GoStrings.
From S2P Require Import K8s.
From S2P Require Import Prog.
#[local] Open Scope Z_scope.
#[local] Open Scope go_scope.

(** Contexts: the deadlines a call runs under (durations in ns). *)
Inductive context :=
| Background
| Caller                                  (** the context the handler was given *)
| WithTimeout (parent : context) (d : Z).

Definition Microsecond : Z := 1000.
Definition Millisecond : Z := 1000 * Microsecond.
Definition Second : Z := 1000 * Millisecond.
Definition Minute : Z := 60 * Second.

(** [k8sMount.MountInfo], the fields used. *)
Record MountInfo := { mi_minor : Z; mi_root : string; mi_mountPoint : string }.

(** [os.FileInfo] with its [syscall.Stat_t] (absent when [Sys()] is not one). *)
Record FileInfo := { fi_perm : Z; fi_stat : option (Z * Z) (** inode, device *); fi_dir : bool }.

Record ListSelector := { sel_labels : smap; sel_exists : list string; sel_fields : smap }.

(** JSON patches and strategic merge patches, by the values marshalled. *)
Inductive json_patch :=
| ReplaceList (path : string) (value : list string)
| ReplaceMap (path : string) (value : option smap)
| RemovePath (path : string).
Inductive patch :=
| JSONPatch (ops : list json_patch)
| MergeLabels (m : smap)
| MergeAnnotations (m : smap).

Inductive jfs_cmd :=
(* Kubernetes API *)
| GetPod (ctx : context) (name ns : string)
| ListPod (ns : string) (sel : ListSelector)
| CreatePod (p : Pod)
| PatchPod (p : Pod) (d : patch)
| DeletePod (p : Pod)
| GetPodLog (name ns container : string)
| ExecuteInContainer (name ns container : string) (command : list string)
| GetSecret (name ns : string)
| CreateSecret (s : Secret)
| UpdateSecret (s : Secret)
| DeleteSecret (name ns : string)
| PatchSecret (s : Secret) (d : patch)
| GetJob (ctx : context) (name ns : string)
| CreateJob (j : Job)
| DeleteJob (name ns : string)
| GetPersistentVolume (name : string)
| ListPersistentVolumes
| GetPersistentVolumeClaim (name ns : string)
| GetStorageClass (name : string)
| GetOwner (kind name ns : string)
| ListNode (labels : smap)
| GetNode (name : string)
| ListStorageClasses
| ListEvents (ns kind uid : string)           (** of one object *)
| GetNodeRunningPods
| NewKubeletClient (host : string) (port : Z)
| NewK8sClient                             (** the in-cluster client *)
| GetDaemonSet (name ns : string)          (** its pod template *)
(* operating system and mounts *)
| Stat (path : string)
| PathExists (path : string)
| MkdirAll (path : string) (perm : Z)
| Chmod (path : string) (perm : Z)
| RemoveFile (path : string)
| WriteFile (path content : string)
| ReadFile (path : string)
| Mount (source target fstype : string) (options : list string)
| Unmount (target : string)
| LazyUmount (target : string)             (** [umount -l target] *)
| CleanupMountPoint (path : string)
| IsNotMountPoint (path : string)
| IsLikelyNotMountPoint (path : string)
| EvalSymlinks (path : string)
| RemoveAll (path : string)
| MkdirTemp (pattern : string)             (** in [os.TempDir()] *)
| ParseMountInfo
| Statfs (path : string)
| Exec (ctx : context) (prog : string) (args : list string) (env : list string)
| LookupEnv (name : string)
| Environ                                  (** [syscall.Environ()] *)
(* the maps [UUIDMaps] and [CacheDirMaps] of the provider, guarded by its mutex *)
| CacheInfoStore (uniqueId uuid : string) (cacheDirs : list string)
| CacheInfoLoad (uniqueId : string)
| CacheInfoDelete (uniqueId : string)
(* the shared table [util.MountPointDevMinorTable], a [sync.Map] *)
| MinorStore (path : string) (minor : Z)
| MinorLoad (path : string)
| MinorDelete (path : string)
(* the volume locks of the controller service, shared by its handlers *)
| TryAcquireVolume (id : string)
| ReleaseVolume (id : string)
(* the back-off table of the reconciler (client-go's flowcontrol) *)
| BackOffActive (id : string)              (** [IsInBackOffSinceUpdate] *)
| BackOffNext (id : string)
| BackOffReset (id : string)
| BackOffGC
(* scheduling, time, randomness, map iteration *)
| Lock (i : Z)
| Unlock (i : Z)
| CtxErr (ctx : context)                   (** [ctx.Err()] *)
| AwaitDone (ctx : context)                (** [select] between a result and [ctx.Done()] *)
| CtxDone (ctx : context)                  (** [<-ctx.Done()] *)
| Scheduled
| Sleep (d : Z)
| Now
| RandIntn (n : nat)                       (** a number below [n] *)
| RangeKeys (ks : list string).            (** the order of a [for range] over a map *)

Definition jfs_answer (c : jfs_cmd) : Type :=
  match c with
  | GetPod _ _ _ | CreatePod _ => res Pod
  | ListPod _ _ | GetNodeRunningPods => res (list Pod)
  | PatchPod _ _ | DeletePod _ | UpdateSecret _ | DeleteSecret _ _ | PatchSecret _ _
  | DeleteJob _ _ => option error
  | GetPodLog _ _ _ => res string
  | ExecuteInContainer _ _ _ _ => string * string * option error
  | GetSecret _ _ | CreateSecret _ => res Secret
  | GetJob _ _ _ | CreateJob _ => res Job
  | GetPersistentVolume _ => res PersistentVolume
  | ListPersistentVolumes => res (list PersistentVolume)
  | GetPersistentVolumeClaim _ _ => res PersistentVolumeClaim
  | GetStorageClass _ => res StorageClass
  | GetOwner _ _ _ => option error
  | ListNode _ => res (list Node)
  | GetNode _ => res Node
  | ListStorageClasses => res (list StorageClass)
  | ListEvents _ _ _ => res (list raw)
  | Stat _ => res FileInfo
  | PathExists _ => res bool
  | MkdirAll _ _ | Chmod _ _ | RemoveFile _ | WriteFile _ _ | Mount _ _ _ _ | Unmount _
  | CleanupMountPoint _ | RemoveAll _ => option error
  | ReadFile _ => res string
  | LazyUmount _ | Exec _ _ _ _ => string * option error
  | IsNotMountPoint _ | IsLikelyNotMountPoint _ => res bool
  | EvalSymlinks _ | MkdirTemp _ => res string
  | Environ => list string
  | CacheInfoLoad _ => string * list string       (** zero values when absent *)
  | CacheInfoStore _ _ _ | CacheInfoDelete _ => unit
  | ParseMountInfo => res (list MountInfo)
  | Statfs _ => res (Z * Z * Z * Z * Z)
  | LookupEnv _ => option string
  | NewKubeletClient _ _ | NewK8sClient => option error
  | GetDaemonSet _ _ => res PodSpec
  | Lock _ | Unlock _ | Sleep _ => unit
  | CtxErr _ | AwaitDone _ => option ctx_err
  | CtxDone _ => ctx_err
  | MinorStore _ _ | MinorDelete _ | ReleaseVolume _ | BackOffNext _ | BackOffReset _
  | BackOffGC => unit
  | TryAcquireVolume _ | BackOffActive _ => bool
  | MinorLoad _ => option Z
  | Scheduled => bool
  | Now => Z
  | RandIntn n => { i : nat | n <> O -> (i < n)%nat }
  | RangeKeys ks => { l : list string | l ≡ₚ ks }
  end.

Definition jfs : signature := Signature jfs_cmd jfs_answer.
Abbreviation M := (prog jfs).
Abbreviation jtrace := (trace jfs).

(** Issue a command; the type of the answer computes. *)
Definition sys (c : jfs_cmd) : M (jfs_answer c) := call (S := jfs) c.

(** ** Go's error-returning style *)

(** [x, err := p; if err != nil { return err }] in a [(T, error)] function. *)
Definition bindR {A B} (p : M (res A)) (f : A -> M (res B)) : M (res B) :=
  r <- p ;; match r with Ok a => f a | Err e => Ret (Err e) end.
(** The same in a function that returns [error]. *)
Definition bindE {A} (p : M (res A)) (f : A -> M (option error)) : M (option error) :=
  r <- p ;; match r with Ok a => f a | Err e => Ret (Some e) end.
(** [if err := p; err != nil { return err }]. *)
Definition thenE (p : M (option error)) (q : M (option error)) : M (option error) :=
  r <- p ;; match r with None => q | Some e => Ret (Some e) end.
Definition thenR {B} (p : M (option error)) (q : M (res B)) : M (res B) :=
  r <- p ;; match r with None => q | Some e => Ret (Err e) end.

Notation "x <-? p ;; q" := (bindR p (fun x => q))
  (at level 100, p at next level, right associativity) : go_scope.
Notation "x <-! p ;; q" := (bindE p (fun x => q))
  (at level 100, p at next level, right associativity) : go_scope.
Notation "p ?;; q" := (thenE p q)
  (at level 100, right associativity) : go_scope.
Notation "p ?;;; q" := (thenR p q)
  (at level 100, right associativity) : go_scope.

(** [defer c()]: the command is issued at the end of every run, panics
    included. *)
Fixpoint deferred {A} (c : jfs_cmd) (p : M A) : M A :=
  match p with
  | Ret a => sys c ;;; Ret a
  | Halt NoFuel => Halt NoFuel
  | Halt (GoPanic m) => sys c ;;; Halt (GoPanic m)
  | Vis c' k => Vis c' (fun a => deferred c (k a))
  end.

Lemma runs_deferred {A} c (p : M A) t o :
  runs (deferred c p) t o ->
  exists t', runs p t' o /\
    (o <> Halted NoFuel -> exists a, t = t' ++ [ev (S := jfs) c a]) /\
    (o = Halted NoFuel -> t = t').
Proof.
  revert t. induction p as [a|[m|]|c' k IH]; intros t; cbn [deferred bind].
  - intros (x & t' & -> & -> & ->). exists []. split; [done|]. split; [by exists x|done].
  - intros (x & t' & -> & -> & ->). exists []. split; [done|]. split; [by exists x|done].
  - intros [-> ->]. by exists [].
  - intros (a & t' & -> & (t2 & Hr & H1 & H2)%IH). exists (ev (S := jfs) c' a :: t2).
    split; [by exists a, t2|]. split; intros Ho.
    + destruct (H1 Ho) as [x ->]. by exists x.
    + by rewrite (H2 Ho).
Qed.

Lemma avoids_deferred P {A} c (p : M A) :
  P c = false -> avoids (S := jfs) P p -> avoids (S := jfs) P (deferred c p).
Proof. intros Hc. induction p as [a|[m|]|c' k IH]; simpl; [done..|]. intros [H Hk]. auto. Qed.

(** A [go] statement: the environment decides whether the goroutine's effects
    happen within the observed window. *)
Definition go {A} (p : M A) : M unit :=
  b <- sys Scheduled ;; if b then p ;;; Ret tt else Ret tt.

(** The iteration order of a Go map is the runtime's choice. *)
Definition entries {V} (m : gmap string V) (ks : list string) : list (string * V) :=
  omap (fun k => (fun v => (k, v)) <$> m !! k) ks.
Definition range_map {V} (m : gmap string V) : M (list (string * V)) :=
  l <- sys (RangeKeys (map_to_list m).*1) ;; Ret (entries m (proj1_sig l)).

Lemma entries_perm {V} (m : gmap string V) ks :
  ks ≡ₚ (map_to_list m).*1 -> entries m ks ≡ₚ map_to_list m.
Proof.
  intros Hks. unfold entries. rewrite Hks.
  enough (forall l, (forall k v, (k, v) ∈ l -> m !! k = Some v) ->
            omap (fun k => (fun v => (k, v)) <$> m !! k) l.*1 = l) as H.
  { rewrite H; [done|]. intros k v. apply elem_of_map_to_list. }
  induction l as [|[k v] l IH]; intros Hl; [done|]. cbn.
  rewrite (Hl k v) by left. cbn. f_equal. apply IH. intros k' v' Hin. apply Hl. by right.
Qed.

(** What a [for range] over a map can see: some order of its entries. *)
Lemma wp_range_map {V B} (m : gmap string V) (f : list (string * V) -> M B) Q t :
  (forall ks (H : ks ≡ₚ (map_to_list m).*1) l, l ≡ₚ map_to_list m ->
     wp (f l) Q (t ++ [ev (S := jfs) (RangeKeys (map_to_list m).*1) (exist _ ks H)])) ->
  wp (bind (range_map m) f) Q t.
Proof. intros Hf [ks H]. cbn. apply Hf. by apply entries_perm. Qed.

Lemma runs_range_map {V B} (m : gmap string V) (f : list (string * V) -> M B) t o :
  runs (bind (range_map m) f) t o ->
  exists l e t', l ≡ₚ map_to_list m /\ t = e :: t' /\
    projT1 e = RangeKeys (map_to_list m).*1 /\ runs (f l) t' o.
Proof.
  intros ([ks H] & t' & -> & Hr). cbn in Hr.
  eexists _, _, t'. split; [by apply entries_perm, H|]. by split_and!.
Qed.

(** ** Polls: the answers that keep a waiting loop going

    Every waiting loop of the driver sleeps in each round, or (one error branch
    of the wait for a deleted pod) checks that its context is not done. *)
Definition is_poll (e : event jfs) : bool :=
  match e with
  | existT (Sleep _) _ => true
  | existT (CtxErr _) None => true
  | _ => false
  end.
Abbreviation jpolls := (polls (S := jfs) is_poll).
Abbreviation jneeds := (needs (S := jfs) is_poll).

(** ** Runs that return *)

Lemma runs_bind_done {A B} (p : M A) (f : A -> M B) t b :
  runs (bind p f) t (Done b) -> exists t1 t2 a, t = t1 ++ t2 /\ runs p t1 (Done a) /\ runs (f a) t2 (Done b).
Proof. intros [(t1 & t2 & a & -> & H1 & H2)|(s & _ & ?)]%runs_bind; [|done]. by exists t1, t2, a. Qed.

Lemma runs_bindR_ok {A B} (p : M (res A)) (f : A -> M (res B)) t b :
  runs (bindR p f) t (Done (Ok b)) ->
  exists t1 t2 a, t = t1 ++ t2 /\ runs p t1 (Done (Ok a)) /\ runs (f a) t2 (Done (Ok b)).
Proof.
  intros (t1 & t2 & [a|e] & -> & H1 & H2)%runs_bind_done; [by exists t1, t2, a|by destruct H2 as [_ ?]].
Qed.

Lemma runs_thenR_ok {B} (p : M (option error)) (q : M (res B)) t b :
  runs (thenR p q) t (Done (Ok b)) ->
  exists t1 t2, t = t1 ++ t2 /\ runs p t1 (Done None) /\ runs q t2 (Done (Ok b)).
Proof.
  intros (t1 & t2 & [e|] & -> & H1 & H2)%runs_bind_done; [by destruct H2 as [_ ?]|by exists t1, t2].
Qed.

Lemma runs_thenE_ok (p q : M (option error)) t :
  runs (thenE p q) t (Done None) ->
  exists t1 t2, t = t1 ++ t2 /\ runs p t1 (Done None) /\ runs q t2 (Done None).
Proof.
  intros (t1 & t2 & [e|] & -> & H1 & H2)%runs_bind_done; [by destruct H2 as [_ ?]|by exists t1, t2].
Qed.

Lemma runs_bindE_ok {A} (p : M (res A)) (f : A -> M (option error)) t :
  runs (bindE p f) t (Done None) ->
  exists t1 t2 a, t = t1 ++ t2 /\ runs p t1 (Done (Ok a)) /\ runs (f a) t2 (Done None).
Proof.
  intros (t1 & t2 & [a|e] & -> & H1 & H2)%runs_bind_done; [by exists t1, t2, a|by destruct H2 as [_ ?]].
Qed.
