(* ===== verification/Config.v ===== *)
(** * pkg/config/config.go: constants, process-wide settings, pod locks

    The package variables the driver sets at start-up are the fields of the
    class [Globals]; every component is parameterised by an instance. *)
From S2P Require Import Prelude.
From S2P Require Import GoStrings.
From S2P Require Import Hash.
From S2P Require Import K8s.
From S2P Require Import Prog.
From S2P Require Import Effects.
#[local] Open Scope Z_scope.
#[local] Open Scope go_scope.

(** The driver name unless the environment sets one. *)
Definition DriverName : string := "csi.juicefs.com".
Definition PodMountBase : string := "/jfs".
Definition TmpPodMountBase : string := "/tmp".
Definition MountBase : string := "/var/lib/jfs".
Definition CliPath : string := "/usr/bin/juicefs".
Definition CeCliPath : string := "/usr/local/bin/juicefs".
Definition DefaultClientConfPath : string := "/root/.juicefs".

Definition CSINodeLabelKey : string := "app".
Definition CSINodeLabelValue : string := "juicefs-csi-node".
Definition PodTypeKey : string := "app.kubernetes.io/name".
Definition PodTypeValue : string := "juicefs-mount".
Definition PodUniqueIdLabelKey : string := "volume-id".
Definition PodJuiceHashLabelKey : string := "juicefs-hash".
Definition Finalizer : string := "juicefs.com/finalizer".
Definition JuiceFSUUID : string := "juicefs-uuid".
Definition UniqueId : string := "juicefs-uniqueid".
Definition CleanCacheKey : string := "juicefs-clean-cache".
Definition MountContainerName : string := "jfs-mount".
Definition True_ : string := "true".
Definition InjectSidecarDone : string := "done.sidecar.juicefs.com/inject".
Definition InjectSidecarDisable : string := "disable.sidecar.juicefs.com/inject".

Definition ProvisionerSecretName : string := "csi.storage.k8s.io/provisioner-secret-name".
Definition ProvisionerSecretNamespace : string := "csi.storage.k8s.io/provisioner-secret-namespace".
Definition PublishSecretName : string := "csi.storage.k8s.io/node-publish-secret-name".
Definition PublishSecretNamespace : string := "csi.storage.k8s.io/node-publish-secret-namespace".
Definition ControllerExpandSecretName : string := "csi.storage.k8s.io/controller-expand-secret-name".
Definition ControllerExpandSecretNamespace : string :=
  "csi.storage.k8s.io/controller-expand-secret-namespace".

Definition MountPodCpuLimitKey : string := "juicefs/mount-cpu-limit".
Definition MountPodMemLimitKey : string := "juicefs/mount-memory-limit".
Definition MountPodCpuRequestKey : string := "juicefs/mount-cpu-request".
Definition MountPodMemRequestKey : string := "juicefs/mount-memory-request".
Definition mountPodLabelKey : string := "juicefs/mount-labels".
Definition mountPodAnnotationKey : string := "juicefs/mount-annotations".
Definition mountPodServiceAccount : string := "juicefs/mount-service-account".
Definition mountPodImageKey : string := "juicefs/mount-image".
Definition deleteDelay : string := "juicefs/mount-delete-delay".
Definition cleanCache : string := "juicefs/clean-cache".
Definition cachePVC : string := "juicefs/mount-cache-pvc".
Definition cacheEmptyDir : string := "juicefs/mount-cache-emptydir".
Definition cacheInlineVolume : string := "juicefs/mount-cache-inline-volume".
Definition mountPodHostPath : string := "juicefs/host-path".

Definition DeleteDelayTimeKey : string := "juicefs-delete-delay".
Definition DeleteDelayAtKey : string := "juicefs-delete-at".

Definition JobTypeValue : string := "juicefs-job".
Definition JfsInsideContainer : string := "JFS_INSIDE_CONTAINER".
Definition CeMountPath : string := "/bin/mount.juicefs".
Definition JfsMountPath : string := "/sbin/mount.juicefs".
Definition ROConfPath : string := "/etc/juicefs".

(** ** Patches of the mount pod: [MountPodPatch] *)

Record MountPodPatch := {
  mp_PVCSelector : option raw;
  mp_CEMountImage : string;
  mp_EEMountImage : string;
  mp_Image : string;
  mp_Labels : option smap;
  mp_Annotations : option smap;
  mp_HostNetwork : option bool;
  mp_HostPID : option bool;
  mp_LivenessProbe : option raw;
  mp_ReadinessProbe : option raw;
  mp_StartupProbe : option raw;
  mp_Lifecycle : option Lifecycle;
  mp_Resources : option ResourceRequirements;
}.

Definition empty_patch : MountPodPatch :=
  {| mp_PVCSelector := None; mp_CEMountImage := ""; mp_EEMountImage := ""; mp_Image := "";
     mp_Labels := None; mp_Annotations := None; mp_HostNetwork := None; mp_HostPID := None;
     mp_LivenessProbe := None; mp_ReadinessProbe := None; mp_StartupProbe := None;
     mp_Lifecycle := None; mp_Resources := None |}.

(** [if mp.F != nil { mpp.F = mp.F }]. *)
Definition overwrite {A} (old new : option A) : option A :=
  match new with Some a => Some a | None => old end.
Definition overwrite_str (old new : string) : string :=
  if bool_decide (new = "") then old else new.

(** [mpp.merge(mp)].  The code tests [ReadinessProbe] twice and never
    [StartupProbe]. *)
Definition merge (mpp mp : MountPodPatch) : MountPodPatch :=
  {| mp_PVCSelector := mp_PVCSelector mpp;
     mp_CEMountImage := overwrite_str (mp_CEMountImage mpp) (mp_CEMountImage mp);
     mp_EEMountImage := overwrite_str (mp_EEMountImage mpp) (mp_EEMountImage mp);
     mp_Image := mp_Image mpp;
     mp_Labels := overwrite (mp_Labels mpp) (mp_Labels mp);
     mp_Annotations := overwrite (mp_Annotations mpp) (mp_Annotations mp);
     mp_HostNetwork := overwrite (mp_HostNetwork mpp) (mp_HostNetwork mp);
     mp_HostPID := overwrite (mp_HostPID mpp) (mp_HostPID mp);
     mp_LivenessProbe := overwrite (mp_LivenessProbe mpp) (mp_LivenessProbe mp);
     mp_ReadinessProbe := overwrite (overwrite (mp_ReadinessProbe mpp) (mp_ReadinessProbe mp))
                            (mp_ReadinessProbe mp);
     mp_StartupProbe := mp_StartupProbe mpp;
     mp_Lifecycle := overwrite (mp_Lifecycle mpp) (mp_Lifecycle mp);
     mp_Resources := overwrite (mp_Resources mpp) (mp_Resources mp) |}.

(** The package variables. *)
Class Globals := {
  g_ByProcess : bool;
  g_FormatInPod : bool;
  g_Provisioner : bool;
  g_Webhook : bool;
  g_Immutable : bool;
  g_DriverName : string;
  g_ReconcileTimeout : Z;                   (** nanoseconds *)
  g_ReconcilerInterval : Z;                 (** seconds *)
  g_SecretReconcilerInterval : Z;           (** nanoseconds *)
  g_NodeName : string;
  g_Namespace : string;
  g_HostIp : string;
  g_KubeletPort : string;
  g_CSIPod : Pod;
  g_MountPointPath : string;
  g_JFSConfigPath : string;
  g_JFSMountPriorityName : string;
  g_JFSMountPreemptionPolicy : string;
  g_DefaultCEMountImage : string;
  g_DefaultEEMountImage : string;
  g_TZ : Z;                                 (** the local zone, seconds east of UTC *)
  g_EnableNodeSelector : bool;              (** [GlobalConfig.EnableNodeSelector] *)
  g_MountPodPatch : list MountPodPatch;     (** [GlobalConfig.MountPodPatch] *)
}.

(** ** Pod locks: [var PodLocks [1024]sync.Mutex] *)

Definition pod_lock_count : Z := 1024.

(** [GetPodLock]: the index of the mutex of a pod name, [int(h.Sum32()) % 1024]
    with Go's truncated remainder on a 64-bit [int]. *)
Definition GetPodLock (podName : string) : Z :=
  Z.rem (Z.of_N (fnv32a podName)) pod_lock_count.

Lemma GetPodLock_bound podName : 0 <= GetPodLock podName < pod_lock_count.
Proof.
  unfold GetPodLock, pod_lock_count.
  apply Z.rem_bound_pos; lia.
Qed.

(** [lock := GetPodLock(name); lock.Lock(); defer lock.Unlock(); body]: the
    deferred unlock runs when the body returns, also by a panic. *)
Fixpoint with_unlock {A} (i : Z) (p : M A) : M A :=
  match p with
  | Ret a => sys (Unlock i) ;;; Ret a
  | Halt NoFuel => Halt NoFuel
  | Halt (GoPanic m) => sys (Unlock i) ;;; Halt (GoPanic m)
  | Vis c k => Vis c (fun a => with_unlock i (k a))
  end.
Definition mutex_locked {A} (i : Z) (body : M A) : M A := sys (Lock i) ;;; with_unlock i body.
Definition locked {A} (podName : string) (body : M A) : M A := mutex_locked (GetPodLock podName) body.

(** The mutex of the provider ([juicefs.Mutex]) is one more index. *)
Definition provider_mutex : Z := pod_lock_count.
Definition provider_locked {A} (body : M A) : M A :=
  mutex_locked provider_mutex body.

(** Is the command a locking operation? *)
Definition is_lock_cmd (c : jfs_cmd) : bool :=
  match c with Lock _ | Unlock _ => true | _ => false end.

(** The mutexes held after a trace, starting from [held]; [None] when a held
    mutex is locked again (the goroutine would block itself) or a free one is
    unlocked (Go's fatal error). *)
Fixpoint locks_after (held : list Z) (t : jtrace) : option (list Z) :=
  match t with
  | [] => Some held
  | e :: t' =>
      match projT1 e with
      | Lock i => if bool_decide (i ∈ held) then None else locks_after (i :: held) t'
      | Unlock i => if bool_decide (i ∈ held)
                    then locks_after (filter (fun j => j <> i) held) t' else None
      | _ => locks_after held t'
      end
  end.

(** A program that uses mutexes correctly from a state where none is held:
    never a double lock, never a stray unlock, and all released at the end of
    every run that the loop bound does not cut. *)
Definition lock_safe {A} (p : M A) : Prop :=
  forall t o, runs p t o ->
    exists held, locks_after [] t = Some held /\ (o <> Halted NoFuel -> held = []).

Lemma locks_after_app held t1 t2 :
  locks_after held (t1 ++ t2) = match locks_after held t1 with
                                | Some h => locks_after h t2
                                | None => None
                                end.
Proof.
  revert held. induction t1 as [|e t1 IH]; intros held; [done|]. simpl.
  destruct e as [c a]. simpl. destruct c; try apply IH; by case_bool_decide; auto.
Qed.

Lemma locks_after_none held (t : jtrace) :
  never (S := jfs) (fun e => is_lock_cmd (projT1 e)) t = true -> locks_after held t = Some held.
Proof.
  unfold never. revert held. induction t as [|e t IH]; intros held; [done|]. simpl.
  rewrite negb_orb, andb_true_iff. intros [He Ht].
  destruct e as [c a]. simpl in *. by destruct c; try done; apply IH.
Qed.

Abbreviation lock_free := (avoids (S := jfs) is_lock_cmd).

Lemma runs_with_unlock {A} i (p : M A) t o :
  runs (with_unlock i p) t o ->
  exists t', runs p t' o /\
    t = t' ++ match o with Halted NoFuel => [] | _ => [ev (S := jfs) (Unlock i) tt] end.
Proof.
  revert t. induction p as [a|[m|]|c k IH]; intros t; simpl.
  - intros ([] & t' & -> & -> & ->). by exists [].
  - intros ([] & t' & -> & -> & ->). by exists [].
  - intros [-> ->]. by exists [].
  - intros (a & t' & -> & H). apply IH in H as (t'' & H & ->).
    exists (ev (S := jfs) c a :: t''). split; [by exists a, t''|done].
Qed.

Definition unlock_events {A} (podName : string) (o : outcome A) : jtrace :=
  match o with
  | Halted NoFuel => []
  | _ => [ev (S := jfs) (Unlock (GetPodLock podName)) tt]
  end.

(** A run of a critical section is a run of its body between the lock and the
    unlock. *)
Lemma runs_locked {A} podName (p : M A) t o :
  runs (locked podName p) t o ->
  exists t', runs p t' o /\
    t = ev (S := jfs) (Lock (GetPodLock podName)) tt :: t' ++ unlock_events podName o.
Proof.
  intros ([] & t' & -> & H). apply runs_with_unlock in H as (t'' & H & ->). by exists t''.
Qed.

Lemma unlock_events_locks {A} podName (o : outcome A) :
  Forall (fun e => is_lock_cmd (projT1 e) = true) (unlock_events podName o).
Proof. destruct o as [a|[m|]]; repeat constructor. Qed.

Lemma mutex_locked_safe {A} i (p : M A) : lock_free p -> lock_safe (mutex_locked i p).
Proof.
  intros Hp t o (u & t' & -> & H). simpl in u.
  apply runs_with_unlock in H as (t'' & H & ->). simpl.
  rewrite locks_after_app, (locks_after_none _ _ (avoids_runs _ _ _ _ Hp H)).
  assert (locks_after [i] [ev (S := jfs) (Unlock i) tt] = Some []) as Hu.
  { simpl. rewrite bool_decide_true by set_solver. by rewrite filter_cons_False by auto. }
  destruct o as [a|[m|]].
  - by exists [].
  - by exists [].
  - eexists. by split.
Qed.

Lemma locked_safe {A} podName (p : M A) : lock_free p -> lock_safe (locked podName p).
Proof. apply mutex_locked_safe. Qed.

Lemma lock_safe_bind {A B} (p : M A) (f : A -> M B) :
  lock_safe p -> (forall a, lock_safe (f a)) -> lock_safe (bind p f).
Proof.
  intros Hp Hf t o [(t1 & t2 & a & -> & H1 & H2)|(s & H & ->)]%runs_bind.
  - destruct (Hp _ _ H1) as (h & Hh & Hn). rewrite locks_after_app, Hh.
    rewrite Hn by done. by apply Hf in H2.
  - destruct (Hp _ _ H) as (h & Hh & Hn). exists h. split; [done|].
    intros Ho. apply Hn. intros [= ->]. by apply Ho.
Qed.

Lemma lock_free_safe {A} (p : M A) : lock_free p -> lock_safe p.
Proof.
  intros Hp t o H. exists []. split; [|done]. apply locks_after_none. by eapply avoids_runs.
Qed.

Lemma wp_with_unlock {A} i (p : M A) Q t :
  wp (with_unlock i p) Q t <->
  wp p (fun t' o => Q (t' ++ match o with Halted NoFuel => [] | _ => [ev (S := jfs) (Unlock i) tt] end) o) t.
Proof.
  revert t. induction p as [a|[m|]|c k IH]; intros t; simpl.
  - split; [intros H; by apply H|]. by intros H [].
  - split; [intros H; by apply H|]. by intros H [].
  - by rewrite app_nil_r.
  - split; intros H a; apply IH, H.
Qed.

Lemma avoids_with_unlock P {A} i (p : M A) :
  P (Unlock i) = false -> avoids (S := jfs) P p -> avoids (S := jfs) P (with_unlock i p).
Proof.
  intros Hi. induction p as [a|[m|]|c k IH]; simpl; [done..|]. intros [Hc Hk]. auto.
Qed.

Lemma avoids_locked P {A} podName (p : M A) :
  (forall i, P (Lock i) = false) -> (forall i, P (Unlock i) = false) ->
  avoids (S := jfs) P p -> avoids (S := jfs) P (locked podName p).
Proof. intros HL HU Hp. split; [apply HL|]. intros u. by apply avoids_with_unlock. Qed.

Lemma issues_with_unlock R {A} i (p : M A) t :
  (forall t, R t (Unlock i)) -> issues (S := jfs) R p t -> issues (S := jfs) R (with_unlock i p) t.
Proof.
  intros HR. revert t. induction p as [a|[m|]|c k IH]; intros t; simpl; [done..|].
  intros [Hc Hk]. auto.
Qed.

Lemma issues_locked R {A} podName (p : M A) t :
  (forall t i, R t (Lock i)) -> (forall t i, R t (Unlock i)) ->
  (forall a, issues (S := jfs) R p (t ++ [ev (S := jfs) (Lock (GetPodLock podName)) a])) ->
  issues (S := jfs) R (locked podName p) t.
Proof. intros HL HU Hp. split; [apply HL|]. intros u. by apply issues_with_unlock. Qed.

(** ** Proof automation for programs *)

(** Unfold a program down to the next command or decision. *)
Ltac prog_simpl :=
  cbn [wp bind sys call bindR bindE thenE thenR then_wp jfs cmd answer jfs_answer app
       projT1 projT2 fst snd].

Ltac prog_simpl_in H :=
  cbn [runs bind sys call bindR bindE thenE thenR jfs cmd answer jfs_answer app
       projT1 projT2 fst snd] in H.

(** [avoids P p] by the structure of [p]; lemmas on named programs come from
    the hint database. *)
Ltac avoids_step :=
  match goal with
  | |- forall _, _ => intros ?
  | |- avoids _ (Ret _) => exact I
  | |- avoids _ (Halt _) => exact I
  | |- avoids _ (panic _) => exact I
  | |- avoids _ (sys _) => apply avoids_call
  | |- avoids _ (bind _ _) => apply avoids_bind
  | |- avoids _ (bindR _ _) => apply avoids_bind
  | |- avoids _ (bindE _ _) => apply avoids_bind
  | |- avoids _ (thenE _ _) => apply avoids_bind
  | |- avoids _ (thenR _ _) => apply avoids_bind
  | |- avoids _ (go _) => apply avoids_bind
  | |- avoids _ (range_map _) => apply avoids_bind
  | |- avoids _ (loop _ _ _) => apply avoids_loop
  | |- avoids _ (fold_prog _ _ _) => apply avoids_fold
  | |- avoids _ (for_each _ _ _) => apply avoids_for_each
  | |- avoids _ (locked _ _) => apply avoids_locked
  | |- avoids _ (match ?x with _ => _ end) => destruct x
  | |- avoids _ _ => solve [auto with avoids]
  | |- _ = false => reflexivity
  end.
Ltac solve_avoids := repeat avoids_step.

Create HintDb needs.

(** [jneeds n p] likewise; loops are left to their lemmas. *)
Lemma needs_with_unlock n {A} i (p : M A) : jneeds n p -> jneeds n (with_unlock i p).
Proof.
  intros Hp t (t' & H & ->)%runs_with_unlock. apply Hp in H. rewrite polls_app. lia.
Qed.

Lemma needs_sys n c : jneeds n (sys c).
Proof. exact (needs_call is_poll n (S := jfs) c). Qed.

Ltac needs_step :=
  match goal with
  | |- forall _, _ => intros ?
  | |- needs _ _ (Ret _) => apply needs_ret
  | |- needs _ _ (panic _) => apply needs_panic
  | |- needs _ _ (sys _) => apply needs_sys
  | |- needs _ _ (bind _ _) => apply needs_bind
  | |- needs _ _ (bindR _ _) => apply needs_bind
  | |- needs _ _ (bindE _ _) => apply needs_bind
  | |- needs _ _ (thenE _ _) => apply needs_bind
  | |- needs _ _ (thenR _ _) => apply needs_bind
  | |- needs _ _ (go _) => apply needs_bind
  | |- needs _ _ (range_map _) => apply needs_bind
  | |- needs _ _ (fold_prog _ _ _) => apply needs_fold
  | |- needs _ _ (for_each _ _ _) => apply needs_for_each
  | |- needs _ _ (locked _ _) => apply needs_bind; [|intros _; apply needs_with_unlock]
  | |- needs _ _ (match ?x with _ => _ end) => destruct x
  | |- needs _ _ _ => solve [auto with needs]
  end.
Ltac solve_needs := repeat needs_step.

(** A round that goes on polls the environment. *)
Definition round_polls {R} (p : M (unit + R)) : Prop :=
  wp p (fun t o => match o with Done (inl _) => (1 <= jpolls t)%nat | _ => True end) [].

Lemma round_polls_spec {R} (p : M (unit + R)) t u :
  round_polls p -> runs p t (Done (inl u)) -> (1 <= jpolls t)%nat.
Proof. intros Hp Hr. by apply (wp_elim _ _ _ _ Hr Hp). Qed.

Lemma needs_wait_loop n m {R} (body : unit -> M (unit + R)) u :
  (n <= m)%nat -> round_polls (body tt) -> jneeds n (body tt) -> jneeds n (loop m body u).
Proof.
  intros Hnm Hp Hb. apply needs_loop; [done| |by intros []].
  intros [] t u' Hr. by eapply round_polls_spec.
Qed.

(** Closes a leaf of a round: it ended, or the history shows a poll. *)
Ltac poll_leaf := first [done | intros; unfold polls; simpl; first [done | lia]].
