(* ===== verification/Util.v ===== *)
(** * pkg/util: strings, paths, devices, jobs, waiting

    [util.go], [job.go] and the shared helpers of [pkg/util]; the functions on
    pods are in PodUtil. *)
From S2P Require Import Prelude.
From S2P Require Import GoStrings.
From S2P Require Import Hash.
From S2P Require Import K8s.
From S2P Require Import GoTime.
From S2P Require Import Prog.
From S2P Require Import Effects.
From S2P Require Import Config.
From Stdlib Require Import Ascii.
#[local] Open Scope Z_scope.
#[local] Open Scope go_scope.

(** ** Membership in string slices *)

Fixpoint ContainsString (slice : list string) (s : string) : bool :=
  match slice with
  | [] => false
  | item :: slice' => if bool_decide (item = s) then true else ContainsString slice' s
  end.

Fixpoint ContainsPrefix (slice : list string) (s : string) : bool :=
  match slice with
  | [] => false
  | item :: slice' => if HasPrefix item s then true else ContainsPrefix slice' s
  end.

Lemma ContainsString_spec slice s : ContainsString slice s = true <-> s ∈ slice.
Proof.
  induction slice as [|x l IH]; simpl; [by rewrite elem_of_nil|].
  rewrite elem_of_cons. case_bool_decide as E; [by split; auto|]. rewrite IH.
  split; [auto|]. by intros [->|].
Qed.

(** ** Reference keys

    A mount pod records each target it serves under the annotation key
    [GetReferenceKey target]. *)
Definition GetReferenceKey (target : string) : string :=
  str_take 63 ("juicefs-" +:+ sha256_hex target).

(** [k == util.GetReferenceKey(v)]: the annotation is a reference. *)
Definition is_ref (kv : string * string) : bool := bool_decide (kv.1 = GetReferenceKey kv.2).

(** The slice [:63] is always within bounds, and the key is a legal
    Kubernetes name: at most 63 characters. *)
Lemma GetReferenceKey_length target : String.length (GetReferenceKey target) = 63%nat.
Proof.
  unfold GetReferenceKey. apply str_length_take.
  rewrite str_length_app, sha256_hex_length. simpl. lia.
Qed.

Lemma GetReferenceKey_prefix target : HasPrefix (GetReferenceKey target) "juicefs-" = true.
Proof.
  unfold GetReferenceKey.
  change 63%nat with (S (S (S (S (S (S (S (S 55)))))))). cbn [String.append str_take].
  apply HasPrefix_spec. eexists. reflexivity.
Qed.

(** None of the bookkeeping annotations of a mount pod is a reference key:
    they are shorter. *)
Lemma short_key_not_ref k v : (String.length k < 63)%nat -> is_ref (k, v) = false.
Proof.
  intros H. unfold is_ref. simpl. rewrite bool_decide_false; [done|].
  intros ->. rewrite GetReferenceKey_length in H. lia.
Qed.

(** ** Mount commands *)

(** [ParseMntPath]: the mount path and the volume id of a mount pod's command;
    the mount command is the last line of the script. *)
Definition ParseMntPath (cmd : string) : res (string * string) :=
  let cmds := Split cmd (String "010" "") in
  let mountCmd := default "" (last cmds) in
  let args := Fields mountCmd in
  match args with
  | _ :: _ :: a2 :: _ =>
      if HasPrefix a2 PodMountBase
      then match Split a2 "/" with
           | _ :: _ :: v :: _ => Ok (a2, v)
           | _ => Err (Errorf ("err mntPath:" +:+ a2))
           end
      else Err (Errorf ("err cmd:" +:+ cmd))
  | _ => Err (Errorf ("err cmd:" +:+ cmd))
  end.

Definition QuoteForShell (cmd : string) : string :=
  let cmd := if Contains cmd "(" then ReplaceAll cmd "(" "\(" else cmd in
  if Contains cmd ")" then ReplaceAll cmd ")" "\)" else cmd.

Definition StripReadonlyOption (options : list string) : list string :=
  filter (fun o => o <> "ro" /\ o <> "read-only") options.

(** [uri[lo:hi]], [None] for the run-time panic of a slice out of range. *)
Definition slice (s : string) (lo hi : Z) : option string :=
  if (0 <=? lo) && (lo <=? hi) && (hi <=? Z.of_nat (String.length s))
  then Some (str_take (Z.to_nat (hi - lo)) (str_drop (Z.to_nat lo) s))
  else None.
Definition slice_from (s : string) (lo : Z) : option string :=
  slice s lo (Z.of_nat (String.length s)).
(** [strings.Index] with Go's [-1]. *)
Definition IndexZ (s sub : string) : Z :=
  match Index s sub with Some n => Z.of_nat n | None => -1 end.

(** [StripPasswd]: hide the password of a meta URL; [None]: the code panics. *)
Definition StripPasswd (uri : string) : option string :=
  let p := IndexZ uri "@" in
  if p <? 0 then Some uri else
  let sp := IndexZ uri "://" in
  rest ← slice_from uri (sp + 3);
  let cp := IndexZ rest ":" in
  if (cp <? 0) || (p <? sp + 3 + cp) then Some uri else
  a ← slice uri 0 (sp + 3 + cp);
  b ← slice_from uri p;
  Some (a +:+ ":****" +:+ b).

(** ** Dynamic PV names: the unanchored regexp [pvc-\w{8}(-\w{4}){3}-\w{12}] *)

Definition is_word (c : ascii) : bool :=
  let n := N_of_ascii c in
  ((48 <=? n) && (n <=? 57) || (65 <=? n) && (n <=? 90) || (n =? 95) || (97 <=? n) && (n <=? 122))%N.
Definition lit (c : ascii) : ascii -> bool := fun d => bool_decide (d = c).
Definition dynamic_pv_pattern : list (ascii -> bool) :=
  [lit "p"; lit "v"; lit "c"; lit "-"] ++ replicate 8 is_word ++
  mjoin (replicate 3 (lit "-" :: replicate 4 is_word)) ++ lit "-" :: replicate 12 is_word.
Fixpoint matches_at (pat : list (ascii -> bool)) (s : string) : bool :=
  match pat, s with
  | [], _ => true
  | f :: pat', String c s' => f c && matches_at pat' s'
  | _ :: _, EmptyString => false
  end.
Fixpoint matches_in (pat : list (ascii -> bool)) (s : string) : bool :=
  matches_at pat s || match s with String _ s' => matches_in pat s' | EmptyString => false end.
(** [CheckDynamicPV]; the pattern compiles, so the error is always nil. *)
Definition CheckDynamicPV (name : string) : bool := matches_in dynamic_pv_pattern name.

Definition CheckExpectValue (m : smap) (key targetValue : string) : bool :=
  match m !! key with Some v => bool_decide (v = targetValue) | None => false end.

(** [ImageResol]: does the image contain the community / enterprise client. *)
Definition ImageResol (image : string) : bool * bool :=
  match Split image ":" with
  | _ :: tag :: _ =>
      if bool_decide (tag = "latest") then (true, false)
      else if HasPrefix tag "ee-" then (false, true)
      else if HasPrefix tag "ce-" then (true, false)
      else (true, true)
  | _ => (true, false)
  end.

(** ** Random names *)

Definition letterRunes : string := "abcdefghijklmnopqrstuvwxyz".

Fixpoint RandStringRunes (n : nat) : M string :=
  match n with
  | O => Ret ""
  | S n' =>
      i <- sys (RandIntn (String.length letterRunes)) ;;
      rest <- RandStringRunes n' ;;
      Ret (str_take 1 (str_drop (proj1_sig i) letterRunes) +:+ rest)
  end.

(** ** Device numbers *)

Definition W64 : Z := 2 ^ 64.
(** [DevMinor]: the minor of a Linux [dev_t]. *)
Definition DevMinor (dev : Z) : Z :=
  Z.lor (Z.land dev 0xff) (Z.land (Z.shiftr dev 12) 0xffffff00) mod 2 ^ 32.
(** glibc's [makedev]. *)
Definition makedev (major minor : Z) : Z :=
  Z.lor (Z.lor (Z.land minor 0xff) (Z.shiftl (Z.land major 0xfff) 8))
        (Z.lor (Z.shiftl (Z.land minor 0xffffff00) 12) (Z.shiftl (Z.land major 0xfffff000) 32)).

(** ** Jobs (job.go) *)

Definition IsJobCompleted (job : Job) : bool :=
  existsb (fun c => bool_decide (c.2 = "True") && bool_decide (c.1 = "Complete")) (j_conditions job).
Definition IsJobFailed (job : Job) : bool :=
  existsb (fun c => bool_decide (c.2 = "True") && bool_decide (c.1 = "Failed")) (j_conditions job).

(** [IsJobShouldBeRecycled] reads the clock only when the job has both a TTL
    and a completion time. *)
Definition IsJobShouldBeRecycled (job : Job) : M bool :=
  if negb (IsJobCompleted job) && negb (IsJobFailed job) then Ret false else
  match TTLSecondsAfterFinished job with
  | None => Ret true
  | Some ttl =>
      match CompletionTime job with
      | None => Ret false
      | Some ct => now <- sys Now ;; Ret (ct + ttl * Second <? now)
      end
  end.

(** ** Waiting *)

(** [DoWithContext]/[DoWithTimeout] on a function with a result: when the
    deadline wins, the goroutine goes on in the background. *)
Definition DoWithTimeout {A} (parent : context) (timeout : Z) (f : M (res A)) : M (res A) :=
  r <- sys (AwaitDone (WithTimeout parent timeout)) ;;
  match r with
  | None => f
  | Some e => go f ;;; Ret (Err (CtxError e))
  end.

(** The same on a function that only returns an error. *)
Definition DoWithTimeoutE (parent : context) (timeout : Z) (f : M (option error)) : M (option error) :=
  r <- sys (AwaitDone (WithTimeout parent timeout)) ;;
  match r with
  | None => f
  | Some e => go f ;;; Ret (Some (CtxError e))
  end.

(** [UmountPath]: a lazy umount whose failure is only logged. *)
Definition UmountPath (sourcePath : string) : M unit :=
  sys (LazyUmount sourcePath) ;;; Ret tt.

(** ** Properties of the pure helpers *)

Lemma land_ff x : Z.land x 0xff = x mod 2 ^ 8.
Proof. change 0xff with (Z.ones 8). by rewrite Z.land_ones by lia. Qed.

Lemma DevMinor_bound dev : 0 <= DevMinor dev < 2 ^ 32.
Proof. apply Z.mod_pos_bound. lia. Qed.

Lemma StripReadonlyOption_spec o l :
  o ∈ StripReadonlyOption l <-> o ∈ l /\ o <> "ro" /\ o <> "read-only".
Proof. unfold StripReadonlyOption. rewrite list_elem_of_filter. tauto. Qed.

Lemma matches_at_app pat s r : matches_at pat s = true -> matches_at pat (s +:+ r) = true.
Proof.
  revert s. induction pat as [|f pat IH]; intros s; [by destruct (s +:+ r)|].
  destruct s as [|c s]; [done|]. simpl. rewrite !andb_true_iff. intros []. auto.
Qed.

Lemma matches_in_spec pat s :
  matches_in pat s = true <-> exists a b, s = a +:+ b /\ matches_at pat b = true.
Proof.
  split.
  - induction s as [|c s IH]; simpl; rewrite orb_true_iff.
    + intros [H|]; [|done]. by exists "", "".
    + intros [H|H]; [by exists "", (String c s)|].
      destruct (IH H) as (a & b & -> & Hb). by exists (String c a), b.
  - intros (a & b & -> & Hb). induction a as [|c a IH]; simpl.
    + destruct b; simpl; by rewrite Hb.
    + by rewrite IH, orb_true_r.
Qed.
