(* ===== verification/MountRefs.v ===== *)
(** * pkg/util/util.go: references of a mount, sizes, disk usage

    The part of [util.go] that reads /proc/self/mountinfo to find the other
    mounts of a device, that parses sizes, and that asks for the usage of a
    file system. *)
From S2P Require Import Prelude.
From S2P Require Import GoStrings.
From S2P Require Import K8s.
From S2P Require Import Prog.
From S2P Require Import Effects.
From S2P Require Import Util.
From Stdlib Require Import Ascii.
#[local] Open Scope Z_scope.
#[local] Open Scope go_scope.

Definition maxListTries : nat := 3.
Definition expectedAtLeastNumFieldsPerMountInfo : nat := 10.
Definition procMountInfoPath : string := "/proc/self/mountinfo".

(** ** Paths *)

(** The elements of a cleaned path. *)
Definition path_elements (p : string) : list string :=
  rev (fold_left (clean_step (HasPrefix p "/")) (Split p "/") []).

Fixpoint strip_common (a b : list string) : list string * list string :=
  match a, b with
  | x :: a', y :: b' => if bool_decide (x = y) then strip_common a' b' else (a, b)
  | _, _ => (a, b)
  end.

(** [filepath.Rel]: the relative path from [basepath] to [targpath], [None]
    for its error. *)
Definition filepath_Rel (basepath targpath : string) : option string :=
  let '(base, targ) := strip_common (path_elements basepath) (path_elements targpath) in
  if negb (Bool.eqb (HasPrefix basepath "/") (HasPrefix targpath "/")) then None
  else match base, targ with
       | [], [] => Some "."
       | ".." :: _, _ => None
       | _, _ => Some (Join (map (fun _ => "..") base ++ targ) "/")
       end.

Definition startsWithBackstep (rel : string) : bool := bool_decide (rel = "..") || HasPrefix rel "../".

Definition pathWithinBase (fullPath basePath : string) : bool :=
  match filepath_Rel basePath fullPath with
  | None => false
  | Some rel => negb (startsWithBackstep rel)
  end.

(** [filepath.Dir] and [filepath.Base]. *)
Definition filepath_Dir (p : string) : string :=
  match LastIndex p "/" with
  | None => "."
  | Some i => path_Clean (str_take (S i) p)
  end.
Definition filepath_Base (p : string) : string :=
  if bool_decide (p = "") then "."
  else
    let p := trim_right (fun c => bool_decide (c = "/"%char)) p in
    let p := match LastIndex p "/" with None => p | Some i => str_drop (S i) p end in
    if bool_decide (p = "") then "/" else p.

(** ** The mount table *)

Record mountInfo := {
  id : Z;
  parentID : Z;
  majorMinor : string;
  root : string;
  source : string;
  mountPoint : string;
  optionalFields : list string;
  fsType : string;
  mountOptions : list string;
  superOptions : list string;
}.

(** The fields before the separator, and those after it. *)
Fixpoint split_dash (fields : list string) : list string * list string :=
  match fields with
  | [] => ([], [])
  | f :: fields' =>
      if bool_decide (f = "-") then ([], fields')
      else let '(a, b) := split_dash fields' in (f :: a, b)
  end.

(** One line of the table. *)
Definition parse_mount_line (line : string) : res mountInfo :=
  let fields := Fields line in
  if (length fields <? expectedAtLeastNumFieldsPerMountInfo)%nat
  then Err (Errorf ("wrong number of fields in (expected at least 10, got " +:+
                    pretty (length fields) +:+ "): " +:+ line))
  else
    match fields with
    | f0 :: f1 :: f2 :: f3 :: f4 :: f5 :: more =>
        match Atoi f0, Atoi f1 with
        | Some n, Some parent =>
            match split_dash more with
            | (optional, fs :: src :: super :: _) =>
                Ok {| id := n; parentID := parent; majorMinor := f2; root := f3; source := src;
                      mountPoint := f4; optionalFields := optional; fsType := fs;
                      mountOptions := Split f5 ","; superOptions := Split super "," |}
            | _ => Err (Errorf ("expect 3 fields in " +:+ line))
            end
        | _, _ => Err (Errorf ("strconv.Atoi: invalid syntax: " +:+ line))
        end
    | _ => Err (Errorf "unreachable")
    end.

Fixpoint parse_mount_lines (lines : list string) : res (list mountInfo) :=
  match lines with
  | [] => Ok []
  | l :: lines' =>
      if bool_decide (l = "") then parse_mount_lines lines'
      else match parse_mount_line l with
           | Err e => Err e
           | Ok mi => res_map (cons mi) (parse_mount_lines lines')
           end
  end.

(** [ConsistentRead]: until the same content is read twice. *)
Fixpoint read_again (filename : string) (attempts n : nat) (oldContent : string) : M (res string) :=
  match n with
  | O => Ret (Err (Errorf ("could not get consistent content of " +:+ filename +:+ " after " +:+
                           pretty attempts +:+ " attempts")))
  | S n' =>
      newContent <-? sys (ReadFile filename) ;;
      if bool_decide (oldContent = newContent) then Ret (Ok newContent)
      else read_again filename attempts n' newContent
  end.
Definition ConsistentRead (filename : string) (attempts : nat) : M (res string) :=
  oldContent <-? sys (ReadFile filename) ;; read_again filename attempts attempts oldContent.

Definition parseMountInfo (filename : string) : M (res (list mountInfo)) :=
  content <-? ConsistentRead filename maxListTries ;;
  Ret (parse_mount_lines (Split content (String "010" ""))).

(** ** References *)

(** Is [hostSource] the mount point or below it? *)
Definition covers (hostSource : string) (mi : mountInfo) : bool :=
  bool_decide (hostSource = mountPoint mi) || pathWithinBase hostSource (mountPoint mi).

(** The pure part of [searchMountPoints]: the last mount that covers the path
    determines the device; the other mounts of the device are its references. *)
Definition search_mounts (hostSource : string) (mis : list mountInfo) : res (list string) :=
  let not_found := Err (Errorf ("failed to get root path and major:minor for " +:+ hostSource)) in
  match find_last (covers hostSource) mis with
  | None => not_found
  | Some m =>
      let rootPath := path_Join [root m; TrimPrefix hostSource (mountPoint m)] in
      if bool_decide (rootPath = "") || bool_decide (majorMinor m = "") then not_found
      else Ok (omap (fun mi => if bool_decide (id mi = id m) then None
                               else if bool_decide (majorMinor mi = majorMinor m) &&
                                       bool_decide (fsType mi = fsType m)
                                    then Some (mountPoint mi) else None) mis)
  end.

Definition searchMountPoints (hostSource mountInfoPath : string) : M (res (list string)) :=
  mis <-? parseMountInfo mountInfoPath ;; Ret (search_mounts hostSource mis).

Definition GetMountDeviceRefs (pathname : string) (corrupted : bool) : M (res (list string)) :=
  realpath <-? (if corrupted
                then
                  let pathname := TrimSuffix pathname "/" in
                  dir <-? sys (EvalSymlinks (filepath_Dir pathname)) ;;
                  Ret (Ok (path_Join [dir; filepath_Base pathname]))
                else sys (EvalSymlinks pathname)) ;;
  searchMountPoints realpath procMountInfoPath.

(** [GetDiskUsage]: total and free bytes, total and free inodes; products of
    64-bit words wrap around. *)
Definition GetDiskUsage (path : string) : M (Z * Z * Z * Z) :=
  r <- sys (Statfs path) ;;
  match r with
  | Err _ => Ret (1, 1, 1, 1)
  | Ok (bsize, blocks, bfree, files, ffree) =>
      let blockSize := bsize mod 2 ^ 64 in
      Ret (blockSize * blocks mod 2 ^ 64, blockSize * bfree mod 2 ^ 64, files, ffree)
  end.

(** ** Sizes: [ParseToBytes]

    A 64-bit float is [m * 2^e]; what [strconv.ParseFloat] reads is rounded to
    the nearest float, ties to even.  Hexadecimal floats, infinities, NaN and
    underscores are left out: the model rejects them. *)
Record float64 := { f_neg : bool; f_mant : Z; f_exp : Z }.

(** [round (num / den)] to a 53-bit mantissa ([num], [den] > 0). *)
Definition round_float (num den : Z) : Z * Z :=
  let e0 := Z.log2 num - Z.log2 den - 53 in
  let scaled e := (num * 2 ^ Z.max 0 (- e), den * 2 ^ Z.max 0 e) in
  let e := let '(n, d) := scaled e0 in if n / d <? 2 ^ 53 then e0 else e0 + 1 in
  let e := Z.max e (-1074) in
  let '(n, d) := scaled e in
  let q := n / d in
  let r := 2 * (n mod d) in
  (if (d <? r) || (r =? d) && Z.odd q then q + 1 else q, e).

(** Digits, then a fraction, then an exponent. *)
Definition parse_exponent (s : string) : option Z :=
  match s with
  | EmptyString => Some 0
  | String c s' =>
      if bool_decide (c = "e"%char \/ c = "E"%char)
      then
        let '(sign, d) := match s' with
                          | String "-" r => (-1, r)
                          | String "+" r => (1, r)
                          | _ => (1, s')
                          end in
        if bool_decide (d = "") then None else (fun n => sign * n) <$> digits_value d 0
      else None
  end.

Definition ParseFloat (s : string) : option float64 :=
  let '(neg, s) := match s with
                   | String "-" r => (true, r)
                   | String "+" r => (false, r)
                   | _ => (false, s)
                   end in
  let '(whole, rest) := span_digits s in
  let '(frac, rest) := match rest with
                       | String "." r => span_digits r
                       | _ => ("", rest)
                       end in
  if bool_decide (whole +:+ frac = "") then None else
  n ← digits_value (whole +:+ frac) 0;
  e ← parse_exponent rest;
  let e := e - Z.of_nat (String.length frac) in
  let '(m, x) := if n =? 0 then (0, 0)
                 else round_float (n * 10 ^ Z.max 0 e) (10 ^ Z.max 0 (- e)) in
  if Z.log2 m + x <? 1024 then Some {| f_neg := neg; f_mant := m; f_exp := x |} else None.

(** [uint64(f * 2^shift)] on amd64. *)
Definition float_to_uint64 (f : float64) (shift : Z) : Z :=
  let x := f_exp f + shift in
  let t := if 0 <=? x then f_mant f * 2 ^ x else f_mant f / 2 ^ (- x) in
  let v := if f_neg f then - t else t in
  if (v <? - 2 ^ 63) then 2 ^ 63
  else if v <? 2 ^ 64 then v mod 2 ^ 64
  else 0.

Definition last_char (s : string) : option ascii := String.get (String.length s - 1) s.

Definition unit_shift (unit : ascii) : option Z :=
  if bool_decide (unit = "k"%char \/ unit = "K"%char) then Some 10
  else if bool_decide (unit = "m"%char \/ unit = "M"%char) then Some 20
  else if bool_decide (unit = "g"%char \/ unit = "G"%char) then Some 30
  else if bool_decide (unit = "t"%char \/ unit = "T"%char) then Some 40
  else if bool_decide (unit = "p"%char \/ unit = "P"%char) then Some 50
  else if bool_decide (unit = "e"%char \/ unit = "E"%char) then Some 60
  else None.

Definition ParseToBytes (value : string) : res Z :=
  match last_char value with
  | None => Ok 0
  | Some c =>
      let '(s, unit) := if is_digit c then (value, "M"%char)
                        else (str_take (String.length value - 1) value, c) in
      match ParseFloat s with
      | None => Err (Errorf ("cannot parse " +:+ value +:+ " to bytes"))
      | Some val =>
          match unit_shift unit with
          | None => Err (Errorf ("cannot parse " +:+ value +:+ " to bytes, invalid unit"))
          | Some shift => Ok (float_to_uint64 val shift)
          end
      end
  end.

Example ParseToBytes_1 : ParseToBytes "1" = Ok (2 ^ 20).
Proof. reflexivity. Qed.
Example ParseToBytes_half : ParseToBytes "1.5G" = Ok (3 * 2 ^ 29).
Proof. reflexivity. Qed.
Example ParseToBytes_bad : is_ok (ParseToBytes "300x") = false.
Proof. reflexivity. Qed.
