(* ===== verification/PodUtil.v ===== *)
(** * pkg/util/pod.go and the delayed deletion of util.go

    Status predicates of pods, the patches on mount pods, the reference
    annotations, and the decision to delay the deletion of a mount pod. *)
From S2P Require Import Prelude.
From S2P Require Import GoStrings.
From S2P Require Import Hash.
From S2P Require Import K8s.
From S2P Require Import GoTime.
From S2P Require Import Prog.
From S2P Require Import Effects.
From S2P Require Import Config.
From S2P Require Import Util.
#[local] Open Scope Z_scope.
#[local] Open Scope go_scope.

(** ** Status *)

Definition ConditionTrue : string := "True".
Definition ConditionFalse : string := "False".

Definition is_ready_condition (c : PodCondition) : bool :=
  bool_decide (pc_status c = ConditionTrue) &&
  (bool_decide (pc_type c = "ContainersReady") || bool_decide (pc_type c = "Ready")).

(** [IsPodReady]: exactly two ready conditions are true. *)
Definition IsPodReady (pod : Pod) : bool :=
  Nat.eqb (length (List.filter is_ready_condition (Conditions (p_status pod)))) 2.

Definition container_failed (st : ContainerStatus) : bool :=
  (match Waiting (cs_state st) with Some r => negb (bool_decide (r = "ContainerCreating")) | None => false end)
  || (match Terminated (cs_state st) with Some (code, _) => negb (code =? 0) | None => false end).
Definition containError (statuses : list ContainerStatus) : bool := existsb container_failed statuses.

Definition IsPodError (pod : Pod) : bool :=
  if bool_decide (Phase (p_status pod) = "Failed") || bool_decide (Phase (p_status pod) = "Unknown")
  then true else containError (ContainerStatuses (p_status pod)).

Definition unschedulable (c : PodCondition) : bool :=
  bool_decide (pc_status c = ConditionFalse) && bool_decide (pc_type c = "PodScheduled") &&
  bool_decide (pc_reason c = "Unschedulable") &&
  (Contains (pc_message c) "Insufficient cpu" || Contains (pc_message c) "Insufficient memory").

Definition IsPodResourceError (pod : Pod) : bool :=
  let st := p_status pod in
  if bool_decide (Phase st = "Failed") &&
     (Contains (Reason st) "OutOf" ||
      bool_decide (Reason st = "UnexpectedAdmissionError") && Contains (Message st) "to reclaim resources")
  then true
  else existsb unschedulable (Conditions st).

(** ** Resources *)

Definition DeleteResourceOfPod (pod : Pod) : Pod :=
  with_spec (with_containers (map (with_resources no_resources) (Containers (p_spec pod))) (p_spec pod)) pod.

Definition has_requests (c : Container) : bool :=
  negb (bool_decide (default ∅ (Requests (c_resources c)) = ∅)).
Definition IsPodHasResource (pod : Pod) : bool := existsb has_requests (Containers (p_spec pod)).

Lemma DeleteResourceOfPod_no_resource pod : IsPodHasResource (DeleteResourceOfPod pod) = false.
Proof.
  unfold IsPodHasResource. apply existsb_false. cbn. apply Forall_map, Forall_true. intros c.
  unfold has_requests. cbn. by rewrite bool_decide_true.
Qed.

(** ** Mount path *)

Definition GetMountPathOfPod (pod : Pod) : res (string * string) :=
  match Containers (p_spec pod) with
  | [] => Err (Errorf ("pod " +:+ pod_name pod +:+ " has no container"))
  | c :: _ =>
      match c_command c with
      | _ :: _ :: cmd2 :: _ => ParseMntPath cmd2
      | _ => Err (Errorf "get error pod command")
      end
  end.

(** ** Patches *)

(** [RemoveFinalizer]: every occurrence of the finalizer goes, by one JSON
    patch that replaces the list with what the caller's copy leaves. *)
Definition RemoveFinalizer (pod : Pod) (finalizer : string) : M (option error) :=
  let f := filter (fun x => x <> finalizer) (Finalizers (p_meta pod)) in
  sys (PatchPod pod (JSONPatch [ReplaceList "/metadata/finalizers" f])).

Definition AddPodLabel (pod : Pod) (addLabels : smap) : M (option error) :=
  sys (PatchPod pod (MergeLabels addLabels)).

Definition AddPodAnnotation (pod : Pod) (addAnnotations : smap) : M (option error) :=
  sys (PatchPod pod (MergeAnnotations addAnnotations)).

Definition annotation_path (k : string) : string := "/metadata/annotations/" +:+ k.

Definition DelPodAnnotation (pod : Pod) (delAnnotations : list string) : M (option error) :=
  sys (PatchPod pod (JSONPatch (map (fun k => RemovePath (annotation_path k)) delAnnotations))).

Definition ReplacePodAnnotation (pod : Pod) (annotation : option smap) : M (option error) :=
  sys (PatchPod pod (JSONPatch [ReplaceMap "/metadata/annotations" annotation])).

(** ** References *)

Definition GetAllRefKeys (pod : Pod) : smap := filter (fun kv => is_ref kv = true) (pod_annotations pod).

(** ** Delayed deletion *)

(** [GetTimeAfterDelay]: the wall clock after the delay, in the local zone. *)
Definition GetTimeAfterDelay `{Globals} (delayStr : string) : M (res string) :=
  match ParseDuration delayStr with
  | None => Ret (Err (Errorf ("time: invalid duration " +:+ delayStr)))
  | Some delay => now <- sys Now ;; Ret (Ok (Format g_TZ (now + delay)))
  end.

(** [ShouldDelay]: whether the deletion of the pod has to wait, and the error
    of recording the deadline. *)
Definition ShouldDelay `{Globals} (pod : Pod) : M (bool * option error) :=
  match pod_annotations pod !! DeleteDelayTimeKey with
  | None => Ret (false, None)
  | Some delayStr =>
      match pod_annotations pod !! DeleteDelayAtKey with
      | None =>
          d <- GetTimeAfterDelay delayStr ;;
          match d with
          | Err _ => Ret (false, None)
          | Ok d =>
              r <- AddPodAnnotation pod {[ DeleteDelayAtKey := d ]} ;;
              match r with
              | Some e => Ret (true, Some e)
              | None => Ret (true, None)
              end
          end
      | Some delayAtStr =>
          match GetTime delayAtStr with
          | Err _ => Ret (false, None)
          | Ok delayAt => now <- sys Now ;; Ret (now <? delayAt, None)
          end
      end
  end.

(** ** Waiting for the mount point *)

(** [WaitUtilMountReady]: the root inode of a JuiceFS mount is 1. *)
Definition wait_mount_step (mntPath : string) (timeout : Z) (u : unit) : M (unit + option error) :=
  r <- DoWithTimeout (WithTimeout Caller (30 * Second)) timeout (sys (Stat mntPath)) ;;
  match r with
  | Err (CtxError _) => Ret (inr (Some (Errorf ("mount point " +:+ mntPath +:+ " is not ready"))))
  | Err _ => sys (Sleep (500 * Millisecond)) ;;; Ret (inl tt)
  | Ok fi =>
      match fi_stat fi with
      | Some (1, dev) => sys (MinorStore mntPath (DevMinor dev)) ;;; Ret (inr None)
      | _ => sys (Sleep (500 * Millisecond)) ;;; Ret (inl tt)
      end
  end.
Definition WaitUtilMountReady (fuel : nat) (mntPath : string) (timeout : Z) : M (option error) :=
  loop fuel (wait_mount_step mntPath timeout) tt.
