(* ===== verification/VolumeUtil.v ===== *)
(** * pkg/util: volumes of a pod, namespaces, PVC templates, finalizers

    [volume.go], [namespace.go] and [pvc.go]. *)
From S2P Require Import Prelude.
From S2P Require Import GoStrings.
From S2P Require Import K8s.
From S2P Require Import Prog.
From S2P Require Import Effects.
From S2P Require Import Config.
From S2P Require Import Util.
From S2P Require Import PodUtil.
From Stdlib Require Import Ascii.
#[local] Open Scope Z_scope.
#[local] Open Scope go_scope.

(** ** namespace.go *)

(** [GetReplicaSet], [GetStatefulSet], [GetDaemonSet] or [GetJob] of the first
    owner of a known kind. *)
Definition known_owner (o : OwnerReference) : bool :=
  bool_decide (or_kind o ∈ ["ReplicaSet"; "StatefulSet"; "DaemonSet"; "Job"]).
Definition checkOwner (owner : list OwnerReference) (namespace : string) : M (option error) :=
  match List.find known_owner owner with
  | Some o => sys (GetOwner (or_kind o) (or_name o) namespace)
  | None => Ret (Some (Errorf "no owner found"))
  end.

(** A PV of this driver that is claimed: the namespace and name of its claim. *)
Definition juice_claim `{Globals} (pv : PersistentVolume) : option (string * string) :=
  match pv_csi pv, pv_claimRef pv with
  | Some csi, Some claim => if bool_decide (Driver csi = g_DriverName) then Some claim else None
  | _, _ => None
  end.

Definition claim_of_volume (v : Volume) : option string :=
  match v_source v with PVCVolume claim _ => Some claim | _ => None end.

(** The search of [GetNamespace]: for each claim of the pod, the PVs bound to a
    claim of that name, whose namespace has the pod's owner. *)
Definition try_claim (owner : list OwnerReference) (pvcName : string) (claim : string * string) (u : unit)
  : M (unit + res string) :=
  if bool_decide (claim.1 = pvcName)
  then
    e <- checkOwner owner claim.2 ;;
    match e with
    | None => Ret (inr (Ok claim.2))
    | Some e => if IsNotFound e then Ret (inl tt) else Ret (inr (Err e))
    end
  else Ret (inl tt).

Definition GetNamespace `{Globals} (pod : Pod) : M (res string) :=
  let namespace := pod_namespace pod in
  if negb (bool_decide (namespace = "")) then Ret (Ok namespace)
  else
    match OwnerReferences (p_meta pod) with
    | None => Ret (Ok "default")
    | Some owner =>
        pvs <-? sys ListPersistentVolumes ;;
        let juicePVs := omap juice_claim pvs in
        r <- for_each (omap claim_of_volume (Volumes (p_spec pod)))
               (fun pvcName u => for_each juicePVs (try_claim owner pvcName) u) tt ;;
        Ret (match r with inl _ => Ok "" | inr r => r end)
    end.

(** ** volume.go *)

Record PVPair := { PV : PersistentVolume; PVC : PersistentVolumeClaim }.

(** Is the storage class of the claim one of this driver?  A class that does not
    exist is not, and leaves its error in the named result [err]. *)
Definition juice_class `{Globals} (pvc : PersistentVolumeClaim) : M (res (bool * option error)) :=
  match pvc_storageClassName pvc with
  | None => Ret (Ok (false, None))
  | Some c =>
      if bool_decide (c = "") then Ret (Ok (false, None))
      else
        sc <- sys (GetStorageClass c) ;;
        match sc with
        | Ok sc => Ret (Ok (bool_decide (sc_provisioner sc = g_DriverName), None))
        | Err e => if IsNotFound e then Ret (Ok (false, Some e)) else Ret (Err e)
        end
  end.

(** The named results of [getVol]: the pairs found so far and [err], which a
    claim without volume may leave set. *)
Definition get_vol_step `{Globals} (namespace claim : string) (st : list PVPair * option error)
  : M (list PVPair * option error + (list PVPair * option error)) :=
  let got := st.1 in
  r <- sys (GetPersistentVolumeClaim claim namespace) ;;
  match r with
  | Err e => Ret (inr (got, Some e))
  | Ok pvc =>
      u <- juice_class pvc ;;
      match u with
      | Err e => Ret (inr (got, Some e))
      | Ok (used, err) =>
          if bool_decide (pvc_volumeName pvc = "")
          then
            if used : bool
            then Ret (inr (got, Some (Errorf ("pvc " +:+ Name (pvc_meta pvc) +:+ " is not bound"))))
            else Ret (inl (got, err))
          else
            p <- sys (GetPersistentVolume (pvc_volumeName pvc)) ;;
            match p with
            | Err e => Ret (inr (got, Some e))
            | Ok pv =>
                match pv_csi pv with
                | Some csi =>
                    if bool_decide (Driver csi = g_DriverName)
                    then Ret (inl (got ++ [{| PV := pv; PVC := pvc |}], None)) else Ret (inl (got, None))
                | None => Ret (inl (got, None))
                end
            end
      end
  end.

Definition getVol `{Globals} (pod : Pod) (namespace : string) : M (list PVPair * option error) :=
  r <- for_each (omap claim_of_volume (Volumes (p_spec pod))) (get_vol_step namespace) ([], None) ;;
  Ret (match r with inl st => st | inr st => st end).

(** [GetVolumes]: whether the pod uses volumes of this driver, the pairs, the
    error, and the pod with its namespace set. *)
Definition GetVolumes `{Globals} (pod : Pod) : M (Pod * (bool * list PVPair * option error)) :=
  n <- GetNamespace pod ;;
  match n with
  | Err e => Ret (pod, (false, [], Some e))
  | Ok namespace =>
      r <- getVol pod namespace ;;
      let m := p_meta pod in
      let pod := with_meta {| Name := Name m; Namespace := namespace; UID := UID m;
                              ResourceVersion := ResourceVersion m; Labels := Labels m;
                              Annotations := Annotations m; Finalizers := Finalizers m;
                              CreationTimestamp := CreationTimestamp m; DeletionTimestamp := DeletionTimestamp m;
                              OwnerReferences := OwnerReferences m |} pod in
      Ret (pod, (negb (bool_decide (r.1 = [])), r.1, r.2))
  end.

(** [VolumeLocks]: a set of names; [TryAcquire] and [Release] are atomic (the
    structure's own mutex). *)
Abbreviation VolumeLocks := (gset string).
Definition TryAcquire (volumeID : string) (vl : VolumeLocks) : bool * VolumeLocks :=
  if bool_decide (volumeID ∈ vl) then (false, vl) else (true, {[ volumeID ]} ∪ vl).
Definition Release (volumeID : string) (vl : VolumeLocks) : VolumeLocks := vl ∖ {[ volumeID ]}.

(** ** pvc.go: templates *)

Record objectMetadata := { data : smap; labels : smap; annotations : smap }.
Record PVCMeta := { pvc : objectMetadata; node : objectMetadata }.

Definition NewObjectMeta (claim : PersistentVolumeClaim) (n : option Node) : PVCMeta :=
  let m := pvc_meta claim in
  {| pvc := {| data := <[ "name" := Name m ]> {[ "namespace" := Namespace m ]};
               labels := nil_map (Labels m); annotations := nil_map (Annotations m) |};
     node := match n with
             | None => {| data := ∅; labels := ∅; annotations := ∅ |}
             | Some n => {| data := <[ "name" := Name (n_meta n) ]> {[ "podCIDR" := n_podCIDR n ]};
                            labels := nil_map (Labels (n_meta n));
                            annotations := nil_map (Annotations (n_meta n)) |}
             end |}.

(** A match of the pattern
    [\${\.(PVC|pvc|node)\.((labels|annotations)\.(.*?)|.*?)}]: the whole text,
    group 1, group 2, group 3 (empty when it does not take part) and group 4. *)
Record template := { t_text : string; t_object : string; t_field : string; t_kind : string; t_key : string }.

(** The text up to the first closing brace on the same line. *)
Fixpoint until_brace (s : string) : option string :=
  match s with
  | EmptyString => None
  | String c s' =>
      if bool_decide (c = "}"%char) then Some ""
      else if bool_decide (c = "010"%char) then None
      else (String c) <$> until_brace s'
  end.

Definition template_at (s : string) : option template :=
  let try_object obj :=
    let prefix := "${." +:+ obj +:+ "." in
    if HasPrefix s prefix
    then
      field ← until_brace (TrimPrefix s prefix);
      let '(kind, key) :=
        if HasPrefix field "labels." then ("labels", TrimPrefix field "labels.")
        else if HasPrefix field "annotations." then ("annotations", TrimPrefix field "annotations.")
        else ("", "") in
      Some {| t_text := prefix +:+ field +:+ "}"; t_object := obj; t_field := field;
              t_kind := kind; t_key := key |}
    else None in
  match try_object "PVC" with
  | Some t => Some t
  | None => match try_object "pvc" with Some t => Some t | None => try_object "node" end
  end.

(** [FindAllStringSubmatch]: leftmost matches without overlap; [skip] counts
    the characters still inside the last match. *)
Fixpoint find_templates (skip : nat) (s : string) : list template :=
  match s with
  | EmptyString => []
  | String _ s' =>
      match skip with
      | S k => find_templates k s'
      | O => match template_at s with
             | Some t => t :: find_templates (String.length (t_text t) - 1) s'
             | None => find_templates 0 s'
             end
      end
  end.

Definition object_stringParser (meta : objectMetadata) (str : string) (t : template) : string :=
  ReplaceAll str (t_text t)
    (if bool_decide (t_kind t = "labels") then sget (labels meta) (t_key t)
     else if bool_decide (t_kind t = "annotations") then sget (annotations meta) (t_key t)
     else sget (data meta) (t_field t)).

Definition StringParser (meta : PVCMeta) (str : string) : string :=
  foldl (fun str t => object_stringParser (if bool_decide (t_object t = "node") then node meta else pvc meta) str t)
    str (find_templates 0 str).

(** ** [os.Expand] and [ResolveSecret] *)

Definition is_special_var (c : ascii) : bool := bool_decide (c ∈ String.list_ascii_of_string "*#$@!?-") || is_digit c.
Definition is_alphanum (c : ascii) : bool := is_word c.

Fixpoint span_alphanum (s : string) : string * string :=
  match s with
  | String c s' => if is_alphanum c then let '(a, b) := span_alphanum s' in (String c a, b) else ("", s)
  | EmptyString => ("", "")
  end.

(** The text before the first closing brace, [None] without one. *)
Definition brace_name (s : string) : option string :=
  match Index s "}" with Some n => Some (str_take n s) | None => None end.

(** [getShellName]: the name after a dollar sign and the number of characters
    it takes; the name is empty for bad syntax. *)
Definition getShellName (s : string) : string * nat :=
  match s with
  | EmptyString => ("", O)
  | String "{" s' =>
      match s' with
      | String c (String "}" _) =>
          if is_special_var c then (String c "", 3%nat)
          else match brace_name s' with
               | Some n => (n, (String.length n + 2)%nat)
               | None => ("", 1%nat)
               end
      | _ =>
          match brace_name s' with
          | Some "" => ("", 2%nat)
          | Some n => (n, (String.length n + 2)%nat)
          | None => ("", 1%nat)
          end
      end
  | String c _ =>
      if is_special_var c then (String c "", 1%nat)
      else let n := fst (span_alphanum s) in (n, String.length n)
  end.

(** [os.Expand]: an invalid [${] is eaten; a dollar sign that begins no name
    stays, except at the end of the text, where it has no name either. *)
Fixpoint expand (mapping : string -> string) (skip : nat) (s : string) : string :=
  match s with
  | EmptyString => ""
  | String c s' =>
      match skip with
      | S k => expand mapping k s'
      | O =>
          if bool_decide (c = "$"%char) && negb (bool_decide (s' = ""))
          then
            let '(name, w) := getShellName s' in
            if bool_decide (name = "")
            then if Nat.ltb 0 w then expand mapping w s' else String c (expand mapping 0 s')
            else mapping name +:+ expand mapping w s'
          else String c (expand mapping 0 s')
      end
  end.

(** The variables of secret names; an annotation is found under its quoted
    key. *)
Definition secret_var (meta : PVCMeta) (pvName k : string) : string :=
  if bool_decide (k = "pvc.name") then sget (data (pvc meta)) "name"
  else if bool_decide (k = "pvc.namespace") then sget (data (pvc meta)) "namespace"
  else if bool_decide (k = "pv.name") then pvName
  else if HasPrefix k "pvc.annotations['" && HasSuffix (TrimPrefix k "pvc.annotations['") "']"
       then sget (annotations (pvc meta)) (TrimSuffix (TrimPrefix k "pvc.annotations['") "']")
       else "".

Definition ResolveSecret (meta : PVCMeta) (str pvName : string) : string :=
  expand (secret_var meta pvName) 0 str.

(** ** pvc.go: who else uses a sub path or a secret *)

(** Reading an attribute of a PV: a PV that is not a CSI volume panics. *)
Definition pv_attribute (pv : PersistentVolume) (key : string) : option string :=
  (fun csi => sget (VolumeAttributes csi) key) <$> pv_csi pv.

(** Another live PV of the storage class. *)
Definition same_class (volume pv : PersistentVolume) : bool :=
  negb (bool_decide (Name (pv_meta pv) = Name (pv_meta volume)) ||
        bool_decide (is_Some (DeletionTimestamp (pv_meta pv))) ||
        negb (bool_decide (pv_storageClassName pv = pv_storageClassName volume))).

(** The loop over the other PVs: [true] when none of them satisfies [shared];
    [None] for the run-time panic on a PV without a CSI source. *)
Fixpoint none_shares (shared : CSIPersistentVolumeSource -> bool) (volume : PersistentVolume)
    (pvs : list PersistentVolume) : option bool :=
  match pvs with
  | [] => Some true
  | pv :: pvs' =>
      if same_class volume pv
      then match pv_csi pv with
           | None => None
           | Some csi => if shared csi then Some false else none_shares shared volume pvs'
           end
      else none_shares shared volume pvs'
  end.

Definition or_panic (o : option bool) : M (res bool) :=
  match o with Some b => Ret (Ok b) | None => panic "nil pointer dereference" end.

Definition CheckForSubPath (volume : PersistentVolume) (pathPattern : string) : M (res bool) :=
  if bool_decide (pathPattern = "") then Ret (Ok true)
  else
    match pv_attribute volume "subPath" with
    | None => panic "nil pointer dereference"
    | Some nowSubPath =>
        if bool_decide (pv_storageClassName volume = "") then Ret (Ok false)
        else
          pvs <-? sys ListPersistentVolumes ;;
          or_panic (none_shares (fun csi => bool_decide (sget (VolumeAttributes csi) "subPath" = nowSubPath))
                      volume pvs)
    end.

Definition CheckForSecretFinalizer (volume : PersistentVolume) : M (res bool) :=
  match pv_csi volume with
  | None => panic "nil pointer dereference"
  | Some csi =>
      let secretNamespace := sget (VolumeAttributes csi) ProvisionerSecretNamespace in
      let secretName := sget (VolumeAttributes csi) ProvisionerSecretName in
      if bool_decide (pv_storageClassName volume = "") || bool_decide (secretNamespace = "") ||
         bool_decide (secretName = "")
      then Ret (Ok false)
      else
        pvs <-? sys ListPersistentVolumes ;;
        or_panic (none_shares (fun csi' =>
                    bool_decide (secretNamespace = sget (VolumeAttributes csi') ProvisionerSecretNamespace) &&
                    bool_decide (secretName = sget (VolumeAttributes csi') ProvisionerSecretName)) volume pvs)
  end.

(** ** pvc.go: finalizers of secrets

    [ContainsFinalizer], [AddFinalizer] and [RemoveFinalizer] of
    controller-runtime act on the list of the metadata. *)

Definition secret_with_finalizers (f : list string) (s : Secret) : Secret :=
  {| s_meta := with_finalizers f (s_meta s); Data := Data s; StringData := StringData s |}.

Definition patchSecretFinalizer (secret : Secret) : M (option error) :=
  sys (PatchSecret secret (JSONPatch [ReplaceList "/metadata/finalizers" (Finalizers (s_meta secret))])).

Definition AddSecretFinalizer (secret : Secret) (finalizer : string) : M (option error) :=
  if bool_decide (finalizer ∈ Finalizers (s_meta secret)) then Ret None
  else patchSecretFinalizer (secret_with_finalizers (Finalizers (s_meta secret) ++ [finalizer]) secret).

Definition RemoveSecretFinalizer (secret : Secret) (finalizer : string) : M (option error) :=
  if bool_decide (finalizer ∈ Finalizers (s_meta secret))
  then patchSecretFinalizer (secret_with_finalizers (filter (fun f => f <> finalizer) (Finalizers (s_meta secret))) secret)
  else Ret None.

Example StringParser_1 :
  StringParser {| pvc := {| data := {[ "name" := "claim" ]}; labels := {[ "app" := "db" ]}; annotations := ∅ |};
                  node := {| data := ∅; labels := ∅; annotations := ∅ |} |}
    "${.PVC.name}-${.pvc.labels.app}-${.node.name}-${x}" = "claim-db--${x}".
Proof. reflexivity. Qed.
Example ResolveSecret_1 :
  ResolveSecret {| pvc := {| data := {[ "name" := "claim" ]}; labels := ∅; annotations := {[ "team" := "red" ]} |};
                   node := {| data := ∅; labels := ∅; annotations := ∅ |} |}
    "${pvc.name}-${pvc.annotations['team']}-$pv.name-${" "pv1" = "claim-red-.name-".
Proof. reflexivity. Qed.
