(* ===== verification/Setting.v ===== *)
(** * pkg/config/setting.go and pkg/util/security/escape.go

    Shell escaping, format options, and the resources of mount pods.
    [resource.ParseQuantity] belongs to apimachinery and is a parameter. *)
From S2P Require Import Prelude.
From S2P Require Import GoStrings.
From S2P Require Import K8s.
From S2P Require Import GoTime.
From S2P Require Import Prog.
From S2P Require Import Effects.
From S2P Require Import Config.
From Stdlib Require Import Ascii.
#[local] Open Scope Z_scope.

(** ** Escaping (escape.go) *)

Definition bash_special : list ascii :=
  ["$"; "`"; "&"; ";"; ">"; "|"; "("; ")"]%char.

Fixpoint containsOne (target : string) (chars : list ascii) : bool :=
  match target with
  | EmptyString => false
  | String c s => bool_decide (c ∈ chars) || containsOne s chars
  end.

Definition EscapeBashStr (s : string) : string :=
  if negb (containsOne s bash_special) then s
  else
    let s := ReplaceAll s "\" "\\" in
    let s := ReplaceAll s "'" "\'" in
    "$'" +:+ s +:+ "'".

(** *** The shell's reading of an ANSI-C quoted word

    [$'...'] with the escapes [\\] and [\'] (the only ones [EscapeBashStr]
    produces); the word ends at the first unescaped quote, and nothing may
    follow it. *)
Fixpoint ansi_c_body (s : string) : option string :=
  match s with
  | EmptyString => None
  | String "'" EmptyString => Some EmptyString
  | String "'" _ => None
  | String "\" (String c s') =>
      if bool_decide (c = "\"%char \/ c = "'"%char) then String c <$> ansi_c_body s' else None
  | String "\" EmptyString => None
  | String c s' => String c <$> ansi_c_body s'
  end.
Definition ansi_c_unquote (s : string) : option string :=
  match s with
  | String "$" (String "'" s') => ansi_c_body s'
  | _ => None
  end.

(** The body [EscapeBashStr] writes, one character at a time. *)
Fixpoint escape_chars (s : string) : string :=
  match s with
  | EmptyString => EmptyString
  | String c s' =>
      if bool_decide (c = "\"%char \/ c = "'"%char)
      then String "\" (String c (escape_chars s')) else String c (escape_chars s')
  end.

Lemma escape_chars_spec s :
  ReplaceAll (ReplaceAll s "\" "\\") "'" "\'" = escape_chars s.
Proof.
  induction s as [|c s IH]; [done|]. cbn [escape_chars]. rewrite (ReplaceAll_cons c).
  destruct (decide (c = "\"%char)) as [->|Hb].
  - rewrite !bool_decide_true by auto. cbn [String.append].
    rewrite !ReplaceAll_cons, !bool_decide_false by done. by rewrite IH.
  - rewrite bool_decide_false by done. rewrite ReplaceAll_cons, IH.
    destruct (decide (c = "'"%char)) as [->|Hq].
    + by rewrite !bool_decide_true by auto.
    + by rewrite !bool_decide_false by naive_solver.
Qed.

Lemma ansi_c_body_plain c s :
  c <> "\"%char -> c <> "'"%char -> ansi_c_body (String c s) = String c <$> ansi_c_body s.
Proof.
  intros H1 H2. destruct c as [[] [] [] [] [] [] [] []]; try done.
Qed.

Lemma ansi_c_body_escape s : ansi_c_body (escape_chars s +:+ "'") = Some s.
Proof.
  induction s as [|c s IH]; [done|]. cbn [escape_chars].
  destruct (decide (c = "\"%char \/ c = "'"%char)) as [Hc|Hc].
  - rewrite bool_decide_true by done. cbn [String.append ansi_c_body].
    rewrite bool_decide_true by done. by rewrite IH.
  - rewrite bool_decide_false by done. cbn [String.append].
    rewrite ansi_c_body_plain by tauto. by rewrite IH.
Qed.

(** ** Format options *)

(** [ParseFormatOptions]: key/value pairs of a comma-separated list; an empty
    value after [=] is an error, an empty key is ignored. *)
Definition parse_format_option (opt : string) : res (option (string * string)) :=
  match SplitN2 (TrimSpace opt) "=" with
  | [k; v] =>
      if bool_decide (v = "") then Err (Errorf "invalid format options")
      else if bool_decide (TrimSpace k = "") then Ok None
      else Ok (Some (TrimSpace k, TrimSpace v))
  | k :: _ => if bool_decide (TrimSpace k = "") then Ok None else Ok (Some (TrimSpace k, ""))
  | [] => Ok None
  end.

Fixpoint parse_format_options (options : list string) : res (list (string * string)) :=
  match options with
  | [] => Ok []
  | o :: options' =>
      match parse_format_option o with
      | Err e => Err e
      | Ok p => match parse_format_options options' with
                | Err e => Err e
                | Ok l => Ok (match p with Some kv => kv :: l | None => l end)
                end
      end
  end.
Definition ParseFormatOptions (formatOptions : string) : res (list (string * string)) :=
  parse_format_options (Split formatOptions ",").

Definition represent_option (pair : string * string) : string :=
  let key := EscapeBashStr pair.1 in
  let option := if bool_decide (pair.2 = "") then key
                else key +:+ "=" +:+ EscapeBashStr pair.2 in
  "--" +:+ option.
Definition RepresentFormatOptions (parsedOptions : list (string * string)) : list string :=
  map represent_option parsedOptions.

Definition strip_option (strippedKeys : list string) (pair : string * string) : string :=
  let key := EscapeBashStr pair.1 in
  let option := if bool_decide (pair.2 = "") then key
                else if bool_decide (pair.1 ∈ strippedKeys)
                     then key +:+ "=${" +:+ pair.1 +:+ "}"
                     else key +:+ "=" +:+ EscapeBashStr pair.2 in
  "--" +:+ option.
Definition StripFormatOptions (parsedOptions : list (string * string)) (strippedKeys : list string)
  : list string := map (strip_option strippedKeys) parsedOptions.

(** ** Resources of mount pods *)

Class QuantityParser := {
  ParseQuantity : string -> option Quantity;
  QuantityString : Quantity -> string;            (** [q.String()] *)
}.

Definition Gi : Z := 1024 * 1024 * 1024 * nano.
Definition getDefaultResource : ResourceRequirements :=
  {| Limits := Some (<[ "cpu" := 2 * nano ]> {[ "memory" := 5 * Gi ]});
     Requests := Some (<[ "cpu" := 1 * nano ]> {[ "memory" := 1 * Gi ]}) |}.

Section resources.
Context `{QuantityParser}.

(** One of the four blocks of [ParsePodResources]: a non-empty setting
    replaces the default, and removes the entry when it is not positive. *)
Definition set_resource (l : ResourceList) (name value : string) : res ResourceList :=
  if bool_decide (value = "") then Ok l
  else match ParseQuantity value with
       | None => Err (Errorf ("quantities must match the regular expression: " +:+ value))
       | Some q => if q <=? 0 then Ok (delete name l) else Ok (<[ name := q ]> l)
       end.

Definition ParsePodResources (cpuLimit memoryLimit cpuRequest memoryRequest : string)
  : res ResourceRequirements :=
  let podLimit := default ∅ (Limits getDefaultResource) in
  let podRequest := default ∅ (Requests getDefaultResource) in
  match set_resource podLimit "cpu" cpuLimit with
  | Err e => Err e
  | Ok podLimit =>
  match set_resource podLimit "memory" memoryLimit with
  | Err e => Err e
  | Ok podLimit =>
  match set_resource podRequest "cpu" cpuRequest with
  | Err e => Err e
  | Ok podRequest =>
  match set_resource podRequest "memory" memoryRequest with
  | Err e => Err e
  | Ok podRequest => Ok {| Limits := Some podLimit; Requests := Some podRequest |}
  end end end end.
End resources.

Lemma set_resource_positive `{QuantityParser} l name value l' :
  map_Forall (fun _ q => 0 < q) l -> set_resource l name value = Ok l' ->
  map_Forall (fun _ q => 0 < q) l'.
Proof.
  intros Hl. unfold set_resource. case_bool_decide; [by intros [= <-]|].
  destruct (ParseQuantity value) as [q|]; [|done].
  destruct (Z.leb_spec q 0); intros [= <-].
  - by apply map_Forall_delete.
  - by apply map_Forall_insert_2.
Qed.
