(* ===== verification/JfsSetting.v ===== *)
(** * pkg/config/setting.go: the settings of one volume

    [JfsSetting] is what the driver knows about a volume: the secret's
    credentials, the volume context, the mount options, and the attributes of
    the mount pod ([PodAttr]).  YAML, the JSON form of the Kubernetes types and
    label selectors belong to other libraries; they are the class
    [SettingCodec]. *)
From S2P Require Import Prelude.
From S2P Require Import GoStrings.
From S2P Require Import Hash.
From S2P Require Import K8s.
From S2P Require Import GoTime.
From S2P Require Import Prog.
From S2P Require Import Effects.
From S2P Require Import Config.
From S2P Require Import Util.
From S2P Require Import Setting.
From Stdlib Require Import Ascii.
#[local] Open Scope Z_scope.
#[local] Open Scope go_scope.

(** ** The data *)

Record CachePVC := { PVCName : string; pvc_Path : string }.
Record CacheEmptyDir := { Medium : string; SizeLimit : Quantity; ed_Path : string }.
Record CacheInlineVolume := { iv_CSI : raw; iv_Path : string }.
Record AppInfo := { app_Name : string; app_Namespace : string }.

Record PodAttr := {
  a_Namespace : string;
  a_MountPointPath : string;
  a_JFSConfigPath : string;
  a_JFSMountPriorityName : string;
  a_ServiceAccountName : string;
  a_Resources : ResourceRequirements;
  a_Labels : smap;
  a_Annotations : smap;
  a_LivenessProbe : option raw;
  a_ReadinessProbe : option raw;
  a_StartupProbe : option raw;
  a_Lifecycle : option Lifecycle;
  a_Image : string;
  a_HostNetwork : bool;
  a_HostPID : bool;
  a_PreemptionPolicy : option string;
  a_Tolerations : raw;
  a_inherited : raw;       (** host aliases, HostIPC, DNS, image pull secrets *)
}.

Record JfsSetting := {
  IsCe : bool;
  UsePod : bool;
  UUID : string;
  js_Name : string;
  MetaUrl : string;
  Source : string;
  Storage : string;
  FormatOptions : string;
  CachePVCs : list CachePVC;
  js_CacheEmptyDir : option CacheEmptyDir;
  CacheInlineVolumes : list CacheInlineVolume;
  CacheDirs : list string;
  ClientConfPath : string;
  SecretKey : string;
  SecretKey2 : string;
  Token : string;
  Passphrase : string;
  Envs : smap;
  EncryptRsaKey : string;
  InitConfig : string;
  Configs : smap;
  DeletedDelay : string;
  js_CleanCache : bool;
  js_HostPath : list string;
  VolumeId : string;
  js_UniqueId : string;
  MountPath : string;
  TargetPath : string;
  Options : list string;
  FormatCmd : string;
  SubPath : string;
  SecretName : string;
  Attr : option PodAttr;
  js_PV : option PersistentVolume;
  js_PVC : option PersistentVolumeClaim;
}.

(** The zero value. *)
Definition empty_setting : JfsSetting :=
  {| IsCe := false; UsePod := false; UUID := ""; js_Name := ""; MetaUrl := ""; Source := "";
     Storage := ""; FormatOptions := ""; CachePVCs := []; js_CacheEmptyDir := None;
     CacheInlineVolumes := []; CacheDirs := []; ClientConfPath := ""; SecretKey := "";
     SecretKey2 := ""; Token := ""; Passphrase := ""; Envs := ∅; EncryptRsaKey := "";
     InitConfig := ""; Configs := ∅; DeletedDelay := ""; js_CleanCache := false; js_HostPath := [];
     VolumeId := ""; js_UniqueId := ""; MountPath := ""; TargetPath := ""; Options := [];
     FormatCmd := ""; SubPath := ""; SecretName := ""; Attr := None; js_PV := None; js_PVC := None |}.

Definition with_Attr (a : PodAttr) (s : JfsSetting) : JfsSetting :=
  {| IsCe := IsCe s; UsePod := UsePod s; UUID := UUID s; js_Name := js_Name s;
     MetaUrl := MetaUrl s; Source := Source s; Storage := Storage s;
     FormatOptions := FormatOptions s; CachePVCs := CachePVCs s;
     js_CacheEmptyDir := js_CacheEmptyDir s; CacheInlineVolumes := CacheInlineVolumes s;
     CacheDirs := CacheDirs s; ClientConfPath := ClientConfPath s; SecretKey := SecretKey s;
     SecretKey2 := SecretKey2 s; Token := Token s; Passphrase := Passphrase s; Envs := Envs s;
     EncryptRsaKey := EncryptRsaKey s; InitConfig := InitConfig s; Configs := Configs s;
     DeletedDelay := DeletedDelay s; js_CleanCache := js_CleanCache s;
     js_HostPath := js_HostPath s; VolumeId := VolumeId s; js_UniqueId := js_UniqueId s;
     MountPath := MountPath s; TargetPath := TargetPath s; Options := Options s;
     FormatCmd := FormatCmd s; SubPath := SubPath s; SecretName := SecretName s; Attr := Some a;
     js_PV := js_PV s; js_PVC := js_PVC s |}.
Definition with_Options (o : list string) (s : JfsSetting) : JfsSetting :=
  {| IsCe := IsCe s; UsePod := UsePod s; UUID := UUID s; js_Name := js_Name s;
     MetaUrl := MetaUrl s; Source := Source s; Storage := Storage s;
     FormatOptions := FormatOptions s; CachePVCs := CachePVCs s;
     js_CacheEmptyDir := js_CacheEmptyDir s; CacheInlineVolumes := CacheInlineVolumes s;
     CacheDirs := CacheDirs s; ClientConfPath := ClientConfPath s; SecretKey := SecretKey s;
     SecretKey2 := SecretKey2 s; Token := Token s; Passphrase := Passphrase s; Envs := Envs s;
     EncryptRsaKey := EncryptRsaKey s; InitConfig := InitConfig s; Configs := Configs s;
     DeletedDelay := DeletedDelay s; js_CleanCache := js_CleanCache s;
     js_HostPath := js_HostPath s; VolumeId := VolumeId s; js_UniqueId := js_UniqueId s;
     MountPath := MountPath s; TargetPath := TargetPath s; Options := o;
     FormatCmd := FormatCmd s; SubPath := SubPath s; SecretName := SecretName s; Attr := Attr s;
     js_PV := js_PV s; js_PVC := js_PVC s |}.
Definition with_SecretName (n : string) (s : JfsSetting) : JfsSetting :=
  {| IsCe := IsCe s; UsePod := UsePod s; UUID := UUID s; js_Name := js_Name s;
     MetaUrl := MetaUrl s; Source := Source s; Storage := Storage s;
     FormatOptions := FormatOptions s; CachePVCs := CachePVCs s;
     js_CacheEmptyDir := js_CacheEmptyDir s; CacheInlineVolumes := CacheInlineVolumes s;
     CacheDirs := CacheDirs s; ClientConfPath := ClientConfPath s; SecretKey := SecretKey s;
     SecretKey2 := SecretKey2 s; Token := Token s; Passphrase := Passphrase s; Envs := Envs s;
     EncryptRsaKey := EncryptRsaKey s; InitConfig := InitConfig s; Configs := Configs s;
     DeletedDelay := DeletedDelay s; js_CleanCache := js_CleanCache s;
     js_HostPath := js_HostPath s; VolumeId := VolumeId s; js_UniqueId := js_UniqueId s;
     MountPath := MountPath s; TargetPath := TargetPath s; Options := Options s;
     FormatCmd := FormatCmd s; SubPath := SubPath s; SecretName := n; Attr := Attr s;
     js_PV := js_PV s; js_PVC := js_PVC s |}.
Definition with_MountPath (p : string) (s : JfsSetting) : JfsSetting :=
  {| IsCe := IsCe s; UsePod := UsePod s; UUID := UUID s; js_Name := js_Name s;
     MetaUrl := MetaUrl s; Source := Source s; Storage := Storage s;
     FormatOptions := FormatOptions s; CachePVCs := CachePVCs s;
     js_CacheEmptyDir := js_CacheEmptyDir s; CacheInlineVolumes := CacheInlineVolumes s;
     CacheDirs := CacheDirs s; ClientConfPath := ClientConfPath s; SecretKey := SecretKey s;
     SecretKey2 := SecretKey2 s; Token := Token s; Passphrase := Passphrase s; Envs := Envs s;
     EncryptRsaKey := EncryptRsaKey s; InitConfig := InitConfig s; Configs := Configs s;
     DeletedDelay := DeletedDelay s; js_CleanCache := js_CleanCache s;
     js_HostPath := js_HostPath s; VolumeId := VolumeId s; js_UniqueId := js_UniqueId s;
     MountPath := p; TargetPath := TargetPath s; Options := Options s; FormatCmd := FormatCmd s;
     SubPath := SubPath s; SecretName := SecretName s; Attr := Attr s; js_PV := js_PV s;
     js_PVC := js_PVC s |}.
(** The identifiers of the volume. *)
Definition with_identity (volumeId uniqueId uuid : string) (s : JfsSetting) : JfsSetting :=
  {| IsCe := IsCe s; UsePod := UsePod s; UUID := uuid; js_Name := js_Name s;
     MetaUrl := MetaUrl s; Source := Source s; Storage := Storage s;
     FormatOptions := FormatOptions s; CachePVCs := CachePVCs s;
     js_CacheEmptyDir := js_CacheEmptyDir s; CacheInlineVolumes := CacheInlineVolumes s;
     CacheDirs := CacheDirs s; ClientConfPath := ClientConfPath s; SecretKey := SecretKey s;
     SecretKey2 := SecretKey2 s; Token := Token s; Passphrase := Passphrase s; Envs := Envs s;
     EncryptRsaKey := EncryptRsaKey s; InitConfig := InitConfig s; Configs := Configs s;
     DeletedDelay := DeletedDelay s; js_CleanCache := js_CleanCache s;
     js_HostPath := js_HostPath s; VolumeId := volumeId; js_UniqueId := uniqueId;
     MountPath := MountPath s; TargetPath := TargetPath s; Options := Options s;
     FormatCmd := FormatCmd s; SubPath := SubPath s; SecretName := SecretName s; Attr := Attr s;
     js_PV := js_PV s; js_PVC := js_PVC s |}.
(** The target and the sub path. *)
Definition with_paths (target sub : string) (s : JfsSetting) : JfsSetting :=
  {| IsCe := IsCe s; UsePod := UsePod s; UUID := UUID s; js_Name := js_Name s;
     MetaUrl := MetaUrl s; Source := Source s; Storage := Storage s;
     FormatOptions := FormatOptions s; CachePVCs := CachePVCs s;
     js_CacheEmptyDir := js_CacheEmptyDir s; CacheInlineVolumes := CacheInlineVolumes s;
     CacheDirs := CacheDirs s; ClientConfPath := ClientConfPath s; SecretKey := SecretKey s;
     SecretKey2 := SecretKey2 s; Token := Token s; Passphrase := Passphrase s; Envs := Envs s;
     EncryptRsaKey := EncryptRsaKey s; InitConfig := InitConfig s; Configs := Configs s;
     DeletedDelay := DeletedDelay s; js_CleanCache := js_CleanCache s;
     js_HostPath := js_HostPath s; VolumeId := VolumeId s; js_UniqueId := js_UniqueId s;
     MountPath := MountPath s; TargetPath := target; Options := Options s;
     FormatCmd := FormatCmd s; SubPath := sub; SecretName := SecretName s; Attr := Attr s;
     js_PV := js_PV s; js_PVC := js_PVC s |}.
Definition with_FormatCmd (c : string) (s : JfsSetting) : JfsSetting :=
  {| IsCe := IsCe s; UsePod := UsePod s; UUID := UUID s; js_Name := js_Name s;
     MetaUrl := MetaUrl s; Source := Source s; Storage := Storage s;
     FormatOptions := FormatOptions s; CachePVCs := CachePVCs s;
     js_CacheEmptyDir := js_CacheEmptyDir s; CacheInlineVolumes := CacheInlineVolumes s;
     CacheDirs := CacheDirs s; ClientConfPath := ClientConfPath s; SecretKey := SecretKey s;
     SecretKey2 := SecretKey2 s; Token := Token s; Passphrase := Passphrase s; Envs := Envs s;
     EncryptRsaKey := EncryptRsaKey s; InitConfig := InitConfig s; Configs := Configs s;
     DeletedDelay := DeletedDelay s; js_CleanCache := js_CleanCache s;
     js_HostPath := js_HostPath s; VolumeId := VolumeId s; js_UniqueId := js_UniqueId s;
     MountPath := MountPath s; TargetPath := TargetPath s; Options := Options s; FormatCmd := c;
     SubPath := SubPath s; SecretName := SecretName s; Attr := Attr s; js_PV := js_PV s;
     js_PVC := js_PVC s |}.
Definition with_InitConfig (c : string) (s : JfsSetting) : JfsSetting :=
  {| IsCe := IsCe s; UsePod := UsePod s; UUID := UUID s; js_Name := js_Name s;
     MetaUrl := MetaUrl s; Source := Source s; Storage := Storage s;
     FormatOptions := FormatOptions s; CachePVCs := CachePVCs s;
     js_CacheEmptyDir := js_CacheEmptyDir s; CacheInlineVolumes := CacheInlineVolumes s;
     CacheDirs := CacheDirs s; ClientConfPath := ClientConfPath s; SecretKey := SecretKey s;
     SecretKey2 := SecretKey2 s; Token := Token s; Passphrase := Passphrase s; Envs := Envs s;
     EncryptRsaKey := EncryptRsaKey s; InitConfig := c; Configs := Configs s;
     DeletedDelay := DeletedDelay s; js_CleanCache := js_CleanCache s;
     js_HostPath := js_HostPath s; VolumeId := VolumeId s; js_UniqueId := js_UniqueId s;
     MountPath := MountPath s; TargetPath := TargetPath s; Options := Options s;
     FormatCmd := FormatCmd s; SubPath := SubPath s; SecretName := SecretName s; Attr := Attr s;
     js_PV := js_PV s; js_PVC := js_PVC s |}.
Definition with_ClientConfPath (c : string) (s : JfsSetting) : JfsSetting :=
  {| IsCe := IsCe s; UsePod := UsePod s; UUID := UUID s; js_Name := js_Name s;
     MetaUrl := MetaUrl s; Source := Source s; Storage := Storage s;
     FormatOptions := FormatOptions s; CachePVCs := CachePVCs s;
     js_CacheEmptyDir := js_CacheEmptyDir s; CacheInlineVolumes := CacheInlineVolumes s;
     CacheDirs := CacheDirs s; ClientConfPath := c; SecretKey := SecretKey s;
     SecretKey2 := SecretKey2 s; Token := Token s; Passphrase := Passphrase s; Envs := Envs s;
     EncryptRsaKey := EncryptRsaKey s; InitConfig := InitConfig s; Configs := Configs s;
     DeletedDelay := DeletedDelay s; js_CleanCache := js_CleanCache s;
     js_HostPath := js_HostPath s; VolumeId := VolumeId s; js_UniqueId := js_UniqueId s;
     MountPath := MountPath s; TargetPath := TargetPath s; Options := Options s;
     FormatCmd := FormatCmd s; SubPath := SubPath s; SecretName := SecretName s; Attr := Attr s;
     js_PV := js_PV s; js_PVC := js_PVC s |}.
Definition with_CacheDirs (d : list string) (s : JfsSetting) : JfsSetting :=
  {| IsCe := IsCe s; UsePod := UsePod s; UUID := UUID s; js_Name := js_Name s;
     MetaUrl := MetaUrl s; Source := Source s; Storage := Storage s;
     FormatOptions := FormatOptions s; CachePVCs := CachePVCs s;
     js_CacheEmptyDir := js_CacheEmptyDir s; CacheInlineVolumes := CacheInlineVolumes s;
     CacheDirs := d; ClientConfPath := ClientConfPath s; SecretKey := SecretKey s;
     SecretKey2 := SecretKey2 s; Token := Token s; Passphrase := Passphrase s; Envs := Envs s;
     EncryptRsaKey := EncryptRsaKey s; InitConfig := InitConfig s; Configs := Configs s;
     DeletedDelay := DeletedDelay s; js_CleanCache := js_CleanCache s;
     js_HostPath := js_HostPath s; VolumeId := VolumeId s; js_UniqueId := js_UniqueId s;
     MountPath := MountPath s; TargetPath := TargetPath s; Options := Options s;
     FormatCmd := FormatCmd s; SubPath := SubPath s; SecretName := SecretName s; Attr := Attr s;
     js_PV := js_PV s; js_PVC := js_PVC s |}.

(** What other libraries do: YAML or JSON text to values, the JSON of a patch,
    label selectors. *)
Class SettingCodec := {
  (** [parseYamlOrJson] of the JSON of the secret, into a setting *)
  decode_setting : smap -> JfsSetting -> res JfsSetting;
  (** [parseYamlOrJson] into an empty map *)
  decode_map : string -> res smap;
  (** [json.Unmarshal] into a list of CSI volume sources *)
  decode_inline : string -> res (list raw);
  encode_patch : MountPodPatch -> string;
  (** [json.Unmarshal] onto a patch, whatever its error *)
  decode_patch : string -> MountPodPatch -> MountPodPatch;
  (** [LabelSelectorAsSelector], [None] for its error *)
  selector_matches : raw -> option (smap -> bool);
  (** [json.Marshal] of a setting *)
  encode_setting : JfsSetting -> string;
}.

(** ** Patches *)

Section settings.
Context `{Globals} `{QuantityParser} `{SettingCodec}.

Definition deepCopy (mpp : MountPodPatch) : MountPodPatch := decode_patch (encode_patch mpp) empty_patch.

(** Does a patch of the configuration apply to the volume? *)
Definition patch_applies (setting : JfsSetting) (mp : MountPodPatch) : bool :=
  match mp_PVCSelector mp with
  | None => true
  | Some sel =>
      match js_PVC setting with
      | None => false
      | Some pvc =>
          match selector_matches sel with
          | None => false
          | Some matches => matches (nil_map (Labels (pvc_meta pvc)))
          end
      end
  end.

Definition initial_patch : MountPodPatch :=
  {| mp_PVCSelector := None; mp_CEMountImage := ""; mp_EEMountImage := ""; mp_Image := "";
     mp_Labels := Some ∅; mp_Annotations := Some ∅; mp_HostNetwork := None; mp_HostPID := None;
     mp_LivenessProbe := None; mp_ReadinessProbe := None; mp_StartupProbe := None;
     mp_Lifecycle := None; mp_Resources := None |}.

Definition with_mp_Image (image : string) (p : MountPodPatch) : MountPodPatch :=
  {| mp_PVCSelector := mp_PVCSelector p; mp_CEMountImage := mp_CEMountImage p;
     mp_EEMountImage := mp_EEMountImage p; mp_Image := image; mp_Labels := mp_Labels p;
     mp_Annotations := mp_Annotations p; mp_HostNetwork := mp_HostNetwork p;
     mp_HostPID := mp_HostPID p; mp_LivenessProbe := mp_LivenessProbe p;
     mp_ReadinessProbe := mp_ReadinessProbe p; mp_StartupProbe := mp_StartupProbe p;
     mp_Lifecycle := mp_Lifecycle p; mp_Resources := mp_Resources p |}.

(** The patches that apply, merged in the order of the configuration. *)
Definition merged_patch (setting : JfsSetting) : MountPodPatch :=
  foldl (fun p mp => if patch_applies setting mp then merge p (deepCopy mp) else p)
    initial_patch g_MountPodPatch.

(** The template variables are replaced in the JSON text of the patch. *)
Definition expand_templates (setting : JfsSetting) (strData : string) : string :=
  let strData := ReplaceAll strData "${MOUNT_POINT}" (MountPath setting) in
  let strData := ReplaceAll strData "${VOLUME_ID}" (VolumeId setting) in
  ReplaceAll strData "${SUB_PATH}" (SubPath setting).

Definition GenMountPodPatch (setting : JfsSetting) : MountPodPatch :=
  let patch := merged_patch setting in
  let patch := with_mp_Image (if IsCe setting then mp_CEMountImage patch else mp_EEMountImage patch) patch in
  decode_patch (expand_templates setting (encode_patch patch)) patch.

(** ** Attributes of the mount pod *)

Definition default_attr (setting : JfsSetting) : PodAttr :=
  let csi := p_spec g_CSIPod in
  {| a_Namespace := g_Namespace; a_MountPointPath := g_MountPointPath;
     a_JFSConfigPath := g_JFSConfigPath; a_JFSMountPriorityName := g_JFSMountPriorityName;
     a_ServiceAccountName := ServiceAccountName csi; a_Resources := getDefaultResource;
     a_Labels := ∅; a_Annotations := ∅; a_LivenessProbe := None; a_ReadinessProbe := None;
     a_StartupProbe := None; a_Lifecycle := None;
     a_Image := if IsCe setting then g_DefaultCEMountImage else g_DefaultEEMountImage;
     a_HostNetwork := HostNetwork csi; a_HostPID := HostPID csi;
     a_PreemptionPolicy := PreemptionPolicy csi; a_Tolerations := Tolerations csi;
     a_inherited := inherited csi |}.

Definition with_preemption (a : PodAttr) : PodAttr :=
  {| a_Namespace := a_Namespace a; a_MountPointPath := a_MountPointPath a;
     a_JFSConfigPath := a_JFSConfigPath a; a_JFSMountPriorityName := a_JFSMountPriorityName a;
     a_ServiceAccountName := a_ServiceAccountName a; a_Resources := a_Resources a;
     a_Labels := a_Labels a; a_Annotations := a_Annotations a; a_LivenessProbe := a_LivenessProbe a;
     a_ReadinessProbe := a_ReadinessProbe a; a_StartupProbe := a_StartupProbe a;
     a_Lifecycle := a_Lifecycle a; a_Image := a_Image a; a_HostNetwork := a_HostNetwork a;
     a_HostPID := a_HostPID a;
     a_PreemptionPolicy := if bool_decide (g_JFSMountPreemptionPolicy = "") then a_PreemptionPolicy a
                           else Some g_JFSMountPreemptionPolicy;
     a_Tolerations := a_Tolerations a; a_inherited := a_inherited a |}.

(** The YAML map of an optional key of the volume context. *)
Definition decode_ctx (volCtx : smap) (key : string) : res smap :=
  if bool_decide (sget volCtx key = "") then Ok ∅ else decode_map (sget volCtx key).

(** What the volume context overrides. *)
Definition attr_of_ctx (volCtx : smap) (a : PodAttr) : res PodAttr :=
  match ParsePodResources (sget volCtx MountPodCpuLimitKey) (sget volCtx MountPodMemLimitKey)
          (sget volCtx MountPodCpuRequestKey) (sget volCtx MountPodMemRequestKey) with
  | Err e => Err e
  | Ok resources =>
      match decode_ctx volCtx mountPodLabelKey with
      | Err e => Err e
      | Ok ctxLabel =>
          match decode_ctx volCtx mountPodAnnotationKey with
          | Err e => Err e
          | Ok ctxAnno =>
              Ok {| a_Namespace := a_Namespace a; a_MountPointPath := a_MountPointPath a;
                    a_JFSConfigPath := a_JFSConfigPath a;
                    a_JFSMountPriorityName := a_JFSMountPriorityName a;
                    a_ServiceAccountName :=
                      overwrite_str (a_ServiceAccountName a) (sget volCtx mountPodServiceAccount);
                    a_Resources := resources;
                    a_Labels := ctxLabel ∪ a_Labels a; a_Annotations := ctxAnno ∪ a_Annotations a;
                    a_LivenessProbe := a_LivenessProbe a; a_ReadinessProbe := a_ReadinessProbe a;
                    a_StartupProbe := a_StartupProbe a; a_Lifecycle := a_Lifecycle a;
                    a_Image := overwrite_str (a_Image a) (sget volCtx mountPodImageKey);
                    a_HostNetwork := a_HostNetwork a; a_HostPID := a_HostPID a;
                    a_PreemptionPolicy := a_PreemptionPolicy a; a_Tolerations := a_Tolerations a;
                    a_inherited := a_inherited a |}
          end
      end
  end.

(** What the mount pod patch overrides; the probes and the lifecycle always. *)
Definition apply_patch_attr (patch : MountPodPatch) (a : PodAttr) : PodAttr :=
  {| a_Namespace := a_Namespace a; a_MountPointPath := a_MountPointPath a;
     a_JFSConfigPath := a_JFSConfigPath a; a_JFSMountPriorityName := a_JFSMountPriorityName a;
     a_ServiceAccountName := a_ServiceAccountName a;
     a_Resources := default (a_Resources a) (mp_Resources patch);
     a_Labels := nil_map (mp_Labels patch) ∪ a_Labels a;
     a_Annotations := nil_map (mp_Annotations patch) ∪ a_Annotations a;
     a_LivenessProbe := mp_LivenessProbe patch; a_ReadinessProbe := mp_ReadinessProbe patch;
     a_StartupProbe := mp_StartupProbe patch; a_Lifecycle := mp_Lifecycle patch;
     a_Image := overwrite_str (a_Image a) (mp_Image patch);
     a_HostNetwork := default (a_HostNetwork a) (mp_HostNetwork patch);
     a_HostPID := default (a_HostPID a) (mp_HostPID patch);
     a_PreemptionPolicy := a_PreemptionPolicy a; a_Tolerations := a_Tolerations a;
     a_inherited := a_inherited a |}.

Definition GenPodAttrWithCfg (setting : JfsSetting) (volCtx : option smap) : res JfsSetting :=
  let attr := match Attr setting with Some a => a | None => default_attr setting end in
  let attr := with_preemption attr in
  match match volCtx with None => Ok attr | Some ctx => attr_of_ctx ctx attr end with
  | Err e => Err e
  | Ok attr => Ok (with_Attr (apply_patch_attr (GenMountPodPatch setting) attr) setting)
  end.
End settings.

(** ** [ParseSetting] *)

Section parse.
Context `{Globals} `{QuantityParser} `{SettingCodec}.

(** The cache PVCs of the context: the index in a path counts empty names. *)
Definition parse_cache_pvcs (v : string) : list CachePVC :=
  if bool_decide (v = "") then []
  else omap (fun ip => if bool_decide (ip.2 = "") then None
                       else Some {| PVCName := ip.2; pvc_Path := "/var/jfsCache-" +:+ pretty (ip.1 : nat) |})
         (imap pair (Split (TrimSpace v) ",")).

Definition parse_empty_dir (v : string) : res CacheEmptyDir :=
  let '(medium, sizeLimit) :=
    match Split (TrimSpace v) ":" with
    | [m] => (TrimSpace m, "")
    | [m; l] => (TrimSpace m, TrimSpace l)
    | _ => ("", "")
    end in
  if bool_decide (sizeLimit = "")
  then Ok {| Medium := medium; SizeLimit := 0; ed_Path := "/var/jfsCache-emptyDir" |}
  else match ParseQuantity sizeLimit with
       | None => Err (Errorf ("quantities must match the regular expression: " +:+ sizeLimit))
       | Some q => Ok {| Medium := medium; SizeLimit := q; ed_Path := "/var/jfsCache-emptyDir" |}
       end.

Definition parse_inline_volumes (v : string) : res (list CacheInlineVolume) :=
  match decode_inline v with
  | Err e => Err (Errorf ("parse cache inline volume error: " +:+ error_text e))
  | Ok l => Ok (imap (fun i csi => {| iv_CSI := csi;
                                      iv_Path := "/var/jfsCache-inlineVolume-" +:+ pretty (i : nat) |}) l)
  end.

(** The first option [cache-dir=v] with exactly one [=]: its index and [v]. *)
Fixpoint find_cache_dir (i : nat) (options : list string) : option (nat * string) :=
  match options with
  | [] => None
  | o :: options' =>
      if HasPrefix o "cache-dir"
      then match Split o "=" with
           | [_; v] => Some (i, v)
           | _ => find_cache_dir (S i) options'
           end
      else find_cache_dir (S i) options'
  end.

Definition remove_nth (i : nat) (l : list string) : list string := take i l ++ drop (S i) l.

(** [append(options[:i], options[i+1:]...)] moves the tail to the left in the
    array that [jfsSetting.Options] still views at its old length. *)
Definition shifted (i : nat) (l : list string) : list string :=
  remove_nth i l ++ match last l with Some x => [x] | None => [] end.

(** The cache directories of the options, the options of the setting, and the
    directories that the mount pod gets from the host. *)
Definition parse_cache_options (dirs options : list string) : list string * list string :=
  let found := find_cache_dir 0 options in
  let cacheDirs := match found with Some (_, v) => Split (TrimSpace v) ":" | None => [] end in
  let dirs := dirs ++ cacheDirs in
  let cacheDir := Join dirs ":" in
  let kept := match found with Some (i, _) => remove_nth i options | None => options end in
  let stale := match found with Some (i, _) => shifted i options | None => options end in
  let options' := if bool_decide (cacheDir = "") then stale else kept ++ ["cache-dir=" +:+ cacheDir] in
  let cacheDirs := match dirs with [] => ["/var/jfsCache"] | _ => cacheDirs end in
  (options', filter (fun d => d <> "memory") cacheDirs).

Definition parse_host_paths (v : string) : list string :=
  filter (fun p => p <> "") (map TrimSpace (Split v ",")).

Definition set_if (cond : bool) (new old : string) : string := if cond then new else old.

(** The part of [ParseSetting] that reads the volume context, after the
    caches: sub path, cache cleaning, deletion delay, host paths. *)
Definition parse_vol_ctx (volCtx : option smap) (s : JfsSetting) : res JfsSetting :=
  match volCtx with
  | None => Ok s
  | Some ctx =>
      let delay := sget ctx deleteDelay in
      if negb (bool_decide (delay = "")) && bool_decide (ParseDuration delay = None)
      then Err (Errorf ("can't parse delay time " +:+ delay))
      else
        Ok {| IsCe := IsCe s; UsePod := UsePod s; UUID := UUID s; js_Name := js_Name s;
              MetaUrl := MetaUrl s; Source := Source s; Storage := Storage s;
              FormatOptions := FormatOptions s; CachePVCs := CachePVCs s;
              js_CacheEmptyDir := js_CacheEmptyDir s; CacheInlineVolumes := CacheInlineVolumes s;
              CacheDirs := CacheDirs s; ClientConfPath := ClientConfPath s; SecretKey := SecretKey s;
              SecretKey2 := SecretKey2 s; Token := Token s; Passphrase := Passphrase s; Envs := Envs s;
              EncryptRsaKey := EncryptRsaKey s; InitConfig := InitConfig s; Configs := Configs s;
              DeletedDelay := overwrite_str (DeletedDelay s) delay;
              js_CleanCache := js_CleanCache s || bool_decide (sget ctx cleanCache = "true");
              js_HostPath := if bool_decide (sget ctx mountPodHostPath = "") then js_HostPath s
                             else parse_host_paths (sget ctx mountPodHostPath);
              VolumeId := VolumeId s; js_UniqueId := js_UniqueId s; MountPath := MountPath s;
              TargetPath := TargetPath s; Options := Options s; FormatCmd := FormatCmd s;
              SubPath := overwrite_str (SubPath s) (sget ctx "subPath"); SecretName := SecretName s;
              Attr := Attr s; js_PV := js_PV s; js_PVC := js_PVC s |}
  end.

(** [metaurl] of the secret with the default scheme. *)
Definition source_of (secrets : smap) : string :=
  match secrets !! "metaurl" with
  | Some source => if Contains source "://" then source else "redis://" +:+ source
  | None => sget secrets "name"
  end.

Definition opt_map {A} (v : string) (f : string -> res A) (d : A) : res A :=
  if bool_decide (v = "") then Ok d else f v.

(** [if _, ok := volCtx[key]; ok { ... }] with [volCtx] possibly nil. *)
Definition ctx_present {A} (volCtx : option smap) (key : string) (f : string -> res A) (d : A) : res A :=
  match volCtx with
  | None => Ok d
  | Some ctx => match ctx !! key with None => Ok d | Some v => f v end
  end.

Definition ParseSetting (secrets : option smap) (volCtx : option smap) (options : list string)
    (usePod : bool) (pv : option PersistentVolume) (pvc : option PersistentVolumeClaim)
  : res JfsSetting :=
  let s0 := with_Options options empty_setting in
  match secrets with
  | None => Ok s0
  | Some secrets =>
  match decode_setting secrets s0 with
  | Err e => Err e
  | Ok s0 =>
  if bool_decide (sget secrets "name" = "") then Err (StatusError InvalidArgument "Empty name") else
  let pvcs := match volCtx with Some ctx => parse_cache_pvcs (sget ctx cachePVC) | None => [] end in
  match ctx_present volCtx cacheEmptyDir (fun v => res_map Some (parse_empty_dir v)) (js_CacheEmptyDir s0) with
  | Err e => Err e
  | Ok emptyDir =>
  match ctx_present volCtx cacheInlineVolume parse_inline_volumes (CacheInlineVolumes s0) with
  | Err e => Err e
  | Ok inline =>
  let dirs :=
    map pvc_Path pvcs ++
    (match volCtx with
     | Some ctx => if bool_decide (is_Some (ctx !! cacheEmptyDir)) then ["/var/jfsCache-emptyDir"] else []
     | None => [] end) ++
    (match volCtx with
     | Some ctx => if bool_decide (is_Some (ctx !! cacheInlineVolume)) then map iv_Path inline else []
     | None => [] end) in
  let '(opts, cacheDirs) := parse_cache_options dirs options in
  match opt_map (sget secrets "configs") decode_map ∅ with
  | Err e => Err e
  | Ok configs =>
  match opt_map (sget secrets "envs") decode_map ∅ with
  | Err e => Err e
  | Ok envs =>
  let s1 :=
    {| IsCe := match secrets !! "metaurl" with Some _ => true | None => IsCe s0 end;
       UsePod := usePod; UUID := UUID s0; js_Name := sget secrets "name";
       MetaUrl := default (MetaUrl s0) (secrets !! "metaurl"); Source := source_of secrets;
       Storage := sget secrets "storage"; FormatOptions := FormatOptions s0; CachePVCs := pvcs;
       js_CacheEmptyDir := emptyDir; CacheInlineVolumes := inline; CacheDirs := cacheDirs;
       ClientConfPath := DefaultClientConfPath;
       SecretKey := overwrite_str (SecretKey s0) (sget secrets "secretkey");
       SecretKey2 := overwrite_str (SecretKey2 s0) (sget secrets "secretkey2");
       Token := Token s0; Passphrase := Passphrase s0; Envs := envs;
       EncryptRsaKey := EncryptRsaKey s0; InitConfig := InitConfig s0; Configs := configs;
       DeletedDelay := DeletedDelay s0; js_CleanCache := js_CleanCache s0;
       js_HostPath := js_HostPath s0; VolumeId := VolumeId s0; js_UniqueId := js_UniqueId s0;
       MountPath := MountPath s0; TargetPath := TargetPath s0; Options := opts;
       FormatCmd := FormatCmd s0; SubPath := SubPath s0; SecretName := SecretName s0;
       Attr := Attr s0; js_PV := pv; js_PVC := pvc |} in
  match parse_vol_ctx volCtx s1 with
  | Err e => Err e
  | Ok s2 =>
      match GenPodAttrWithCfg s2 volCtx with
      | Err e => Err (Errorf ("GenPodAttrWithCfg error: " +:+ error_text e))
      | Ok s3 => Ok s3
      end
  end end end end end end end.

(** [GenHashOfSetting] (pkg/juicefs/mount/pod_mount.go): the target, the volume
    and the sub path do not count. *)
Definition unplaced (s : JfsSetting) : JfsSetting :=
  with_identity "" (js_UniqueId s) (UUID s) (with_paths "" "" s).
Definition GenHashOfSetting (s : JfsSetting) : string :=
  str_take 63 (sha256_hex (encode_setting (unplaced s))).
End parse.

(** ** Application info *)

Definition podInfoName : string := "csi.storage.k8s.io/pod.name".
Definition podInfoNamespace : string := "csi.storage.k8s.io/pod.namespace".

Definition no_kubelet : error :=
  Errorf "can not connect to kubelet, please turn `podInfoOnMount` on in csiDriver, and fallback to apiServer".

Definition ParseAppInfo `{Globals} (volCtx : option smap) : M (res (option AppInfo)) :=
  let info := match volCtx with
              | Some ctx => Some {| app_Name := sget ctx podInfoName; app_Namespace := sget ctx podInfoNamespace |}
              | None => None
              end in
  if negb g_ByProcess && negb g_Webhook && negb (bool_decide (g_KubeletPort = "")) &&
     negb (bool_decide (g_HostIp = ""))
  then
    match Atoi g_KubeletPort with
    | None => Ret (Err (Errorf ("strconv.Atoi: parsing " +:+ g_KubeletPort +:+ ": invalid syntax")))
    | Some port =>
        e <- sys (NewKubeletClient g_HostIp port) ;;
        match e with
        | Some e => Ret (Err e)
        | None =>
            r <- sys GetNodeRunningPods ;;
            match r with
            | Ok _ => Ret (Ok info)
            | Err _ =>
                if bool_decide (sget (nil_map volCtx) podInfoName = "") then Ret (Err no_kubelet)
                else Ret (Ok info)
            end
        end
    end
  else Ret (Ok info).
