(* ===== verification/Builder.v ===== *)
(** * pkg/juicefs/mount/builder: the pods, jobs and secrets the driver creates

    [BaseBuilder], [PodBuilder] and [JobBuilder] are their [jfsSetting]; a
    builder method that changes the setting returns the new one. *)
From S2P Require Import Prelude.
From S2P Require Import GoStrings.
From S2P Require Import Hash.
From S2P Require Import K8s.
From S2P Require Import GoTime.
From S2P Require Import Prog.
From S2P Require Import Effects.
From S2P Require Import Config.
From S2P Require Import Util.
From S2P Require Import Setting.
From S2P Require Import JfsSetting.
From Stdlib Require Import Ascii.
#[local] Open Scope Z_scope.
#[local] Open Scope go_scope.

Definition newline : string := String "010" "".

Definition JfsDirName : string := "jfs-dir".
Definition UpdateDBDirName : string := "updatedb".
Definition UpdateDBCfgFile : string := "/etc/updatedb.conf".

(** ** Commands (common.go) *)

Section commands.
Context (s : JfsSetting) (attr : PodAttr).

Definition metrics_option : string :=
  if a_HostNetwork attr then "metrics=0.0.0.0:0" else "metrics=0.0.0.0:9567".

Definition ce_mount_options : list string :=
  if ContainsPrefix (Options s) "metrics=" then Options s else Options s ++ [metrics_option].

Definition ee_mount_options : list string :=
  ["foreground"; "no-update"] ++
  (if bool_decide (EncryptRsaKey s = "") then [] else ["rsa-key=/root/.rsa/rsa-key.pem"]) ++ Options s.

Definition mount_args : list string :=
  if IsCe s
  then [CeMountPath; "${metaurl}"; EscapeBashStr (MountPath s); "-o";
        EscapeBashStr (Join ce_mount_options ",")]
  else [JfsMountPath; EscapeBashStr (Source s); EscapeBashStr (MountPath s); "-o";
        EscapeBashStr (Join ee_mount_options ",")].

Definition genMountCommand : string := QuoteForShell (Join mount_args " ").

Definition genInitCommand : string :=
  let formatCmd := FormatCmd s in
  let formatCmd :=
    if negb (bool_decide (EncryptRsaKey s = "")) && IsCe s
    then formatCmd +:+ " --encrypt-rsa-key=/root/.rsa/rsa-key.pem" else formatCmd in
  if bool_decide (InitConfig s = "") then formatCmd
  else
    let confPath := path_Join [ROConfPath; js_Name s +:+ ".conf"] in
    Join [Join ["cp"; confPath; ClientConfPath s] " "; formatCmd] newline.

(** The last option [subdir=v] wins. *)
Definition getQuotaPath : string :=
  let subdir := foldl (fun sub o =>
                   match Split o "=" with
                   | [k; v] => if bool_decide (k = "subdir") then path_Join ["/"; v] else sub
                   | _ => sub
                   end) "" (Options s) in
  path_Join [subdir; SubPath s].

Definition overwriteSubdirWithSubPath : JfsSetting :=
  if bool_decide (SubPath s = "") then s
  else
    let '(options, subdir) :=
      foldl (fun acc option =>
               if HasPrefix option "subdir="
               then match Split option "=" with
                    | [k; v] => if bool_decide (k = "subdir") then (acc.1, path_Join [v; SubPath s]) else acc
                    | _ => acc
                    end
               else (acc.1 ++ [option], acc.2)) ([], SubPath s) (Options s) in
    with_Options (options ++ ["subdir=" +:+ subdir]) s.

Definition getJobCommand : string :=
  let options := StripReadonlyOption (Options s) in
  let args :=
    if IsCe s
    then [CeMountPath; "${metaurl}"; "/mnt/jfs"] ++
         match options with [] => [] | _ => ["-o"; EscapeBashStr (Join options ",")] end
    else
      let options := if bool_decide (EncryptRsaKey s = "") then options
                     else options ++ ["rsa-key=/root/.rsa/rsa-key.pem"] in
      [JfsMountPath; EscapeBashStr (Source s); "/mnt/jfs"; "-o";
       EscapeBashStr (Join (options ++ ["background"]) ",")] in
  QuoteForShell (Join args " ").

(** The regexp [metrics=.*:([0-9]{1,6})]: the last colon before a digit, on
    the first line; up to six digits. *)
Fixpoint take_digits (n : nat) (t : string) : string :=
  match n, t with
  | S n', String c t' => if is_digit c then String c (take_digits n' t') else ""
  | _, _ => ""
  end.
Fixpoint last_port (t : string) : option Z :=
  match t with
  | EmptyString => None
  | String c t' =>
      match if bool_decide (c = "010"%char) then None else last_port t' with
      | Some p => Some p
      | None => if bool_decide (c = ":"%char)
                then match take_digits 6 t' with "" => None | d => digits_value d 0 end
                else None
      end
  end.
Definition genMetricsPort : Z :=
  foldl (fun port option =>
           if HasPrefix option "metrics="
           then default port (last_port (TrimPrefix option "metrics=")) else port) 9567 (Options s).

(** ** Metadata and volumes (common.go) *)

Definition genMetadata : smap * smap :=
  let labels := a_Labels attr ∪ <[ PodTypeKey := PodTypeValue ]> {[ PodUniqueIdLabelKey := js_UniqueId s ]} in
  let annotations := a_Annotations attr in
  let annotations := if bool_decide (DeletedDelay s = "") then annotations
                     else <[ DeleteDelayTimeKey := DeletedDelay s ]> annotations in
  let annotations := <[ JuiceFSUUID := UUID s ]> annotations in
  let annotations := <[ UniqueId := js_UniqueId s ]> annotations in
  (labels, if js_CleanCache s then <[ CleanCacheKey := "true" ]> annotations else annotations).

Definition mount_at (name path : string) : VolumeMount :=
  {| vm_name := name; vm_path := path; vm_subPath := ""; vm_readOnly := false; vm_propagation := None |}.

(** [_genJuiceVolumes], given the order of the range over the configs. *)
Definition genJuiceVolumes (configs : list (string * string)) : list (Volume * VolumeMount) :=
  (if bool_decide (EncryptRsaKey s = "") then []
   else [({| v_name := "rsa-key"; v_source := SecretVolume (SecretName s) [("encrypt_rsa_key", "rsa-key.pem")] None |},
          mount_at "rsa-key" "/root/.rsa")]) ++
  (if bool_decide (InitConfig s = "") then []
   else [({| v_name := "init-config";
             v_source := SecretVolume (SecretName s) [("initconfig", js_Name s +:+ ".conf")] None |},
          mount_at "init-config" ROConfPath)]) ++
  imap (fun i kv =>
          let name := "config-" +:+ pretty (S i) in
          ({| v_name := name; v_source := SecretVolume kv.1 [] None |}, mount_at name kv.2)) configs.

(** ** Volumes of the mount pod (pod.go) *)

Definition DirectoryOrCreate : string := "DirectoryOrCreate".
Definition FileOrCreate : string := "FileOrCreate".
Definition Directory : string := "Directory".
Definition Bidirectional : string := "Bidirectional".

Definition genCacheDirVolumes : list (Volume * VolumeMount) :=
  imap (fun idx cacheDir =>
          let name := "cachedir-" +:+ pretty (idx : nat) in
          ({| v_name := name; v_source := HostPath cacheDir (Some DirectoryOrCreate) |},
           mount_at name cacheDir)) (CacheDirs s) ++
  imap (fun i cache =>
          let name := "cachedir-pvc-" +:+ pretty (i : nat) in
          ({| v_name := name; v_source := PVCVolume (PVCName cache) false |},
           mount_at name (pvc_Path cache))) (CachePVCs s) ++
  match js_CacheEmptyDir s with
  | None => []
  | Some ed => [({| v_name := "cachedir-empty-dir"; v_source := EmptyDir (Medium ed) (Some (SizeLimit ed)) |},
                 mount_at "cachedir-empty-dir" (ed_Path ed))]
  end ++
  imap (fun i iv =>
          let name := "cachedir-inline-volume-" +:+ pretty (i : nat) in
          ({| v_name := name; v_source := CSIVolume (iv_CSI iv) |},
           mount_at name (iv_Path iv))) (CacheInlineVolumes s).

Definition genHostPathVolumes : list (Volume * VolumeMount) :=
  imap (fun idx hostPath =>
          let name := "hostpath-" +:+ pretty (idx : nat) in
          ({| v_name := name; v_source := HostPath hostPath None |}, mount_at name hostPath))
    (js_HostPath s).

Definition genPodVolumes `{Globals} : list (Volume * VolumeMount) :=
  ({| v_name := JfsDirName; v_source := HostPath g_MountPointPath (Some DirectoryOrCreate) |},
   {| vm_name := JfsDirName; vm_path := PodMountBase; vm_subPath := ""; vm_readOnly := false;
      vm_propagation := Some Bidirectional |}) ::
  (if g_Immutable then []
   else [({| v_name := UpdateDBDirName; v_source := HostPath UpdateDBCfgFile (Some FileOrCreate) |},
          mount_at UpdateDBDirName UpdateDBCfgFile)]).
End commands.

(** ** The mount pod (common.go, pod.go) *)

Section pods.
Context `{Globals} `{QuantityParser} `{SettingCodec}.

(** [r.jfsSetting.Attr] after [GenPodAttrWithCfg]: never nil. *)
Definition attr_of (s : JfsSetting) : PodAttr :=
  match Attr s with Some a => a | None => default_attr s end.

(** The call that "gen again to update the mount pod spec"; its error is only
    logged. *)
Definition regen_attr (s : JfsSetting) : JfsSetting :=
  match GenPodAttrWithCfg s None with Ok s' => s' | Err _ => s end.

Definition genCommonContainer (s : JfsSetting) : Container :=
  {| c_name := MountContainerName; c_image := a_Image (attr_of s); c_command := [];
     c_env := [(JfsInsideContainer, "1")]; c_envFrom := []; c_resources := no_resources;
     c_volumeMounts := []; c_ports := []; c_lifecycle := None; c_livenessProbe := None;
     c_readinessProbe := None; c_startupProbe := None; c_privileged := true; c_capabilities := [] |}.

(** [genPodTemplate]. *)
Definition genPodTemplate (s : JfsSetting) (baseCnGen : JfsSetting -> Container) : Pod :=
  let attr := attr_of s in
  {| p_meta := {| Name := ""; Namespace := a_Namespace attr; UID := ""; ResourceVersion := "";
                  Labels := Some (<[ PodTypeKey := PodTypeValue ]> {[ PodUniqueIdLabelKey := js_UniqueId s ]});
                  Annotations := Some ∅; Finalizers := []; CreationTimestamp := 0; DeletionTimestamp := None;
                  OwnerReferences := None |};
     p_spec := {| NodeName := g_NodeName; NodeSelector := ∅; Containers := [baseCnGen s];
                  InitContainers := []; Volumes := []; RestartPolicy := "";
                  TerminationGracePeriodSeconds := None; PriorityClassName := "";
                  ServiceAccountName := a_ServiceAccountName attr; HostNetwork := a_HostNetwork attr;
                  HostPID := a_HostPID attr; PreemptionPolicy := a_PreemptionPolicy attr;
                  Affinity := ""; SchedulerName := ""; Tolerations := a_Tolerations attr;
                  inherited := a_inherited attr |};
     p_status := empty_status |}.

Definition umount_hook (s : JfsSetting) : Lifecycle :=
  pre_stop ["sh"; "-c"; "+e";
               "umount " +:+ MountPath s +:+ " -l; rmdir " +:+ MountPath s +:+ "; exit 0"].

(** The container as [genCommonJuicePod] completes it. *)
Definition common_container (s : JfsSetting) (vols : list (Volume * VolumeMount)) (c : Container) : Container :=
  let attr := attr_of s in
  {| c_name := c_name c; c_image := c_image c; c_command := c_command c; c_env := c_env c;
     c_envFrom := [SecretName s]; c_resources := a_Resources attr; c_volumeMounts := vols.*2;
     c_ports := if a_HostNetwork attr || negb (IsCe s) then [] else [("metrics", genMetricsPort s)];
     c_lifecycle := match a_Lifecycle attr with None => Some (umount_hook s) | l => l end;
     c_livenessProbe := a_LivenessProbe attr; c_readinessProbe := a_ReadinessProbe attr;
     c_startupProbe := a_StartupProbe attr; c_privileged := c_privileged c; c_capabilities := c_capabilities c |}.

(** [genCommonJuicePod]: the pod and the setting with its attributes. *)
Definition genCommonJuicePod (s : JfsSetting) (cnGen : JfsSetting -> Container) : M (Pod * JfsSetting) :=
  let s := regen_attr s in
  let attr := attr_of s in
  let pod := genPodTemplate s cnGen in
  let md := genMetadata s attr in
  configs <- range_map (Configs s) ;;
  let vols := genJuiceVolumes s configs in
  let spec := p_spec pod in
  Ret ({| p_meta := with_finalizers [Finalizer]
                      (with_labels (Some md.1) (with_annotations (Some md.2) (p_meta pod)));
          p_spec := {| NodeName := NodeName spec; NodeSelector := NodeSelector spec;
                       Containers := map (common_container s vols) (Containers spec);
                       InitContainers := []; Volumes := vols.*1; RestartPolicy := "Always";
                       TerminationGracePeriodSeconds := Some 10;
                       PriorityClassName := g_JFSMountPriorityName;
                       ServiceAccountName := a_ServiceAccountName attr;
                       HostNetwork := HostNetwork spec; HostPID := HostPID spec;
                       PreemptionPolicy := PreemptionPolicy spec; Affinity := Affinity spec;
                       SchedulerName := SchedulerName spec; Tolerations := Tolerations spec;
                       inherited := inherited spec |};
          p_status := empty_status |}, s).

(** Appending volumes to the pod and their mounts to its first container. *)
Definition add_volumes (vols : list (Volume * VolumeMount)) (spec : PodSpec) : PodSpec :=
  update_first (fun c => with_volumeMounts (c_volumeMounts c ++ vols.*2) c)
    (with_volumes (Volumes spec ++ vols.*1) spec).

Definition mount_script (s : JfsSetting) : string :=
  let initCmd := genInitCommand s in
  let mountCmd := genMountCommand s (attr_of s) in
  if bool_decide (initCmd = "") then mountCmd else Join [initCmd; mountCmd] newline.

Definition with_name (n : string) (m : ObjectMeta) : ObjectMeta :=
  {| Name := n; Namespace := Namespace m; UID := UID m; ResourceVersion := ResourceVersion m;
     Labels := Labels m; Annotations := Annotations m; Finalizers := Finalizers m;
     CreationTimestamp := CreationTimestamp m; DeletionTimestamp := DeletionTimestamp m; OwnerReferences := OwnerReferences m |}.

Definition NewMountPod (s : JfsSetting) (podName : string) : M (Pod * JfsSetting) :=
  p <- genCommonJuicePod s genCommonContainer ;;
  let '(pod, s) := p in
  let spec := update_first
                (fun c => with_env [("JFS_FOREGROUND", "1")]
                            (with_command ["sh"; "-c"; mount_script s] c)) (p_spec pod) in
  let spec := add_volumes genPodVolumes spec in
  let spec := add_volumes (genCacheDirVolumes s) spec in
  let spec := add_volumes (genHostPathVolumes s) spec in
  Ret ({| p_meta := with_name podName (p_meta pod); p_spec := spec; p_status := p_status pod |}, s).

(** ** The pod that cleans the cache (pod.go) *)

Definition genCleanCachePod (s : JfsSetting) : Pod :=
  let vols :=
    imap (fun idx cacheDir =>
            let name := "cachedir-" +:+ pretty (idx : nat) in
            ({| v_name := name;
                v_source := HostPath (path_Join [cacheDir; UUID s; "raw"]) (Some Directory) |},
             mount_at name (path_Join ["/var/jfsCache"; name]))) (CacheDirs s) in
  {| p_meta := {| Name := ""; Namespace := a_Namespace (attr_of s); UID := ""; ResourceVersion := "";
                  Labels := Some {[ PodTypeKey := PodTypeValue ]}; Annotations := Some ∅;
                  Finalizers := []; CreationTimestamp := 0; DeletionTimestamp := None; OwnerReferences := None |};
     p_spec := with_volumes vols.*1 (with_containers
                 [{| c_name := "jfs-cache-clean"; c_image := a_Image (attr_of s);
                     c_command := ["sh"; "-c"; "rm -rf /var/jfsCache/*/chunks"]; c_env := [];
                     c_envFrom := []; c_resources := no_resources; c_volumeMounts := vols.*2;
                     c_ports := []; c_lifecycle := None; c_livenessProbe := None;
                     c_readinessProbe := None; c_startupProbe := None; c_privileged := false; c_capabilities := [] |}]
                 empty_spec);
     p_status := empty_status |}.

(** ** Jobs (job.go) *)

Definition DefaultJobTTLSecond : Z := 5.

Definition GenJobNameByVolumeId (volumeId : string) : string :=
  str_take 16 ("juicefs-" +:+ sha256_hex volumeId).

Definition job_meta (name ns : string) : ObjectMeta :=
  {| Name := name; Namespace := ns; UID := ""; ResourceVersion := "";
     Labels := Some {[ PodTypeKey := JobTypeValue ]}; Annotations := None; Finalizers := [];
     CreationTimestamp := 0; DeletionTimestamp := None; OwnerReferences := None |}.

Definition new_job (meta : ObjectMeta) (spec : PodSpec) : Job :=
  {| j_meta := meta; j_spec := spec; TTLSecondsAfterFinished := Some DefaultJobTTLSecond;
     j_conditions := []; CompletionTime := None |}.

Definition job_hook : Lifecycle := pre_stop ["sh"; "-c"; "umount /mnt/jfs -l && rmdir /mnt/jfs"].

(** [newJob] with the command [cmd] of the setting; the setting gets the name
    of the job's secret. *)
Definition newJob (s : JfsSetting) (jobName : string) : M (Job * JfsSetting) :=
  p <- genCommonJuicePod (with_SecretName (jobName +:+ "-secret") s) genCommonContainer ;;
  let '(podTemplate, s) := p in
  let spec := update_first (with_lifecycle (Some job_hook)) (p_spec podTemplate) in
  Ret (new_job (job_meta jobName (a_Namespace (attr_of s))) (with_placement "" "" "OnFailure" spec), s).

Definition with_job_command (cmd : string) (j : Job) : Job :=
  {| j_meta := j_meta j; j_spec := update_first (with_command ["sh"; "-c"; cmd]) (j_spec j);
     TTLSecondsAfterFinished := TTLSecondsAfterFinished j; j_conditions := j_conditions j;
     CompletionTime := CompletionTime j |}.

Definition getCreateVolumeCmd (s : JfsSetting) : string :=
  let subpath := EscapeBashStr (SubPath s) in
  getJobCommand s +:+ " && if [ ! -d /mnt/jfs/" +:+ subpath +:+ " ]; then mkdir -m 777 /mnt/jfs/" +:+
  subpath +:+ "; fi;".

Definition getDeleteVolumeCmd (s : JfsSetting) : string :=
  let jfsPath := if IsCe s then CeCliPath else CliPath in
  let subpath := EscapeBashStr (SubPath s) in
  getJobCommand s +:+ " && if [ -d /mnt/jfs/" +:+ subpath +:+ " ]; then " +:+ jfsPath +:+
  " rmr /mnt/jfs/" +:+ subpath +:+ "; fi;".

Definition NewJobForCreateVolume (s : JfsSetting) : M (Job * JfsSetting) :=
  r <- newJob s (GenJobNameByVolumeId (VolumeId s) +:+ "-createvol") ;;
  let '(job, s) := r in
  Ret (with_job_command (Join [genInitCommand s; getCreateVolumeCmd s] newline) job, s).

Definition NewJobForDeleteVolume (s : JfsSetting) : M (Job * JfsSetting) :=
  r <- newJob s (GenJobNameByVolumeId (VolumeId s) +:+ "-delvol") ;;
  let '(job, s) := r in
  Ret (with_job_command (Join [genInitCommand s; getDeleteVolumeCmd s] newline) job, s).

Definition newCleanJob (s : JfsSetting) (jobName : string) : Job :=
  new_job (job_meta jobName (a_Namespace (attr_of s)))
    (with_placement g_NodeName "" "Never" (p_spec (genCleanCachePod s))).

Definition NewJobForCleanCache (s : JfsSetting) : M Job :=
  r <- RandStringRunes 6 ;;
  Ret (newCleanJob s (GenJobNameByVolumeId (VolumeId s) +:+ "-cleancache-" +:+ r)).

(** [NewFuseAbortJob]: a mount pod without containers panics. *)
Definition fuse_abort_command (devMinor : Z) : string :=
  "if [ $(cat /sys/fs/fuse/connections/" +:+ pretty devMinor +:+
  "/waiting) -gt 0 ]; then echo 1 > /sys/fs/fuse/connections/" +:+ pretty devMinor +:+ "/abort; fi;".

Definition NewFuseAbortJob_ (mountpod : Pod) (image : string) (devMinor : Z) : Job :=
  let connections := "/sys/fs/fuse/connections" in
  let spec := with_volumes [{| v_name := "fuse-connections"; v_source := HostPath connections None |}]
                (with_containers
                   [{| c_name := "fuse-abort"; c_image := image;
                       c_command := ["sh"; "-c"; fuse_abort_command devMinor]; c_env := [];
                       c_envFrom := []; c_resources := no_resources;
                       c_volumeMounts := [mount_at "fuse-connections" connections]; c_ports := [];
                       c_lifecycle := None; c_livenessProbe := None; c_readinessProbe := None;
                       c_startupProbe := None; c_privileged := true; c_capabilities := [] |}] empty_spec) in
  new_job (with_labels None
             (job_meta (GenJobNameByVolumeId (pod_name mountpod) +:+ "-abort-fuse") (pod_namespace mountpod)))
    (with_placement (NodeName (p_spec mountpod)) "" "Never" spec).

Definition NewFuseAbortJob (mountpod : Pod) (devMinor : Z) : M Job :=
  match Containers (p_spec mountpod) with
  | [] => panic "index out of range"
  | c :: _ => Ret (NewFuseAbortJob_ mountpod (c_image c) devMinor)
  end.
End pods.

(** ** Secrets (secret.go) *)

Definition checkMountScriptName : string := "check_mount.sh".

(** The script of the source, with [¬] for the backtick as there, and [^] for
    the double quote. *)
Definition checkMountScriptContent : string :=
"ConditionPathIsMountPoint=^$1^
count=0
while ! mount | grep $ConditionPathIsMountPoint | grep JuiceFS
do
    sleep 3
    count=~expr $count + 1~
    if test $count -eq 10
    then
        echo ^timed out!^
        exit 1
    fi
done
echo ^$(date ^+%Y-%m-%d %H:%M:%S^)^
echo ^succeed in checking mount point $ConditionPathIsMountPoint^
if [ -n ^${subpath}^ ]; then
	if [ -n ^${capacity}^ ]; then
		if [ ^${community}^ == ce ]; then
			echo ^set quota in ${subpath}^
			/usr/local/bin/juicefs quota > /dev/null; 
			if [ $? -eq 0 ]; then 
				/usr/local/bin/juicefs quota set ${metaurl} --path ${quotaPath} --capacity ${capacity} &
			fi 
		fi
		if [ ^${community}^ == ee ]; then
			echo ^set quota in ${subpath}^
			/usr/bin/juicefs quota > /dev/null; if [ $? -eq 0 ]; then /usr/bin/juicefs quota set ${name} --path ${quotaPath} --capacity ${capacity}; fi; 
		fi
	fi
fi
".
Definition checkMountScript : string :=
  ReplaceAll (ReplaceAll checkMountScriptContent "~" "`") "^" (String "034" "").

Definition put_if (key value : string) (data : smap) : smap :=
  if bool_decide (value = "") then data else <[ key := value ]> data.

Definition secret_data (s : JfsSetting) : smap :=
  let data := put_if "metaurl" (MetaUrl s) ∅ in
  let data := put_if "secretkey" (SecretKey s) data in
  let data := put_if "secretkey2" (SecretKey2 s) data in
  let data := put_if "token" (Token s) data in
  let data := put_if "passphrase" (Passphrase s) data in
  let data := put_if "encrypt_rsa_key" (EncryptRsaKey s) data in
  let data := put_if "initconfig" (InitConfig s) data in
  let data := <[ checkMountScriptName := checkMountScript ]> data in
  let data := match ParseFormatOptions (FormatOptions s) with
              | Ok options =>
                  foldl (fun d kv => if bool_decide (kv.1 = "session-token")
                                     then <[ "session-token" := kv.2 ]> d else d) data options
              | Err _ => data
              end in
  Envs s ∪ data.

Definition NewSecret `{Globals} (s : JfsSetting) : Secret :=
  {| s_meta := {| Name := SecretName s; Namespace := a_Namespace (attr_of s); UID := "";
                  ResourceVersion := ""; Labels := None; Annotations := None; Finalizers := [];
                  CreationTimestamp := 0; DeletionTimestamp := None; OwnerReferences := None |};
     Data := ∅; StringData := secret_data s |}.

Definition set_owner (kind : string) (owner : ObjectMeta) (secret : Secret) : Secret :=
  let m := s_meta secret in
  {| s_meta := {| Name := Name m; Namespace := Namespace m; UID := UID m;
                  ResourceVersion := ResourceVersion m; Labels := Labels m;
                  Annotations := Annotations m; Finalizers := Finalizers m;
                  CreationTimestamp := CreationTimestamp m; DeletionTimestamp := DeletionTimestamp m;
                  OwnerReferences := Some [{| or_kind := kind; or_name := Name owner; or_uid := UID owner |}] |};
     Data := Data secret; StringData := StringData secret |}.
Definition SetPodAsOwner (secret : Secret) (owner : Pod) : Secret := set_owner "Pod" (p_meta owner) secret.
Definition SetPVCAsOwner (secret : Secret) (owner : PersistentVolumeClaim) : Secret :=
  set_owner "PersistentVolumeClaim" (pvc_meta owner) secret.
Definition SetJobAsOwner (secret : Secret) (owner : Job) : Secret := set_owner "Job" (j_meta owner) secret.
