(* ===== verification/PodMount.v ===== *)
(** * pkg/juicefs/mount/pod_mount.go: mounting through a mount pod

    [PodMount] creates or shares the mount pod of a volume, keeps the
    references of its targets in annotations, unmounts targets, and runs the
    jobs that create, delete and clean volumes.  [retry.RetryOnConflict] of
    client-go is the class [Retry]; waiting loops take a [fuel]. *)
From S2P Require Import Prelude.
From S2P Require Import GoStrings.
From S2P Require Import Hash.
From S2P Require Import K8s.
From S2P Require Import GoTime.
From S2P Require Import Prog.
From S2P Require Import Effects.
From S2P Require Import Config.
From S2P Require Import Util.
From S2P Require Import PodUtil.
From S2P Require Import Setting.
From S2P Require Import JfsSetting.
From S2P Require Import Builder.
From Stdlib Require Import Ascii.
#[local] Open Scope Z_scope.
#[local] Open Scope go_scope.

(** ** Retrying on conflicts *)

(** What [retry.RetryOnConflict] documents: the function runs at least once,
    and again (after a pause) only when it failed with a conflict; the outcome
    is that of the last attempt. *)
Inductive retried (f : M (option error)) : jtrace -> outcome (option error) -> Prop :=
| retried_last t o : runs f t o -> retried f t o
| retried_again t1 e d u t2 o :
    runs f t1 (Done (Some e)) -> IsConflict e = true -> retried f t2 o ->
    retried f (t1 ++ ev (S := jfs) (Sleep d) u :: t2) o.

Class Retry := {
  RetryOnConflict : M (option error) -> M (option error);
  RetryOnConflict_retried f t o : runs (RetryOnConflict f) t o -> retried f t o;
  RetryOnConflict_avoids P f :
    (forall d, P (Sleep d) = false) -> avoids (S := jfs) P f -> avoids (S := jfs) P (RetryOnConflict f);
  RetryOnConflict_issues R f t :
    (forall t d, R t (Sleep d)) -> (forall t, issues (S := jfs) R f t) ->
    issues (S := jfs) R (RetryOnConflict f) t;
  RetryOnConflict_needs n f : jneeds n f -> jneeds n (RetryOnConflict f);
}.

(** An implementation: [attempts] attempts with fixed pauses. *)
Fixpoint retry_fixed (pause : Z) (attempts : nat) (f : M (option error)) : M (option error) :=
  r <- f ;;
  match r, attempts with
  | Some e, S n => if IsConflict e then sys (Sleep pause) ;;; retry_fixed pause n f else Ret r
  | _, _ => Ret r
  end.

Lemma retry_fixed_retried pause n f t o : runs (retry_fixed pause n f) t o -> retried f t o.
Proof.
  revert t. induction n as [|n IH]; intros t; cbn [retry_fixed]; rewrite runs_bind.
  - intros [(t1 & t2 & r & -> & H1 & H2)|(s & H & ->)]; [|by constructor].
    destruct r; destruct H2 as [-> ->]; rewrite app_nil_r; by constructor.
  - intros [(t1 & t2 & r & -> & H1 & H2)|(s & H & ->)]; [|by constructor].
    destruct r as [e|]; [destruct (IsConflict e) eqn:Ec|].
    + destruct H2 as (u & t3 & -> & H2). eapply retried_again; [done..|]. by apply IH.
    + destruct H2 as [-> ->]. rewrite app_nil_r. by constructor.
    + destruct H2 as [-> ->]. rewrite app_nil_r. by constructor.
Qed.

#[refine] Definition retry_instance (pause : Z) (n : nat) : Retry :=
  {| RetryOnConflict := retry_fixed pause n |}.
Proof.
  - apply retry_fixed_retried.
  - intros P f HP Hf. induction n as [|n IH]; cbn [retry_fixed]; solve_avoids; auto.
  - intros R f t HR Hf. revert t. induction n as [|n IH]; intros t; cbn [retry_fixed];
      (apply issues_bind; [apply Hf|]); intros t' [e|] _; try done.
    destruct (IsConflict e); [|done]. split; [apply HR|]. intros u. apply IH.
  - intros k f Hf. induction n as [|n IH]; cbn [retry_fixed]; solve_needs; auto.
Defined.

(** ** References *)

(** [GetRef]: the number of references of a mount pod. *)
Definition GetRef (pod : Pod) : nat := size (GetAllRefKeys pod).

Section podmount.
Context `{Globals} `{Retry}.

(** [GetMountRef]. *)
Definition GetMountRef (podName : string) : M (res nat) :=
  r <- sys (GetPod Caller podName g_Namespace) ;;
  match r with
  | Ok pod => Ret (Ok (GetRef pod))
  | Err e => if IsNotFound e then Ret (Ok O) else Ret (Err e)
  end.

(** One attempt of [AddRefOfMount]. *)
Definition add_ref_attempt (target podName : string) : M (option error) :=
  let key := GetReferenceKey target in
  old <-! sys (GetPod Caller podName g_Namespace) ;;
  if bool_decide (is_Some (DeletionTimestamp (p_meta old)))
  then Ret (Some (Errorf ("addRefOfMount: Mount pod [" +:+ podName +:+ "] has been deleted")))
  else match pod_annotations old !! key with
       | Some _ => Ret None
       | None =>
           ReplacePodAnnotation old
             (Some (delete DeleteDelayAtKey (<[ key := target ]> (pod_annotations old))))
       end.

Definition AddRefOfMount (target podName : string) : M (option error) :=
  RetryOnConflict (add_ref_attempt target podName).

(** ** Unmounting *)

(** One round of [umount -l] on a target mounted several times. *)
Definition umount_round (target : string) (u : unit) : M (unit + option error) :=
  r <- sys (LazyUmount target) ;;
  match r with
  | (_, None) => Ret (inl tt)
  | (out, Some e) =>
      if negb (Contains out "not mounted") && negb (Contains out "mountpoint not found") &&
         negb (Contains out "no mount point specified")
      then Ret (inr (Some e)) else Ret (inr None)
  end.

(** One attempt to drop the reference of the target. *)
Definition del_ref_attempt (pod : Pod) (key : string) : M (option error) :=
  po <-! sys (GetPod Caller (pod_name pod) (pod_namespace pod)) ;;
  match pod_annotations po !! key with
  | None => Ret None
  | Some _ => DelPodAnnotation pod [key]
  end.

Definition UmountTarget (fuel : nat) (target podName : string) : M (option error) :=
  loop fuel (umount_round target) tt ?;;
  sys (CleanupMountPoint target) ?;;
  if bool_decide (podName = "") then Ret None
  else
    r <- sys (GetPod Caller podName g_Namespace) ;;
    match r with
    | Err e => if IsNotFound e then Ret None else Ret (Some e)
    | Ok pod => RetryOnConflict (del_ref_attempt pod (GetReferenceKey target))
    end.

(** One attempt of [JUmount] to delete a pod without references. *)
Definition jumount_attempt (podName : string) : M (option error) :=
  r <- sys (GetPod Caller podName g_Namespace) ;;
  match r with
  | Err e => if IsNotFound e then Ret None else Ret (Some e)
  | Ok po =>
      if negb (Nat.eqb (GetRef po) 0) then Ret None
      else
        d <- ShouldDelay po ;;
        match d with
        | (_, Some e) => Ret (Some e)
        | (true, None) => Ret None
        | (false, None) =>
            sys (DeletePod po) ?;;
            (sys (DeleteSecret (pod_name po +:+ "-secret") (pod_namespace po)) ;;; Ret None)
        end
  end.
Definition JUmount (podName : string) : M (option error) := RetryOnConflict (jumount_attempt podName).

(** ** Labels and annotations *)

Definition setUUIDAnnotation (podName uuid : string) : M (option error) :=
  pod <-! sys (GetPod Background podName g_Namespace) ;;
  AddPodAnnotation pod {[ JuiceFSUUID := uuid ]}.

Definition setMountLabel (podName podNamespace : string) : M (option error) :=
  pod <-! sys (GetPod Background podName podNamespace) ;;
  AddPodLabel pod {[ UniqueId := "" ]}.

(** ** Secrets and logs *)

Definition with_StringData (d : smap) (s : Secret) : Secret :=
  {| s_meta := s_meta s; Data := Data s; StringData := d |}.

Definition secret_attempt (secret : Secret) : M (option error) :=
  r <- sys (GetSecret (Name (s_meta secret)) g_Namespace) ;;
  match r with
  | Err e =>
      if IsNotFound e
      then c <- sys (CreateSecret secret) ;; Ret match c with Ok _ => None | Err e => Some e end
      else Ret (Some e)
  | Ok oldSecret => sys (UpdateSecret (with_StringData (StringData secret) oldSecret))
  end.
Definition createOrUpdateSecret (secret : Secret) : M (option error) :=
  RetryOnConflict (secret_attempt secret).

(** The log of the first container that satisfies [bad], init containers
    first; an empty log when none does. *)
Definition first_log (bad : ContainerStatus -> bool) (podName : string) : M (res string) :=
  r <- sys (GetPod Caller podName g_Namespace) ;;
  match r with
  | Err e => Ret (Err e)
  | Ok pod =>
      match List.find bad (InitContainerStatuses (p_status pod) ++ ContainerStatuses (p_status pod)) with
      | Some cn => sys (GetPodLog (pod_name pod) (pod_namespace pod) (cs_name cn))
      | None => Ret (Ok "")
      end
  end.
Definition getErrContainerLog : string -> M (res string) := first_log (fun cn => negb (cs_ready cn)).
Definition getNotCompleteCnLog : string -> M (res string) :=
  first_log (fun cn => match Terminated (cs_state cn) with
                       | Some (_, reason) => negb (bool_decide (reason = "Completed"))
                       | None => true
                       end).

(** ** Jobs *)

(** [waitUtilJobCompleted]: [inr] of the outcome of the wait, [None] when its
    time is over. *)
Definition job_step (jobName : string) (u : unit) : M (unit + option (option error)) :=
  let waitCtx := WithTimeout Caller (40 * Second) in
  r <- sys (GetJob waitCtx jobName g_Namespace) ;;
  match r with
  | Err e =>
      if IsNotFound e then Ret (inr (Some None))
      else
        c <- sys (CtxErr waitCtx) ;;
        match c with
        | Some _ => Ret (inr None)
        | None => Ret (inr (Some (Some (Errorf ("waitUtilJobCompleted: Get job " +:+ jobName +:+
                                                " failed: " +:+ error_text e)))))
        end
  | Ok job =>
      if IsJobCompleted job
      then
        b <- IsJobShouldBeRecycled job ;;
        (if b : bool then sys (DeleteJob jobName g_Namespace) ;;; Ret tt else Ret tt) ;;;
        Ret (inr (Some None))
      else sys (Sleep (500 * Millisecond)) ;;; Ret (inl tt)
  end.

Definition job_pods (jobName : string) : ListSelector :=
  {| sel_labels := {[ "job-name" := jobName ]}; sel_exists := []; sel_fields := ∅ |}.

Definition waitUtilJobCompleted (fuel : nat) (jobName : string) : M (option error) :=
  w <- loop fuel (job_step jobName) tt ;;
  match w with
  | Some r => Ret r
  | None =>
      pods <- sys (ListPod g_Namespace (job_pods jobName)) ;;
      match pods with
      | Ok (pod :: _) =>
          log <- getNotCompleteCnLog (pod_name pod) ;;
          match log with
          | Err e => Ret (Some (Errorf ("waitUtilJobCompleted: get pod " +:+ pod_name pod +:+
                                        " log error " +:+ error_text e)))
          | Ok log => Ret (Some (Errorf ("waitUtilJobCompleted: job " +:+ jobName +:+
                                         " isn't completed: " +:+ log)))
          end
      | Ok [] => Ret (Some (Errorf ("waitUtilJobCompleted: get pod from job " +:+ jobName +:+
                                    " error <nil>")))
      | Err e => Ret (Some (Errorf ("waitUtilJobCompleted: get pod from job " +:+ jobName +:+
                                    " error " +:+ error_text e)))
      end
  end.

(** [GetJob], and [CreateJob] when there is none. *)
Definition get_or_create_job (job : Job) : M (res Job) :=
  r <- sys (GetJob Caller (Name (j_meta job)) (Namespace (j_meta job))) ;;
  match r with
  | Ok old => Ret (Ok old)
  | Err e => if IsNotFound e then sys (CreateJob job) else Ret (Err e)
  end.

(** The common body of [JCreateVolume] and [JDeleteVolume]. *)
Definition run_volume_job (fuel : nat) (job : Job) (secret : Secret) : M (option error) :=
  old <-! get_or_create_job job ;;
  createOrUpdateSecret (SetJobAsOwner secret old) ?;;
  err <- waitUtilJobCompleted fuel (Name (j_meta job)) ;;
  match err with
  | Some e => sys (DeleteJob (Name (j_meta job)) (Namespace (j_meta job))) ;;; Ret (Some e)
  | None => Ret None
  end.

Context `{QuantityParser} `{SettingCodec}.

Definition JCreateVolume (fuel : nat) (jfsSetting : JfsSetting) : M (option error) :=
  js <- NewJobForCreateVolume jfsSetting ;;
  run_volume_job fuel js.1 (NewSecret js.2).

Definition JDeleteVolume (fuel : nat) (jfsSetting : JfsSetting) : M (option error) :=
  js <- NewJobForDeleteVolume jfsSetting ;;
  run_volume_job fuel js.1 (NewSecret js.2).

(** The setting of a clean-cache job. *)
Definition clean_setting (image id volumeId : string) (cacheDirs : list string) : res JfsSetting :=
  match ParseSetting (Some {[ "name" := id ]}) None [] true None None with
  | Err e => Err e
  | Ok s =>
      let a := attr_of s in
      let a := {| a_Namespace := a_Namespace a; a_MountPointPath := a_MountPointPath a;
                  a_JFSConfigPath := a_JFSConfigPath a;
                  a_JFSMountPriorityName := a_JFSMountPriorityName a;
                  a_ServiceAccountName := a_ServiceAccountName a; a_Resources := a_Resources a;
                  a_Labels := a_Labels a; a_Annotations := a_Annotations a;
                  a_LivenessProbe := a_LivenessProbe a; a_ReadinessProbe := a_ReadinessProbe a;
                  a_StartupProbe := a_StartupProbe a; a_Lifecycle := a_Lifecycle a; a_Image := image;
                  a_HostNetwork := a_HostNetwork a; a_HostPID := a_HostPID a;
                  a_PreemptionPolicy := a_PreemptionPolicy a; a_Tolerations := a_Tolerations a;
                  a_inherited := a_inherited a |} in
      Ok (with_CacheDirs cacheDirs (with_identity volumeId (js_UniqueId s) id (with_Attr a s)))
  end.

Definition PodMount_CleanCache (fuel : nat) (image id volumeId : string) (cacheDirs : list string)
  : M (option error) :=
  match clean_setting image id volumeId cacheDirs with
  | Err e => Ret (Some e)
  | Ok s =>
      job <- NewJobForCleanCache s ;;
      r <- get_or_create_job job ;;
      match r with
      | Err e => Ret (Some e)
      | Ok _ =>
          err <- waitUtilJobCompleted fuel (Name (j_meta job)) ;;
          match err with
          | Some _ => sys (DeleteJob (Name (j_meta job)) (Namespace (j_meta job))) ;;; Ret None
          | None => Ret None
          end
      end
  end.
End podmount.

(** ** Creating or sharing the mount pod *)

Section mount.
Context `{Globals} `{Retry} `{QuantityParser} `{SettingCodec}.

Definition defaultCheckTimeout : Z := 2 * Second.
Definition hostname_label : string := "kubernetes.io/hostname".

Definition GenPodNameByUniqueId (uniqueId : string) (withRandom : bool) : M string :=
  let base := "juicefs-" +:+ g_NodeName +:+ "-" +:+ uniqueId in
  if withRandom then r <- RandStringRunes 6 ;; Ret (base +:+ "-" +:+ r) else Ret base.

Definition mount_pod_selector (uniqueId hashVal : string) : ListSelector :=
  {| sel_labels := <[ PodTypeKey := PodTypeValue ]> (<[ PodUniqueIdLabelKey := uniqueId ]>
                     {[ PodJuiceHashLabelKey := hashVal ]});
     sel_exists := []; sel_fields := ∅ |}.

(** A live mount pod of this node. *)
Definition on_this_node (pod : Pod) : bool :=
  negb (bool_decide (is_Some (DeletionTimestamp (p_meta pod)))) &&
  (bool_decide (NodeName (p_spec pod) = g_NodeName) ||
   bool_decide (sget (NodeSelector (p_spec pod)) hostname_label = g_NodeName)).

Definition genMountPodName (s : JfsSetting) : M (res string) :=
  pods <-? sys (ListPod g_Namespace (mount_pod_selector (js_UniqueId s) (GenHashOfSetting s))) ;;
  match List.find on_this_node pods with
  | Some pod => Ret (Ok (pod_name pod))
  | None => n <- GenPodNameByUniqueId (js_UniqueId s) true ;; Ret (Ok n)
  end.

(** The new mount pod with its first reference and its hash. *)
Definition first_ref (key target hashVal : string) (m : ObjectMeta) : ObjectMeta :=
  with_labels (Some (<[ PodJuiceHashLabelKey := hashVal ]> (nil_map (Labels m))))
    (with_annotations (Some (<[ key := target ]> (nil_map (Annotations m)))) m).

(** With the node selector enabled, the pod is placed by label instead of by
    name when the label selects exactly that node. *)
Definition select_node (appinfo : option AppInfo) (newPod : Pod) : M Pod :=
  let spec := p_spec newPod in
  let nodeSelector := {[ hostname_label := NodeName spec ]} in
  r <- sys (ListNode nodeSelector) ;;
  match r with
  | Ok [node] =>
      if negb (bool_decide (Name (n_meta node) = NodeName spec)) then Ret newPod
      else
        let newPod := with_spec (with_node_selector nodeSelector spec) newPod in
        match appinfo with
        | Some app =>
            if bool_decide (app_Name app = "") then Ret newPod
            else
              a <- sys (GetPod Caller (app_Name app) (app_Namespace app)) ;;
              match a with
              | Ok appPod => Ret (with_spec (with_scheduling (p_spec appPod) (p_spec newPod)) newPod)
              | Err _ => Ret newPod
              end
        | None => Ret newPod
        end
  | _ => Ret newPod
  end.

Definition create_mount_pod (podName hashVal key : string) (s : JfsSetting) (secret : Secret)
    (appinfo : option AppInfo) : M (option error) :=
  ps <- NewMountPod s podName ;;
  let newPod := with_meta (first_ref key (TargetPath s) hashVal (p_meta ps.1)) ps.1 in
  newPod <- (if g_EnableNodeSelector then select_node appinfo newPod else Ret newPod) ;;
  createOrUpdateSecret secret ?;;
  (r <- sys (CreatePod newPod) ;;
   Ret match r with Ok _ => None | Err e => Some e end).

(** One round of the wait for the old pod. *)
Definition create_or_add_step (podName hashVal key : string) (s : JfsSetting) (secret : Secret)
    (appinfo : option AppInfo) (u : unit) : M (unit + option error) :=
  r <- sys (GetPod (WithTimeout Caller (60 * Second)) podName g_Namespace) ;;
  match r with
  | Ok oldPod =>
      if bool_decide (is_Some (DeletionTimestamp (p_meta oldPod)))
      then sys (Sleep (500 * Millisecond)) ;;; Ret (inl tt)
      else
        e <- (createOrUpdateSecret secret ?;; AddRefOfMount (TargetPath s) podName) ;;
        Ret (inr e)
  | Err e =>
      if IsNotFound e
      then e' <- create_mount_pod podName hashVal key s secret appinfo ;; Ret (inr e')
      else if IsTimeout e
      then Ret (inr (Some (Errorf ("mount " +:+ VolumeId s +:+ " failed: mount pod " +:+ podName +:+
                                   " deleting timeout"))))
      else Ret (inr (Some e))
  end.

(** The setting with the mount path and the secret of the pod;
    [podName[len(podName)-7:]] panics on a shorter name. *)
Definition placed_setting (s : JfsSetting) (podName : string) : option JfsSetting :=
  let n := Z.of_nat (String.length podName) in
  suffix ← slice_from podName (n - 7);
  Some (with_SecretName (podName +:+ "-secret") (with_MountPath (MountPath s +:+ suffix) s)).

Definition createOrAddRef (fuel : nat) (podName : string) (s : JfsSetting) (appinfo : option AppInfo)
  : M (JfsSetting * option error) :=
  let hashVal := GenHashOfSetting s in
  match placed_setting s podName with
  | None => panic "slice bounds out of range"
  | Some s =>
      e <- locked podName
             (loop fuel (create_or_add_step podName hashVal (GetReferenceKey (TargetPath s)) s
                           (NewSecret s) appinfo) tt) ;;
      Ret (s, e)
  end.

(** [waitUtilMountReady]: the error names the source without its password
    ([StripPasswd] may panic) and carries the log of the pod. *)
Definition waitUtilMountReady (fuel : nat) (s : JfsSetting) (podName : string) : M (option error) :=
  e <- WaitUtilMountReady fuel (MountPath s) defaultCheckTimeout ;;
  match e with
  | None => Ret None
  | Some _ =>
      log <- getErrContainerLog podName ;;
      match StripPasswd (Source s) with
      | None => panic "slice bounds out of range"
      | Some source =>
          match log with
          | Err _ => Ret (Some (Errorf ("mount " +:+ source +:+ " at " +:+ MountPath s +:+
                                        " failed: mount isn't ready in 30 seconds")))
          | Ok log => Ret (Some (Errorf ("mount " +:+ source +:+ " at " +:+ MountPath s +:+
                                         " failed, mountpod: " +:+ podName +:+ ", failed log: " +:+ log)))
          end
      end
  end.

(** ** The UUID of the volume, from [juicefs status] *)

Definition quote : string := String "034" "".
Definition uuid_prefix : string := quote +:+ "UUID" +:+ quote +:+ ": " +:+ quote.

Fixpoint first_line (s : string) : string :=
  match s with
  | EmptyString => ""
  | String c s' => if bool_decide (c = "010"%char) then "" else String c (first_line s')
  end.

(** The text between the quotes after the first [UUID] key whose line has a
    closing quote: what the regexp and the split of the match give. *)
Fixpoint find_uuid (s : string) : option string :=
  match s with
  | EmptyString => None
  | String _ s' =>
      if HasPrefix s uuid_prefix && Contains (first_line (TrimPrefix s uuid_prefix)) quote
      then match Split (first_line (TrimPrefix s uuid_prefix)) quote with v :: _ => Some v | [] => None end
      else find_uuid s'
  end.

Definition PodMount_GetJfsVolUUID (name : string) : M (res string) :=
  let cmdCtx := WithTimeout Caller (8 * defaultCheckTimeout) in
  r <- sys (Exec cmdCtx CeCliPath ["status"; name] []) ;;
  match r with
  | (stdout, Some err) =>
      c <- sys (CtxErr cmdCtx) ;;
      match c with
      | Some DeadlineExceeded => Ret (Err (Errorf ("juicefs status " +:+ "16s" +:+ " timed out")))
      | _ => Ret (Err (Errorf (stdout +:+ ": " +:+ error_text err)))
      end
  | (stdout, None) =>
      match find_uuid stdout with
      | Some uuid => Ret (Ok uuid)
      | None => Ret (Err (Errorf ("get uuid of " +:+ name +:+ " error")))
      end
  end.

(** ** [JMount] *)

Definition set_uuid (s : JfsSetting) (podName : string) : M (option error) :=
  if js_CleanCache s && bool_decide (UUID s = "")
  then uuid <-! PodMount_GetJfsVolUUID (Source s) ;; setUUIDAnnotation podName uuid
  else Ret None.

Definition label_app (appInfo : option AppInfo) : M (option error) :=
  match appInfo with
  | Some app =>
      if bool_decide (app_Name app = "") || bool_decide (app_Namespace app = "") then Ret None
      else setMountLabel (app_Name app) (app_Namespace app)
  | None => Ret None
  end.

(** The setting it returns is the caller's, which it changes. *)
Definition JMount (fuel : nat) (appInfo : option AppInfo) (s : JfsSetting) : M (JfsSetting * option error) :=
  n <- genMountPodName s ;;
  match n with
  | Err e => Ret (s, Some e)
  | Ok podName =>
      e <- label_app appInfo ;;
      match e with
      | Some e => Ret (s, Some e)
      | None =>
          r <- createOrAddRef fuel podName s appInfo ;;
          match r with
          | (s, Some e) => Ret (s, Some e)
          | (s, None) =>
              e <- (waitUtilMountReady fuel s podName ?;; set_uuid s podName) ;; Ret (s, e)
          end
      end
  end.
End mount.
