(* ===== verification/ProcessMount.v ===== *)
(** * pkg/juicefs/mount/process_mount.go: mounting in the driver's process

    Without mount pods the driver mounts by itself: the community client is a
    child process, the enterprise client a mount helper.  Both mounters are
    values of [MntInterface] (interface.go). *)
From S2P Require Import Prelude.
From S2P Require Import GoStrings.
From S2P Require Import K8s.
From S2P Require Import Prog.
From S2P Require Import Effects.
From S2P Require Import Config.
From S2P Require Import Util.
From S2P Require Import MountRefs.
From S2P Require Import Setting.
From S2P Require Import JfsSetting.
From S2P Require Import PodMount.
#[local] Open Scope Z_scope.
#[local] Open Scope go_scope.

Definition FsType : string := "juicefs".

(** ** [MntInterface] *)

Record MntInterface := {
  m_JMount : option AppInfo -> JfsSetting -> M (JfsSetting * option error);
  m_JCreateVolume : JfsSetting -> M (option error);
  m_JDeleteVolume : JfsSetting -> M (option error);
  m_GetMountRef : string -> string -> M (res nat);             (** target, pod name *)
  m_UmountTarget : string -> string -> M (option error);
  m_JUmount : string -> string -> M (option error);
  m_AddRefOfMount : string -> string -> M (option error);
  m_CleanCache : string -> string -> string -> list string -> M (option error);
}.

(** ** The process mounter *)

(** [K=V] strings for the environment of a command. *)
Definition env_strings (envs : list (string * string)) : list string :=
  map (fun kv => kv.1 +:+ "=" +:+ kv.2) envs.

(** Create the directory of a volume with mode 0777, whatever the umask. *)
Definition check_timeout {A} (f : M (res A)) : M (res A) :=
  DoWithTimeout Caller defaultCheckTimeout f.
Definition check_timeoutE (f : M (option error)) : M (option error) :=
  DoWithTimeoutE Caller defaultCheckTimeout f.

Definition mode_0777 : Z := 511.
Definition mode_0755 : Z := 493.

(** An error with a prefix. *)
Definition wrapE (msg : string) (p : M (option error)) : M (option error) :=
  r <- p ;; Ret ((fun e => Errorf (msg +:+ error_text e)) <$> r).
Definition wrapR {A} (msg : string) (p : M (res A)) : M (res A) :=
  r <- p ;; Ret (match r with Ok a => Ok a | Err e => Err (Errorf (msg +:+ error_text e)) end).

Definition make_volume (volPath : string) : M (option error) :=
  exists_ <-! wrapR ("could not check volume path " +:+ volPath +:+ " exists: ")
                (check_timeout (sys (PathExists volPath))) ;;
  if exists_ : bool then Ret None
  else
    wrapE ("could not make directory for meta " +:+ volPath +:+ ": ")
      (check_timeoutE (sys (MkdirAll volPath mode_0777))) ?;;
    (fi <-! wrapR ("could not stat directory " +:+ volPath +:+ ": ")
              (check_timeout (sys (Stat volPath))) ;;
     if fi_perm fi =? mode_0777 then Ret None
     else wrapE ("could not chmod directory " +:+ volPath +:+ ": ")
            (check_timeoutE (sys (Chmod volPath mode_0777)))).

(** One round of the wait for the mount point. *)
Definition jmount_step (mountPath : string) (u : unit) : M (unit + bool) :=
  r <- DoWithTimeout (WithTimeout Caller (30 * Second)) defaultCheckTimeout (sys (Stat mountPath)) ;;
  match r with
  | Err e =>
      if is_ctx_error e then Ret (inr false)
      else sys (Sleep (500 * Millisecond)) ;;; Ret (inl tt)
  | Ok finfo =>
      match fi_stat finfo with
      | Some (1, _) => Ret (inr true)
      | _ => sys (Sleep (500 * Millisecond)) ;;; Ret (inl tt)
      end
  end.

Definition ce_mount_args (source mountPath : string) (options : list string) : list string :=
  source :: mountPath :: match options with [] => [] | _ => ["-o"; Join options ","] end.

(** The mount of the community client: prepare the directory, start the
    client, wait for the inode of the root. *)
Definition ce_jmount (fuel : nat) (source mountPath : string) (options : list string) (extraEnvs : smap)
  : M (option error) :=
  (exist_ <-! wrapR ("could not check existence of dir " +:+ mountPath +:+ ": ")
                (check_timeout (sys (PathExists mountPath))) ;;
   if exist_ : bool then Ret None
   else wrapE ("could not create dir " +:+ mountPath +:+ ": ")
          (check_timeoutE (sys (MkdirAll mountPath mode_0755)))) ?;;
  (notMounted <-! wrapR ("could not check existence of dir " +:+ mountPath +:+ ": ")
                    (check_timeout (sys (IsLikelyNotMountPoint mountPath))) ;;
   if notMounted : bool then Ret None else sys (Unmount mountPath)) ?;;
  (environ <- sys Environ ;;
   envs <- range_map extraEnvs ;;
   go (sys (Exec Background CeMountPath (ce_mount_args source mountPath options)
              (environ ++ ["JFS_FOREGROUND=1"] ++ env_strings envs))) ;;;
   (ready <- loop fuel (jmount_step mountPath) tt ;;
    if ready : bool then Ret None
    else match StripPasswd source with
         | None => panic "slice bounds out of range"
         | Some s => Ret (Some (Errorf ("mount " +:+ s +:+ " at " +:+ mountPath +:+
                                        " failed: mount isn't ready in 30 seconds")))
         end)).

Definition jmount (fuel : nat) (source mountPath : string) (options : list string) (extraEnvs : smap)
  : M (option error) :=
  if negb (Contains source "://")
  then wrapE ("could not mount " +:+ source +:+ " at " +:+ mountPath +:+ ": ")
         (sys (Mount source mountPath FsType options))
  else ce_jmount fuel source mountPath options extraEnvs.

Section process.
Context (fuel : nat).

Definition Process_JCreateVolume (s : JfsSetting) : M (option error) :=
  wrapE "could not mount juicefs: "
    (jmount fuel (Source s) (MountPath s) (StripReadonlyOption (Options s)) (Envs s)) ?;;
  (make_volume (path_Join [MountPath s; SubPath s]) ?;;
   wrapE ("could not unmount " +:+ MountPath s +:+ ": ") (sys (Unmount (MountPath s)))).

Definition RmrDir (directory : string) (isCeMount : bool) : M (string * option error) :=
  sys (Exec Caller (if isCeMount then CeCliPath else CliPath) ["rmr"; directory] []).

Definition Process_JDeleteVolume (s : JfsSetting) : M (option error) :=
  let volPath := path_Join [MountPath s; SubPath s] in
  wrapE "could not mount juicefs: "
    (jmount fuel (Source s) (MountPath s) (Options s) (Envs s)) ?;;
  ((existed <-! wrapR ("could not check volume path " +:+ volPath +:+ " exists: ")
                  (check_timeout (sys (PathExists volPath))) ;;
    if existed : bool
    then wrapE ("could not delete volume path " +:+ volPath +:+ ": ")
           (r <- RmrDir volPath (IsCe s) ;; Ret r.2)
    else Ret None) ?;;
   wrapE ("could not unmount volume " +:+ SubPath s +:+ ": ") (sys (Unmount (MountPath s)))).

Definition Process_JMount (s : JfsSetting) : M (option error) :=
  (if negb (bool_decide (SubPath s = "")) &&
      (ContainsString (Options s) "read-only" || ContainsString (Options s) "ro")
   then Process_JCreateVolume s else Ret None) ?;;
  jmount fuel (Source s) (MountPath s) (Options s) (Envs s).
End process.

(** What [GetMountRef] and [JUmount] first find out about a target: nothing
    is mounted there, or a mount that may be corrupted. *)
Definition probe_target (target : string) : M (res (option bool)) :=
  r <- check_timeout (sys (PathExists target)) ;;
  match r with
  | Ok exists_ =>
      if negb exists_ then Ret (Ok None)
      else
        notMnt <-? wrapR "check target path is mountpoint failed: "
                     (check_timeout (sys (IsNotMountPoint target))) ;;
        Ret (Ok (if notMnt : bool then None else Some false))
  | Err e =>
      if IsCorruptedMnt e then Ret (Ok (Some true))
      else Ret (Err (Errorf ("check path " +:+ target +:+ " failed: " +:+ error_text e)))
  end.

Definition Process_GetMountRef (target : string) : M (res nat) :=
  corruptedMnt <-? probe_target target ;;
  match corruptedMnt with
  | None => Ret (Ok O)
  | Some corrupted =>
      refs <-? wrapR "fail to get mount device refs: " (GetMountDeviceRefs target corrupted) ;;
      Ret (Ok (length refs))
  end.

(** Unmount the target, and the mount itself when it was the last reference;
    the error of the second unmount is the result. *)
Definition Process_JUmount (target : string) : M (option error) :=
  corruptedMnt <-! probe_target target ;;
  match corruptedMnt with
  | None => Ret None
  | Some corrupted =>
      refs <-! wrapR "fail to get mount device refs: " (GetMountDeviceRefs target corrupted) ;;
      wrapE ("could not unmount " +:+ target +:+ ": ") (sys (Unmount target)) ?;;
      match refs with
      | [ref] => sys (Unmount ref)
      | _ => Ret None
      end
  end.

Definition Process_CleanCache (uuid : string) (cacheDirs : list string) : M (option error) :=
  r <- for_each cacheDirs (fun cacheDir (_ : unit) =>
         let rawPath := path_Join [cacheDir; uuid; "raw"; "chunks"] in
         existed <- check_timeout (sys (PathExists rawPath)) ;;
         match existed with
         | Err e => Ret (inr (Some e))
         | Ok false => Ret (inl tt)
         | Ok true =>
             e <- sys (RemoveAll rawPath) ;;
             match e with Some e => Ret (inr (Some e)) | None => Ret (inl tt) end
         end) tt ;;
  Ret (match r with inr e => e | inl _ => None end).

Definition processMount (fuel : nat) : MntInterface :=
  {| m_JMount := fun _ s => e <- Process_JMount fuel s ;; Ret (s, e);
     m_JCreateVolume := Process_JCreateVolume fuel;
     m_JDeleteVolume := Process_JDeleteVolume fuel;
     m_GetMountRef := fun target _ => Process_GetMountRef target;
     m_UmountTarget := fun _ _ => Ret None;
     m_JUmount := fun target _ => Process_JUmount target;
     m_AddRefOfMount := fun _ _ => panic "implement me";
     m_CleanCache := fun _ uuid _ cacheDirs => Process_CleanCache uuid cacheDirs |}.

(** The pod mounter of PodMount. *)
Definition podMount `{Globals} `{Retry} `{QuantityParser} `{SettingCodec} (fuel : nat) : MntInterface :=
  {| m_JMount := JMount fuel; m_JCreateVolume := JCreateVolume fuel; m_JDeleteVolume := JDeleteVolume fuel;
     m_GetMountRef := fun _ podName => GetMountRef podName;
     m_UmountTarget := UmountTarget fuel;
     m_JUmount := fun _ podName => JUmount podName;
     m_AddRefOfMount := AddRefOfMount;
     m_CleanCache := PodMount_CleanCache fuel |}.
