(* ===== verification/Juicefs.v ===== *)
(** * pkg/juicefs/juicefs.go: the provider

    The operations the CSI services call: parsing the settings of a volume
    (with the format or auth command), mounting, binding targets, unmounting,
    deleting volumes, quotas.  A Go map that a callee changes ([secrets],
    [volCtx]) is returned next to the result.  [UUIDMaps] and [CacheDirMaps]
    are behind the commands [CacheInfo*], under the provider's mutex. *)
From S2P Require Import Prelude.
From S2P Require Import GoStrings.
From S2P Require Import K8s.
From S2P Require Import Prog.
From S2P Require Import Effects.
From S2P Require Import Config.
From S2P Require Import Util.
From S2P Require Import MountRefs.
From S2P Require Import Setting.
From S2P Require Import JfsSetting.
From S2P Require Import Builder.
From S2P Require Import PodMount.
From S2P Require Import ProcessMount.
From Stdlib Require Import Ascii.
#[local] Open Scope Z_scope.
#[local] Open Scope go_scope.

Definition fsTypeNone : string := "none".

(** ** Client versions *)

Record clientVersion := { Major : Z; Minor : Z; Patch : Z; Tag : string }.

Definition one_line_text (s : string) : bool :=
  all_chars (fun c => negb (bool_decide (c = "010"%char))) s.

(** The optional group [(?:[+-](.+))?] at the end of the version. *)
Definition version_tag (rest : string) : option string :=
  match rest with
  | EmptyString => Some ""
  | String c t =>
      if (bool_decide (c = "+"%char) || bool_decide (c = "-"%char)) &&
         negb (bool_decide (t = "")) && one_line_text t
      then Some t else None
  end.

(** A non-empty run of digits and the character after it. *)
Definition digits_then (c : ascii) (s : string) : option (string * string) :=
  match span_digits s with
  | (EmptyString, _) => None
  | (d, String c' rest) => if bool_decide (c' = c) then Some (d, rest) else None
  | _ => None
  end.

(** The submatches of the pattern: three digit groups and the tag. *)
Definition match_version (s : string) : option (string * string * string * string) :=
  '(major, s) ← digits_then "." s;
  '(minor, s) ← digits_then "." s;
  match span_digits s with
  | (EmptyString, _) => None
  | (patch, rest) => tag ← version_tag rest; Some (major, minor, patch, tag)
  end.

Definition parseVersion (version : string) : res clientVersion :=
  match match_version (TrimSpace version) with
  | None => Err (Errorf ("invalid version string: " +:+ version))
  | Some (m1, m2, m3, tag) =>
      match Atoi m1 with
      | None => Err (Errorf ("invalid major version: " +:+ m1))
      | Some major =>
          match Atoi m2 with
          | None => Err (Errorf ("invalid minor version: " +:+ m2))
          | Some minor =>
              match Atoi m3 with
              | None => Err (Errorf ("invalid patch version: " +:+ m3))
              | Some patch => Ok {| Major := major; Minor := minor; Patch := patch; Tag := tag |}
              end
          end
      end
  end.

Definition parseRawVersion (rawVersion : string) : res clientVersion :=
  match Split rawVersion " " with
  | _ :: _ :: v :: _ => parseVersion v
  | _ => Err (Errorf ("invalid version string: " +:+ rawVersion))
  end.

Definition version_String (v : clientVersion) : string :=
  pretty (Major v) +:+ "." +:+ pretty (Minor v) +:+ "." +:+ pretty (Patch v) +:+
  (if bool_decide (Tag v = "") then "" else "-" +:+ Tag v).

Definition Approximate (v other : clientVersion) : bool :=
  (Major v =? Major other) && (Minor v =? Minor other) && (Patch v =? Patch other).

Definition LessThan (v other : clientVersion) : bool :=
  if Major v <? Major other then true
  else if Major other <? Major v then false
  else if Minor v <? Minor other then true
  else if Minor other <? Minor v then false
  else Patch v <? Patch other.

(** ** A mounted file system: [jfs] *)

Record Jfs := {
  fs_Name : string;
  fs_MountPath : string;
  fs_Options : list string;
  fs_Setting : JfsSetting;
}.

Definition CreateVol (fs : Jfs) (subPath : string) : M (res string) :=
  let volPath := path_Join [fs_MountPath fs; subPath] in
  make_volume volPath ?;;; Ret (Ok volPath).

(** [&mi.Minor] is the address of the loop variable: after the loop it holds
    the minor of the last mount, whatever the entry that matched. *)
Definition mount_minor (mountPath : string) (infos : list MountInfo) : option Z :=
  mi_minor <$> find_last (fun mi => bool_decide (mi_mountPoint mi = mountPath)) infos.
Definition target_minor (target : string) (infos : list MountInfo) : option Z :=
  if existsb (fun mi => bool_decide (mi_mountPoint mi = target)) infos
  then mi_minor <$> last infos else None.

Definition bind_mount (bindSource target : string) : M (option error) :=
  e <- sys (Mount bindSource target fsTypeNone ["bind"]) ;;
  match e with
  | None => Ret None
  | Some e => sys (RemoveFile target) ;;; Ret (Some e)
  end.

Definition BindTarget (fs : Jfs) (bindSource target : string) : M (option error) :=
  mountInfos <-! sys ParseMountInfo ;;
  match mount_minor (fs_MountPath fs) mountInfos with
  | None => Ret (Some (Errorf ("BindTarget: mountPath " +:+ fs_MountPath fs +:+ " not mounted")))
  | Some mountMinor =>
      match target_minor target mountInfos with
      | Some targetMinor =>
          if targetMinor =? mountMinor then Ret None
          else UmountPath target ;;; bind_mount bindSource target
      | None => bind_mount bindSource target
      end
  end.

(** ** Targets and options *)

Section provider.
Context `{Globals} `{Retry} `{QuantityParser} `{SettingCodec}.

(** The kubelet directory mounted in the CSI pod; dereferencing the host path
    of another kind of volume panics. *)
Definition kubelet_dir : option string :=
  match List.find (fun v => bool_decide (v_name v = "kubelet-dir")) (Volumes (p_spec g_CSIPod)) with
  | None => Some "/var/lib/kubelet"
  | Some v => match v_source v with HostPath p _ => Some p | _ => None end
  end.

Definition illegal_access (target : string) : bool :=
  Contains target "../" || Contains target "/.." || Contains target ".." ||
  Contains target "./" || Contains target "/.".

Definition validTarget (target : string) : M (option error) :=
  if illegal_access target
  then Ret (Some (Errorf ("Path " +:+ target +:+ " has illegal access.")))
  else if g_ByProcess then Ret None
  else
    match kubelet_dir with
    | None => panic "nil pointer dereference"
    | Some kubeletDir =>
        let dir := default "" (head (Split target "/pods/")) in
        if bool_decide (kubeletDir = dir) then Ret None
        else Ret (Some (Errorf ("target kubelet rootdir " +:+ dir +:+
                                " is not equal csi mounted kubelet root-dir " +:+ kubeletDir)))
    end.

Definition DefaultMountPodMemLimit : string := "5Gi".

(** The option as it is passed on. *)
Definition normal_option (option : string) : string :=
  match Split (TrimSpace option) "=" with
  | [k; v] => TrimSpace k +:+ "=" +:+ TrimSpace v
  | _ => TrimSpace option
  end.

(** [buffer-size] must fit the memory limit of the mount pod. *)
Definition check_buffer_size (value mountOption : string) (volCtx : smap) : option error :=
  let rs := overwrite_str DefaultMountPodMemLimit (sget volCtx MountPodMemLimitKey) in
  match ParseQuantity rs with
  | None => Some (Errorf ("invalid memory limit: " +:+ sget volCtx MountPodMemLimitKey))
  | Some memLimit =>
      match ParseToBytes value with
      | Err _ => Some (Errorf ("invalid mount option: " +:+ mountOption))
      | Ok bufferSize =>
          if QuantityValue memLimit mod 2 ^ 64 <? bufferSize
          then Some (Errorf ("buffer-size " +:+ value +:+ " MiB is greater than pod memory limit " +:+
                                QuantityString memLimit))
          else None
      end
  end.

Definition valid_option (volCtx : smap) (option : string) : res string :=
  let mountOption := normal_option option in
  match Split (TrimSpace option) "=" with
  | _ :: _ :: _ :: _ => Err (Errorf ("invalid mount option: " +:+ TrimSpace option))
  | [k; v] =>
      if bool_decide (k = "buffer-size")
      then match check_buffer_size v mountOption volCtx with
           | Some e => Err e
           | None => Ok mountOption
           end
      else Ok mountOption
  | _ => Ok mountOption
  end.

Fixpoint validOptions (options : list string) (volCtx : smap) : res (list string) :=
  match options with
  | [] => Ok []
  | o :: options' =>
      match valid_option volCtx o with
      | Err e => Err e
      | Ok o => res_map (cons o) (validOptions options' volCtx)
      end
  end.

(** ** Identities *)

Definition getUniqueId (volumeId : string) : M (res string) :=
  share <- sys (LookupEnv "STORAGE_CLASS_SHARE_MOUNT") ;;
  if bool_decide (share = Some "true") && negb g_ByProcess
  then
    r <- sys (GetPersistentVolume volumeId) ;;
    match r with
    | Ok pv => Ret (Ok (overwrite_str volumeId (pv_storageClassName pv)))
    | Err e => if IsNotFound e then Ret (Ok volumeId) else Ret (Err e)
    end
  else Ret (Ok volumeId).

Definition GetJfsVolUUID (name : string) : M (res string) :=
  let cmdCtx := WithTimeout Caller (8 * defaultCheckTimeout) in
  r <- sys (Exec cmdCtx CeCliPath ["status"; name] []) ;;
  match r with
  | (stdout, Some err) =>
      if Contains stdout "database is not formatted" then Ret (Ok "")
      else
        c <- sys (CtxErr cmdCtx) ;;
        match c with
        | Some DeadlineExceeded => Ret (Err (Errorf "juicefs status 16s timed out"))
        | _ => Ret (Err (Errorf (stdout +:+ ": " +:+ error_text err)))
        end
  | (stdout, None) =>
      match find_uuid stdout with
      | Some uuid => Ret (Ok uuid)
      | None => Ret (Err (Errorf ("get uuid of " +:+ name +:+ " error")))
      end
  end.

Definition GetSubPath (volumeID : string) : M (res string) :=
  if g_Provisioner
  then
    pv <-? sys (GetPersistentVolume volumeID) ;;
    match pv_csi pv with
    | None => panic "nil pointer dereference"
    | Some csi => Ret (Ok (sget (VolumeAttributes csi) "subPath"))
    end
  else Ret (Ok volumeID).

(** ** Commands of the client: arguments, and what is shown of them

    Each command has two forms: [args], to execute, and [cmdArgs], which goes
    into the mount pod and the log, where secrets are shell variables. *)

Definition nonempty_key (secrets : smap) (k : string) : bool := negb (bool_decide (sget secrets k = "")).

Definition flag (k v : string) : string := "--" +:+ k +:+ "=" +:+ v.
Definition shell_var (k : string) : string := "${" +:+ k +:+ "}".

(** Flags of the keys that are set, with their values. *)
Definition plain_flags (keys : list string) (secrets : smap) : list string :=
  map (fun k => flag k (EscapeBashStr (sget secrets k))) (filter (fun k => nonempty_key secrets k) keys).
(** The same with the variable [rename k] for the value. *)
Definition hidden_flags (rename : string -> string) (keys : list string) (secrets : smap) : list string :=
  map (fun k => flag k (shell_var (rename k))) (filter (fun k => nonempty_key secrets k) keys).

Definition auth_keys : list string := ["access-key"; "access-key2"; "bucket"; "bucket2"; "subdir"].
Definition auth_keysStripped : list string := ["token"; "secret-key"; "secret-key2"; "passphrase"].
Definition auth_rename (k : string) : string :=
  if bool_decide (k = "secret-key") then "secretkey"
  else if bool_decide (k = "secret-key2") then "secretkey2" else k.

Definition keysCompatible : smap :=
  <[ "accesskey" := "access-key" ]> (<[ "accesskey2" := "access-key2" ]>
    (<[ "secretkey" := "secret-key" ]> {[ "secretkey2" := "secret-key2" ]})).

(** The loop over [keysCompatible], in the order the runtime chose. *)
Definition transform_key (secrets : smap) (kv : string * string) : smap :=
  match secrets !! kv.1 with
  | Some value => delete kv.1 (<[ kv.2 := value ]> secrets)
  | None => secrets
  end.

(** With [JFS_NO_UPDATE_CONFIG] enabled: the flag, a bucket is required, and
    in process mode the client configuration is written if missing. *)
Definition no_update_config (secrets : smap) (setting : JfsSetting) : M (res (list string)) :=
  v <- sys (LookupEnv "JFS_NO_UPDATE_CONFIG") ;;
  if negb (bool_decide (v = Some "enabled")) then Ret (Ok [])
  else if bool_decide (sget secrets "bucket" = "")
  then Ret (Err (Errorf "bucket argument is required when --no-update option is provided"))
  else if g_ByProcess && nonempty_key secrets "initconfig"
  then
    let confPath := path_Join [ClientConfPath setting; sget secrets "name" +:+ ".conf"] in
    st <- sys (Stat confPath) ;;
    match st with
    | Err e =>
        if IsNotExist e
        then
          w <- sys (WriteFile confPath (sget secrets "initconfig")) ;;
          match w with
          | Some e => Ret (Err (Errorf ("create config file " +:+ confPath +:+ " failed: " +:+ error_text e)))
          | None => Ret (Ok ["--no-update"])
          end
        else Ret (Ok ["--no-update"])
    | Ok _ => Ret (Ok ["--no-update"])
    end
  else Ret (Ok ["--no-update"]).

(** The flags of the format options, for [args] and for [cmdArgs]. *)
Definition format_flags (setting : JfsSetting) : res (list string * list string) :=
  if bool_decide (FormatOptions setting = "") then Ok ([], [])
  else match ParseFormatOptions (FormatOptions setting) with
       | Err e => Err (StatusError InvalidArgument ("Parse format options error: " +:+ error_text e))
       | Ok options => Ok (RepresentFormatOptions options, StripFormatOptions options ["session-token"])
       end.

Definition conf_flag (setting : JfsSetting) : list string :=
  if bool_decide (ClientConfPath setting = "") then [] else [flag "conf-dir" (ClientConfPath setting)].

(** The two argument lists of [auth], without the program. *)
Definition auth_args (secrets : smap) (noUpdate : list string) (fmt : list string) (setting : JfsSetting) : list string :=
  ["auth"; EscapeBashStr (sget secrets "name")] ++ plain_flags auth_keys secrets ++
  plain_flags auth_keysStripped secrets ++ noUpdate ++ fmt ++ conf_flag setting.
Definition auth_cmdArgs (secrets : smap) (noUpdate : list string) (fmt : list string) (setting : JfsSetting) : list string :=
  [CliPath; "auth"; EscapeBashStr (sget secrets "name")] ++ plain_flags auth_keys secrets ++
  hidden_flags auth_rename auth_keysStripped secrets ++ noUpdate ++ fmt ++ conf_flag setting.

Definition escaped_envs (envs : list (string * string)) : list string :=
  map (fun kv => EscapeBashStr kv.1 +:+ "=" +:+ EscapeBashStr kv.2) envs.

(** Run the client with a timeout of 16 seconds; [what] names the command. *)
Definition run_client (what prog : string) (args : list string) (envs : smap) (more : list string)
  : M (res string) :=
  let cmdCtx := WithTimeout Caller (8 * defaultCheckTimeout) in
  environ <- sys Environ ;;
  extra <- range_map envs ;;
  r <- sys (Exec cmdCtx prog args (environ ++ escaped_envs extra ++ more)) ;;
  match r with
  | (out, None) => Ret (Ok out)
  | (out, Some e) =>
      c <- sys (CtxErr cmdCtx) ;;
      match c with
      | Some DeadlineExceeded => Ret (Err (Errorf ("juicefs " +:+ what +:+ " 16s timed out")))
      | _ => Ret (Err (Errorf (out +:+ ": " +:+ error_text e)))
      end
  end.

(** [AuthFs]: the secrets after the call and the result: the command for the
    mount pod, or the output of the command. *)
Definition AuthFs (secrets : option smap) (setting : JfsSetting) (force : bool)
  : M (option smap * res string) :=
  match secrets with
  | None => Ret (None, Err (StatusError InvalidArgument "Nil secrets"))
  | Some secrets =>
      if bool_decide (sget secrets "name" = "")
      then Ret (Some secrets, Err (StatusError InvalidArgument "Empty name"))
      else
        order <- range_map keysCompatible ;;
        let secrets := foldl transform_key secrets order in
        r <- (noUpdate <-? no_update_config secrets setting ;;
              match format_flags setting with
              | Err e => Ret (Err e)
              | Ok (fmt, stripped) =>
                  if negb force && negb g_ByProcess
                  then Ret (Ok (Join (auth_cmdArgs secrets noUpdate stripped setting) " "))
                  else run_client "auth" CliPath (auth_args secrets noUpdate fmt setting) (Envs setting)
                         ["JFS_NO_CHECK_OBJECT_STORAGE=1"]
              end) ;;
        Ret (Some secrets, r)
  end.

Definition format_keys : list string :=
  ["storage"; "bucket"; "access-key"; "block-size"; "compress"; "trash-days"; "capacity"; "inodes"; "shards"].

Definition ceFormat (secrets : option smap) (noUpdate : bool) (setting : JfsSetting) : M (res string) :=
  match secrets with
  | None => Ret (Err (StatusError InvalidArgument "Nil secrets"))
  | Some secrets =>
      if bool_decide (sget secrets "name" = "") then Ret (Err (StatusError InvalidArgument "Empty name"))
      else if bool_decide (sget secrets "metaurl" = "")
      then Ret (Err (StatusError InvalidArgument "Empty metaurl"))
      else
        match format_flags setting with
        | Err e => Ret (Err e)
        | Ok (fmt, stripped) =>
            let noUpd := if noUpdate then ["--no-update"] else [] in
            if negb g_ByProcess
            then Ret (Ok (Join ([CeCliPath; "format"] ++ noUpd ++ plain_flags format_keys secrets ++
                                hidden_flags (fun _ => "secretkey") ["secret-key"] secrets ++
                                ["${metaurl}"; sget secrets "name"] ++ stripped) " "))
            else
              run_client "format" CeCliPath
                (["format"] ++ noUpd ++ plain_flags format_keys secrets ++
                 plain_flags ["secret-key"] secrets ++
                 [EscapeBashStr (sget secrets "metaurl"); EscapeBashStr (sget secrets "name")] ++ fmt)
                (Envs setting)
                (if bool_decide (sget secrets "storage" = "ceph" \/ sget secrets "storage" = "gs")
                 then ["JFS_NO_CHECK_OBJECT_STORAGE=1"] else [])
        end
  end.

(** ** Version, quota, status *)

Definition version (jfsSetting : JfsSetting) : M (res clientVersion) :=
  r <- sys (Exec Caller (if IsCe jfsSetting then CeCliPath else CliPath) ["version"] []) ;;
  Ret (match r with
       | (out, Some e) => Err (Errorf (out +:+ ": " +:+ error_text e))
       | (out, None) => parseRawVersion out
       end).

Definition wrapSetQuotaErr (out : string) (err : option error) : option error :=
  match err with
  | None => None
  | Some e =>
      if Contains out "invalid command: quota" || Contains out "No help topic for 'quota'" then None
      else Some (Errorf (out +:+ ": " +:+ error_text e))
  end.
Definition wrapStatusErr (out : string) (err : option error) : option error :=
  match err with
  | None => None
  | Some e =>
      if Contains out "database is not formatted" then None
      else Some (Errorf (out +:+ ": " +:+ error_text e))
  end.

(** Whole GiB, by Go's truncated division. *)
Definition quota_GiB (capacity : Z) : Z := Z.quot (Z.quot (Z.quot capacity 1024) 1024) 1024.

Definition quota_args (fs quotaPath : string) (cap : Z) : list string :=
  ["quota"; "set"; fs; "--path"; quotaPath; "--capacity"; pretty cap].

Definition SetQuota (secrets : option smap) (jfsSetting : JfsSetting) (quotaPath : string) (capacity : Z)
  : M (option smap * option error) :=
  let cap := quota_GiB capacity in
  if cap <=? 0
  then Ret (secrets, Some (Errorf ("capacity " +:+ pretty capacity +:+
                                   " is too small, at least 1GiB for quota")))
  else
    let cmdCtx := WithTimeout Caller (2 * defaultCheckTimeout) in
    let fs := sget (nil_map secrets) (if IsCe jfsSetting then "metaurl" else "name") in
    let args := quota_args fs quotaPath cap in
    environ <- sys Environ ;;
    extra <- range_map (Envs jfsSetting) ;;
    let envs := environ ++ escaped_envs extra in
    if negb (IsCe jfsSetting)
    then
      a <- AuthFs secrets jfsSetting true ;;
      match a with
      | (secrets, Err e) => Ret (secrets, Some (Errorf (": " +:+ error_text e)))
      | (secrets, Ok _) =>
          r <- sys (Exec cmdCtx CliPath args envs) ;;
          Ret (secrets, wrapSetQuotaErr r.1 r.2)
      end
    else
      let quotaCmd := (r <- sys (Exec Background CeCliPath args envs) ;; Ret (wrapSetQuotaErr r.1 r.2)) in
      d <- sys (AwaitDone cmdCtx) ;;
      match d with
      | Some _ => go quotaCmd ;;; Ret (secrets, None)
      | None => e <- quotaCmd ;; Ret (secrets, e)
      end.

Definition Status (metaUrl : string) : M (option error) :=
  let cmdCtx := WithTimeout Caller (2 * defaultCheckTimeout) in
  let statusCmd := (r <- sys (Exec Background CeCliPath ["status"; metaUrl] []) ;;
                    Ret (wrapStatusErr r.1 r.2)) in
  d <- sys (AwaitDone cmdCtx) ;;
  match d with
  | Some _ => go statusCmd ;;; Ret (Some (Errorf "juicefs status 4s timed out"))
  | None => statusCmd
  end.

(** ** Settings *)

(** A non-nil client: the driver has one unless it mounts by itself
    ([NewDriver]). *)
Definition has_client : bool := negb g_ByProcess.

(** The PV of the volume and, through its claim, the PVC; a PV without a claim
    reference panics. *)
Definition volume_objects (client : bool) (volumeID : string)
  : M (option PersistentVolume * option PersistentVolumeClaim) :=
  if client
  then
    r <- sys (GetPersistentVolume volumeID) ;;
    match r with
    | Err _ => Ret (None, None)
    | Ok pv =>
        match pv_claimRef pv with
        | None => panic "nil pointer dereference"
        | Some (n, ns) =>
            c <- sys (GetPersistentVolumeClaim n ns) ;;
            Ret (Some pv, match c with Ok pvc => Some pvc | Err _ => None end)
        end
    end
  else Ret (None, None).

(** The annotations of the PVC that start with [juicefs] overwrite the volume
    context, the caller's map when it has one. *)
Definition overlay (pvc : option PersistentVolumeClaim) (volCtx : option smap) : option smap :=
  match pvc with
  | None => volCtx
  | Some pvc =>
      Some (filter (fun kv => HasPrefix kv.1 "juicefs" = true) (nil_map (Annotations (pvc_meta pvc)))
            ∪ nil_map volCtx)
  end.

Definition with_source_identity (uuid initConfig : string) (s : JfsSetting) : JfsSetting :=
  with_InitConfig initConfig (with_identity (VolumeId s) (js_UniqueId s) uuid s).

(** The secrets and the volume context as the caller sees them afterwards: a
    nil map stays nil. *)
Definition caller_map (before after : option smap) : option smap :=
  match before with None => None | Some _ => after end.

(** The format or auth command of the setting. *)
Definition client_command (secrets : option smap) (s : JfsSetting) : M (option smap * res JfsSetting) :=
  if negb (IsCe s)
  then
    let finish secrets s :=
      (secrets, Ok (with_source_identity (sget (nil_map secrets) "name") (sget (nil_map secrets) "initconfig") s)) in
    if bool_decide (sget (nil_map secrets) "token" = "") then Ret (finish secrets s)
    else
      a <- AuthFs secrets s false ;;
      Ret match a with
          | (secrets, Err e) => (secrets, Err (Errorf ("juicefs auth error: " +:+ error_text e)))
          | (secrets, Ok cmd) => finish secrets (with_FormatCmd cmd s)
          end
  else
    let noUpdate := bool_decide (sget (nil_map secrets) "storage" = "") ||
                    bool_decide (sget (nil_map secrets) "bucket" = "") in
    r <- ceFormat secrets noUpdate s ;;
    Ret (secrets, match r with
                  | Err e => Err (Errorf ("juicefs format error: " +:+ error_text e))
                  | Ok cmd => Ok (with_FormatCmd cmd s)
                  end).

(** [client]: the provider has a Kubernetes client. *)
Definition Settings_by (client : bool) (volumeID : string) (secrets volCtx : option smap) (options : list string)
  : M (option smap * option smap * res JfsSetting) :=
  match validOptions options (nil_map volCtx) with
  | Err e => Ret (secrets, volCtx, Err e)
  | Ok mountOptions =>
      vo <- volume_objects client volumeID ;;
      let volCtx' := overlay vo.2 volCtx in
      match ParseSetting secrets volCtx' mountOptions (negb g_ByProcess) vo.1 vo.2 with
      | Err e => Ret (secrets, caller_map volCtx volCtx', Err e)
      | Ok s =>
          r <- client_command secrets (with_identity volumeID (js_UniqueId s) (UUID s) s) ;;
          Ret (r.1, caller_map volCtx volCtx', r.2)
      end
  end.
Definition Settings := Settings_by has_client.

(** With clean-cache, the uuid of the volume; in process mode it is kept for
    the unmount. *)
Definition set_cache_uuid (uniqueId : string) (s : JfsSetting) : M (res JfsSetting) :=
  if negb (js_CleanCache s) then Ret (Ok s)
  else
    uuid <-? (if IsCe s then GetJfsVolUUID (Source s) else Ret (Ok (js_Name s))) ;;
    (if g_ByProcess
     then provider_locked (sys (CacheInfoStore uniqueId uuid (CacheDirs s)) ;;; Ret tt)
     else Ret tt) ;;;
    Ret (Ok (with_identity (VolumeId s) uniqueId uuid s)).

Definition genJfsSettings (volumeID target : string) (secrets volCtx : option smap) (options : list string)
  : M (option smap * option smap * res JfsSetting) :=
  r <- Settings volumeID secrets volCtx options ;;
  match r with
  | (secrets, volCtx, Err e) => Ret (secrets, volCtx, Err e)
  | (secrets, volCtx, Ok s) =>
      s <- (uniqueId <-? getUniqueId volumeID ;;
            set_cache_uuid uniqueId
              (with_identity (VolumeId s) uniqueId (UUID s) (with_paths target (SubPath s) s))) ;;
      Ret (secrets, volCtx, s)
  end.

(** ** Mounting and unmounting *)

Context (fuel : nat).

Definition mounter (usePod : bool) : MntInterface :=
  if usePod then podMount fuel else processMount fuel.

Definition MountFs (appInfo : option AppInfo) (s : JfsSetting) : M (JfsSetting * res string) :=
  let base := if UsePod s then PodMountBase else MountBase in
  let s := with_MountPath (path_Join [base; js_UniqueId s]) s in
  r <- m_JMount (mounter (UsePod s)) appInfo s ;;
  match r with
  | (s, Some e) => Ret (s, Err e)
  | (s, None) =>
      match StripPasswd (Source s) with
      | None => panic "slice bounds out of range"
      | Some _ => Ret (s, Ok (MountPath s))
      end
  end.

Definition JfsMount (volumeID target : string) (secrets volCtx : option smap) (options : list string)
  : M (option smap * option smap * res Jfs) :=
  v <- validTarget target ;;
  match v with
  | Some e => Ret (secrets, volCtx, Err e)
  | None =>
      r <- genJfsSettings volumeID target secrets volCtx options ;;
      match r with
      | (secrets, volCtx, Err e) => Ret (secrets, volCtx, Err e)
      | (secrets, volCtx, Ok s) =>
          fs <- (appInfo <-? ParseAppInfo volCtx ;;
                 m <- MountFs appInfo s ;;
                 Ret match m with
                     | (_, Err e) => Err e
                     | (s, Ok mountPath) =>
                         Ok {| fs_Name := sget (nil_map secrets) "name"; fs_MountPath := mountPath;
                               fs_Options := options; fs_Setting := s |}
                     end) ;;
          Ret (secrets, volCtx, fs)
      end
  end.

(** The unmount of process mode: with the last reference goes the cache, in
    the background, when it is known. *)
Definition clean_after_unmount (uniqueId : string) : M unit :=
  provider_locked
    (info <- sys (CacheInfoLoad uniqueId) ;;
     if bool_decide (info.1 = "") && bool_decide (info.2 = []) then Ret tt
     else
       sys (CacheInfoDelete uniqueId) ;;;
       go (m_CleanCache (processMount fuel) "" info.1 uniqueId info.2)).

Definition process_unmount (uniqueId mountPath : string) : M (option error) :=
  ref <- m_GetMountRef (processMount fuel) mountPath "" ;;
  err <- m_JUmount (processMount fuel) mountPath "" ;;
  (match ref with
   | Ok 1%nat => clean_after_unmount uniqueId
   | _ => Ret tt
   end) ;;;
  Ret err.

(** The mount pods of the volume on this node: the one of the old naming
    scheme first. *)
Definition unique_id_selector (uniqueId : string) : ListSelector :=
  {| sel_labels := <[ PodTypeKey := PodTypeValue ]> {[ PodUniqueIdLabelKey := uniqueId ]};
     sel_exists := []; sel_fields := {[ "spec.nodeName" := g_NodeName ]} |}.

Definition mount_pods (uniqueId : string) : M (res (list Pod)) :=
  oldPodName <- GenPodNameByUniqueId uniqueId false ;;
  r <- sys (GetPod Caller oldPodName g_Namespace) ;;
  match r with
  | Err e =>
      if IsNotFound e then sys (ListPod g_Namespace (unique_id_selector uniqueId)) else Ret (Err e)
  | Ok pod =>
      pods <-? sys (ListPod g_Namespace (unique_id_selector uniqueId)) ;; Ret (Ok (pod :: pods))
  end.

(** The name of the first pod that refers to the target, or the empty name. *)
Definition pod_of_target (mountPath : string) (pods : list Pod) : string :=
  match List.find (fun po => bool_decide (is_Some (pod_annotations po !! GetReferenceKey mountPath))) pods with
  | Some po => pod_name po
  | None => ""
  end.

Definition pod_unmount (uniqueId mountPath : string) : M (option error) :=
  pods <-! mount_pods uniqueId ;;
  let podName := pod_of_target mountPath pods in
  let mnt := podMount fuel in
  locked podName
    (m_UmountTarget mnt mountPath podName ?;;
     (if bool_decide (podName = "") then Ret None
      else
        refs <-! m_GetMountRef mnt mountPath podName ;;
        if Nat.eqb refs 0 then m_JUmount mnt mountPath podName else Ret None)).

Definition JfsUnmount (volumeId mountPath : string) : M (option error) :=
  uniqueId <-! getUniqueId volumeId ;;
  if g_ByProcess then process_unmount uniqueId mountPath else pod_unmount uniqueId mountPath.

Definition create_target_step (target : string) (u : unit) : M (unit + option error) :=
  r <- check_timeout (sys (PathExists target)) ;;
  match r with
  | Ok _ => e <- sys (MkdirAll target mode_0755) ;; Ret (inr e)
  | Err e => if IsCorruptedMnt e then UmountPath target ;;; Ret (inl tt) else Ret (inr (Some e))
  end.
Definition CreateTarget (target : string) : M (option error) := loop fuel (create_target_step target) tt.

Definition JfsCleanupMountPoint (mountPath : string) : M (option error) :=
  DoWithTimeoutE Caller (2 * defaultCheckTimeout) (sys (CleanupMountPoint mountPath)).

(** ** Creating and deleting volumes *)

Definition tmp_setting (subPath : string) (s : JfsSetting) : JfsSetting :=
  with_MountPath (path_Join [TmpPodMountBase; VolumeId s]) (with_paths (TargetPath s) subPath s).

Definition JfsCreateVol (volumeID subPath : string) (secrets volCtx : option smap)
  : M (option smap * option error) :=
  r <- genJfsSettings volumeID "" secrets volCtx [] ;;
  match r with
  | (secrets, _, Err e) => Ret (secrets, Some e)
  | (secrets, _, Ok s) =>
      e <- m_JCreateVolume (mounter (negb g_ByProcess)) (tmp_setting subPath s) ;; Ret (secrets, e)
  end.

(** In pod mode the volume context and the options are those of the PV. *)
Definition delete_source (volumeID : string) (volCtx : option smap) (options : list string)
  : M (res (option smap * list string)) :=
  if g_ByProcess then Ret (Ok (volCtx, options))
  else
    pv <-? sys (GetPersistentVolume volumeID) ;;
    match pv_csi pv with
    | None => panic "nil pointer dereference"
    | Some csi => Ret (Ok (Some (VolumeAttributes csi), pv_mountOptions pv))
    end.

Definition JfsDeleteVol (volumeID subPath : string) (secrets volCtx : option smap) (options : list string)
  : M (option smap * option error) :=
  src <- delete_source volumeID volCtx options ;;
  match src with
  | Err e => Ret (secrets, Some e)
  | Ok (volCtx, options) =>
      r <- genJfsSettings volumeID "" secrets volCtx options ;;
      match r with
      | (secrets, _, Err e) => Ret (secrets, Some e)
      | (secrets, _, Ok s) =>
          let s := tmp_setting subPath s in
          e <- (m_JDeleteVolume (mounter (negb g_ByProcess)) s ?;; JfsCleanupMountPoint (MountPath s)) ;;
          Ret (secrets, e)
      end
  end.
End provider.
