(* ===== verification/Sidecar.v ===== *)
(** * pkg/juicefs/mount/builder: side cars

    The four builders of the mount container that the webhook injects into an
    app pod ([container.go], [serverless.go], [cci-serverless.go],
    [vci-serverless.go]) as values of [SidecarInterface] ([interface.go]).  A
    builder is its setting and its capacity; the CCI and VCI builders also
    know the app pod and the claim. *)
From S2P Require Import Prelude.
From S2P Require Import GoStrings.
From S2P Require Import K8s.
From S2P Require Import Prog.
From S2P Require Import Effects.
From S2P Require Import Config.
From S2P Require Import Util.
From S2P Require Import Setting.
From S2P Require Import JfsSetting.
From S2P Require Import Builder.
#[local] Open Scope Z_scope.
#[local] Open Scope go_scope.

Definition checkMountScriptPath : string := "/" +:+ checkMountScriptName.

(** [NewSecret] does not depend on the builder, and comes first; the pod comes
    with the setting as the builder changed it. *)
Record SidecarInterface := {
  NewMountSidecar : M (Pod * JfsSetting);
  si_NewSecret : Secret;
  OverwriteVolumes : Volume -> string -> Volume;
  OverwriteVolumeMounts : VolumeMount -> VolumeMount;
}.

(** [json.Marshal] and [json.Unmarshal] of Kubernetes on the list of
    [VCIPropagationStruct]: container and mount path. *)
Class PropagationCodec := {
  marshal_propagations : list (string * string) -> string;
  unmarshal_propagations : string -> option (list (string * string));
  unmarshal_marshal l : unmarshal_propagations (marshal_propagations l) = Some l;
}.

Section sidecars.
Context `{Globals} `{QuantityParser} `{SettingCodec}.

(** ** Shared by the builders *)

(** The post-start hook: wait for the mount, set the quota. *)
Definition check_mount_command (s : JfsSetting) (capacity : Z) : list string :=
  ["bash"; "-c";
   "time subpath=" +:+ EscapeBashStr (SubPath s) +:+ " name=" +:+ EscapeBashStr (js_Name s) +:+
   " capacity=" +:+ pretty capacity +:+ " community=" +:+ (if IsCe s then "ce" else "ee") +:+
   " quotaPath=" +:+ EscapeBashStr (getQuotaPath s) +:+ " " +:+ checkMountScriptPath +:+ " '" +:+
   EscapeBashStr (MountPath s) +:+ "' >> /proc/1/fd/1"].

Definition with_check_mount (s : JfsSetting) (capacity : Z) (c : Container) : Container :=
  with_lifecycle (post_start (check_mount_command s capacity) <$> c_lifecycle c) c.

Definition check_mount_volume (s : JfsSetting) : Volume * VolumeMount :=
  ({| v_name := "jfs-check-mount"; v_source := SecretVolume (SecretName s) [] (Some 493) |},
   {| vm_name := "jfs-check-mount"; vm_path := checkMountScriptPath; vm_subPath := checkMountScriptName;
      vm_readOnly := false; vm_propagation := None |}).

(** No annotation and no label. *)
Definition bare_meta (m : ObjectMeta) : ObjectMeta := with_labels (Some ∅) (with_annotations (Some ∅) m).

(** The command of the serverless builders, which always join. *)
Definition serverless_script (s : JfsSetting) : string :=
  Join [genInitCommand s; genMountCommand s (attr_of s)] newline.

Definition with_script (script : string) : PodSpec -> PodSpec := update_first (with_command ["sh"; "-c"; script]).

Definition host_mount (mountPath : string) : VolumeSource := HostPath (path_Join [g_MountPointPath; mountPath]) None.
Definition with_source (src : VolumeSource) (v : Volume) : Volume := {| v_name := v_name v; v_source := src |}.
Definition with_propagation (p : string) (vm : VolumeMount) : VolumeMount :=
  {| vm_name := vm_name vm; vm_path := vm_path vm; vm_subPath := vm_subPath vm;
     vm_readOnly := vm_readOnly vm; vm_propagation := Some p |}.

(** ** container.go *)

Definition Container_NewMountSidecar (s : JfsSetting) (capacity : Z) : M (Pod * JfsSetting) :=
  p <- NewMountPod s "" ;;
  let '(pod, s) := p in
  let spec := add_volumes [check_mount_volume s] (p_spec pod) in
  let spec := update_first (with_check_mount s capacity) spec in
  let s := overwriteSubdirWithSubPath s in
  Ret ({| p_meta := bare_meta (p_meta pod); p_spec := with_script (mount_script s) spec;
          p_status := p_status pod |}, s).

Definition NewContainerBuilder (s : JfsSetting) (capacity : Z) : SidecarInterface :=
  {| NewMountSidecar := Container_NewMountSidecar s capacity; si_NewSecret := NewSecret s;
     OverwriteVolumes := fun v mountPath => with_source (host_mount mountPath) v;
     OverwriteVolumeMounts := fun vm => vm |}.

(** ** serverless.go *)

(** The cache volumes of the serverless builders: no host directories. *)
Definition serverless_cache_volumes (s : JfsSetting) : list (Volume * VolumeMount) :=
  imap (fun i cache =>
          let name := "cachedir-pvc-" +:+ pretty (i : nat) in
          ({| v_name := name; v_source := PVCVolume (PVCName cache) false |},
           mount_at name (pvc_Path cache))) (CachePVCs s) ++
  match js_CacheEmptyDir s with
  | None => []
  | Some ed => [({| v_name := "cachedir-empty-dir"; v_source := EmptyDir (Medium ed) (Some (SizeLimit ed)) |},
                 mount_at "cachedir-empty-dir" (ed_Path ed))]
  end ++
  imap (fun i iv =>
          let name := "cachedir-inline-volume-" +:+ pretty (i : nat) in
          ({| v_name := name; v_source := CSIVolume (iv_CSI iv) |},
           mount_at name (iv_Path iv))) (CacheInlineVolumes s).

Definition genServerlessVolumes (s : JfsSetting) : list (Volume * VolumeMount) :=
  [({| v_name := JfsDirName; v_source := HostPath g_MountPointPath (Some DirectoryOrCreate) |},
    {| vm_name := JfsDirName; vm_path := PodMountBase; vm_subPath := ""; vm_readOnly := false;
       vm_propagation := Some Bidirectional |});
   check_mount_volume s].

(** What the serverless builders do after the common pod: the hook, the
    environment, the volumes, the command. *)
Definition finish_sidecar (s : JfsSetting) (capacity : Z)
    (env : list (string * string) -> list (string * string)) (vols : list Volume)
    (mounts : list VolumeMount) (spec : PodSpec) : PodSpec * JfsSetting :=
  let spec := update_first (fun c => with_check_mount s capacity (with_env (env (c_env c)) c)) spec in
  let spec := update_first (fun c => with_volumeMounts (c_volumeMounts c ++ mounts) c)
                (with_volumes (Volumes spec ++ vols) spec) in
  let spec := add_volumes (serverless_cache_volumes s) spec in
  let s := overwriteSubdirWithSubPath s in
  (with_script (serverless_script s) spec, s).

Definition Serverless_NewMountSidecar (s : JfsSetting) (capacity : Z) : M (Pod * JfsSetting) :=
  p <- genCommonJuicePod s genCommonContainer ;;
  let '(pod, s) := p in
  let vols := genServerlessVolumes s in
  let '(spec, s) := finish_sidecar s capacity (fun _ => [("JFS_FOREGROUND", "1")]) vols.*1 vols.*2 (p_spec pod) in
  Ret ({| p_meta := bare_meta (p_meta pod); p_spec := spec; p_status := p_status pod |}, s).

Definition NewServerlessBuilder (s : JfsSetting) (capacity : Z) : SidecarInterface :=
  {| NewMountSidecar := Serverless_NewMountSidecar s capacity; si_NewSecret := NewSecret s;
     OverwriteVolumes := fun v mountPath => with_source (host_mount mountPath) v;
     OverwriteVolumeMounts := fun vm => vm |}.

(** ** cci-serverless.go and vci-serverless.go *)

(** The containers of the two builders differ in their capabilities only. *)
Definition genNonPrivilegedContainer (capabilities : list string) (s : JfsSetting) : Container :=
  {| c_name := MountContainerName; c_image := a_Image (attr_of s); c_command := [];
     c_env := [(JfsInsideContainer, "1")]; c_envFrom := []; c_resources := no_resources;
     c_volumeMounts := []; c_ports := []; c_lifecycle := None; c_livenessProbe := None;
     c_readinessProbe := None; c_startupProbe := None; c_privileged := false; c_capabilities := capabilities |}.

Definition CCIANNOKey : string := "virtual-kubelet.io/burst-to-cci".
Definition CCIANNOValue : string := "enforce".
Definition CCIDriverName : string := "juicefs.csi.everest.io".
Definition CCIDriverType : string := "gpath".

Definition CCI_NewMountSidecar (s : JfsSetting) (capacity : Z) : M (Pod * JfsSetting) :=
  p <- genCommonJuicePod s (genNonPrivilegedContainer ["SYS_ADMIN"; "MKNOD"]) ;;
  let '(pod, s) := p in
  let '(spec, s) := finish_sidecar s capacity
    (fun env => env ++ [("JFS_NO_UMOUNT", "1"); ("JFS_FOREGROUND", "1");
                        ("JUICEFS_CLIENT_SIDERCAR_CONTAINER", "true"); ("JUICEFS_CLIENT_PATH", "/jfs")])
    [(check_mount_volume s).1] [(check_mount_volume s).2] (p_spec pod) in
  Ret ({| p_meta := p_meta pod; p_spec := spec; p_status := p_status pod |}, s).

Definition NewCCIBuilder (s : JfsSetting) (capacity : Z) : SidecarInterface :=
  {| NewMountSidecar := CCI_NewMountSidecar s capacity; si_NewSecret := NewSecret s;
     OverwriteVolumes := fun v mountPath =>
       with_source (InlineCSI CCIDriverName (Some CCIDriverType) {[ "mountpoint" := mountPath ]}) v;
     OverwriteVolumeMounts := with_propagation "None" |}.

Definition VCIANNOKey : string := "vke.volcengine.com/burst-to-vci".
Definition VCIANNOValue : string := "enforce".
Definition VCIPropagation : string := "vci.vke.volcengine.com/config-bidirectional-mount-propagation".
Definition VCIPropagationConfig : string := "vke.al.vci-enable-bidirectional-mount-propagation".
Definition VCIPropagationConfigValue : string := "vke.al.vci-enable-bidirectional-mount-propagation".

Section vci.
Context `{PropagationCodec} (app : Pod) (claim : PersistentVolumeClaim).

Definition genMountContainerName : string := MountContainerName +:+ "-" +:+ Name (pvc_meta claim).

(** The propagations of the app pod come after that of the side car; an
    annotation that does not decode is dropped. *)
Definition propagations (s : JfsSetting) : list (string * string) :=
  (genMountContainerName, MountPath s) ::
  match pod_annotations app !! VCIPropagation with
  | Some v => default [] (unmarshal_propagations v)
  | None => []
  end.

(** The volume of the app pod for the claim, the last one. *)
Definition sharedVolumeName : string :=
  foldl (fun name v => if bool_decide (v_pvc v = Some (Name (pvc_meta claim))) then v_name v else name) ""
    (Volumes (p_spec app)).

Definition with_container_name (n : string) (c : Container) : Container :=
  {| c_name := n; c_image := c_image c; c_command := c_command c; c_env := c_env c;
     c_envFrom := c_envFrom c; c_resources := c_resources c; c_volumeMounts := c_volumeMounts c;
     c_ports := c_ports c; c_lifecycle := c_lifecycle c; c_livenessProbe := c_livenessProbe c;
     c_readinessProbe := c_readinessProbe c; c_startupProbe := c_startupProbe c;
     c_privileged := c_privileged c; c_capabilities := c_capabilities c |}.

Definition VCI_NewMountSidecar (s : JfsSetting) (capacity : Z) : M (Pod * JfsSetting) :=
  p <- genCommonJuicePod s (genNonPrivilegedContainer []) ;;
  let '(pod, s) := p in
  let annotations := <[ VCIPropagation := marshal_propagations (propagations s) ]>
                       (<[ VCIPropagationConfig := VCIPropagationConfigValue ]> (pod_annotations pod)) in
  let '(spec, s) := finish_sidecar s capacity
    (fun env => env ++ [("JFS_NO_UMOUNT", "1"); ("JFS_FOREGROUND", "1")])
    [(check_mount_volume s).1] [mount_at sharedVolumeName (MountPath s); (check_mount_volume s).2]
    (update_first (with_container_name genMountContainerName) (p_spec pod)) in
  Ret ({| p_meta := with_annotations (Some annotations) (p_meta pod); p_spec := spec; p_status := p_status pod |}, s).

Definition NewVCIBuilder (s : JfsSetting) (capacity : Z) : SidecarInterface :=
  {| NewMountSidecar := VCI_NewMountSidecar s capacity; si_NewSecret := NewSecret s;
     OverwriteVolumes := fun v _ => with_source (EmptyDir "" None) v;
     OverwriteVolumeMounts := with_propagation "HostToContainer" |}.
End vci.
End sidecars.
