(* ===== verification/Webhook.v ===== *)
(** * pkg/webhook/handler: admission

    The side-car injection ([mutate/sidecar.go], [handler.go]) and the
    validation of secrets and PVs ([validator/secret.go], [handler.go]).  A
    handler takes the decoded object; decoding, and the patch computed from the
    mutated pod, are controller-runtime's. *)
From S2P Require Import Prelude.
From S2P Require Import GoStrings.
From S2P Require Import K8s.
From S2P Require Import Prog.
From S2P Require Import Effects.
From S2P Require Import Config.
From S2P Require Import Util.
From S2P Require Import PodUtil.
From S2P Require Import VolumeUtil.
From S2P Require Import Setting.
From S2P Require Import JfsSetting.
From S2P Require Import Builder.
From S2P Require Import PodMount.
From S2P Require Import Juicefs.
From S2P Require Import Sidecar.
#[local] Open Scope Z_scope.
#[local] Open Scope go_scope.

(** ** sidecar.go: names *)

(** Volumes all side cars of a pod share. *)
Definition shared_volume (name : string) : bool := bool_decide (name = UpdateDBDirName) || bool_decide (name = JfsDirName).

(** The name of the side car among the containers of the pod. *)
Definition dedup_container (containers : list Container) (index : nat) (name : string) : string :=
  foldl (fun name c => if bool_decide (c_name c = name) then c_name c +:+ "-" +:+ pretty index else name)
    name containers.

Definition rename_mount (name : string) (vm : VolumeMount) : VolumeMount :=
  {| vm_name := name; vm_path := vm_path vm; vm_subPath := vm_subPath vm; vm_readOnly := vm_readOnly vm;
     vm_propagation := vm_propagation vm |}.

(** One volume of the side car whose name the pod has too: it and its first
    mount get the name of the side car as a prefix.  Without a mount of that
    name the first mount is renamed; a side car always has one. *)
Definition dedup_volume (cn : string) (podVolumes : list string) (st : list Volume * list VolumeMount) (mv : Volume)
  : list Volume * list VolumeMount :=
  let '(done, mounts) := st in
  if shared_volume (v_name mv) || negb (bool_decide (v_name mv ∈ podVolumes)) then (done ++ [mv], mounts)
  else
    let mountIndex := match list_find (fun mm => vm_name mm = v_name mv) mounts with Some (j, _) => j | None => O end in
    let name := cn +:+ "-" +:+ v_name mv in
    (done ++ [{| v_name := name; v_source := v_source mv |}], alter (rename_mount name) mountIndex mounts).

Definition Deduplicate (pod mountPod : Pod) (index : nat) : Pod :=
  match Containers (p_spec mountPod) with
  | [] => mountPod
  | c :: cs =>
      let cn := dedup_container (Containers (p_spec pod)) index (c_name c) in
      let '(vols, mounts) := foldl (dedup_volume cn (map v_name (Volumes (p_spec pod)))) ([], c_volumeMounts c)
                               (Volumes (p_spec mountPod)) in
      let c := with_volumeMounts mounts (with_container_name cn c) in
      {| p_meta := p_meta mountPod; p_spec := with_volumes vols (with_containers (c :: cs) (p_spec mountPod));
         p_status := p_status mountPod |}
  end.

(** ** sidecar.go: injection *)

Definition map_spec (f : PodSpec -> PodSpec) (pod : Pod) : Pod :=
  {| p_meta := p_meta pod; p_spec := f (p_spec pod); p_status := p_status pod |}.

Definition injectContainer (c : Container) (pod : Pod) : Pod :=
  map_spec (fun spec => with_containers (c :: Containers spec) spec) pod.

(** The mounts of one volume, in all containers. *)
Definition overwrite_mounts (build : SidecarInterface) (cns : list Container) (volume : Volume) : list Container :=
  map (fun cn => with_volumeMounts
                   (map (fun vm => if bool_decide (vm_name vm = v_name volume) then OverwriteVolumeMounts build vm else vm)
                      (c_volumeMounts cn)) cn) cns.

Definition injectVolume (build : SidecarInterface) (volumes : list Volume) (mountPath pvcName : string) (pod : Pod) : Pod :=
  let podVolumes := map v_name (Volumes (p_spec pod)) in
  let mountedVolume := List.filter (fun v => negb (shared_volume (v_name v) && bool_decide (v_name v ∈ podVolumes))) volumes in
  let ours v := bool_decide (v_pvc v = Some pvcName) in
  map_spec (fun spec =>
    with_volumes (map (fun v => if ours v then OverwriteVolumes build v mountPath else v) (Volumes spec) ++ mountedVolume)
      (with_containers (foldl (overwrite_mounts build) (Containers spec) (List.filter ours (Volumes spec))) spec)) pod.

Definition injectLabel (pod : Pod) : Pod :=
  with_meta (with_labels (Some (<[ InjectSidecarDone := True_ ]> (pod_labels pod))) (p_meta pod)) pod.
Definition injectAnnotation (annotations : smap) (pod : Pod) : Pod :=
  with_meta (with_annotations (Some (annotations ∪ pod_annotations pod)) (p_meta pod)) pod.

(** ** sidecar.go: the mutation *)

(** The PV's source; the code dereferences it. *)
Definition csi_of (pv : PersistentVolume) : M CSIPersistentVolumeSource :=
  match pv_csi pv with Some csi => Ret csi | None => panic "nil pointer dereference" end.

(** The options of the PV: read only by its access modes, its own mount
    options, those of its volume context. *)
Definition pv_options (pv : PersistentVolume) (volCtx : smap) : list string :=
  (if bool_decide (pv_accessModes pv = ["ReadOnlyMany"]) then ["ro"] else []) ++ pv_mountOptions pv ++
  match volCtx !! "mountOptions" with Some opts => Split opts "," | None => [] end.

(** Secrets, volume context and options of a PV, which must name the secret for
    publishing. *)
Definition GetSettings (pv : PersistentVolume) : M (res (smap * smap * list string)) :=
  csi <- csi_of pv ;;
  match NodePublishSecretRef csi with
  | None => panic "nil pointer dereference"
  | Some ref =>
      secret <-? sys (GetSecret (sr_name ref) (sr_namespace ref)) ;;
      Ret (Ok (Data secret, VolumeAttributes csi, pv_options pv (VolumeAttributes csi)))
  end.

(** The annotations of the claim that start with [juicefs] overwrite the volume
    context. *)
Definition claim_context (claim : PersistentVolumeClaim) (volCtx : smap) : smap :=
  filter (fun kv => HasPrefix kv.1 "juicefs" = true) (nil_map (Annotations (pvc_meta claim))) ∪ volCtx.

Definition with_attr_namespace (ns : string) (a : PodAttr) : PodAttr :=
  {| a_Namespace := ns; a_MountPointPath := a_MountPointPath a; a_JFSConfigPath := a_JFSConfigPath a;
     a_JFSMountPriorityName := a_JFSMountPriorityName a; a_ServiceAccountName := a_ServiceAccountName a;
     a_Resources := a_Resources a; a_Labels := a_Labels a; a_Annotations := a_Annotations a;
     a_LivenessProbe := a_LivenessProbe a; a_ReadinessProbe := a_ReadinessProbe a;
     a_StartupProbe := a_StartupProbe a; a_Lifecycle := a_Lifecycle a; a_Image := a_Image a;
     a_HostNetwork := a_HostNetwork a; a_HostPID := a_HostPID a;
     a_PreemptionPolicy := a_PreemptionPolicy a; a_Tolerations := a_Tolerations a;
     a_inherited := a_inherited a |}.

(** The setting of the side car: its own mount path, in the namespace of the
    pod, with a secret per claim. *)
Definition sidecar_setting (pod : Pod) (pair : PVPair) (mountPath : string) (a : PodAttr) (s : JfsSetting) : JfsSetting :=
  with_SecretName (Name (pvc_meta (PVC pair)) +:+ "-jfs-secret")
    (with_Attr (with_attr_namespace (pod_namespace pod) a) (with_MountPath (path_Join [PodMountBase; mountPath]) s)).

(** [capacity / 1024 / 1024 / 1024]. *)
Definition capacity_GiB (capacity : Z) : Z := Z.quot (Z.quot (Z.quot capacity 1024) 1024) 1024.

Section webhook.
Context `{Globals} `{Retry} `{QuantityParser} `{SettingCodec} `{PropagationCodec}.

(** One attempt of [createOrUpdateSecret]. *)
Definition pvc_secret_attempt (secret : Secret) : M (option error) :=
  r <- sys (GetSecret (Name (s_meta secret)) (Namespace (s_meta secret))) ;;
  match r with
  | Err e =>
      if IsNotFound e
      then c <- sys (CreateSecret secret) ;; Ret match c with Ok _ => None | Err e => Some e end
      else Ret (Some e)
  | Ok oldSecret => sys (UpdateSecret (with_StringData (StringData secret) oldSecret))
  end.
Definition createOrUpdatePVCSecret (secret : Secret) : M (option error) :=
  RetryOnConflict (pvc_secret_attempt secret).

(** Which builder makes the side car. *)
Definition sidecar_builder (serverless : bool) (pod : Pod) (pair : PVPair) (s : JfsSetting) (cap : Z) : SidecarInterface :=
  if negb serverless then NewContainerBuilder s cap
  else if bool_decide (sget (pod_annotations pod) VCIANNOKey = VCIANNOValue) then NewVCIBuilder pod (PVC pair) s cap
  else if bool_decide (sget (pod_labels pod) CCIANNOKey = CCIANNOValue) then NewCCIBuilder s cap
  else NewServerlessBuilder s cap.

(** The injection of a side car into the pod. *)
Definition inject (build : SidecarInterface) (mountPod : Pod) (mountPath : string) (pair : PVPair) (pod : Pod) : M (res Pod) :=
  match Containers (p_spec mountPod) with
  | [] => panic "index out of range"
  | c :: _ =>
      let out := injectVolume build (Volumes (p_spec mountPod)) mountPath (Name (pvc_meta (PVC pair))) pod in
      Ret (Ok (injectContainer c (injectAnnotation (pod_annotations mountPod) (injectLabel out))))
  end.

Definition mutate (serverless : bool) (pod : Pod) (pair : PVPair) (index : nat) : M (res Pod) :=
  st <-? GetSettings (PV pair) ;;
  let '(secrets, volCtx, options) := st in
  csi <- csi_of (PV pair) ;;
  r <- Settings_by true (VolumeHandle csi) (Some secrets) (Some (claim_context (PVC pair) volCtx)) options ;;
  match r with
  | (_, _, Err e) => Ret (Err e)
  | (_, _, Ok s) =>
      mountPath <- RandStringRunes 6 ;;
      match Attr s with
      | None => panic "nil pointer dereference"
      | Some a =>
          let s := sidecar_setting pod pair mountPath a s in
          let capacity := QuantityValue (pvc_storage (PVC pair)) in
          let cap := capacity_GiB capacity in
          if cap <=? 0
          then Ret (Err (Errorf ("capacity " +:+ pretty capacity +:+ " is too small, at least 1GiB for quota")))
          else
            let build := sidecar_builder serverless pod pair s cap in
            createOrUpdatePVCSecret (SetPVCAsOwner (si_NewSecret build) (PVC pair)) ?;;;
            (mp <- NewMountSidecar build ;; inject build (Deduplicate pod mp.1 index) mountPath pair pod)
      end
  end.

(** One side car per pair, numbered; the first error ends the mutation. *)
Fixpoint Mutate_from (serverless : bool) (index : nat) (pairs : list PVPair) (pod : Pod) : M (res Pod) :=
  match pairs with
  | [] => Ret (Ok pod)
  | p :: pairs =>
      out <-? mutate serverless pod p index ;;
      Mutate_from serverless (S index) pairs out
  end.
Definition Mutate (serverless : bool) := Mutate_from serverless O.

(** ** handler.go: side cars *)

(** [admission.Response]; a patch stands for the object it leads to. *)
Inductive Response :=
| Allowed (reason : string)
| Denied (reason : string)
| Errored (code : Z) (e : error)
| Patched (pod : Pod).

Definition StatusBadRequest : Z := 400.

(** [decoded] is what the decoder makes of the request. *)
Definition SidecarHandler_Handle (serverless : bool) (decoded : res Pod) : M Response :=
  match decoded with
  | Err e => Ret (Errored StatusBadRequest e)
  | Ok pod =>
      if CheckExpectValue (pod_labels pod) InjectSidecarDone True_
      then Ret (Allowed "skip mutating the pod because injection is done")
      else if CheckExpectValue (pod_labels pod) InjectSidecarDisable True_
      then Ret (Allowed "skip mutating the pod because injection is disabled")
      else
        v <- GetVolumes pod ;;
        match v with
        | (_, (_, _, Some e)) => Ret (Errored StatusBadRequest e)
        | (_, (false, _, None)) => Ret (Allowed "skip mutating the pod because it doesn't use JuiceFS Volume")
        | (pod, (true, pairs, None)) =>
            out <- Mutate serverless pairs pod ;;
            Ret match out with Err e => Errored StatusBadRequest e | Ok pod => Patched pod end
        end
  end.

(** ** validator/secret.go *)

Definition bad_config (kv : string * string) : option error :=
  if bool_decide (kv.2 = "") then Some (Errorf ("config " +:+ kv.1 +:+ " is empty"))
  else if negb (HasPrefix kv.2 "/") then Some (Errorf ("config " +:+ kv.1 +:+ " is not absolute path"))
  else None.

(** The first bad entry in the order of the iteration. *)
Definition ValidateConfigs (configs : string) : M (option error) :=
  match decode_map configs with
  | Err e => Ret (Some e)
  | Ok configMap => l <- range_map configMap ;; Ret (head (omap bad_config l))
  end.

Definition ValidateEnvs (envs : string) : option error :=
  match decode_map envs with Ok _ => None | Err e => Some e end.

Definition validate_client (secretsMap : option smap) (s : JfsSetting) : M (option error) :=
  if IsCe s
  then
    let metaUrl := sget (nil_map secretsMap) "metaurl" in
    if bool_decide (metaUrl = "") then Ret (Some (Errorf "metaurl is empty")) else Status metaUrl
  else a <- AuthFs secretsMap s true ;; Ret match a.2 with Ok _ => None | Err e => Some e end.

Definition SecretValidator_Validate (secret : Secret) : M (option error) :=
  (match Data secret !! "configs" with Some configs => ValidateConfigs configs | None => Ret None end) ?;;
  (Ret match Data secret !! "envs" with Some envs => ValidateEnvs envs | None => None end) ?;;
  (r <- Settings_by false "" (Some (Data secret)) None [] ;;
   match r with
   | (_, _, Err e) => Ret (Some e)
   | (secretsMap, _, Ok s) =>
       tempConfDir <-! sys (MkdirTemp "juicefs-") ;;
       deferred (RemoveAll tempConfDir) (validate_client secretsMap (with_ClientConfPath tempConfDir s))
   end).

(** ** handler.go: secrets and PVs *)

Definition SecretHandler_Handle (decoded : res Secret) : M Response :=
  match decoded with
  | Err e => Ret (Errored StatusBadRequest e)
  | Ok secret =>
      e <- SecretValidator_Validate secret ;;
      Ret match e with Some e => Errored StatusBadRequest e | None => Allowed "" end
  end.

(** [client.go] *)
Definition ListPersistentVolumesByVolumeHandle (volumeHandle : string) : M (res (list PersistentVolume)) :=
  pvs <-? sys ListPersistentVolumes ;;
  Ret (Ok (List.filter (fun pv => match pv_csi pv with
                                  | Some csi => bool_decide (VolumeHandle csi = volumeHandle)
                                  | None => false
                                  end) pvs)).

Definition PVHandler_Handle (decoded : res PersistentVolume) : M Response :=
  match decoded with
  | Err e => Ret (Errored StatusBadRequest e)
  | Ok pv =>
      match pv_csi pv with
      | None => Ret (Allowed "")
      | Some csi =>
          if negb (bool_decide (Driver csi = g_DriverName)) then Ret (Allowed "")
          else if negb (bool_decide (pv_storageClassName pv = "")) then Ret (Allowed "")
          else
            r <- ListPersistentVolumesByVolumeHandle (VolumeHandle csi) ;;
            Ret match r with
                | Err e => Errored StatusBadRequest e
                | Ok [] => Allowed ""
                | Ok _ => Denied ("pv " +:+ Name (pv_meta pv) +:+ " with volume handle " +:+ VolumeHandle csi +:+ " already exists")
                end
      end
  end.
End webhook.
