(* ===== verification/DriverServices.v ===== *)
(** * pkg/driver: the CSI services

    The controller service ([controller.go]), the node service ([node.go]) and
    the external provisioner ([provisioner.go]).  The capacities the controller
    remembers ([vols]) are passed and returned; its volume locks are the
    commands [TryAcquireVolume] and [ReleaseVolume], whose meaning is
    [TryAcquire] and [Release] of VolumeUtil.  [DeleteVolume] locks one volume at a
    time while [vols] is one Go map: concurrent writes of the map are outside the
    model.  Prometheus counters are not modelled, and [%q] in a message prints
    the name without its quotes. *)
From S2P Require Import Prelude.
From S2P Require Import GoStrings.
From S2P Require Import K8s.
From S2P Require Import GoTime.
From S2P Require Import Prog.
From S2P Require Import Effects.
From S2P Require Import Config.
From S2P Require Import Util.
From S2P Require Import MountRefs.
From S2P Require Import PodUtil.
From S2P Require Import VolumeUtil.
From S2P Require Import Setting.
From S2P Require Import JfsSetting.
From S2P Require Import Builder.
From S2P Require Import PodMount.
From S2P Require Import ProcessMount.
From S2P Require Import Juicefs.
#[local] Open Scope Z_scope.
#[local] Open Scope go_scope.

(** ** Requests *)

Inductive AccessMode :=
| UNKNOWN | SINGLE_NODE_WRITER | SINGLE_NODE_READER_ONLY | MULTI_NODE_READER_ONLY
| MULTI_NODE_SINGLE_WRITER | MULTI_NODE_MULTI_WRITER | SINGLE_NODE_SINGLE_WRITER
| SINGLE_NODE_MULTI_WRITER.
#[export] Instance AccessMode_eq_dec : EqDecision AccessMode.
Proof. solve_decision. Defined.

Inductive AccessType := BlockAccess | MountAccess (flags : list string) | NoAccess.

#[export] Instance AccessType_eq_dec : EqDecision AccessType.
Proof. solve_decision. Defined.

(** A nil access mode reads as [UNKNOWN]. *)
Record VolumeCapability := { vc_access : AccessType; vc_mode : AccessMode }.
#[export] Instance VolumeCapability_eq_dec : EqDecision VolumeCapability.
Proof. solve_decision. Defined.

Record CreateVolumeRequest := {
  cv_Name : string;
  cv_Capabilities : list VolumeCapability;      (** a decoded list is nil when empty *)
  cv_RequiredBytes : Z;
  cv_Parameters : smap;
}.
Record CSIVolumeInfo := { VolumeId_ : string; CapacityBytes : Z; VolumeContext : smap }.

Definition volumeCaps : list AccessMode :=
  [SINGLE_NODE_WRITER; MULTI_NODE_MULTI_WRITER; MULTI_NODE_READER_ONLY].

Definition has_support (c : VolumeCapability) : bool :=
  match vc_access c with
  | BlockAccess | NoAccess => false
  | MountAccess _ => bool_decide (vc_mode c ∈ volumeCaps)
  end.
Definition isValidVolumeCapabilities (volCaps : list VolumeCapability) : bool := forallb has_support volCaps.

(** ** The controller service *)

Definition invalid (msg : string) : error := StatusError InvalidArgument msg.
Definition internal (msg : string) (e : error) : error := StatusError Internal (msg +:+ error_text e).

Abbreviation Vols := (gmap string Z).

Definition CreateVolume (vols : Vols) (req : CreateVolumeRequest) : Vols * res CSIVolumeInfo :=
  let name := cv_Name req in
  let requiredCap := cv_RequiredBytes req in
  if bool_decide (name = "") then (vols, Err (invalid "Volume Name cannot be empty"))
  else if bool_decide (cv_Capabilities req = [])
  then (vols, Err (invalid "Volume Capabilities cannot be empty"))
  else if negb (isValidVolumeCapabilities (cv_Capabilities req))
  then (vols, Err (invalid "Volume Capabilities not fully supported"))
  else if match vols !! name with Some capa => capa <? requiredCap | None => false end
  then (vols, Err (StatusError AlreadyExists ("Volume: " +:+ name +:+ ", capacity bytes: " +:+ pretty requiredCap)))
  else
    let vols := <[ name := requiredCap ]> vols in
    if existsb (fun vc => bool_decide (vc_mode vc = MULTI_NODE_READER_ONLY)) (cv_Capabilities req)
    then (vols, Err (invalid "Dynamic mounting uses the sub-path named pv name as data isolation, so read-only mode cannot be used."))
    else
      (vols, Ok {| VolumeId_ := name; CapacityBytes := requiredCap;
                   VolumeContext := <[ "capacity" := pretty requiredCap ]>
                                      (<[ "subPath" := name ]> (cv_Parameters req)) |}).

Definition ValidateVolumeCapabilities (vols : Vols) (volumeID : string) (volCaps : list VolumeCapability)
  : res (option (list VolumeCapability)) :=
  if bool_decide (volumeID = "") then Err (invalid "Volume ID not provided")
  else if bool_decide (volCaps = []) then Err (invalid "Volume capabilities not provided")
  else match vols !! volumeID with
       | None => Err (StatusError CodeNotFound ("Could not get volume by ID " +:+ volumeID))
       | Some _ => Ok (if isValidVolumeCapabilities volCaps then Some volCaps else None)
       end.

(** [defer d.volLocks.Release(volumeID)]. *)
Definition with_release {A} (volumeID : string) (p : M A) : M A := deferred (ReleaseVolume volumeID) p.

Section services.
Context `{Globals} `{Retry} `{QuantityParser} `{SettingCodec}.
Context (fuel : nat).

Definition DeleteVolume (vols : Vols) (volumeID : string) (secrets : option smap)
  : M (Vols * option error) :=
  if bool_decide (volumeID = "") then Ret (vols, Some (invalid "Volume ID not provided"))
  else if negb (CheckDynamicPV volumeID) then Ret (vols, None)
  else if bool_decide (nil_map secrets = ∅) then Ret (vols, None)
  else
    acquired <- sys (TryAcquireVolume volumeID) ;;
    if negb acquired
    then Ret (vols, Some (StatusError Aborted ("DeleteVolume: Volume " +:+ volumeID +:+
                                               " is being used by another operation")))
    else
      with_release volumeID
        (r <- JfsDeleteVol fuel volumeID volumeID secrets None [] ;;
         Ret match r.2 with
             | Some e => (vols, Some (internal "Could not delVol in juicefs: " e))
             | None => (delete volumeID vols, None)
             end).

(** The last option [subdir=v]. *)
Definition subdir_of (options : list string) : string :=
  foldl (fun sub o => match Split o "=" with
                      | [k; v] => if bool_decide (k = "subdir") then path_Join ["/"; v] else sub
                      | _ => sub
                      end) "" options.

Record ExpandRequest := {
  ex_VolumeId : string;
  ex_CapacityRange : option (Z * Z);            (** required and limit bytes *)
  ex_Capability : option VolumeCapability;
  ex_Secrets : option smap;
}.

Definition mount_flags (vc : VolumeCapability) : list string :=
  match vc_access vc with MountAccess flags => flags | _ => [] end.

Definition ControllerExpandVolume (req : ExpandRequest) : M (res Z) :=
  if bool_decide (ex_VolumeId req = "") then Ret (Err (invalid "Volume ID not provided"))
  else
    match ex_CapacityRange req with
    | None => Ret (Err (invalid "Capacity range not provided"))
    | Some (newSize, maxVolSize) =>
        if (0 <? maxVolSize) && (maxVolSize <? newSize)
        then Ret (Err (invalid "After round-up, volume size exceeds the limit specified"))
        else
          match ex_Capability req with
          | None => Ret (Err (invalid "Volume capability not provided"))
          | Some volCap =>
              q <- GetSubPath (ex_VolumeId req) ;;
              match q with
              | Err e => Ret (Err (internal "get quotaPath error: " e))
              | Ok quotaPath =>
                  r <- Settings (ex_VolumeId req) (ex_Secrets req) None (mount_flags volCap) ;;
                  match r with
                  | (_, _, Err e) => Ret (Err (internal "get settings: " e))
                  | (secrets, _, Ok settings) =>
                      s <- SetQuota secrets settings
                             (path_Join [subdir_of (Options settings); quotaPath]) newSize ;;
                      Ret match s.2 with
                          | Some e => Err (internal "set quota: " e)
                          | None => Ok newSize
                          end
                  end
              end
          end
    end.

(** ** The node service *)

Record PublishRequest := {
  np_VolumeId : string;
  np_TargetPath : string;
  np_Capability : option VolumeCapability;
  np_Readonly : bool;
  np_VolumeContext : option smap;
  np_Secrets : option smap;
}.

(** The options of the volume context before those of the request. *)
Definition publish_options (req : PublishRequest) (volCap : VolumeCapability) : list string :=
  match nil_map (np_VolumeContext req) !! "mountOptions" with
  | Some opts => Split opts ","
  | None => []
  end ++
  (if np_Readonly req || bool_decide (vc_mode volCap = MULTI_NODE_READER_ONLY) then ["ro"] else []) ++
  mount_flags volCap.

(** The quota of a published volume; its error is only logged. *)
Definition publish_quota (secrets volCtx : option smap) (settings : JfsSetting) : M (option error) :=
  match nil_map volCtx !! "capacity" with
  | None => Ret None
  | Some cap =>
      match Atoi cap with
      | None => Ret (Some (StatusError Internal ("invalid capacity " +:+ cap)))
      | Some capacity =>
          let capacity := match js_PV settings with
                          | Some pv => QuantityValue (pv_capacity pv)
                          | None => capacity
                          end in
          SetQuota secrets settings (path_Join [subdir_of (Options settings); SubPath settings]) capacity ;;;
          Ret None
      end
  end.

Definition NodePublishVolume (req : PublishRequest) : M (option error) :=
  let target := np_TargetPath req in
  if bool_decide (target = "") then Ret (Some (invalid "Target path not provided"))
  else
    match np_Capability req with
    | None => Ret (Some (invalid "Volume capability not provided"))
    | Some volCap =>
        if negb (isValidVolumeCapabilities [volCap])
        then Ret (Some (invalid "Volume capability not supported"))
        else
          e <- CreateTarget fuel target ;;
          match e with
          | Some e => Ret (Some (internal ("Could not create dir " +:+ target +:+ ": ") e))
          | None =>
              r <- JfsMount fuel (np_VolumeId req) target (np_Secrets req) (np_VolumeContext req)
                     (publish_options req volCap) ;;
              match r with
              | (_, _, Err e) => Ret (Some (internal "Could not mount juicefs: " e))
              | (secrets, volCtx, Ok fs) =>
                  b <- CreateVol fs (sget (nil_map volCtx) "subPath") ;;
                  match b with
                  | Err e => Ret (Some (internal ("Could not create volume: " +:+ np_VolumeId req +:+ ", ") e))
                  | Ok bindSource =>
                      e <- BindTarget fs bindSource target ;;
                      match e with
                      | Some e => Ret (Some (internal ("Could not bind " +:+ bindSource +:+ " at " +:+ target +:+ ": ") e))
                      | None => publish_quota secrets volCtx (fs_Setting fs)
                      end
                  end
              end
          end
    end.

Definition NodeUnpublishVolume (volumeId target : string) : M (option error) :=
  if bool_decide (target = "") then Ret (Some (invalid "Target path not provided"))
  else
    e <- JfsUnmount fuel volumeId target ;;
    Ret ((internal ("Could not unmount " +:+ target +:+ ": ")) <$> e).

(** A 64-bit word as [int64], and differences that wrap around. *)
Definition int64 (x : Z) : Z := (x + 2 ^ 63) mod 2 ^ 64 - 2 ^ 63.

Record VolumeUsage := { Available : Z; Total : Z; Used : Z }.

Definition usage (total free : Z) : VolumeUsage :=
  {| Available := int64 free; Total := int64 total; Used := int64 (int64 total - int64 free) |}.

(** [NodeGetVolumeStats]: the usage in bytes and in inodes. *)
Definition NodeGetVolumeStats (volumeID volumePath : string) : M (res (VolumeUsage * VolumeUsage)) :=
  if bool_decide (volumeID = "") then Ret (Err (invalid "Volume ID not provided"))
  else if bool_decide (volumePath = "") then Ret (Err (invalid "Volume path not provided"))
  else
    r <- check_timeout (sys (PathExists volumePath)) ;;
    match r with
    | Err e => Ret (Err (internal "Check volume path, err: " e))
    | Ok false => Ret (Err (StatusError CodeNotFound "Volume path not exists"))
    | Ok true =>
        m <- check_timeout (sys (IsNotMountPoint volumePath)) ;;
        match m with
        | Err e => Ret (Err (internal "Check volume path is mountpoint failed: " e))
        | Ok true => Ret (Err (StatusError Internal "Volume path not mounted"))
        | Ok false =>
            u <- GetDiskUsage volumePath ;;
            let '(totalSize, freeSize, totalInodes, freeInodes) := u in
            Ret (Ok (usage totalSize freeSize, usage totalInodes freeInodes))
        end
    end.

(** ** The provisioner *)

Record ProvisionOptions := {
  po_PVC : PersistentVolumeClaim;
  po_SelectedNode : option Node;
  po_PVName : string;
  po_StorageClass : StorageClass;
}.

(** The parameters of the storage class with their templates resolved. *)
Definition resolved_params (meta : PVCMeta) (pvName : string) (params : smap) : smap :=
  map_imap (fun k v => Some (if HasPrefix k "csi.storage.k8s.io/"
                             then ResolveSecret meta v pvName else StringParser meta v)) params.

Definition provision_mount_options (meta : PVCMeta) (options : list string) : list string :=
  mjoin (map (fun mo => Split (TrimSpace (StringParser meta mo)) ",") options).

(** The PV that [Provision] returns. *)
Definition provisioned (o : ProvisionOptions) (scParams : smap) (policy : string) (mountOptions : list string)
  : PersistentVolume :=
  let subPath := overwrite_str (po_PVName o) (sget scParams "pathPattern") in
  {| pv_meta := {| Name := po_PVName o; Namespace := ""; UID := ""; ResourceVersion := "";
                   Labels := None; Annotations := None; Finalizers := []; CreationTimestamp := 0; DeletionTimestamp := None;
                   OwnerReferences := None |};
     pv_csi := Some {| Driver := g_DriverName; VolumeHandle := po_PVName o; ReadOnly := false;
                       FSType := FsType;
                       VolumeAttributes :=
                         scParams ∪ <[ "subPath" := subPath ]>
                           {[ "capacity" := pretty (QuantityValue (pvc_storage (po_PVC o))) ]};
                       NodePublishSecretRef :=
                         Some {| sr_name := sget scParams PublishSecretName;
                                 sr_namespace := sget scParams PublishSecretNamespace |};
                       ControllerExpandSecretRef :=
                         if nonempty_key scParams ControllerExpandSecretName &&
                            nonempty_key scParams ControllerExpandSecretNamespace
                         then Some {| sr_name := sget scParams ControllerExpandSecretName;
                                      sr_namespace := sget scParams ControllerExpandSecretNamespace |}
                         else None |};
     pv_claimRef := None; pv_storageClassName := sc_name (po_StorageClass o);
     pv_reclaimPolicy := policy; pv_mountOptions := mountOptions;
     pv_capacity := pvc_storage (po_PVC o); pv_accessModes := pvc_accessModes (po_PVC o);
     pv_volumeMode := pvc_volumeMode (po_PVC o) |}.

Definition Provision (o : ProvisionOptions) : M (res PersistentVolume) :=
  let claim := po_PVC o in
  let sc := po_StorageClass o in
  if bool_decide (is_Some (pvc_selector claim)) then Ret (Err (Errorf "claim Selector is not supported"))
  else
    let meta := NewObjectMeta claim (po_SelectedNode o) in
    let scParams := resolved_params meta (po_PVName o) (sc_parameters sc) in
    if bool_decide ("ReadOnlyMany" ∈ pvc_accessModes claim) &&
       bool_decide (sget (sc_parameters sc) "pathPattern" = "")
    then Ret (Err (invalid "Dynamic mounting uses the sub-path named pv name as data isolation, so read-only mode cannot be used."))
    else
      let mountOptions := provision_mount_options meta (sc_mountOptions sc) in
      s <- sys (GetSecret (sget scParams ProvisionerSecretName) (sget scParams ProvisionerSecretNamespace)) ;;
      match s with
      | Err e => Ret (Err (Errorf ("unable to provision new pv: " +:+ error_text e)))
      | Ok secret =>
          match sc_reclaimPolicy sc with
          | None => panic "nil pointer dereference"
          | Some policy =>
              (if bool_decide (policy = "Delete") &&
                  bool_decide (sget (sc_parameters sc) "secretFinalizer" = "true")
               then AddSecretFinalizer secret Finalizer else Ret None) ;;;
              Ret (Ok (provisioned o scParams policy mountOptions))
          end
      end.

(** After a deletion: the finalizer of the secret, when no other PV uses it;
    the error of the patch is dropped. *)
Definition release_secret (volume : PersistentVolume) (csi : CSIPersistentVolumeSource) (secret : Secret)
  : M (option error) :=
  if bool_decide (sget (VolumeAttributes csi) "secretFinalizer" = "true")
  then
    shouldRemoveFinalizer <-! CheckForSecretFinalizer volume ;;
    (if shouldRemoveFinalizer : bool then RemoveSecretFinalizer secret Finalizer else Ret None) ;;; Ret None
  else Ret None.

Definition Provisioner_Delete (volume : PersistentVolume) : M (option error) :=
  if negb (bool_decide (pv_reclaimPolicy volume = "Delete")) then Ret None
  else
    match pv_csi volume with
    | None => panic "nil pointer dereference"
    | Some csi =>
        shouldDeleted <-! CheckForSubPath volume (sget (VolumeAttributes csi) "pathPattern") ;;
        if negb shouldDeleted then Ret None
        else
          match NodePublishSecretRef csi with
          | None => panic "nil pointer dereference"
          | Some ref =>
              secret <-! sys (GetSecret (sr_name ref) (sr_namespace ref)) ;;
              r <- JfsDeleteVol fuel (Name (pv_meta volume)) (sget (VolumeAttributes csi) "subPath")
                     (Some (Data secret)) (Some (VolumeAttributes csi)) (pv_mountOptions volume) ;;
              match r.2 with
              | Some e => Ret (Some (Errorf ("unable to provision delete volume: " +:+ error_text e)))
              | None => release_secret volume csi secret
              end
          end
    end.
End services.
