(* ===== verification/BuilderFacts.v ===== *)
(** * Properties of the pods the driver creates

    The mount path of a mount pod can be read back from its command (the pod
    driver relies on it to unmount and recover), its volumes and mounts agree,
    and its metadata carries the bookkeeping the controllers rely on. *)
From S2P Require Import Prelude.
From S2P Require Import GoStrings.
From S2P Require Import Decimal.
From S2P Require Import Hash.
From S2P Require Import K8s.
From S2P Require Import GoTime.
From S2P Require Import Prog.
From S2P Require Import Effects.
From S2P Require Import Config.
From S2P Require Import Util.
From S2P Require Import PodUtil.
From S2P Require Import Setting.
From S2P Require Import JfsSetting.
From S2P Require Import Builder.
From Stdlib Require Import Ascii.
#[local] Open Scope Z_scope.
#[local] Open Scope go_scope.

(** ** Reading the mount path back *)

(** A character that neither the shell nor the splitting of the command
    treats specially. *)
Definition plain_char (c : ascii) : bool := negb (is_space c) && negb (bool_decide (c ∈ bash_special)).
Definition plain (s : string) : Prop := s <> "" /\ all_chars plain_char s = true.
Definition one_line (s : string) : bool := all_chars (fun c => negb (bool_decide (c = "010"%char))) s.

Lemma plain_no_space s : plain s -> no_space s = true.
Proof.
  intros [_ H]. eapply all_chars_weaken; [|exact H]. intros c. unfold plain_char.
  by rewrite andb_true_iff; intros [].
Qed.

Lemma plain_not_special s : plain s -> containsOne s bash_special = false.
Proof.
  intros [_ H]. induction s as [|c s IH]; [done|]. simpl in *. apply andb_true_iff in H as [Hc Hs].
  unfold plain_char in Hc. apply andb_true_iff in Hc as [_ Hc%negb_true_iff]. by rewrite Hc, IH.
Qed.

Lemma EscapeBashStr_plain s : plain s -> EscapeBashStr s = s.
Proof. intros H. unfold EscapeBashStr. by rewrite plain_not_special. Qed.

Lemma plain_absent s d new : plain_char d = false -> plain s -> ReplaceAll s (String d "") new = s.
Proof. intros Hd [_ H]. apply ReplaceAll_absent. by eapply all_chars_free. Qed.

Lemma no_space_one_line s : no_space s = true -> one_line s = true.
Proof.
  apply all_chars_weaken. intros c Hc%negb_true_iff. apply negb_true_iff, bool_decide_eq_false.
  by intros ->.
Qed.

Lemma EscapeBashStr_one_line s : one_line s = true -> one_line (EscapeBashStr s) = true.
Proof.
  intros H. unfold EscapeBashStr. destruct (containsOne s bash_special); cbn [negb]; [|done].
  unfold one_line. rewrite !all_chars_app, !all_chars_ReplaceAll; try done.
  by apply all_chars_ReplaceAll.
Qed.

Lemma QuoteForShell_ReplaceAll cmd :
  QuoteForShell cmd = ReplaceAll (ReplaceAll cmd "(" "\(") ")" "\)".
Proof.
  unfold QuoteForShell. destruct (Contains cmd "(") eqn:E1.
  - destruct (Contains (ReplaceAll cmd "(" "\(") ")") eqn:E2; [done|].
    by rewrite (ReplaceAll_absent _ ")") by done.
  - rewrite (ReplaceAll_absent cmd "(") by done. destruct (Contains cmd ")") eqn:E2; [done|].
    by rewrite (ReplaceAll_absent cmd ")") by done.
Qed.

Lemma QuoteForShell_app a b : QuoteForShell (a +:+ b) = QuoteForShell a +:+ QuoteForShell b.
Proof. by rewrite !QuoteForShell_ReplaceAll, !ReplaceAll_char_app. Qed.
Lemma QuoteForShell_plain s : plain s -> QuoteForShell s = s.
Proof. intros H. by rewrite QuoteForShell_ReplaceAll, (plain_absent s "("), plain_absent. Qed.
Lemma QuoteForShell_one_line s : one_line s = true -> one_line (QuoteForShell s) = true.
Proof. intros H. rewrite QuoteForShell_ReplaceAll. by do 2 (apply all_chars_ReplaceAll; [done|]). Qed.
Lemma QuoteForShell_no_space s : no_space s = true -> no_space (QuoteForShell s) = true.
Proof. intros H. rewrite QuoteForShell_ReplaceAll. by do 2 (apply all_chars_ReplaceAll; [done|]). Qed.
Lemma QuoteForShell_nonempty s : s <> "" -> QuoteForShell s <> "".
Proof.
  destruct s as [|c s]; [done|]. intros _. rewrite QuoteForShell_ReplaceAll, ReplaceAll_cons.
  case_bool_decide; cbn [String.append]; rewrite ReplaceAll_cons; by case_bool_decide.
Qed.

(** What the mount command looks like to the reader of the mount path. *)
Lemma mount_command_fields s attr :
  plain (MountPath s) -> (IsCe s = false -> plain (Source s)) ->
  Forall (fun o => one_line o = true) (Options s) ->
  one_line (genMountCommand s attr) = true /\
  exists a b rest, Fields (genMountCommand s attr) = a :: b :: MountPath s :: rest.
Proof.
  intros Hm Hs Ho. unfold genMountCommand.
  assert (forall a b opts, plain a -> b <> "" -> no_space b = true -> one_line opts = true ->
    one_line (QuoteForShell (Join [a; b; MountPath s; "-o"; opts] " ")) = true /\
    exists a' b' rest,
      Fields (QuoteForShell (Join [a; b; MountPath s; "-o"; opts] " ")) = a' :: b' :: MountPath s :: rest) as HJ.
  { intros a b opts Ha Hb Hb' Hopts. split.
    - apply QuoteForShell_one_line, all_chars_Join; [done|].
      repeat constructor; try done; by apply no_space_one_line; first [done|apply plain_no_space].
    - cbn [Join]. rewrite !QuoteForShell_app, (QuoteForShell_plain a), (QuoteForShell_plain (MountPath s)) by done.
      change (QuoteForShell " ") with " ". cbn [String.append].
      do 3 eexists. rewrite !Fields_word; first reflexivity;
        first [by apply plain_no_space | by apply QuoteForShell_nonempty
              | by apply QuoteForShell_no_space | by destruct Ha | by destruct Hm]. }
  assert (one_line (Join (ce_mount_options s attr) ",") = true) as Hce.
  { apply all_chars_Join; [done|]. unfold ce_mount_options, metrics_option.
    destruct (ContainsPrefix _ _); [done|]. apply Forall_app. split; [done|].
    by destruct (a_HostNetwork attr); repeat constructor. }
  assert (one_line (Join (ee_mount_options s) ",") = true) as Hee.
  { apply all_chars_Join; [done|]. unfold ee_mount_options. case_bool_decide; by repeat constructor. }
  unfold mount_args. destruct (IsCe s) eqn:Ec; rewrite (EscapeBashStr_plain (MountPath s)) by done.
  - by apply HJ; [| | |apply EscapeBashStr_one_line].
  - rewrite (EscapeBashStr_plain (Source s)) by auto.
    apply HJ; [done|by destruct (Hs eq_refl)|by apply plain_no_space, Hs|by apply EscapeBashStr_one_line].
Qed.

Section mount_pod.
Context `{Globals} `{QuantityParser} `{SettingCodec}.

(** Regenerating the attributes changes nothing else. *)
Lemma regen_attr_spec s : exists a, regen_attr s = with_Attr a s.
Proof. unfold regen_attr, GenPodAttrWithCfg. by eexists. Qed.

Lemma NewMountPod_container s n t pod s' :
  runs (NewMountPod s n) t (Done (pod, s')) ->
  s' = regen_attr s /\
  exists c cs, Containers (p_spec pod) = c :: cs /\ c_command c = ["sh"; "-c"; mount_script s'].
Proof.
  unfold NewMountPod. intros [(t1 & t2 & p & -> & Hg & Hr)|(e & _ & ?)]%runs_bind; [|done].
  unfold genCommonJuicePod in Hg. apply runs_range_map in Hg as (l & e & t' & _ & -> & _ & [-> [= ->]]).
  destruct Hr as [-> [= -> ->]]. split; [done|]. by do 2 eexists.
Qed.

Lemma last_line init cmd :
  one_line cmd = true ->
  last (Split (if bool_decide (init = "") then cmd else Join [init; cmd] newline) newline) = Some cmd.
Proof.
  intros Hl. assert (free_of "010"%char cmd) as Hf by (by eapply all_chars_free; [|exact Hl]).
  case_bool_decide.
  - unfold Split. rewrite split_go_absent; [done|done|exact Hf].
  - apply last_Split_char, Hf.
Qed.

(** C17: the mount path survives the round trip through the pod.  For a mount
    path below [/jfs] and (enterprise) a source that need no quoting, and mount
    options of one line each, the pod driver reads from the command of the pod
    that [NewMountPod] creates exactly the mount path and the volume directory
    it was created for, whatever the format command before it, the options and
    the attributes. *)
Theorem NewMountPod_mount_path s n t pod s' x v rest :
  runs (NewMountPod s n) t (Done (pod, s')) ->
  plain (MountPath s) -> HasPrefix (MountPath s) PodMountBase = true ->
  Split (MountPath s) "/" = x :: "jfs" :: v :: rest ->
  (IsCe s = false -> plain (Source s)) ->
  Forall (fun o => one_line o = true) (Options s) ->
  GetMountPathOfPod pod = Ok (MountPath s, v).
Proof.
  intros Hr Hm Hp Hsplit Hs Ho. apply NewMountPod_container in Hr as (-> & c & cs & Hc & Hcmd).
  unfold GetMountPathOfPod. rewrite Hc, Hcmd. unfold ParseMntPath.
  destruct (regen_attr_spec s) as [a ->]. unfold mount_script.
  destruct (mount_command_fields (with_Attr a s) (attr_of (with_Attr a s))) as (Hol & x' & y' & r' & HF); [done..|].
  change (String "010" "") with newline. rewrite last_line by done. cbn [from_option]. unfold id. rewrite HF.
  cbn [MountPath with_Attr]. rewrite Hp. by rewrite Hsplit.
Qed.
End mount_pod.

(** ** Numbered names *)

(** A name up to its first digit: the family it belongs to. *)
Fixpoint family (s : string) : string :=
  match s with
  | EmptyString => ""
  | String c s' => if is_digit c then "" else String c (family s')
  end.

Lemma family_numbered pre (n : nat) :
  all_chars (fun c => negb (is_digit c)) pre = true -> family (pre +:+ pretty n) = pre.
Proof.
  intros Hp. destruct (pretty_digit n) as (d & r & -> & Hd).
  induction pre as [|c pre IH]; simpl in *; [by rewrite Hd|].
  apply andb_true_iff in Hp as [Hc%negb_true_iff Hp]. by rewrite Hc, IH.
Qed.

Lemma NoDup_imap {A} (g : nat -> string) (l : list A) :
  (forall i j, g i = g j -> i = j) -> NoDup (imap (fun i _ => g i) l).
Proof.
  intros Hg. assert (forall k, imap (fun i (_ : A) => g (k + i)%nat) l = g <$> seq k (length l)) as Heq.
  { induction l as [|x l IH]; intros k; [done|]. cbn. rewrite Nat.add_0_r. f_equal.
    rewrite <-IH. apply imap_ext. intros i y _. cbn. f_equal. lia. }
  change (NoDup (imap (fun i (_ : A) => g (0 + i)%nat) l)).
  rewrite Heq. apply NoDup_fmap_2_strong; [|apply NoDup_seq]. auto.
Qed.

Lemma numbered_inj pre (i j : nat) : pre +:+ pretty i = pre +:+ pretty j -> i = j.
Proof. intros E%str_app_inv_head. by apply pretty_nat_inj. Qed.

(** Families of names without duplicates, with different families, have no
    duplicates together. *)
Lemma NoDup_families (ls : list (string * list string)) :
  NoDup ls.*1 ->
  Forall (fun kl => NoDup kl.2 /\ Forall (fun x => family x = kl.1) kl.2) ls ->
  NoDup (mjoin ls.*2).
Proof.
  induction ls as [|[k l] ls IH]; intros Hk Hl; [constructor|]. cbn in *.
  apply NoDup_cons in Hk as [Hk1 Hk2]. apply Forall_cons in Hl as [[Hn Hf] Hl]. cbn in *.
  apply NoDup_app. split_and!; [done| |by apply IH].
  intros x Hx (l' & Hx' & Hl')%list_elem_of_join. apply list_elem_of_fmap in Hl' as ([k' l''] & -> & Hin).
  apply Hk1. rewrite <-(proj1 (Forall_forall _ _) Hf x Hx).
  destruct (proj1 (Forall_forall _ _) Hl _ Hin) as [_ Hf'].
  rewrite (proj1 (Forall_forall _ _) Hf' x Hx').
  apply list_elem_of_fmap. by exists (k', l'').
Qed.

(** ** The volumes of a mount pod *)

Definition names (l : list (Volume * VolumeMount)) : list string := map (fun e => v_name e.1) l.
Definition paired (l : list (Volume * VolumeMount)) : Prop :=
  Forall (fun e => vm_name e.2 = v_name e.1) l.

Lemma paired_names l : paired l -> map vm_name l.*2 = names l.
Proof. induction 1 as [|e l He Hl IH]; [done|]. cbn. by rewrite He, IH. Qed.

Lemma paired_imap {A} (f : nat -> A -> Volume * VolumeMount) l :
  (forall i x, vm_name (f i x).2 = v_name (f i x).1) -> paired (imap f l).
Proof.
  intros Hf. unfold paired. apply Forall_lookup. intros i e He.
  apply list_lookup_imap_Some in He as (x & _ & ->). apply Hf.
Qed.

Lemma names_imap {A} (f : nat -> A -> Volume * VolumeMount) (g : nat -> string) l :
  (forall i x, v_name (f i x).1 = g i) -> names (imap f l) = imap (fun i _ => g i) l.
Proof.
  revert f g. induction l as [|x l IH]; intros f g Hf; [done|]. cbn. rewrite Hf. f_equal. apply (IH (f ∘ S) (g ∘ S)). intros i y. apply Hf.
Qed.

Lemma names_app a b : names (a ++ b) = names a ++ names b.
Proof. apply map_app. Qed.

(** One numbered family of volumes. *)
Lemma numbered_family {A} pre (off : nat) (l : list A) :
  all_chars (fun c => negb (is_digit c)) pre = true ->
  NoDup (imap (fun i _ => pre +:+ pretty (off + i)%nat) l) /\
  Forall (fun x => family x = pre) (imap (fun i _ => pre +:+ pretty (off + i)%nat) l).
Proof.
  intros Hp. split.
  - apply NoDup_imap. intros i j E%numbered_inj. lia.
  - apply Forall_lookup. intros i x Hx. apply list_lookup_imap_Some in Hx as (y & _ & ->).
    by apply family_numbered.
Qed.

Section volumes.
Context `{Globals} `{QuantityParser} `{SettingCodec}.

(** All volumes of a mount pod, in order. *)
Definition all_volumes (s : JfsSetting) (configs : list (string * string)) : list (Volume * VolumeMount) :=
  genJuiceVolumes s configs ++ genPodVolumes ++ genCacheDirVolumes s ++ genHostPathVolumes s.

Lemma all_volumes_paired s configs : paired (all_volumes s configs).
Proof.
  unfold all_volumes, genJuiceVolumes, genPodVolumes, genCacheDirVolumes, genHostPathVolumes.
  repeat apply Forall_app_2; try (by apply paired_imap).
  - by destruct (bool_decide _); repeat constructor.
  - by destruct (bool_decide _); repeat constructor.
  - by destruct g_Immutable; repeat constructor.
  - by destruct (js_CacheEmptyDir s); repeat constructor.
Qed.

(** The families of the volumes of a mount pod. *)
Definition volume_families (s : JfsSetting) (configs : list (string * string)) : list (string * list string) :=
  [("rsa-key", if bool_decide (EncryptRsaKey s = "") then [] else ["rsa-key"]);
   ("init-config", if bool_decide (InitConfig s = "") then [] else ["init-config"]);
   ("config-", imap (fun i _ => "config-" +:+ pretty (1 + i)%nat) configs);
   (JfsDirName, [JfsDirName]);
   (UpdateDBDirName, if g_Immutable then [] else [UpdateDBDirName]);
   ("cachedir-", imap (fun i _ => "cachedir-" +:+ pretty (0 + i)%nat) (CacheDirs s));
   ("cachedir-pvc-", imap (fun i _ => "cachedir-pvc-" +:+ pretty (0 + i)%nat) (CachePVCs s));
   ("cachedir-empty-dir", match js_CacheEmptyDir s with Some _ => ["cachedir-empty-dir"] | None => [] end);
   ("cachedir-inline-volume-",
      imap (fun i _ => "cachedir-inline-volume-" +:+ pretty (0 + i)%nat) (CacheInlineVolumes s));
   ("hostpath-", imap (fun i _ => "hostpath-" +:+ pretty (0 + i)%nat) (js_HostPath s))].

Lemma all_volumes_families s configs : names (all_volumes s configs) = mjoin (volume_families s configs).*2.
Proof.
  unfold all_volumes, genJuiceVolumes, genPodVolumes, genCacheDirVolumes, genHostPathVolumes.
  rewrite !names_app.
  rewrite (names_imap _ (fun i => "config-" +:+ pretty (1 + i)%nat)) by done.
  rewrite (names_imap _ (fun i => "cachedir-" +:+ pretty (0 + i)%nat) (CacheDirs s)) by done.
  rewrite (names_imap _ (fun i => "cachedir-pvc-" +:+ pretty (0 + i)%nat) (CachePVCs s)) by done.
  rewrite (names_imap _ (fun i => "cachedir-inline-volume-" +:+ pretty (0 + i)%nat) (CacheInlineVolumes s)) by done.
  rewrite (names_imap _ (fun i => "hostpath-" +:+ pretty (0 + i)%nat) (js_HostPath s)) by done.
  unfold volume_families. cbn [fmap list_fmap snd mjoin list_join].
  rewrite app_nil_r, <- !app_assoc.
  destruct (bool_decide (EncryptRsaKey s = "")), (bool_decide (InitConfig s = "")), g_Immutable,
    (js_CacheEmptyDir s); reflexivity.
Qed.

Lemma all_volumes_NoDup s configs : NoDup (names (all_volumes s configs)).
Proof.
  rewrite all_volumes_families. apply NoDup_families.
  - unfold volume_families. cbn. apply (bool_decide_unpack _). by vm_compute.
  - unfold volume_families.
    assert (forall x, family x = x -> NoDup [x] /\ Forall (fun y => family y = x) [x]) as Hone.
    { intros x Hx. split; [apply NoDup_singleton|by repeat constructor]. }
    assert (forall k, NoDup (@nil string) /\ Forall (fun y => family y = k) (@nil string)) as Hnil.
    { intros k. split; constructor. }
    destruct (bool_decide (EncryptRsaKey s = "")), (bool_decide (InitConfig s = "")), g_Immutable,
      (js_CacheEmptyDir s);
      repeat (apply Forall_cons_2; [first [by apply numbered_family|by apply Hone|apply Hnil]|]);
      apply Forall_nil_2.
Qed.

Lemma NewMountPod_volumes s n t pod s' :
  runs (NewMountPod s n) t (Done (pod, s')) ->
  exists configs c cs, configs ≡ₚ map_to_list (Configs s) /\
    Containers (p_spec pod) = c :: cs /\
    Volumes (p_spec pod) = (all_volumes s' configs).*1 /\ c_volumeMounts c = (all_volumes s' configs).*2.
Proof.
  unfold NewMountPod. intros [(t1 & t2 & p & -> & Hg & Hr)|(e & _ & ?)]%runs_bind; [|done].
  unfold genCommonJuicePod in Hg. remember (regen_attr s) as s1 eqn:Es1.
  apply runs_range_map in Hg as (l & e & t' & Hl & -> & _ & [-> [= ->]]).
  destruct Hr as [-> [= -> ->]]. exists l. do 2 eexists. split.
  { destruct (regen_attr_spec s) as [a Ha]. by rewrite Hl, Es1, Ha. }
  split; [reflexivity|]. unfold all_volumes.
  cbn [p_spec Volumes c_volumeMounts add_volumes update_first with_containers with_volumes Containers
       map common_container with_volumeMounts with_env with_command].
  rewrite !fmap_app. by rewrite <- !app_assoc.
Qed.

(** C18: the volumes of a mount pod are consistent.  In every pod that
    [NewMountPod] creates, whatever the order in which the configs are visited,
    the mounts of the container name exactly the volumes of the pod, one by
    one, and no two volumes have the same name. *)
Theorem NewMountPod_volumes_consistent s n t pod s' :
  runs (NewMountPod s n) t (Done (pod, s')) ->
  NoDup (map v_name (Volumes (p_spec pod))) /\
  exists c cs, Containers (p_spec pod) = c :: cs /\
    map vm_name (c_volumeMounts c) = map v_name (Volumes (p_spec pod)).
Proof.
  intros (configs & c & cs & _ & Hc & Hv & Hm)%NewMountPod_volumes.
  assert (map v_name (Volumes (p_spec pod)) = names (all_volumes s' configs)) as Hn.
  { rewrite Hv. unfold names. rewrite <-list_fmap_compose. reflexivity. }
  rewrite Hn. split; [apply all_volumes_NoDup|]. exists c, cs. split; [done|].
  rewrite Hm. apply paired_names, all_volumes_paired.
Qed.
End volumes.

(** ** The mount pod does not contain the secrets *)

(** Whether there is a value is visible, the value is not. *)
Definition mask (x : string) : string := if bool_decide (x = "") then "" else "*".

(** The setting without its secrets.  The source of a community file system is
    its metadata URL. *)
Definition redact (s : JfsSetting) : JfsSetting :=
  {| IsCe := IsCe s; UsePod := UsePod s; UUID := UUID s; js_Name := js_Name s; MetaUrl := "";
     Source := if IsCe s then "" else Source s; Storage := ""; FormatOptions := "";
     CachePVCs := CachePVCs s; js_CacheEmptyDir := js_CacheEmptyDir s;
     CacheInlineVolumes := CacheInlineVolumes s; CacheDirs := CacheDirs s;
     ClientConfPath := ClientConfPath s; SecretKey := ""; SecretKey2 := ""; Token := "";
     Passphrase := ""; Envs := ∅; EncryptRsaKey := mask (EncryptRsaKey s);
     InitConfig := mask (InitConfig s); Configs := Configs s; DeletedDelay := DeletedDelay s;
     js_CleanCache := js_CleanCache s; js_HostPath := js_HostPath s; VolumeId := VolumeId s;
     js_UniqueId := js_UniqueId s; MountPath := MountPath s; TargetPath := TargetPath s;
     Options := Options s; FormatCmd := FormatCmd s; SubPath := SubPath s;
     SecretName := SecretName s; Attr := Attr s; js_PV := js_PV s; js_PVC := js_PVC s |}.

Section redaction.
Context `{Globals} `{QuantityParser} `{SettingCodec}.

Lemma mask_empty x : bool_decide (mask x = "") = bool_decide (x = "").
Proof. unfold mask. by destruct (bool_decide (x = "")) eqn:E. Qed.

Lemma redact_regen s : regen_attr (redact s) = redact (regen_attr s).
Proof. reflexivity. Qed.

Lemma redact_mount_script s : mount_script (redact s) = mount_script s.
Proof.
  unfold mount_script, genInitCommand, genMountCommand, mount_args, ee_mount_options, ce_mount_options.
  cbn [redact EncryptRsaKey InitConfig IsCe MountPath Options FormatCmd js_Name ClientConfPath Source Attr attr_of].
  rewrite !mask_empty. destruct (IsCe s) eqn:Ec; [|done]. by unfold attr_of, default_attr; cbn; rewrite Ec.
Qed.

Lemma redact_volumes s configs : genJuiceVolumes (redact s) configs = genJuiceVolumes s configs.
Proof. unfold genJuiceVolumes. cbn [redact EncryptRsaKey InitConfig SecretName js_Name]. by rewrite !mask_empty. Qed.

Lemma redact_attr s : attr_of (redact s) = attr_of s.
Proof. done. Qed.

Lemma redact_metadata s a : genMetadata (redact s) a = genMetadata s a.
Proof. done. Qed.

Lemma redact_container s vols c : common_container (redact s) vols c = common_container s vols c.
Proof. done. Qed.

(** C19: no secret is in the mount pod.  Whatever the metadata URL, the token,
    the secret keys, the passphrase, the RSA key, the client configuration, the
    environment and the format options of the setting, [NewMountPod] creates
    the same pod as for the setting without them: the pod only names the secret
    object that holds them. *)
Theorem NewMountPod_hides_secrets s n t pod s' :
  runs (NewMountPod s n) t (Done (pod, s')) ->
  exists s'', runs (NewMountPod (redact s) n) t (Done (pod, s'')).
Proof.
  unfold NewMountPod, genCommonJuicePod. rewrite redact_regen.
  set (r := regen_attr s). clearbody r.
  intros ([ks Hks] & t' & -> & Hr). cbn [bind] in Hr. cbn [proj1_sig] in Hr.
  destruct Hr as [-> Hr]. injection Hr as Hp _. subst pod.
  exists (redact r), (exist _ ks Hks), []. split; [done|]. cbn [bind]. cbn [proj1_sig]. split; [done|].
  do 2 f_equal. change (Configs (redact r)) with (Configs r).
  rewrite redact_volumes, redact_mount_script. reflexivity.
Qed.
End redaction.
