(* ===== verification/MountTable.v ===== *)
(** * pkg/controller/mountinfo.go: the mount table of the node

    [mountInfoTable] pairs the parsed [/proc/self/mountinfo] with the pods of
    the node; [resolveTarget] turns a CSI target path into its mounts: the
    base target and the [volumeMount.subPath] targets below the same pod. *)
From S2P Require Import Prelude.
From S2P Require Import GoStrings.
From S2P Require Import Hash.
From S2P Require Import K8s.
From S2P Require Import Prog.
From S2P Require Import Effects.
From S2P Require Import Config.
From S2P Require Import Util.
From S2P Require Import PodUtil.
From Stdlib Require Import Ascii.
#[local] Open Scope Z_scope.
#[local] Open Scope go_scope.

Record mountInfoTable := {
  mis : list MountInfo;
  deletedPods : gmap string bool;           (** pod UID -> being deleted *)
}.

Definition newMountInfoTable : mountInfoTable := {| mis := []; deletedPods := ∅ |}.

(** [mit.parse()]: on an error the mount infos are unset. *)
Definition parse (mit : mountInfoTable) : M (mountInfoTable * option error) :=
  r <- sys ParseMountInfo ;;
  match r with
  | Ok l => Ret ({| mis := l; deletedPods := deletedPods mit |}, None)
  | Err e => Ret ({| mis := []; deletedPods := deletedPods mit |}, Some e)
  end.

Definition is_deleted (pod : Pod) : bool :=
  match DeletionTimestamp (p_meta pod) with Some _ => true | None => false end.

Definition setPodStatus (mit : mountInfoTable) (pod : Pod) : mountInfoTable :=
  {| mis := mis mit; deletedPods := <[ UID (p_meta pod) := is_deleted pod ]> (deletedPods mit) |}.

Definition setPodsStatus (mit : mountInfoTable) (podList : option (list Pod)) : mountInfoTable :=
  {| mis := mis mit;
     deletedPods := match podList with
                    | None => ∅
                    | Some items =>
                        foldl (fun m pod => <[ UID (p_meta pod) := is_deleted pod ]> m) ∅ items
                    end |}.

Definition containerSubPathDirectory : string := "volume-subpaths".
Definition containerCsiDirectory : string := "volumes/kubernetes.io~csi".

(** ** Target paths *)

Definition getPodUid (target : string) : string :=
  match Split target containerCsiDirectory with
  | [a; _] =>
      let podDir := TrimSuffix a "/" in
      match LastIndex podDir "/" with
      | Some (S n) => str_drop (S (S n)) podDir
      | _ => ""
      end
  | _ => ""
  end.

Definition getPVName (target : string) : string :=
  match Split target containerCsiDirectory with
  | [_; b] =>
      let pvName := TrimPrefix b "/" in
      match Index pvName "/" with
      | Some (S n) => str_take (S n) pvName
      | _ => ""
      end
  | _ => ""
  end.

(** ** Target items *)

Inductive target_status :=
| targetStatusNotExist | targetStatusMounted | targetStatusNotMount
| targetStatusCorrupt | targetStatusUnexpect.
#[export] Instance target_status_eq_dec : EqDecision target_status.
Proof. solve_decision. Defined.

Record targetItem := {
  target : string;
  subpath : string;
  count : Z;
  inconsistent : bool;
  status : target_status;
  err : option error;
}.

Definition new_item (tgt sub : string) (n : Z) : targetItem :=
  {| target := tgt; subpath := sub; count := n; inconsistent := false;
     status := targetStatusNotExist; err := None |}.
Definition set_status (ti : targetItem) (s : target_status) (e : option error) : targetItem :=
  {| target := target ti; subpath := subpath ti; count := count ti;
     inconsistent := inconsistent ti; status := s; err := e |}.

(** [ti.check(mounted)] classifies the answer of [os.Stat]. *)
Definition check_stat (ti : targetItem) (mounted : bool) (r : res FileInfo) : targetItem :=
  match r with
  | Ok _ => set_status ti (if mounted then targetStatusMounted else targetStatusNotMount) (err ti)
  | Err e =>
      if IsNotExist e then set_status ti targetStatusNotExist (err ti)
      else
        let ti := if mounted then ti else set_status ti targetStatusUnexpect (Some e) in
        if IsCorruptedMnt e then set_status ti targetStatusCorrupt (err ti)
        else set_status ti targetStatusUnexpect (Some e)
  end.
Definition check_item (ti : targetItem) (mounted : bool) : M targetItem :=
  r <- sys (Stat (target ti)) ;; Ret (check_stat ti mounted r).

(** The subpath of a mount: its root without the deleted mark and slashes. *)
Definition mount_subpath (mi : MountInfo) : string :=
  Trim (TrimSuffix (mi_root mi) "//deleted") "/".

Definition mount_matches (path : string) (isPrefix : bool) (mi : MountInfo) : bool :=
  if isPrefix then HasPrefix (mi_mountPoint mi) path
  else bool_decide (path = mi_mountPoint mi).

(** One step of the loop over the mount infos. *)
Definition record_mount (records : gmap string targetItem) (mi : MountInfo) : gmap string targetItem :=
  let sub := mount_subpath mi in
  match records !! mi_mountPoint mi with
  | None => <[ mi_mountPoint mi := new_item (mi_mountPoint mi) sub 1 ]> records
  | Some r =>
      <[ mi_mountPoint mi :=
           {| target := target r; subpath := subpath r; count := count r + 1;
              inconsistent := inconsistent r || negb (bool_decide (subpath r = sub));
              status := status r; err := err r |} ]> records
  end.
Definition collect_records (path : string) (isPrefix : bool) (l : list MountInfo)
  : gmap string targetItem :=
  foldl (fun records mi => if mount_matches path isPrefix mi then record_mount records mi else records)
    ∅ l.

Definition resolveTargetItem (mit : mountInfoTable) (path : string) (isPrefix : bool)
  : M (list targetItem) :=
  records <- range_map (collect_records path isPrefix (mis mit)) ;;
  fold_prog records
    (fun kv res => ti <- check_item kv.2 true ;; Ret (res ++ [ti])) [].

Record mountItem := {
  podExist : bool;
  podDeleted : bool;
  baseTarget : targetItem;
  subPathTarget : list targetItem;
}.

(** [resolveTarget]: [None] when the path is not a CSI target path. *)
Definition resolveTarget (mit : mountInfoTable) (tgt : string) : M (option mountItem) :=
  match Split tgt containerCsiDirectory with
  | [dir; _] =>
      let podDir := TrimSuffix dir "/" in
      let podUID := getPodUid tgt in
      if bool_decide (podUID = "") then Ret None else
      let pvName := getPVName tgt in
      if bool_decide (pvName = "") then Ret None else
      let podDeleted := default false (deletedPods mit !! podUID) in
      let podExist := bool_decide (is_Some (deletedPods mit !! podUID)) in
      items <- resolveTargetItem mit tgt false ;;
      base <- match items with
              | [it] => Ret it
              | _ => check_item (new_item tgt "" 0) false
              end ;;
      subs <- resolveTargetItem mit (Join [podDir; containerSubPathDirectory; pvName] "/") true ;;
      Ret (Some {| podExist := podExist; podDeleted := podDeleted;
                   baseTarget := base; subPathTarget := subs |})
  | _ => Ret None
  end.

(** ** The records of the mount table *)

(** The mounts of one mount point among those that match. *)
Definition mounts_at (path : string) (isPrefix : bool) (mp : string) (l : list MountInfo)
  : list MountInfo :=
  filter (fun mi => mount_matches path isPrefix mi = true /\ mi_mountPoint mi = mp) l.

(** What the record of a mount point should say. *)
Definition summarise (mp : string) (es : list MountInfo) : option targetItem :=
  match es with
  | [] => None
  | e0 :: es' =>
      Some {| target := mp; subpath := mount_subpath e0; count := Z.of_nat (length es);
              inconsistent := existsb (fun e => negb (bool_decide (mount_subpath e0 = mount_subpath e))) es';
              status := targetStatusNotExist; err := None |}
  end.

Lemma summarise_snoc mp es e :
  mi_mountPoint e = mp -> mount_subpath e = mount_subpath e ->
  summarise mp (es ++ [e]) =
  match summarise mp es with
  | None => Some (new_item mp (mount_subpath e) 1)
  | Some r =>
      Some {| target := target r; subpath := subpath r; count := count r + 1;
              inconsistent := inconsistent r || negb (bool_decide (subpath r = mount_subpath e));
              status := status r; err := err r |}
  end.
Proof.
  intros Hmp _. destruct es as [|e0 es]; [done|]. cbn [summarise app target subpath count inconsistent status err].
  f_equal. f_equal.
  - cbn [length]. rewrite length_app. simpl. lia.
  - rewrite existsb_app. simpl. by rewrite orb_false_r.
Qed.

Lemma collect_records_spec path isPrefix l mp :
  collect_records path isPrefix l !! mp = summarise mp (mounts_at path isPrefix mp l).
Proof.
  unfold collect_records, mounts_at.
  induction l as [|e l IH] using rev_ind; [by rewrite filter_nil; simpl; rewrite lookup_empty|].
  rewrite foldl_app, filter_app. cbn [foldl].
  set (acc := foldl _ ∅ l) in *.
  destruct (mount_matches path isPrefix e) eqn:Em.
  - unfold record_mount. destruct (decide (mi_mountPoint e = mp)) as [Heq|Hne].
    + rewrite filter_cons_True, filter_nil by done. rewrite summarise_snoc by done.
      rewrite <-IH, Heq. destruct (acc !! mp) as [r|]; by rewrite lookup_insert_eq.
    + rewrite filter_cons_False, filter_nil, app_nil_r by (by intros [_ ?]). rewrite <-IH.
      destruct (acc !! mi_mountPoint e) as [r|]; by rewrite lookup_insert_ne.
  - rewrite filter_cons_False, filter_nil, app_nil_r; [done|intros [? _]; congruence].
Qed.

(** ** Target paths: the layout kubelet uses *)

Definition csi_target (root uid pv rest : string) : string :=
  (root +:+ "/" +:+ uid +:+ "/") +:+ containerCsiDirectory +:+ ("/" +:+ pv +:+ "/" +:+ rest).

(** The CSI directory occurs once in the path. *)
Definition csi_once (root uid pv rest : string) : Prop :=
  Index (csi_target root uid pv rest) containerCsiDirectory
    = Some (String.length (root +:+ "/" +:+ uid +:+ "/")) /\
  Contains ("/" +:+ pv +:+ "/" +:+ rest) containerCsiDirectory = false.

Lemma csi_target_split root uid pv rest :
  csi_once root uid pv rest ->
  Split (csi_target root uid pv rest) containerCsiDirectory
  = [root +:+ "/" +:+ uid +:+ "/"; "/" +:+ pv +:+ "/" +:+ rest].
Proof. intros [H1 H2]. by apply Split_once. Qed.

Lemma getPodUid_csi_target root uid pv rest :
  csi_once root uid pv rest -> root <> "" -> free_of "/"%char uid ->
  getPodUid (csi_target root uid pv rest) = uid.
Proof.
  intros H Hr Hu. unfold getPodUid. rewrite csi_target_split by done.
  change (root +:+ "/" +:+ uid +:+ "/") with (root +:+ String "/" uid +:+ "/").
  rewrite <-str_app_assoc, TrimSuffix_app, LastIndex_char_app by done.
  destruct (String.length root) as [|n] eqn:E; [by destruct root|].
  assert (str_drop (S (S n)) (root +:+ String "/" uid) = uid) as ->; [|done].
  rewrite <-E. change (String "/" uid) with ("/" +:+ uid). rewrite <-str_app_assoc.
  assert (S (String.length root) = String.length (root +:+ "/")) as ->
    by (rewrite str_length_app; simpl; lia).
  apply str_drop_app.
Qed.

Lemma getPVName_csi_target root uid pv rest :
  csi_once root uid pv rest -> pv <> "" -> free_of "/"%char pv ->
  getPVName (csi_target root uid pv rest) = pv.
Proof.
  intros H Hp Hf. unfold getPVName. rewrite csi_target_split, TrimPrefix_app by done.
  change (pv +:+ "/" +:+ rest) with (pv +:+ String "/" rest).
  rewrite Index_char_app by done.
  destruct (String.length pv) as [|n] eqn:E; [by destruct pv|].
  rewrite <-E. apply str_take_app.
Qed.

(** ** Effects of resolution *)

(** Resolving only stats paths and iterates over maps. *)
Lemma resolveTargetItem_avoids P mit path isPrefix :
  (forall p, P (Stat p) = false) -> (forall ks, P (RangeKeys ks) = false) ->
  avoids (S := jfs) P (resolveTargetItem mit path isPrefix).
Proof.
  intros HS HR. apply avoids_bind.
  - apply avoids_bind; [by apply avoids_call|done].
  - intros l. apply avoids_fold. intros [k ti] res. cbn. auto.
Qed.

Lemma resolveTarget_avoids P mit tgt :
  (forall p, P (Stat p) = false) -> (forall ks, P (RangeKeys ks) = false) ->
  avoids (S := jfs) P (resolveTarget mit tgt).
Proof.
  intros HS HR. unfold resolveTarget.
  destruct (Split tgt _) as [|dir [|x [|]]]; try done.
  case_bool_decide; [done|]. case_bool_decide; [done|].
  apply avoids_bind; [by apply resolveTargetItem_avoids|]. intros items.
  apply avoids_bind.
  - destruct items as [|it [|]]; cbn; auto.
  - intros base. apply avoids_bind; [by apply resolveTargetItem_avoids|done].
Qed.
