(* ===== verification/Interp.v ===== *)
(** * Linking a program with the code behind its commands

    A handler gives for every command of one signature a program over another.
    [interp] replaces the commands of a program by their handlers; its runs are
    the runs of the program, each event refined by a run of its handler. *)
From S2P Require Import Prelude.
From S2P Require Import Prog.
#[local] Open Scope go_scope.

Section interp.
Context {S T : signature} (h : forall c : cmd S, prog T (answer S c)).

Fixpoint interp {A} (p : prog S A) : prog T A :=
  match p with
  | Ret a => Ret a
  | Halt s => Halt s
  | Vis c k => bind (h c) (fun a => interp (k a))
  end.

(** A concrete trace implements an abstract one: it is made of runs of the
    handlers that give the answers of the abstract events. *)
Inductive implements : trace S -> trace T -> Prop :=
| implements_nil : implements [] []
| implements_cons c a u t1 t2 :
    runs (h c) t1 (Done a) -> implements u t2 -> implements (ev c a :: u) (t1 ++ t2).

Lemma implements_inv u t :
  implements u t ->
  match u with
  | [] => t = []
  | e :: u' => exists t1 t2, t = t1 ++ t2 /\ runs (h (projT1 e)) t1 (Done (projT2 e)) /\ implements u' t2
  end.
Proof. intros Hi. destruct Hi as [|c a u t1 t2]; [done|by exists t1, t2]. Qed.

Lemma implements_app u1 u2 t1 t2 : implements u1 t1 -> implements u2 t2 -> implements (u1 ++ u2) (t1 ++ t2).
Proof. intros Hu H2. induction Hu; [done|]. rewrite <-app_assoc. by constructor. Qed.

Lemma implements_split u1 u2 t :
  implements (u1 ++ u2) t -> exists t1 t2, t = t1 ++ t2 /\ implements u1 t1 /\ implements u2 t2.
Proof.
  revert t. induction u1 as [|[c a] u1 IH]; intros t Hi; [exists [], t; by repeat constructor|].
  apply implements_inv in Hi as (t1 & t2 & -> & Hr & (t3 & t4 & -> & H3 & H4)%IH).
  exists (t1 ++ t3), t4. rewrite <-app_assoc. split_and!; [done| |done]. by constructor.
Qed.

Lemma interp_bind {A B} (p : prog S A) (f : A -> prog S B) :
  interp (bind p f) ≡ bind (interp p) (fun a => interp (f a)).
Proof.
  induction p as [a|s|c k IH]; cbn [bind interp]; [done..|].
  rewrite bind_assoc. by apply bind_proper.
Qed.

Context (h_returns : forall c t s, ~ runs (h c) t (Halted s)).

(** The runs of the linked program are the runs of the program, implemented. *)
Lemma runs_interp {A} (p : prog S A) t o :
  runs (interp p) t o <-> exists u, runs p u o /\ implements u t.
Proof.
  revert t. induction p as [a|s|c k IH]; intros t; cbn [interp runs].
  - split; [intros [-> ->]; exists []; by repeat constructor|].
    by intros (u & [-> ->] & ->%implements_inv).
  - split; [intros [-> ->]; exists []; by repeat constructor|].
    by intros (u & [-> ->] & ->%implements_inv).
  - rewrite runs_bind. split.
    + intros [(t1 & t2 & a & -> & H1 & (u & Hu & Hi)%IH)|(s & Hs & _)]; [|by destruct (h_returns _ _ _ Hs)].
      exists (ev c a :: u). split; [by exists a, u|by constructor].
    + intros (u & (a & u' & -> & Hu) & (t1 & t2 & -> & H1 & H2)%implements_inv). left.
      exists t1, t2, a. split; [done|]. split; [done|]. apply IH. by exists u'.
Qed.

(** Where a concrete event comes from. *)
Lemma implements_event u t t1 e t2 :
  implements u t -> t = t1 ++ e :: t2 ->
  exists u1 c a u2 t3 t4 t5, u = u1 ++ ev c a :: u2 /\ implements u1 t3 /\ runs (h c) (t4 ++ e :: t5) (Done a) /\
    t1 = t3 ++ t4.
Proof.
  intros Hi. revert t1 t2. induction Hi as [|c a u t3 t4 Hr Hi IH]; intros t1 t2 Ht; [by destruct t1|].
  apply app_eq_app in Ht as [l [[-> Hl]|[-> ->]]].
  - destruct l as [|e' l]; cbn in Hl.
    + destruct (IH [] t2) as (u1 & c' & a' & u2 & t5 & t6 & t7 & -> & Hi' & Hr' & Hn); [done|].
      exists (ev c a :: u1), c', a', u2, (t1 ++ t5), t6, t7. split_and!; [done| |done|].
      * rewrite app_nil_r in Hr. by constructor.
      * by rewrite <-app_assoc, <-Hn, app_nil_r.
    + injection Hl as -> ->. exists [], c, a, u, [], t1, l. split_and!; [done|constructor|done|done].
  - destruct (IH l t2 eq_refl) as (u1 & c' & a' & u2 & t5 & t6 & t7 & -> & Hi' & Hr' & ->).
    exists (ev c a :: u1), c', a', u2, (t3 ++ t5), t6, t7. split_and!; [done|by constructor|done|by rewrite app_assoc].
Qed.
End interp.
