(* ===== verification/KubeClient.v ===== *)
(** * pkg/k8sclient: the clients of the API server and of the kubelet

    [client.go] and [kubelet_client.go].  The commands of Effects that go
    through them are programs over a lower signature, the requests that
    client-go and net/http send; the other commands are passed on.  A nil object
    is not modelled: the callers pass the address of a value.  The text of a
    selector, the JSON of a pod list and TLS are of other libraries. *)
From S2P Require Import Prelude.
From S2P Require Import GoStrings.
From S2P Require Import Decimal.
From S2P Require Import K8s.
From S2P Require Import Prog.
From S2P Require Import Effects.
From S2P Require Import Config.
From S2P Require Import Util.
From S2P Require Import VolumeUtil.
From S2P Require Import Interp.
#[local] Open Scope Z_scope.
#[local] Open Scope go_scope.

(** ** Requests *)

Inductive kind :=
| KPod | KSecret | KJob | KNode | KPersistentVolume | KPersistentVolumeClaim | KStorageClass
| KReplicaSet | KStatefulSet | KDaemonSet.
#[export] Instance kind_eq_dec : EqDecision kind.
Proof. solve_decision. Defined.

(** Of the owners of pods only the existence matters, of a daemon set also its
    template. *)
Definition object (k : kind) : Type :=
  match k with
  | KPod => Pod
  | KSecret => Secret
  | KJob => Job
  | KNode => Node
  | KPersistentVolume => PersistentVolume
  | KPersistentVolumeClaim => PersistentVolumeClaim
  | KStorageClass => StorageClass
  | KReplicaSet | KStatefulSet => unit
  | KDaemonSet => PodSpec
  end.

(** [metav1.ListOptions]: with the resource version 0 the answer comes from the
    cache of the API server. *)
Record ListOptions := { lo_ResourceVersion : string; lo_LabelSelector : string; lo_FieldSelector : string }.

Record TransportConfig := {
  CAFile : string;
  CertFile : string;
  KeyFile : string;
  Insecure : bool;
  BearerToken : string;
}.

Inductive kube_cmd :=
| Get (ctx : context) (k : kind) (ns name : string)
| List (k : kind) (ns : string) (o : ListOptions)
| Create (k : kind) (ns : string) (o : object k)
| Update (k : kind) (ns : string) (o : object k)
| Patch (k : kind) (ns name : string) (d : patch)
| Delete (k : kind) (ns name : string) (propagation : option string)
| Logs (ns name container : string) (tailLines : Z)      (** the text read, with the error of the copy *)
| InClusterConfig
| NewForConfig (qps burst : option Z)
| NewSPDYExecutor (ns name container : string) (command : list string)
| Stream                                                 (** of the executor *)
| NewTransport (tls wrappers : TransportConfig)
| HTTPGet (url : string)                                 (** the body, with the error of its reading *)
| Outside (c : jfs_cmd).

Definition kube_answer (c : kube_cmd) : Type :=
  match c with
  | Get _ k _ _ | Create k _ _ | Update k _ _ | Patch k _ _ _ => res (object k)
  | List k _ _ => res (list (object k))
  | Delete _ _ _ _ | InClusterConfig | NewForConfig _ _ | NewSPDYExecutor _ _ _ _ | NewTransport _ _ => option error
  | Logs _ _ _ _ => res (string * option error)
  | Stream => string * string * option error
  | HTTPGet _ => res (res string)
  | Outside c => jfs_answer c
  end.
Definition kube : signature := Signature kube_cmd kube_answer.
Abbreviation K := (prog kube).
Definition request (c : kube_cmd) : K (kube_answer c) := call (S := kube) c.

(** [x, err := p; if err != nil { return nil, err }]. *)
Definition bindK {A B} (p : K (res A)) (f : A -> K (res B)) : K (res B) :=
  r <- p ;; match r with Ok a => f a | Err e => Ret (Err e) end.
Definition thenK {B} (p : K (option error)) (q : K (res B)) : K (res B) :=
  r <- p ;; match r with None => q | Some e => Ret (Err e) end.
(** [_, err := p; return err]. *)
Definition only_error {A} (p : K (res A)) : K (option error) :=
  r <- p ;; Ret match r with Ok _ => None | Err e => Some e end.
Definition Getenv (name : string) : K string :=
  v <- request (Outside (LookupEnv name)) ;; Ret (default "" v).

(** [labels.Selector.String()] and [fields.Selector.String()]. *)
Class SelectorCodec := {
  label_selector : smap -> list string -> res string;
  field_selector : smap -> string;
  unmarshal_pods : string -> res (list Pod);
}.

(** ** The client of the API server *)

Record K8sClient := { enableAPIServerListCache : bool; QPS : option Z; Burst : option Z }.

(** A number of the environment; empty means unset. *)
Definition env_number (name : string) : K (res (option Z)) :=
  v <- Getenv name ;;
  if bool_decide (v = "") then Ret (Ok None)
  else match Atoi v with
       | Some n => Ret (Ok (Some n))
       | None => Ret (Err (Errorf ("strconv.Atoi: parsing " +:+ v)))
       end.

Definition NewClient : K (res K8sClient) :=
  thenK (request InClusterConfig)
    (bindK (env_number "KUBE_QPS") (fun qps =>
     bindK (env_number "KUBE_BURST") (fun burst =>
     thenK (request (NewForConfig qps burst))
       (v <- Getenv "ENABLE_APISERVER_LIST_CACHE" ;;
        Ret (Ok {| enableAPIServerListCache := bool_decide (v = "true"); QPS := qps; Burst := burst |}))))).

(** ** The client of the kubelet *)

Record KubeletClient := { kc_host : string; kc_port : Z; kc_timeout : Z }.

Definition defaultKubeletTimeout : Z := 10.
Definition serviceAccountTokenFile : string := "/var/run/secrets/kubernetes.io/serviceaccount/token".

(** Without an authority to check against, the connection is insecure. *)
Definition transportConfig (cert key token : string) : TransportConfig :=
  {| CAFile := ""; CertFile := cert; KeyFile := key; Insecure := true; BearerToken := token |}.
Definition makeTransport (config : TransportConfig) (insecureSkipTLSVerify : bool) : K (option error) :=
  let preTLSConfig :=
    if insecureSkipTLSVerify
    then {| CAFile := ""; CertFile := CertFile config; KeyFile := KeyFile config; Insecure := true;
            BearerToken := BearerToken config |} else config in
  request (NewTransport preTLSConfig config).

(** The token of the service account, unless there is a client certificate. *)
Definition kubelet_token (cert key : string) : K (res string) :=
  if bool_decide (cert = "") && bool_decide (key = "")
  then r <- request (Outside (ReadFile serviceAccountTokenFile)) ;;
       Ret match r with
           | Ok token => Ok token
           | Err e => Err (Errorf ("in cluster mode, find token failed: " +:+ error_text e))
           end
  else Ret (Ok "").

Definition kubelet_timeout : K (res Z) :=
  v <- Getenv "KUBELET_TIMEOUT" ;;
  if bool_decide (v = "") then Ret (Ok defaultKubeletTimeout)
  else match Atoi v with
       | Some n => Ret (Ok n)
       | None => Ret (Err (Errorf ("got error when parsing kubelet timeout: strconv.Atoi: parsing " +:+ v)))
       end.

Definition NewKubeletClient (host : string) (port : Z) : K (res KubeletClient) :=
  cert <- Getenv "KUBELET_CLIENT_CERT" ;;
  key <- Getenv "KUBELET_CLIENT_KEY" ;;
  bindK (kubelet_token cert key) (fun token =>
  bindK kubelet_timeout (fun timeout =>
  thenK (makeTransport (transportConfig cert key token) true)
    (Ret (Ok {| kc_host := host; kc_port := port; kc_timeout := wrap64 (timeout * Second) |})))).

(** ** The calls of the API server *)

Section options.
Context `{SelectorCodec}.

Definition GetNodeRunningPods (kc : KubeletClient) : K (res (list Pod)) :=
  bindK (request (HTTPGet ("https://" +:+ kc_host kc +:+ ":" +:+ pretty (kc_port kc) +:+ "/pods/"))) (fun resp =>
  match resp with
  | Err e => Ret (Err e)
  | Ok body =>
      if bool_decide (body = "Unauthorized") then Ret (Err (Errorf "unauthorized"))
      else Ret (unmarshal_pods body)
  end).

(** The options of a list: the label selector may be refused.  The selectors are
    empty where the caller passes nil, and then left out. *)
Definition label_text (sel : ListSelector) : res string :=
  if bool_decide (sel_labels sel = ∅) && bool_decide (sel_exists sel = []) then Ok ""
  else label_selector (sel_labels sel) (sel_exists sel).
Definition field_text (sel : ListSelector) : string :=
  if bool_decide (sel_fields sel = ∅) then "" else field_selector (sel_fields sel).
Definition list_options (version : string) (sel : ListSelector) : res ListOptions :=
  res_map (fun l => {| lo_ResourceVersion := version; lo_LabelSelector := l; lo_FieldSelector := field_text sel |}) (label_text sel).
Definition no_options : ListOptions := {| lo_ResourceVersion := ""; lo_LabelSelector := ""; lo_FieldSelector := "" |}.
Definition list_request (kd : kind) (ns : string) (o : res ListOptions) : K (res (list (object kd))) :=
  match o with Ok o => request (List kd ns o) | Err e => Ret (Err e) end.

End options.

(** The methods of the client, under their names. *)
Module Client.
Section client.
Context `{SelectorCodec} (k : K8sClient).

(** Of the lists, only that of pods may come from the cache. *)
Definition ListPod (ns : string) (sel : ListSelector) : K (res (list Pod)) :=
  list_request KPod ns (list_options (if enableAPIServerListCache k then "0" else "") sel).
Definition ListNode (labels : smap) : K (res (list Node)) :=
  list_request KNode "" (list_options "" {| sel_labels := labels; sel_exists := []; sel_fields := ∅ |}).

Definition CreatePod (p : Pod) : K (res Pod) := request (Create KPod (pod_namespace p) p).
Definition GetPod (ctx : context) (name ns : string) : K (res Pod) := request (Get ctx KPod ns name).
Definition PatchPod (p : Pod) (d : patch) : K (option error) :=
  only_error (request (Patch KPod (pod_namespace p) (pod_name p) d)).
Definition UpdatePod (p : Pod) : K (option error) := only_error (request (Update KPod (pod_namespace p) p)).
Definition DeletePod (p : Pod) : K (option error) := request (Delete KPod (pod_namespace p) (pod_name p) None).
Definition GetPodLog (name ns container : string) : K (res string) :=
  bindK (request (Logs ns name container 20)) (fun l =>
  match l with (text, None) => Ret (Ok text) | (_, Some e) => Ret (Err e) end).

Definition GetSecret (name ns : string) : K (res Secret) := request (Get Caller KSecret ns name).
Definition CreateSecret (s : Secret) : K (res Secret) := request (Create KSecret (Namespace (s_meta s)) s).
Definition UpdateSecret (s : Secret) : K (option error) := only_error (request (Update KSecret (Namespace (s_meta s)) s)).
Definition DeleteSecret (name ns : string) : K (option error) := request (Delete KSecret ns name None).
Definition PatchSecret (s : Secret) (d : patch) : K (option error) :=
  only_error (request (Patch KSecret (Namespace (s_meta s)) (Name (s_meta s)) d)).

Definition GetJob (ctx : context) (name ns : string) : K (res Job) := request (Get ctx KJob ns name).
Definition CreateJob (j : Job) : K (res Job) := request (Create KJob (Namespace (j_meta j)) j).
Definition UpdateJob (j : Job) : K (option error) := only_error (request (Update KJob (Namespace (j_meta j)) j)).
(** The pods of the job are deleted after it. *)
Definition DeleteJob (name ns : string) : K (option error) := request (Delete KJob ns name (Some "Background")).

Definition GetPersistentVolume (name : string) : K (res PersistentVolume) := request (Get Caller KPersistentVolume "" name).
(** Its callers in the driver select nothing. *)
Definition ListPersistentVolumes : K (res (list PersistentVolume)) := list_request KPersistentVolume "" (Ok no_options).
Definition ListStorageClasses : K (res (list StorageClass)) := list_request KStorageClass "" (Ok no_options).
Definition GetPersistentVolumeClaim (name ns : string) : K (res PersistentVolumeClaim) :=
  request (Get Caller KPersistentVolumeClaim ns name).
Definition GetReplicaSet (name ns : string) : K (res unit) := request (Get Background KReplicaSet ns name).
Definition GetStatefulSet (name ns : string) : K (res unit) := request (Get Background KStatefulSet ns name).
Definition GetStorageClass (name : string) : K (res StorageClass) := request (Get Caller KStorageClass "" name).
Definition GetDaemonSet (name ns : string) : K (res PodSpec) := request (Get Background KDaemonSet ns name).

Definition execute (ns name container : string) (command : list string) : K (string * string * option error) :=
  e <- request (NewSPDYExecutor ns name container command) ;;
  match e with Some e => Ret ("", "", Some e) | None => request Stream end.
Definition ExecuteInContainer (name ns container : string) (command : list string) : K (string * string * option error) :=
  e <- request InClusterConfig ;;
  match e with
  | Some e => Ret ("", "", Some e)
  | None => s <- execute ns name container command ;; Ret (TrimSpace s.1.1, TrimSpace s.1.2, s.2)
  end.
End client.
End Client.

Section clients.
Context `{SelectorCodec} (k : K8sClient) (kc : KubeletClient).

(** The owners that [checkOwner] asks for. *)
Definition owner_exists (kd name ns : string) : K (option error) :=
  if bool_decide (kd = "ReplicaSet") then only_error (Client.GetReplicaSet name ns)
  else if bool_decide (kd = "StatefulSet") then only_error (Client.GetStatefulSet name ns)
  else if bool_decide (kd = "DaemonSet") then only_error (Client.GetDaemonSet name ns)
  else only_error (Client.GetJob Background name ns).

(** The code behind each command. *)
Definition client (c : jfs_cmd) : K (jfs_answer c) :=
  match c return K (jfs_answer c) with
  | GetPod ctx name ns => Client.GetPod ctx name ns
  | ListPod ns sel => Client.ListPod k ns sel
  | CreatePod p => Client.CreatePod p
  | PatchPod p d => Client.PatchPod p d
  | DeletePod p => Client.DeletePod p
  | GetPodLog name ns container => Client.GetPodLog name ns container
  | ExecuteInContainer name ns container command => Client.ExecuteInContainer name ns container command
  | GetSecret name ns => Client.GetSecret name ns
  | CreateSecret s => Client.CreateSecret s
  | UpdateSecret s => Client.UpdateSecret s
  | DeleteSecret name ns => Client.DeleteSecret name ns
  | PatchSecret s d => Client.PatchSecret s d
  | GetJob ctx name ns => Client.GetJob ctx name ns
  | CreateJob j => Client.CreateJob j
  | DeleteJob name ns => Client.DeleteJob name ns
  | GetPersistentVolume name => Client.GetPersistentVolume name
  | ListPersistentVolumes => Client.ListPersistentVolumes
  | GetPersistentVolumeClaim name ns => Client.GetPersistentVolumeClaim name ns
  | GetStorageClass name => Client.GetStorageClass name
  | ListStorageClasses => Client.ListStorageClasses
  | GetOwner kd name ns => owner_exists kd name ns
  | ListNode labels => Client.ListNode labels
  | GetDaemonSet name ns => Client.GetDaemonSet name ns
  | NewK8sClient => only_error NewClient
  | Effects.NewKubeletClient host port => only_error (NewKubeletClient host port)
  | Effects.GetNodeRunningPods => GetNodeRunningPods kc
  | c => request (Outside c)
  end.

(** A program of the driver linked with its clients. *)
Definition linked {A} (p : M A) : K A := interp (S := jfs) client p.
End clients.
