(* ===== verification/Cluster.v ===== *)
(** * A reference environment

    The theorems quantify over every answer of the environment.  This file is
    one concrete environment, a small cluster that serves the commands against
    a state, so that the programs can be executed ([exec]) on examples: the API
    server keeps pods, secrets and jobs and applies patches and finalizers, a
    table answers [stat], and the clock advances with every sleep. *)
From S2P Require Import Prelude.
From S2P Require Import GoStrings.
From S2P Require Import K8s.
From S2P Require Import Prog.
From S2P Require Import Effects.
From S2P Require Import Config.
#[local] Open Scope Z_scope.

Record cluster := {
  cl_pods : gmap (string * string) Pod;
  cl_secrets : gmap (string * string) Secret;
  cl_jobs : gmap (string * string) Job;
  cl_stats : gmap string FileInfo;
  cl_mounts : list MountInfo;
  cl_nodes : list Node;
  cl_outputs : gmap string string;        (** output of the commands executed *)
  cl_clock : Z;
  cl_pvs : list PersistentVolume;
}.

Definition empty_cluster : cluster :=
  {| cl_pods := ∅; cl_secrets := ∅; cl_jobs := ∅; cl_stats := ∅; cl_mounts := []; cl_nodes := [];
     cl_outputs := ∅; cl_clock := 0; cl_pvs := [] |}.

Definition set_pods (f : gmap (string * string) Pod -> gmap (string * string) Pod) (w : cluster) : cluster :=
  {| cl_pods := f (cl_pods w); cl_secrets := cl_secrets w; cl_jobs := cl_jobs w;
     cl_stats := cl_stats w; cl_mounts := cl_mounts w; cl_nodes := cl_nodes w;
     cl_outputs := cl_outputs w; cl_clock := cl_clock w; cl_pvs := cl_pvs w |}.
Definition set_secrets (f : gmap (string * string) Secret -> gmap (string * string) Secret) (w : cluster) : cluster :=
  {| cl_pods := cl_pods w; cl_secrets := f (cl_secrets w); cl_jobs := cl_jobs w;
     cl_stats := cl_stats w; cl_mounts := cl_mounts w; cl_nodes := cl_nodes w;
     cl_outputs := cl_outputs w; cl_clock := cl_clock w; cl_pvs := cl_pvs w |}.
Definition set_jobs (f : gmap (string * string) Job -> gmap (string * string) Job) (w : cluster) : cluster :=
  {| cl_pods := cl_pods w; cl_secrets := cl_secrets w; cl_jobs := f (cl_jobs w);
     cl_stats := cl_stats w; cl_mounts := cl_mounts w; cl_nodes := cl_nodes w;
     cl_outputs := cl_outputs w; cl_clock := cl_clock w; cl_pvs := cl_pvs w |}.
Definition set_clock (f : Z -> Z) (w : cluster) : cluster :=
  {| cl_pods := cl_pods w; cl_secrets := cl_secrets w; cl_jobs := cl_jobs w;
     cl_stats := cl_stats w; cl_mounts := cl_mounts w; cl_nodes := cl_nodes w;
     cl_outputs := cl_outputs w; cl_clock := f (cl_clock w); cl_pvs := cl_pvs w |}.

(** ** Patches and deletions *)

Definition apply_op (op : json_patch) (m : ObjectMeta) : ObjectMeta :=
  match op with
  | ReplaceList path l => if bool_decide (path = "/metadata/finalizers") then with_finalizers l m else m
  | ReplaceMap path a => if bool_decide (path = "/metadata/annotations") then with_annotations a m else m
  | RemovePath path =>
      with_annotations (delete (TrimPrefix path "/metadata/annotations/") <$> Annotations m) m
  end.
Definition apply_patch (d : patch) (m : ObjectMeta) : ObjectMeta :=
  match d with
  | JSONPatch ops => foldl (fun m op => apply_op op m) m ops
  | MergeLabels l => with_labels (Some (l ∪ nil_map (Labels m))) m
  | MergeAnnotations a => with_annotations (Some (a ∪ nil_map (Annotations m))) m
  end.

(** A deleted object stays while it has finalizers. *)
Definition settle (p : Pod) : option Pod :=
  match DeletionTimestamp (p_meta p), Finalizers (p_meta p) with
  | Some _, [] => None
  | _, _ => Some p
  end.

Definition key_of (p : Pod) : string * string := (pod_name p, pod_namespace p).
Definition not_found (what : string) : error := APIError NotFound (what +:+ " not found").

(** ** Serving a command *)

Definition serve (w : cluster) (c : jfs_cmd) : cluster * jfs_answer c :=
  match c return cluster * jfs_answer c with
  | GetPod _ n ns =>
      (w, match cl_pods w !! (n, ns) with Some p => Ok p | None => Err (not_found n) end)
  | ListPod ns _ =>
      (w, Ok (List.filter (fun p => bool_decide (pod_namespace p = ns)) (map_to_list (cl_pods w)).*2))
  | GetNodeRunningPods => (w, Ok (map_to_list (cl_pods w)).*2)
  | CreatePod p =>
      match cl_pods w !! key_of p with
      | Some _ => (w, Err (APIError AlreadyExistsReason "already exists"))
      | None => (set_pods <[ key_of p := p ]> w, Ok p)
      end
  | PatchPod p d =>
      match cl_pods w !! key_of p with
      | None => (w, Some (not_found (pod_name p)))
      | Some q => (set_pods (partial_alter
                     (fun _ => settle (with_meta (apply_patch d (p_meta q)) q)) (key_of p)) w, None)
      end
  | DeletePod p =>
      match cl_pods w !! key_of p with
      | None => (w, Some (not_found (pod_name p)))
      | Some q => (set_pods (partial_alter
                     (fun _ => settle (with_meta (with_deletion (Some (cl_clock w)) (p_meta q)) q))
                     (key_of p)) w, None)
      end
  | GetPodLog _ _ _ => (w, Ok "")
  | ExecuteInContainer _ _ _ command =>
      (w, (default "" (cl_outputs w !! Join command " "), "", None))
  | GetSecret n ns =>
      (w, match cl_secrets w !! (n, ns) with Some s => Ok s | None => Err (not_found n) end)
  | CreateSecret s => (set_secrets <[ (Name (s_meta s), Namespace (s_meta s)) := s ]> w, Ok s)
  | UpdateSecret s => (set_secrets <[ (Name (s_meta s), Namespace (s_meta s)) := s ]> w, None)
  | DeleteSecret n ns => (set_secrets (delete (n, ns)) w, None)
  | PatchSecret _ _ => (w, None)
  | GetJob _ n ns =>
      (w, match cl_jobs w !! (n, ns) with Some j => Ok j | None => Err (not_found n) end)
  | CreateJob j =>
      let k := (Name (j_meta j), Namespace (j_meta j)) in
      match cl_jobs w !! k with
      | Some _ => (w, Err (APIError AlreadyExistsReason "already exists"))
      | None => (set_jobs <[ k := j ]> w, Ok j)
      end
  | DeleteJob n ns =>
      match cl_jobs w !! (n, ns) with
      | None => (w, Some (not_found n))
      | Some _ => (set_jobs (delete (n, ns)) w, None)
      end
  | GetPersistentVolume n =>
      (w, match List.find (fun pv => bool_decide (Name (pv_meta pv) = n)) (cl_pvs w) with
          | Some pv => Ok pv | None => Err (not_found n) end)
  | ListPersistentVolumes => (w, Ok (cl_pvs w))
  | GetPersistentVolumeClaim n _ => (w, Err (not_found n))
  | GetStorageClass n => (w, Err (not_found n))
  | GetOwner _ n _ => (w, Some (not_found n))
  | ListNode _ => (w, Ok (cl_nodes w))
  | GetNode n => (w, match List.find (fun nd => bool_decide (Name (n_meta nd) = n)) (cl_nodes w) with
                     | Some nd => Ok nd | None => Err (not_found n) end)
  | ListStorageClasses => (w, Ok [])
  | ListEvents _ _ _ => (w, Ok [])
  | Stat p => (w, match cl_stats w !! p with Some fi => Ok fi | None => Err (OSError ENotExist p) end)
  | PathExists p => (w, Ok (bool_decide (is_Some (cl_stats w !! p))))
  | MkdirAll _ _ | Chmod _ _ | RemoveFile _ | WriteFile _ _ | Mount _ _ _ _ | Unmount _
  | CleanupMountPoint _ | NewKubeletClient _ _ | NewK8sClient | RemoveAll _ => (w, None)
  | GetDaemonSet n _ => (w, Err (not_found n))
  | ReadFile p =>
      (w, match cl_outputs w !! ("cat " +:+ p) with Some out => Ok out | None => Err (OSError ENotExist p) end)
  | LazyUmount d =>
      (w, match cl_outputs w !! ("umount -l " +:+ d) with
          | Some out => (out, Some (Errorf "exit status 32"))
          | None => ("", None)
          end)
  | Exec _ prog args _ => (w, (default "" (cl_outputs w !! Join (prog :: args) " "), None))
  | IsNotMountPoint p | IsLikelyNotMountPoint p =>
      (w, Ok (negb (existsb (fun mi => bool_decide (mi_mountPoint mi = p)) (cl_mounts w))))
  | EvalSymlinks p => (w, Ok p)
  | MkdirTemp p => (w, Ok ("/tmp/" +:+ p))
  | Environ => (w, [])
  | CacheInfoLoad _ => (w, ("", []))
  | CacheInfoStore _ _ _ | CacheInfoDelete _ => (w, tt)
  | ParseMountInfo => (w, Ok (cl_mounts w))
  | Statfs _ => (w, Ok (4096, 1000, 600, 100, 40))
  | LookupEnv _ => (w, None)
  | Lock _ | Unlock _ | MinorStore _ _ | MinorDelete _ | ReleaseVolume _
  | BackOffNext _ | BackOffReset _ | BackOffGC => (w, tt)
  | BackOffActive _ => (w, false)
  | TryAcquireVolume _ => (w, true)
  | MinorLoad _ => (w, None)
  | CtxErr _ | AwaitDone _ => (w, None)
  | CtxDone _ => (w, DeadlineExceeded)
  | Scheduled => (w, false)
  | Sleep d => (set_clock (Z.add d) w, tt)
  | Now => (w, cl_clock w)
  | RandIntn n => (w, exist _ O (proj1 (Nat.neq_0_lt_0 n)))
  | RangeKeys ks => (w, exist _ ks (Permutation_refl ks))
  end.
