(* ===== verification/KubeCluster.v ===== *)
(** * A reference environment for the requests

    The small cluster of Cluster, answering the requests of KubeClient: the
    linked programs can be executed on it. *)
From S2P Require Import Prelude.
From S2P Require Import GoStrings.
From S2P Require Import K8s.
From S2P Require Import Prog.
From S2P Require Import Effects.
From S2P Require Import Interp.
From S2P Require Import KubeClient.
From S2P Require Import Cluster.
#[local] Open Scope Z_scope.
#[local] Open Scope go_scope.

Definition whole : ListSelector := {| sel_labels := ∅; sel_exists := []; sel_fields := ∅ |}.

Definition get_object (w : cluster) (ctx : context) (k : kind) (ns name : string) : res (object k) :=
  match k return res (object k) with
  | KPod => (serve w (GetPod ctx name ns)).2
  | KSecret => (serve w (GetSecret name ns)).2
  | KJob => (serve w (GetJob ctx name ns)).2
  | KPersistentVolume => (serve w (GetPersistentVolume name)).2
  | KNode => (serve w (GetNode name)).2
  | _ => Err (not_found name)
  end.
Definition list_objects (w : cluster) (k : kind) (ns : string) : res (list (object k)) :=
  match k return res (list (object k)) with
  | KPod => (serve w (ListPod ns whole)).2
  | KPersistentVolume => (serve w ListPersistentVolumes).2
  | KNode => (serve w (ListNode ∅)).2
  | _ => Ok []
  end.
Definition create_object (w : cluster) (k : kind) : object k -> cluster * res (object k) :=
  match k return object k -> cluster * res (object k) with
  | KPod => fun o => serve w (CreatePod o)
  | KSecret => fun o => serve w (CreateSecret o)
  | KJob => fun o => serve w (CreateJob o)
  | _ => fun o => (w, Ok o)
  end.
Definition update_object (w : cluster) (k : kind) : object k -> cluster * res (object k) :=
  match k return object k -> cluster * res (object k) with
  | KSecret => fun o => ((serve w (UpdateSecret o)).1, Ok o)
  | _ => fun o => (w, Ok o)
  end.
(** Only pods are patched. *)
Definition patch_object (w : cluster) (k : kind) (ns name : string) (d : patch) : cluster * res (object k) :=
  match k return cluster * res (object k) with
  | KPod => match cl_pods w !! (name, ns) with
            | None => (w, Err (not_found name))
            | Some q => match serve w (PatchPod q d) with (w', None) => (w', Ok q) | (w', Some e) => (w', Err e) end
            end
  | _ => (w, Err (not_found name))
  end.
Definition delete_object (w : cluster) (k : kind) (ns name : string) : cluster * option error :=
  match k with
  | KPod => match cl_pods w !! (name, ns) with
            | None => (w, Some (not_found name))
            | Some q => serve w (DeletePod q)
            end
  | KSecret => serve w (DeleteSecret name ns)
  | KJob => serve w (DeleteJob name ns)
  | _ => (w, Some (not_found name))
  end.

Definition serve_request (w : cluster) (c : kube_cmd) : cluster * kube_answer c :=
  match c return cluster * kube_answer c with
  | Get ctx k ns name => (w, get_object w ctx k ns name)
  | List k ns _ => (w, list_objects w k ns)
  | Create k _ o => create_object w k o
  | Update k _ o => update_object w k o
  | Patch k ns name d => patch_object w k ns name d
  | Delete k ns name _ => delete_object w k ns name
  | Logs _ _ _ _ => (w, Ok ("", None))
  | InClusterConfig | NewForConfig _ _ | NewSPDYExecutor _ _ _ _ | NewTransport _ _ => (w, None)
  | Stream => (w, ("", "", None))
  | HTTPGet _ => (w, Ok (Ok "[]"))
  | Outside c => serve w c
  end.
