(* ===== verification/PodDriver.v ===== *)
(** * pkg/controller/pod_driver.go: the life of a mount pod on its node

    [Run] is called for every mount pod of the node, by the reconciler that
    polls the kubelet and by the pod controller: it first garbage-collects the
    references of dead app pods, then dispatches on the status of the pod.
    The handlers are programs over the environment of Effects; the polling
    loops of the code take a [fuel]. *)
From S2P Require Import Prelude.
From S2P Require Import GoStrings.
From S2P Require Import Hash.
From S2P Require Import K8s.
From S2P Require Import GoTime.
From S2P Require Import Prog.
From S2P Require Import Effects.
From S2P Require Import Config.
From S2P Require Import Util.
From S2P Require Import PodUtil.
From S2P Require Import Setting.
From S2P Require Import JfsSetting.
From S2P Require Import Builder.
From S2P Require Import MountTable.
#[local] Open Scope Z_scope.
#[local] Open Scope go_scope.

Definition defaultCheckoutTimeout : Z := Second.
Definition defaultTargetMountCounts : Z := 5.

Inductive podStatus := podReady | podError | podDeleted_ | podPending.
#[export] Instance podStatus_eq_dec : EqDecision podStatus.
Proof. solve_decision. Defined.

(** [getPodStatus]; [None] is the nil pod. *)
Definition getPodStatus (pod : option Pod) : podStatus :=
  match pod with
  | None => podError
  | Some p => if is_deleted p then podDeleted_
              else if IsPodError p then podError
              else if IsPodReady p then podReady
              else podPending
  end.

(** What the driver takes from the mount package: [podMnt.CleanCache]. *)
Class MountJobs := {
  CleanCache : nat -> string -> string -> string -> list string -> M (option error);
  (** cleaning a cache neither locks nor touches a pod *)
  CleanCache_lock_free n i u v d : lock_free (CleanCache n i u v d);
  CleanCache_no_pod n i u v d :
    avoids (S := jfs) (fun c => match c with
                                | CreatePod _ | DeletePod _ | PatchPod _ _ => true
                                | _ => false end) (CleanCache n i u v d);
  (** its wait ends with the polls *)
  CleanCache_needs n i u v d : jneeds n (CleanCache n i u v d);
}.

Definition conflict_error (pod : Pod) (why : string) : error :=
  APIError Conflict (pod_name pod +:+ ": " +:+ why).

(** ** References *)

(** The loop over the annotations: the references of dead targets, and how
    many targets still exist. *)
Definition scan_refs (mit : mountInfoTable) (kvs : list (string * string)) : list string * Z :=
  foldl (fun acc kv =>
           if is_ref kv
           then match deletedPods mit !! getPodUid kv.2 with
                | None => (acc.1 ++ [kv.1], acc.2)
                | Some _ => (acc.1, acc.2 + 1)
                end
           else acc) ([], 0) kvs.

(** Delete the mount pod and its secret once it has no reference left. *)
Definition delete_unreferenced (pod : Pod) : M (option error) :=
  newPod <-! sys (GetPod Caller (pod_name pod) (pod_namespace pod)) ;;
  if bool_decide (size (GetAllRefKeys newPod) <> 0%nat)
  then Ret (Some (conflict_error pod "can not delete pod"))
  else
    sys (DeletePod pod) ?;;
    (sys (DeleteSecret (pod_name pod +:+ "-secret") (pod_namespace pod)) ;;; Ret None).

Definition drop_dead_refs (pod : Pod) (delAnnotations : list string) : M (option error) :=
  match delAnnotations with
  | [] => Ret None
  | _ =>
      newPod <-! sys (GetPod Caller (pod_name pod) (pod_namespace pod)) ;;
      if bool_decide (size (GetAllRefKeys newPod) <> size (GetAllRefKeys pod))
      then Ret (Some (conflict_error pod "can not patch pod"))
      else DelPodAnnotation pod delAnnotations
  end.

Definition checkAnnotations `{Globals} (mit : mountInfoTable) (pod : Pod) : M (option error) :=
  locked (pod_name pod) (
    kvs <- range_map (pod_annotations pod) ;;
    let delAnnotations := (scan_refs mit kvs).1 in
    let existTargets := (scan_refs mit kvs).2 in
    let delAnnotations :=
      if negb (existTargets =? 0) && negb (bool_decide (sget (pod_annotations pod) DeleteDelayAtKey = ""))
      then delAnnotations ++ [DeleteDelayAtKey] else delAnnotations in
    drop_dead_refs pod delAnnotations ?;;
    if (existTargets =? 0) && negb (is_deleted pod)
    then r <- ShouldDelay pod ;;
         match r with
         | (_, Some e) => Ret (Some e)
         | (true, None) => Ret None
         | (false, None) => delete_unreferenced pod
         end
    else Ret None).

(** ** Pods that failed for lack of resources *)

(** The pod that replaces [pod]: its metadata and spec, with the finalizer. *)
Definition recreated_pod (pod : Pod) : Pod :=
  {| p_meta := with_finalizers [Finalizer]
                 (with_labels (Labels (p_meta pod))
                   (with_annotations (Annotations (p_meta pod))
                     {| Name := pod_name pod; Namespace := pod_namespace pod; UID := "";
                        ResourceVersion := ""; Labels := None; Annotations := None;
                        Finalizers := []; CreationTimestamp := 0; DeletionTimestamp := None; OwnerReferences := None |}));
     p_spec := p_spec pod; p_status := empty_status |}.

(** [for { GetPod ... }]: [true] when the pod is gone, [false] when the wait
    was cut. *)
Definition wait_deleted_step (pod : Pod) (u : unit) : M (unit + bool) :=
  r <- sys (GetPod Caller (pod_name pod) (pod_namespace pod)) ;;
  match r with
  | Ok _ => sys (Sleep (500 * Microsecond)) ;;; Ret (inl tt)
  | Err e =>
      if IsNotFound e then Ret (inr true)
      else if IsTimeout e then Ret (inr false)
      else c <- sys (CtxErr Caller) ;;
           match c with
           | Some _ => Ret (inr false)
           | None => Ret (inl tt)
           end
  end.

Definition redeploy_without_resources (fuel : nat) (pod : Pod) : M (option error) :=
  RemoveFinalizer pod Finalizer ;;;
  r <- sys (DeletePod pod) ;;
  match r with
  | Some _ => Ret None
  | None =>
      isDeleted <- loop fuel (wait_deleted_step pod) tt ;;
      if negb isDeleted then Ret None
      else sys (CreatePod (DeleteResourceOfPod (recreated_pod pod))) ;;; Ret None
  end.

Definition podErrorHandler (fuel : nat) (pod : option Pod) : M (option error) :=
  match pod with
  | None => Ret None
  | Some pod =>
      locked (pod_name pod) (
        if IsPodResourceError pod && IsPodHasResource pod
        then redeploy_without_resources fuel pod
        else Ret None)
  end.

Definition podPendingHandler (fuel : nat) (pod : option Pod) : M (option error) :=
  match pod with
  | None => Ret None
  | Some pod =>
      locked (pod_name pod) (
        if IsPodResourceError pod && IsPodHasResource pod
        then redeploy_without_resources fuel pod
        else Ret None)
  end.

(** ** Recovery of the targets of a ready pod *)

(** [umountTarget]: [n] unmounts, errors ignored. *)
Fixpoint umount_times (tgt : string) (n : nat) : M unit :=
  match n with
  | O => Ret tt
  | S n' => sys (Unmount tgt) ;;; umount_times tgt n'
  end.
Definition umountTarget (tgt : string) (n : Z) : M unit :=
  if n <=? 0 then Ret tt else umount_times tgt (Z.to_nat n).

(** The mount count of a target in a freshly resolved item. *)
Definition target_count (mi : mountItem) (tgt : string) : Z :=
  if bool_decide (target (baseTarget mi) = tgt) then count (baseTarget mi)
  else foldl (fun c t => if bool_decide (target t = tgt) then count t else c)
         (count (baseTarget mi)) (subPathTarget mi).

(** [umountTargetUntilRemain].  The [select] of the loop has the single case
    [<-subCtx.Done()], so the body never reaches a second iteration: after
    one umount it blocks until the two-minute deadline and fails. *)
Definition umountTargetUntilRemain (basemi : mountItem) (tgt : string) (remainCount : Z)
  : M (option error) :=
  r <- parse newMountInfoTable ;;
  match r with
  | (_, Some e) => Ret (Some (Errorf ("umountTargetWithRemain ParseMountInfo: " +:+ error_text e)))
  | (mit, None) =>
      mi <- resolveTarget mit (target (baseTarget basemi)) ;;
      match mi with
      | None => Ret (Some (Errorf ("pod target " +:+ tgt +:+ " resolve fail")))
      | Some mi =>
          if target_count mi tgt <? remainCount then Ret None
          else
            UmountPath tgt ;;;
            sys (CtxDone (WithTimeout Caller (2 * Minute))) ;;;
            Ret (Some (Errorf "umountTargetWithRemain timeout"))
      end
  end.

Definition recoverTarget (sourcePath : string) (ti : targetItem) (mi : mountItem) : M unit :=
  match status ti with
  | targetStatusNotExist =>
      if (0 <? count ti) && podDeleted mi then umountTarget (target ti) (count ti) else Ret tt
  | targetStatusMounted | targetStatusNotMount | targetStatusUnexpect => Ret tt
  | targetStatusCorrupt =>
      if inconsistent ti then Ret tt
      else if podDeleted mi then Ret tt
      else
        e <- umountTargetUntilRemain mi (target ti) defaultTargetMountCounts ;;
        match e with
        | Some _ => Ret tt
        | None =>
            if bool_decide (subpath ti = "")
            then sys (Mount sourcePath (target ti) "none" ["bind"]) ;;; Ret tt
            else
              let sourcePath := sourcePath +:+ "/" +:+ subpath ti in
              s <- sys (Stat sourcePath) ;;
              match s with
              | Err _ => Ret tt
              | Ok _ => sys (Mount sourcePath (target ti) "none" ["bind"]) ;;; Ret tt
              end
        end
  end.

Definition recover_one (mit : mountInfoTable) (mntPath : string) (kv : string * string) (u : unit)
  : M unit :=
  if is_ref kv
  then mi <- resolveTarget mit kv.2 ;;
       match mi with
       | None => Ret tt
       | Some mi =>
           recoverTarget mntPath (baseTarget mi) mi ;;;
           fold_prog (subPathTarget mi) (fun ti _ => recoverTarget mntPath ti mi) tt
       end
  else Ret tt.

Definition recover (mit : mountInfoTable) (pod : Pod) (mntPath : string) : M (option error) :=
  kvs <- range_map (pod_annotations pod) ;;
  fold_prog kvs (recover_one mit mntPath) tt ;;; Ret None.

Definition podReadyHandler (mit : mountInfoTable) (pod : option Pod) : M (option error) :=
  match pod with
  | None => Ret None
  | Some pod =>
      match Annotations (p_meta pod) with
      | None => Ret None
      | Some _ =>
          match GetMountPathOfPod pod with
          | Err _ => Ret None
          | Ok (mntPath, _) =>
              e <- DoWithTimeout Caller defaultCheckoutTimeout
                     (r <- sys (Stat mntPath) ;;
                      match r with
                      | Err e => Ret (Err e)
                      | Ok fi => match fi_stat fi with
                                 | Some (1, dev) => sys (MinorStore mntPath (DevMinor dev)) ;;; Ret (Ok tt)
                                 | _ => Ret (Ok tt)
                                 end
                      end) ;;
              match e with
              | Err _ => Ret None
              | Ok _ => recover mit pod mntPath
              end
          end
      end
  end.

(** ** Cache cleaning *)

Definition cache_dirs_of (pod : Pod) : list string :=
  omap (fun v => if HasPrefix (v_name v) "cachedir-" then v_hostPath v else None)
    (Volumes (p_spec pod)).

Inductive gone := Gone | NotGone | GetFailed.

Definition wait_gone_step (pod : Pod) (u : unit) : M (unit + gone) :=
  r <- sys (GetPod (WithTimeout Background (3 * Minute)) (pod_name pod) (pod_namespace pod)) ;;
  match r with
  | Err e => if IsNotFound e then Ret (inr Gone)
             else if IsTimeout e then Ret (inr NotGone)
             else Ret (inr GetFailed)
  | Ok _ => sys (Sleep (500 * Microsecond)) ;;; Ret (inl tt)
  end.

(** [CleanUpCache]; a pod without containers panics at the image. *)
Definition CleanUpCache `{MountJobs} (fuel : nat) (pod : Pod) : M unit :=
  if negb (bool_decide (sget (pod_annotations pod) CleanCacheKey = "true")) then Ret tt else
  let uuid := sget (pod_annotations pod) JuiceFSUUID in
  let uniqueId := sget (pod_annotations pod) UniqueId in
  if bool_decide (uuid = "") && bool_decide (uniqueId = "") then Ret tt else
  g <- loop fuel (wait_gone_step pod) tt ;;
  match g with
  | Gone =>
      match Containers (p_spec pod) with
      | [] => panic "index out of range"
      | c :: _ => CleanCache fuel (c_image c) uuid uniqueId (cache_dirs_of pod) ;;; Ret tt
      end
  | _ => Ret tt
  end.

(** ** Resources from the claim *)

(** [OverwirteMountPodResourcesWithPVC]: the pod with the resources its claim
    asks for, and the error.  A volume without a claim reference is a nil
    dereference. *)
Definition OverwirteMountPodResourcesWithPVC `{QuantityParser} (pod : Pod)
  : M (Pod * option error) :=
  let pvName := sget (pod_annotations pod) UniqueId in
  r <- sys (GetPersistentVolume pvName) ;;
  match r with
  | Err e => Ret (pod, Some e)
  | Ok pv =>
      match pv_claimRef pv with
      | None => panic "nil pointer dereference"
      | Some (name, ns) =>
          r <- sys (GetPersistentVolumeClaim name ns) ;;
          match r with
          | Err e => Ret (pod, Some e)
          | Ok pvc =>
              let a := nil_map (Annotations (pvc_meta pvc)) in
              match ParsePodResources (sget a MountPodCpuLimitKey) (sget a MountPodMemLimitKey)
                      (sget a MountPodCpuRequestKey) (sget a MountPodMemRequestKey) with
              | Err e => Ret (pod, Some (Errorf ("parse pvc resources error: " +:+ error_text e)))
              | Ok resources =>
                  match Containers (p_spec pod) with
                  | [] => panic "index out of range"
                  | c :: cs =>
                      Ret (with_spec (with_containers (with_resources resources c :: cs) (p_spec pod)) pod,
                           None)
                  end
              end
          end
      end
  end.

(** ** Stuck mount pods *)

(** The time [checkMountPodStuck] waits:
    [time.Duration( *TerminationGracePeriodSeconds) * 2] against a minute. *)
Definition stuck_timeout (pod : Pod) : Z :=
  match TerminationGracePeriodSeconds (p_spec pod) with
  | None => Minute
  | Some secs => let gracePeriod := wrap64 (secs * 2) in
                 if Minute <? gracePeriod then gracePeriod else Minute
  end.

Definition wait_abort_step (job : Job) (u : unit) : M (unit + unit) :=
  let waitCtx := WithTimeout Background Minute in
  c <- sys (CtxErr waitCtx) ;;
  match c with
  | Some _ => Ret (inr tt)
  | None =>
      r <- sys (GetJob waitCtx (Name (j_meta job)) (Namespace (j_meta job))) ;;
      match r with
      | Err e => if IsNotFound e then Ret (inr tt)
                 else sys (Sleep (10 * Second)) ;;; Ret (inl tt)
      | Ok j => if IsJobCompleted j then Ret (inr tt)
                else sys (Sleep (10 * Second)) ;;; Ret (inl tt)
      end
  end.

Definition doAbortFuse (fuel : nat) (mountpod : Pod) (devMinor : Z) : M (option error) :=
  job <- NewFuseAbortJob mountpod devMinor ;;
  r <- sys (CreateJob job) ;;
  match r with
  | Err e => Ret (Some e)
  | Ok _ => loop fuel (wait_abort_step job) tt ;;; Ret None
  end.

Definition stuck_step (fuel : nat) (pod : Pod) (mountPoint : string) (u : unit)
  : M (unit + unit) :=
  let ctx := WithTimeout Background (stuck_timeout pod) in
  d <- sys (AwaitDone ctx) ;;
  match d with
  | Some _ =>
      m <- sys (MinorLoad mountPoint) ;;
      match m with
      | Some devMinor => doAbortFuse fuel pod devMinor ;;; Ret (inr tt)
      | None => Ret (inr tt)
      end
  | None =>
      r <- sys (GetPod ctx (pod_name pod) (pod_namespace pod)) ;;
      match r with
      | Err _ => Ret (inr tt)
      | Ok newPod =>
          if bool_decide (getPodStatus (Some newPod) <> podDeleted_) then Ret (inr tt)
          else sys (Sleep (10 * Second)) ;;; Ret (inl tt)
      end
  end.

Definition checkMountPodStuck (fuel : nat) (pod : option Pod) : M unit :=
  match pod with
  | None => Ret tt
  | Some pod =>
      if bool_decide (getPodStatus (Some pod) <> podDeleted_) then Ret tt
      else
        let mountPoint := match GetMountPathOfPod pod with Ok (mp, _) => mp | Err _ => "" end in
        loop fuel (stuck_step fuel pod mountPoint) tt ;;;
        sys (MinorDelete mountPoint) ;;; Ret tt
  end.

(** ** Deleted pods *)

Section deleted.
Context `{Globals} `{QuantityParser} `{MountJobs}.

Definition exist_targets (pod : Pod) : smap := GetAllRefKeys pod.

(** The pod is gone: unmount what is left, recreate it with the references
    it had, and recover its targets. *)
Definition recreate_mount_pod (fuel : nat) (mit : mountInfoTable) (pod : Pod) (sourcePath : string)
  : M (option error) :=
  e <- DoWithTimeoutE Caller defaultCheckoutTimeout
         (r <- sys (PathExists sourcePath) ;;
          match r with
          | Ok true => Ret None
          | _ => Ret (Some (Errorf (sourcePath +:+ " not exist")))
          end) ;;
  match e with
  | None => UmountPath sourcePath
  | Some _ => Ret tt
  end ;;;
  p <- OverwirteMountPodResourcesWithPVC (recreated_pod pod) ;;
  let newPod := p.1 in
  sys (CreatePod newPod) ;;;
  WaitUtilMountReady fuel sourcePath defaultCheckoutTimeout ?;;
  recover mit newPod sourcePath.

(** One round of the wait for the old pod. *)
Definition deleted_step (fuel : nat) (mit : mountInfoTable) (pod : Pod) (sourcePath : string)
    (u : unit) : M (unit + option error) :=
  r <- sys (GetPod Caller (pod_name pod) (pod_namespace pod)) ;;
  match r with
  | Ok po =>
      if is_deleted po then sys (Sleep (500 * Millisecond)) ;;; Ret (inl tt)
      else
        (* created elsewhere: hand over the references *)
        ReplacePodAnnotation pod (Some (exist_targets pod ∪ pod_annotations po)) ;;;
        Ret (inr None)
  | Err e =>
      if IsTimeout e
      then Ret (inr (Some (Errorf ("old pod " +:+ pod_name pod +:+ " deleting timeout"))))
      else if IsNotFound e
      then e' <- recreate_mount_pod fuel mit pod sourcePath ;; Ret (inr e')
      else Ret (inr None)
  end.

Definition podDeletedHandler (fuel : nat) (mit : mountInfoTable) (pod : option Pod)
  : M (option error) :=
  match pod with
  | None => Ret None
  | Some pod =>
      if negb (ContainsString (Finalizers (p_meta pod)) Finalizer) then Ret None else
      RemoveFinalizer pod Finalizer ?;;
      go (checkMountPodStuck fuel (Some pod)) ;;;
      if IsPodResourceError pod then Ret None else
      match GetMountPathOfPod pod with
      | Err _ => Ret None
      | Ok (sourcePath, _) =>
          match Annotations (p_meta pod) with
          | None => Ret None
          | Some _ =>
              if bool_decide (exist_targets pod = ∅)
              then
                UmountPath sourcePath ;;;
                DoWithTimeoutE Caller defaultCheckoutTimeout (sys (CleanupMountPoint sourcePath)) ;;;
                go (CleanUpCache fuel pod) ;;;
                Ret None
              else
                locked (pod_name pod) (loop fuel (deleted_step fuel mit pod sourcePath) tt)
          end
      end
  end.

(** ** Dispatch *)

Definition handle (fuel : nat) (mit : mountInfoTable) (st : podStatus) (pod : option Pod)
  : M (option error) :=
  match st with
  | podReady => podReadyHandler mit pod
  | podError => podErrorHandler fuel pod
  | podPending => podPendingHandler fuel pod
  | podDeleted_ => podDeletedHandler fuel mit pod
  end.

Definition Run (fuel : nat) (mit : mountInfoTable) (current : Pod) : M (option error) :=
  let st := getPodStatus (Some current) in
  checkAnnotations mit current ?;;
  if negb (bool_decide (st = podError)) && negb (bool_decide (st = podDeleted_))
  then handle fuel mit st (Some current)
  else
    pod <-! sys (GetPod Caller (pod_name current) (pod_namespace current)) ;;
    handle fuel (setPodStatus mit pod) (getPodStatus (Some pod)) (Some pod).
End deleted.
