(* ===== verification/Controllers.v ===== *)
(** * pkg/controller: the reconcilers

    The controllers of mount pods, jobs, app pods with side cars, pods of a
    node and secrets ([mount_controller.go], [job_controller.go],
    [app_controller.go], [pod_controller.go], [secret_controller.go]), each
    with the predicates that filter its events, and the polling loop of
    [reconciler.go].  The queue and the watches are controller-runtime's. *)
From S2P Require Import Prelude.
From S2P Require Import GoStrings.
From S2P Require Import K8s.
From S2P Require Import GoTime.
From S2P Require Import Prog.
From S2P Require Import Effects.
From S2P Require Import Config.
From S2P Require Import Util.
From S2P Require Import PodUtil.
From S2P Require Import Setting.
From S2P Require Import JfsSetting.
From S2P Require Import Builder.
From S2P Require Import MountTable.
From S2P Require Import PodMount.
From S2P Require Import Juicefs.
From S2P Require Import PodDriver.
#[local] Open Scope Z_scope.
#[local] Open Scope go_scope.

(** ** Requests and results *)

Record Request := { rq_Name : string; rq_Namespace : string }.
Record Result := { Requeue : bool; RequeueAfter : Z }.
Definition no_requeue : Result := {| Requeue := false; RequeueAfter := 0 |}.
Definition requeue_after (d : Z) : Result := {| Requeue := true; RequeueAfter := d |}.
Abbreviation reconciliation := (Result * option error)%type.

Definition finish (e : option error) : M reconciliation := Ret (no_requeue, e).

(** The object of the request: an error other than not-found is returned, an
    object that is gone ends the reconciliation. *)
Definition with_object {A} (p : M (res A)) (f : A -> M reconciliation) : M reconciliation :=
  r <- p ;;
  match r with
  | Ok a => f a
  | Err e => finish (if IsNotFound e then None else Some e)
  end.

(** An update that did not change the resource version is skipped. *)
Definition version_changed (old new : ObjectMeta) : bool :=
  negb (bool_decide (ResourceVersion new = ResourceVersion old)).

(** The pods of the CSI node service on a node. *)
Definition csi_node_selector (nodeName : string) : ListSelector :=
  {| sel_labels := {[ CSINodeLabelKey := CSINodeLabelValue ]}; sel_exists := [];
     sel_fields := {[ "spec.nodeName" := nodeName ]} |}.

Section controllers.
Context `{Globals}.

(** ** mount_controller.go: finalizers of mount pods on vanished nodes *)

(** Deleted and still held by the finalizer. *)
Definition held_by_finalizer (pod : Pod) : bool :=
  is_deleted pod && ContainsString (Finalizers (p_meta pod)) Finalizer.

Definition MountController_Reconcile (request : Request) : M reconciliation :=
  with_object (sys (GetPod Caller (rq_Name request) (rq_Namespace request))) (fun mountPod =>
    if negb (is_deleted mountPod) then finish None
    else if negb (ContainsString (Finalizers (p_meta mountPod)) Finalizer) then finish None
    else
      csiPods <- sys (ListPod g_Namespace (csi_node_selector (NodeName (p_spec mountPod)))) ;;
      match csiPods with
      | Err e => finish (Some e)
      | Ok (_ :: _) => finish None
      | Ok [] => e <- RemoveFinalizer mountPod Finalizer ;; finish e
      end).

Definition MountController_onCreate (pod : Pod) : bool := held_by_finalizer pod.
Definition MountController_onUpdate (podOld podNew : Pod) : bool :=
  version_changed (p_meta podOld) (p_meta podNew) && held_by_finalizer podNew.
Definition MountController_onDelete (pod : Pod) : bool := held_by_finalizer pod.

(** ** job_controller.go: jobs to be recycled *)

Definition recycle_job (job : Job) : M (option error) := sys (DeleteJob (Name (j_meta job)) (Namespace (j_meta job))).

Definition JobController_Reconcile (request : Request) : M reconciliation :=
  with_object (sys (GetJob Caller (rq_Name request) (rq_Namespace request))) (fun job =>
    if bool_decide (is_Some (DeletionTimestamp (j_meta job))) then finish None
    else
      let nodeName := NodeName (j_spec job) in
      if bool_decide (nodeName = "")
      then
        b <- IsJobShouldBeRecycled job ;;
        if b : bool then e <- recycle_job job ;; finish e else finish None
      else
        csiPods <- sys (ListPod g_Namespace (csi_node_selector nodeName)) ;;
        match csiPods with
        | Err e => finish (Some e)
        | Ok pods =>
            b <- (if bool_decide (pods = []) then Ret true else IsJobShouldBeRecycled job) ;;
            if b : bool
            then e <- recycle_job job ;;
                 Ret (match e with
                      | Some e => ({| Requeue := true; RequeueAfter := 0 |}, Some e)
                      | None => (no_requeue, None)
                      end)
            else finish None
        end).

Definition job_live (job : Job) : bool := negb (bool_decide (is_Some (DeletionTimestamp (j_meta job)))).
Definition JobController_onCreate (job : Job) : bool := job_live job.
Definition JobController_onUpdate (jobOld jobNew : Job) : bool :=
  version_changed (j_meta jobOld) (j_meta jobNew) && job_live jobNew.
Definition JobController_onDelete (job : Job) : bool := job_live job.

(** ** app_controller.go: side cars of finished app pods *)

Definition is_fuse_name (name : string) : bool := Contains name MountContainerName.

(** The containers of the status: app containers terminated, side cars
    running. *)
Definition container_done (cs : ContainerStatus) : bool :=
  if is_fuse_name (cs_name cs) then Running (cs_state cs)
  else bool_decide (is_Some (Terminated (cs_state cs))).

Definition ShouldInQueue (pod : option Pod) : bool :=
  match pod with
  | None => false
  | Some pod =>
      if CheckExpectValue (pod_labels pod) InjectSidecarDisable True_ then false
      else if bool_decide (RestartPolicy (p_spec pod) = "Always") then false
      else if negb (existsb (fun cn => is_fuse_name (c_name cn)) (Containers (p_spec pod))) then false
      else if negb (bool_decide (Phase (p_status pod) = "Running")) ||
              Nat.ltb (length (ContainerStatuses (p_status pod))) 2 then false
      else forallb container_done (ContainerStatuses (p_status pod))
  end.

Definition umountFuseSidecar (pod : Pod) (fuseContainer : Container) : M (option error) :=
  if bool_decide (c_name fuseContainer = "") then Ret None
  else
    match c_lifecycle fuseContainer ≫= PreStop with
    | Some (ExecHandler cmd) =>
        r <- sys (ExecuteInContainer (pod_name pod) (pod_namespace pod) (c_name fuseContainer) cmd) ;;
        let '(stdout, stderr, err) := r in
        match err with
        | None => Ret None
        | Some err =>
            if Contains stderr "not mounted" || Contains stderr "mountpoint not found" ||
               Contains stderr "no mount point specified"
            then Ret None
            else if Contains (error_text err) "exit code 137" then Ret None
            else Ret (Some err)
        end
    | _ => Ret None
    end.

Fixpoint umount_containers (pod : Pod) (cns : list Container) : M (option error) :=
  match cns with
  | [] => Ret None
  | cn :: cns' =>
      if is_fuse_name (c_name cn)
      then umountFuseSidecar pod cn ?;; umount_containers pod cns'
      else umount_containers pod cns'
  end.
Definition umountFuseSidecars (pod : Pod) : M (option error) := umount_containers pod (Containers (p_spec pod)).

Definition AppController_Reconcile (request : Request) : M reconciliation :=
  with_object (sys (GetPod Caller (rq_Name request) (rq_Namespace request))) (fun pod =>
    if negb (ShouldInQueue (Some pod)) then finish None
    else e <- umountFuseSidecars pod ;; finish e).

Definition AppController_onCreate (pod : Pod) : bool := ShouldInQueue (Some pod).
Definition AppController_onUpdate (podOld podNew : Pod) : bool :=
  version_changed (p_meta podOld) (p_meta podNew) && ShouldInQueue (Some podNew).
End controllers.

(** ** pod_controller.go: the mount pods of this node, from the controller *)

Definition elsewhere `{Globals} (pod : Pod) : bool :=
  negb (bool_decide (NodeName (p_spec pod) = g_NodeName)) &&
  negb (bool_decide (sget (NodeSelector (p_spec pod)) "kubernetes.io/hostname" = g_NodeName)).

(** The volumes a mount pod serves: those with its unique id, or of the storage
    class that is its unique id. *)
Definition related_pv `{Globals} (uniqueId : string) (pv : PersistentVolume) : bool :=
  match pv_csi pv with
  | None => false
  | Some csi =>
      bool_decide (Driver csi = g_DriverName) && negb (bool_decide (uniqueId = "")) &&
      (bool_decide (VolumeHandle csi = uniqueId) || bool_decide (pv_storageClassName pv = uniqueId))
  end.

(** The app pods with the label of a volume, in the namespaces of the claims. *)
Definition labelled_pods : ListSelector := {| sel_labels := ∅; sel_exists := [UniqueId]; sel_fields := ∅ |}.
Fixpoint app_pods (namespaces : list string) : M (res (list Pod)) :=
  match namespaces with
  | [] => Ret (Ok [])
  | ns :: namespaces' =>
      pods <-? sys (ListPod ns labelled_pods) ;;
      pods' <-? app_pods namespaces' ;;
      Ret (Ok (pods ++ pods'))
  end.

(** [delayAt.Sub(now)], zero when the time has passed; durations saturate. *)
Definition until_delay (delayAt now : Z) : Z :=
  if delayAt <? now then 0 else Z.min (2 ^ 63 - 1) (delayAt - now).

(** The last handled status of each pod, and when. *)
Abbreviation LastStatus := (gmap string (podStatus * Z)).

Section pods.
Context `{Globals} `{SettingCodec} `{QuantityParser} `{MountJobs}.
Context (fuel : nat).

(** The requeueing after a successful run: at the deadline of a delayed
    deletion, otherwise in ten minutes. *)
Definition requeue_pod (mountPod : Pod) : M reconciliation :=
  let delayAtStr := sget (pod_annotations mountPod) DeleteDelayAtKey in
  if bool_decide (delayAtStr = "") then Ret (requeue_after (10 * Minute), None)
  else
    match GetTime delayAtStr with
    | Err e => finish (Some e)
    | Ok delayAt => now <- sys Now ;; Ret (requeue_after (until_delay delayAt now), None)
    end.

Definition PodController_Reconcile (request : Request) : M reconciliation :=
  with_object (sys (GetPod Caller (rq_Name request) (rq_Namespace request))) (fun mountPod =>
    if elsewhere mountPod then finish None
    else
      t <- parse {| mis := []; deletedPods := ∅ |} ;;
      match t with
      | (_, Some e) => finish (Some e)
      | (mit, None) =>
          pvs <- sys ListPersistentVolumes ;;
          match pvs with
          | Err e => finish (Some e)
          | Ok pvs =>
              let uniqueId := sget (pod_annotations mountPod) UniqueId in
              let relatedPVs := List.filter (related_pv uniqueId) pvs in
              if bool_decide (relatedPVs = [])
              then finish (Some (Errorf ("can not get pv by uniqueId " +:+ uniqueId +:+ ", mount pod: " +:+
                                           pod_name mountPod)))
              else
                let pvcNamespaces := omap (fun pv => snd <$> pv_claimRef pv) relatedPVs in
                if bool_decide (pvcNamespaces = []) then finish None
                else
                  pods <- app_pods pvcNamespaces ;;
                  match pods with
                  | Err e => finish (Some e)
                  | Ok podLists =>
                      e <- Run fuel (setPodsStatus mit (Some podLists)) mountPod ;;
                      match e with
                      | Some e => finish (Some e)
                      | None => requeue_pod mountPod
                      end
                  end
          end
      end).

Definition PodController_onUpdate (podOld podNew : Pod) : bool := version_changed (p_meta podOld) (p_meta podNew).

(** ** reconciler.go: polling the kubelet *)

Definition mount_pod_here (pod : Pod) : bool :=
  bool_decide (pod_namespace pod = g_Namespace) &&
  bool_decide (pod_labels pod !! PodTypeKey = Some PodTypeValue).

(** Is a pod of this status skipped at [now]? *)
Definition recently_handled (last : LastStatus) (pod : Pod) (now : Z) : bool :=
  match last !! pod_name pod with
  | Some (st, syncAt) => bool_decide (st = getPodStatus (Some pod)) && (now <? syncAt + 10 * Minute)
  | None => false
  end.

(** One pod of the listing: handed to a goroutine unless it is skipped.  The
    clock is read for the comparison only when the status did not change. *)
Definition select_pod (pod : Pod) (st : LastStatus * list Pod) : M (LastStatus * list Pod) :=
  let '(last, tasks) := st in
  if negb (mount_pod_here pod) then Ret st
  else
    skip <- (match last !! pod_name pod with
             | Some (s, _) => if bool_decide (s = getPodStatus (Some pod))
                              then now <- sys Now ;; Ret (recently_handled last pod now)
                              else Ret false
             | None => Ret false
             end) ;;
    if skip : bool then Ret st
    else
      now <- sys Now ;;
      Ret (<[ pod_name pod := (getPodStatus (Some pod), now) ]> last, tasks ++ [pod]).

(** The context of a round: it ends after the reconcile timeout or with the
    first error of a goroutine. *)
Definition round_ctx : context := WithTimeout Background g_ReconcileTimeout.
Definition backOffID (pod : Pod) : string := "mountpod/" +:+ pod_name pod.

(** The goroutine of a pod. *)
Definition handle_task (mit : mountInfoTable) (pods : list Pod) (pod : Pod) : M (option error) :=
  c <- sys (CtxErr round_ctx) ;;
  match c with
  | Some _ => Ret None
  | None =>
      active <- sys (BackOffActive (backOffID pod)) ;;
      if active : bool then Ret None
      else
        e <- Run fuel (setPodsStatus mit (Some pods)) pod ;;
        match e with
        | Some e => sys (BackOffNext (backOffID pod)) ;;; Ret (Some e)
        | None => sys (BackOffReset (backOffID pod)) ;;; Ret None
        end
  end.

(** The first half of an iteration: the listing and the mount table, and which
    pods get a goroutine; [None] when one of the two failed. *)
Definition poll (last : LastStatus) : M (LastStatus * option (mountInfoTable * list Pod * list Pod)) :=
  podList <- sys GetNodeRunningPods ;;
  match podList with
  | Err _ => Ret (last, None)
  | Ok pods =>
      t <- parse {| mis := []; deletedPods := ∅ |} ;;
      match t with
      | (_, Some _) => Ret (last, None)
      | (mit, None) =>
          st <- fold_prog pods select_pod (last, []) ;;
          Ret (st.1, Some (mit, pods, st.2))
      end
  end.

(** The goroutines of a round, one after the other. *)
Definition run_tasks (mit : mountInfoTable) (pods tasks : list Pod) : M unit :=
  fold_prog tasks (fun pod _ => handle_task mit pods pod ;;; Ret tt) tt.

(** One iteration of the loop up to its sleep. *)
Definition reconcile_round (last : LastStatus) : M LastStatus :=
  r <- poll last ;;
  match r with
  | (last, None) => Ret last
  | (last, Some (mit, pods, tasks)) =>
      sys BackOffGC ;;;
      run_tasks mit pods tasks ;;;
      Ret last
  end.

(** The first [n] iterations of [doReconcile]. *)
Fixpoint doReconcile (n : nat) (last : LastStatus) : M LastStatus :=
  match n with
  | O => Ret last
  | S n =>
      last <- reconcile_round last ;;
      sys (Sleep (wrap64 (g_ReconcilerInterval * Second))) ;;;
      doReconcile n last
  end.
End pods.

(** ** secret_controller.go: the client configuration of a secret *)

Section secrets.
Context `{Globals} `{Retry} `{QuantityParser} `{SettingCodec}.

(** From the authentication in a temporary directory to the update. *)
Definition inject_initconfig (secret : Secret) (secretsMap : option smap) (s : JfsSetting) : M reconciliation :=
  a <- AuthFs secretsMap s true ;;
  match a with
  | (_, Err e) => finish (Some e)
  | (secretsMap, Ok _) =>
      let conf := js_Name s +:+ ".conf" in
      b <- sys (ReadFile (path_Join [ClientConfPath s; conf])) ;;
      match b with
      | Err e => finish (Some e)
      | Ok confs =>
          e <- sys (UpdateSecret {| s_meta := s_meta secret; Data := Data secret;
                                    StringData := <[ "initconfig" := confs ]> (nil_map secretsMap) |}) ;;
          match e with
          | Some e => finish (Some e)
          | None => Ret (requeue_after g_SecretReconcilerInterval, None)
          end
      end
  end.

Definition SecretController_Reconcile (request : Request) : M reconciliation :=
  with_object (sys (GetSecret (rq_Name request) (rq_Namespace request))) (fun secret =>
    if bool_decide (Data secret !! "token" = None) then finish None
    else if bool_decide (Data secret !! "name" = None) then finish None
    else
      r <- Settings_by false "" (Some (Data secret)) None [] ;;
      match r with
      | (_, _, Err e) => finish (Some e)
      | (secretsMap, _, Ok s) =>
          d <- sys (MkdirTemp "juicefs-") ;;
          match d with
          | Err e => finish (Some e)
          | Ok tempConfDir =>
              deferred (RemoveAll tempConfDir)
                (inject_initconfig secret secretsMap (with_ClientConfPath tempConfDir s))
          end
      end).

Definition SecretController_onUpdate (secretOld secretNew : Secret) : bool :=
  version_changed (s_meta secretOld) (s_meta secretNew).
End secrets.
