(* ===== verification/Dashboard.v ===== *)
(** * pkg/dashboard: the indexes and the controllers that keep them

    [index.go], [utils.go] and [controller.go].  The dashboard keeps four lists
    of names ordered by creation time, the CSI pod of each node and the volume
    of each claim; three controllers update them from the watches.  The state
    is passed explicitly: every list is behind its own lock, every map behind
    [csiNodeLock] or [pairLock].  The cached reader is the API server with the
    answers of a cache. *)
From S2P Require Import Prelude.
From S2P Require Import GoStrings.
From S2P Require Import K8s.
From S2P Require Import Prog.
From S2P Require Import Effects.
From S2P Require Import Config.
From S2P Require Import PodUtil.
From S2P Require Import MountTable.
#[local] Open Scope Z_scope.
#[local] Open Scope go_scope.

(** [types.NamespacedName]: namespace and name. *)
Abbreviation NamespacedName := (string * string)%type.
Definition nn_of (m : ObjectMeta) : NamespacedName := (Namespace m, Name m).
(** [NamespacedName.String()]. *)
Definition nn_String (n : NamespacedName) : string := n.1 +:+ "/" +:+ n.2.

(** ** index.go *)

Section index.
Context {T : Type} (meta : T -> ObjectMeta) (get : NamespacedName -> M (res T)).

(** [iterate]: the names, oldest or newest first. *)
Definition iterate (descend : bool) (l : list NamespacedName) : list NamespacedName :=
  if descend then rev l else l.

(** The scan of [addIndex] from the back: [back] is what is left, last element
    first, [passed] the elements behind.  A resource that cannot be read is
    removed; an element that was removed from a [container/list] has no
    predecessor, so the scan ends with it. *)
Fixpoint add_scan (name : NamespacedName) (resource : T) (back passed : list NamespacedName) : M (list NamespacedName) :=
  match back with
  | [] => Ret (name :: passed)
  | e :: back' =>
      r <- get e ;;
      match r with
      | Err _ => Ret (name :: rev back' ++ passed)
      | Ok currentResource =>
          if bool_decide (UID (meta resource) = UID (meta currentResource)) then Ret (rev back ++ passed)
          else if CreationTimestamp (meta currentResource) <? CreationTimestamp (meta resource)
          then Ret (rev back ++ name :: passed)
          else add_scan name resource back' (e :: passed)
      end
  end.
Definition addIndex (resource : T) (l : list NamespacedName) : M (list NamespacedName) :=
  add_scan (nn_of (meta resource)) resource (rev l) [].
End index.

(** The first occurrence. *)
Fixpoint removeIndex (name : NamespacedName) (l : list NamespacedName) : list NamespacedName :=
  match l with
  | [] => []
  | e :: l' => if bool_decide (e = name) then l' else e :: removeIndex name l'
  end.

(** ** The state (api.go) *)

Record API := {
  csiNodeIndex : gmap string NamespacedName;
  sysIndexes : list NamespacedName;
  appIndexes : list NamespacedName;
  pvIndexes : list NamespacedName;
  pvcIndexes : list NamespacedName;
  pairs : gmap NamespacedName NamespacedName;
}.
Definition NewAPI : API :=
  {| csiNodeIndex := ∅; sysIndexes := []; appIndexes := []; pvIndexes := []; pvcIndexes := []; pairs := ∅ |}.

Definition set_csiNode (f : gmap string NamespacedName -> gmap string NamespacedName) (a : API) : API :=
  {| csiNodeIndex := f (csiNodeIndex a); sysIndexes := sysIndexes a; appIndexes := appIndexes a;
     pvIndexes := pvIndexes a; pvcIndexes := pvcIndexes a; pairs := pairs a |}.
Definition set_sys (f : list NamespacedName -> list NamespacedName) (a : API) : API :=
  {| csiNodeIndex := csiNodeIndex a; sysIndexes := f (sysIndexes a); appIndexes := appIndexes a;
     pvIndexes := pvIndexes a; pvcIndexes := pvcIndexes a; pairs := pairs a |}.
Definition set_app (f : list NamespacedName -> list NamespacedName) (a : API) : API :=
  {| csiNodeIndex := csiNodeIndex a; sysIndexes := sysIndexes a; appIndexes := f (appIndexes a);
     pvIndexes := pvIndexes a; pvcIndexes := pvcIndexes a; pairs := pairs a |}.
Definition set_pv (f : list NamespacedName -> list NamespacedName) (a : API) : API :=
  {| csiNodeIndex := csiNodeIndex a; sysIndexes := sysIndexes a; appIndexes := appIndexes a;
     pvIndexes := f (pvIndexes a); pvcIndexes := pvcIndexes a; pairs := pairs a |}.
Definition set_pvc (f : list NamespacedName -> list NamespacedName) (a : API) : API :=
  {| csiNodeIndex := csiNodeIndex a; sysIndexes := sysIndexes a; appIndexes := appIndexes a;
     pvIndexes := pvIndexes a; pvcIndexes := f (pvcIndexes a); pairs := pairs a |}.
Definition set_pairs (f : gmap NamespacedName NamespacedName -> gmap NamespacedName NamespacedName) (a : API) : API :=
  {| csiNodeIndex := csiNodeIndex a; sysIndexes := sysIndexes a; appIndexes := appIndexes a;
     pvIndexes := pvIndexes a; pvcIndexes := pvcIndexes a; pairs := f (pairs a) |}.

(** ** The cached reader *)

Definition read_pod (n : NamespacedName) : M (res Pod) := sys (GetPod Caller n.2 n.1).
Definition read_pv (n : NamespacedName) : M (res PersistentVolume) := sys (GetPersistentVolume n.2).
Definition read_pvc (n : NamespacedName) : M (res PersistentVolumeClaim) := sys (GetPersistentVolumeClaim n.2 n.1).

Definition index_pod := addIndex p_meta read_pod.
Definition index_pv := addIndex pv_meta read_pv.
Definition index_pvc := addIndex pvc_meta read_pvc.

(** ** utils.go *)

Definition isAppPod (pod : Pod) : bool :=
  bool_decide (is_Some (pod_labels pod !! UniqueId)) || bool_decide (is_Some (pod_labels pod !! InjectSidecarDone)).

(** Some claim of the pod exists. *)
Definition unready_step (namespace claim : string) (u : unit) : M (unit + unit) :=
  r <- read_pvc (namespace, claim) ;;
  Ret match r with Ok _ => inr tt | Err _ => inl tt end.
Definition isAppPodUnready (pod : Pod) : M bool :=
  r <- for_each (omap v_pvc (Volumes (p_spec pod))) (unready_step (pod_namespace pod)) tt ;;
  Ret match r with inr _ => true | inl _ => false end.

Definition app_name (pod : Pod) : string := sget (pod_labels pod) "app.kubernetes.io/name".
Definition isSysPod (pod : Pod) : bool :=
  bool_decide (app_name pod = "juicefs-mount") || bool_decide (app_name pod = "juicefs-csi-driver").
Definition isCsiNode (pod : Pod) : bool :=
  bool_decide (app_name pod = "juicefs-csi-driver") && bool_decide (sget (pod_labels pod) "app" = "juicefs-csi-node").

(** ** controller.go: pods *)

(** The CSI node of a pod that goes away. *)
Definition forget_csi_node (pod : Pod) (a : API) : API :=
  if isCsiNode pod then set_csiNode (delete (NodeName (p_spec pod))) a else a.

Definition remember_csi_node (pod : Pod) (a : API) : API :=
  if isCsiNode pod && negb (bool_decide (NodeName (p_spec pod) = ""))
  then set_csiNode <[ NodeName (p_spec pod) := (pod_namespace pod, pod_name pod) ]> a else a.

(** Does the pod belong to the driver or to an app? *)
Definition concerns (pod : Pod) : M bool :=
  if negb (isSysPod pod) && negb (isAppPod pod) then isAppPodUnready pod else Ret true.
(** A pod that is being deleted leaves the index of the apps, whatever it is. *)
Definition drop_pod (req : NamespacedName) (pod : Pod) (a : API) : API :=
  forget_csi_node pod (set_app (removeIndex req) a).
(** The index of a pod. *)
Definition pod_index (pod : Pod) (a : API) : list NamespacedName :=
  if isSysPod pod then sysIndexes a else appIndexes a.
Definition set_pod_index (pod : Pod) (l : list NamespacedName) : API -> API :=
  if isSysPod pod then set_sys (fun _ => l) else set_app (fun _ => l).
Definition announce_pod (pod : Pod) (a : API) : API := if isSysPod pod then remember_csi_node pod a else a.

(** A controller's reconcile: the state afterwards and its error. *)
Definition PodReconcile (a : API) (req : NamespacedName) : M (API * option error) :=
  r <- read_pod req ;;
  match r with
  | Err _ => Ret (a, None)
  | Ok pod =>
      ours <- concerns pod ;;
      if negb ours then Ret (a, None)
      else if is_deleted pod then Ret (drop_pod req pod a, None)
      else
        let a := announce_pod pod a in
        l <- index_pod pod (pod_index pod a) ;;
        Ret (set_pod_index pod l a, None)
  end.

(** The handler of delete events: the state and whether to reconcile. *)
Definition PodDeleted (a : API) (pod : Pod) : API * bool :=
  let name := (pod_namespace pod, pod_name pod) in
  if isAppPod pod then (forget_csi_node pod (set_app (removeIndex name) a), false)
  else if isSysPod pod then (forget_csi_node pod (set_sys (removeIndex name) a), false)
  else (a, true).

(** ** controller.go: PVs *)

Definition claim_of (pv : PersistentVolume) : option NamespacedName :=
  (fun c => (c.2, c.1)) <$> pv_claimRef pv.
Definition juicefs_pv (pv : PersistentVolume) : bool :=
  match pv_csi pv with Some csi => bool_decide (Driver csi = DriverName) | None => false end.

Definition PVReconcile (a : API) (req : NamespacedName) : M (API * option error) :=
  r <- read_pv req ;;
  match r with
  | Err e => if IsNotFound e then Ret (set_pv (removeIndex req) a, None) else Ret (a, Some e)
  | Ok pv =>
      match DeletionTimestamp (pv_meta pv) with
      | Some _ =>
          let a := set_pv (removeIndex req) a in
          Ret (match claim_of pv with
               | Some pvcName => set_pvc (removeIndex pvcName) (set_pairs (delete pvcName) a)
               | None => a
               end, None)
      | None =>
          l <- index_pv pv (pvIndexes a) ;;
          let a := set_pv (fun _ => l) a in
          match claim_of pv with
          | None => Ret (a, None)
          | Some pvcName =>
              let a := set_pairs <[ pvcName := req ]> a in
              c <- read_pvc pvcName ;;
              match c with
              | Err _ => Ret (a, None)
              | Ok pvc => l <- index_pvc pvc (pvcIndexes a) ;; Ret (set_pvc (fun _ => l) a, None)
              end
          end
      end
  end.

(** The filter of create and delete events. *)
Definition PVWatched (pv : PersistentVolume) : bool := juicefs_pv pv.

(** ** controller.go: PVCs *)

Definition ClaimPending : string := "Pending".
Definition ClaimBound : string := "Bound".

Definition PVCReconcile (a : API) (req : NamespacedName) : M (API * option error) :=
  r <- read_pvc req ;;
  match r with
  | Err _ => Ret (a, None)
  | Ok pvc =>
      if bool_decide (is_Some (DeletionTimestamp (pvc_meta pvc))) then Ret (a, None)
      else if bool_decide (pvc_phase pvc = ClaimPending)
      then l <- index_pvc pvc (pvcIndexes a) ;; Ret (set_pvc (fun _ => l) a, None)
      else if bool_decide (pvc_phase pvc = ClaimBound)
      then
        let known := match pairs a !! req with Some p => bool_decide (p.2 = pvc_volumeName pvc) | None => false end in
        if known then Ret (a, None)
        else
          let pvName := ("", pvc_volumeName pvc) in
          v <- read_pv pvName ;;
          match v with
          | Err e => Ret (a, Some e)
          | Ok pv => Ret (set_pairs (if juicefs_pv pv then <[ req := pvName ]> else delete req) a, None)
          end
      else Ret (a, None)
  end.

Definition PVCCreated (pvc : PersistentVolumeClaim) : bool :=
  bool_decide (pvc_phase pvc = ClaimPending) || bool_decide (pvc_phase pvc = ClaimBound).
Definition PVCUpdated (a : API) (oldPvc newPvc : PersistentVolumeClaim) : API * bool :=
  if bool_decide (pvc_phase oldPvc = ClaimBound) && negb (bool_decide (pvc_phase newPvc = ClaimBound))
  then (set_pairs (delete (nn_of (pvc_meta oldPvc))) a, false)
  else (a, bool_decide (pvc_phase oldPvc = ClaimPending) && bool_decide (pvc_phase newPvc = ClaimBound)).
Definition PVCDeleted (a : API) (pvc : PersistentVolumeClaim) : API * bool :=
  let name := nn_of (pvc_meta pvc) in
  (set_pairs (delete name) (set_pvc (removeIndex name) a), false).
