(* ===== verification/DashboardApi.v ===== *)
(** * pkg/dashboard: the HTTP handlers

    [pod.go], [pv.go] and [debug.go].  A handler gets the query or the object
    that the middleware stored under its context key ([None] when it stored
    nothing), and answers with the list of its writes to the response: gin lets
    a handler write more than once.  JSON bodies are the values encoded. *)
From S2P Require Import Prelude.
From S2P Require Import GoStrings.
From S2P Require Import K8s.
From S2P Require Import Prog.
From S2P Require Import Effects.
From S2P Require Import Config.
From S2P Require Import Util.
From S2P Require Import PodUtil.
From S2P Require Import Dashboard.
#[local] Open Scope Z_scope.
#[local] Open Scope go_scope.

(** ** Responses and queries *)

Inductive write (A : Type) :=
| WriteString (code : Z) (text : string)
| IndentedJSON (body : A)                    (** with status 200 *)
| AbortWithStatus (code : Z).
Arguments WriteString {A}. Arguments IndentedJSON {A}. Arguments AbortWithStatus {A}.

Abbreviation reply A := (list (write A)).
Definition not_found_reply {A} : reply A := [WriteString 404 "not found"].
Definition server_error {A} (what : string) (e : error) : reply A := [WriteString 500 (what +:+ error_text e)].

Abbreviation query := smap.
(** An empty filter accepts everything. *)
Definition accepts (filter s : string) : bool := bool_decide (filter = "") || Contains s filter.

(** [pageSize] and [current]: positive 64-bit numbers. *)
Definition page_params (q : query) : (Z * Z) + string :=
  match ParseUint (sget q "pageSize") with
  | None | Some 0 => inr "invalid page size"
  | Some pageSize =>
      match ParseUint (sget q "current") with
      | None | Some 0 => inr "invalid current page"
      | Some current => inl (pageSize, current)
      end
  end.

(** The bounds of the page in a list of [n] elements, with the wrap-around of
    [uint64]: [None] when the page is behind the end. *)
Definition page_bounds (pageSize current n : Z) : option (Z * Z) :=
  let startIndex := (current - 1) * pageSize mod W64 in
  if n <=? startIndex then None
  else
    let endIndex := (startIndex + pageSize) mod W64 in
    Some (startIndex, if n <? endIndex then n else endIndex).

(** [l[startIndex:endIndex]]. *)
Definition slice {A} (l : list A) (startIndex endIndex : Z) : M (list A) :=
  if endIndex <? startIndex then panic "slice bounds out of range"
  else Ret (take (Z.to_nat (endIndex - startIndex)) (drop (Z.to_nat startIndex) l)).

Definition page_of {A} (pageSize current : Z) (l : list A) : M (list A) :=
  match page_bounds pageSize current (Z.of_nat (length l)) with
  | None => Ret []
  | Some (startIndex, endIndex) => slice l startIndex endIndex
  end.

(** The resources of an index that can be read and are required.  (gin's
    context never reports an error, so the iteration is not cut.) *)
Definition collect {T} (get : NamespacedName -> M (res T)) (required : T -> bool) (l : list NamespacedName) : M (list T) :=
  fold_prog l (fun name acc =>
    r <- get name ;;
    Ret match r with Ok x => if required x then acc ++ [x] else acc | Err _ => acc end) [].

(** ** pv.go: lookups *)

(** A resource, or nothing when it does not exist. *)
Definition optional {T} (p : M (res T)) : M (res (option T)) :=
  r <- p ;;
  Ret match r with
      | Ok x => Ok (Some x)
      | Err e => if IsNotFound e then Ok None else Err e
      end.
Definition getPV (name : string) : M (res (option PersistentVolume)) := optional (sys (GetPersistentVolume name)).
Definition getPVC (namespace name : string) : M (res (option PersistentVolumeClaim)) := optional (read_pvc (namespace, name)).
Definition getStorageClass (name : string) : M (res (option StorageClass)) := optional (sys (GetStorageClass name)).

(** The objects of the claims of a pod. *)
Definition of_claims {T} (get : string -> M (res (option T))) (pod : Pod) : M (res (list T)) :=
  r <- for_each (omap v_pvc (Volumes (p_spec pod))) (fun claim acc =>
         r <- get claim ;;
         Ret match r with
             | Err e => inr e
             | Ok x => inl (acc ++ option_list x)
             end) [] ;;
  Ret match r with inl l => Ok l | inr e => Err e end.

(** The volume of a claim, by the pairs. *)
Definition paired_pv (a : API) (claim : NamespacedName) : NamespacedName := default ("", "") (pairs a !! claim).
Definition listPVsOfPod (a : API) (pod : Pod) : M (res (list PersistentVolume)) :=
  of_claims (fun claim => getPV (paired_pv a (pod_namespace pod, claim)).2) pod.
Definition listPVCsOfPod (pod : Pod) : M (res (list PersistentVolumeClaim)) :=
  of_claims (getPVC (pod_namespace pod)) pod.

(** ** pv.go: handlers *)

(** gin's chain: the handler behind a middleware runs unless that aborted,
    without the object when the middleware stored none. *)
Definition retype {A} (w : write unit) : list (write A) :=
  match w with
  | WriteString code text => [WriteString code text]
  | AbortWithStatus code => [AbortWithStatus code]
  | IndentedJSON _ => []
  end.
Definition aborts (w : write unit) : bool := match w with AbortWithStatus _ => true | _ => false end.
Definition behind {O A} (middleware : M (O + reply unit)) (handler : option O -> M (reply A)) : M (reply A) :=
  m <- middleware ;;
  match m with
  | inl o => handler (Some o)
  | inr ws => if existsb aborts ws then Ret (mjoin (map retype ws))
              else r <- handler None ;; Ret (mjoin (map retype ws) ++ r)
  end.

(** The handlers behind a middleware. *)
Definition with_key {O A} (obj : option O) (f : O -> M (reply A)) : M (reply A) :=
  match obj with None => Ret not_found_reply | Some o => f o end.
Definition answer_list {A} (what : string) (p : M (res A)) : M (reply A) :=
  r <- p ;; Ret match r with Ok l => [IndentedJSON l] | Err e => server_error what e end.

Definition listPodPVsHandler (a : API) (pod : option Pod) : M (reply (list PersistentVolume)) :=
  with_key pod (fun pod => answer_list "get pod persistent volumes error: " (listPVsOfPod a pod)).
Definition listPodPVCsHandler (pod : option Pod) : M (reply (list PersistentVolumeClaim)) :=
  with_key pod (fun pod => answer_list "get pod persistent volume claims error: " (listPVCsOfPod pod)).

Definition juicefs_class (sc : StorageClass) : bool := bool_decide (sc_provisioner sc = DriverName).
Definition listSCsHandler : M (reply (list StorageClass)) :=
  r <- sys ListStorageClasses ;;
  Ret match r with
      | Err e => server_error "get storageClass error: " e
      | Ok l => [IndentedJSON (List.filter juicefs_class l)]
      end.

(** A list handler: a page of the index, newest first unless asked otherwise. *)
Definition list_page {T} (get : NamespacedName -> M (res T)) (index : list NamespacedName) (descend : bool)
    (required : T -> bool) (q : query) : M (reply (Z * list T)) :=
  match page_params q with
  | inr msg => Ret [WriteString 400 msg]
  | inl (pageSize, current) =>
      l <- collect get required (iterate descend index) ;;
      page <- page_of pageSize current l ;;
      Ret [IndentedJSON (Z.of_nat (length l), page)]
  end.

Definition pv_required (q : query) (pv : PersistentVolume) : bool :=
  accepts (sget q "name") (Name (pv_meta pv)) &&
  accepts (sget q "pvc") (nn_String (default ("", "") (claim_of pv))) &&
  accepts (sget q "sc") (pv_storageClassName pv).
Definition listPVsHandler (a : API) (q : query) : M (reply (Z * list PersistentVolume)) :=
  list_page read_pv (pvIndexes a) (negb (bool_decide (sget q "order" = "ascend"))) (pv_required q) q.

Definition pvc_required (a : API) (q : query) (pvc : PersistentVolumeClaim) : bool :=
  accepts (sget q "namespace") (Namespace (pvc_meta pvc)) &&
  accepts (sget q "name") (Name (pvc_meta pvc)) &&
  accepts (sget q "pv") (paired_pv a (nn_of (pvc_meta pvc))).2 &&
  accepts (sget q "sc") (default "" (pvc_storageClassName pvc)).
Definition listPVCsHandler (a : API) (q : query) : M (reply (Z * list PersistentVolumeClaim)) :=
  list_page read_pvc (pvcIndexes a) (negb (bool_decide (sget q "order" = "ascend"))) (pvc_required a q) q.

(** The middlewares: the object to store, or the writes. *)
Definition getPVMiddileware (name : string) : M (PersistentVolume + reply unit) :=
  r <- getPV name ;;
  Ret match r with
      | Err _ => inr [AbortWithStatus 500]
      | Ok (Some pv) => if juicefs_pv pv then inl pv else inr [AbortWithStatus 404]
      | Ok None => inr [AbortWithStatus 404]
      end.
Definition getPVCMiddileware (namespace name : string) : M (PersistentVolumeClaim + reply unit) :=
  r <- getPVC namespace name ;;
  Ret match r with
      | Err _ => inr [AbortWithStatus 500]
      | Ok (Some pvc) => inl pvc
      | Ok None => inr [AbortWithStatus 404]
      end.
Definition getSCMiddileware (name : string) : M (StorageClass + reply unit) :=
  r <- getStorageClass name ;;
  Ret match r with
      | Err _ => inr [AbortWithStatus 500]
      | Ok (Some sc) => if juicefs_class sc then inl sc else inr [AbortWithStatus 404]
      | Ok None => inr [AbortWithStatus 404]
      end.

(** [getPVHandler], [getPVCHandler], [getSCHandler] and [getPodHandler]. *)
Definition getHandler {O} (obj : option O) : M (reply O) := with_key obj (fun o => Ret [IndentedJSON o]).

(** ** pod.go: app pods *)

Record PodExtra := {
  pe_Pod : Pod;
  Pvs : option (list PersistentVolume);
  Pvcs : option (list PersistentVolumeClaim);
  MountPods : option (list Pod);
  CsiNode : option Pod;
  pe_Node : option Node;
}.
Definition extra (pod : Pod) : PodExtra :=
  {| pe_Pod := pod; Pvs := None; Pvcs := None; MountPods := None; CsiNode := None; pe_Node := None |}.
Definition set_Pvs (v : option (list PersistentVolume)) (p : PodExtra) : PodExtra :=
  {| pe_Pod := pe_Pod p; Pvs := v; Pvcs := Pvcs p; MountPods := MountPods p; CsiNode := CsiNode p; pe_Node := pe_Node p |}.
Definition set_MountPods (v : option (list Pod)) (p : PodExtra) : PodExtra :=
  {| pe_Pod := pe_Pod p; Pvs := Pvs p; Pvcs := Pvcs p; MountPods := v; CsiNode := CsiNode p; pe_Node := pe_Node p |}.
Definition set_CsiNode (v : option Pod) (p : PodExtra) : PodExtra :=
  {| pe_Pod := pe_Pod p; Pvs := Pvs p; Pvcs := Pvcs p; MountPods := MountPods p; CsiNode := v; pe_Node := pe_Node p |}.
Definition set_Node (v : option Node) (p : PodExtra) : PodExtra :=
  {| pe_Pod := pe_Pod p; Pvs := Pvs p; Pvcs := Pvcs p; MountPods := MountPods p; CsiNode := CsiNode p; pe_Node := v |}.
Definition set_Pvcs (v : option (list PersistentVolumeClaim)) (p : PodExtra) : PodExtra :=
  {| pe_Pod := pe_Pod p; Pvs := Pvs p; Pvcs := v; MountPods := MountPods p; CsiNode := CsiNode p; pe_Node := pe_Node p |}.

(** A nil slice next to the error. *)
Definition slice_of {A} (r : res (list A)) : option (list A) := match r with Ok l => Some l | Err _ => None end.

(** Mount pods by the handle of their volume. *)
Definition pods_of_handle (handle : string) : ListSelector :=
  {| sel_labels := {[ PodUniqueIdLabelKey := handle ]}; sel_exists := []; sel_fields := ∅ |}.
Definition pods_of_pv (pv : PersistentVolume) : M (res (list Pod)) :=
  match pv_csi pv with
  | None => panic "nil pointer dereference"
  | Some csi => sys (ListPod "" (pods_of_handle (VolumeHandle csi)))
  end.
Definition listMountPodOf (a : API) (pod : Pod) : M (res (list Pod)) :=
  pvs <-? listPVsOfPod a pod ;;
  l <- fold_prog pvs (fun pv acc =>
         r <- pods_of_pv pv ;; Ret match r with Ok pods => acc ++ pods | Err _ => acc end) [] ;;
  Ret (Ok l).

(** The zero pod, what a failed read leaves behind the returned pointer. *)
Definition zero_pod : Pod := {| p_meta := empty_meta; p_spec := empty_spec; p_status := empty_status |}.
Definition getCSINode (a : API) (nodeName : string) : M (option Pod * option error) :=
  let name := default ("", "") (csiNodeIndex a !! nodeName) in
  if bool_decide (name = ("", "")) then Ret (None, None)
  else
    r <- read_pod name ;;
    Ret match r with Ok pod => (Some pod, None) | Err e => (Some zero_pod, Some e) end.

Definition filterPVsOfPod (a : API) (filter : string) (p : PodExtra) : M (PodExtra * bool) :=
  if bool_decide (filter = "") then Ret (p, true)
  else
    r <- listPVsOfPod a (pe_Pod p) ;;
    let pvs := slice_of r in
    Ret (set_Pvs pvs p, existsb (fun pv => Contains (Name (pv_meta pv)) filter) (default [] pvs)).
Definition filterMountPodsOfPod (a : API) (filter : string) (p : PodExtra) : M (PodExtra * bool) :=
  if bool_decide (filter = "") then Ret (p, true)
  else
    r <- listMountPodOf a (pe_Pod p) ;;
    let pods := slice_of r in
    Ret (set_MountPods pods p, existsb (fun m => Contains (pod_name m) filter) (default [] pods)).
Definition filterCSINodeOfPod (a : API) (filter : string) (p : PodExtra) : M (PodExtra * bool) :=
  if bool_decide (filter = "") then Ret (p, true)
  else if bool_decide (NodeName (p_spec (pe_Pod p)) = "") then Ret (p, false)
  else
    r <- getCSINode a (NodeName (p_spec (pe_Pod p))) ;;
    Ret (set_CsiNode r.1 p,
         match r with (Some node, None) => Contains (pod_name node) filter | _ => false end).

(** The three filters, as [&&] evaluates them. *)
Definition filter_pod (a : API) (q : query) (p : PodExtra) : M (PodExtra * bool) :=
  r <- filterPVsOfPod a (sget q "pv") p ;;
  if negb r.2 then Ret r
  else
    r <- filterMountPodsOfPod a (sget q "mountpod") r.1 ;;
    if negb r.2 then Ret r else filterCSINodeOfPod a (sget q "csinode") r.1.

(** The details of a pod of the page, and the write when its claims cannot be
    listed. *)
Definition complete_pod (a : API) (p : PodExtra) : M (PodExtra * list (write (Z * list PodExtra))) :=
  let pod := pe_Pod p in
  p <- (match Pvs p with
        | Some _ => Ret p
        | None => r <- listPVsOfPod a pod ;; Ret (set_Pvs (slice_of r) p)
        end) ;;
  p <- (match MountPods p with
        | Some _ => Ret p
        | None => r <- listMountPodOf a pod ;; Ret (set_MountPods (slice_of r) p)
        end) ;;
  p <- (match CsiNode p with
        | Some _ => Ret p
        | None => r <- getCSINode a (NodeName (p_spec pod)) ;; Ret (set_CsiNode r.1 p)
        end) ;;
  p <- (if bool_decide (NodeName (p_spec pod) = "") then Ret p
        else r <- sys (GetNode (NodeName (p_spec pod))) ;;
             Ret match r with Ok node => set_Node (Some node) p | Err _ => p end) ;;
  r <- listPVCsOfPod pod ;;
  Ret (set_Pvcs (slice_of r) p,
       match r with
       | Ok _ => []
       | Err e => [WriteString 500 ("list pvcs of pod " +:+ pod_name pod +:+ " error " +:+ error_text e)]
       end).

Definition listAppPod (a : API) (q : query) : M (reply (Z * list PodExtra)) :=
  match page_params q with
  | inr msg => Ret [WriteString 400 msg]
  | inl (pageSize, current) =>
      pods <- collect read_pod (fun pod => accepts (sget q "name") (pod_name pod) &&
                                           accepts (sget q "namespace") (pod_namespace pod))
                (iterate (negb (bool_decide (sget q "order" = "ascend"))) (appIndexes a)) ;;
      let pods := map extra pods in
      pods <- (if bool_decide (sget q "pv" = "" /\ sget q "mountpod" = "" /\ sget q "csinode" = "") then Ret pods
               else fold_prog pods (fun p acc =>
                      r <- filter_pod a q p ;; Ret (if r.2 : bool then acc ++ [r.1] else acc)) []) ;;
      page <- page_of pageSize current pods ;;
      done <- fold_prog page (fun p acc =>
                r <- complete_pod a p ;; Ret (acc.1 ++ [r.1], acc.2 ++ r.2)) ([], []) ;;
      Ret (done.2 ++ [IndentedJSON (Z.of_nat (length pods), done.1)])
  end.

(** ** pod.go: system pods *)

Definition sys_required (q : query) (pod : Pod) : bool :=
  accepts (sget q "name") (pod_name pod) && accepts (sget q "namespace") (pod_namespace pod) &&
  accepts (sget q "node") (NodeName (p_spec pod)).

(** The pods from [startIndex] while below [endIndex]. *)
Definition pods_between {A} (l : list A) (startIndex endIndex : Z) : list A :=
  take (Z.to_nat (endIndex - startIndex)) (drop (Z.to_nat startIndex) l).

Definition listSysPod (a : API) (q : query) : M (reply (Z * list PodExtra)) :=
  match page_params q with
  | inr msg => Ret [WriteString 400 msg]
  | inl (pageSize, current) =>
      pods <- collect read_pod (sys_required q) (iterate (bool_decide (sget q "order" = "descend")) (sysIndexes a)) ;;
      let total := Z.of_nat (length pods) in
      match page_bounds pageSize current total with
      | None => Ret [IndentedJSON (total, [])]
      | Some (startIndex, endIndex) =>
          page <- fold_prog (pods_between pods startIndex endIndex) (fun pod acc =>
                    r <- sys (GetNode (NodeName (p_spec pod))) ;;
                    Ret match r with Ok node => acc ++ [set_Node (Some node) (extra pod)] | Err _ => acc end) [] ;;
          Ret [IndentedJSON (total, page)]
      end
  end.

(** ** pod.go: the other handlers *)

Definition app_selector (labels : list (string * string)) : ListSelector :=
  {| sel_labels := list_to_map labels; sel_exists := []; sel_fields := ∅ |}.
Definition list_selected (labels : list (string * string)) : M (reply (list Pod)) :=
  answer_list "list pods error " (sys (ListPod "" (app_selector labels))).
Definition listMountPod := list_selected [("app.kubernetes.io/name", "juicefs-mount")].
Definition listCSINodePod := list_selected [("app.kubernetes.io/name", "juicefs-csi-driver"); ("app", "juicefs-csi-node")].
Definition listCSIControllerPod :=
  list_selected [("app.kubernetes.io/name", "juicefs-csi-driver"); ("app", "juicefs-csi-controller")].

Definition getPodMiddileware (namespace name : string) : M (Pod + reply unit) :=
  r <- read_pod (namespace, name) ;;
  match r with
  | Err e => Ret (inr (if IsNotFound e then [AbortWithStatus 404] else server_error "get pod error " e))
  | Ok pod =>
      ours <- (if negb (isAppPod pod) && negb (isSysPod pod) then isAppPodUnready pod else Ret true) ;;
      Ret (if ours : bool then inl pod else inr not_found_reply)
  end.

Definition list_events (ns kind uid : string) : M (reply (list raw)) :=
  answer_list "list events error " (sys (ListEvents ns kind uid)).
Definition getPodEvents (pod : option Pod) : M (reply (list raw)) :=
  with_key pod (fun pod => list_events (pod_namespace pod) "Pod" (UID (p_meta pod))).
Definition getPVEvents (pv : option PersistentVolume) : M (reply (list raw)) :=
  with_key pv (fun pv => list_events "" "PersistentVolume" (UID (pv_meta pv))).
Definition getPVCEvents (pvc : option PersistentVolumeClaim) : M (reply (list raw)) :=
  with_key pvc (fun pvc => list_events (Namespace (pvc_meta pvc)) "PersistentVolumeClaim" (UID (pvc_meta pvc))).

Definition getPodNode (pod : option Pod) : M (reply Node) :=
  with_key pod (fun pod =>
    let nodeName := NodeName (p_spec pod) in
    r <- sys (GetNode nodeName) ;;
    Ret match r with
        | Ok node => [IndentedJSON node]
        | Err e => if IsNotFound e then not_found_reply else server_error ("Get node " +:+ nodeName +:+ " error ") e
        end).

Definition getPodLogs (pod : option Pod) (container : string) : M (reply unit) :=
  with_key pod (fun pod =>
    if negb (existsb (fun c => bool_decide (c_name c = container)) (InitContainers (p_spec pod) ++ Containers (p_spec pod)))
    then Ret [WriteString 404 ("container " +:+ container +:+ " not found")]
    else
      r <- sys (GetPodLog (pod_name pod) (pod_namespace pod) container) ;;
      Ret match r with
          | Ok logs => [WriteString 200 logs]
          | Err e => server_error ("get pod logs of container " +:+ container +:+ ": ") e
          end).

Definition listMountPodsOfAppPod (a : API) (pod : option Pod) : M (reply (list Pod)) :=
  with_key pod (fun pod => answer_list "list mount pods error " (listMountPodOf a pod)).

(** The uid of the app pod in a target. *)
Definition getUidFunc (target : string) : string :=
  match Split target "volumes/kubernetes.io~csi" with
  | [dir; _] =>
      let podDir := TrimSuffix dir "/" in
      match LastIndex podDir "/" with
      | Some (S index) => str_drop (S (S index)) podDir
      | _ => ""
      end
  | _ => ""
  end.

(** The app pods of a mount pod, by the targets in its annotations.  After a
    failed list the handler goes on with no pods. *)
Definition listAppPodsOfMountPod (pod : option Pod) : M (reply (list Pod)) :=
  with_key pod (fun pod =>
    r <- sys (ListPod "" {| sel_labels := ∅; sel_exists := []; sel_fields := ∅ |}) ;;
    let all := match r with Ok l => l | Err _ => [] end in
    let podMap : gmap string Pod := foldl (fun m p => <[ UID (p_meta p) := p ]> m) ∅ all in
    kvs <- range_map (pod_annotations pod) ;;
    let appPods := omap (fun kv => let uid := getUidFunc kv.2 in
                                   if bool_decide (uid = "") then None else podMap !! uid) kvs in
    Ret (match r with Ok _ => [] | Err e => server_error "list pods error " e end ++ [IndentedJSON appPods])).

Definition getCSINodeByName (a : API) (nodeName : string) : M (reply Pod) :=
  if bool_decide (nodeName = "") then Ret not_found_reply
  else
    r <- getCSINode a nodeName ;;
    match r with
    | (pod, err) =>
        let failed := match err with Some e => negb (IsNotFound e) | None => false end in
        Ret match (if failed then err else None), pod with
            | Some e, _ => server_error ("get csi node " +:+ nodeName +:+ " error ") e
            | None, None => not_found_reply
            | None, Some pod => [IndentedJSON pod]
            end
    end.

Definition getMountPodsOfPV (pv : option PersistentVolume) : M (reply (list Pod)) :=
  with_key pv (fun pv => answer_list "list pods error " (pods_of_pv pv)).

Definition getMountPodsOfPVC (a : API) (pvc : option PersistentVolumeClaim) : M (reply (list Pod)) :=
  with_key pvc (fun pvc =>
    match pairs a !! nn_of (pvc_meta pvc) with
    | None => Ret not_found_reply
    | Some pvName =>
        r <- read_pv pvName ;;
        match r with
        | Err e => Ret (if IsNotFound e then not_found_reply else server_error ("get pv " +:+ nn_String pvName +:+ " error ") e)
        | Ok pv => answer_list "list pods error " (pods_of_pv pv)
        end
    end).

Definition getPVOfSC (sc : option StorageClass) : M (reply (list PersistentVolume)) :=
  with_key sc (fun sc =>
    r <- sys ListPersistentVolumes ;;
    Ret match r with
        | Err e => server_error "list pvs error " e
        | Ok l => [IndentedJSON (List.filter (fun pv => bool_decide (pv_storageClassName pv = sc_name sc)) l)]
        end).

(** ** debug.go *)

Record APIStatus := {
  SysNamespace : string;
  SysIndexes : list NamespacedName;
  AppIndexes : list NamespacedName;
  Nodeindex : gmap string NamespacedName;
  PvIndexes : list NamespacedName;
  PvcIndexes : list NamespacedName;
  Pairs : gmap string NamespacedName;
}.
(** The pairs are keyed by the text of the claim's name, which has no slash of
    its own. *)
Definition debugAPIStatus (sysNamespace : string) (a : API) : reply APIStatus :=
  [IndentedJSON {| SysNamespace := sysNamespace; SysIndexes := sysIndexes a; AppIndexes := appIndexes a;
                   Nodeindex := csiNodeIndex a; PvIndexes := pvIndexes a; PvcIndexes := pvcIndexes a;
                   Pairs := list_to_map (map (fun kv => (nn_String kv.1, kv.2)) (map_to_list (pairs a))) |}].
