(* ===== verification/DashboardServer.v ===== *)
(** * cmd/dashboard: the server of the dashboard

    [run] of main.go, the static files, and the routes of the API ([Handle] of
    api.go).  gin chooses the route of a request and binds its parameters;
    the table of the routes is the code's.  The handler of a route includes the
    middleware of its group. *)
From S2P Require Import Prelude.
From S2P Require Import GoStrings.
From S2P Require Import K8s.
From S2P Require Import Prog.
From S2P Require Import Effects.
From S2P Require Import Util.
From S2P Require Import Dashboard.
From S2P Require Import DashboardApi.
#[local] Open Scope Z_scope.
#[local] Open Scope go_scope.

(** ** Static files *)

(** What the handlers of the static files do to the response. *)
Inductive static_write :=
| Redirect (code : Z) (location : string)
| File (path : string)
| Abort (code : Z).

Definition redirect_app : list static_write := [Redirect 301 "/app"].

(** The handler of "/app/*path".  After an error other than NotExist the
    FileInfo is nil. *)
Definition serve_app (staticDir path : string) : M (list static_write) :=
  if Contains path ".." then Ret [Abort 403]
  else
    r <- sys (Stat (path_Join [staticDir; path])) ;;
    match r with
    | Err e => if IsNotExist e then Ret [File (path_Join [staticDir; "index.html"])]
               else panic "nil pointer dereference"
    | Ok f => Ret [File (if fi_dir f then path_Join [staticDir; "index.html"] else path_Join [staticDir; path])]
    end.

(** ** The routes of the API *)

Inductive body :=
| Status (s : APIStatus)
| AppPods (total : Z) (l : list PodExtra)
| PVPage (total : Z) (l : list PersistentVolume)
| PVCPage (total : Z) (l : list PersistentVolumeClaim)
| Pods (l : list Pod)
| PVs (l : list PersistentVolume)
| PVCs (l : list PersistentVolumeClaim)
| Classes (l : list StorageClass)
| OnePod (p : Pod)
| OnePV (p : PersistentVolume)
| OnePVC (p : PersistentVolumeClaim)
| OneClass (sc : StorageClass)
| OneNode (n : Node)
| Events (l : list raw)
| Nothing.

Definition encode {A} (f : A -> body) (p : M (reply A)) : M (reply body) :=
  r <- p ;;
  Ret (map (fun w => match w with
                     | WriteString code text => WriteString code text
                     | IndentedJSON x => IndentedJSON (f x)
                     | AbortWithStatus code => AbortWithStatus code
                     end) r).

(** The method is GET in every route. *)
Record route := { r_pattern : string; r_serve : smap -> query -> M (reply body) }.

Section routes.
Context (sysNamespace : string) (a : API).

Definition plain (pattern : string) {A} (f : A -> body) (h : query -> M (reply A)) : route :=
  {| r_pattern := pattern; r_serve := fun _ q => encode f (h q) |}.
(** A route of a group with a middleware: the middleware reads the parameters. *)
Definition in_group {O A} (group : string) (middleware : smap -> M (O + reply unit))
    (pattern : string) (f : A -> body) (h : smap -> option O -> M (reply A)) : route :=
  {| r_pattern := group +:+ pattern; r_serve := fun ps _ => encode f (behind (middleware ps) (h ps)) |}.

Definition pod_group {A} := in_group (A := A) "/pod/:namespace/:name"
  (fun ps => getPodMiddileware (sget ps "namespace") (sget ps "name")).
Definition pv_group {A} := in_group (A := A) "/pv/:name" (fun ps => getPVMiddileware (sget ps "name")).
Definition pvc_group {A} := in_group (A := A) "/pvc/:namespace/:name"
  (fun ps => getPVCMiddileware (sget ps "namespace") (sget ps "name")).
Definition sc_group {A} := in_group (A := A) "/storageclass/:name" (fun ps => getSCMiddileware (sget ps "name")).

Definition pages {A} (f : Z -> list A -> body) (x : Z * list A) : body := f x.1 x.2.

(** Relative to "/api/v1". *)
Definition routes : list route :=
  [plain "/debug/status" Status (fun _ => Ret (debugAPIStatus sysNamespace a));
   plain "/pods" (pages AppPods) (listAppPod a);
   plain "/syspods" (pages AppPods) (listSysPod a);
   plain "/mountpods" Pods (fun _ => listMountPod);
   plain "/csi-nodes" Pods (fun _ => listCSINodePod);
   plain "/controllers" Pods (fun _ => listCSIControllerPod);
   plain "/pvs" (pages PVPage) (listPVsHandler a);
   plain "/pvcs" (pages PVCPage) (listPVCsHandler a);
   plain "/storageclasses" Classes (fun _ => listSCsHandler);
   {| r_pattern := "/csi-node/:nodeName"; r_serve := fun ps _ => encode OnePod (getCSINodeByName a (sget ps "nodeName")) |};
   pod_group "/" OnePod (fun _ => getHandler);
   pod_group "/events" Events (fun _ => getPodEvents);
   pod_group "/logs/:container" (fun _ => Nothing) (fun ps pod => getPodLogs pod (sget ps "container"));
   pod_group "/pvs" PVs (fun _ => listPodPVsHandler a);
   pod_group "/pvcs" PVCs (fun _ => listPodPVCsHandler);
   pod_group "/mountpods" Pods (fun _ => listMountPodsOfAppPod a);
   pod_group "/apppods" Pods (fun _ => listAppPodsOfMountPod);
   pod_group "/node" OneNode (fun _ => getPodNode);
   pv_group "/" OnePV (fun _ => getHandler);
   pv_group "/mountpods" Pods (fun _ => getMountPodsOfPV);
   pv_group "/events" Events (fun _ => getPVEvents);
   pvc_group "/" OnePVC (fun _ => getHandler);
   pvc_group "/mountpods" Pods (fun _ => getMountPodsOfPVC a);
   pvc_group "/events" Events (fun _ => getPVCEvents);
   sc_group "/" OneClass (fun _ => getHandler);
   sc_group "/pvs" PVs (fun _ => getPVOfSC)].
End routes.

(** ** The process *)

Record DashboardFlags := { port : Z; devMode : bool; staticDir : string }.

(** What client-go, controller-runtime and the network answer. *)
Record Outcomes := {
  localConfig : string -> option error;      (** of a kubeconfig file *)
  clusterConfig : option error;
  manager : option error;
  clientset : option error;
}.

(** Served: the address, the namespace of the driver, whether any origin may
    ask, and the directory of the static files. *)
Inductive dashboard :=
| Died (msg : string)
| Listening (addr sysNamespace : string) (anyOrigin : bool) (static : option string).

Definition getLocalConfig (home : string) : string :=
  path_Join [if bool_decide (home = "") then "/root" else home; ".kube"; "config"].

Definition dashboard_run (f : DashboardFlags) (home : string) (env : smap) (w : Outcomes) : dashboard :=
  let sysNamespace := if devMode f then "kube-system" else sget env "SYS_NAMESPACE" in
  match (if devMode f then localConfig w (getLocalConfig home) else clusterConfig w) with
  | Some e => Died ("can't get k8s config: " +:+ error_text e)
  | None =>
      match manager w with
      | Some e => Died ("can't create manager: " +:+ error_text e)
      | None =>
          match clientset w with
          | Some e => Died ("can't create k8s client: " +:+ error_text e)
          | None => Listening (":" +:+ pretty (port f)) sysNamespace (devMode f)
                      (if bool_decide (staticDir f = "") then None else Some (staticDir f))
          end
      end
  end.
