(* ===== verification/Startup.v ===== *)
(** * cmd: start-up, configuration file, identity

    [cmd/main.go], [cmd/controller.go], [cmd/node.go] and the configuration file
    of [pkg/config/config.go]: how the package variables that the components
    read ([Globals]) get their values, which managers a process runs, and how
    the configuration is reloaded.  The environment of the process is a map.
    Servers, metrics and signal handling are not modelled. *)
From Stdlib Require Import Ascii.
From S2P Require Import Prelude.
From S2P Require Import GoStrings.
From S2P Require Import Hash.
From S2P Require Import K8s.
From S2P Require Import GoTime.
From S2P Require Import Prog.
From S2P Require Import Effects.
From S2P Require Import Config.
From S2P Require Import Util.
From S2P Require Import VolumeUtil.
#[local] Open Scope Z_scope.
#[local] Open Scope go_scope.

Definition Hour : Z := 60 * Minute.

(** ** Flags and settings *)

Record Flags := {
  process : bool;
  formatInPod : bool;
  provisioner : bool;
  cacheConf : bool;
  webhook : bool;
  validationWebhook : bool;
  podManager : bool;
  reconcilerInterval : Z;
  nodeID : string;
}.

(** The package variables of [pkg/config]. *)
Record Variables := {
  ByProcess : bool;
  FormatInPod : bool;
  Provisioner : bool;
  CacheClientConf : bool;
  MountManager : bool;
  Webhook : bool;
  ValidatingWebhook : bool;
  Immutable : bool;
  st_DriverName : string;
  st_NodeName : string;
  st_Namespace : string;
  PodName : string;
  HostIp : string;
  KubeletPort : string;
  ReconcileTimeout : Z;
  ReconcilerInterval : Z;
  SecretReconcilerInterval : Z;
  CSIPod : Pod;
  MountPointPath : string;
  JFSConfigPath : string;
  JFSMountPriorityName : string;
  JFSMountPreemptionPolicy : string;
  DefaultCEMountImage : string;
  DefaultEEMountImage : string;
}.
Definition empty_pod : Pod := {| p_meta := empty_meta; p_spec := empty_spec; p_status := empty_status |}.
Definition initial : Variables :=
  {| ByProcess := false; FormatInPod := false; Provisioner := false; CacheClientConf := false;
     MountManager := false; Webhook := false; ValidatingWebhook := false; Immutable := false;
     st_DriverName := DriverName; st_NodeName := ""; st_Namespace := ""; PodName := ""; HostIp := "";
     KubeletPort := ""; ReconcileTimeout := 5 * Minute; ReconcilerInterval := 5;
     SecretReconcilerInterval := Hour; CSIPod := empty_pod;
     MountPointPath := "/var/lib/juicefs/volume"; JFSConfigPath := "/var/lib/juicefs/config";
     JFSMountPriorityName := "system-node-critical"; JFSMountPreemptionPolicy := "";
     DefaultCEMountImage := "juicedata/mount:ce-nightly"; DefaultEEMountImage := "juicedata/mount:ee-nightly" |}.

(** ** Pieces of the environment *)

Section environment.
Context (env : smap).

Definition getenv (k : string) : string := sget env k.
(** The variable, unless it is empty. *)
Definition env_or (k default : string) : string := overwrite_str default (getenv k).

(** [strconv.ParseBool]. *)
Definition ParseBool (s : string) : option bool :=
  if bool_decide (s ∈ ["1"; "t"; "T"; "TRUE"; "true"; "True"]) then Some true
  else if bool_decide (s ∈ ["0"; "f"; "F"; "FALSE"; "false"; "False"]) then Some false
  else None.
Definition env_immutable : bool := default false (ParseBool (getenv "JUICEFS_IMMUTABLE")).

(** A duration that only ever raises the default; one that cannot be parsed is
    zero. *)
Definition env_at_least (k : string) (least : Z) : Z :=
  if bool_decide (getenv k = "") then least
  else let duration := default 0 (ParseDuration (getenv k)) in
       if least <? duration then duration else least.

(** The mount images: the general variable wins for the editions its tag
    names. *)
Definition ce_image (default : string) : string :=
  let image := env_or "JUICEFS_CE_MOUNT_IMAGE" default in
  let both := getenv "JUICEFS_MOUNT_IMAGE" in
  if negb (bool_decide (both = "")) && (ImageResol both).1 then both else image.
Definition ee_image (default : string) : string :=
  let image := env_or "JUICEFS_EE_MOUNT_IMAGE" default in
  let both := getenv "JUICEFS_MOUNT_IMAGE" in
  if negb (bool_decide (both = "")) && (ImageResol both).2 then both else image.

(** ** The node *)

(** A process that starts with settings, or exits. *)
Inductive started_with := Started (s : Variables) | Exited (why : string).

Definition parseNodeConfig (f : Flags) : M started_with :=
  if process f
  then Ret (Started {| ByProcess := true; FormatInPod := false; Provisioner := false; CacheClientConf := false;
     MountManager := false; Webhook := false; ValidatingWebhook := false; Immutable := false;
     st_DriverName := st_DriverName initial; st_NodeName := ""; st_Namespace := ""; PodName := ""; HostIp := "";
     KubeletPort := ""; ReconcileTimeout := ReconcileTimeout initial; ReconcilerInterval := ReconcilerInterval initial;
     SecretReconcilerInterval := SecretReconcilerInterval initial; CSIPod := empty_pod;
     MountPointPath := MountPointPath initial; JFSConfigPath := JFSConfigPath initial;
     JFSMountPriorityName := JFSMountPriorityName initial; JFSMountPreemptionPolicy := JFSMountPreemptionPolicy initial;
     DefaultCEMountImage := DefaultCEMountImage initial; DefaultEEMountImage := DefaultEEMountImage initial |})
  else
    let settings pod :=
      {| ByProcess := false; FormatInPod := formatInPod f; Provisioner := false; CacheClientConf := false;
         MountManager := false; Webhook := false; ValidatingWebhook := false; Immutable := env_immutable;
         st_DriverName := env_or "DRIVER_NAME" (st_DriverName initial); st_NodeName := getenv "NODE_NAME";
         st_Namespace := getenv "JUICEFS_MOUNT_NAMESPACE"; PodName := getenv "POD_NAME"; HostIp := getenv "HOST_IP";
         KubeletPort := getenv "KUBELET_PORT";
         ReconcileTimeout := env_at_least "JUICEFS_RECONCILE_TIMEOUT" (ReconcileTimeout initial);
         ReconcilerInterval := Z.max 5 (reconcilerInterval f);
         SecretReconcilerInterval := env_at_least "JUICEFS_CONFIG_UPDATE_INTERVAL" (SecretReconcilerInterval initial);
         CSIPod := pod; MountPointPath := getenv "JUICEFS_MOUNT_PATH"; JFSConfigPath := getenv "JUICEFS_CONFIG_PATH";
         JFSMountPriorityName := env_or "JUICEFS_MOUNT_PRIORITY_NAME" (JFSMountPriorityName initial);
         JFSMountPreemptionPolicy := env_or "JUICEFS_MOUNT_PREEMPTION_POLICY" (JFSMountPreemptionPolicy initial);
         DefaultCEMountImage := ce_image (DefaultCEMountImage initial);
         DefaultEEMountImage := ee_image (DefaultEEMountImage initial) |} in
    if bool_decide (getenv "POD_NAME" = "") || bool_decide (getenv "JUICEFS_MOUNT_NAMESPACE" = "")
    then Ret (Exited "Pod name & namespace can't be null.")
    else
      c <- sys NewK8sClient ;;
      match c with
      | Some _ => Ret (Exited "Can't get k8s client")
      | None =>
          r <- sys (GetPod Background (getenv "POD_NAME") (getenv "JUICEFS_MOUNT_NAMESPACE")) ;;
          match r with
          | Err _ => Ret (Exited "Can't get pod")
          | Ok pod => Ret (Started (settings pod))
          end
      end.

(** ** The controller *)

(** [CSIPod] has only the spec of the daemon set's template. *)
Definition parseControllerConfig (f : Flags) : M started_with :=
  let driver := env_or "DRIVER_NAME" (st_DriverName initial) in
  if process f
  then Ret (Started {| ByProcess := true; FormatInPod := false; Provisioner := false; CacheClientConf := cacheConf f;
     MountManager := false; Webhook := false; ValidatingWebhook := validationWebhook f; Immutable := false;
     st_DriverName := driver; st_NodeName := ""; st_Namespace := ""; PodName := ""; HostIp := "";
     KubeletPort := ""; ReconcileTimeout := ReconcileTimeout initial; ReconcilerInterval := ReconcilerInterval initial;
     SecretReconcilerInterval := SecretReconcilerInterval initial; CSIPod := empty_pod;
     MountPointPath := MountPointPath initial; JFSConfigPath := JFSConfigPath initial;
     JFSMountPriorityName := JFSMountPriorityName initial; JFSMountPreemptionPolicy := JFSMountPreemptionPolicy initial;
     DefaultCEMountImage := DefaultCEMountImage initial; DefaultEEMountImage := DefaultEEMountImage initial |})
  else
    let settings pod :=
      {| ByProcess := false; FormatInPod := formatInPod f || webhook f; Provisioner := provisioner f;
         CacheClientConf := cacheConf f; MountManager := negb (webhook f); Webhook := webhook f;
         ValidatingWebhook := validationWebhook f; Immutable := env_immutable;
         st_DriverName := driver; st_NodeName := getenv "NODE_NAME";
         st_Namespace := getenv "JUICEFS_MOUNT_NAMESPACE"; PodName := PodName initial; HostIp := HostIp initial;
         KubeletPort := KubeletPort initial; ReconcileTimeout := ReconcileTimeout initial;
         ReconcilerInterval := ReconcilerInterval initial;
         SecretReconcilerInterval := SecretReconcilerInterval initial;
         CSIPod := pod; MountPointPath := getenv "JUICEFS_MOUNT_PATH"; JFSConfigPath := getenv "JUICEFS_CONFIG_PATH";
         JFSMountPriorityName := JFSMountPriorityName initial;
         JFSMountPreemptionPolicy := JFSMountPreemptionPolicy initial;
         DefaultCEMountImage := ce_image (DefaultCEMountImage initial);
         DefaultEEMountImage := ee_image (DefaultEEMountImage initial) |} in
    if webhook f then Ret (Started (settings empty_pod))
    else
      c <- sys NewK8sClient ;;
      match c with
      | Some _ => Ret (Exited "Can't get k8s client")
      | None =>
          r <- sys (GetDaemonSet (env_or "JUICEFS_CSI_NODE_DS_NAME" "juicefs-csi-node") (getenv "JUICEFS_MOUNT_NAMESPACE")) ;;
          match r with
          | Err _ => Ret (Exited "Can't get DaemonSet")
          | Ok spec => Ret (Started (settings (with_spec spec empty_pod)))
          end
      end.
End environment.

(** ** Which managers run *)

Inductive manager := PollKubelet | WatchPods | MountControllers | SidecarWebhook.

(** [StartReconciler]: the error, or [None] when the polling loop was started. *)
Definition StartReconciler (s : Variables) : M (option error) :=
  match Atoi (KubeletPort s) with
  | None => Ret (Some (Errorf ("strconv.Atoi: parsing " +:+ KubeletPort s)))
  | Some port =>
      sys (NewKubeletClient (HostIp s) port) ?;;
      (r <- sys GetNodeRunningPods ;;
       match r with
       | Err e => Ret (Some e)
       | Ok _ => sys NewK8sClient
       end)
  end.

(** [retry.OnError] with every error retriable: [waits] are the pauses of
    [retry.DefaultBackoff] (three, with a random jitter), an attempt before and
    after each. *)
Fixpoint attempts (waits : list Z) (p : M (option error)) : M (option error) :=
  match waits with
  | [] => p
  | d :: waits => e <- p ;; match e with None => Ret None | Some _ => sys (Sleep d) ;;; attempts waits p end
  end.

Definition node_managers (waits : list Z) (f : Flags) (s : Variables) : M (list manager) :=
  if process f || negb (podManager f) then Ret []
  else if bool_decide (KubeletPort s = "") || bool_decide (HostIp s = "") then Ret [WatchPods]
  else e <- attempts waits (StartReconciler s) ;;
       Ret match e with None => [PollKubelet] | Some _ => [WatchPods] end.
Definition controller_managers (s : Variables) : list manager :=
  (if MountManager s then [MountControllers] else []) ++ (if Webhook s then [SidecarWebhook] else []).

(** The controllers and admission handlers a manager registers
    ([cmd/app]). *)
Inductive registered := mount_controller | job_controller | secret_controller | pod_controller | app_controller | admission_handlers.
Definition registers (s : Variables) (m : manager) : list registered :=
  let secrets := if CacheClientConf s then [secret_controller] else [] in
  match m with
  | PollKubelet => []
  | WatchPods => [pod_controller]
  | MountControllers => [mount_controller; job_controller] ++ secrets
  | SidecarWebhook => secrets ++ [admission_handlers; app_controller]
  end.
(** [handler.Register]: the admission handlers by their paths. *)
Inductive admission_handler := Inject (serverless : bool) | ValidateSecret | ValidatePV.
Definition admission_routes (s : Variables) : list (string * admission_handler) :=
  [("/juicefs/inject-v1-pod", Inject false); ("/juicefs/serverless/inject-v1-pod", Inject true)] ++
  (if ValidatingWebhook s
   then [("/juicefs/validate-secret", ValidateSecret); ("/juicefs/validate-pv", ValidatePV)] else []).

(** The process up to its managers. *)
Definition nodeRun (waits : list Z) (env : smap) (f : Flags) : M (started_with * list manager) :=
  r <- parseNodeConfig env f ;;
  match r with
  | Exited _ => Ret (r, [])
  | Started s =>
      if bool_decide (nodeID f = "") then Ret (Exited "nodeID must be provided", [])
      else l <- node_managers waits f s ;; Ret (r, l)
  end.
Definition controllerRun (env : smap) (f : Flags) : M (started_with * list manager) :=
  r <- parseControllerConfig env f ;;
  match r with
  | Exited _ => Ret (r, [])
  | Started s =>
      if bool_decide (nodeID f = "") then Ret (Exited "nodeID must be provided", [])
      else Ret (r, controller_managers s)
  end.

(** [MustGetWebPort]. *)
Definition MustGetWebPort (env : smap) : Z :=
  match env !! "JUICEFS_CSI_WEB_PORT" with
  | Some value => default 8080 (Atoi value)
  | None => 8080
  end.

(** ** The configuration file *)

Record Configuration := { EnableNodeSelector : bool; cfg_MountPodPatch : list MountPodPatch }.
Definition newCfg : Configuration := {| EnableNodeSelector := false; cfg_MountPodPatch := [] |}.

(** YAML is apimachinery's: a file overwrites the fields it has. *)
Class ConfigCodec := { unmarshal_config : Configuration -> string -> res Configuration }.

Section config.
Context `{ConfigCodec} (env : smap) (configPath : string).

(** What a text of the file gives: the old variable only presets the field. *)
Definition configured (data : string) : res Configuration :=
  unmarshal_config (if bool_decide (getenv env "ENABLE_NODE_SELECTOR" = "1")
                    then {| EnableNodeSelector := true; cfg_MountPodPatch := cfg_MountPodPatch newCfg |} else newCfg) data.

(** [LoadConfig]: the global configuration afterwards, and the error. *)
Definition LoadConfig (GlobalConfig : Configuration) : M (Configuration * option error) :=
  r <- sys (ReadFile configPath) ;;
  match r with
  | Err e => Ret (GlobalConfig, Some (Errorf ("fail to read config file " +:+ configPath +:+ ": " +:+ error_text e)))
  | Ok data =>
      Ret match configured data with
          | Ok cfg => (cfg, None)
          | Err e => (GlobalConfig, Some e)
          end
  end.

(** The events of the two goroutines of [StartConfigReloader]. *)
Inductive fs_op := FileWrite | FileRemove | OtherOp.
Inductive reload_event := FileEvent (op : fs_op) | EventsClosed | WatchError | Tick.
Definition reloads (ev : reload_event) : bool :=
  match ev with FileEvent FileWrite | FileEvent FileRemove | Tick => true | _ => false end.
Definition reload (ev : reload_event) (GlobalConfig : Configuration) : M Configuration :=
  if reloads ev then r <- LoadConfig GlobalConfig ;; Ret r.1 else Ret GlobalConfig.

(** The first load must succeed; [watched] is what fsnotify answers to the
    watch of the file.  The goroutines run for the events given. *)
Definition StartConfigReloader (watched : option error) (events : list reload_event) (GlobalConfig : Configuration)
    : M (Configuration * option error) :=
  r <- LoadConfig GlobalConfig ;;
  match r with
  | (g, Some e) => Ret (g, Some e)
  | (g, None) =>
      match watched with
      | Some e => Ret (g, Some e)
      | None => g <- fold_prog events reload g ;; Ret (g, None)
      end
  end.

(** [run] of [cmd/main.go]: which service the pod is, by its name. *)
Inductive service := ControllerService (r : started_with * list manager) | NodeService (r : started_with * list manager) | NoService.
Definition run_service (waits : list Z) (f : Flags) : M service :=
  let podName := getenv env "POD_NAME" in
  if Contains podName "csi-controller" then r <- controllerRun env f ;; Ret (ControllerService r)
  else if Contains podName "csi-node" then r <- nodeRun waits env f ;; Ret (NodeService r)
  else Ret NoService.
Definition run (watched : option error) (waits : list Z) (f : Flags) : M (Configuration * service) :=
  if bool_decide (configPath = "") then s <- run_service waits f ;; Ret (newCfg, s)
  else
    r <- StartConfigReloader watched [] newCfg ;;
    match r with
    | (g, Some _) => Ret (g, NoService)
    | (g, None) => s <- run_service waits f ;; Ret (g, s)
    end.
End config.

(** What the components read. *)
Definition globals_of (tz : Z) (s : Variables) (c : Configuration) : Globals :=
  {| g_ByProcess := ByProcess s; g_FormatInPod := FormatInPod s; g_Provisioner := Provisioner s; g_Webhook := Webhook s;
     g_Immutable := Immutable s; g_DriverName := st_DriverName s; g_ReconcileTimeout := ReconcileTimeout s;
     g_ReconcilerInterval := ReconcilerInterval s; g_SecretReconcilerInterval := SecretReconcilerInterval s; g_NodeName := st_NodeName s; g_Namespace := st_Namespace s; g_HostIp := HostIp s;
     g_KubeletPort := KubeletPort s; g_CSIPod := CSIPod s; g_MountPointPath := MountPointPath s;
     g_JFSConfigPath := JFSConfigPath s; g_JFSMountPriorityName := JFSMountPriorityName s;
     g_JFSMountPreemptionPolicy := JFSMountPreemptionPolicy s; g_DefaultCEMountImage := DefaultCEMountImage s;
     g_DefaultEEMountImage := DefaultEEMountImage s; g_TZ := tz; g_EnableNodeSelector := EnableNodeSelector c;
     g_MountPodPatch := cfg_MountPodPatch c |}.

(** ** Upgrade of the client (juicefs.go) *)

Definition upgrade_timeout (t : option string) : Z := default 10 (t ← t; Atoi t).
Definition Upgrade : M unit :=
  v <- sys (LookupEnv "JFS_AUTO_UPGRADE") ;;
  if negb (bool_decide (v = Some "enabled")) then Ret tt
  else
    t <- sys (LookupEnv "JFS_AUTO_UPGRADE_TIMEOUT") ;;
    let ctx := WithTimeout Background (upgrade_timeout t * Second) in
    r <- sys (Exec ctx CliPath ["version"; "-u"] []) ;;
    c <- sys (CtxErr ctx) ;;
    Ret tt.

(** ** Capabilities and identity (pkg/driver) *)

(** The capabilities of the CSI specification: of the plugin, of the controller
    and of the node. *)
Inductive capability :=
| CONTROLLER_SERVICE
| CREATE_DELETE_VOLUME | PUBLISH_UNPUBLISH_VOLUME | LIST_VOLUMES | GET_CAPACITY | CREATE_DELETE_SNAPSHOT
| LIST_SNAPSHOTS | EXPAND_VOLUME | GET_VOLUME
| STAGE_UNSTAGE_VOLUME | GET_VOLUME_STATS | NODE_EXPAND_VOLUME.
#[export] Instance capability_eq_dec : EqDecision capability.
Proof. solve_decision. Defined.
Definition ControllerGetCapabilities : list capability := [CREATE_DELETE_VOLUME; EXPAND_VOLUME].
Definition NodeGetCapabilities : list capability := [GET_VOLUME_STATS].
Definition NodeGetInfo (nodeID : string) : string := nodeID.
Definition GetPluginInfo `{Globals} (driverVersion : string) : string * string := (g_DriverName, driverVersion).
Definition GetPluginCapabilities : list capability := [CONTROLLER_SERVICE].

(** ** Version (pkg/driver/version.go) *)

Record VersionInfo := {
  vi_DriverVersion : string; vi_GitCommit : string; vi_BuildDate : string;
  vi_GoVersion : string; vi_Compiler : string; vi_Platform : string;
}.
(** The build sets the first three, the Go runtime answers the others. *)
Definition GetVersion (driverVersion gitCommit buildDate goVersion compiler goos goarch : string) : VersionInfo :=
  {| vi_DriverVersion := driverVersion; vi_GitCommit := gitCommit; vi_BuildDate := buildDate;
     vi_GoVersion := goVersion; vi_Compiler := compiler; vi_Platform := goos +:+ "/" +:+ goarch |}.

(** A byte of a string as encoding/json writes it; bytes of a multi-byte
    character stay as they are, the line separators of Unicode apart. *)
Definition json_byte (c : ascii) : string :=
  let n := N_of_ascii c in
  if bool_decide (n = 10)%N then "\n" else if bool_decide (n = 13)%N then "\r" else if bool_decide (n = 9)%N then "\t"
  else if bool_decide (n = 34)%N || bool_decide (n = 92)%N then String "\" (String c "")
  else if (n <? 32)%N || bool_decide (n = 38)%N || bool_decide (n = 60)%N || bool_decide (n = 62)%N
       then "\u00" +:+ hex_nibbles 2 n
  else String c "".
Fixpoint json_bytes (s : string) : string :=
  match s with "" => "" | String c s => json_byte c +:+ json_bytes s end.
Definition json_string (s : string) : string := String "034" (json_bytes s +:+ String "034" "").
Definition GetVersionJSON (v : VersionInfo) : string :=
  let newline := String "010" "" in
  let field kv := "  " +:+ json_string kv.1 +:+ ": " +:+ json_string kv.2 in
  "{" +:+ newline +:+
  Join (map field [("driverVersion", vi_DriverVersion v); ("gitCommit", vi_GitCommit v); ("buildDate", vi_BuildDate v);
                   ("goVersion", vi_GoVersion v); ("compiler", vi_Compiler v); ("platform", vi_Platform v)]) ("," +:+ newline) +:+
  newline +:+ "}".

(** ** The command line (cmd/main.go) *)

(** The flags without arguments; cobra sets those that are given. *)
Definition default_flags : Flags :=
  {| process := false; formatInPod := false; provisioner := false; cacheConf := false; webhook := false;
     validationWebhook := false; podManager := false; reconcilerInterval := 5; nodeID := "" |}.
Definition default_endpoint : string := "unix://tmp/csi.sock".
