(* ===== verification/Managers.v ===== *)
(** * cmd/app: the managers

    [mount_manager.go], [pod_manager.go] and [webhook.go]: how a manager of
    controller-runtime is built, what is registered with it in which order, and
    what a failure does to the process.  The commands are the calls into
    controller-runtime and client-go. *)
From S2P Require Import Prelude.
From S2P Require Import K8s.
From S2P Require Import GoTime.
From S2P Require Import Prog.
From S2P Require Import Effects.
From S2P Require Import Config.
From S2P Require Import Startup.
#[local] Open Scope Z_scope.
#[local] Open Scope go_scope.

(** ** Calls of controller-runtime *)

Inductive object_kind := PodObjects | JobObjects | SecretObjects.
#[export] Instance object_kind_eq_dec : EqDecision object_kind.
Proof. solve_decision. Defined.

(** The options of a manager that the code sets; the cache holds of the kinds
    with a selector only the objects with its labels. *)
Record ManagerOptions := {
  mo_Port : Z;
  mo_CertDir : string;
  mo_MetricsBindAddress : string;
  mo_LeaderElection : bool;
  mo_LeaderElectionNamespace : string;
  mo_LeaderElectionID : string;
  mo_LeaseDuration : option Z;
  mo_SelectorsByObject : list (object_kind * smap);
}.

Inductive mgr_cmd :=
| SetupSignalHandler
| GetConfig
| NewManager (o : ManagerOptions)
| NewClient
| NewController (name : string)
| WatchObjects (name : string) (k : object_kind)
| RegisterHandler (path : string) (h : admission_handler)
| StartManager.
Definition mgr_answer (c : mgr_cmd) : Type :=
  match c with SetupSignalHandler | RegisterHandler _ _ => unit | _ => option error end.
Definition mgrs : signature := Signature mgr_cmd mgr_answer.
Abbreviation R := (prog mgrs).
Definition ask (c : mgr_cmd) : R (mgr_answer c) := call (S := mgrs) c.

(** [if err := p; err != nil { return err }; q]. *)
Definition and_then (p q : R (option error)) : R (option error) :=
  e <- p ;; match e with Some e => Ret (Some e) | None => q end.

(** ** What the controllers register *)

(** The three controllers of mount pods and jobs share a name. *)
Definition controller_name (r : registered) : string :=
  match r with
  | mount_controller | job_controller | pod_controller => "mount"
  | secret_controller => "secret"
  | app_controller => "app"
  | admission_handlers => ""
  end.
Definition watched_kind (r : registered) : object_kind :=
  match r with
  | job_controller => JobObjects
  | secret_controller => SecretObjects
  | _ => PodObjects
  end.

Section managers.
Context (s : Variables).

Definition Register : R (option error) :=
  fold_prog (admission_routes s) (fun r u => ask (RegisterHandler r.1 r.2)) tt ;;; Ret None.
Definition SetupWithManager (r : registered) : R (option error) :=
  match r with
  | admission_handlers => Register
  | _ => and_then (ask (NewController (controller_name r))) (ask (WatchObjects (controller_name r) (watched_kind r)))
  end.
Definition SetupSecretController : R (option error) :=
  if CacheClientConf s then SetupWithManager secret_controller else Ret None.

(** ** Building a manager *)

Record ManagerFlags := {
  leaderElection : bool;
  leaderElectionNamespace : string;
  leaderElectionLeaseDuration : Z;
  certDir : string;
  webhookPort : Z;
}.
(** The flags without arguments. *)
Definition default_manager_flags : ManagerFlags :=
  {| leaderElection := false; leaderElectionNamespace := ""; leaderElectionLeaseDuration := 15 * Second;
     certDir := "/etc/webhook/certs"; webhookPort := 9444 |}.
Context (f : ManagerFlags).

Definition mount_options : ManagerOptions :=
  {| mo_Port := 9443; mo_CertDir := ""; mo_MetricsBindAddress := "0.0.0.0:8083";
     mo_LeaderElection := leaderElection f; mo_LeaderElectionNamespace := leaderElectionNamespace f;
     mo_LeaderElectionID := "mount.juicefs.com"; mo_LeaseDuration := Some (leaderElectionLeaseDuration f);
     mo_SelectorsByObject := [(PodObjects, {[ PodTypeKey := PodTypeValue ]}); (JobObjects, {[ PodTypeKey := JobTypeValue ]})] |}.
Definition pod_options : ManagerOptions :=
  {| mo_Port := 9442; mo_CertDir := ""; mo_MetricsBindAddress := "0.0.0.0:8082";
     mo_LeaderElection := false; mo_LeaderElectionNamespace := "";
     mo_LeaderElectionID := "pod.juicefs.com"; mo_LeaseDuration := None;
     mo_SelectorsByObject := [(PodObjects, {[ PodTypeKey := PodTypeValue ]})] |}.
Definition webhook_options : ManagerOptions :=
  {| mo_Port := webhookPort f; mo_CertDir := certDir f; mo_MetricsBindAddress := "0.0.0.0:8084";
     mo_LeaderElection := leaderElection f; mo_LeaderElectionNamespace := leaderElectionNamespace f;
     mo_LeaderElectionID := "webhook.juicefs.com"; mo_LeaseDuration := Some (leaderElectionLeaseDuration f);
     mo_SelectorsByObject := [(PodObjects, {[ InjectSidecarDone := True_ ]})] |}.

(** A manager with its client. *)
Definition new_manager (o : ManagerOptions) : R (option error) :=
  and_then (ask GetConfig) (and_then (ask (NewManager o)) (ask NewClient)).
Definition NewMountManager : R (option error) := new_manager mount_options.
Definition NewPodManager : R (option error) := new_manager pod_options.
Definition NewWebhookManager : R (option error) := and_then (new_manager webhook_options) SetupSecretController.

(** ** Running a manager *)

(** The end of a goroutine that runs a manager: it returns, or the process
    exits. *)
Inductive goroutine_end := Returns | Exits (code : Z).

(** A controller that cannot be registered is only logged. *)
Definition MountManager_Start : R goroutine_end :=
  e <- and_then (SetupWithManager mount_controller)
         (and_then (SetupWithManager job_controller) SetupSecretController) ;;
  match e with
  | Some _ => Ret Returns
  | None => e <- ask StartManager ;; Ret match e : option error with Some _ => Exits 1 | None => Returns end
  end.
Definition PodManager_Start : R (option error) := and_then (SetupWithManager pod_controller) (ask StartManager).
Definition WebhookManager_Start : R (option error) :=
  and_then Register (and_then (SetupWithManager app_controller) (ask StartManager)).

(** [klog.Fatalln]. *)
Definition fatal (p : R (option error)) : R goroutine_end :=
  e <- p ;; Ret match e with Some _ => Exits 255 | None => Returns end.

(** The goroutines of [controllerRun] and [nodeRun]; the polling of the kubelet
    is not a manager. *)
Definition run_manager (m : manager) : R goroutine_end :=
  match m with
  | PollKubelet => Ret Returns
  | MountControllers =>
      ask SetupSignalHandler ;;;
      e <- NewMountManager ;;
      match e with Some _ => Ret Returns | None => MountManager_Start end
  | WatchPods => ask SetupSignalHandler ;;; fatal (and_then NewPodManager PodManager_Start)
  | SidecarWebhook => ask SetupSignalHandler ;;; fatal (and_then NewWebhookManager WebhookManager_Start)
  end.

(** ** Caches *)

Definition manager_options (m : manager) : option ManagerOptions :=
  match m with
  | PollKubelet => None
  | WatchPods => Some pod_options
  | MountControllers => Some mount_options
  | SidecarWebhook => Some webhook_options
  end.

(** Does the cache of the manager hold the objects of the kind with these
    labels? *)
Definition caches (m : manager) (k : object_kind) (labels : smap) : bool :=
  match manager_options m with
  | None => false
  | Some o => forallb (fun ks => negb (bool_decide (ks.1 = k)) || bool_decide (ks.2 ⊆ labels)) (mo_SelectorsByObject o)
  end.
End managers.
