(* ===== verification/Driver.v ===== *)
(** * pkg/driver/driver.go: the gRPC server

    [NewDriver] and [Run], the endpoint ([ParseEndpoint] of pkg/util), the
    start of the provisioner, and the dispatch of the calls of the CSI
    specification to the three services, with the calls that are not
    implemented.  gRPC itself, net.Listen, the discovery of the server version and
    net/url are not the repository's: their results are arguments. *)
From S2P Require Import Prelude.
From S2P Require Import GoStrings.
From S2P Require Import K8s.
From S2P Require Import GoTime.
From S2P Require Import Prog.
From S2P Require Import Effects.
From S2P Require Import Config.
From S2P Require Import Util.
From S2P Require Import Setting.
From S2P Require Import JfsSetting.
From S2P Require Import PodMount.
From S2P Require Import Juicefs.
From S2P Require Import DriverServices.
From S2P Require Import Startup.
#[local] Open Scope Z_scope.
#[local] Open Scope go_scope.

(** ** The endpoint *)

Record URL := { u_Scheme : string; u_Host : string; u_Path : string }.

Section endpoint.
Context (url_Parse : string -> res URL).

(** The socket of a unix endpoint is removed first. *)
Definition ParseEndpoint (endpoint : string) : M (res (string * string)) :=
  match url_Parse endpoint with
  | Err e => Ret (Err (Errorf ("could not parse endpoint: " +:+ error_text e)))
  | Ok u =>
      let addr := path_Join [u_Host u; u_Path u] in
      let scheme := ToLower (u_Scheme u) in
      if bool_decide (scheme = "tcp") then Ret (Ok (scheme, addr))
      else if bool_decide (scheme = "unix")
      then
        let addr := path_Join ["/"; addr] in
        e <- sys (RemoveFile addr) ;;
        match e with
        | Some e => if IsNotExist e then Ret (Ok (scheme, addr))
                    else Ret (Err (Errorf ("could not remove unix domain socket " +:+ addr +:+ ": " +:+ error_text e)))
        | None => Ret (Ok (scheme, addr))
        end
      else Ret (Err (Errorf ("unsupported protocol: " +:+ scheme)))
  end.

(** ** The driver *)

(** A service has the client, or nil. *)
Record Driver := {
  d_client : bool;
  d_vols : Vols;
  d_nodeID : string;
  d_leaderElectionNamespace : string;
  d_endpoint : string;
}.

Definition NewDriver `{Globals} (endpoint nodeID leaderElectionNamespace : string) : M (res Driver) :=
  let driver client :=
    {| d_client := client; d_vols := ∅; d_nodeID := nodeID;
       d_leaderElectionNamespace := if bool_decide (leaderElectionNamespace = "") then g_Namespace else leaderElectionNamespace;
       d_endpoint := endpoint |} in
  if g_ByProcess then Ret (Ok (driver false))
  else
    e <- sys NewK8sClient ;;
    Ret match e with Some e => Err e | None => Ok (driver true) end.

(** What becomes of the provisioner. *)
Inductive provisioner_run := NotStarted | Provisioning | Fatal (msg : string).
Definition provisionerService_Run (d : Driver) (serverVersion : option error) : provisioner_run :=
  if negb (d_client d) then Fatal "K8sClient is nil"
  else match serverVersion with
       | Some e => Fatal ("Error getting server version: " +:+ error_text e)
       | None => Provisioning
       end.

Inductive server := Serving (scheme addr : string) | RunFailed (e : error).
Definition Driver_Run `{Globals} (d : Driver) (serverVersion : option error) (listen : string -> string -> option error)
  : M (provisioner_run * server) :=
  let p := if g_Provisioner then provisionerService_Run d serverVersion else NotStarted in
  r <- ParseEndpoint (d_endpoint d) ;;
  Ret (p, match r with
          | Err e => RunFailed e
          | Ok (scheme, addr) => match listen scheme addr with Some e => RunFailed e | None => Serving scheme addr end
          end).

(** The end of [controllerRun] and [nodeRun]: an error ends the process. *)
Definition run_driver `{Globals} (endpoint nodeID leaderElectionNamespace : string) (serverVersion : option error)
    (listen : string -> string -> option error) : M (res (provisioner_run * (string * string))) :=
  d <-? NewDriver endpoint nodeID leaderElectionNamespace ;;
  r <- Driver_Run d serverVersion listen ;;
  Ret match r.2 with RunFailed e => Err e | Serving scheme addr => Ok (r.1, (scheme, addr)) end.
End endpoint.

(** ** The calls *)

Inductive rpc :=
(* identity *)
| PluginInfoCall | PluginCapabilitiesCall | ProbeCall
(* controller *)
| CreateVolumeCall (req : CreateVolumeRequest)
| DeleteVolumeCall (volumeID : string) (secrets : option smap)
| ValidateVolumeCapabilitiesCall (volumeID : string) (volCaps : list VolumeCapability)
| ControllerGetCapabilitiesCall | GetCapacityCall | ListVolumesCall
| CreateSnapshotCall | DeleteSnapshotCall | ListSnapshotsCall
| ControllerExpandVolumeCall (req : ExpandRequest)
| ControllerPublishVolumeCall | ControllerUnpublishVolumeCall | ControllerGetVolumeCall
(* node *)
| NodeStageVolumeCall | NodeUnstageVolumeCall
| NodePublishVolumeCall (req : PublishRequest)
| NodeUnpublishVolumeCall (volumeID target : string)
| NodeGetVolumeStatsCall (volumeID volumePath : string)
| NodeGetCapabilitiesCall | NodeGetInfoCall | NodeExpandVolumeCall.

Inductive response :=
| Empty
| PluginInfo (name version : string)
| Capabilities (l : list capability)
| Volume_ (v : CSIVolumeInfo)
| Confirmed (l : option (list VolumeCapability))
| Expanded (capacity : Z) (nodeExpansionRequired : bool)
| Stats (bytes inodes : VolumeUsage)
| NodeId (id : string).

Definition unimplemented : res response := Err (StatusError Unimplemented "").
Definition NodeStageVolume : res response := unimplemented.
Definition NodeUnstageVolume : res response := unimplemented.
Definition NodeExpandVolume : res response := unimplemented.
Definition GetCapacity : res response := unimplemented.
Definition ListVolumes : res response := unimplemented.
Definition CreateSnapshot : res response := unimplemented.
Definition DeleteSnapshot : res response := unimplemented.
Definition ListSnapshots : res response := unimplemented.
Definition ControllerPublishVolume : res response := unimplemented.
Definition ControllerUnpublishVolume : res response := unimplemented.
Definition ControllerGetVolume : res response := unimplemented.
Definition Probe : res response := Ok Empty.
Definition emptied (e : option error) : res response := match e with None => Ok Empty | Some e => Err e end.

Section calls.
Context `{Globals} `{Retry} `{QuantityParser} `{SettingCodec} (fuel : nat) (driverVersion nodeID : string).

(** The capacities the controller remembers, before and after a call. *)
Definition handle (vols : Vols) (r : rpc) : M (Vols * res response) :=
  let answer x := Ret (vols, x) in
  match r with
  | PluginInfoCall => let '(name, version) := GetPluginInfo driverVersion in answer (Ok (PluginInfo name version))
  | PluginCapabilitiesCall => answer (Ok (Capabilities GetPluginCapabilities))
  | ProbeCall => answer Probe
  | CreateVolumeCall req => let '(vols, v) := CreateVolume vols req in Ret (vols, res_map Volume_ v)
  | DeleteVolumeCall volumeID secrets => d <- DeleteVolume fuel vols volumeID secrets ;; Ret (d.1, emptied d.2)
  | ValidateVolumeCapabilitiesCall volumeID volCaps =>
      answer (res_map Confirmed (ValidateVolumeCapabilities vols volumeID volCaps))
  | ControllerGetCapabilitiesCall => answer (Ok (Capabilities ControllerGetCapabilities))
  | ControllerExpandVolumeCall req =>
      x <- ControllerExpandVolume req ;; answer (res_map (fun newSize => Expanded newSize false) x)
  | NodePublishVolumeCall req => e <- NodePublishVolume fuel req ;; answer (emptied e)
  | NodeUnpublishVolumeCall volumeID target => e <- NodeUnpublishVolume fuel volumeID target ;; answer (emptied e)
  | NodeGetVolumeStatsCall volumeID volumePath =>
      x <- NodeGetVolumeStats volumeID volumePath ;; answer (res_map (fun u => Stats u.1 u.2) x)
  | NodeGetCapabilitiesCall => answer (Ok (Capabilities NodeGetCapabilities))
  | NodeGetInfoCall => answer (Ok (NodeId (NodeGetInfo nodeID)))
  | NodeStageVolumeCall => answer NodeStageVolume
  | NodeUnstageVolumeCall => answer NodeUnstageVolume
  | NodeExpandVolumeCall => answer NodeExpandVolume
  | GetCapacityCall => answer GetCapacity
  | ListVolumesCall => answer ListVolumes
  | CreateSnapshotCall => answer CreateSnapshot
  | DeleteSnapshotCall => answer DeleteSnapshot
  | ListSnapshotsCall => answer ListSnapshots
  | ControllerPublishVolumeCall => answer ControllerPublishVolume
  | ControllerUnpublishVolumeCall => answer ControllerUnpublishVolume
  | ControllerGetVolumeCall => answer ControllerGetVolume
  end.
End calls.
