(* ===== verification/PodDriverFacts.v ===== *)
(** * Properties of the mount pod driver

    Safety of the garbage collection of references, the lock discipline of
    [Run], what the handlers may do to a pod, the recovery of targets, and the
    termination of the polling loops. *)
From S2P Require Import Prelude.
From S2P Require Import GoStrings.
From S2P Require Import Hash.
From S2P Require Import K8s.
From S2P Require Import GoTime.
From S2P Require Import Prog.
From S2P Require Import Effects.
From S2P Require Import Config.
From S2P Require Import Util.
From S2P Require Import PodUtil.
From S2P Require Import Setting.
From S2P Require Import JfsSetting.
From S2P Require Import Builder.
From S2P Require Import MountTable.
From S2P Require Import PodDriver.
#[local] Open Scope Z_scope.
#[local] Open Scope go_scope.

(** ** Classes of commands *)

Definition is_delete_pod (c : jfs_cmd) : bool := match c with DeletePod _ => true | _ => false end.
Definition is_create_pod (c : jfs_cmd) : bool := match c with CreatePod _ => true | _ => false end.
Definition is_patch_pod (c : jfs_cmd) : bool := match c with PatchPod _ _ => true | _ => false end.
(** Commands that change a pod of the cluster. *)
Definition writes_pod (c : jfs_cmd) : bool := is_delete_pod c || is_create_pod c || is_patch_pod c.

(** The events of a trace that issue a command of a class. *)
Abbreviation no_cmd P t := (never (S := jfs) (fun e => P (projT1 e)) t = true).

(** The commands a trace issued. *)
Definition cmds (t : jtrace) : list jfs_cmd := map (fun e => projT1 e) t.

Lemma cmds_app t1 t2 : cmds (t1 ++ t2) = cmds t1 ++ cmds t2.
Proof. apply map_app. Qed.

Lemma no_cmd_cmds P t : no_cmd P t <-> Forall (fun c => P c = false) (cmds t).
Proof. rewrite never_spec. unfold cmds. by rewrite Forall_map. Qed.

Lemma no_cmd_app P t1 t2 : no_cmd P (t1 ++ t2) <-> no_cmd P t1 /\ no_cmd P t2.
Proof. by rewrite never_app, andb_true_iff. Qed.

(** ** The scan of the references *)

Lemma scan_refs_snoc mit kvs kv :
  scan_refs mit (kvs ++ [kv]) =
  (if is_ref kv
   then match deletedPods mit !! getPodUid kv.2 with
        | None => ((scan_refs mit kvs).1 ++ [kv.1], (scan_refs mit kvs).2)
        | Some _ => ((scan_refs mit kvs).1, (scan_refs mit kvs).2 + 1)
        end
   else scan_refs mit kvs).
Proof. unfold scan_refs. by rewrite foldl_app. Qed.

Definition live_ref (mit : mountInfoTable) (kv : string * string) : Prop :=
  is_ref kv = true /\ is_Some (deletedPods mit !! getPodUid kv.2).
#[export] Instance live_ref_dec mit kv : Decision (live_ref mit kv).
Proof. unfold live_ref. apply _. Defined.
Definition dead_ref (mit : mountInfoTable) (kv : string * string) : Prop :=
  is_ref kv = true /\ deletedPods mit !! getPodUid kv.2 = None.

Lemma scan_refs_dead mit kvs k :
  k ∈ (scan_refs mit kvs).1 <-> exists v, (k, v) ∈ kvs /\ dead_ref mit (k, v).
Proof.
  unfold dead_ref. induction kvs as [|[k' v'] kvs IH] using rev_ind.
  - simpl. split; [by intros ?%elem_of_nil|]. by intros (v & ?%elem_of_nil & _).
  - rewrite scan_refs_snoc.
    trans (k ∈ (scan_refs mit kvs).1 \/ k = k' /\ dead_ref mit (k', v')).
    + unfold dead_ref. destruct (is_ref (k', v')); [destruct (deletedPods mit !! _)|]; simpl;
        rewrite ?elem_of_app, ?list_elem_of_singleton; naive_solver.
    + rewrite IH. setoid_rewrite elem_of_app. setoid_rewrite list_elem_of_singleton.
      unfold dead_ref. split.
      * intros [(v & ? & ?)|(-> & ?)]; eauto.
      * intros (v & [?|[= -> ->]] & ?); eauto.
Qed.

Lemma scan_refs_live mit kvs :
  0 <= (scan_refs mit kvs).2 /\
  ((scan_refs mit kvs).2 = 0 <-> forall kv, kv ∈ kvs -> ~ live_ref mit kv).
Proof.
  unfold live_ref. induction kvs as [|kv kvs [IH0 IH]] using rev_ind.
  - simpl. split; [lia|]. split; [|done]. intros _ kv Hkv. by apply elem_of_nil in Hkv.
  - rewrite scan_refs_snoc. setoid_rewrite elem_of_app. setoid_rewrite list_elem_of_singleton.
    destruct (is_ref kv) eqn:Er; [destruct (deletedPods mit !! getPodUid kv.2) as [b|] eqn:Ed|]; simpl.
    + split; [lia|]. split; [lia|]. intros H. exfalso.
      apply (H kv); [by right|]. rewrite Er, Ed. eauto.
    + split; [done|]. rewrite IH. split; intros H kv' Hin; [|by apply H; left].
      destruct Hin as [Hin| ->]; [by apply H|]. rewrite Ed. by intros [_ [? ?]].
    + split; [done|]. rewrite IH. split; intros H kv' Hin; [|by apply H; left].
      destruct Hin as [Hin| ->]; [by apply H|]. rewrite Er. by intros [? _].
Qed.

(** ** Garbage collection of references *)

Lemma ShouldDelay_avoids `{Globals} P pod :
  P Now = false -> (forall p d, P (PatchPod p d) = false) -> avoids (S := jfs) P (ShouldDelay pod).
Proof.
  intros HN HP. unfold ShouldDelay, GetTimeAfterDelay, AddPodAnnotation.
  solve_avoids; auto.
Qed.

Lemma drop_dead_refs_avoids P pod l :
  (forall c n ns, P (GetPod c n ns) = false) -> (forall p d, P (PatchPod p d) = false) ->
  avoids (S := jfs) P (drop_dead_refs pod l).
Proof. intros HG HP. unfold drop_dead_refs, DelPodAnnotation. solve_avoids; auto. Qed.

(** What [delete_unreferenced] does: a look at the latest pod, and only if it
    shows no reference the deletion, right after it. *)
Lemma wp_delete_unreferenced pod t :
  wp (delete_unreferenced pod) (fun t' o =>
    (exists t1, t' = t ++ t1 /\ no_cmd is_delete_pod t1) \/
    (exists newPod r t1, GetAllRefKeys newPod = ∅ /\ no_cmd is_delete_pod t1 /\
       t' = t ++ ev (S := jfs) (GetPod Caller (pod_name pod) (pod_namespace pod)) (Ok newPod)
              :: ev (S := jfs) (DeletePod pod) r :: t1)) t.
Proof.
  unfold delete_unreferenced. prog_simpl. intros [newPod|e]; prog_simpl.
  - destruct (bool_decide (size (GetAllRefKeys newPod) <> 0%nat)) eqn:Eb; prog_simpl.
    + left. by eexists.
    + apply bool_decide_eq_false, dec_stable, map_size_empty_iff in Eb.
      intros [e|]; prog_simpl.
      * right. exists newPod, (Some e), []. by rewrite <-app_assoc.
      * intros r. right. exists newPod, None.
        eexists [_]. rewrite <- !app_assoc. split_and!; [done| |done]. done.
  - left. by eexists.
Qed.

(** A run deletes no pod, or deletes exactly this one, right after seeing it
    without references. *)
Definition deletes_only_unreferenced (pod : Pod) (t : jtrace) : Prop :=
  no_cmd is_delete_pod t \/
  exists t1 newPod r t2,
    t = t1 ++ ev (S := jfs) (GetPod Caller (pod_name pod) (pod_namespace pod)) (Ok newPod)
           :: ev (S := jfs) (DeletePod pod) r :: t2 /\
    no_cmd is_delete_pod t1 /\ no_cmd is_delete_pod t2 /\ GetAllRefKeys newPod = ∅.

Lemma deletes_only_unreferenced_app pod t0 t t1 :
  no_cmd is_delete_pod t0 -> no_cmd is_delete_pod t1 ->
  deletes_only_unreferenced pod t -> deletes_only_unreferenced pod (t0 ++ t ++ t1).
Proof.
  intros H0 H1 [H|(ta & newPod & r & tb & -> & Ha & Hb & Hn)].
  - left. by rewrite !no_cmd_app.
  - right. exists (t0 ++ ta), newPod, r, (tb ++ t1). rewrite !no_cmd_app.
    by rewrite <- !app_assoc.
Qed.

Lemma no_cmd_unlock P {A} podName (o : outcome A) :
  (forall i, P (Unlock i) = false) -> no_cmd P (unlock_events podName o).
Proof. intros H. destruct o as [a|[m|]]; unfold never; simpl; by rewrite ?H. Qed.

(** The critical section of [checkAnnotations]. *)
Definition gc_body `{Globals} (pod : Pod) (dels : list string) (existTargets : Z)
  : M (option error) :=
  drop_dead_refs pod dels ?;;
  if (existTargets =? 0) && negb (is_deleted pod)
  then r <- ShouldDelay pod ;;
       match r with
       | (_, Some e) => Ret (Some e)
       | (true, None) => Ret None
       | (false, None) => delete_unreferenced pod
       end
  else Ret None.

Lemma gc_body_deletes `{Globals} pod dels n t o :
  runs (gc_body pod dels n) t o ->
  deletes_only_unreferenced pod t /\
  (~ no_cmd is_delete_pod t -> is_deleted pod = false /\ n = 0).
Proof.
  intros Hr. pattern t, o. eapply wp_elim; [exact Hr|]. clear t o Hr. unfold gc_body.
  apply wp_bind. eapply wp_mono.
  { apply (wp_avoids (S := jfs) is_delete_pod), drop_dead_refs_avoids; done. }
  intros t' [[e|]|s] (t1 & -> & H1); prog_simpl; [by split; [left|]| |by split; [left|]].
  destruct ((n =? 0) && negb (is_deleted pod)) eqn:Ec; prog_simpl; [|by split; [left|]].
  apply andb_true_iff in Ec as [Ez%Z.eqb_eq Hd%negb_true_iff].
  apply wp_bind. eapply wp_mono.
  { apply (wp_avoids (S := jfs) is_delete_pod), ShouldDelay_avoids; done. }
  intros t' [[[] [e|]]|s] (t2 & -> & H2); prog_simpl;
    try by (assert (no_cmd is_delete_pod (t1 ++ t2)) by (by rewrite no_cmd_app); split; [left|]).
  eapply wp_mono; [apply wp_delete_unreferenced|].
  intros t' o [(t3 & -> & H3)|(newPod & r & t3 & Hn & H3 & ->)].
  - assert (no_cmd is_delete_pod ((t1 ++ t2) ++ t3)) by (by rewrite !no_cmd_app). by split; [left|].
  - split; [|done]. right. exists (t1 ++ t2), newPod, r, t3. by rewrite no_cmd_app.
Qed.

(** C2: the garbage collector never deletes a mount pod somebody uses.  In
    every run of [checkAnnotations], whatever the API server and the other
    actors answer, either no pod is deleted, or the one pod deleted is the one
    checked, it was not already being deleted, every reference in its
    annotations belongs to an app pod that is no longer on the node, and the
    call right before the deletion read the pod from the API server with no
    reference left. *)
Theorem checkAnnotations_delete_safe `{Globals} mit pod t o :
  runs (checkAnnotations mit pod) t o ->
  deletes_only_unreferenced pod t /\
  (~ no_cmd is_delete_pod t ->
   is_deleted pod = false /\
   forall k v, pod_annotations pod !! k = Some v -> ~ live_ref mit (k, v)).
Proof.
  intros (t1 & (kvs & e & t2 & Hkvs & -> & He & Hb)%runs_range_map & ->)%runs_locked.
  apply gc_body_deletes in Hb as [Hd Hn].
  assert (no_cmd is_delete_pod [ev (S := jfs) (Lock (GetPodLock (pod_name pod))) tt; e]) as H0.
  { destruct e as [c a]. simpl in He. by subst c. }
  pose proof (no_cmd_unlock is_delete_pod (pod_name pod) o (fun _ => eq_refl)) as H1.
  match goal with |- context [?l :: (e :: t2) ++ ?u] => change (l :: (e :: t2) ++ u) with ([l; e] ++ t2 ++ u) end.
  split.
  - by apply deletes_only_unreferenced_app.
  - rewrite !no_cmd_app. intros Hne. destruct Hn as [Hdel Hz]; [by intros ?; apply Hne|].
    split; [done|]. intros k v Hkv. apply (proj1 (proj2 (scan_refs_live mit kvs)) Hz).
    rewrite Hkvs. by apply elem_of_map_to_list.
Qed.

(** The patches [checkAnnotations] may send after a history: the removal of
    dead references, computed from a pod whose references the API server just
    confirmed, or the deadline of the delayed deletion of an unused pod. *)
Definition gc_patch (mit : mountInfoTable) (pod : Pod) (t : jtrace) (c : jfs_cmd) : Prop :=
  match c with
  | PatchPod p d =>
      p = pod /\
      ((exists dels newPod t0,
          d = JSONPatch (map (fun k => RemovePath (annotation_path k)) dels) /\
          (forall k, k ∈ dels ->
             (exists v, pod_annotations pod !! k = Some v /\ dead_ref mit (k, v)) \/
             (k = DeleteDelayAtKey /\ exists k' v', pod_annotations pod !! k' = Some v' /\
                                                    live_ref mit (k', v'))) /\
          t = t0 ++ [ev (S := jfs) (GetPod Caller (pod_name pod) (pod_namespace pod)) (Ok newPod)] /\
          size (GetAllRefKeys newPod) = size (GetAllRefKeys pod)) \/
       (exists d', d = MergeAnnotations {[ DeleteDelayAtKey := d' ]} /\
          forall k v, pod_annotations pod !! k = Some v -> ~ live_ref mit (k, v)))
  | CreatePod _ => False
  | _ => True
  end.

Lemma drop_dead_refs_patches mit pod dels t :
  (forall k, k ∈ dels ->
     (exists v, pod_annotations pod !! k = Some v /\ dead_ref mit (k, v)) \/
     (k = DeleteDelayAtKey /\ exists k' v', pod_annotations pod !! k' = Some v' /\
                                            live_ref mit (k', v'))) ->
  issues (S := jfs) (gc_patch mit pod) (drop_dead_refs pod dels) t.
Proof.
  intros Hd. unfold drop_dead_refs. destruct dels as [|k dels]; [done|].
  split; [done|]. intros [newPod|e]; prog_simpl; [|done].
  destruct (bool_decide _) eqn:E; [done|]. apply bool_decide_eq_false, dec_stable in E.
  split; [|done]. split; [done|]. left. by exists (k :: dels), newPod, t.
Qed.

Lemma ShouldDelay_patches `{Globals} mit pod t :
  (forall k v, pod_annotations pod !! k = Some v -> ~ live_ref mit (k, v)) ->
  issues (S := jfs) (gc_patch mit pod) (ShouldDelay pod) t.
Proof.
  intros Hl. unfold ShouldDelay, GetTimeAfterDelay, AddPodAnnotation.
  destruct (pod_annotations pod !! DeleteDelayTimeKey) as [d|]; [|done].
  destruct (pod_annotations pod !! DeleteDelayAtKey) as [d'|].
  - destruct (GetTime d'); [|done]. by split.
  - destruct (ParseDuration d); [|done]. split; [done|]. intros now. prog_simpl.
    split; [|by intros [e|]]. split; [done|]. right. eauto.
Qed.

(** C3: what the garbage collector writes.  Every patch of [checkAnnotations]
    is on the pod checked; it removes annotations that are references of dead
    app pods (and the recorded deletion deadline, only if a live reference
    exists), with the number of references confirmed by the API server in the
    call right before; or it records a deletion deadline, only if no live
    reference exists.  No pod is created. *)
Theorem checkAnnotations_patches `{Globals} mit pod t o :
  runs (checkAnnotations mit pod) t o ->
  forall t1 e t2, t = t1 ++ e :: t2 -> gc_patch mit pod t1 (projT1 e).
Proof.
  intros Hr. apply (issues_runs (S := jfs) (gc_patch mit pod) _ [] _ _) with (2 := Hr).
  apply issues_locked; [done..|]. intros u. apply issues_bind; [by split|].
  intros t' kvs ([ks Hks] & ? & -> & -> & [= ->]). cbn [proj1_sig].
  assert (entries (pod_annotations pod) ks ≡ₚ map_to_list (pod_annotations pod)) as Hp
    by by apply entries_perm.
  set (kvs := entries _ _) in *.
  assert (forall k v, (k, v) ∈ kvs <-> pod_annotations pod !! k = Some v) as Hin.
  { intros k v. rewrite Hp. apply elem_of_map_to_list. }
  apply issues_bind.
  - apply drop_dead_refs_patches. intros k Hk.
    assert (k ∈ (scan_refs mit kvs).1 \/ k = DeleteDelayAtKey /\ (scan_refs mit kvs).2 <> 0) as [H1|[-> H1]].
    { destruct (_ && _) eqn:E; [|by left]. apply andb_true_iff in E as [E%negb_true_iff%Z.eqb_neq _].
      apply elem_of_app in Hk as [?| ->%list_elem_of_singleton]; auto. }
    + left. apply scan_refs_dead in H1 as (v & Hv%Hin & Hd). eauto.
    + right. split; [done|].
      destruct (decide (Exists (live_ref mit) kvs)) as [Hex|Hnex].
      * apply Exists_exists in Hex as ([k' v'] & Hv%Hin & Hl). eauto.
      * exfalso. apply H1, scan_refs_live. intros kv Hkv Hl. apply Hnex, Exists_exists. eauto.
  - intros t' [e|] _; [done|].
    destruct ((scan_refs mit kvs).2 =? 0) eqn:Ez; simpl; [|done]. apply Z.eqb_eq in Ez.
    destruct (is_deleted pod); simpl; [done|]. apply issues_bind.
    + apply ShouldDelay_patches. intros k v Hkv.
      apply (proj1 (proj2 (scan_refs_live mit kvs)) Ez). by apply Hin.
    + intros t'' [[] [e|]] _; try done.
      apply (issues_avoids (S := jfs) (gc_patch mit pod)
               (fun c => is_create_pod c || is_patch_pod c)); [by intros ? []|].
      unfold delete_unreferenced. solve_avoids.
Qed.

(** ** What the handlers write *)

(** The history shows that the pod was looked up and did not exist. *)
Definition gone_in (t : jtrace) (pod : Pod) : Prop :=
  exists ctx e, ev (S := jfs) (GetPod ctx (pod_name pod) (pod_namespace pod)) (Err e) ∈ t /\
                IsNotFound e = true.

Lemma gone_in_app t t' pod : gone_in t pod -> gone_in (t ++ t') pod.
Proof. intros (ctx & e & H & He). exists ctx, e. rewrite elem_of_app. auto. Qed.

(** The writes a handler may do on [pod] after a history. *)
Definition handler_writes (pod : Pod) (t : jtrace) (c : jfs_cmd) : Prop :=
  match c with
  | CreatePod p =>
      gone_in t pod /\ p_meta p = p_meta (recreated_pod pod) /\
      ((IsPodResourceError pod = true /\ p = DeleteResourceOfPod (recreated_pod pod)) \/
       (GetAllRefKeys pod <> ∅ /\ Finalizer ∈ Finalizers (p_meta pod) /\
        IsPodResourceError pod = false))
  | DeletePod p => p = pod /\ IsPodResourceError pod = true
  | PatchPod p _ => p = pod
  | _ => True
  end.

Abbreviation writes_ok pod := (issues (S := jfs) (handler_writes pod)).

Lemma handler_writes_other pod t c : writes_pod c = false -> handler_writes pod t c.
Proof. by destruct c. Qed.

(** Programs that write no pod. *)
Lemma writes_ok_avoids pod {A} (p : M A) t : avoids (S := jfs) writes_pod p -> writes_ok pod p t.
Proof. apply issues_avoids, handler_writes_other. Qed.

Lemma runs_call c t (a : jfs_answer c) : runs (sys c) t (Done a) -> t = [ev (S := jfs) c a].
Proof. intros (b & t' & -> & -> & [= ->]). done. Qed.

(** The wait ends with [true] only after a lookup that found nothing. *)
Lemma wait_deleted_gone pod n t :
  runs (loop n (wait_deleted_step pod) tt) t (Done true) -> gone_in t pod.
Proof.
  intros Hr. pattern t. set (Q := fun t => gone_in t pod).
  change (match Done true with Done true => Q t | _ => True end). revert Hr.
  generalize (Done true). intros o Hr. pattern t, o. eapply wp_elim; [exact Hr|].
  apply (wp_loop (fun _ _ => True)); [done..|]. intros [] t0 _.
  unfold wait_deleted_step. prog_simpl. intros [p|e]; prog_simpl; [by intros []|].
  destruct (IsNotFound e) eqn:En; prog_simpl.
  - exists Caller, e. split; [|done]. apply elem_of_app. right. by left.
  - destruct (IsTimeout e); prog_simpl; [done|]. by intros [c|].
Qed.

Lemma redeploy_writes fuel pod t :
  IsPodResourceError pod = true -> writes_ok pod (redeploy_without_resources fuel pod) t.
Proof.
  intros He. unfold redeploy_without_resources, RemoveFinalizer.
  split; [done|]. intros r. prog_simpl. split; [done|]. intros [e|]; prog_simpl; [done|].
  apply issues_bind.
  - apply writes_ok_avoids. unfold wait_deleted_step. solve_avoids.
  - intros t' [] Hw; [|done]. split; [|done]. split_and!.
    + apply wait_deleted_gone in Hw. destruct Hw as (ctx & e & Hin & He').
      exists ctx, e. split; [|done]. apply elem_of_app. by right.
    + done.
    + by left.
Qed.

Lemma podErrorHandler_writes fuel pod t : writes_ok pod (podErrorHandler fuel (Some pod)) t.
Proof.
  apply issues_locked; [done..|]. intros u.
  destruct (IsPodResourceError pod) eqn:E; simpl; [|done].
  destruct (IsPodHasResource pod); [|done]. by apply redeploy_writes.
Qed.

(** ** Programs that write no pod *)

Lemma umount_times_avoids P tgt n :
  (forall t, P (Unmount t) = false) -> avoids (S := jfs) P (umount_times tgt n).
Proof. intros HP. induction n as [|n IH]; simpl; [done|]. by split. Qed.

Lemma DoWithTimeout_avoids P {A} ctx d (f : M (res A)) :
  (forall c, P (AwaitDone c) = false) -> P Scheduled = false -> avoids (S := jfs) P f ->
  avoids (S := jfs) P (DoWithTimeout ctx d f).
Proof. intros H1 H2 Hf. unfold DoWithTimeout, go. solve_avoids; auto. Qed.

Lemma DoWithTimeoutE_avoids P ctx d f :
  (forall c, P (AwaitDone c) = false) -> P Scheduled = false -> avoids (S := jfs) P f ->
  avoids (S := jfs) P (DoWithTimeoutE ctx d f).
Proof. intros H1 H2 Hf. unfold DoWithTimeoutE, go. solve_avoids; auto. Qed.

(** Commands on targets: what recovery and waiting for a mount point do. *)
Definition on_targets (c : jfs_cmd) : bool :=
  match c with
  | Stat _ | RangeKeys _ | ParseMountInfo | Unmount _ | LazyUmount _ | Mount _ _ _ _
  | CtxDone _ | AwaitDone _ | Scheduled | Sleep _ | MinorStore _ _ | PathExists _ => true
  | _ => false
  end.
Definition off_targets (c : jfs_cmd) : bool := negb (on_targets c).

Lemma resolve_off_targets mit tgt : avoids (S := jfs) off_targets (resolveTarget mit tgt).
Proof. by apply resolveTarget_avoids. Qed.

Lemma recoverTarget_off_targets src ti mi : avoids (S := jfs) off_targets (recoverTarget src ti mi).
Proof.
  unfold recoverTarget, umountTarget, umountTargetUntilRemain, parse, UmountPath.
  pose proof (umount_times_avoids off_targets). pose proof resolve_off_targets.
  solve_avoids; auto.
Qed.

Lemma recover_off_targets mit pod mnt : avoids (S := jfs) off_targets (recover mit pod mnt).
Proof.
  unfold recover, recover_one. pose proof recoverTarget_off_targets.
  pose proof resolve_off_targets. solve_avoids; auto.
Qed.

Lemma WaitUtilMountReady_off_targets fuel p d :
  avoids (S := jfs) off_targets (WaitUtilMountReady fuel p d).
Proof.
  unfold WaitUtilMountReady, wait_mount_step. pose proof @DoWithTimeout_avoids.
  solve_avoids; auto. by apply DoWithTimeout_avoids.
Qed.

Lemma podReadyHandler_off_targets mit pod : avoids (S := jfs) off_targets (podReadyHandler mit pod).
Proof.
  unfold podReadyHandler. pose proof recover_off_targets.
  solve_avoids; auto. apply DoWithTimeout_avoids; [done..|]. solve_avoids.
Qed.

Lemma off_targets_writes c : writes_pod c = true -> off_targets c = true.
Proof. by destruct c. Qed.
Lemma off_targets_locks c : is_lock_cmd c = true -> off_targets c = true.
Proof. by destruct c. Qed.
Lemma off_targets_no_write {A} (p : M A) :
  avoids (S := jfs) off_targets p -> avoids (S := jfs) writes_pod p.
Proof. apply avoids_weaken, off_targets_writes. Qed.
Lemma off_targets_lock_free {A} (p : M A) : avoids (S := jfs) off_targets p -> lock_free p.
Proof. apply avoids_weaken, off_targets_locks. Qed.

#[export] Hint Resolve recover_off_targets WaitUtilMountReady_off_targets
  podReadyHandler_off_targets resolve_off_targets recoverTarget_off_targets
  off_targets_no_write off_targets_lock_free : avoids.

Section handlers.
Context `{Globals} `{QuantityParser} `{MountJobs}.

Lemma CleanUpCache_no_write fuel pod : avoids (S := jfs) writes_pod (CleanUpCache fuel pod).
Proof.
  unfold CleanUpCache, wait_gone_step, panic. solve_avoids.
  eapply (avoids_weaken (S := jfs)); [|apply CleanCache_no_pod]. by intros [].
Qed.
Lemma CleanUpCache_lock_free fuel pod : lock_free (CleanUpCache fuel pod).
Proof. unfold CleanUpCache, wait_gone_step, panic. pose proof CleanCache_lock_free. solve_avoids; auto. Qed.

(** The stuck watch reads pods, creates the abort job and waits. *)
Lemma checkMountPodStuck_avoids P fuel pod :
  (forall ctx n ns, P (GetPod ctx n ns) = false) -> (forall c, P (AwaitDone c) = false) ->
  (forall c, P (CtxErr c) = false) -> (forall m, P (MinorLoad m) = false) ->
  (forall m, P (MinorDelete m) = false) -> (forall j, P (CreateJob j) = false) ->
  (forall c n ns, P (GetJob c n ns) = false) -> (forall d, P (Sleep d) = false) ->
  avoids (S := jfs) P (checkMountPodStuck fuel pod).
Proof.
  intros. unfold checkMountPodStuck, stuck_step, doAbortFuse, NewFuseAbortJob, wait_abort_step.
  solve_avoids; auto.
Qed.

Lemma Overwirte_avoids P pod :
  (forall n, P (GetPersistentVolume n) = false) ->
  (forall n ns, P (GetPersistentVolumeClaim n ns) = false) ->
  avoids (S := jfs) P (OverwirteMountPodResourcesWithPVC pod).
Proof. intros. unfold OverwirteMountPodResourcesWithPVC, panic. solve_avoids; auto. Qed.

(** Taking the resources from the claim only changes the containers. *)
Lemma Overwirte_meta pod t p :
  runs (OverwirteMountPodResourcesWithPVC pod) t (Done p) -> p_meta p.1 = p_meta pod.
Proof.
  intros Hr. change (match Done p with Done q => p_meta q.1 = p_meta pod | _ => True end).
  revert Hr. generalize (Done p). intros o Hr. pattern t, o. eapply wp_elim; [exact Hr|].
  unfold OverwirteMountPodResourcesWithPVC, panic. prog_simpl.
  intros [pv|e]; prog_simpl; [|done]. destruct (pv_claimRef pv) as [[n ns]|]; prog_simpl; [|done].
  intros [pvc|e]; prog_simpl; [|done].
  destruct (ParsePodResources _ _ _ _); prog_simpl; [|done].
  by destruct (Containers (p_spec pod)).
Qed.

Lemma recreate_writes fuel mit pod src t :
  gone_in t pod -> GetAllRefKeys pod <> ∅ -> Finalizer ∈ Finalizers (p_meta pod) ->
  IsPodResourceError pod = false ->
  writes_ok pod (recreate_mount_pod fuel mit pod src) t.
Proof.
  intros Hg Hr Hf He. unfold recreate_mount_pod.
  apply issues_bind; [apply writes_ok_avoids; apply DoWithTimeoutE_avoids; solve_avoids; done|].
  intros t1 e _. apply issues_bind; [apply writes_ok_avoids; unfold UmountPath; solve_avoids|].
  intros t2 [] _. apply issues_bind; [by apply writes_ok_avoids, Overwirte_avoids|].
  intros t3 [p e'] Hp. apply Overwirte_meta in Hp. cbn [fst] in *. split.
  - split_and!; [|done|by right]. by do 3 apply gone_in_app.
  - intros r. prog_simpl. apply writes_ok_avoids. solve_avoids.
Qed.

Lemma podDeletedHandler_writes fuel mit pod t :
  writes_ok pod (podDeletedHandler fuel mit (Some pod)) t.
Proof.
  unfold podDeletedHandler. destruct (ContainsString _ _) eqn:Ef; [|done].
  apply ContainsString_spec in Ef. cbn [negb].
  split; [done|]. intros [e|]; prog_simpl; [done|].
  apply issues_bind.
  { apply writes_ok_avoids. unfold go. solve_avoids. by apply checkMountPodStuck_avoids. }
  intros t1 [] _. destruct (IsPodResourceError pod) eqn:Er; [done|].
  destruct (GetMountPathOfPod pod) as [[src vol]|]; [|done].
  destruct (Annotations (p_meta pod)); [|done].
  case_bool_decide as Hx.
  { apply writes_ok_avoids. unfold UmountPath, go. pose proof CleanUpCache_no_write.
    pose proof DoWithTimeoutE_avoids. solve_avoids; auto. by apply DoWithTimeoutE_avoids. }
  apply issues_locked; [done..|]. intros u.
  apply (issues_loop (S := jfs) _ (fun _ _ => True)); [done|]. intros [] t2 _.
  split; [|done]. split; [done|]. intros [po|e]; prog_simpl.
  - destruct (is_deleted po); [done|]. by split.
  - destruct (IsTimeout e); [done|]. destruct (IsNotFound e) eqn:En; [|done].
    apply issues_bind; [|done]. apply recreate_writes; [|done..].
    exists Caller, e. split; [|done]. apply elem_of_app. right. by left.
Qed.

Lemma handle_writes fuel mit st pod t : writes_ok pod (handle fuel mit st (Some pod)) t.
Proof.
  destruct st; cbn [handle].
  - apply writes_ok_avoids. apply off_targets_no_write, podReadyHandler_off_targets.
  - apply podErrorHandler_writes.
  - apply podDeletedHandler_writes.
  - apply podErrorHandler_writes.
Qed.
End handlers.

(** ** Properties of [Run] *)

(** The pod a handler works on: the reconciler's own copy when it is ready or
    pending, the copy just read from the API server otherwise. *)
Definition handled_pod (current : Pod) (t : jtrace) (pod : Pod) : Prop :=
  (getPodStatus (Some current) <> podError /\ getPodStatus (Some current) <> podDeleted_ /\
   pod = current) \/
  ((getPodStatus (Some current) = podError \/ getPodStatus (Some current) = podDeleted_) /\
   ev (S := jfs) (GetPod Caller (pod_name current) (pod_namespace current)) (Ok pod) ∈ t).

(** What [Run] may write after a history. *)
Definition run_writes (mit : mountInfoTable) (current : Pod) (t : jtrace) (c : jfs_cmd) : Prop :=
  match c with
  | CreatePod _ => exists pod, handled_pod current t pod /\ handler_writes pod t c
  | DeletePod p => p = current \/ exists pod, handled_pod current t pod /\ handler_writes pod t c
  | PatchPod p _ => p = current \/ exists pod, handled_pod current t pod /\ p = pod
  | _ => True
  end.

Lemma checkAnnotations_run_writes `{Globals} mit current t :
  issues (S := jfs) (run_writes mit current) (checkAnnotations mit current) t.
Proof.
  apply issues_locked; [done..|]. intros u. apply issues_bind; [by split|].
  intros t' kvs _. apply issues_bind.
  { unfold drop_dead_refs. destruct (if _ : bool then _ else _); [done|].
    split; [done|]. intros [newPod|e]; prog_simpl; [|done].
    case_bool_decide; [done|]. split; [by left|done]. }
  intros t'' [e|] _; [done|]. destruct (_ && _); [|done]. apply issues_bind.
  - unfold ShouldDelay, GetTimeAfterDelay, AddPodAnnotation.
    destruct (pod_annotations current !! DeleteDelayTimeKey) as [d|]; [|done].
    destruct (pod_annotations current !! DeleteDelayAtKey) as [d'|].
    + destruct (GetTime d'); [|done]. by split.
    + destruct (ParseDuration d); [|done]. split; [done|]. intros now. prog_simpl.
      split; [by left|]. by intros [e|].
  - intros t3 [[] [e|]] _; try done. unfold delete_unreferenced.
    split; [done|]. intros [newPod|e]; prog_simpl; [|done].
    case_bool_decide; [done|]. split; [by left|]. intros [e|]; [done|]. by split.
Qed.

Section run.
Context `{Globals} `{QuantityParser} `{MountJobs}.

Lemma handle_run_writes fuel mit mit' current st pod t :
  (forall t', handled_pod current (t ++ t') pod) ->
  issues (S := jfs) (run_writes mit current) (handle fuel mit' st (Some pod)) t.
Proof.
  intros Hp. eapply (issues_weaken (S := jfs)); [|apply handle_writes].
  intros t' c Hw. specialize (Hp t'). destruct c; simpl; eauto.
Qed.

(** C8: [Run] never creates a duplicate of a mount pod, and every pod it
    creates is the successor of one.  Whatever the environment answers: a pod
    is created only after a lookup of its name found nothing; it has the
    metadata (name, namespace, labels, references and other annotations) of
    the pod handled, with the finalizer; and either that pod failed for lack
    of resources, and the successor asks for none, or it was deleted with
    references left and the finalizer on it.  [Run] deletes and patches only
    the pod it was called for, and handles a failed or deleted pod only as
    the API server just showed it. *)
Theorem Run_writes fuel mit current t o :
  runs (Run fuel mit current) t o ->
  forall t1 e t2, t = t1 ++ e :: t2 -> run_writes mit current t1 (projT1 e).
Proof.
  intros Hr. apply (issues_runs (S := jfs) (run_writes mit current) _ [] _ _) with (2 := Hr).
  apply issues_bind; [apply checkAnnotations_run_writes|].
  intros t0 [e|] _; [done|].
  destruct (_ && _) eqn:Es.
  - rewrite andb_true_iff, !negb_true_iff, !bool_decide_eq_false in Es.
    apply handle_run_writes. intros t'. left. tauto.
  - rewrite andb_false_iff, !negb_false_iff, !bool_decide_eq_true in Es.
    split; [done|]. intros [pod|e]; prog_simpl; [|done].
    apply handle_run_writes. intros t'. right. split; [tauto|set_solver].
Qed.

Lemma redeploy_lock_free fuel pod : lock_free (redeploy_without_resources fuel pod).
Proof. unfold redeploy_without_resources, RemoveFinalizer, wait_deleted_step. solve_avoids. Qed.

Lemma podErrorHandler_lock_safe fuel pod : lock_safe (podErrorHandler fuel pod).
Proof.
  destruct pod as [pod|]; [|by apply lock_free_safe]. apply locked_safe.
  pose proof redeploy_lock_free. solve_avoids; auto.
Qed.

Lemma podDeletedHandler_lock_safe fuel mit pod : lock_safe (podDeletedHandler fuel mit pod).
Proof.
  destruct pod as [pod|]; [|by apply lock_free_safe]. unfold podDeletedHandler.
  destruct (negb _); [by apply lock_free_safe|].
  apply lock_safe_bind; [by apply lock_free_safe|]. intros [e|]; [by apply lock_free_safe|].
  apply lock_safe_bind.
  { apply lock_free_safe. unfold go. solve_avoids. by apply checkMountPodStuck_avoids. }
  intros []. destruct (IsPodResourceError pod); [by apply lock_free_safe|].
  destruct (GetMountPathOfPod pod) as [[src vol]|]; [|by apply lock_free_safe].
  destruct (Annotations (p_meta pod)); [|by apply lock_free_safe]. case_bool_decide.
  - apply lock_free_safe. unfold UmountPath, go. pose proof CleanUpCache_lock_free.
    solve_avoids; auto. by apply DoWithTimeoutE_avoids.
  - apply locked_safe. unfold deleted_step, recreate_mount_pod, UmountPath, ReplacePodAnnotation.
    solve_avoids; first [by apply Overwirte_avoids|apply DoWithTimeoutE_avoids; solve_avoids].
Qed.

(** C9: the lock discipline.  In every run of [Run] the mutexes of the pods
    are used correctly: none is locked twice by the goroutine (the handlers
    lock the pod that the garbage collector before them locked), none is
    unlocked without being held, and all are released at the end, also when
    the code panics. *)
Theorem Run_lock_safe fuel mit current : lock_safe (Run fuel mit current).
Proof.
  assert (forall mit st pod, lock_safe (handle fuel mit st (Some pod))) as Hh.
  { intros m st pod. destruct st; cbn [handle].
    - apply lock_free_safe. auto with avoids.
    - apply podErrorHandler_lock_safe.
    - apply podDeletedHandler_lock_safe.
    - apply podErrorHandler_lock_safe. }
  unfold Run. apply lock_safe_bind.
  - apply locked_safe. unfold delete_unreferenced.
    solve_avoids; first [by apply drop_dead_refs_avoids|by apply ShouldDelay_avoids].
  - intros [e|]; [by apply lock_free_safe|]. destruct (_ && _); [done|].
    apply lock_safe_bind; [by apply lock_free_safe|]. intros [pod|e]; [done|by apply lock_free_safe].
Qed.
End run.

(** ** Termination *)

Lemma umount_times_needs n tgt k : jneeds n (umount_times tgt k).
Proof. induction k as [|k IH]; simpl; [apply needs_ret|]. by apply needs_vis. Qed.

Lemma resolveTarget_needs n mit tgt : jneeds n (resolveTarget mit tgt).
Proof. unfold resolveTarget, resolveTargetItem, check_item. solve_needs. Qed.
#[export] Hint Resolve umount_times_needs resolveTarget_needs : needs.

Lemma recoverTarget_needs n src ti mi : jneeds n (recoverTarget src ti mi).
Proof.
  unfold recoverTarget, umountTarget, umountTargetUntilRemain, parse, UmountPath. solve_needs.
Qed.
#[export] Hint Resolve recoverTarget_needs : needs.

Lemma recover_needs n mit pod mnt : jneeds n (recover mit pod mnt).
Proof. unfold recover, recover_one. solve_needs. Qed.

Lemma DoWithTimeout_needs n {A} ctx d (f : M (res A)) : jneeds n f -> jneeds n (DoWithTimeout ctx d f).
Proof. intros Hf. unfold DoWithTimeout. solve_needs; auto. Qed.
Lemma DoWithTimeoutE_needs n ctx d f : jneeds n f -> jneeds n (DoWithTimeoutE ctx d f).
Proof. intros Hf. unfold DoWithTimeoutE. solve_needs; auto. Qed.
#[export] Hint Resolve recover_needs : needs.

Lemma wait_mount_needs fuel p d : jneeds fuel (WaitUtilMountReady fuel p d).
Proof.
  apply needs_wait_loop; [done|..].
  - unfold wait_mount_step, round_polls, DoWithTimeout, go. prog_simpl.
    intros [e|]; prog_simpl.
    + intros []; prog_simpl; [by intros [fi|e2]; prog_simpl|done].
    + intros [fi|[]]; prog_simpl; try done.
      destruct (fi_stat fi) as [[[|[]|] dev]|]; prog_simpl; done.
  - unfold wait_mount_step. apply needs_bind; [apply DoWithTimeout_needs|]; solve_needs.
Qed.

Lemma redeploy_needs fuel pod : jneeds fuel (redeploy_without_resources fuel pod).
Proof.
  unfold redeploy_without_resources, RemoveFinalizer. solve_needs.
  apply needs_wait_loop; [done|..]; unfold wait_deleted_step; [|solve_needs].
  unfold round_polls. prog_simpl. intros [p|e]; prog_simpl; [done|].
  destruct (IsNotFound e), (IsTimeout e); prog_simpl; try done. intros [c|]; poll_leaf.
Qed.

Section termination.
Context `{Globals} `{QuantityParser} `{MountJobs}.

Lemma CleanUpCache_needs fuel pod : jneeds fuel (CleanUpCache fuel pod).
Proof.
  unfold CleanUpCache. pose proof CleanCache_needs. solve_needs; auto.
  apply needs_wait_loop; [done|..]; unfold wait_gone_step; [|solve_needs].
  unfold round_polls. prog_simpl. intros [p|e]; prog_simpl; [done|].
  destruct (IsNotFound e), (IsTimeout e); poll_leaf.
Qed.

Lemma doAbortFuse_needs fuel pod dev : jneeds fuel (doAbortFuse fuel pod dev).
Proof.
  unfold doAbortFuse, NewFuseAbortJob. solve_needs.
  apply needs_wait_loop; [done|..]; unfold wait_abort_step; [|solve_needs].
  unfold round_polls. prog_simpl. intros [c|]; prog_simpl; [done|].
  intros [j|e]; prog_simpl; [destruct (IsJobCompleted j)|destruct (IsNotFound e)]; poll_leaf.
Qed.

Lemma checkMountPodStuck_needs fuel pod : jneeds fuel (checkMountPodStuck fuel pod).
Proof.
  unfold checkMountPodStuck. pose proof doAbortFuse_needs. solve_needs.
  apply needs_wait_loop; [done|..]; unfold stuck_step; [|solve_needs; done].
  unfold round_polls. prog_simpl. intros [c|]; prog_simpl.
  - intros [m|]; prog_simpl; [|done]. apply wp_bind, wp_runs. intros t [a|s] _; by simpl.
  - intros [p'|e]; prog_simpl; [|done]. case_bool_decide; poll_leaf.
Qed.

Lemma recreate_needs fuel mit pod src : jneeds fuel (recreate_mount_pod fuel mit pod src).
Proof.
  unfold recreate_mount_pod, UmountPath, OverwirteMountPodResourcesWithPVC.
  pose proof wait_mount_needs. solve_needs; auto. apply DoWithTimeoutE_needs; solve_needs.
Qed.

Lemma podDeletedHandler_needs fuel mit pod : jneeds fuel (podDeletedHandler fuel mit pod).
Proof.
  unfold podDeletedHandler, RemoveFinalizer, UmountPath.
  pose proof CleanUpCache_needs. pose proof checkMountPodStuck_needs.
  pose proof recreate_needs. solve_needs; auto.
  { apply DoWithTimeoutE_needs, needs_sys. }
  apply needs_wait_loop; [done|..]; unfold deleted_step, ReplacePodAnnotation; [|solve_needs; auto].
  unfold round_polls. prog_simpl. intros [po|e]; prog_simpl; [destruct (is_deleted po); poll_leaf|].
  destruct (IsTimeout e), (IsNotFound e); prog_simpl; try poll_leaf.
  apply wp_bind, wp_runs. intros ? [?|?] _; by simpl.
Qed.

(** C10: every wait of [Run] is bounded by the environment.  A run exhausts
    the bound [fuel] of a loop only if it was told at least [fuel] times to
    go on waiting (the pod still there, the mount point not ready, ...); with
    more fuel than the environment has such answers, [Run] always returns or
    panics. *)
Theorem Run_terminates fuel mit current t :
  runs (Run fuel mit current) t (Halted NoFuel) -> (fuel <= jpolls t)%nat.
Proof.
  enough (jneeds fuel (Run fuel mit current)) as Hn by apply Hn.
  assert (forall mit st pod, jneeds fuel (handle fuel mit st (Some pod))) as Hh.
  { intros m st pod. destruct st; cbn [handle].
    - unfold podReadyHandler. solve_needs. apply DoWithTimeout_needs. solve_needs.
    - unfold podErrorHandler. pose proof redeploy_needs. solve_needs; auto.
    - apply podDeletedHandler_needs.
    - unfold podPendingHandler. pose proof redeploy_needs. solve_needs; auto. }
  unfold Run, checkAnnotations, drop_dead_refs, DelPodAnnotation, ShouldDelay,
    GetTimeAfterDelay, AddPodAnnotation, delete_unreferenced. solve_needs; auto.
Qed.
End termination.

(** ** The handlers, one by one *)

(** Redeploying without resources settles.  On a pod with the spec that
    the redeployment gives its successor, whatever its status and metadata,
    the error handler only takes and releases the lock: the pod is not deleted
    and recreated again and again. *)
Theorem podErrorHandler_settles fuel pod meta st t o :
  runs (podErrorHandler fuel (Some {| p_meta := meta;
                                      p_spec := p_spec (DeleteResourceOfPod (recreated_pod pod));
                                      p_status := st |})) t o ->
  o = Done None /\
  t = [ev (S := jfs) (Lock (GetPodLock (Name meta))) tt; ev (S := jfs) (Unlock (GetPodLock (Name meta))) tt].
Proof.
  intros (t' & Hr & ->)%runs_locked. unfold IsPodHasResource in Hr. cbn [p_spec] in Hr.
  fold (IsPodHasResource (DeleteResourceOfPod (recreated_pod pod))) in Hr.
  rewrite DeleteResourceOfPod_no_resource, andb_false_r in Hr. destruct Hr as [-> ->]. done.
Qed.

(** The patch that takes the finalizer off a deleted pod. *)
Definition finalizer_patch (pod : Pod) : jfs_cmd :=
  PatchPod pod (JSONPatch [ReplaceList "/metadata/finalizers"
                             (filter (fun x => x <> Finalizer) (Finalizers (p_meta pod)))]).

(** A deleted pod is handled once.  Without the finalizer nothing is
    done.  With it, the first call takes exactly the finalizer off, keeping the
    others, and if that fails nothing else happens: the pod is recreated and
    its caches are cleaned only by the run whose patch was accepted. *)
Theorem podDeletedHandler_once `{Globals} `{QuantityParser} `{MountJobs} fuel mit pod t o :
  runs (podDeletedHandler fuel mit (Some pod)) t o ->
  (~ (Finalizer ∈ Finalizers (p_meta pod)) /\ t = [] /\ o = Done None) \/
  (Finalizer ∈ Finalizers (p_meta pod) /\
   exists r t', t = (ev (S := jfs) (finalizer_patch pod) r) :: t' /\
     (r <> None -> t' = [] /\ o = Done r)).
Proof.
  unfold podDeletedHandler. destruct (ContainsString _ _) eqn:Ef; cbn [negb].
  - apply ContainsString_spec in Ef. intros (r & t' & -> & Hr). right. split; [done|].
    exists r, t'. split; [done|]. destruct r as [e|]; [|done]. by destruct Hr.
  - intros [-> ->]. left. split_and!; [|done..].
    intros Hin%ContainsString_spec. congruence.
Qed.

Definition is_lazy_umount (c : jfs_cmd) : bool :=
  match c with LazyUmount _ => true | _ => false end.
Definition is_mount (c : jfs_cmd) : bool := match c with Mount _ _ _ _ => true | _ => false end.
Definition is_unmount (c : jfs_cmd) : bool := match c with Unmount _ => true | _ => false end.

(** The bounded umount of a corrupt target never iterates.  It succeeds
    only without having unmounted anything, because the target has fewer mounts
    than the limit; once it unmounts, it unmounts exactly once, then waits for
    its two-minute deadline and fails, however few mounts are left. *)
Theorem umountTargetUntilRemain_runs basemi tgt n t o :
  runs (umountTargetUntilRemain basemi tgt n) t o ->
  no_cmd is_lazy_umount t \/
  (exists e t0 r c, o = Done (Some e) /\ no_cmd is_lazy_umount t0 /\
     t = t0 ++ [ev (S := jfs) (LazyUmount tgt) r;
                ev (S := jfs) (CtxDone (WithTimeout Caller (2 * Minute))) c]).
Proof.
  intros Hr. pattern t, o. eapply wp_elim; [exact Hr|]. clear t o Hr.
  unfold umountTargetUntilRemain, parse. prog_simpl. intros r. apply wp_bind.
  apply (wp_mono _ (fun t o => no_cmd is_lazy_umount t /\ exists v, o = Done v)); [destruct r; prog_simpl; eauto|].
  intros t0 ? [H0 [[mit [e|]] ->]]; prog_simpl; [by left|].
  apply wp_bind. eapply wp_mono; [apply (wp_avoids (S := jfs) is_lazy_umount), resolveTarget_avoids; done|].
  intros t' [mi|s] (t1 & -> & H1); prog_simpl.
  - assert (no_cmd is_lazy_umount (t0 ++ t1)) as H2 by by apply no_cmd_app.
    destruct mi as [mi|]; prog_simpl; [|by left].
    destruct (_ <? _); prog_simpl; [by left|]. intros r1 c. right.
    eexists _, (t0 ++ t1), r1, c. by rewrite <-(app_assoc (t0 ++ t1)).
  - left. by apply no_cmd_app.
Qed.

(** What recovery may do to a target after a history. *)
Definition recovers (src : string) (ti : targetItem) (mi : mountItem) (t : jtrace) (c : jfs_cmd) : Prop :=
  match c with
  | Mount s d fs opts =>
      status ti = targetStatusCorrupt /\ inconsistent ti = false /\ podDeleted mi = false /\
      d = target ti /\ fs = "none" /\ opts = ["bind"] /\ no_cmd is_lazy_umount t /\
      (subpath ti = "" /\ s = src \/
       subpath ti <> "" /\ s = src +:+ "/" +:+ subpath ti /\
       exists t0 fi, t = t0 ++ [ev (S := jfs) (Stat s) (Ok fi)])
  | Unmount d =>
      status ti = targetStatusNotExist /\ podDeleted mi = true /\ d = target ti /\
      (length t < Z.to_nat (count ti))%nat
  | LazyUmount d =>
      status ti = targetStatusCorrupt /\ inconsistent ti = false /\ podDeleted mi = false /\
      d = target ti
  | _ => True
  end.

Lemma umount_times_recovers src ti mi n t :
  status ti = targetStatusNotExist -> podDeleted mi = true ->
  (length t + n <= Z.to_nat (count ti))%nat ->
  issues (S := jfs) (recovers src ti mi) (umount_times (target ti) n) t.
Proof.
  intros Hs Hd. revert t. induction n as [|n IH]; intros t Hn; simpl; [done|].
  split; [split_and!; [done..|lia]|]. intros a. apply IH. rewrite length_app. simpl. lia.
Qed.

Lemma no_cmd_snoc P t e : no_cmd P t -> P (projT1 e) = false -> no_cmd P (t ++ [e]).
Proof. intros Ht He. apply no_cmd_app. split; [done|]. unfold never. cbn [existsb]. by rewrite He. Qed.

Lemma umountTargetUntilRemain_recovers src ti mi t :
  status ti = targetStatusCorrupt -> inconsistent ti = false -> podDeleted mi = false ->
  issues (S := jfs) (recovers src ti mi)
    (umountTargetUntilRemain mi (target ti) defaultTargetMountCounts) t.
Proof.
  intros Hs Hi Hp. unfold umountTargetUntilRemain, parse. apply issues_bind.
  { split; [done|]. by intros [l|e]. }
  intros t1 [mit [e|]] _; [done|]. apply issues_bind.
  { apply (issues_avoids (S := jfs) _ (fun c => is_mount c || is_unmount c || is_lazy_umount c)).
    - by intros ? [].
    - by apply resolveTarget_avoids. }
  intros t2 [mi'|] _; [|done]. destruct (_ <? _); [done|]. by split.
Qed.

(** Success means that nothing was unmounted. *)
Lemma umountTargetUntilRemain_ok basemi tgt n t :
  runs (umountTargetUntilRemain basemi tgt n) t (Done None) -> no_cmd is_lazy_umount t.
Proof.
  intros Hr. set (Q (t : jtrace) (o : outcome (option error)) :=
    match o with Done None => no_cmd is_lazy_umount t | _ => True end).
  change (Q t (Done None)). apply (wp_elim _ _ _ _ Hr). clear Hr.
  unfold umountTargetUntilRemain, parse. prog_simpl.
  intros [l|e]; prog_simpl; [|done]. apply wp_bind. eapply wp_mono.
  { apply (wp_avoids (S := jfs) is_lazy_umount), resolveTarget_avoids; done. }
  intros t' [[mi|]|s] (t1 & -> & H1); prog_simpl; [|done|]; [|by destruct s].
  by destruct (_ <? _).
Qed.


(** The stuck watch waits a minute.  For every grace period of a pod
    that fits 30 thousand million seconds, the deadline of the watch is one
    minute: the doubled grace period is taken as nanoseconds. *)
Theorem stuck_timeout_minute pod :
  match TerminationGracePeriodSeconds (p_spec pod) with
  | Some secs => 0 <= secs <= 30000000000
  | None => True
  end -> stuck_timeout pod = Minute.
Proof.
  unfold stuck_timeout, wrap64, Minute, Second, Millisecond, Microsecond.
  destruct (TerminationGracePeriodSeconds _) as [secs|]; [|done]. intros Hs.
  rewrite Z.mod_small by lia. destruct (Z.ltb_spec (60 * (1000 * (1000 * 1000))) (secs * 2 + 2 ^ 63 - 2 ^ 63)); lia.
Qed.
