(* ===== verification/PodMountFacts.v ===== *)
(** * Properties of the pod mount

    References are added and removed safely, mount pods are created only when
    there is none, the clean-cache job satisfies the interface the pod driver
    relies on, and every wait is bounded by the environment. *)
From S2P Require Import Prelude.
From S2P Require Import GoStrings.
From S2P Require Import Hash.
From S2P Require Import K8s.
From S2P Require Import GoTime.
From S2P Require Import Prog.
From S2P Require Import Effects.
From S2P Require Import Config.
From S2P Require Import Util.
From S2P Require Import PodUtil.
From S2P Require Import Setting.
From S2P Require Import JfsSetting.
From S2P Require Import Builder.
From S2P Require Import PodMount.
From S2P Require Import MountTable.
From S2P Require Import PodDriver.
From S2P Require Import PodDriverFacts.
#[local] Open Scope Z_scope.
#[local] Open Scope go_scope.

(** ** The pieces: what they avoid, what they wait for *)

(** Commands that neither lock nor write a pod. *)
Definition lock_or_pod (c : jfs_cmd) : bool :=
  match c with Lock _ | Unlock _ | CreatePod _ | DeletePod _ | PatchPod _ _ => true | _ => false end.
Abbreviation quiet := (avoids (S := jfs) lock_or_pod).

Lemma quiet_lock_free {A} (p : M A) : quiet p -> lock_free p.
Proof. apply avoids_weaken. by intros []. Qed.

Lemma RandStringRunes_avoids P n : (forall k, P (RandIntn k) = false) -> avoids (S := jfs) P (RandStringRunes n).
Proof. intros HP. induction n as [|n IH]; cbn [RandStringRunes]; solve_avoids; auto. Qed.
Lemma RandStringRunes_needs k n : jneeds k (RandStringRunes n).
Proof. induction n as [|n IH]; cbn [RandStringRunes]; solve_needs; auto. Qed.
#[export] Hint Resolve RandStringRunes_needs : needs.

Section facts.
Context `{Globals} `{Retry} `{QuantityParser} `{SettingCodec}.

Lemma waitUtilJobCompleted_quiet fuel n : quiet (waitUtilJobCompleted fuel n).
Proof.
  unfold waitUtilJobCompleted, job_step, IsJobShouldBeRecycled, getNotCompleteCnLog, first_log.
  solve_avoids.
Qed.

Lemma waitUtilJobCompleted_needs fuel n : jneeds fuel (waitUtilJobCompleted fuel n).
Proof.
  unfold waitUtilJobCompleted, getNotCompleteCnLog, first_log. solve_needs.
  apply needs_wait_loop; [done|..]; unfold job_step, IsJobShouldBeRecycled; [|solve_needs].
  unfold round_polls. prog_simpl. intros [j|e]; prog_simpl.
  - destruct (IsJobCompleted j); cbn [negb andb]; [|poll_leaf]. prog_simpl.
    destruct (TTLSecondsAfterFinished j); [destruct (CompletionTime j)|]; prog_simpl; try done.
    intros now. destruct (_ <? _); prog_simpl; done.
  - destruct (IsNotFound e); prog_simpl; [done|]. by intros [c|].
Qed.

Lemma get_or_create_job_quiet job : quiet (get_or_create_job job).
Proof. unfold get_or_create_job. solve_avoids. Qed.

Lemma createOrUpdateSecret_quiet secret : quiet (createOrUpdateSecret secret).
Proof. apply RetryOnConflict_avoids; [done|]. unfold secret_attempt. solve_avoids. Qed.
Lemma createOrUpdateSecret_needs n secret : jneeds n (createOrUpdateSecret secret).
Proof. apply RetryOnConflict_needs. unfold secret_attempt. solve_needs. Qed.

Lemma CleanCache_quiet fuel i u v d : quiet (PodMount_CleanCache fuel i u v d).
Proof.
  unfold PodMount_CleanCache, NewJobForCleanCache. pose proof waitUtilJobCompleted_quiet.
  pose proof get_or_create_job_quiet. pose proof (RandStringRunes_avoids lock_or_pod).
  solve_avoids; auto.
Qed.

Lemma PodMount_CleanCache_needs fuel i u v d : jneeds fuel (PodMount_CleanCache fuel i u v d).
Proof.
  unfold PodMount_CleanCache, NewJobForCleanCache, get_or_create_job.
  pose proof waitUtilJobCompleted_needs. solve_needs; auto.
Qed.

(** The clean-cache operation of the pod mount keeps the promises on which the
    pod driver's theorems rest. *)
#[export, refine] Instance PodMount_jobs : MountJobs := {| CleanCache := PodMount_CleanCache |}.
Proof.
  - intros. apply quiet_lock_free, CleanCache_quiet.
  - intros. eapply (avoids_weaken (S := jfs)); [|apply CleanCache_quiet]. by intros [].
  - apply PodMount_CleanCache_needs.
Defined.

Lemma NewMountPod_quiet s n : quiet (NewMountPod s n).
Proof. unfold NewMountPod, genCommonJuicePod. solve_avoids. Qed.
Lemma NewMountPod_needs k s n : jneeds k (NewMountPod s n).
Proof. unfold NewMountPod, genCommonJuicePod. solve_needs. Qed.
#[local] Hint Resolve NewMountPod_needs createOrUpdateSecret_needs : needs.

(** ** Waiting and locking of [JMount] *)

Lemma WaitUtilMountReady_lock_free fuel p d : lock_free (WaitUtilMountReady fuel p d).
Proof. unfold WaitUtilMountReady, wait_mount_step, DoWithTimeout, go. solve_avoids. Qed.

Lemma create_or_add_lock_free fuel podName hashVal key s secret app :
  lock_free (loop fuel (create_or_add_step podName hashVal key s secret app) tt).
Proof.
  unfold create_or_add_step, create_mount_pod, select_node, AddRefOfMount.
  assert (forall secret, lock_free (createOrUpdateSecret secret)) by
    (intros; apply quiet_lock_free, createOrUpdateSecret_quiet).
  assert (forall s n, lock_free (NewMountPod s n)) by (intros; apply quiet_lock_free, NewMountPod_quiet).
  solve_avoids; auto. apply RetryOnConflict_avoids; [done|].
  unfold add_ref_attempt, ReplacePodAnnotation. solve_avoids.
Qed.

Lemma JMount_lock_safe_aux fuel app s : lock_safe (JMount fuel app s).
Proof.
  unfold JMount. apply lock_safe_bind.
  { apply lock_free_safe. unfold genMountPodName, GenPodNameByUniqueId.
    pose proof (RandStringRunes_avoids is_lock_cmd). solve_avoids; auto. }
  intros [n|e]; [|by apply lock_free_safe]. apply lock_safe_bind.
  { apply lock_free_safe. unfold label_app, setMountLabel, AddPodLabel. solve_avoids. }
  intros [e|]; [by apply lock_free_safe|]. apply lock_safe_bind.
  { unfold createOrAddRef. destruct (placed_setting s n) as [s'|]; [|by apply lock_free_safe].
    apply lock_safe_bind; [|intros; by apply lock_free_safe].
    apply locked_safe, create_or_add_lock_free. }
  intros [s' [e|]]; [by apply lock_free_safe|]. apply lock_free_safe.
  unfold waitUtilMountReady, set_uuid, setUUIDAnnotation, AddPodAnnotation, PodMount_GetJfsVolUUID,
    getErrContainerLog, first_log, panic.
  pose proof WaitUtilMountReady_lock_free. solve_avoids; auto.
Qed.
End facts.

(** ** References *)

Definition seen_pod (name ns : string) (pod : Pod) : event jfs :=
  ev (S := jfs) (GetPod Caller name ns) (Ok pod).

(** The annotations of a pod with one more reference. *)
Definition with_ref (target : string) (m : smap) : smap :=
  delete DeleteDelayAtKey (<[ GetReferenceKey target := target ]> m).

Lemma ref_key_not_delay target : GetReferenceKey target <> DeleteDelayAtKey.
Proof. intros E. apply (f_equal String.length) in E. by rewrite GetReferenceKey_length in E. Qed.

(** The new annotations hold the reference, keep all others, and no longer the
    deadline of a delayed deletion. *)
Lemma with_ref_spec target m k :
  with_ref target m !! k =
  if decide (k = DeleteDelayAtKey) then None
  else if decide (k = GetReferenceKey target) then Some target else m !! k.
Proof.
  unfold with_ref. destruct (decide (k = DeleteDelayAtKey)) as [->|Hk].
  - by rewrite lookup_delete_eq.
  - rewrite lookup_delete_ne by done. destruct (decide (k = GetReferenceKey target)) as [->|Hn].
    + by rewrite lookup_insert_eq.
    + by rewrite lookup_insert_ne.
Qed.

(** What adding a reference may write after a history. *)
Definition add_ref_writes `{Globals} (target podName : string) (t : jtrace) (c : jfs_cmd) : Prop :=
  match c with
  | PatchPod p d =>
      d = JSONPatch [ReplaceMap "/metadata/annotations" (Some (with_ref target (pod_annotations p)))] /\
      is_deleted p = false /\ pod_annotations p !! GetReferenceKey target = None /\
      exists t0, t = t0 ++ [seen_pod podName g_Namespace p]
  | CreatePod _ | DeletePod _ => False
  | _ => True
  end.

(** The last thing a run did shows the reference on a pod that is not being
    deleted: it was there, or the patch that adds it was accepted. *)
Definition ref_shown `{Globals} (target podName : string) (t : jtrace) : Prop :=
  exists t0 pod, is_deleted pod = false /\
    (t = t0 ++ [seen_pod podName g_Namespace pod] /\
     is_Some (pod_annotations pod !! GetReferenceKey target) \/
     exists d, t = t0 ++ [seen_pod podName g_Namespace pod; ev (S := jfs) (PatchPod pod d) None] /\
       d = JSONPatch [ReplaceMap "/metadata/annotations" (Some (with_ref target (pod_annotations pod)))]).

Lemma is_deleted_spec pod : is_deleted pod = bool_decide (is_Some (DeletionTimestamp (p_meta pod))).
Proof. unfold is_deleted. by destruct (DeletionTimestamp (p_meta pod)). Qed.

Section references.
Context `{Globals} `{Retry}.

Lemma add_ref_attempt_issues target podName t :
  issues (S := jfs) (add_ref_writes target podName) (add_ref_attempt target podName) t.
Proof.
  split; [done|]. intros [p|e]; prog_simpl; [|done].
  rewrite <-is_deleted_spec. destruct (is_deleted p) eqn:Ed; [done|].
  destruct (pod_annotations p !! GetReferenceKey target) eqn:Ea; [done|].
  split; [|done]. split_and!; [done..|]. by exists t.
Qed.

Lemma add_ref_attempt_ok target podName t :
  runs (add_ref_attempt target podName) t (Done None) -> ref_shown target podName t.
Proof.
  intros ([p|e] & t' & -> & Hr); [|by destruct Hr]. prog_simpl_in Hr.
  rewrite <-is_deleted_spec in Hr. destruct (is_deleted p) eqn:Ed; [by destruct Hr|].
  destruct (pod_annotations p !! GetReferenceKey target) eqn:Ea.
  - destruct Hr as [-> _]. exists [], p. split; [done|]. left. split; [done|]. rewrite Ea. eauto.
  - destruct Hr as (r & t'' & -> & -> & [= <-]). exists [], p. split; [done|]. right. by eexists.
Qed.

(** The success of a retried operation is the success of its last attempt. *)
Lemma retried_ok f t : retried f t (Done None) -> exists t0 t1, t = t0 ++ t1 /\ runs f t1 (Done None).
Proof.
  intros Hr. remember (Done None) as o eqn:Ho. induction Hr as [t o Hr|t1 e d u t2 o H1 He Hr IH]; subst.
  - by exists [], t.
  - destruct IH as (t0 & t3 & -> & Hf); [done|].
    exists (t1 ++ ev (S := jfs) (Sleep d) u :: t0), t3. by rewrite <- app_assoc.
Qed.

(** A reference, once added, is on a live mount pod.  In every run of
    [AddRefOfMount] each write is the replacement of the annotations of a pod
    that the call right before showed not to be deleted and without the
    reference, by the same annotations with the reference and without the
    deadline of a delayed deletion; and when the operation succeeds, its last
    calls show the reference on a pod that is not being deleted. *)
Theorem AddRefOfMount_adds target podName t o :
  runs (AddRefOfMount target podName) t o ->
  (forall t1 e t2, t = t1 ++ e :: t2 -> add_ref_writes target podName t1 (projT1 e)) /\
  (o = Done None -> ref_shown target podName t).
Proof.
  intros Hr. split.
  - apply (issues_runs (S := jfs) (add_ref_writes target podName) _ [] _ _) with (2 := Hr).
    apply RetryOnConflict_issues; [done|]. apply add_ref_attempt_issues.
  - intros ->. apply RetryOnConflict_retried, retried_ok in Hr as (t0 & t1 & -> & Hf).
    apply add_ref_attempt_ok in Hf as (t2 & pod & Hd & [[-> Ha]|(d & -> & Hp)]).
    + exists (t0 ++ t2), pod. split; [done|]. left. by rewrite app_assoc.
    + exists (t0 ++ t2), pod. split; [done|]. right. exists d. by rewrite app_assoc.
Qed.

(** What unmounting the last target may delete after a history. *)
Definition jumount_writes (podName : string) (t : jtrace) (c : jfs_cmd) : Prop :=
  match c with
  | DeletePod p =>
      GetAllRefKeys p = ∅ /\
      exists t0 t1, t = t0 ++ seen_pod podName g_Namespace p :: t1 /\
        Forall (fun e => projT1 e = Now) t1
  | CreatePod _ | Mount _ _ _ _ | LazyUmount _ | CleanupMountPoint _ => False
  | PatchPod p d => GetAllRefKeys p = ∅ /\ exists a, d = MergeAnnotations {[ DeleteDelayAtKey := a ]}
  | _ => True
  end.

Lemma JUmount_issues podName t : issues (S := jfs) (jumount_writes podName) (JUmount podName) t.
Proof.
  apply RetryOnConflict_issues; [done|]. clear t. intros t.
  split; [done|]. intros [p|e]; prog_simpl; [|by destruct (IsNotFound e)].
  destruct (Nat.eqb_spec (GetRef p) 0) as [Hz|]; cbn [negb]; [|done].
  apply map_size_empty_inv in Hz.
  set (t0 := t ++ _). unfold ShouldDelay, GetTimeAfterDelay, AddPodAnnotation.
  assert (forall t1, Forall (fun e : event jfs => projT1 e = Now) t1 ->
    issues (S := jfs) (jumount_writes podName)
      (sys (DeletePod p) ?;;
       (sys (DeleteSecret (pod_name p +:+ "-secret") (pod_namespace p)) ;;; Ret None)) (t0 ++ t1)) as Hdel.
  { intros t1 Ht1. split; [|intros [e|]; prog_simpl; by repeat split].
    split; [done|]. exists t, t1. split; [|done]. unfold t0. by rewrite <-app_assoc. }
  destruct (pod_annotations p !! DeleteDelayTimeKey) as [d|]; [destruct (pod_annotations p !! DeleteDelayAtKey) as [a|]|].
  - destruct (GetTime a); [|rewrite <-(app_nil_r t0); by apply Hdel].
    split; [done|]. intros now. prog_simpl. destruct (now <? a0); [done|].
    apply Hdel. by repeat constructor.
  - destruct (ParseDuration d); [|rewrite <-(app_nil_r t0); by apply Hdel].
    split; [done|]. intros now. prog_simpl. split; [by split; eauto|]. by intros [e|].
  - rewrite <-(app_nil_r t0). by apply Hdel.
Qed.

(** [JUmount] deletes only an unused mount pod.  Each deletion is of a
    pod that the API server showed without references, with nothing but a look
    at the clock in between; the only other write records the deadline of a
    delayed deletion on such a pod; nothing is mounted or unmounted. *)
Theorem JUmount_deletes_unreferenced podName t o :
  runs (JUmount podName) t o ->
  forall t1 e t2, t = t1 ++ e :: t2 -> jumount_writes podName t1 (projT1 e).
Proof.
  intros Hr. apply (issues_runs (S := jfs) (jumount_writes podName) _ [] _ _) with (2 := Hr).
  apply JUmount_issues.
Qed.
End references.

(** ** Creating the mount pod *)

(** The write that stored the secret, as the last event of a history. *)
Definition secret_stored (secret : Secret) (t : jtrace) : Prop :=
  exists t0,
    (exists r, t = t0 ++ [ev (S := jfs) (CreateSecret secret) (Ok r)]) \/
    (exists old, t = t0 ++ [ev (S := jfs) (UpdateSecret (with_StringData (StringData secret) old)) None]).

(** The label that the caches and lists select mount pods by: a label of the
    attributes wins over the driver's own. *)
Definition type_label `{Globals} `{QuantityParser} `{SettingCodec} (s : JfsSetting) : string :=
  default PodTypeValue (a_Labels (attr_of (regen_attr s)) !! PodTypeKey).

(** What [createOrAddRef] may do to pods after a history. *)
Definition create_writes `{Globals} `{QuantityParser} `{SettingCodec} (podName hashVal : string) (s : JfsSetting) (t : jtrace) (c : jfs_cmd) : Prop :=
  match c with
  | CreatePod p =>
      pod_name p = podName /\ Finalizers (p_meta p) = [Finalizer] /\
      pod_annotations p !! GetReferenceKey (TargetPath s) = Some (TargetPath s) /\
      pod_labels p !! PodJuiceHashLabelKey = Some hashVal /\
      pod_labels p !! PodTypeKey = Some (type_label s) /\
      (exists ctx e, ev (S := jfs) (GetPod ctx podName g_Namespace) (Err e) ∈ t /\ IsNotFound e = true) /\
      secret_stored (NewSecret s) t
  | _ => add_ref_writes (TargetPath s) podName t c
  end.

Section create.
Context `{Globals} `{Retry} `{QuantityParser} `{SettingCodec}.

Lemma NewMountPod_meta s n t pod s' :
  runs (NewMountPod s n) t (Done (pod, s')) ->
  pod_name pod = n /\ Finalizers (p_meta pod) = [Finalizer] /\ pod_labels pod !! PodTypeKey = Some (type_label s).
Proof.
  unfold NewMountPod. intros [(t1 & t2 & p & -> & Hg & Hr)|(e & _ & ?)]%runs_bind; [|done].
  destruct p as [p0 s0]. destruct Hr as [-> [= -> ->]]. split; [done|].
  unfold genCommonJuicePod in Hg. apply runs_range_map in Hg as (l & e & t' & _ & -> & _ & [-> [= -> ->]]).
  split; [done|]. cbn -[regen_attr]. unfold type_label. by rewrite lookup_union, lookup_insert_eq, union_Some_r.
Qed.

Lemma select_node_meta app pod t p :
  runs (select_node app pod) t (Done p) -> p_meta p = p_meta pod.
Proof.
  intros Hr. change (match Done p with Done p => p_meta p = p_meta pod | _ => True end).
  revert Hr. generalize (Done p). intros o Hr. pattern t, o. eapply wp_elim; [exact Hr|].
  unfold select_node. prog_simpl. intros [[|n [|]]|e]; prog_simpl; try done.
  destruct (negb _); prog_simpl; [done|]. destruct app as [a|]; prog_simpl; [|done].
  case_bool_decide; prog_simpl; [done|]. by intros [q|e].
Qed.

Lemma secret_attempt_ok secret t :
  runs (secret_attempt secret) t (Done None) -> secret_stored secret t.
Proof.
  intros ([old|e] & t' & -> & Hr); prog_simpl_in Hr.
  - destruct Hr as (r & t'' & -> & -> & [= <-]). eexists [_]. right. by eexists.
  - destruct (IsNotFound e); [|by destruct Hr].
    destruct Hr as ([s|e'] & t'' & -> & -> & [= ]). eexists [_]. left. by eexists.
Qed.

Lemma createOrUpdateSecret_ok secret t :
  runs (createOrUpdateSecret secret) t (Done None) -> secret_stored secret t.
Proof.
  intros (t0 & t1 & -> & Hf)%RetryOnConflict_retried%retried_ok.
  apply secret_attempt_ok in Hf as (t2 & [[r ->]|[old ->]]); exists (t0 ++ t2); [left|right];
    eexists; by rewrite app_assoc.
Qed.

Lemma secret_stored_app secret t t' : secret_stored secret t' -> secret_stored secret (t ++ t').
Proof.
  intros (t0 & [[r ->]|[old ->]]); exists (t ++ t0); [left|right]; eexists; by rewrite app_assoc.
Qed.

Lemma create_writes_quiet podName hashVal s {A} (p : M A) t :
  quiet p -> issues (S := jfs) (create_writes podName hashVal s) p t.
Proof. apply issues_avoids. by intros ? []. Qed.

Lemma create_mount_pod_writes podName hashVal s app t :
  (exists ctx e, ev (S := jfs) (GetPod ctx podName g_Namespace) (Err e) ∈ t /\ IsNotFound e = true) ->
  issues (S := jfs) (create_writes podName hashVal s)
    (create_mount_pod podName hashVal (GetReferenceKey (TargetPath s)) s (NewSecret s) app) t.
Proof.
  intros (ctx & e & Hin & He). unfold create_mount_pod.
  apply issues_bind; [by apply create_writes_quiet, NewMountPod_quiet|].
  intros t1 [pod s'] (Hn & Hf & Hl)%NewMountPod_meta. cbn [fst].
  apply issues_bind.
  { apply create_writes_quiet. unfold select_node. solve_avoids. }
  intros t2 p Hp. assert (p_meta p = first_ref (GetReferenceKey (TargetPath s)) (TargetPath s) hashVal (p_meta pod)) as Hm.
  { destruct g_EnableNodeSelector; [by apply select_node_meta in Hp|by destruct Hp as [-> [= ->]]]. }
  apply issues_bind; [apply create_writes_quiet, createOrUpdateSecret_quiet|].
  intros t3 [er|] Hs; [done|]. apply createOrUpdateSecret_ok in Hs.
  split; [|by intros [q|q]]. unfold create_writes, pod_name, pod_annotations, pod_labels. rewrite Hm. split_and!.
  - done.
  - done.
  - cbn. apply lookup_insert_eq.
  - cbn. apply lookup_insert_eq.
  - cbn. by rewrite lookup_insert_ne.
  - exists ctx, e. split; [|done]. rewrite !elem_of_app. auto.
  - by apply secret_stored_app.
Qed.

Lemma create_or_add_issues fuel podName hashVal s app t :
  issues (S := jfs) (create_writes podName hashVal s)
    (loop fuel (create_or_add_step podName hashVal (GetReferenceKey (TargetPath s)) s (NewSecret s) app) tt) t.
Proof.
  apply (issues_loop (S := jfs) _ (fun _ _ => True)); [done|]. intros [] t3 _. split; [|done].
  split; [done|]. intros [old|er]; prog_simpl.
  - case_bool_decide; [done|]. apply issues_bind; [|done].
    apply issues_bind; [apply create_writes_quiet, createOrUpdateSecret_quiet|].
    intros t4 [er|] _; [done|]. apply (issues_weaken (S := jfs) (add_ref_writes (TargetPath s) podName)).
    + by intros ? [].
    + apply RetryOnConflict_issues; [done|]. apply add_ref_attempt_issues.
  - destruct (IsNotFound er) eqn:En; [|by destruct (IsTimeout er)].
    apply issues_bind; [|done]. apply create_mount_pod_writes.
    eexists _, er. split; [|done]. apply elem_of_app. right. by left.
Qed.

Lemma createOrAddRef_issues fuel podName s s' app t :
  placed_setting s podName = Some s' ->
  issues (S := jfs) (create_writes podName (GenHashOfSetting s) s') (createOrAddRef fuel podName s app) t.
Proof.
  intros Hs. unfold createOrAddRef. rewrite Hs. apply issues_bind; [|done].
  apply issues_locked; [done..|]. intros u. apply create_or_add_issues.
Qed.

(** C15: mounting never duplicates a mount pod and never mounts without a
    reference.  Every pod [createOrAddRef] creates has the requested name, the
    finalizer, the hash of the setting, the label that mount pods are selected
    by and the reference of the target, right
    after its secret was stored, and only once a lookup of that name found
    nothing; an existing pod is only given the reference, as [AddRefOfMount]
    does; no pod is deleted. *)
Theorem createOrAddRef_creates fuel podName s s' app t o :
  placed_setting s podName = Some s' ->
  runs (createOrAddRef fuel podName s app) t o ->
  forall t1 e t2, t = t1 ++ e :: t2 -> create_writes podName (GenHashOfSetting s) s' t1 (projT1 e).
Proof.
  intros Hs Hr. apply (issues_runs (S := jfs) (create_writes podName (GenHashOfSetting s) s') _ [] _ _) with (2 := Hr).
  by apply createOrAddRef_issues.
Qed.
End create.

(** ** Unmounting a target *)

Definition not_mounted (out : string) : bool :=
  Contains out "not mounted" || Contains out "mountpoint not found" || Contains out "no mount point specified".

(** What [UmountTarget] may do after a history. *)
Definition umount_writes (target : string) (t : jtrace) (c : jfs_cmd) : Prop :=
  match c with
  | LazyUmount d => d = target
  | CleanupMountPoint d =>
      d = target /\ exists t0 out e, t = t0 ++ [ev (S := jfs) (LazyUmount target) (out, Some e)] /\
                                     not_mounted out = true
  | PatchPod p d =>
      d = JSONPatch [RemovePath (annotation_path (GetReferenceKey target))] /\
      ev (S := jfs) (CleanupMountPoint target) None ∈ t /\
      exists t0 po, t = t0 ++ [seen_pod (pod_name p) (pod_namespace p) po] /\
                    is_Some (pod_annotations po !! GetReferenceKey target)
  | CreatePod _ | DeletePod _ | Mount _ _ _ _ => False
  | _ => True
  end.

Section umount.
Context `{Globals} `{Retry}.

Lemma umount_loop_ok fuel target t :
  runs (loop fuel (umount_round target) tt) t (Done None) ->
  exists t0 out e, t = t0 ++ [ev (S := jfs) (LazyUmount target) (out, Some e)] /\ not_mounted out = true.
Proof.
  intros (t0 & t1 & [] & -> & [out [e|]] & t2 & -> & Hr)%loop_last; [|by destruct Hr as [_ [=]]].
  prog_simpl_in Hr. destruct (negb _ && negb _ && negb _) eqn:Em; [by destruct Hr as [_ [=]]|].
  destruct Hr as [-> _]. exists t0, out, e. split; [done|]. unfold not_mounted.
  by rewrite <- !negb_orb, negb_false_iff in Em.
Qed.

Lemma UmountTarget_issues fuel target podName t :
  issues (S := jfs) (umount_writes target) (UmountTarget fuel target podName) t.
Proof.
  apply issues_bind.
  { apply (issues_loop (S := jfs) _ (fun _ _ => True)); [done|]. intros [] t0 _. split; [|done].
    split; [done|]. intros [out [e|]]; prog_simpl; [|done]. by destruct (_ && _). }
  intros t0 [e|] Hl; [done|]. apply umount_loop_ok in Hl. split.
  { split; [done|]. destruct Hl as (t1 & out & e & -> & Hm); exists (t ++ t1), out, e. by rewrite <-app_assoc. }
  intros [e|]; prog_simpl; [done|]. case_bool_decide; [done|].
  split; [done|]. intros [pod|e]; prog_simpl; [|by destruct (IsNotFound e)].
  set (t1 := _ ++ _). assert (ev (S := jfs) (CleanupMountPoint target) None ∈ t1) as Hin.
  { unfold t1. rewrite !elem_of_app, !list_elem_of_singleton. auto. }
  clearbody t1. eapply (issues_weaken (S := jfs)
    (fun t c => ev (S := jfs) (CleanupMountPoint target) None ∈ t -> umount_writes target t c)).
  { intros t' c Hc. apply Hc. apply elem_of_app. by left. }
  apply RetryOnConflict_issues; [done|]. intros t2. split; [done|].
  intros [po|e]; prog_simpl; [|done].
  destruct (pod_annotations po !! GetReferenceKey target) eqn:Ea; [|done].
  split; [|done]. intros Hc. split_and!; [done|done|]. exists t2, po. split; [done|]. rewrite Ea. eauto.
Qed.

(** C16: a reference is dropped only once its target is unmounted.
    [UmountTarget] lazily unmounts the target until the system reports that
    it is not mounted, then cleans up the mount point, and only when that
    succeeded removes the reference of this target, which a look at the pod
    just showed to exist; it never creates, deletes or mounts anything. *)
Theorem UmountTarget_order fuel target podName t o :
  runs (UmountTarget fuel target podName) t o ->
  forall t1 e t2, t = t1 ++ e :: t2 -> umount_writes target t1 (projT1 e).
Proof.
  intros Hr. apply (issues_runs (S := jfs) (umount_writes target) _ [] _ _) with (2 := Hr).
  apply UmountTarget_issues.
Qed.
End umount.

(** [JMount] uses the pod locks correctly and its waits are bounded by
    the environment: no double lock, no stray unlock, everything released at
    the end of every run; and a run exhausts the bound of a loop only if it was
    told at least that often to go on waiting. *)
Theorem JMount_disciplined `{Globals} `{Retry} `{QuantityParser} `{SettingCodec} fuel app s :
  lock_safe (JMount fuel app s) /\ jneeds fuel (JMount fuel app s).
Proof.
  split; [apply JMount_lock_safe_aux|].
  assert (forall k s n, jneeds k (NewMountPod s n)) by apply @NewMountPod_needs.
  pose proof createOrUpdateSecret_needs. pose proof wait_mount_needs.
  assert (forall k t n, jneeds k (AddRefOfMount t n)).
  { intros. apply RetryOnConflict_needs. unfold add_ref_attempt, ReplacePodAnnotation. solve_needs. }
  unfold JMount, genMountPodName, GenPodNameByUniqueId, label_app, setMountLabel, AddPodLabel,
    createOrAddRef, waitUtilMountReady, set_uuid, setUUIDAnnotation, AddPodAnnotation,
    PodMount_GetJfsVolUUID, getErrContainerLog, first_log. solve_needs; auto.
  apply needs_wait_loop; [done|..]; unfold create_or_add_step, create_mount_pod, select_node;
    [|solve_needs; auto].
  unfold round_polls. prog_simpl. intros [old|e]; prog_simpl.
  - case_bool_decide; [poll_leaf|]. apply wp_bind, wp_runs. intros ? [?|?] _; by simpl.
  - destruct (IsNotFound e); [|destruct (IsTimeout e); done].
    apply wp_bind, wp_runs. intros ? [?|?] _; by simpl.
Qed.
