(* ===== verification/JuicefsFacts.v ===== *)
(** * Properties of the provider

    Unmounting is disciplined and deletes only unused mount pods; secrets do
    not reach the mount pod's command; targets, options, versions, quotas and
    bind mounts behave as stated. *)
From S2P Require Import Prelude.
From S2P Require Import GoStrings.
From S2P Require Import Decimal.
From S2P Require Import Hash.
From S2P Require Import K8s.
From S2P Require Import GoTime.
From S2P Require Import Prog.
From S2P Require Import Effects.
From S2P Require Import Config.
From S2P Require Import Util.
From S2P Require Import MountRefs.
From S2P Require Import PodUtil.
From S2P Require Import Setting.
From S2P Require Import JfsSetting.
From S2P Require Import Builder.
From S2P Require Import PodMount.
From S2P Require Import ProcessMount.
From S2P Require Import Juicefs.
From S2P Require Import PodMountFacts.
From Stdlib Require Import Ascii.
#[local] Open Scope Z_scope.
#[local] Open Scope go_scope.

(** ** Unmounting *)

(** What unmounting a volume from [target] may do after a history. *)
Definition unmount_writes `{Globals} (target : string) (t : jtrace) (c : jfs_cmd) : Prop :=
  match c with
  | DeletePod _ =>
      ev (S := jfs) (CleanupMountPoint target) None ∈ t /\
      exists podName, podName <> "" /\ jumount_writes podName t c
  | PatchPod _ _ => umount_writes target t c \/ exists podName, jumount_writes podName t c
  | _ => umount_writes target t c
  end.

Section unmount.
Context `{Globals} `{Retry} `{QuantityParser} `{SettingCodec}.

Lemma unmount_writes_quiet target {A} (p : M A) t :
  avoids (S := jfs) (fun c => match c with
                              | CreatePod _ | DeletePod _ | PatchPod _ _ | LazyUmount _
                              | CleanupMountPoint _ | Mount _ _ _ _ => true
                              | _ => false end) p ->
  issues (S := jfs) (unmount_writes target) p t.
Proof. apply issues_avoids. by intros t' []. Qed.

(** A successful unmount of the target shows that it was cleaned up. *)
Lemma UmountTarget_cleaned fuel target podName t :
  runs (UmountTarget fuel target podName) t (Done None) ->
  ev (S := jfs) (CleanupMountPoint target) None ∈ t.
Proof.
  intros [(t1 & t2 & [e|] & -> & Hl & Hr)|(s & _ & ?)]%runs_bind; [by destruct Hr| |done].
  destruct Hr as ([e|] & t' & -> & Hr); [by destruct Hr|].
  apply elem_of_app. right. by left.
Qed.

Lemma pod_unmount_issues fuel uniqueId target t :
  issues (S := jfs) (unmount_writes target) (pod_unmount fuel uniqueId target) t.
Proof.
  unfold pod_unmount. apply issues_bind.
  { apply unmount_writes_quiet. unfold mount_pods, GenPodNameByUniqueId. solve_avoids. }
  intros t1 [pods|e] _; [|done]. apply issues_locked; [done..|]. intros u.
  set (podName := pod_of_target target pods). apply issues_bind.
  { eapply (issues_weaken (S := jfs)); [|apply UmountTarget_issues]. intros t' []; try done. by left. }
  intros t2 [e|] Hu; [done|]. apply UmountTarget_cleaned in Hu.
  case_bool_decide as Hn; [done|]. apply issues_bind.
  { apply unmount_writes_quiet. unfold m_GetMountRef, podMount, GetMountRef. solve_avoids. }
  intros t3 [refs|e] _; [|done]. destruct (Nat.eqb refs 0); [|done].
  eapply (issues_weaken (S := jfs) (fun t c => jumount_writes podName t c /\ ev (S := jfs) (CleanupMountPoint target) None ∈ t)).
  { intros t' [] [Hj Hc]; try done; [right; eauto|]. split; [done|]. by exists podName. }
  apply (issues_after (S := jfs)); [|apply JUmount_issues].
  rewrite !elem_of_app. auto.
Qed.

Lemma JfsUnmount_issues fuel volumeId target :
  g_ByProcess = false -> issues (S := jfs) (unmount_writes target) (JfsUnmount fuel volumeId target) [].
Proof.
  intros Hb. unfold JfsUnmount. rewrite Hb. apply issues_bind.
  { apply unmount_writes_quiet. unfold getUniqueId. solve_avoids. }
  intros t1 [u|e] _; [|done]. apply pod_unmount_issues.
Qed.

(** Locking: the process mounter takes no locks. *)
Lemma process_lock_free fuel target u n uuid dirs :
  lock_free (m_GetMountRef (processMount fuel) target n) /\
  lock_free (m_JUmount (processMount fuel) target n) /\
  lock_free (m_CleanCache (processMount fuel) u uuid n dirs).
Proof.
  cbn [m_GetMountRef m_JUmount m_CleanCache processMount].
  assert (forall a b, lock_free (GetMountDeviceRefs a b)) as Hrefs.
  { intros. unfold GetMountDeviceRefs, searchMountPoints, parseMountInfo, ConsistentRead.
    assert (forall n s, lock_free (read_again procMountInfoPath maxListTries n s)) as Hr.
    { induction n0 as [|k IH]; intros s; cbn [read_again]; solve_avoids; auto. }
    solve_avoids; auto. }
  assert (lock_free (probe_target target)) as Hp.
  { unfold probe_target, check_timeout, DoWithTimeout, wrapR, go. solve_avoids. }
  unfold Process_GetMountRef, Process_JUmount, Process_CleanCache, check_timeout, DoWithTimeout, wrapR, wrapE, go.
  split_and!; solve_avoids; auto.
Qed.

Lemma pod_unmount_lock_safe fuel uniqueId target : lock_safe (pod_unmount fuel uniqueId target).
Proof.
  unfold pod_unmount. apply lock_safe_bind.
  { apply lock_free_safe. unfold mount_pods, GenPodNameByUniqueId. solve_avoids. }
  intros [pods|e]; [|by apply lock_free_safe]. apply locked_safe.
  cbn [m_UmountTarget m_GetMountRef m_JUmount podMount].
  unfold UmountTarget, umount_round, GetMountRef, JUmount.
  solve_avoids; auto.
  - apply RetryOnConflict_avoids; [done|]. unfold del_ref_attempt, DelPodAnnotation. solve_avoids.
  - apply RetryOnConflict_avoids; [done|].
    unfold jumount_attempt, ShouldDelay, GetTimeAfterDelay, AddPodAnnotation. solve_avoids.
Qed.

Lemma process_unmount_lock_safe fuel uniqueId target : lock_safe (process_unmount fuel uniqueId target).
Proof.
  destruct (process_lock_free fuel target "" "" "" []) as (Hr & Hu & _).
  unfold process_unmount. apply lock_safe_bind; [by apply lock_free_safe|]. intros ref.
  apply lock_safe_bind; [by apply lock_free_safe|]. intros err.
  apply lock_safe_bind; [|intros; by apply lock_free_safe].
  destruct ref as [[|[|n]]|e]; try by apply lock_free_safe.
  apply mutex_locked_safe. split; [done|]. intros info. prog_simpl.
  destruct (_ && _); [done|]. split; [done|]. intros u. unfold go.
  pose proof (proj2 (proj2 (process_lock_free fuel target "" uniqueId info.1 info.2))). solve_avoids; auto.
Qed.

(** Unmounting a volume is safe.  In every run of [JfsUnmount] the locks
    are used correctly and released, panics included; a mount pod is deleted
    only after this target was cleaned up and right after the API server
    showed the pod without references; its reference is removed only after the
    target is unmounted and cleaned up; nothing is created or mounted. *)
Theorem JfsUnmount_safe fuel volumeId target :
  lock_safe (JfsUnmount fuel volumeId target) /\
  (g_ByProcess = false -> forall t o, runs (JfsUnmount fuel volumeId target) t o ->
     forall t1 e t2, t = t1 ++ e :: t2 -> unmount_writes target t1 (projT1 e)).
Proof.
  split.
  - unfold JfsUnmount. apply lock_safe_bind.
    { apply lock_free_safe. unfold getUniqueId. solve_avoids. }
    intros [u|e]; [|by apply lock_free_safe].
    destruct g_ByProcess; [apply process_unmount_lock_safe|apply pod_unmount_lock_safe].
  - intros Hb t o Hr. apply (issues_runs (S := jfs) (unmount_writes target) _ [] _ _) with (2 := Hr).
    by apply JfsUnmount_issues.
Qed.
End unmount.

(** ** Secrets stay out of the command of the mount pod *)

Definition hidden_keys : list string :=
  ["token"; "secret-key"; "secret-key2"; "passphrase"; "secretkey"; "secretkey2"; "metaurl"].

(** Two values that show the same to someone who may only learn whether there
    is one. *)
Definition masked (a b : option string) : Prop :=
  match a, b with
  | None, None => True
  | Some x, Some y => x = "" <-> y = ""
  | _, _ => False
  end.

(** Secrets that differ at most in the values of the hidden keys. *)
Definition same_public (s1 s2 : smap) : Prop :=
  forall k, if bool_decide (k ∈ hidden_keys) then masked (s1 !! k) (s2 !! k) else s1 !! k = s2 !! k.

(** Format options that differ at most in the session token. *)
Definition public_pair (a b : string * string) : Prop :=
  a.1 = b.1 /\ (a.2 = b.2 \/ a.1 = "session-token" /\ a.2 <> "" /\ b.2 <> "").
Definition same_public_options (f1 f2 : string) : Prop :=
  (f1 = "" <-> f2 = "") /\
  match ParseFormatOptions f1, ParseFormatOptions f2 with
  | Ok l1, Ok l2 => Forall2 public_pair l1 l2
  | Err e1, Err e2 => e1 = e2
  | _, _ => False
  end.

Lemma same_public_visible s1 s2 k : same_public s1 s2 -> bool_decide (k ∈ hidden_keys) = false -> sget s1 k = sget s2 k.
Proof. intros Hs Hk. specialize (Hs k). rewrite Hk in Hs. unfold sget. by rewrite Hs. Qed.

Lemma masked_nonempty s1 s2 k : masked (s1 !! k) (s2 !! k) -> nonempty_key s1 k = nonempty_key s2 k.
Proof.
  unfold masked, nonempty_key, sget. destruct (s1 !! k), (s2 !! k); simpl; try done.
  intros Hm. f_equal. by apply bool_decide_ext.
Qed.

Lemma same_public_nonempty s1 s2 k : same_public s1 s2 -> nonempty_key s1 k = nonempty_key s2 k.
Proof.
  intros Hs. specialize (Hs k). destruct (bool_decide _); [by apply masked_nonempty|].
  unfold nonempty_key, sget. by rewrite Hs.
Qed.

Lemma plain_flags_public s1 s2 keys :
  same_public s1 s2 -> Forall (fun k => bool_decide (k ∈ hidden_keys) = false) keys -> plain_flags keys s1 = plain_flags keys s2.
Proof.
  intros Hs. unfold plain_flags. induction 1 as [|k keys Hk _ IH]; [done|].
  rewrite !filter_cons. rewrite (same_public_nonempty _ _ _ Hs).
  destruct (decide _); cbn [map]; [|done]. by rewrite IH, (same_public_visible s1 s2 k).
Qed.

Lemma hidden_flags_public r s1 s2 keys :
  same_public s1 s2 -> hidden_flags r keys s1 = hidden_flags r keys s2.
Proof.
  intros Hs. unfold hidden_flags. f_equal. induction keys as [|k keys IH]; [done|].
  rewrite !filter_cons, (same_public_nonempty _ _ _ Hs). by rewrite IH.
Qed.

(** Renaming a key keeps the secrets indistinguishable when both names are
    hidden or both are public. *)
Lemma transform_key_public s1 s2 kv :
  same_public s1 s2 -> (kv.1 ∈ hidden_keys <-> kv.2 ∈ hidden_keys) -> kv.1 <> kv.2 ->
  same_public (transform_key s1 kv) (transform_key s2 kv).
Proof.
  destruct kv as [a b]. cbn [fst snd]. intros Hs Hab Hne k. unfold transform_key. cbn [fst snd].
  pose proof (Hs a) as Ha. pose proof (Hs k) as Hk.
  destruct (decide (a ∈ hidden_keys)) as [Hin|Hin].
  - rewrite (bool_decide_true (a ∈ _)) in Ha by done.
    destruct (s1 !! a) as [x|] eqn:E1, (s2 !! a) as [y|] eqn:E2; try done.
    destruct (decide (k = a)) as [->|Hka].
    { rewrite !lookup_delete_eq. by destruct (bool_decide _). }
    rewrite !lookup_delete_ne by done. destruct (decide (k = b)) as [->|Hkb].
    + rewrite !lookup_insert_eq, bool_decide_true by tauto. done.
    + by rewrite !lookup_insert_ne by done.
  - rewrite (bool_decide_false (a ∈ _)) in Ha by done. rewrite Ha.
    destruct (s2 !! a) as [y|] eqn:E2; [|done].
    destruct (decide (k = a)) as [->|Hka].
    { rewrite !lookup_delete_eq. by destruct (bool_decide _). }
    rewrite !lookup_delete_ne by done. destruct (decide (k = b)) as [->|Hkb].
    + rewrite !lookup_insert_eq, bool_decide_false by tauto. done.
    + by rewrite !lookup_insert_ne by done.
Qed.

Lemma keysCompatible_public l s1 s2 :
  l ≡ₚ map_to_list keysCompatible -> same_public s1 s2 ->
  same_public (foldl transform_key s1 l) (foldl transform_key s2 l).
Proof.
  intros Hl. assert (Forall (fun kv => (kv.1 ∈ hidden_keys <-> kv.2 ∈ hidden_keys) /\ kv.1 <> kv.2) l) as Hall.
  { apply Forall_forall. intros [k v] Hin. rewrite Hl in Hin. apply elem_of_map_to_list in Hin.
    unfold keysCompatible in Hin. rewrite !lookup_insert_Some, lookup_singleton_Some in Hin.
    cbn [fst snd].
    destruct Hin as [[<- <-]|[_ [[<- <-]|[_ [[<- <-]|[_ [<- <-]]]]]]];
      (split; [refine (bool_decide_iff _ _ _); by vm_compute|done]). }
  clear Hl. revert s1 s2. induction Hall as [|kv l [Hk Hne] _ IH]; intros s1 s2 Hs; [done|].
  cbn [foldl]. apply IH. by apply transform_key_public.
Qed.

Lemma StripFormatOptions_public l1 l2 :
  Forall2 public_pair l1 l2 ->
  StripFormatOptions l1 ["session-token"] = StripFormatOptions l2 ["session-token"].
Proof.
  unfold StripFormatOptions. induction 1 as [|[k v] [k' v'] l1 l2 [Hk Hv] _ IH]; [done|].
  cbn [map]. cbn [fst snd] in *. subst k'. f_equal; [|done]. unfold strip_option. cbn [fst snd].
  destruct Hv as [->|(-> & Hv & Hv')]; [done|].
  by rewrite !(bool_decide_false (_ = "")) by done.
Qed.

Lemma format_flags_public set1 set2 :
  same_public_options (FormatOptions set1) (FormatOptions set2) ->
  match format_flags set1, format_flags set2 with
  | Ok (_, l1), Ok (_, l2) => l1 = l2
  | Err e1, Err e2 => e1 = e2
  | _, _ => False
  end.
Proof.
  intros [He Hl]. unfold format_flags.
  rewrite (bool_decide_ext _ _ He). case_bool_decide; [done|].
  destruct (ParseFormatOptions (FormatOptions set1)), (ParseFormatOptions (FormatOptions set2));
    try done; [by apply StripFormatOptions_public|by subst].
Qed.

Section secrets.
Context `{Globals}.

(** The answers before the command is composed do not depend on the secrets. *)
Lemma no_update_config_public s1 s2 set1 set2 :
  g_ByProcess = false -> same_public s1 s2 -> no_update_config s1 set1 = no_update_config s2 set2.
Proof.
  intros Hb Hs. unfold no_update_config. rewrite Hb. cbn [andb].
  by rewrite (same_public_visible s1 s2 "bucket").
Qed.

Lemma auth_cmdArgs_public s1 s2 n f set1 set2 :
  same_public s1 s2 -> ClientConfPath set1 = ClientConfPath set2 ->
  auth_cmdArgs s1 n f set1 = auth_cmdArgs s2 n f set2.
Proof.
  intros Hs Hc. unfold auth_cmdArgs, conf_flag.
  rewrite (same_public_visible s1 s2 "name"), (plain_flags_public s1 s2), (hidden_flags_public _ s1 s2), Hc;
    by repeat constructor.
Qed.

Lemma AuthFs_public s1 s2 set1 set2 t s1' r :
  g_ByProcess = false -> same_public s1 s2 -> ClientConfPath set1 = ClientConfPath set2 ->
  same_public_options (FormatOptions set1) (FormatOptions set2) ->
  runs (AuthFs (Some s1) set1 false) t (Done (s1', r)) ->
  exists s2', runs (AuthFs (Some s2) set2 false) t (Done (s2', r)).
Proof.
  intros Hb Hs Hc Ho. unfold AuthFs. rewrite (same_public_visible s1 s2 "name") by done.
  case_bool_decide; [intros [-> [= _ ->]]; by eexists|].
  intros ([ks Hks] & t' & -> & Hr). cbn [bind] in Hr. cbn [proj1_sig] in Hr.
  set (l := entries keysCompatible ks) in *.
  assert (same_public (foldl transform_key s1 l) (foldl transform_key s2 l)) as Hl.
  { apply keysCompatible_public; [by apply entries_perm|done]. }
  exists (Some (foldl transform_key s2 l)), (exist _ ks Hks), t'. split; [done|].
  cbn [bind]. cbn [proj1_sig]. fold l.
  revert Hl Hr. generalize (foldl transform_key s1 l) (foldl transform_key s2 l). intros u1 u2 Hl Hr.
  rewrite (no_update_config_public u1 u2 set1 set2) in Hr by done.
  apply runs_bind in Hr as [(t1 & t2 & r1 & -> & Hr & [-> [= _ ->]])|(? & _ & ?)]; [|done].
  apply runs_bind. left. exists t1, [], r1. split; [done|]. split; [|done].
  apply runs_bind in Hr as [(t3 & t4 & n & -> & Hn & Hr)|(? & _ & ?)]; [|done].
  apply runs_bind. left. exists t3, t4, n. split; [done|]. split; [done|].
  destruct n as [n|e]; [|done]. pose proof (format_flags_public set1 set2 Ho) as Hf.
  destruct (format_flags set1) as [[f1 l1]|e1], (format_flags set2) as [[f2 l2]|e2]; try done; [|by subst].
  subst l2. rewrite Hb in *. cbn [negb andb] in *.
  by rewrite (auth_cmdArgs_public u1 u2 n l1 set1 set2) in Hr by done.
Qed.

Lemma ceFormat_public s1 s2 set1 set2 noUpdate t r :
  g_ByProcess = false -> same_public s1 s2 ->
  same_public_options (FormatOptions set1) (FormatOptions set2) ->
  runs (ceFormat (Some s1) noUpdate set1) t (Done r) -> runs (ceFormat (Some s2) noUpdate set2) t (Done r).
Proof.
  intros Hb Hs Ho. unfold ceFormat. rewrite (same_public_visible s1 s2 "name") by done.
  case_bool_decide; [done|]. pose proof (same_public_nonempty s1 s2 "metaurl" Hs) as Hm.
  unfold nonempty_key in Hm. apply (f_equal negb) in Hm. rewrite !negb_involutive in Hm. rewrite Hm.
  destruct (bool_decide (sget s2 "metaurl" = "")); [done|]. pose proof (format_flags_public set1 set2 Ho) as Hf.
  destruct (format_flags set1) as [[f1 l1]|e1], (format_flags set2) as [[f2 l2]|e2]; try done; [|by subst e2].
  subst l2. rewrite Hb. cbn [negb].
  by rewrite (plain_flags_public s1 s2), (hidden_flags_public _ s1 s2) by (done || by repeat constructor).
Qed.

(** C20: the commands that go into the mount pod, and into the log, hide the
    secrets.  In pod mode, whatever the values of the token, the secret keys,
    the passphrase, the metadata URL and the session token of the format
    options, [AuthFs] and [ceFormat] issue the same calls and give the same
    command, as long as the same ones are set; the order in which the runtime
    visits the compatible keys does not matter. *)
Theorem commands_hide_secrets s1 s2 set1 set2 noUpdate t :
  g_ByProcess = false -> same_public s1 s2 -> ClientConfPath set1 = ClientConfPath set2 ->
  same_public_options (FormatOptions set1) (FormatOptions set2) ->
  (forall s1' r, runs (AuthFs (Some s1) set1 false) t (Done (s1', r)) ->
     exists s2', runs (AuthFs (Some s2) set2 false) t (Done (s2', r))) /\
  (forall r, runs (ceFormat (Some s1) noUpdate set1) t (Done r) ->
     runs (ceFormat (Some s2) noUpdate set2) t (Done r)).
Proof.
  intros Hb Hs Hc Ho. split; intros.
  - by eapply AuthFs_public.
  - by eapply ceFormat_public.
Qed.
End secrets.

(** ** Versions *)

Definition valid_version (v : clientVersion) : Prop :=
  0 <= Major v < 2 ^ 63 /\ 0 <= Minor v < 2 ^ 63 /\ 0 <= Patch v < 2 ^ 63 /\ no_space (Tag v) = true.

Lemma digits_then_app d c rest :
  all_chars is_digit d = true -> d <> "" -> is_digit c = false ->
  digits_then c (d +:+ String c rest) = Some (d, rest).
Proof.
  intros Hd Hne Hc. unfold digits_then. rewrite span_digits_app; [|done|by simpl; rewrite Hc].
  destruct d; [done|]. by rewrite bool_decide_true.
Qed.

Lemma match_version_String v :
  valid_version v ->
  match_version (version_String v) = Some (pretty (Major v), pretty (Minor v), pretty (Patch v), Tag v).
Proof.
  intros (H1 & H2 & H3 & Ht).
  destruct (pretty_Z_digits (Major v)) as (Hd1 & Hn1 & _); [lia|].
  destruct (pretty_Z_digits (Minor v)) as (Hd2 & Hn2 & _); [lia|].
  destruct (pretty_Z_digits (Patch v)) as (Hd3 & Hn3 & _); [lia|].
  unfold match_version, version_String. cbn [String.append].
  rewrite (digits_then_app _ "."%char) by done. cbn [mbind option_bind].
  rewrite (digits_then_app _ "."%char) by done. cbn [mbind option_bind].
  case_bool_decide as E.
  - rewrite span_digits_app by done. destruct (pretty (Patch v)) eqn:E3; [done|].
    cbn. by rewrite E.
  - rewrite span_digits_app by done. destruct (pretty (Patch v)) eqn:E3; [done|].
    cbn [String.append version_tag]. rewrite (bool_decide_false (Tag v = "")) by done. cbn [negb].
    assert (one_line_text (Tag v) = true) as ->; [|done].
    eapply all_chars_weaken; [|exact Ht]. intros c Hc%negb_true_iff. apply negb_true_iff, bool_decide_eq_false.
    by intros ->.
Qed.

Lemma version_String_no_space v : valid_version v -> no_space (version_String v) = true.
Proof.
  intros (H1 & H2 & H3 & Ht). unfold version_String, no_space. rewrite !all_chars_app.
  assert (forall z, 0 <= z -> all_chars (fun c => negb (is_space c)) (pretty z) = true) as Hz.
  { intros z Hz. by apply digits_no_space, pretty_Z_digits. }
  rewrite (Hz (Major v)), (Hz (Minor v)), (Hz (Patch v)) by lia.
  case_bool_decide; [done|]. unfold no_space in Ht. by rewrite all_chars_app, Ht.
Qed.

(** Versions survive printing and parsing: for every version with
    components in the range of [int] and a tag without white space,
    [parseVersion] reads back what [String] prints; and the output of
    [juicefs version] for it, [JuiceFS version <v>], is read by
    [parseRawVersion]. *)
Theorem parseVersion_String v :
  valid_version v ->
  parseVersion (version_String v) = Ok v /\
  parseRawVersion ("JuiceFS version " +:+ version_String v) = Ok v.
Proof.
  intros Hv. assert (parseVersion (version_String v) = Ok v) as Hp.
  { unfold parseVersion. rewrite TrimSpace_no_space by (by apply version_String_no_space).
    rewrite match_version_String by done. destruct Hv as (H1 & H2 & H3 & _).
    rewrite !Atoi_pretty by done. by destruct v. }
  split; [done|]. unfold parseRawVersion.
  change ("JuiceFS version " +:+ version_String v)
    with ("JuiceFS" +:+ String " " ("version" +:+ String " " (version_String v))).
  rewrite !Split_char_cons by done. unfold Split. rewrite split_go_absent; [done|done|].
  eapply all_chars_free; [|by apply version_String_no_space]. done.
Qed.

(** ** Targets and options *)

(** The part before the first separator is a prefix of the text. *)
Lemma Split_head s sep a :
  sep <> "" -> head (Split s sep) = Some a -> s = a \/ exists rest, s = a +:+ sep +:+ rest.
Proof.
  intros Hsep. pose proof (Join_Split s sep Hsep) as Hj. destruct (Split s sep) as [|b [|c l]]; intros Ha;
    simplify_eq/=; [by left|right; by eexists].
Qed.

Section valid.
Context `{Globals} `{QuantityParser}.

(** C21: what an accepted target is.  When [validTarget] accepts a target, it
    has touched nothing, and the target has no [..] and no element that begins
    or ends with a dot next to a slash.  In pod mode the target then is the
    kubelet directory of the CSI pod or lies below its [pods] directory; in
    process mode nothing else is checked, and every target without such dots is
    accepted, wherever it lies. *)
Theorem validTarget_safe target :
  (forall t, runs (validTarget target) t (Done None) ->
     t = [] /\ Contains target ".." = false /\ Contains target "./" = false /\ Contains target "/." = false /\
     (g_ByProcess = false -> exists dir, kubelet_dir = Some dir /\
        (target = dir \/ exists rest, target = dir +:+ "/pods/" +:+ rest))) /\
  (g_ByProcess = true -> illegal_access target = false -> validTarget target = Ret None).
Proof.
  unfold validTarget. split; [intros t|by intros -> ->]. destruct (illegal_access target) eqn:Ei; [by intros []|].
  unfold illegal_access in Ei. rewrite !orb_false_iff in Ei. destruct g_ByProcess; [intros [-> _]; split_and!; by try tauto|].
  destruct kubelet_dir as [dir|]; [|by intros [_ [=]]].
  case_bool_decide as Hd; [|by intros []]. intros [-> _]. split_and!; try tauto. intros _. exists dir. split; [done|].
  subst dir. destruct (head (Split target "/pods/")) as [a|] eqn:Eh.
  - by apply Split_head in Eh.
  - pose proof (Split_nonempty target "/pods/"). by destruct (Split target "/pods/").
Qed.

Lemma valid_option_spec volCtx o o' :
  valid_option volCtx o = Ok o' ->
  o' = normal_option o /\ (length (Split (TrimSpace o) "=") <= 2)%nat /\
  (forall v, Split (TrimSpace o) "=" = ["buffer-size"; v] ->
     exists limit size,
       ParseQuantity (overwrite_str DefaultMountPodMemLimit (sget volCtx MountPodMemLimitKey)) = Some limit /\
       ParseToBytes v = Ok size /\ size <= QuantityValue limit mod 2 ^ 64).
Proof.
  unfold valid_option. destruct (Split (TrimSpace o) "=") as [|k [|v [|w l]]] eqn:Es; try done.
  - intros [= <-]. split; [done|]. split; [simpl; lia|done].
  - intros [= <-]. split; [done|]. split; [simpl; lia|done].
  - case_bool_decide as Hk.
    + unfold check_buffer_size.
      destruct (ParseQuantity _) as [q|] eqn:Eq; [|done]. destruct (ParseToBytes v) as [b|] eqn:Eb; [|done].
      destruct (Z.ltb_spec (QuantityValue q mod 2 ^ 64) b); [done|]. intros [= <-].
      split; [done|]. split; [simpl; lia|]. intros v' [= _ ->]. exists q, b. done.
    + intros [= <-]. split; [done|]. split; [simpl; lia|]. by intros v' [= -> _].
Qed.


(** A space before the equal sign escapes the check: the key is compared
    before it is trimmed, so [buffer-size =v] is accepted with any value,
    whatever the limit, and is passed on as [buffer-size=v]. *)
Theorem validOptions_space volCtx v :
  no_space v = true -> Contains v "=" = false ->
  validOptions ["buffer-size =" +:+ v] volCtx = Ok ["buffer-size=" +:+ v].
Proof.
  intros Hv Hc.
  assert (Split ("buffer-size =" +:+ v) "=" = ["buffer-size "; v]) as Hs.
  { change ("buffer-size =" +:+ v) with ("buffer-size " +:+ String "=" v).
    rewrite Split_char_cons by done. unfold Split. by rewrite split_go_absent. }
  assert (TrimSpace ("buffer-size =" +:+ v) = "buffer-size =" +:+ v) as Ht.
  { unfold TrimSpace. change (trim_left is_space ("buffer-size =" +:+ v)) with ("buffer-size " +:+ String "=" v).
    by rewrite trim_right_app by (done || by apply trim_right_no_space). }
  unfold validOptions, valid_option, normal_option. rewrite Ht, Hs.
  rewrite bool_decide_false by done. cbn. by rewrite TrimSpace_no_space.
Qed.
End valid.

(** ** Bind mounts *)

(** The entry of a mount table that shows at a path: the last one. *)
Definition shown_at (path : string) (infos : list MountInfo) (m : MountInfo) : Prop :=
  exists l1 l2, infos = l1 ++ m :: l2 /\ mi_mountPoint m = path /\ path ∉ map mi_mountPoint l2.
Definition mounted_at (path : string) (infos : list MountInfo) : Prop := path ∈ map mi_mountPoint infos.

Lemma mount_minor_shown path infos n :
  mount_minor path infos = Some n -> exists m, shown_at path infos m /\ mi_minor m = n.
Proof.
  intros (m & Hf & ->)%fmap_Some. apply find_last_Some in Hf as (Hm%bool_decide_eq_true & l1 & l2 & Hl & Hall).
  exists m. split; [|done]. exists l1, l2. split_and!; [done..|]. intros (x & Hx & Hin)%list_elem_of_fmap.
  rewrite Forall_forall in Hall. specialize (Hall x Hin). by apply bool_decide_eq_false in Hall.
Qed.
Lemma mount_minor_none path infos : mount_minor path infos = None -> ~ mounted_at path infos.
Proof.
  intros Hf%fmap_None%find_last_None (x & Hx & Hin)%list_elem_of_fmap. rewrite Forall_forall in Hf.
  specialize (Hf x Hin). by apply bool_decide_eq_false in Hf.
Qed.
Lemma mounted_existsb target infos :
  existsb (fun mi => bool_decide (mi_mountPoint mi = target)) infos = true <-> mounted_at target infos.
Proof.
  rewrite existsb_true. unfold mounted_at. rewrite list_elem_of_fmap. split.
  - intros (x & Hin & <-%bool_decide_eq_true). by exists x.
  - intros (x & -> & Hin). exists x. split; [done|]. by apply bool_decide_eq_true.
Qed.

(** One attempt to bind; a failed one removes the target. *)
Definition binds (bindSource target : string) (t : jtrace) (o : outcome (option error)) : Prop :=
  exists r, (r = None /\ t = [ev (S := jfs) (Mount bindSource target fsTypeNone ["bind"]) r] \/
             exists e r', r = Some e /\
               t = [ev (S := jfs) (Mount bindSource target fsTypeNone ["bind"]) r;
                    ev (S := jfs) (RemoveFile target) r']) /\ o = Done r.

Lemma bind_mount_runs src target t o : runs (bind_mount src target) t o -> binds src target t o.
Proof.
  intros ([e|] & t' & -> & Hr).
  - destruct Hr as (r' & t'' & -> & -> & ->). exists (Some e). split; [|done]. right. by exists e, r'.
  - destruct Hr as [-> ->]. exists None. split; [|done]. by left.
Qed.

(** C22: [BindTarget] decides by the mount table it reads.  Without an entry
    of the file system it fails and touches nothing.  Otherwise, with [m] the
    entry that shows at the mount path: a target that is not in the table is
    bound once; for a target in the table, the LAST entry [z] of the whole table
    decides, whatever it is (the pointer [&mi.Minor] aliases the loop
    variable): on the device of [m] the call succeeds and touches nothing, on
    another one it unmounts the target lazily and binds it.  So when the last
    entry is the one that shows at the target, the call succeeds without a
    bind only if the target is on the device of the file system; otherwise it
    may leave a target that shows another file system, or unmount one that is
    already bound. *)
Theorem BindTarget_plan fs bindSource target t o :
  runs (BindTarget fs bindSource target) t o ->
  exists r t', t = ev (S := jfs) ParseMountInfo r :: t' /\
    match r with
    | Err e => t' = [] /\ o = Done (Some e)
    | Ok infos =>
        (~ mounted_at (fs_MountPath fs) infos -> t' = [] /\ exists e, o = Done (Some e)) /\
        (mounted_at (fs_MountPath fs) infos -> exists m, shown_at (fs_MountPath fs) infos m /\
           (~ mounted_at target infos -> binds bindSource target t' o) /\
           (mounted_at target infos -> exists l z, infos = l ++ [z] /\
              (mi_minor z = mi_minor m -> t' = [] /\ o = Done None) /\
              (mi_minor z <> mi_minor m -> exists r' t'', t' = ev (S := jfs) (LazyUmount target) r' :: t'' /\
                 binds bindSource target t'' o)))
    end.
Proof.
  intros ([infos|e] & t' & -> & Hr); [|by exists (Err e), t'].
  exists (Ok infos), t'. split; [done|]. prog_simpl_in Hr.
  destruct (mount_minor (fs_MountPath fs) infos) as [n|] eqn:En.
  2: { apply mount_minor_none in En. split; [|done]. intros _. destruct Hr as [-> ->]. by split; [|eexists]. }
  apply mount_minor_shown in En as (m & Hm & <-). split.
  { intros Hn. exfalso. apply Hn. destruct Hm as (l1 & l2 & -> & <- & _). apply list_elem_of_fmap_2. set_solver. }
  intros _. exists m. split; [done|]. unfold target_minor in Hr.
  destruct (existsb _ infos) eqn:Ex.
  2: { split; [intros _; by apply bind_mount_runs|]. intros Ht%mounted_existsb. congruence. }
  apply mounted_existsb in Ex. split; [done|]. intros _.
  destruct infos as [|z l _] using rev_ind; [by apply elem_of_nil in Ex|]. exists l, z. split; [done|].
  rewrite last_snoc in Hr. cbn [fmap option_fmap option_map] in Hr. destruct (Z.eqb_spec (mi_minor z) (mi_minor m)) as [E|E]; split; intros Hz; try done.
  destruct Hr as (r & t'' & -> & Hr). exists r, t''. split; [done|]. by apply bind_mount_runs.
Qed.

(** ** Quotas *)

Lemma quota_GiB_quot capacity : quota_GiB capacity = Z.quot capacity (2 ^ 30).
Proof. unfold quota_GiB. by rewrite !Z.quot_quot by lia. Qed.

Lemma quota_GiB_small capacity : capacity < 2 ^ 30 -> quota_GiB capacity <= 0.
Proof.
  intros Hc. rewrite quota_GiB_quot. destruct (Z.le_gt_cases 0 capacity).
  - by rewrite Z.quot_small by lia.
  - rewrite <-(Z.opp_involutive capacity), Z.quot_opp_l by lia.
    pose proof (Z.quot_pos (- capacity) (2 ^ 30)). lia.
Qed.

Lemma quota_GiB_bound capacity :
  2 ^ 30 <= capacity ->
  0 < quota_GiB capacity /\ quota_GiB capacity * 2 ^ 30 <= capacity < (quota_GiB capacity + 1) * 2 ^ 30.
Proof.
  intros Hc. rewrite quota_GiB_quot, Z.quot_div_nonneg by lia.
  pose proof (Z.div_mod capacity (2 ^ 30) ltac:(done)).
  pose proof (Z.mod_pos_bound capacity (2 ^ 30) ltac:(done)).
  pose proof (Z.div_le_lower_bound capacity (2 ^ 30) 1). lia.
Qed.

(** A command of the client other than [auth] sets this quota. *)
Definition sets_quota (fs path : string) (cap : Z) (c : jfs_cmd) : Prop :=
  match c with
  | Exec _ _ args _ => head args = Some "auth" \/ args = quota_args fs path cap
  | _ => True
  end.

Section quota.
Context `{Globals}.

Lemma AuthFs_execs secrets s t R :
  (forall t c, match c with Exec _ _ args _ => head args = Some "auth" | _ => True end -> R t c) ->
  issues (S := jfs) R (AuthFs secrets s true) t.
Proof.
  intros HR. unfold AuthFs. destruct secrets as [secrets|]; [|done].
  case_bool_decide; [done|]. apply issues_bind; [by split; [apply HR|]|]. intros t1 l _.
  apply issues_bind; [|done]. apply issues_bind.
  { unfold no_update_config. split; [by apply HR|]. intros v. prog_simpl.
    destruct (negb _); [done|]. case_bool_decide; [done|]. destruct (g_ByProcess && _); [|done].
    split; [by apply HR|]. intros [fi|e]; prog_simpl; [done|]. destruct (IsNotExist e); [|done].
    split; [by apply HR|]. by intros [w|]. }
  intros t2 [n|e] _; [|done]. destruct (format_flags s) as [[f1 l1]|e]; [|done]. cbn [negb andb].
  unfold run_client. split; [by apply HR|]. intros env. prog_simpl.
  apply issues_bind; [by split; [apply HR|]|]. intros t3 extra _.
  split; [by apply HR|]. intros [out [e|]]; prog_simpl; [|done].
  split; [by apply HR|]. by intros [[]|].
Qed.

(** Quotas are whole gibibytes, rounded down.  [SetQuota] refuses a
    capacity below 1 GiB without any call; otherwise every quota command it
    runs, in the foreground or in the background, asks for the number [c >= 1]
    of GiB with [c GiB <= capacity < (c+1) GiB], for this path of this file
    system. *)
Theorem SetQuota_rounds_down secrets s path capacity :
  (capacity < 2 ^ 30 -> exists e, SetQuota secrets s path capacity = Ret (secrets, Some e)) /\
  (2 ^ 30 <= capacity ->
   exists c, 1 <= c /\ c * 2 ^ 30 <= capacity < (c + 1) * 2 ^ 30 /\
     forall t o, runs (SetQuota secrets s path capacity) t o ->
       Forall (fun e => sets_quota (sget (nil_map secrets) (if IsCe s then "metaurl" else "name")) path c (projT1 e)) t).
Proof.
  split; intros Hc.
  - eexists. unfold SetQuota. by rewrite (proj2 (Z.leb_le _ _)) by (by apply quota_GiB_small).
  - apply quota_GiB_bound in Hc as [Hp Hb]. exists (quota_GiB capacity). split; [lia|]. split; [done|].
    intros t o Hr. apply (Forall_issues (S := jfs)) with (2 := Hr).
    unfold SetQuota. rewrite (proj2 (Z.leb_gt _ _)) by done.
    split; [done|]. intros env. prog_simpl. apply issues_bind; [by split|]. intros t1 extra _.
    destruct (IsCe s) eqn:Ec; cbn [negb].
    + split; [done|]. intros [d|]; prog_simpl.
      * apply issues_bind; [|done]. split; [done|]. intros []; prog_simpl; [|done].
        split; [by right|]. done.
      * split; [by right|]. done.
    + apply issues_bind; [apply AuthFs_execs; intros ? []; try done; by left|].
      intros t2 [secrets' [a|e]] _; [|done]. split; [by right|]. done.
Qed.
End quota.
