(* ===== verification/ProcessFacts.v ===== *)
(** * Properties of the process mounter and of the mount table reader

    Which mounts count as references of a target, what the process mounter
    unmounts, when a mount is reported ready, and the sizes it parses. *)
From S2P Require Import Prelude.
From S2P Require Import GoStrings.
From S2P Require Import Decimal.
From S2P Require Import K8s.
From S2P Require Import Prog.
From S2P Require Import Effects.
From S2P Require Import Config.
From S2P Require Import Util.
From S2P Require Import MountRefs.
From S2P Require Import Setting.
From S2P Require Import JfsSetting.
From S2P Require Import PodMount.
From S2P Require Import ProcessMount.
From Stdlib Require Import Ascii.
#[local] Open Scope Z_scope.
#[local] Open Scope go_scope.

(** ** Sizes *)

(** An integer below [2^53] is a float exactly. *)
Lemma round_float_exact n :
  0 < n < 2 ^ 53 ->
  exists e, round_float n 1 = (n * 2 ^ (- e), e) /\ -53 <= e <= 0.
Proof.
  intros Hn. pose proof (Z.log2_spec n ltac:(lia)) as [Hl Hu].
  assert (0 <= Z.log2 n <= 52) as Hb.
  { split; [apply Z.log2_nonneg|]. assert (Z.log2 n < 53); [|lia]. apply Z.log2_lt_pow2; lia. }
  assert (forall e, -1074 <= e <= 0 -> n * 2 ^ Z.max 0 (- e) = n * 2 ^ (- e)) as Hs by (intros; by rewrite Z.max_r by lia).
  unfold round_float. change (Z.log2 1) with 0. rewrite Z.sub_0_r.
  set (e0 := Z.log2 n - 53). rewrite (Z.max_l 0 e0) by lia. change (1 * 2 ^ 0) with 1. rewrite Z.div_1_r.
  assert (2 ^ 53 <= n * 2 ^ Z.max 0 (- e0)) as Hbig.
  { rewrite Z.max_r by lia. replace 53 with (Z.log2 n + (- e0)) at 1 by lia.
    rewrite Z.pow_add_r by lia. apply Z.mul_le_mono_nonneg_r; [|done]. apply Z.pow_nonneg. lia. }
  rewrite (proj2 (Z.ltb_ge (n * 2 ^ Z.max 0 (- e0)) (2 ^ 53)) Hbig). rewrite (Z.max_l (e0 + 1)) by lia.
  rewrite (Z.max_l 0 (e0 + 1)) by lia. change (1 * 2 ^ 0) with 1.
  rewrite Z.div_1_r, Z.mod_1_r. rewrite Hs by lia. exists (e0 + 1). split; [done|]. lia.
Qed.

Lemma ParseFloat_pretty n :
  0 <= n < 2 ^ 53 ->
  exists e, ParseFloat (pretty n) = Some {| f_neg := false; f_mant := n * 2 ^ (- e); f_exp := e |} /\
            -53 <= e <= 0.
Proof.
  intros Hn. destruct (pretty_Z_digits n) as (Hd & Hne & Hv); [lia|].
  unfold ParseFloat. destruct (pretty n) as [|c s] eqn:E; [done|].
  assert (c <> "-"%char /\ c <> "+"%char) as [Hm Hp].
  { cbn [all_chars] in Hd. apply andb_true_iff in Hd as [Hd _]. by split; intros ->. }
  replace (match String c s with String "-" r => (true, r) | String "+" r => (false, r) | _ => (false, String c s) end)
    with (false, String c s) by (by destruct c as [[] [] [] [] [] [] [] []]).
  pose proof (span_digits_app (String c s) "" Hd eq_refl) as Hsp. rewrite str_app_nil_r in Hsp. rewrite Hsp.
  rewrite str_app_nil_r. rewrite bool_decide_false by done. rewrite Hv. cbn [mbind option_bind].
  cbn [parse_exponent String.length mbind option_bind]. change (0 - Z.of_nat 0) with 0.
  destruct (Z.eqb_spec n 0) as [->|Hz]; [exists 0; split; [done|lia]|].
  change (10 ^ Z.max 0 0) with 1. change (10 ^ Z.max 0 (- 0)) with 1. rewrite Z.mul_1_r.
  destruct (round_float_exact n) as (e & -> & He); [lia|]. exists e. split; [|done].
  rewrite (proj2 (Z.ltb_lt _ _)); [done|].
  rewrite Z.log2_mul_pow2 by lia. assert (Z.log2 n < 53) by (apply Z.log2_lt_pow2; lia). lia.
Qed.

Lemma float_to_uint64_exact n e shift :
  0 <= n -> -53 <= e <= 0 -> 0 <= shift -> n * 2 ^ shift < 2 ^ 64 ->
  float_to_uint64 {| f_neg := false; f_mant := n * 2 ^ (- e); f_exp := e |} shift = n * 2 ^ shift.
Proof.
  intros Hn He Hs Hb. unfold float_to_uint64. cbn [f_neg f_mant f_exp].
  assert ((if 0 <=? e + shift then n * 2 ^ (- e) * 2 ^ (e + shift)
           else n * 2 ^ (- e) / 2 ^ (- (e + shift))) = n * 2 ^ shift) as ->.
  { destruct (Z.leb_spec 0 (e + shift)).
    - rewrite <-Z.mul_assoc, <-Z.pow_add_r by lia. do 2 f_equal. lia.
    - replace (- e) with (shift + (- (e + shift))) by lia.
      rewrite Z.pow_add_r, Z.mul_assoc by lia. apply Z.div_mul. apply Z.pow_nonzero; lia. }
  pose proof (Z.pow_nonneg 2 shift).
  rewrite (proj2 (Z.ltb_ge _ _)) by nia. rewrite (proj2 (Z.ltb_lt _ _)) by done. apply Z.mod_small. nia.
Qed.

(** The last character of a numeral, or of a numeral with a unit. *)
Lemma last_char_app s c : last_char (s +:+ String c "") = Some c.
Proof.
  unfold last_char. rewrite str_length_app. cbn [String.length].
  replace (String.length s + 1 - 1)%nat with (String.length s) by lia.
  induction s as [|d s IH]; [done|]. done.
Qed.

Lemma last_char_digit s : s <> "" -> all_chars is_digit s = true -> exists c, last_char s = Some c /\ is_digit c = true.
Proof.
  unfold last_char. induction s as [|d s IH]; [done|]. intros _ Hd. cbn [all_chars] in Hd.
  apply andb_true_iff in Hd as [Hd Hs].
  replace (String.length (String d s) - 1)%nat with (String.length s) by (simpl; lia).
  destruct s as [|d' s]; [by exists d|]. destruct IH as (c & Hc & Hdc); [done|done|].
  replace (String.length (String d' s) - 1)%nat with (String.length s) in Hc by (simpl; lia).
  exists c. by split.
Qed.

(** Integer sizes are parsed exactly.  For every [n < 2^53],
    [ParseToBytes] reads the numeral of [n] as MiB, and the numeral followed by
    a unit letter as that unit, without rounding, as long as the bytes fit in
    64 bits. *)
Theorem ParseToBytes_exact n :
  0 <= n < 2 ^ 53 ->
  (n * 2 ^ 20 < 2 ^ 64 -> ParseToBytes (pretty n) = Ok (n * 2 ^ 20)) /\
  (forall c shift, unit_shift c = Some shift -> n * 2 ^ shift < 2 ^ 64 ->
     ParseToBytes (pretty n +:+ String c "") = Ok (n * 2 ^ shift)).
Proof.
  intros Hn. destruct (pretty_Z_digits n) as (Hd & Hne & _); [lia|].
  destruct (ParseFloat_pretty n Hn) as (e & Hf & He). split.
  - intros Hb. unfold ParseToBytes. destruct (last_char_digit (pretty n)) as (c & -> & ->); [done..|].
    rewrite Hf. cbn. f_equal. by apply float_to_uint64_exact; [lia| |done|].
  - intros c shift Hu Hb. unfold ParseToBytes. rewrite last_char_app.
    assert (is_digit c = false) as ->.
    { unfold unit_shift in Hu. destruct (is_digit c) eqn:E; [|done]. exfalso.
      rewrite !bool_decide_false in Hu; [done|..]; by intros [->| ->]. }
    assert (0 <= shift) as Hsh.
    { unfold unit_shift in Hu. repeat case_bool_decide; simplify_eq; lia. }
    rewrite str_length_app. cbn [String.length].
    replace (String.length (pretty n) + 1 - 1)%nat with (String.length (pretty n)) by lia.
    rewrite str_take_app, Hf, Hu. f_equal. by apply float_to_uint64_exact; lia.
Qed.

(** ** References of a mount *)

(** The entry of the table that a path lies on: the last one that covers it. *)
Definition lies_on (path : string) (mis : list mountInfo) (m : mountInfo) : Prop :=
  exists l1 l2, mis = l1 ++ m :: l2 /\ covers path m = true /\ Forall (fun mi => covers path mi = false) l2.
(** Another mount of the device of an entry. *)
Definition refers (m mi : mountInfo) : Prop := id mi <> id m /\ majorMinor mi = majorMinor m /\ fsType mi = fsType m.
(** The only other mount of the device. *)
Definition sole_reference (m : mountInfo) (mis : list mountInfo) (mi : mountInfo) : Prop :=
  exists l1 l2, mis = l1 ++ mi :: l2 /\ refers m mi /\ Forall (fun x => ~ refers m x) (l1 ++ l2).

Lemma search_mounts_lies_on path mis refs :
  search_mounts path mis = Ok refs ->
  exists m, lies_on path mis m /\
    refs = omap (fun mi => if decide (refers m mi) then Some (mountPoint mi) else None) mis.
Proof.
  unfold search_mounts. destruct (find_last _ mis) as [m|] eqn:Ef; [|done].
  apply find_last_Some in Ef as (Hc & l1 & l2 & Hl & Hall).
  destruct (_ || _); [done|]. intros [= <-]. exists m. split; [by exists l1, l2|].
  apply list_omap_ext, Forall_Forall2_diag, Forall_forall. intros mi _. unfold refers.
  repeat case_bool_decide; case_decide; naive_solver.
Qed.

(** A list of one reference is that of the sole reference. *)
Lemma sole_reference_spec m mis refs :
  refs = omap (fun mi => if decide (refers m mi) then Some (mountPoint mi) else None) mis ->
  (forall mi, sole_reference m mis mi -> refs = [mountPoint mi]) /\
  (forall p, refs = [p] -> exists mi, sole_reference m mis mi /\ mountPoint mi = p).
Proof.
  assert (forall l, Forall (fun x => ~ refers m x) l <->
    omap (fun mi => if decide (refers m mi) then Some (mountPoint mi) else None) l = []) as Hnone.
  { induction l as [|x l IH]; [by split|]. rewrite Forall_cons, IH. cbn. case_decide; naive_solver. }
  intros ->. split.
  - intros mi (l1 & l2 & -> & Hr & [H1%Hnone H2%Hnone]%Forall_app). rewrite omap_app, H1. cbn.
    by rewrite decide_True, H2.
  - intros p. induction mis as [|x l IH]; [done|]. cbn. case_decide as Hx.
    + intros [= <- Hl%Hnone]. exists x. split; [|done]. by exists [], l.
    + intros (mi & (l1 & l2 & -> & Hr & Hall) & Hp)%IH. exists mi. split; [|done]. exists (x :: l1), l2. by split_and!; [..|constructor].
Qed.

(** A table read consistently: twice in a row the same content. *)
Definition table_read (t : jtrace) (mis : list mountInfo) : Prop :=
  exists t0 content,
    t = t0 ++ [ev (S := jfs) (ReadFile procMountInfoPath) (Ok content);
               ev (S := jfs) (ReadFile procMountInfoPath) (Ok content)] /\
    parse_mount_lines (Split content (String "010" "")) = Ok mis.

Lemma read_again_ok f a n old t content :
  runs (read_again f a n old) t (Done (Ok content)) ->
  exists t0, ev (S := jfs) (ReadFile f) (Ok old) :: t =
             t0 ++ [ev (S := jfs) (ReadFile f) (Ok content); ev (S := jfs) (ReadFile f) (Ok content)].
Proof.
  revert old t. induction n as [|n IH]; intros old t; cbn [read_again]; [by intros []|].
  intros ([c|e] & t' & -> & Hr); prog_simpl_in Hr; [|by destruct Hr].
  case_bool_decide as Hc.
  - destruct Hr as [-> [= ->]]. subst old. by exists [].
  - apply IH in Hr as (t0 & Ht). eexists (_ :: t0). cbn. by rewrite <-Ht.
Qed.

Lemma parseMountInfo_ok t mis :
  runs (parseMountInfo procMountInfoPath) t (Done (Ok mis)) -> table_read t mis.
Proof.
  intros [(t1 & t2 & [c|e] & -> & H1 & H2)|(? & _ & ?)]%runs_bind; [|by destruct H2|done].
  destruct H2 as [-> [= Hp]]. rewrite app_nil_r.
  destruct H1 as ([old|e] & t' & -> & H1); prog_simpl_in H1; [|by destruct H1].
  apply read_again_ok in H1 as (t0 & ->). by exists t0, c.
Qed.

(** The path of the target without symbolic links; of a corrupted target, whose
    own name cannot be looked up, its directory's. *)
Definition resolves (target path : string) (corrupted : bool) (t : jtrace) : Prop :=
  if corrupted
  then let target := TrimSuffix target "/" in
       exists dir, ev (S := jfs) (EvalSymlinks (filepath_Dir target)) (Ok dir) ∈ t /\
         path = path_Join [dir; filepath_Base target]
  else ev (S := jfs) (EvalSymlinks target) (Ok path) ∈ t.

(** The references of a target: its path, the table, and its entry there. *)
Definition located (target : string) (t : jtrace) (mis : list mountInfo) (m : mountInfo) : Prop :=
  exists path corrupted, resolves target path corrupted t /\ table_read t mis /\ lies_on path mis m.

Lemma GetMountDeviceRefs_ok target corrupted t refs :
  runs (GetMountDeviceRefs target corrupted) t (Done (Ok refs)) ->
  exists mis m, located target t mis m /\
    refs = omap (fun mi => if decide (refers m mi) then Some (mountPoint mi) else None) mis.
Proof.
  intros (t1 & t2 & path & -> & H1 & H2)%runs_bindR_ok.
  apply runs_bindR_ok in H2 as (t3 & t4 & mis & -> & H2 & [-> [= Hs]]). rewrite app_nil_r.
  apply parseMountInfo_ok in H2 as (t0 & c & -> & Hp). symmetry in Hs. apply search_mounts_lies_on in Hs as (m & Hm & ->).
  exists mis, m. split; [|done]. exists path, corrupted. split_and!; [|by exists (t1 ++ t0), c; rewrite app_assoc|done].
  destruct corrupted; cbn [resolves].
  - apply runs_bindR_ok in H1 as (t5 & t6 & dir & -> & (r & t7 & -> & [-> [= <-]]) & [-> [= ->]]).
    exists dir. split; [|done]. set_solver.
  - destruct H1 as (r & t7 & -> & [-> [= <-]]). set_solver.
Qed.

Definition mounts_or_unmounts (c : jfs_cmd) : bool :=
  match c with Mount _ _ _ _ | Unmount _ | LazyUmount _ | RemoveAll _ | RemoveFile _ => true | _ => false end.

Lemma GetMountDeviceRefs_reads target corrupted :
  avoids (S := jfs) mounts_or_unmounts (GetMountDeviceRefs target corrupted).
Proof.
  unfold GetMountDeviceRefs, searchMountPoints, parseMountInfo, ConsistentRead.
  assert (forall n s, avoids (S := jfs) mounts_or_unmounts (read_again procMountInfoPath maxListTries n s)) as Hr.
  { induction n as [|k IH]; intros s; cbn [read_again]; solve_avoids; auto. }
  solve_avoids; auto.
Qed.

(** What unmounting a target in the driver's process may unmount. *)
Definition process_unmounts (target : string) (t : jtrace) (c : jfs_cmd) : Prop :=
  match c with
  | Unmount p => exists t0 t1 mis m, t = t0 ++ t1 /\ located target t0 mis m /\
      (p = target /\ t1 = [] \/
       t1 = [ev (S := jfs) (Unmount target) None] /\ exists mi, sole_reference m mis mi /\ mountPoint mi = p)
  | Mount _ _ _ _ | LazyUmount _ | RemoveAll _ | RemoveFile _ => False
  | _ => True
  end.

Lemma located_app target t t' mis m : located target t' mis m -> located target (t ++ t') mis m.
Proof.
  intros (path & corrupted & Hr & (t0 & c & -> & Hp) & Hm). exists path, corrupted. split_and!; [|by exists (t ++ t0), c; rewrite app_assoc|done].
  destruct corrupted; cbn [resolves] in *; [|by apply elem_of_app; right].
  destruct Hr as (dir & Hd & ->). exists dir. split; [|done]. apply elem_of_app. by right.
Qed.

Definition untouched (t : jtrace) : Prop := Forall (fun e => mounts_or_unmounts (projT1 e) = false) t.

(** The references of an entry. *)
Definition refs_of (m : mountInfo) (mis : list mountInfo) : list string :=
  omap (fun mi => if decide (refers m mi) then Some (mountPoint mi) else None) mis.

Lemma Process_JUmount_runs target t o :
  runs (Process_JUmount target) t o ->
  untouched t \/
  exists t0 t1 mis m, t = t0 ++ t1 /\ untouched t0 /\ located target t0 mis m /\
    runs (wrapE ("could not unmount " +:+ target +:+ ": ") (sys (Unmount target)) ?;;
          match refs_of m mis with [ref] => sys (Unmount ref) | _ => Ret None end) t1 o.
Proof.
  assert (forall A (p : M A) t o, avoids (S := jfs) mounts_or_unmounts p -> runs p t o -> untouched t) as Hq.
  { intros A p t' o' Ha Hr. apply (never_spec (S := jfs) (fun e => mounts_or_unmounts (projT1 e))). by eapply avoids_runs. }
  assert (avoids (S := jfs) mounts_or_unmounts (probe_target target)) as Hprobe.
  { unfold probe_target, check_timeout, DoWithTimeout, wrapR, go. solve_avoids. }
  assert (forall c, avoids (S := jfs) mounts_or_unmounts (wrapR "fail to get mount device refs: " (GetMountDeviceRefs target c))) as Hrefs.
  { intros c. unfold wrapR. pose proof GetMountDeviceRefs_reads. solve_avoids; auto. }
  unfold Process_JUmount. intros [(t1 & t2 & r & -> & H1 & H2)|(s & H1 & ->)]%runs_bind; [|left; by eapply Hq].
  pose proof (Hq _ _ _ _ Hprobe H1) as Hn1.
  destruct r as [[corrupted|]|e]; [|destruct H2 as [-> _]; left; by rewrite app_nil_r..].
  apply runs_bind in H2 as [(t3 & t4 & r & -> & H3 & H4)|(s & H2 & ->)]; [|left; apply Forall_app; split; [done|by eapply (Hq _ _ _ _ (Hrefs corrupted))]].
  pose proof (Hq _ _ _ _ (Hrefs corrupted) H3) as Hn3.
  destruct r as [refs|e]; [|destruct H4 as [-> _]; left; rewrite app_nil_r; by apply Forall_app].
  apply runs_bind_done in H3 as (t5 & t6 & [refs'|e] & -> & H3 & [-> [= ->]]).
  apply GetMountDeviceRefs_ok in H3 as (mis & m & Hl & ->). rewrite app_nil_r in *. right.
  exists (t1 ++ t5), t4, mis, m. split_and!; [by rewrite app_assoc|by apply Forall_app|by apply located_app|done].
Qed.

Lemma untouched_allowed target t c : mounts_or_unmounts c = false -> process_unmounts target t c.
Proof. by destruct c. Qed.


(** ** Readiness *)

(** A mount is reported only when it is there.  When the community mount
    in the driver's process succeeds, the last thing it saw is the mount path
    with inode 1, the root of a JuiceFS file system. *)
Theorem ce_jmount_ready fuel source mountPath options envs t :
  runs (ce_jmount fuel source mountPath options envs) t (Done None) ->
  exists t0 fi dev, t = t0 ++ [ev (S := jfs) (Stat mountPath) (Ok fi)] /\ fi_stat fi = Some (1, dev).
Proof.
  intros [(t1 & t2 & [e|] & -> & _ & H2)|(? & _ & ?)]%runs_bind; [by destruct H2| |done].
  apply runs_bind in H2 as [(t3 & t4 & [e|] & -> & _ & H2)|(? & _ & ?)]; [by destruct H2| |done].
  destruct H2 as (environ & t5 & -> & H2). cbn [bind] in H2.
  apply runs_bind in H2 as [(t6 & t7 & l & -> & _ & H2)|(? & _ & ?)]; [|done].
  apply runs_bind in H2 as [(t8 & t9 & [] & -> & _ & H2)|(? & _ & ?)]; [|done].
  apply runs_bind in H2 as [(t10 & t11 & [|] & -> & H2 & H3)|(? & _ & ?)]; [| |done].
  2: { destruct (StripPasswd source); by destruct H3. }
  destruct H3 as [-> _]. rewrite app_nil_r.
  assert (exists t0 fi dev, t10 = t0 ++ [ev (S := jfs) (Stat mountPath) (Ok fi)] /\ fi_stat fi = Some (1, dev))
    as (t0 & fi & dev & -> & Hf).
  2: { exists (t1 ++ t3 ++ ev (S := jfs) Environ environ :: t6 ++ t8 ++ t0), fi, dev. split; [|done].
       by rewrite <- !app_assoc, <-app_comm_cons, <- !app_assoc. }
  clear -H2. revert t10 H2. induction fuel as [|n IH]; intros t; cbn [loop]; [by intros []|].
  intros [(t1 & t2 & [[]|b] & -> & H1 & H2)|(? & _ & ?)]%runs_bind; [| |done].
  - apply IH in H2 as (t0 & fi & dev & -> & Hf). exists (t1 ++ t0), fi, dev. by rewrite app_assoc.
  - destruct H2 as [-> [= <-]]. rewrite app_nil_r.
    apply runs_bind in H1 as [(t3 & t4 & r & -> & H1 & H2)|(? & _ & ?)]; [|done].
    destruct r as [fi|e].
    + unfold DoWithTimeout in H1. destruct H1 as ([e|] & t5 & -> & H1); cbn [bind] in H1.
      { apply runs_bind in H1 as [(? & ? & ? & _ & _ & [_ ?])|(? & _ & ?)]; done. }
      destruct H1 as (r & t6 & -> & [-> [= <-]]).
      destruct (fi_stat fi) as [[[|[]|] dev]|] eqn:Ef; try by destruct H2 as (? & ? & _ & [_ ?]).
      destruct H2 as [-> _]. exists [ev (S := jfs) (AwaitDone (WithTimeout (WithTimeout Caller (30 * Second)) defaultCheckTimeout)) None], fi, dev.
      by rewrite app_nil_r.
    + destruct (is_ctx_error e); [by destruct H2|by destruct H2 as (? & ? & _ & [_ ?])].
Qed.
