(* ===== verification/DriverFacts.v ===== *)
(** * Properties of the CSI services

    The volume locks exclude the handlers of [DeleteVolume] from each other in
    every interleaving; the provisioner deletes only what no other volume
    uses; what the controller remembers of a volume; the statistics of a
    volume. *)
From S2P Require Import Prelude.
From S2P Require Import GoStrings.
From S2P Require Import K8s.
From S2P Require Import GoTime.
From S2P Require Import Prog.
From S2P Require Import Effects.
From S2P Require Import Config.
From S2P Require Import Util.
From S2P Require Import MountRefs.
From S2P Require Import PodUtil.
From S2P Require Import VolumeUtil.
From S2P Require Import Setting.
From S2P Require Import JfsSetting.
From S2P Require Import Builder.
From S2P Require Import PodMount.
From S2P Require Import ProcessMount.
From S2P Require Import Juicefs.
From S2P Require Import DriverServices.
From S2P Require Import PodMountFacts.
From S2P Require Import ProcessFacts.
#[local] Open Scope Z_scope.
#[local] Open Scope go_scope.

(** ** What deleting a volume never does *)

(** Commands outside the deletion of a volume: the volume locks, the
    finalizers of secrets, the pods, the list of volumes. *)
Definition not_deletion (c : jfs_cmd) : bool :=
  match c with
  | TryAcquireVolume _ | ReleaseVolume _ | PatchSecret _ _ | CreatePod _ | DeletePod _
  | PatchPod _ _ | ListPersistentVolumes => true
  | _ => false
  end.
Abbreviation deletion := (avoids (S := jfs) not_deletion).

Section services.
Context `{Globals} `{Retry} `{QuantityParser} `{SettingCodec}.
Context (fuel : nat).

Lemma check_timeout_deletion {A} (p : M (res A)) : deletion p -> deletion (check_timeout p).
Proof. intros Hp. unfold check_timeout, DoWithTimeout, go. solve_avoids; auto. Qed.

Lemma jmount_deletion src mp opts envs : deletion (jmount fuel src mp opts envs).
Proof.
  unfold jmount, ce_jmount, jmount_step, wrapE, wrapR, check_timeoutE, check_timeout, DoWithTimeoutE, DoWithTimeout, go.
  solve_avoids.
Qed.

Lemma delete_volume_deletion b s : deletion (m_JDeleteVolume (mounter fuel b) s).
Proof.
  destruct b; cbn [mounter m_JDeleteVolume podMount processMount].
  - unfold JDeleteVolume, NewJobForDeleteVolume, newJob, run_volume_job, get_or_create_job, createOrUpdateSecret,
      waitUtilJobCompleted, job_step, IsJobShouldBeRecycled, getNotCompleteCnLog, first_log.
    unfold genCommonJuicePod, genJuiceVolumes. solve_avoids.
    apply RetryOnConflict_avoids; [done|]. unfold secret_attempt. solve_avoids.
  - pose proof jmount_deletion. unfold Process_JDeleteVolume, RmrDir, wrapE, wrapR. solve_avoids; auto.
    apply check_timeout_deletion. solve_avoids.
Qed.

Lemma Settings_deletion vi s v o : deletion (Settings vi s v o).
Proof.
  unfold Settings, Settings_by, volume_objects, client_command, AuthFs, ceFormat, no_update_config, GetJfsVolUUID, run_client.
  solve_avoids.
Qed.

Lemma genJfsSettings_deletion vi t s v o : deletion (genJfsSettings vi t s v o).
Proof.
  pose proof Settings_deletion.
  unfold genJfsSettings, getUniqueId, set_cache_uuid, GetJfsVolUUID, provider_locked, mutex_locked. solve_avoids; auto.
  all: apply avoids_with_unlock; [done|]; solve_avoids.
Qed.

Lemma JfsDeleteVol_deletion volumeID subPath secrets volCtx options :
  deletion (JfsDeleteVol fuel volumeID subPath secrets volCtx options).
Proof.
  pose proof genJfsSettings_deletion. pose proof delete_volume_deletion.
  unfold JfsDeleteVol, delete_source, JfsCleanupMountPoint, DoWithTimeoutE, go. solve_avoids; auto.
Qed.

End services.

(** ** Volume locks *)

(** What a handler has done with the lock of its volume. *)
Inductive holder := Unlocked | Holding | Over.

Definition lock_event (id : string) (h : holder) (e : event jfs) : option holder :=
  match e with
  | existT c a =>
      match c return jfs_answer c -> option holder with
      | TryAcquireVolume i => fun b =>
          match h with
          | Unlocked => if bool_decide (i = id) then Some (if b then Holding else Over) else None
          | _ => None
          end
      | ReleaseVolume i => fun _ =>
          match h with Holding => if bool_decide (i = id) then Some Over else None | _ => None end
      | _ => fun _ => match h with Holding => Some Holding | _ => None end
      end a
  end.

(** The run of a handler so far; [None] when it breaks the protocol. *)
Definition holder_after (id : string) (t : jtrace) : option holder :=
  foldl (fun h e => h ← h; lock_event id h e) (Some Unlocked) t.

Lemma holder_after_snoc id t e :
  holder_after id (t ++ [e]) = (h ← holder_after id t; lock_event id h e).
Proof. unfold holder_after. by rewrite foldl_app. Qed.

Lemma holder_after_prefix id t1 t2 : is_Some (holder_after id (t1 ++ t2)) -> is_Some (holder_after id t1).
Proof.
  induction t2 as [|e t2 IH] using rev_ind; [by rewrite app_nil_r|].
  rewrite app_assoc, holder_after_snoc. intros Hs. apply IH. by destruct (holder_after id (t1 ++ t2)).
Qed.

(** Holding the lock of a volume after a history. *)
Definition holds (id : string) (t : jtrace) : Prop :=
  ev (S := jfs) (TryAcquireVolume id) true ∈ t /\ ev (S := jfs) (ReleaseVolume id) tt ∉ t.

(** The cases of a step of the protocol. *)
Lemma lock_event_inv id h e h' :
  lock_event id h e = Some h' ->
  (h = Unlocked /\ exists b : bool, e = ev (S := jfs) (TryAcquireVolume id) b /\ h' = if b then Holding else Over) \/
  (h = Holding /\ h' = Over /\ e = ev (S := jfs) (ReleaseVolume id) tt) \/
  (h = Holding /\ h' = Holding /\ forall i, projT1 e <> TryAcquireVolume i /\ projT1 e <> ReleaseVolume i).
Proof.
  destruct e as [c a]. cbn [lock_event projT1].
  destruct c; destruct h; intros Hl; try discriminate Hl.
  all: try (injection Hl as <-; right; right; split_and!; done).
  - case_bool_decide; [|done]. injection Hl as <-. subst. left. split; [done|]. by exists a.
  - case_bool_decide; [|done]. injection Hl as <-. subst. right; left. by destruct a.
Qed.

Definition acquired (e : event jfs) : bool :=
  match e with
  | existT c a =>
      match c return jfs_answer c -> bool with TryAcquireVolume _ => fun b => b | _ => fun _ => false end a
  end.

Lemma holder_after_spec id t h :
  holder_after id t = Some h ->
  (h = Unlocked -> t = []) /\ (h = Holding <-> holds id t).
Proof.
  revert h. induction t as [|e t IH] using rev_ind; intros h.
  { intros [= <-]. split; [done|]. split; [done|]. intros [Hin _]. by apply elem_of_nil in Hin. }
  rewrite holder_after_snoc. intros (h0 & Hh & Hl)%bind_Some.
  destruct (IH _ Hh) as (IH1 & IH2). unfold holds. rewrite !elem_of_app, !list_elem_of_singleton.
  destruct (lock_event_inv _ _ _ _ Hl) as [(-> & b & -> & ->)|[(-> & -> & ->)|(-> & -> & Hn)]].
  - rewrite (IH1 eq_refl) in *. split; [by destruct b|].
    destruct b; split; try done.
    + intros _. split; [by right|]. intros [Hin|E]; [by apply elem_of_nil in Hin|done].
    + intros [[Hin|E] _]; [by apply elem_of_nil in Hin|]. by apply (f_equal acquired) in E.
  - split; [done|]. split; [done|]. intros [_ Hn]. by destruct Hn; right.
  - split; [done|]. split; [intros _|done].
    destruct IH2 as [IH2 _]. destruct (IH2 eq_refl) as [Ht Hr]. split; [by left|].
    intros [Hi|E]; [done|]. subst e. by destruct (Hn id).
Qed.

(** ** Interleavings of handlers *)

(** The events of all handlers in their order, tagged with the handler. *)
Abbreviation schedule := (list (nat * event jfs)).
Definition handler (i : nat) (tr : schedule) : jtrace := (List.filter (fun x => Nat.eqb x.1 i) tr).*2.

(** The lock table, whose answers are those of [TryAcquire]; [None] for an
    answer it does not give. *)
Definition table_step (e : event jfs) (vl : VolumeLocks) : option VolumeLocks :=
  match e with
  | existT c a =>
      match c return jfs_answer c -> option VolumeLocks with
      | TryAcquireVolume id => fun b =>
          let r := TryAcquire id vl in if Bool.eqb b r.1 then Some r.2 else None
      | ReleaseVolume id => fun _ => Some (Release id vl)
      | _ => fun _ => Some vl
      end a
  end.
Definition table_after (vl : VolumeLocks) (tr : schedule) : option VolumeLocks :=
  foldl (fun vl x => vl ← vl; table_step x.2 vl) (Some vl) tr.

Lemma table_after_snoc vl tr x : table_after vl (tr ++ [x]) = (vl ← table_after vl tr; table_step x.2 vl).
Proof. unfold table_after. by rewrite foldl_app. Qed.

Lemma handler_snoc i tr k e : handler i (tr ++ [(k, e)]) = handler i tr ++ (if Nat.eqb k i then [e] else []).
Proof.
  unfold handler. rewrite List.filter_app, fmap_app. cbn [List.filter fst]. by destruct (Nat.eqb k i).
Qed.

(** The table holds exactly the volumes of the handlers that hold one, and no
    two of them hold the same. *)
Definition table_inv (ids : list string) (tr : schedule) (vl : VolumeLocks) : Prop :=
  (forall id, id ∈ vl <-> exists i, ids !! i = Some id /\ holder_after id (handler i tr) = Some Holding) /\
  (forall i j id, ids !! i = Some id -> ids !! j = Some id ->
     holder_after id (handler i tr) = Some Holding -> holder_after id (handler j tr) = Some Holding -> i = j).

Lemma table_step_inv ids tr vl k e id h h' vl' :
  table_inv ids tr vl -> ids !! k = Some id ->
  holder_after id (handler k tr) = Some h -> lock_event id h e = Some h' -> table_step e vl = Some vl' ->
  table_inv ids (tr ++ [(k, e)]) vl'.
Proof.
  intros [Hin Huniq] Hk Hh Hl Hs.
  assert (forall i j, ids !! i = Some j -> holder_after j (handler i (tr ++ [(k, e)])) =
            if Nat.eqb k i then Some h' else holder_after j (handler i tr)) as Hnew.
  { intros i j Hi. rewrite handler_snoc. destruct (Nat.eqb_spec k i) as [<-|Hne]; [|by rewrite app_nil_r].
    rewrite Hk in Hi. injection Hi as <-. rewrite holder_after_snoc, Hh. done. }
  assert (forall j, holder_after id (handler j tr) = Some Holding -> ids !! j = Some id ->
            h <> Holding -> k <> j) as Hother by (intros j Hj _ Hn <-; congruence).
  destruct (lock_event_inv _ _ _ _ Hl) as [(-> & b & -> & ->)|[(-> & -> & ->)|(-> & -> & Hn)]].
  - cbn in Hs. unfold TryAcquire in Hs.
    destruct (bool_decide (id ∈ vl)) eqn:E; destruct b; cbn in Hs; try discriminate Hs; injection Hs as <-.
    + split.
      * intros j. rewrite Hin. split; intros (i & Hi & Hh').
        -- exists i. split; [done|]. rewrite (Hnew _ _ Hi).
           destruct (Nat.eqb_spec k i) as [<-|]; [congruence|done].
        -- rewrite (Hnew _ _ Hi) in Hh'. destruct (Nat.eqb_spec k i); [done|eauto].
      * intros i j id' Hi Hj. rewrite (Hnew _ _ Hi), (Hnew _ _ Hj).
        destruct (Nat.eqb_spec k i), (Nat.eqb_spec k j); try done. by apply Huniq.
    + apply bool_decide_eq_false in E.
      assert (forall i, ids !! i = Some id -> holder_after id (handler i tr) <> Some Holding) as Hnone.
      { intros i Hi Hh'. apply E, Hin. by exists i. }
      split.
      * intros j. rewrite elem_of_union, elem_of_singleton, Hin. split.
        -- intros [->|(i & Hi & Hh')]; [exists k; by rewrite (Hnew _ _ Hk), Nat.eqb_refl|].
           exists i. split; [done|]. rewrite (Hnew _ _ Hi). by destruct (Nat.eqb_spec k i).
        -- intros (i & Hi & Hh'). rewrite (Hnew _ _ Hi) in Hh'.
           destruct (Nat.eqb_spec k i) as [<-|]; [left; congruence|right; eauto].
      * intros i j id' Hi Hj. rewrite (Hnew _ _ Hi), (Hnew _ _ Hj).
        destruct (Nat.eqb_spec k i) as [<-|], (Nat.eqb_spec k j) as [<-|]; try done; [..|by apply Huniq].
        -- intros _ Hh'. rewrite Hk in Hi. injection Hi as <-. by destruct (Hnone j).
        -- intros Hh' _. rewrite Hk in Hj. injection Hj as <-. by destruct (Hnone i).
  - cbn in Hs. injection Hs as <-. split.
    + intros j. unfold Release. rewrite elem_of_difference, elem_of_singleton, Hin. split.
      * intros [(i & Hi & Hh') Hne]. exists i. split; [done|]. rewrite (Hnew _ _ Hi).
        destruct (Nat.eqb_spec k i) as [<-|]; [congruence|done].
      * intros (i & Hi & Hh'). rewrite (Hnew _ _ Hi) in Hh'. destruct (Nat.eqb_spec k i) as [|Hki]; [done|].
        split; [eauto|]. intros ->. by apply Hki, (Huniq k i id).
    + intros i j id' Hi Hj. rewrite (Hnew _ _ Hi), (Hnew _ _ Hj).
      destruct (Nat.eqb_spec k i), (Nat.eqb_spec k j); try done. by apply Huniq.
  - assert (vl' = vl) as -> by (destruct e as [[] ?]; cbn in *; try congruence; by destruct (Hn id0)).
    assert (forall i j, ids !! i = Some j -> holder_after j (handler i (tr ++ [(k, e)])) = Some Holding <->
              holder_after j (handler i tr) = Some Holding) as Hsame.
    { intros i j Hi. rewrite (Hnew _ _ Hi). destruct (Nat.eqb_spec k i) as [<-|]; [|done]. split; [congruence|done]. }
    split.
    + intros j. rewrite Hin. split; intros (i & Hi & Hh'); exists i; (split; [done|]); by apply (Hsame i j Hi).
    + intros i j id' Hi Hj Hhi Hhj. apply (Hsame _ _ Hi) in Hhi. apply (Hsame _ _ Hj) in Hhj. eauto.
Qed.

Lemma schedule_inv ids tr vl :
  (forall i id, ids !! i = Some id -> is_Some (holder_after id (handler i tr))) ->
  Forall (fun x => is_Some (ids !! x.1)) tr ->
  table_after ∅ tr = Some vl -> table_inv ids tr vl.
Proof.
  revert vl. induction tr as [|[k e] tr IH] using rev_ind; intros vl Hids Hk Ht.
  { injection Ht as <-. split; [|by intros i j id _ _ ?].
    intros id. rewrite elem_of_empty. split; [done|]. by intros (i & _ & ?). }
  rewrite Forall_app, Forall_singleton in Hk. destruct Hk as [Htr [id Hk]].
  rewrite table_after_snoc in Ht. apply bind_Some in Ht as (vl0 & Ht & Hs).
  assert (forall i id, ids !! i = Some id -> is_Some (holder_after id (handler i tr))) as Hpre.
  { intros i j Hi. apply Hids in Hi. rewrite handler_snoc in Hi. by eapply holder_after_prefix. }
  pose proof (Hids _ _ Hk) as [h' Hh']. rewrite handler_snoc, Nat.eqb_refl, holder_after_snoc in Hh'.
  apply bind_Some in Hh' as (h & Hh & Hl). eapply table_step_inv; eauto.
Qed.

Lemma holder_after_deletion id t t' :
  holder_after id t = Some Holding -> Forall (fun e : event jfs => not_deletion (projT1 e) = false) t' ->
  holder_after id (t ++ t') = Some Holding.
Proof.
  intros Ht. induction t' as [|e t' IH] using rev_ind; [by rewrite app_nil_r|].
  rewrite Forall_app, Forall_singleton, app_assoc, holder_after_snoc. intros [Hf He].
  rewrite (IH Hf). by destruct e as [[] ?].
Qed.

Section exclusion.
Context `{Globals} `{Retry} `{QuantityParser} `{SettingCodec}.
Context (fuel : nat).

Lemma DeleteVolume_protocol vols id secrets t o :
  runs (DeleteVolume fuel vols id secrets) t o ->
  exists h, holder_after id t = Some h /\ (o <> Halted NoFuel -> h <> Holding).
Proof.
  unfold DeleteVolume. intros Hr.
  case_bool_decide; [destruct Hr as [-> _]; by exists Unlocked|].
  destruct (CheckDynamicPV id); cbn [negb] in Hr; [|destruct Hr as [-> _]; by exists Unlocked].
  case_bool_decide; [destruct Hr as [-> _]; by exists Unlocked|].
  destruct Hr as (b & t' & -> & Hr). cbn [bind] in Hr.
  assert (holder_after id [ev (S := jfs) (TryAcquireVolume id) b] =
            Some (if b : bool then Holding else Over)) as Hb.
  { unfold holder_after. cbn. by rewrite bool_decide_true. }
  destruct b; cbn [negb] in Hr; [|destruct Hr as [-> _]; by exists Over].
  apply runs_deferred in Hr as (t1 & Hr & Hd & Hn).
  eapply avoids_runs in Hr; [|apply avoids_bind; [apply JfsDeleteVol_deletion|by intros [? []]]].
  apply never_spec in Hr.
  pose proof (holder_after_deletion _ _ _ Hb Hr) as Hh.
  assert (o = Halted NoFuel \/ o <> Halted NoFuel) as [Ho|Ho] by (destruct o as [|[|]]; [by right..|by left]).
  - rewrite (Hn Ho). by exists Holding.
  - destruct (Hd Ho) as [[] ->]. exists Over. split; [|done].
    change (holder_after id (([ev (S := jfs) (TryAcquireVolume id) true] ++ t1) ++
              [ev (S := jfs) (ReleaseVolume id) tt]) = Some Over).
    rewrite holder_after_snoc, Hh. cbn. by rewrite bool_decide_true.
Qed.

(** A handler's history is the beginning of a run. *)
Definition deleting (call : Vols * string * option smap) (t : jtrace) : Prop :=
  exists rest o, runs (DeleteVolume fuel call.1.1 call.1.2 call.2) (t ++ rest) o.

Lemma deleting_protocol call t : deleting call t -> is_Some (holder_after call.1.2 t).
Proof.
  intros (rest & o & (h & Hh & _)%DeleteVolume_protocol). eapply holder_after_prefix. by rewrite Hh.
Qed.

(** C25: the volume locks exclude.  Any number of [DeleteVolume] handlers run
    concurrently, each anywhere in its run, their events interleaved in any
    order in which the lock table answers as [TryAcquire] does.  Then no two
    handlers hold the lock of the same volume; whatever a handler does after
    asking for the lock of its volume it does while holding it; and when all
    handlers have returned, panics included, no lock is left. *)
Theorem DeleteVolume_exclusive (calls : list (Vols * string * option smap)) (tr : schedule) vl :
  (forall i call, calls !! i = Some call -> deleting call (handler i tr)) ->
  Forall (fun x => is_Some (calls !! x.1)) tr ->
  table_after ∅ tr = Some vl ->
  (forall i j a b, calls !! i = Some a -> calls !! j = Some b -> a.1.2 = b.1.2 ->
     holds a.1.2 (handler i tr) -> holds b.1.2 (handler j tr) -> i = j) /\
  (forall tr1 i e tr2 a, tr = tr1 ++ (i, e) :: tr2 -> calls !! i = Some a ->
     projT1 e = TryAcquireVolume a.1.2 \/ holds a.1.2 (handler i tr1)) /\
  ((forall i a, calls !! i = Some a -> exists o, o <> Halted NoFuel /\
      runs (DeleteVolume fuel a.1.1 a.1.2 a.2) (handler i tr) o) -> vl = ∅).
Proof.
  intros Hc Hk Ht.
  assert (forall i a, calls !! i = Some a -> (fun a => a.1.2) <$> calls !! i = Some a.1.2) as Hid by (by intros i a ->).
  destruct (schedule_inv ((fun a => a.1.2) <$> calls) tr vl) as [Hin Hu].
  { intros i id. rewrite list_lookup_fmap, fmap_Some. intros (a & Ha & ->). by apply deleting_protocol, Hc. }
  { eapply Forall_impl; [done|]. intros [i e] [a Ha]. cbn in *. by rewrite list_lookup_fmap, Ha. }
  { done. }
  setoid_rewrite list_lookup_fmap in Hin. setoid_rewrite list_lookup_fmap in Hu.
  assert (forall i a, calls !! i = Some a -> holds a.1.2 (handler i tr) ->
            holder_after a.1.2 (handler i tr) = Some Holding) as Hheld.
  { intros i a Ha Hh. destruct (deleting_protocol _ _ (Hc _ _ Ha)) as [h E].
    by rewrite E, (proj2 (proj2 (holder_after_spec _ _ _ E)) Hh). }
  split_and!.
  - intros i j a b Ha Hb Hab Hi Hj. apply (Hu i j a.1.2); [by apply Hid|rewrite Hab; by apply Hid|by apply Hheld|].
    rewrite Hab. by apply Hheld.
  - intros tr1 i e tr2 a -> Ha. apply Hc, deleting_protocol in Ha.
    rewrite cons_middle, app_assoc in Ha. unfold handler in Ha.
    rewrite List.filter_app, fmap_app in Ha. apply holder_after_prefix in Ha. fold (handler i (tr1 ++ [(i, e)])) in Ha.
    rewrite handler_snoc, Nat.eqb_refl, holder_after_snoc in Ha. destruct Ha as [h' (h & Hh & Hl)%bind_Some].
    pose proof (proj2 (holder_after_spec _ _ _ Hh)) as Hs.
    destruct (lock_event_inv _ _ _ _ Hl) as [(-> & b & -> & _)|[(-> & _)|(-> & _)]]; [by left|right; by apply Hs..].
  - intros Hdone. apply set_eq. intros id. rewrite elem_of_empty, Hin. split; [|done].
    intros (i & Hi & Hh). apply fmap_Some in Hi as (a & Ha & ->).
    destruct (Hdone _ _ Ha) as (o & Ho & (h & Hh' & Hn)%DeleteVolume_protocol).
    rewrite Hh in Hh'. injection Hh' as <-. by apply Hn.
Qed.
End exclusion.

(** ** The provisioner *)

(** No other live volume of the storage class has, under each of the keys, the
    attribute this volume has. *)
Definition unshared (keys : list string) (volume : PersistentVolume) (csi : CSIPersistentVolumeSource)
    (pvs : list PersistentVolume) : Prop :=
  forall pv, pv ∈ pvs -> same_class volume pv = true ->
    exists csi', pv_csi pv = Some csi' /\
      ~ Forall (fun k => sget (VolumeAttributes csi') k = sget (VolumeAttributes csi) k) keys.

Lemma none_shares_spec shared volume pvs :
  none_shares shared volume pvs = Some true ->
  forall pv, pv ∈ pvs -> same_class volume pv = true ->
    exists csi, pv_csi pv = Some csi /\ shared csi = false.
Proof.
  induction pvs as [|pv pvs IH]; cbn [none_shares]; intros Hn x Hx Hc; [by apply elem_of_nil in Hx|].
  apply elem_of_cons in Hx. destruct (same_class volume pv) eqn:E.
  - destruct (pv_csi pv) as [csi|] eqn:Ec; [|done]. destruct (shared csi) eqn:Es; [done|].
    destruct Hx as [->|Hx]; [by exists csi|by apply IH].
  - destruct Hx as [->|Hx]; [congruence|by apply IH].
Qed.

Section provisioner.
Context `{Globals} `{Retry} `{QuantityParser} `{SettingCodec}.
Context (fuel : nat).

(** What deleting a volume may do after a history.  The finalizer of the
    secret goes after the deletion succeeded. *)
Definition delete_writes (volume : PersistentVolume) (t : jtrace) (c : jfs_cmd) : Prop :=
  exists csi, pv_csi volume = Some csi /\
  match c with
  | ListPersistentVolumes | GetSecret _ _ => True
  | PatchSecret s d =>
      (exists pvs, ev (S := jfs) ListPersistentVolumes (Ok pvs) ∈ t /\
         unshared [ProvisionerSecretNamespace; ProvisionerSecretName] volume csi pvs) /\
      (exists ref secret, NodePublishSecretRef csi = Some ref /\
         ev (S := jfs) (GetSecret (sr_name ref) (sr_namespace ref)) (Ok secret) ∈ t /\
         s_meta s = with_finalizers (filter (fun f => f <> Finalizer) (Finalizers (s_meta secret))) (s_meta secret) /\
         d = JSONPatch [ReplaceList "/metadata/finalizers" (Finalizers (s_meta s))] /\
         exists t1 t2 t3 secrets, t = t1 ++ t2 ++ t3 /\
           runs (JfsDeleteVol fuel (Name (pv_meta volume)) (sget (VolumeAttributes csi) "subPath")
                   (Some (Data secret)) (Some (VolumeAttributes csi)) (pv_mountOptions volume))
             t2 (Done (secrets, None)))
  | _ =>
      sget (VolumeAttributes csi) "pathPattern" = "" \/
      exists pvs, ev (S := jfs) ListPersistentVolumes (Ok pvs) ∈ t /\ unshared ["subPath"] volume csi pvs
  end.

Lemma CheckForSubPath_unshared volume csi pattern t :
  pv_csi volume = Some csi -> runs (CheckForSubPath volume pattern) t (Done (Ok true)) ->
  pattern = "" \/
  exists pvs, ev (S := jfs) ListPersistentVolumes (Ok pvs) ∈ t /\ unshared ["subPath"] volume csi pvs.
Proof.
  unfold CheckForSubPath, pv_attribute. intros Hv Hr. case_bool_decide; [by left|right].
  rewrite Hv in Hr. cbn [fmap option_fmap option_map] in Hr. case_bool_decide; [by destruct Hr as [_ ?]|].
  destruct Hr as ([pvs|e] & t' & -> & Hr); cbn [bind] in Hr; [|by destruct Hr].
  destruct (none_shares _ volume pvs) as [[]|] eqn:E; cbn in Hr; try by destruct Hr.
  exists pvs. split; [by left|]. intros pv Hpv Hc.
  destruct (none_shares_spec _ _ _ E _ Hpv Hc) as (csi' & Hcsi & Hs). exists csi'. split; [done|].
  apply bool_decide_eq_false in Hs. rewrite Forall_singleton. done.
Qed.

Lemma CheckForSecretFinalizer_unshared volume csi t :
  pv_csi volume = Some csi -> runs (CheckForSecretFinalizer volume) t (Done (Ok true)) ->
  exists pvs, ev (S := jfs) ListPersistentVolumes (Ok pvs) ∈ t /\
    unshared [ProvisionerSecretNamespace; ProvisionerSecretName] volume csi pvs.
Proof.
  unfold CheckForSecretFinalizer. intros Hv Hr. rewrite Hv in Hr. cbn zeta in Hr.
  destruct (_ || _) in Hr; [by destruct Hr as [_ ?]|].
  destruct Hr as ([pvs|e] & t' & -> & Hr); cbn [bind] in Hr; [|by destruct Hr].
  destruct (none_shares _ volume pvs) as [[]|] eqn:E; cbn in Hr; try by destruct Hr.
  exists pvs. split; [by left|]. intros pv Hpv Hc.
  destruct (none_shares_spec _ _ _ E _ Hpv Hc) as (csi' & Hcsi & Hs). exists csi'. split; [done|].
  intros Hf. rewrite !Forall_cons in Hf. destruct Hf as (H1' & H2' & _). cbn beta in H1', H2'.
  by rewrite H1', H2', !bool_decide_true in Hs.
Qed.

Lemma delete_writes_deletion volume csi {A} (p : M A) t :
  pv_csi volume = Some csi ->
  sget (VolumeAttributes csi) "pathPattern" = "" \/
    (exists pvs, ev (S := jfs) ListPersistentVolumes (Ok pvs) ∈ t /\ unshared ["subPath"] volume csi pvs) ->
  deletion p -> issues (S := jfs) (delete_writes volume) p t.
Proof.
  intros Hv Hs Hp. apply (issues_weaken (S := jfs) (fun _ c => not_deletion c = false)).
  - intros t' c Hc. exists csi. split; [done|].
    assert (sget (VolumeAttributes csi) "pathPattern" = "" \/
      exists pvs, ev (S := jfs) ListPersistentVolumes (Ok pvs) ∈ t ++ t' /\ unshared ["subPath"] volume csi pvs) as Hs'.
    { destruct Hs as [Hs|(pvs & Hin & Hs)]; [by left|right]. exists pvs. split; [|done].
      apply elem_of_app. by left. }
    destruct c; done.
  - eapply issues_avoids; [|exact Hp]. done.
Qed.

Lemma release_secret_issues volume csi secret t :
  pv_csi volume = Some csi ->
  (exists ref, NodePublishSecretRef csi = Some ref /\
     ev (S := jfs) (GetSecret (sr_name ref) (sr_namespace ref)) (Ok secret) ∈ t) ->
  (exists t1 t2 secrets, t = t1 ++ t2 /\
     runs (JfsDeleteVol fuel (Name (pv_meta volume)) (sget (VolumeAttributes csi) "subPath")
             (Some (Data secret)) (Some (VolumeAttributes csi)) (pv_mountOptions volume))
       t2 (Done (secrets, None))) ->
  issues (S := jfs) (delete_writes volume) (release_secret volume csi secret) t.
Proof.
  intros Hv (ref & Href & Hsec) (t1 & t2 & secrets & -> & Hdel). unfold release_secret.
  case_bool_decide; [|done]. apply issues_bind.
  { unfold CheckForSecretFinalizer. rewrite Hv. cbn zeta. destruct (_ || _); [done|].
    split; [by exists csi|]. intros [pvs|e]; [|done]. cbn [bind]. by destruct (none_shares _ _ _). }
  intros t3 [[]|e] Hr; [|done..]. destruct (CheckForSecretFinalizer_unshared _ _ _ Hv Hr) as (pvs & Hpvs & Hun).
  apply issues_bind; [|done]. unfold RemoveSecretFinalizer. case_bool_decide; [|done].
  split; [|done]. exists csi. split; [done|]. split.
  - exists pvs. split; [|done]. apply elem_of_app. by right.
  - exists ref, secret. split_and!; [done| |done|done|].
    + apply elem_of_app. by left.
    + exists t1, t2, t3, secrets. by rewrite app_assoc.
Qed.

End provisioner.

(** ** Creating a volume *)

(** A request that passes the checks of its form. *)
Definition well_formed (req : CreateVolumeRequest) : Prop :=
  cv_Name req <> "" /\ cv_Capabilities req <> [] /\ isValidVolumeCapabilities (cv_Capabilities req) = true.

Definition asks_read_only (req : CreateVolumeRequest) : bool :=
  existsb (fun vc => bool_decide (vc_mode vc = MULTI_NODE_READER_ONLY)) (cv_Capabilities req).

(** The capacity recorded for the volume is smaller than the one asked for. *)
Definition outgrows (vols : Vols) (req : CreateVolumeRequest) : bool :=
  match vols !! cv_Name req with Some capa => capa <? cv_RequiredBytes req | None => false end.

Lemma CreateVolume_well_formed vols req :
  well_formed req ->
  CreateVolume vols req =
    if outgrows vols req
    then (vols, Err (StatusError AlreadyExists ("Volume: " +:+ cv_Name req +:+ ", capacity bytes: " +:+
                                                pretty (cv_RequiredBytes req))))
    else (<[ cv_Name req := cv_RequiredBytes req ]> vols, (CreateVolume ∅ req).2).
Proof.
  intros (Hn & Hc & Hv). unfold CreateVolume, outgrows.
  rewrite !bool_decide_false, Hv, lookup_empty by done. cbn [negb].
  destruct (match vols !! cv_Name req with Some _ => _ | None => _ end); [done|]. by destruct (existsb _ _).
Qed.

(** What the controller remembers of a volume.  A well-formed request
    that does not outgrow the recorded capacity replaces it, read-only
    requests, which are refused, included; repeating it then changes nothing
    and answers the same; a later request for more is refused as already
    existing, until the volume is deleted. *)
Theorem CreateVolume_remembers vols req req' :
  well_formed req -> well_formed req' -> cv_Name req' = cv_Name req -> outgrows vols req = false ->
  let vols' := (CreateVolume vols req).1 in
  vols' !! cv_Name req = Some (cv_RequiredBytes req) /\
  (forall n, n <> cv_Name req -> vols' !! n = vols !! n) /\
  CreateVolume vols' req = CreateVolume vols req /\
  (asks_read_only req = true -> exists msg, (CreateVolume vols req).2 = Err (StatusError InvalidArgument msg)) /\
  (cv_RequiredBytes req < cv_RequiredBytes req' -> exists msg,
     CreateVolume vols' req' = (vols', Err (StatusError AlreadyExists msg))).
Proof.
  intros Hw Hw' Hname Hfits. rewrite (CreateVolume_well_formed vols req Hw), Hfits. cbn [fst snd].
  split_and!.
  - apply lookup_insert_eq.
  - intros n Hn. by apply lookup_insert_ne.
  - rewrite CreateVolume_well_formed by done. unfold outgrows. rewrite lookup_insert_eq, Z.ltb_irrefl.
    by rewrite insert_insert_eq.
  - intros Hro. destruct Hw as (Hn & Hc & Hv). unfold CreateVolume.
    rewrite !bool_decide_false, Hv, lookup_empty by done. cbn [negb]. unfold asks_read_only in Hro. rewrite Hro.
    eexists. reflexivity.
  - intros Hlt. eexists. rewrite CreateVolume_well_formed by done. unfold outgrows.
    rewrite Hname, lookup_insert_eq. by rewrite (proj2 (Z.ltb_lt _ _) Hlt).
Qed.

(** ** The usage of a volume *)

Lemma int64_small x : 0 <= x < 2 ^ 63 -> int64 x = x.
Proof. intros Hx. unfold int64. rewrite Z.mod_small; lia. Qed.

Lemma usage_small total free :
  0 <= free <= total -> total < 2 ^ 63 ->
  usage total free = {| Available := free; Total := total; Used := total - free |}.
Proof. intros Hf Ht. unfold usage. by rewrite !int64_small by lia. Qed.

Definition exact_usage (unit_ total free : Z) : VolumeUsage :=
  {| Available := unit_ * free; Total := unit_ * total; Used := unit_ * (total - free) |}.

Lemma usage_wrapped unit_ total free :
  0 <= unit_ -> 0 <= free <= total -> unit_ * total < 2 ^ 63 -> unit_ < 2 ^ 64 ->
  usage (unit_ mod 2 ^ 64 * total mod 2 ^ 64) (unit_ mod 2 ^ 64 * free mod 2 ^ 64) = exact_usage unit_ total free.
Proof.
  intros Hu Hf Ht Hw. rewrite (Z.mod_small unit_) by lia.
  assert (0 <= unit_ * free <= unit_ * total) by nia.
  rewrite !Z.mod_small, usage_small by lia. unfold exact_usage. f_equal. lia.
Qed.

Lemma runs_check_timeout {A} (f : M (res A)) t a :
  runs (check_timeout f) t (Done (Ok a)) ->
  exists t', t = ev (S := jfs) (AwaitDone (WithTimeout Caller defaultCheckTimeout)) None :: t' /\ runs f t' (Done (Ok a)).
Proof.
  intros (r & t' & -> & Hr). cbn [bind] in Hr. destruct r as [e|]; [|by exists t'].
  apply runs_bind in Hr as [(t1 & t2 & u & -> & _ & [_ ?])|(s & _ & ?)]; done.
Qed.

(** C27: the statistics of a volume.  They are given only for a path that was
    just seen to exist and to be a mount point, and come from one [statfs] of
    it.  When the sizes fit 63 bits nothing overflows: used, available and
    total are those of the file system and add up.  When [statfs] fails the
    answer is still a success, one unit in total, one available. *)
Theorem NodeGetVolumeStats_exact volumeID path t bytes inodes :
  runs (NodeGetVolumeStats volumeID path) t (Done (Ok (bytes, inodes))) ->
  ev (S := jfs) (PathExists path) (Ok true) ∈ t /\
  ev (S := jfs) (IsNotMountPoint path) (Ok false) ∈ t /\
  exists a, ev (S := jfs) (Statfs path) a ∈ t /\
    match a with
    | Ok (bsize, blocks, bfree, files, ffree) =>
        0 <= bsize < 2 ^ 64 -> 0 <= bfree <= blocks -> bsize * blocks < 2 ^ 63 ->
        0 <= ffree <= files -> files < 2 ^ 63 ->
        bytes = exact_usage bsize blocks bfree /\ inodes = exact_usage 1 files ffree /\
        Used bytes + Available bytes = Total bytes
    | Err _ => bytes = exact_usage 1 1 1 /\ inodes = exact_usage 1 1 1
    end.
Proof.
  unfold NodeGetVolumeStats. do 2 (case_bool_decide; [by intros [_ ?]|]).
  intros [(t1 & t2 & [[]|e] & -> & Hp & Hr)|(s & _ & ?)]%runs_bind; [|by destruct Hr..|done].
  apply runs_bind in Hr as [(t3 & t4 & [[]|e] & -> & Hm & Hr)|(s & _ & ?)]; [by destruct Hr| |by destruct Hr|done].
  apply runs_check_timeout in Hp as (tp & -> & (p & tp' & -> & Hp)).
  apply runs_check_timeout in Hm as (tm & -> & (m & tm' & -> & Hm)).
  destruct Hp as [-> [= ->]], Hm as [-> [= ->]].
  destruct Hr as (a & t5 & -> & Hr). cbn [bind] in Hr.
  split; [set_solver|]. split; [set_solver|]. exists a. split; [set_solver|].
  destruct a as [[[[[bsize blocks] bfree] files] ffree]|e]; destruct Hr as [-> [= -> ->]]; [|done].
  intros Hb Hf Ht Hi Hw.
  assert (usage files ffree = exact_usage 1 files ffree) as ->.
  { rewrite usage_small by lia. unfold exact_usage. f_equal; lia. }
  rewrite usage_wrapped by lia. split_and!; [done..|]. cbn [exact_usage Used Available Total]. lia.
Qed.
