(* ===== verification/ControllersFacts.v ===== *)
(** * Properties of the reconcilers

    Which pods a round of the polling loop handles, and which errors it never
    retries; the event filters drop nothing that would be acted upon; what the
    recycling controllers delete. *)
From S2P Require Import Prelude.
From S2P Require Import GoStrings.
From S2P Require Import K8s.
From S2P Require Import GoTime.
From S2P Require Import Prog.
From S2P Require Import Effects.
From S2P Require Import Config.
From S2P Require Import Util.
From S2P Require Import PodUtil.
From S2P Require Import Setting.
From S2P Require Import JfsSetting.
From S2P Require Import Builder.
From S2P Require Import MountTable.
From S2P Require Import PodDriver.
From S2P Require Import Controllers.
#[local] Open Scope Z_scope.
#[local] Open Scope go_scope.

(** ** The polling loop *)

(** The readings of the clock in a history. *)
Definition clock_reading (e : event jfs) : option Z :=
  match e with
  | existT c a => match c return jfs_answer c -> option Z with Now => fun n => Some n | _ => fun _ => None end a
  end.
Definition clock_within (lo hi : Z) (t : jtrace) : Prop :=
  Forall (fun e => forall n, clock_reading e = Some n -> lo <= n <= hi) t.

Section reconciler.
Context `{Globals} `{SettingCodec} `{QuantityParser} `{MountJobs}.
Context (fuel : nat).

(** The decision for one pod. *)
Lemma runs_select_pod pod last tasks t last' tasks' lo hi :
  runs (select_pod pod (last, tasks)) t (Done (last', tasks')) -> clock_within lo hi t ->
  let unchanged at_ := last !! pod_name pod = Some (getPodStatus (Some pod), at_) in
  (mount_pod_here pod = false /\ last' = last /\ tasks' = tasks) \/
  (mount_pod_here pod = true /\ last' = last /\ tasks' = tasks /\
     exists at_, unchanged at_ /\ lo < at_ + 10 * Minute) \/
  (mount_pod_here pod = true /\ tasks' = tasks ++ [pod] /\
     (exists now, lo <= now <= hi /\ last' = <[ pod_name pod := (getPodStatus (Some pod), now) ]> last) /\
     (forall at_, unchanged at_ -> at_ + 10 * Minute <= hi)).
Proof.
  intros Hr Hc unchanged. unfold select_pod in Hr. destruct (mount_pod_here pod); cbn [negb] in Hr;
    [|destruct Hr as [_ [= -> ->]]; by left]. right.
  apply runs_bind in Hr as [(t1 & t2 & skip & -> & Hs & Hr)|(s & _ & ?)]; [|done].
  apply Forall_app in Hc as [Hc1 Hc2].
  assert ((skip = true -> exists at_, unchanged at_ /\ lo < at_ + 10 * Minute) /\
          (skip = false -> forall at_, unchanged at_ -> at_ + 10 * Minute <= hi)) as [Hskip Hgo].
  { unfold unchanged. unfold recently_handled in Hs. destruct (last !! pod_name pod) as [[st at_]|].
    2: { destruct Hs as [_ [= ->]]. split; [done|]. by intros _ at_ ?. }
    destruct (decide (st = getPodStatus (Some pod))) as [->|Hne].
    - rewrite !bool_decide_true in Hs by done. destruct Hs as (now & t' & -> & [-> [= ->]]).
      apply Forall_cons in Hc1 as [Hn _]. specialize (Hn now eq_refl).
      destruct (Z.ltb_spec now (at_ + 10 * Minute)); split; try done; intros _.
      + exists at_. split; [done|lia].
      + intros ? [= <-]. lia.
    - rewrite bool_decide_false in Hs by done. destruct Hs as [_ [= ->]]. split; [done|].
      intros _ x E. injection E as E1 _. by destruct (Hne E1). }
  destruct skip; [left|right].
  - destruct Hr as [_ [= -> ->]]. eauto.
  - destruct Hr as (now & t' & -> & [-> [= -> ->]]). apply Forall_cons in Hc2 as [Hn _].
    specialize (Hn now eq_refl). split_and!; eauto.
Qed.

(** A pod is due when its status was not handled within ten minutes of any
    reading of the clock. *)
Definition due (last : LastStatus) (pod : Pod) (lo : Z) : Prop :=
  forall at_, last !! pod_name pod = Some (getPodStatus (Some pod), at_) -> at_ + 10 * Minute <= lo.

(** The mount pods of a listing, all of one namespace, have distinct names. *)
Definition distinct_names (pods : list Pod) : Prop := NoDup (pod_name <$> List.filter mount_pod_here pods).

Lemma select_pods_spec pods last tasks t last' tasks' lo hi :
  distinct_names pods ->
  runs (fold_prog pods select_pod (last, tasks)) t (Done (last', tasks')) -> clock_within lo hi t ->
  (forall pod, pod ∈ tasks -> pod ∈ tasks') /\
  (forall n, n ∉ pod_name <$> List.filter mount_pod_here pods -> last' !! n = last !! n) /\
  (forall pod, pod ∈ pods -> mount_pod_here pod = true -> due last pod lo -> pod ∈ tasks') /\
  (forall pod, pod ∈ tasks' -> pod ∈ tasks \/
     pod ∈ pods /\ mount_pod_here pod = true /\
     (forall at_, last !! pod_name pod = Some (getPodStatus (Some pod), at_) -> at_ + 10 * Minute <= hi) /\
     exists now, lo <= now <= hi /\ last' !! pod_name pod = Some (getPodStatus (Some pod), now)).
Proof.
  revert last tasks t. induction pods as [|p pods IH]; intros last tasks t Hnd Hr Hc.
  { destruct Hr as [_ [= -> ->]]. split_and!; auto. intros pod []%elem_of_nil. }
  apply runs_bind in Hr as [(t1 & t2 & [last1 tasks1] & -> & Hs & Hr)|(s & _ & ?)]; [|done].
  apply Forall_app in Hc as [Hc1 Hc2].
  assert (distinct_names pods /\ (mount_pod_here p = true -> pod_name p ∉ pod_name <$> List.filter mount_pod_here pods)) as [Hnd' Hp].
  { unfold distinct_names in *. cbn in Hnd. destruct (mount_pod_here p); [|done]. by apply NoDup_cons in Hnd as [? ?]. }
  destruct (IH _ _ _ Hnd' Hr Hc2) as (IH1 & IH2 & IH3 & IH4). clear IH Hr.
  pose proof (runs_select_pod _ _ _ _ _ _ _ _ Hs Hc1) as Hcase. cbv zeta in Hcase.
  assert (forall n, (mount_pod_here p = true -> n <> pod_name p) -> last1 !! n = last !! n) as Hother.
  { intros n Hn. destruct Hcase as [(_ & -> & _)|[(_ & -> & _)|(Hh & _ & (now & _ & ->) & _)]]; [done..|].
    rewrite lookup_insert_ne; [done|]. by intros E%eq_sym%Hn. }
  assert (forall pod, pod ∈ pods -> mount_pod_here pod = true -> last1 !! pod_name pod = last !! pod_name pod) as Hrest.
  { intros pod Hin Hh. apply Hother. intros Hhp E. apply (Hp Hhp). rewrite <- E. apply list_elem_of_fmap_2.
    by apply list_elem_of_In, filter_In, (conj (proj1 (list_elem_of_In _ _) Hin)). }
  split_and!.
  - intros pod Hin. apply IH1. destruct Hcase as [(_ & _ & ->)|[(_ & _ & -> & _)|(_ & -> & _)]]; [done..|].
    apply elem_of_app. by left.
  - intros n Hn. cbn in Hn. destruct (mount_pod_here p).
    + apply not_elem_of_cons in Hn as [Hn1 Hn2]. rewrite IH2 by done. by apply Hother.
    + rewrite IH2 by done. by apply Hother.
  - intros pod [->|Hin]%elem_of_cons Hh Hd.
    + apply IH1. destruct Hcase as [(? & _)|[(_ & _ & _ & at_ & Hu & Hlt)|(_ & -> & _)]]; [congruence| |].
      * specialize (Hd _ Hu). lia.
      * apply elem_of_app. right. by left.
    + apply IH3; [done..|]. unfold due. by rewrite Hrest.
  - intros pod [Hin|(Hin & Hh & Hu & Hn)]%IH4.
    + destruct Hcase as [(_ & _ & ->)|[(_ & _ & -> & _)|(Hh & -> & (now & Hnow & ->) & Hu)]]; [by left..|].
      apply elem_of_app in Hin as [Hin|Hin]; [by left|right]. apply list_elem_of_singleton in Hin as ->.
      split_and!; [by left|done|done|]. exists now. split; [done|]. rewrite IH2 by by apply Hp. apply lookup_insert_eq.
    + right. split_and!; [by right|done| |done]. by rewrite <- Hrest.
Qed.

Lemma poll_spec last t last' mit pods tasks lo hi :
  runs (poll last) t (Done (last', Some (mit, pods, tasks))) -> distinct_names pods -> clock_within lo hi t ->
  (forall pod, pod ∈ pods -> mount_pod_here pod = true -> due last pod lo -> pod ∈ tasks) /\
  (forall pod, pod ∈ tasks -> pod ∈ pods /\ mount_pod_here pod = true /\
     (forall at_, last !! pod_name pod = Some (getPodStatus (Some pod), at_) -> at_ + 10 * Minute <= hi) /\
     exists now, lo <= now <= hi /\ last' !! pod_name pod = Some (getPodStatus (Some pod), now)).
Proof.
  intros ([pods'|e] & t1 & -> & Hr) Hnd Hc; cbn [bind] in Hr; [|by destruct Hr].
  destruct Hr as ([l|e] & t2 & -> & Hr); cbn [bind] in Hr; [|by destruct Hr].
  apply runs_bind in Hr as [(t3 & t4 & [last1 tasks1] & -> & Hs & Hr)|(s & _ & ?)]; [|done].
  destruct Hr as [-> [= -> _ -> ->]]. rewrite app_nil_r in Hc.
  apply Forall_cons in Hc as [_ Hc]. apply Forall_cons in Hc as [_ Hc].
  destruct (select_pods_spec _ _ _ _ _ _ _ _ Hnd Hs Hc) as (_ & _ & H3 & H4). split; [done|].
  intros pod [[]%elem_of_nil|Hin]%H4. exact Hin.
Qed.

(** *** Rounds of the loop *)

(** The rounds of [doReconcile] whose listing and mount table could be read:
    the listing, and the pods that were handed to goroutines, whatever became
    of them there. *)
Inductive rounds : LastStatus -> jtrace -> list (list Pod * list Pod) -> LastStatus -> Prop :=
| no_round last : rounds last [] [] last
| failed_round last t1 last1 t2 rs last' :
    runs (poll last) t1 (Done (last1, None)) -> rounds last1 t2 rs last' ->
    rounds last (t1 ++ ev (S := jfs) (Sleep (wrap64 (g_ReconcilerInterval * Second))) tt :: t2) rs last'
| a_round last t1 last1 mit pods tasks t2 t3 rs last' :
    runs (poll last) t1 (Done (last1, Some (mit, pods, tasks))) ->
    runs (run_tasks fuel mit pods tasks) t2 (Done tt) -> rounds last1 t3 rs last' ->
    rounds last (t1 ++ ev (S := jfs) BackOffGC tt :: t2 ++ ev (S := jfs) (Sleep (wrap64 (g_ReconcilerInterval * Second))) tt :: t3)
      ((pods, tasks) :: rs) last'.

Lemma doReconcile_rounds n last t last' :
  runs (doReconcile fuel n last) t (Done last') -> exists rs, rounds last t rs last'.
Proof.
  revert last t. induction n as [|n IH]; intros last t; cbn [doReconcile].
  { intros [-> [= ->]]. exists []. constructor. }
  intros (t1 & t2 & last1 & -> & Hr & ([] & t3 & -> & Hd))%runs_bind_done. cbn [bind] in Hd.
  destruct (IH _ _ Hd) as [rs Hrs].
  apply runs_bind_done in Hr as (t4 & t5 & [last2 [[[mit pods] tasks]|]] & -> & Hp & Hr).
  - destruct Hr as ([] & t6 & -> & Hr). cbn [bind] in Hr.
    apply runs_bind_done in Hr as (t7 & t8 & [] & -> & Hr & [-> [= ->]]). exists ((pods, tasks) :: rs).
    rewrite app_nil_r, <-app_assoc. cbn [app]. by eapply a_round.
  - destruct Hr as [-> [= ->]]. exists rs. rewrite app_nil_r. by eapply failed_round.
Qed.

(** The name was handled at this status since [lo]. *)
Definition fresh (lo : Z) (n : string) (st : podStatus) (last : LastStatus) : Prop :=
  exists at_, last !! n = Some (st, at_) /\ lo <= at_.
(** A mount pod of the name is listed with another status. *)
Definition changed (n : string) (st : podStatus) (pods : list Pod) : Prop :=
  exists q, q ∈ pods /\ mount_pod_here q = true /\ pod_name q = n /\ getPodStatus (Some q) <> st.
#[local] Instance changed_dec n st pods : Decision (changed n st pods).
Proof.
  refine (cast_if (decide (Exists (fun q => mount_pod_here q = true /\ pod_name q = n /\ getPodStatus (Some q) <> st) pods)));
    unfold changed; by rewrite <-Exists_exists.
Defined.

(** In a listing where the name keeps its status, it is handed over only if it
    was not handled before, and then it is. *)
Lemma select_pods_name pods last tasks t last' tasks' lo hi n st :
  ~ changed n st pods -> runs (fold_prog pods select_pod (last, tasks)) t (Done (last', tasks')) ->
  clock_within lo hi t -> hi < lo + 10 * Minute ->
  (fresh lo n st last -> fresh lo n st last' /\ forall q, q ∈ tasks' -> pod_name q = n -> q ∈ tasks) /\
  (forall q, q ∈ tasks' -> pod_name q = n -> q ∈ tasks \/ fresh lo n st last').
Proof.
  intros Hst Hr Hc Hhi. revert last tasks t Hst Hr Hc. induction pods as [|p pods IH]; intros last tasks t Hst Hr Hc.
  { destruct Hr as [_ [= -> ->]]. split; [by split|]. intros q ? ?. by left. }
  apply runs_bind_done in Hr as (t1 & t2 & [last1 tasks1] & -> & Hs & Hr). apply Forall_app in Hc as [Hc1 Hc2].
  assert (~ changed n st pods) as Hst' by (intros (q & ? & ?); apply Hst; exists q; by split; [right|]).
  destruct (IH _ _ _ Hst' Hr Hc2) as [IH1 IH2].
  pose proof (runs_select_pod _ _ _ _ _ _ _ _ Hs Hc1) as Hcase. cbv zeta in Hcase.
  destruct Hcase as [(_ & -> & ->)|[(_ & -> & -> & _)|(Hh & -> & (now & Hnow & ->) & Hu)]]; [by split..|].
  destruct (decide (pod_name p = n)) as [<-|Hne].
  - assert (getPodStatus (Some p) = st) as <-.
    { destruct (decide (getPodStatus (Some p) = st)); [done|]. destruct Hst. exists p. by split_and!; [left|..]. }
    assert (fresh lo (pod_name p) (getPodStatus (Some p)) last') as Hf.
    { apply IH1. exists now. split; [apply lookup_insert_eq|lia]. }
    split; [|by right]. intros (at_ & Hat & Hlo). specialize (Hu at_ Hat). lia.
  - assert (forall q, q ∈ tasks ++ [p] -> pod_name q = n -> q ∈ tasks) as Hq.
    { intros q [?|Hq%list_elem_of_singleton]%elem_of_app Hn; [done|by subst]. }
    split.
    + intros (at_ & Hat & Hlo). destruct IH1 as [Hf Hin]; [exists at_; by rewrite lookup_insert_ne|]. split; [done|]. auto.
    + intros q Hin Hn. destruct (IH2 q Hin Hn); [left; auto|by right].
Qed.

Lemma poll_name last t last' r lo hi n st :
  runs (poll last) t (Done (last', r)) -> clock_within lo hi t -> hi < lo + 10 * Minute ->
  match r with
  | None => last' = last
  | Some (_, pods, tasks) => ~ changed n st pods ->
      (fresh lo n st last -> fresh lo n st last' /\ forall q, q ∈ tasks -> pod_name q <> n) /\
      (forall q, q ∈ tasks -> pod_name q = n -> fresh lo n st last')
  end.
Proof.
  intros Hr Hc Hhi. destruct Hr as ([pods'|e] & t1 & -> & Hr); cbn [bind] in Hr; [|by destruct Hr as [_ [= -> ->]]].
  destruct Hr as ([l|e] & t2 & -> & Hr); cbn [bind] in Hr; [|by destruct Hr as [_ [= -> ->]]].
  apply runs_bind_done in Hr as (t3 & t4 & [last1 tasks1] & -> & Hs & [-> [= -> ->]]). rewrite app_nil_r in Hc.
  apply Forall_cons in Hc as [_ Hc]. apply Forall_cons in Hc as [_ Hc]. cbn [fst snd].
  intros Hst. destruct (select_pods_name _ _ _ _ _ _ _ _ _ _ Hst Hs Hc Hhi) as [H1' H2']. split.
  - intros Hf. destruct (H1' Hf) as [? Hq]. split; [done|]. intros q Hin Hn. by apply (Hq q Hin), elem_of_nil in Hn.
  - intros q Hin Hn. by destruct (H2' q Hin Hn) as [?%elem_of_nil|?].
Qed.

Lemma rounds_fresh last t rs last' lo hi n st :
  rounds last t rs last' -> clock_within lo hi t -> hi < lo + 10 * Minute -> fresh lo n st last ->
  forall j r pod, rs !! j = Some r -> pod ∈ r.2 -> pod_name pod = n ->
  exists k rk, (k <= j)%nat /\ rs !! k = Some rk /\ changed n st rk.1.
Proof.
  intros Hrs Hc Hhi. induction Hrs as [last|last t1 last1 t2 rs last' Hp _ IH|last t1 last1 mit pods tasks t2 t3 rs last' Hp _ _ IH];
    intros Hf j r pod Hj Hin Hn; [done|..]; apply Forall_app in Hc as [Hc1 Hc2].
  - apply Forall_cons in Hc2 as [_ Hc2]. pose proof (poll_name _ _ _ _ _ _ n st Hp Hc1 Hhi) as ->. by eapply IH.
  - apply Forall_cons in Hc2 as [_ Hc2]. apply Forall_app in Hc2 as [_ Hc2]. apply Forall_cons in Hc2 as [_ Hc2].
    destruct (decide (changed n st pods)) as [Hch|Hst]; [exists 0%nat, (pods, tasks); split_and!; [lia|done..]|].
    destruct (poll_name _ _ _ _ _ _ n st Hp Hc1 Hhi Hst) as [Hkeep _]. destruct (Hkeep Hf) as [Hf' Hno].
    destruct j as [|j]; [injection Hj as <-; by destruct (Hno pod Hin)|].
    destruct (IH Hc2 Hf' j r pod Hj Hin Hn) as (k & rk & Hk & Hrk & Hch). exists (S k), rk. split_and!; [lia|done..].
Qed.

Lemma rounds_again last t rs last' lo hi :
  rounds last t rs last' -> clock_within lo hi t -> hi < lo + 10 * Minute ->
  forall i j ri rj pod pod', (i < j)%nat -> rs !! i = Some ri -> rs !! j = Some rj ->
  pod ∈ ri.2 -> pod' ∈ rj.2 -> pod_name pod' = pod_name pod ->
  exists k rk, (i <= k <= j)%nat /\ rs !! k = Some rk /\ changed (pod_name pod) (getPodStatus (Some pod)) rk.1.
Proof.
  intros Hrs Hc Hhi. induction Hrs as [last|last t1 last1 t2 rs last' Hp _ IH|last t1 last1 mit pods tasks t2 t3 rs last' Hp _ Hrs IH];
    intros i j ri rj pod pod' Hij Hi Hj Hin Hin' Hn; [done|..]; apply Forall_app in Hc as [Hc1 Hc2].
  - apply Forall_cons in Hc2 as [_ Hc2]. by eapply IH.
  - apply Forall_cons in Hc2 as [_ Hc2]. apply Forall_app in Hc2 as [_ Hc2]. apply Forall_cons in Hc2 as [_ Hc2].
    destruct j as [|j]; [lia|]. destruct i as [|i].
    + injection Hi as <-. destruct (decide (changed (pod_name pod) (getPodStatus (Some pod)) pods)) as [Hch|Hst];
        [exists 0%nat, (pods, tasks); split_and!; [lia..|done|done]|].
      destruct (poll_name _ _ _ _ _ _ _ _ Hp Hc1 Hhi Hst) as [_ Hf].
      destruct (rounds_fresh _ _ _ _ _ _ _ _ Hrs Hc2 Hhi (Hf pod Hin eq_refl) j rj pod' Hj Hin' Hn) as (k & rk & Hk & Hrk & Hch).
      exists (S k), rk. split_and!; [lia..|done|done].
    + destruct (IH Hc2 i j ri rj pod pod' ltac:(lia) Hi Hj Hin Hin' Hn) as (k & rk & Hk & Hrk & Hch).
      exists (S k), rk. split_and!; [lia..|done|done].
Qed.

(** C28: a failed pod is not retried.  In every run of the polling loop, over any
    number of rounds that read the clock within ten minutes: when a pod is
    handed to a goroutine in two rounds, whatever became of it in the first one
    (its run failed, the round was cancelled by another pod's error, it was
    backing off), then a mount pod of its name was listed with another status
    in the first round, the second one or a round between them. *)
Theorem reconciler_never_retries n last t last' :
  runs (doReconcile fuel n last) t (Done last') ->
  exists rs, rounds last t rs last' /\
    forall lo hi, clock_within lo hi t -> hi < lo + 10 * Minute ->
    forall i j ri rj pod pod', (i < j)%nat -> rs !! i = Some ri -> rs !! j = Some rj ->
    pod ∈ ri.2 -> pod' ∈ rj.2 -> pod_name pod' = pod_name pod ->
    exists k rk, (i <= k <= j)%nat /\ rs !! k = Some rk /\ changed (pod_name pod) (getPodStatus (Some pod)) rk.1.
Proof.
  intros [rs Hrs]%doReconcile_rounds. exists rs. split; [done|]. intros lo hi Hc Hhi. by apply (rounds_again last t rs last' lo hi).
Qed.

Lemma runs_fold_in {X} (l : list X) (body : X -> unit -> M unit) t x :
  runs (fold_prog l body tt) t (Done tt) -> x ∈ l ->
  exists t1 t2 t3, t = t1 ++ t2 ++ t3 /\ runs (body x tt) t2 (Done tt).
Proof.
  revert t. induction l as [|y l IH]; intros t Hr Hx; [by apply elem_of_nil in Hx|].
  apply runs_bind in Hr as [(t1 & t2 & [] & -> & H1' & H2')|(s & _ & ?)]; [|done].
  apply elem_of_cons in Hx as [->|Hx]; [by exists [], t1, t2|].
  destruct (IH _ H2' Hx) as (t3 & t4 & t5 & -> & Hb). exists (t1 ++ t3), t4, t5. by rewrite <- app_assoc.
Qed.

(** C29: a changed pod is handled.  In a round whose listing and mount table
    could be read (otherwise it does nothing), and whose mount pods have
    distinct names, every mount pod of the listing whose status is new, or was
    last handled ten minutes ago or more, gets its goroutine; and the goroutine
    runs the pod driver unless the round was cancelled or the pod is backing
    off. *)
Theorem reconciler_starts last t last' lo hi :
  runs (reconcile_round fuel last) t (Done last') -> clock_within lo hi t ->
  (exists e, t = [ev (S := jfs) GetNodeRunningPods (Err e)]) \/
  (exists pods e, t = [ev (S := jfs) GetNodeRunningPods (Ok pods); ev (S := jfs) ParseMountInfo (Err e)]) \/
  exists pods mis t', t = ev (S := jfs) GetNodeRunningPods (Ok pods) :: ev (S := jfs) ParseMountInfo (Ok mis) :: t' /\
    (distinct_names pods -> forall pod, pod ∈ pods -> mount_pod_here pod = true -> due last pod lo ->
     exists t1 t2 t3 r, t' = t1 ++ t2 ++ t3 /\
       runs (handle_task fuel {| mis := mis; deletedPods := ∅ |} pods pod) t2 (Done r) /\
       ((exists c, ev (S := jfs) (CtxErr round_ctx) (Some c) ∈ t2) \/
        ev (S := jfs) (BackOffActive (backOffID pod)) true ∈ t2 \/
        exists e t4,
          t2 = [ev (S := jfs) (CtxErr round_ctx) None; ev (S := jfs) (BackOffActive (backOffID pod)) false] ++ t4 ++
               [if e is Some _ then ev (S := jfs) (BackOffNext (backOffID pod)) tt
                else ev (S := jfs) (BackOffReset (backOffID pod)) tt] /\
          runs (Run fuel (setPodsStatus {| mis := mis; deletedPods := ∅ |} (Some pods)) pod) t4 (Done e))).
Proof.
  intros Hr Hc. apply runs_bind in Hr as [(t1 & t2 & [last1 r] & -> & Hp & Hr)|(s & _ & ?)]; [|done].
  apply Forall_app in Hc as [Hc _]. pose proof Hp as Hp'.
  destruct Hp as ([pods|e] & t3 & -> & Hp); cbn [bind] in Hp; [right|].
  2: { destruct Hp as [-> [= -> ->]], Hr as [-> _]. left. by exists e. }
  destruct Hp as ([mis|e] & t4 & -> & Hp); cbn [bind parse] in Hp; [right|left].
  2: { destruct Hp as [-> [= -> ->]], Hr as [-> _]. by exists pods, e. }
  exists pods, mis, (t4 ++ t2). split; [done|]. intros Hnd pod Hin Hh Hd.
  destruct r as [[[mit pods'] tasks]|].
  2: { apply runs_bind in Hp as [(? & ? & ? & _ & _ & [_ ?])|(s & _ & ?)]; done. }
  assert (pods' = pods /\ mit = {| mis := mis; deletedPods := ∅ |}) as [-> ->].
  { apply runs_bind in Hp as [(? & ? & ? & _ & _ & [_ [= _ -> -> _]])|(s & _ & ?)]; done. }
  destruct (poll_spec _ _ _ _ _ _ _ _ Hp' Hnd Hc) as [Hdue _]. specialize (Hdue _ Hin Hh Hd).
  destruct Hr as ([] & t5 & -> & Hr). cbn [bind] in Hr.
  apply runs_bind in Hr as [(t6 & t7 & [] & -> & Hr & _)|(s & _ & ?)]; [|done].
  destruct (runs_fold_in _ _ _ _ Hr Hdue) as (t8 & t9 & t10 & -> & Hb).
  apply runs_bind in Hb as [(t11 & t12 & e & -> & Hb & [-> _])|(s & _ & ?)]; [|done]. rewrite app_nil_r.
  exists (t4 ++ ev (S := jfs) BackOffGC tt :: t8), t11, (t10 ++ t7), e. split; [by rewrite <- !app_assoc|].
  split; [done|].
  destruct Hb as ([c|] & t13 & -> & Hb); cbn [bind] in Hb.
  { left. exists c. by left. }
  right. destruct Hb as ([] & t14 & -> & Hb); cbn [bind] in Hb.
  { left. right. by left. }
  right. apply runs_bind in Hb as [(t15 & t16 & [e'|] & -> & Hrun & Hb)|(s & _ & ?)]; [..|done].
  - destruct Hb as ([] & t17 & -> & -> & _).
    by exists (Some e'), t15.
  - destruct Hb as ([] & t17 & -> & -> & _).
    by exists None, t15.
Qed.
End reconciler.

(** ** The controllers *)

Section controllers.
Context `{Globals}.

(** C30: the event filters lose nothing.  When a reconciliation of a mount
    pod, a job or an app pod does anything after reading its object, the event
    that shows this object passes the filter of its controller. *)
Theorem filters_complete request t o :
  (runs (MountController_Reconcile request) t o -> (1 < length t)%nat ->
   exists ctx pod, hd_error t = Some (ev (S := jfs) (GetPod ctx (rq_Name request) (rq_Namespace request)) (Ok pod)) /\
     MountController_onCreate pod = true /\ MountController_onDelete pod = true /\
     forall old, ResourceVersion (p_meta old) <> ResourceVersion (p_meta pod) -> MountController_onUpdate old pod = true) /\
  (runs (JobController_Reconcile request) t o -> (1 < length t)%nat ->
   exists ctx job, hd_error t = Some (ev (S := jfs) (GetJob ctx (rq_Name request) (rq_Namespace request)) (Ok job)) /\
     JobController_onCreate job = true /\ JobController_onDelete job = true /\
     forall old, ResourceVersion (j_meta old) <> ResourceVersion (j_meta job) -> JobController_onUpdate old job = true) /\
  (runs (AppController_Reconcile request) t o -> (1 < length t)%nat ->
   exists ctx pod, hd_error t = Some (ev (S := jfs) (GetPod ctx (rq_Name request) (rq_Namespace request)) (Ok pod)) /\
     AppController_onCreate pod = true /\
     forall old, ResourceVersion (p_meta old) <> ResourceVersion (p_meta pod) -> AppController_onUpdate old pod = true).
Proof.
  assert (forall old new, ResourceVersion old <> ResourceVersion new -> version_changed old new = true) as Hv.
  { intros old new Hn. unfold version_changed. rewrite bool_decide_false; [done|congruence]. }
  split_and!.
  - intros ([pod|e] & t' & -> & Hr) Hl; cbn [bind] in Hr.
    2: { destruct Hr as [-> _]. cbn in Hl. lia. }
    exists Caller, pod. split; [done|]. unfold MountController_onCreate, MountController_onDelete, MountController_onUpdate, held_by_finalizer.
    destruct (is_deleted pod); cbn [negb] in Hr; [|destruct Hr as [-> _]; cbn in Hl; lia].
    destruct (ContainsString _ _); cbn [negb] in Hr; [|destruct Hr as [-> _]; cbn in Hl; lia].
    split_and!; [done..|]. intros old Ho. by rewrite Hv.
  - intros ([job|e] & t' & -> & Hr) Hl; cbn [bind] in Hr.
    2: { destruct Hr as [-> _]. cbn in Hl. lia. }
    exists Caller, job. split; [done|]. unfold JobController_onCreate, JobController_onDelete, JobController_onUpdate, job_live.
    case_bool_decide; [destruct Hr as [-> _]; cbn in Hl; lia|].
    split_and!; [done..|]. intros old Ho. by rewrite Hv.
  - intros ([pod|e] & t' & -> & Hr) Hl; cbn [bind] in Hr.
    2: { destruct Hr as [-> _]. cbn in Hl. lia. }
    exists Caller, pod. split; [done|]. unfold AppController_onCreate, AppController_onUpdate.
    destruct (ShouldInQueue (Some pod)); cbn [negb] in Hr; [|destruct Hr as [-> _]; cbn in Hl; lia].
    split; [done|]. intros old Ho. by rewrite Hv.
Qed.

(** What the recycling controllers may do after a history. *)
Definition no_csi_node (nodeName : string) (t : jtrace) : Prop :=
  ev (S := jfs) (ListPod g_Namespace (csi_node_selector nodeName)) (Ok []) ∈ t.
Definition mount_recycles (t : jtrace) (c : jfs_cmd) : Prop :=
  match c with
  | GetPod _ _ _ | ListPod _ _ => True
  | PatchPod pod d =>
      (exists ctx n ns, hd_error t = Some (ev (S := jfs) (GetPod ctx n ns) (Ok pod))) /\
      is_deleted pod = true /\ Finalizer ∈ Finalizers (p_meta pod) /\
      no_csi_node (NodeName (p_spec pod)) t /\
      d = JSONPatch [ReplaceList "/metadata/finalizers" (filter (fun f => f <> Finalizer) (Finalizers (p_meta pod)))]
  | _ => False
  end.

(** Finished, and past its time to live by the clock. *)
Definition recyclable (job : Job) (t : jtrace) : Prop :=
  (IsJobCompleted job = true \/ IsJobFailed job = true) /\
  match TTLSecondsAfterFinished job with
  | None => True
  | Some ttl => exists ct now, CompletionTime job = Some ct /\ ev (S := jfs) Now now ∈ t /\ ct + ttl * Second < now
  end.
Definition job_recycles (t : jtrace) (c : jfs_cmd) : Prop :=
  match c with
  | GetJob _ _ _ | ListPod _ _ | Now => True
  | DeleteJob n ns =>
      exists job ctx n' ns', hd_error t = Some (ev (S := jfs) (GetJob ctx n' ns') (Ok job)) /\
        n = Name (j_meta job) /\ ns = Namespace (j_meta job) /\ DeletionTimestamp (j_meta job) = None /\
        (recyclable job t \/ NodeName (j_spec job) <> "" /\ no_csi_node (NodeName (j_spec job)) t)
  | _ => False
  end.

Definition app_umounts (t : jtrace) (c : jfs_cmd) : Prop :=
  match c with
  | GetPod _ _ _ => True
  | ExecuteInContainer n ns container cmd =>
      exists pod ctx n' ns' cn, hd_error t = Some (ev (S := jfs) (GetPod ctx n' ns') (Ok pod)) /\
        n = pod_name pod /\ ns = pod_namespace pod /\ cn ∈ Containers (p_spec pod) /\
        container = c_name cn /\ is_fuse_name container = true /\ c_lifecycle cn ≫= PreStop = Some (ExecHandler cmd) /\
        Phase (p_status pod) = "Running" /\ RestartPolicy (p_spec pod) <> "Always" /\
        Forall (fun cs => if is_fuse_name (cs_name cs) then Running (cs_state cs) = true
                          else is_Some (Terminated (cs_state cs))) (ContainerStatuses (p_status pod))
  | _ => False
  end.

Lemma IsJobShouldBeRecycled_recyclable job t : runs (IsJobShouldBeRecycled job) t (Done true) -> recyclable job t.
Proof.
  unfold IsJobShouldBeRecycled, recyclable. intros Hr.
  destruct (IsJobCompleted job), (IsJobFailed job); cbn [negb andb] in Hr; try by destruct Hr.
  all: split; [auto|]; destruct (TTLSecondsAfterFinished job) as [ttl|]; [|done].
  all: destruct (CompletionTime job) as [ct|]; [|by destruct Hr].
  all: destruct Hr as (now & t' & -> & [-> [= E]]); exists ct, now; split_and!; [done|by left|by apply Z.ltb_lt].
Qed.

Lemma IsJobShouldBeRecycled_issues job t : issues (S := jfs) job_recycles (IsJobShouldBeRecycled job) t.
Proof.
  unfold IsJobShouldBeRecycled. destruct (_ && _); [done|].
  destruct (TTLSecondsAfterFinished job); [|done]. by destruct (CompletionTime job).
Qed.

Lemma ShouldInQueue_spec pod :
  ShouldInQueue (Some pod) = true ->
  Phase (p_status pod) = "Running" /\ RestartPolicy (p_spec pod) <> "Always" /\
  Forall (fun cs => if is_fuse_name (cs_name cs) then Running (cs_state cs) = true
                    else is_Some (Terminated (cs_state cs))) (ContainerStatuses (p_status pod)).
Proof.
  cbn [ShouldInQueue]. destruct (CheckExpectValue _ _ _); [done|]. case_bool_decide as Hr; [done|].
  destruct (existsb _ _); cbn [negb]; [|done]. case_bool_decide as Hp; cbn [negb orb]; [|done].
  destruct (Nat.ltb _ _); [done|]. rewrite forallb_forall. intros Hall. split_and!; [done..|].
  apply Forall_forall. intros cs Hcs. specialize (Hall cs (proj1 (list_elem_of_In _ _) Hcs)).
  unfold container_done in Hall. destruct (is_fuse_name _); [done|]. by apply bool_decide_eq_true in Hall.
Qed.

Lemma umount_containers_issues pod ctx n ns cns t :
  hd_error t = Some (ev (S := jfs) (GetPod ctx n ns) (Ok pod)) -> ShouldInQueue (Some pod) = true ->
  (forall cn, cn ∈ cns -> cn ∈ Containers (p_spec pod)) ->
  issues (S := jfs) app_umounts (umount_containers pod cns) t.
Proof.
  intros Ht Hq. revert t Ht. induction cns as [|cn cns IH]; intros t Ht Hin; cbn [umount_containers]; [done|].
  assert (forall c, c ∈ cns -> c ∈ Containers (p_spec pod)) as Hin' by (intros c Hc; apply Hin; by right).
  destruct (is_fuse_name (c_name cn)) eqn:Ef; [|by apply IH].
  apply issues_bind.
  - unfold umountFuseSidecar. case_bool_decide; [done|]. destruct (c_lifecycle cn ≫= PreStop) as [[cmd|l]|] eqn:El; try done.
    split.
    + exists pod, ctx, n, ns, cn. destruct (ShouldInQueue_spec _ Hq) as (H1 & H2 & H3).
      split_and!; try done. apply Hin. by left.
    + intros [[out err] [e|]]; [|done]. cbn [bind]. destruct (_ || _); [done|]. by destruct (Contains _ _).
  - intros t' [e|] _; [done|]. apply IH; [|done]. by destruct t.
Qed.

(** C32: the controllers recycle only what is unused.  The mount controller
    does nothing but remove the driver's finalizer from a deleted pod it just
    read, after a listing showed no CSI node pod on its node.  The job
    controller deletes a job it just read only when it has finished and is
    past its time to live, or when a listing showed no CSI node pod on the
    node it is bound to.  The app controller only runs the pre-stop hooks of
    the side cars of a running pod all of whose app containers have
    terminated. *)
Theorem recyclers_safe request t o :
  (runs (MountController_Reconcile request) t o ->
   forall t1 e t2, t = t1 ++ e :: t2 -> mount_recycles t1 (projT1 e)) /\
  (runs (JobController_Reconcile request) t o ->
   forall t1 e t2, t = t1 ++ e :: t2 -> job_recycles t1 (projT1 e)) /\
  (runs (AppController_Reconcile request) t o ->
   forall t1 e t2, t = t1 ++ e :: t2 -> app_umounts t1 (projT1 e)).
Proof.
  split_and!; intros Hr.
  - apply (issues_runs (S := jfs) mount_recycles _ [] _ _) with (2 := Hr). clear Hr t o.
    split; [done|]. intros [pod|e]; [|done]. cbn [bind].
    destruct (is_deleted pod) eqn:Ed; cbn [negb]; [|done].
    destruct (ContainsString _ _) eqn:Ef; cbn [negb]; [|done]. apply ContainsString_spec in Ef.
    split; [done|]. intros [[|]|e]; [|done..]. cbn [bind]. split; [|done].
    split_and!; [by exists Caller, (rq_Name request), (rq_Namespace request)|done|done|unfold no_csi_node; right; by left|done].
  - apply (issues_runs (S := jfs) job_recycles _ [] _ _) with (2 := Hr). clear Hr t o.
    split; [done|]. intros [job|e]; [|done]. cbn [bind].
    case_bool_decide as Hd; [done|]. rewrite <- eq_None_not_Some in Hd.
    assert (forall t', recyclable job ([ev (S := jfs) (GetJob Caller (rq_Name request) (rq_Namespace request)) (Ok job)] ++ t') \/
              NodeName (j_spec job) <> "" /\
              no_csi_node (NodeName (j_spec job)) ([ev (S := jfs) (GetJob Caller (rq_Name request) (rq_Namespace request)) (Ok job)] ++ t') ->
            job_recycles ([ev (S := jfs) (GetJob Caller (rq_Name request) (rq_Namespace request)) (Ok job)] ++ t')
              (DeleteJob (Name (j_meta job)) (Namespace (j_meta job)))) as Hdel.
    { intros t' Hrec. by exists job, Caller, (rq_Name request), (rq_Namespace request). }
    assert (forall t1 t2, runs (IsJobShouldBeRecycled job) t2 (Done true) -> recyclable job (t1 ++ t2)) as Hrec.
    { intros t1 t2 [H1 H2]%IsJobShouldBeRecycled_recyclable. split; [done|].
      destruct (TTLSecondsAfterFinished job); [|done]. destruct H2 as (ct & now & ? & ? & ?).
      exists ct, now. rewrite elem_of_app. auto. }
    case_bool_decide as Hn.
    + apply issues_bind; [apply IsJobShouldBeRecycled_issues|]. intros t' [] Hr; [|done].
      split; [|done]. apply Hdel. left. by apply Hrec.
    + split; [done|]. intros [pods|e]; [|done]. cbn [bind]. case_bool_decide as Hp.
      * subst. split; [|done]. apply (Hdel [_]). right. split; [done|]. unfold no_csi_node. right. by left.
      * apply issues_bind; [apply IsJobShouldBeRecycled_issues|]. intros t' [] Hr; [|done].
        split; [|by intros a]. rewrite <- app_assoc. apply Hdel. left. rewrite app_assoc. by apply Hrec.
  - apply (issues_runs (S := jfs) app_umounts _ [] _ _) with (2 := Hr). clear Hr t o.
    split; [done|]. intros [pod|e]; [|done]. cbn [bind].
    destruct (ShouldInQueue (Some pod)) eqn:Eq; cbn [negb]; [|done].
    apply issues_bind; [|by intros t' e _].
    by apply (umount_containers_issues pod Caller (rq_Name request) (rq_Namespace request)).
Qed.
End controllers.
