(* ===== verification/DashboardFacts.v ===== *)
(** * The dashboard: order and pages

    The indexes stay ordered by creation as long as all indexed resources can
    be read; one that cannot be read breaks the order.  The pages of a list
    cover it, within the range of the numbers of the query. *)
From S2P Require Import Prelude.
From S2P Require Import GoStrings.
From S2P Require Import Decimal.
From S2P Require Import K8s.
From S2P Require Import Prog.
From S2P Require Import Effects.
From S2P Require Import Config.
From S2P Require Import Util.
From S2P Require Import PodUtil.
From S2P Require Import MountTable.
From S2P Require Import Dashboard.
From S2P Require Import DashboardApi.
From stdpp Require Import sorting.
#[local] Open Scope Z_scope.
#[local] Open Scope go_scope.

(** ** The order of the indexes *)

(** The answers for pods come from a cache. *)
Definition cached (cache : NamespacedName -> option Pod) (e : event jfs) : Prop :=
  match e with
  | existT c a =>
      match c return jfs_answer c -> Prop with
      | GetPod _ n ns => fun a => match a with Ok p => cache (ns, n) = Some p | Err _ => cache (ns, n) = None end
      | _ => fun _ => True
      end a
  end.

Lemma filter_none {A} (f : A -> bool) l : Forall (fun x => f x = false) l -> List.filter f l = [].
Proof. induction 1 as [|x l Hx _ IH]; [done|]. cbn. by rewrite Hx. Qed.

Section order.
Context (cache : NamespacedName -> option Pod).

Definition created (n : NamespacedName) : Z := match cache n with Some p => CreationTimestamp (p_meta p) | None => 0 end.
Definition uid (n : NamespacedName) : option string := UID ∘ p_meta <$> cache n.
Definition readable (l : list NamespacedName) : Prop := Forall (fun n => is_Some (cache n)) l.
Definition ordered (l : list NamespacedName) : Prop := StronglySorted (fun a b => created a <= created b) l.

(** The reference: in front of the elements that are not older. *)
Definition insert_by_age (pod : Pod) (l : list NamespacedName) : list NamespacedName :=
  let older n := created n <? CreationTimestamp (p_meta pod) in
  List.filter older l ++ nn_of (p_meta pod) :: List.filter (fun n => negb (older n)) l.

Lemma scan_unread pod back passed e rest t l' :
  back = e :: rest -> cache e = None ->
  runs (add_scan p_meta read_pod (nn_of (p_meta pod)) pod back passed) t (Done l') -> Forall (cached cache) t ->
  l' = nn_of (p_meta pod) :: rev rest ++ passed.
Proof.
  intros -> He (a & t' & -> & Hr) Hc. apply Forall_cons in Hc as [Ha _]. cbn in Ha.
  destruct e as [ns n]. cbn in *. destruct a as [p|]; [congruence|]. by destruct Hr as [_ [= ->]].
Qed.

(** One readable element of the scan. *)
Lemma scan_read pod back passed e p t l' :
  cache e = Some p ->
  runs (add_scan p_meta read_pod (nn_of (p_meta pod)) pod (e :: back) passed) t (Done l') -> Forall (cached cache) t ->
  (UID (p_meta pod) = UID (p_meta p) /\ l' = rev (e :: back) ++ passed) \/
  (UID (p_meta pod) <> UID (p_meta p) /\ CreationTimestamp (p_meta p) < CreationTimestamp (p_meta pod) /\
   l' = rev (e :: back) ++ nn_of (p_meta pod) :: passed) \/
  (UID (p_meta pod) <> UID (p_meta p) /\ CreationTimestamp (p_meta pod) <= CreationTimestamp (p_meta p) /\
   exists t', runs (add_scan p_meta read_pod (nn_of (p_meta pod)) pod back (e :: passed)) t' (Done l') /\
     Forall (cached cache) t').
Proof.
  intros He (a & t' & -> & Hr) Hc. apply Forall_cons in Hc as [Ha Hc]. cbn [cached ev] in Ha.
  destruct e as [ns n]. cbn [fst snd] in Ha. destruct a as [p'|]; [|congruence].
  assert (p' = p) as -> by congruence. cbn [bind] in Hr. case_bool_decide as Hu; [left|right].
  - by destruct Hr as [_ [= ->]].
  - destruct (Z.ltb_spec (CreationTimestamp (p_meta p)) (CreationTimestamp (p_meta pod))) as [Hlt|Hge]; [left|right].
    + by destruct Hr as [_ [= ->]].
    + split_and!; [done|lia|]. by exists t'.
Qed.

(** A resource is the one of its uid. *)
Definition known (pod : Pod) (l : list NamespacedName) : Prop := Some (UID (p_meta pod)) ∈ map uid l.
#[export] Instance known_dec pod l : Decision (known pod l).
Proof. unfold known. apply _. Defined.
Definition consistent (pod : Pod) (l : list NamespacedName) : Prop :=
  Forall (fun n => uid n = Some (UID (p_meta pod)) -> created n = CreationTimestamp (p_meta pod)) l.

Lemma scan_ordered pod back passed t l' :
  readable back -> ordered (rev back) -> consistent pod back ->
  runs (add_scan p_meta read_pod (nn_of (p_meta pod)) pod back passed) t (Done l') -> Forall (cached cache) t ->
  (known pod back -> l' = rev back ++ passed) /\
  (~ known pod back -> l' = insert_by_age pod (rev back) ++ passed).
Proof.
  revert passed t. induction back as [|e back IH]; intros passed t Hrd Ho Hcs Hr Hc.
  { destruct Hr as [_ [= ->]]. split; [by intros ?%elem_of_nil|done]. }
  apply Forall_cons in Hrd as [[p Hp] Hrd]. apply Forall_cons in Hcs as [He Hcs].
  assert (uid e = Some (UID (p_meta p)) /\ created e = CreationTimestamp (p_meta p)) as [Hue Hce].
  { unfold uid, created. by rewrite Hp. }
  cbn [rev] in Ho.
  destruct (scan_read pod back passed e p t l' Hp Hr Hc)
    as [(Hu & ->)|[(Hu & Hlt & ->)|(Hu & Hge & t' & Hr' & Hc')]].
  - split; [done|]. intros Hk. exfalso. apply Hk. unfold known. cbn [map]. rewrite Hue, Hu. by left.
  - assert (Forall (fun n => created n < CreationTimestamp (p_meta pod)) (rev back ++ [e])) as Hall.
    { apply Forall_app. split; [|repeat constructor; lia]. apply Forall_forall. intros x Hx.
      pose proof (StronglySorted_app_1_elem_of _ _ _ x e Ho Hx ltac:(by left)) as Hxe. cbn in Hxe. lia. }
    assert (~ known pod (e :: back)) as Hnk.
    { intros [Hk|(n & Hn & Hin)%list_elem_of_fmap]%elem_of_cons; [congruence|].
      unfold consistent in Hcs. rewrite Forall_forall in Hcs, Hall. specialize (Hcs n Hin (eq_sym Hn)).
      specialize (Hall n). rewrite elem_of_app in Hall.
      assert (n ∈ rev back) as Hin' by by apply list_elem_of_In, (proj1 (in_rev _ _)), list_elem_of_In. specialize (Hall (or_introl Hin')). rewrite Hcs in Hall. by apply Z.lt_irrefl in Hall. }
    split; [done|]. intros _. unfold insert_by_age. cbn [rev].
    rewrite forallb_filter_id, (filter_none _ (rev back ++ [e])); [by rewrite <- !app_assoc| |].
    + eapply Forall_impl; [exact Hall|]. intros n Hn. by apply negb_false_iff, Z.ltb_lt.
    + apply forallb_forall. intros n Hn%list_elem_of_In. rewrite Forall_forall in Hall. apply Z.ltb_lt. by apply Hall.
  - destruct (IH (e :: passed) t' Hrd (StronglySorted_app_1_l _ _ _ Ho) Hcs Hr' Hc') as [IH1 IH2]. split.
    + intros [Hk|Hk]%elem_of_cons; [congruence|]. rewrite (IH1 Hk). cbn. by rewrite <-app_assoc.
    + intros Hk. assert (~ known pod back) as Hk' by (intros ?; apply Hk; by right). rewrite (IH2 Hk').
      unfold insert_by_age. cbn [rev]. rewrite !List.filter_app. cbn [List.filter].
      rewrite (proj2 (Z.ltb_ge (created e) _)) by lia. cbn [negb]. rewrite app_nil_r, <- !app_assoc. cbn [app]. by rewrite <- !app_assoc.
Qed.

Lemma ordered_filter f l : ordered l -> ordered (List.filter f l).
Proof.
  induction 1 as [|n l Hl IH Hn]; [constructor|]. cbn. destruct (f n); [|done]. constructor; [done|].
  rewrite Forall_forall in Hn |- *. intros x [Hx _]%list_elem_of_In%filter_In. by apply Hn, list_elem_of_In.
Qed.

Lemma insert_by_age_ordered pod l :
  cache (nn_of (p_meta pod)) = Some pod -> ordered l -> ordered (insert_by_age pod l).
Proof.
  intros Hp Hl. assert (created (nn_of (p_meta pod)) = CreationTimestamp (p_meta pod)) as Hc.
  { unfold created. by rewrite Hp. }
  unfold insert_by_age. apply StronglySorted_app. split_and!.
  - intros x y [_ Hx%Z.ltb_lt]%list_elem_of_In%filter_In [->|[_ Hy%negb_true_iff%Z.ltb_ge]%list_elem_of_In%filter_In]%elem_of_cons; lia.
  - by apply ordered_filter.
  - constructor; [by apply ordered_filter|]. apply Forall_forall.
    intros x [_ Hx%negb_true_iff%Z.ltb_ge]%list_elem_of_In%filter_In. lia.
Qed.

Lemma insert_by_age_perm pod l : insert_by_age pod l ≡ₚ nn_of (p_meta pod) :: l.
Proof.
  unfold insert_by_age. rewrite <-Permutation_middle. constructor.
  induction l as [|n l IH]; [done|]. cbn. destruct (_ <? _); cbn; [by constructor|].
  rewrite <-Permutation_middle. by constructor.
Qed.

Lemma index_pod_spec pod l t l' :
  runs (index_pod pod l) t (Done l') -> Forall (cached cache) t ->
  cache (nn_of (p_meta pod)) = Some pod -> readable l -> ordered l -> consistent pod l ->
  l' = (if decide (known pod l) then l else insert_by_age pod l) /\ ordered l' /\ (NoDup l -> NoDup l').
Proof.
  intros Hr Hc Hp Hrd Ho Hcs.
  destruct (scan_ordered pod (rev l) [] t l') as [Hk Hnk]; try done.
  { by apply Forall_rev. } { by rewrite rev_involutive. } { by apply Forall_rev. }
  assert (known pod (rev l) <-> known pod l) as Hiff.
  { unfold known. rewrite map_rev, !list_elem_of_In, <-in_rev. done. }
  rewrite rev_involutive, app_nil_r in *. case_decide as Hd.
  - rewrite Hk by by apply Hiff. done.
  - rewrite Hnk by by rewrite Hiff. split; [done|]. split; [by apply insert_by_age_ordered|].
    intros Hn. rewrite insert_by_age_perm. constructor; [|done]. intros Hin. apply Hd. unfold known.
    apply list_elem_of_fmap. exists (nn_of (p_meta pod)). split; [|done]. unfold uid. by rewrite Hp.
Qed.

(** C33: the index inserts by age.  Let all pods of an index that is ordered
    by creation be readable, a uid belong to one creation time.  Then [addIndex]
    leaves the index alone when the pod is in it, and otherwise gives the
    reference insertion, behind the older pods and in front of the others; the
    result is ordered and without duplicates if the index was. *)
Theorem addIndex_inserts pod l t l' :
  runs (index_pod pod l) t (Done l') -> Forall (cached cache) t ->
  cache (nn_of (p_meta pod)) = Some pod -> readable l -> ordered l -> consistent pod l ->
  l' = (if decide (known pod l) then l else insert_by_age pod l) /\ ordered l' /\ (NoDup l -> NoDup l').
Proof. apply index_pod_spec. Qed.

(** An element that cannot be read ends the scan: the new pod goes to the
    front, before pods that are older. *)
Theorem addIndex_stale pod l1 e l2 t l' :
  runs (index_pod pod (l1 ++ e :: l2)) t (Done l') -> Forall (cached cache) t ->
  cache (nn_of (p_meta pod)) = Some pod -> cache e = None -> readable l2 -> ~ known pod l2 ->
  Forall (fun n => CreationTimestamp (p_meta pod) <= created n) l2 ->
  l' = nn_of (p_meta pod) :: l1 ++ l2 /\
  (Exists (fun n => created n < CreationTimestamp (p_meta pod)) l1 -> ~ ordered l').
Proof.
  intros Hr Hc Hp He Hrd Hk Hage.
  assert (l' = nn_of (p_meta pod) :: l1 ++ l2) as ->.
  { unfold index_pod, addIndex in Hr. rewrite rev_app_distr in Hr. cbn [rev] in Hr. rewrite <-app_assoc in Hr. cbn [app] in Hr.
    enough (forall back passed t, rev back ++ passed = l2 ->
      runs (add_scan p_meta read_pod (nn_of (p_meta pod)) pod (back ++ e :: rev l1) passed) t (Done l') ->
      Forall (cached cache) t -> l' = nn_of (p_meta pod) :: l1 ++ l2) as Hgen.
    { apply (Hgen (rev l2) [] t); [by rewrite rev_involutive, app_nil_r|done|done]. }
    clear t Hr Hc. induction back as [|b back IH]; intros passed t Hl Hr Hc.
    - cbn in Hl. subst passed. rewrite (scan_unread pod _ l2 e (rev l1) t l' eq_refl He Hr Hc). by rewrite rev_involutive.
    - assert (b ∈ l2) as Hb by (rewrite <-Hl; cbn; rewrite !elem_of_app; left; right; by left).
      rewrite Forall_forall in Hage. unfold readable in Hrd. rewrite Forall_forall in Hrd.
      destruct (Hrd b Hb) as [p Hbp]. specialize (Hage b Hb).
      assert (uid b = Some (UID (p_meta p)) /\ created b = CreationTimestamp (p_meta p)) as [Hub Hcb].
      { unfold uid, created. by rewrite Hbp. }
      cbn [app] in Hr. destruct (scan_read pod _ _ _ _ _ _ Hbp Hr Hc) as [(Hu & _)|[(_ & Hlt & _)|(_ & _ & t' & Hr' & Hc')]].
      + exfalso. apply Hk. unfold known. rewrite Hu, <-Hub. by apply list_elem_of_fmap_2.
      + exfalso. lia.
      + apply (IH (b :: passed) t'); [|done|done]. rewrite <-Hl. cbn. by rewrite <-app_assoc. }
  split; [done|]. intros (n & Hn & Hlt)%Exists_exists Ho. inversion_clear Ho as [|? ? _ Hall].
  rewrite Forall_forall in Hall. specialize (Hall n). rewrite elem_of_app in Hall. specialize (Hall (or_introl Hn)).
  unfold created at 1 in Hall. rewrite Hp in Hall. lia.
Qed.
End order.

(** ** Pages *)

Section pages.
Context {A : Type}.

(** The page number [current] of the list. *)
Definition page (pageSize current : nat) (l : list A) : list A := take pageSize (drop ((current - 1) * pageSize) l).

Lemma pages_cover pageSize k (l : list A) :
  (length l <= k * pageSize)%nat -> mjoin (map (fun c => page pageSize c l) (seq 1 k)) = l.
Proof.
  intros Hk. enough (forall k, mjoin (map (fun c => page pageSize c l) (seq 1 k)) = take (k * pageSize) l) as ->
    by by apply take_ge.
  clear. induction k as [|k IH]; [done|]. rewrite seq_S, map_app, join_app, IH. cbn [map mjoin list_join app].
  rewrite app_nil_r. unfold page. replace (1 + k - 1)%nat with k by lia.
  rewrite take_take_drop. f_equal. lia.
Qed.

Lemma page_bounds_exact pageSize current n :
  0 < pageSize -> 0 < current -> current * pageSize < W64 ->
  page_bounds pageSize current n =
    if n <=? (current - 1) * pageSize then None
    else Some ((current - 1) * pageSize, Z.min n (current * pageSize)).
Proof.
  intros Hp Hc Hb. unfold page_bounds. rewrite (Z.mod_small ((current - 1) * pageSize)) by nia.
  destruct (n <=? _) eqn:E; [done|]. rewrite Z.mod_small by nia.
  replace ((current - 1) * pageSize + pageSize) with (current * pageSize) by lia.
  do 2 f_equal. destruct (Z.ltb_spec n (current * pageSize)); lia.
Qed.

Lemma page_of_exact pageSize current (l : list A) :
  (0 < pageSize)%nat -> (0 < current)%nat -> Z.of_nat current * Z.of_nat pageSize < W64 ->
  page_of (Z.of_nat pageSize) (Z.of_nat current) l = Ret (page pageSize current l).
Proof.
  intros Hp Hc Hb. unfold page_of. rewrite page_bounds_exact by lia. unfold page.
  destruct (Z.leb_spec (Z.of_nat (length l)) ((Z.of_nat current - 1) * Z.of_nat pageSize)) as [Hle|Hlt].
  - rewrite drop_ge by nia. by rewrite take_nil.
  - unfold slice. rewrite (proj2 (Z.ltb_ge _ _)) by nia. f_equal.
    replace (Z.to_nat ((Z.of_nat current - 1) * Z.of_nat pageSize)) with ((current - 1) * pageSize)%nat by nia.
    destruct (Z.min_spec (Z.of_nat (length l)) (Z.of_nat current * Z.of_nat pageSize)) as [[Hm ->]|[Hm ->]].
    + rewrite !take_ge; [done|rewrite length_drop; nia..].
    + f_equal. nia.
Qed.

(** With the largest numbers of a query the bounds of the slice wrap. *)
Lemma page_of_wraps (l : list A) :
  2 < Z.of_nat (length l) < W64 -> page_of (W64 - 1) (W64 - 1) l = panic "slice bounds out of range".
Proof.
  intros [H1 H2]. unfold page_of, page_bounds.
  replace ((W64 - 1 - 1) * (W64 - 1) mod W64) with 2 by (vm_compute; reflexivity).
  rewrite (proj2 (Z.leb_gt _ _)) by lia.
  replace ((2 + (W64 - 1)) mod W64) with 1 by (vm_compute; reflexivity).
  rewrite (proj2 (Z.ltb_ge _ _)) by lia. reflexivity.
Qed.
End pages.

Lemma page_params_pos q pageSize current :
  page_params q = inl (pageSize, current) -> 0 < pageSize < W64 /\ 0 < current < W64.
Proof.
  assert (forall s v, ParseUint s = Some v -> v < W64 /\ 0 <= v) as Hp.
  { intros s v Hs. destruct s as [|c s]; [done|]. cbn -[digits_value] in Hs. apply bind_Some in Hs as (w & Hd & Hv).
    destruct (Z.ltb_spec w (2 ^ 64)) as [Hlt|]; [|done]. injection Hv as ->. split; [exact Hlt|]. by eapply (digits_value_nonneg _ 0). }
  unfold page_params. destruct (ParseUint (sget q "pageSize")) as [[|p|p]|] eqn:Ep; try done;
    destruct (ParseUint (sget q "current")) as [[|c|c]|] eqn:Ec; try done;
    intros [= <- <-]; apply Hp in Ep, Ec; lia.
Qed.

(** *** What a list handler answers *)

Section list_handler.
Context {T : Type} (get : NamespacedName -> M (res T)) (P : event jfs -> Prop) (cache : NamespacedName -> option T).
(** Under [P], the reader shows the cache. *)
Hypothesis reads : forall n t o, runs (get n) t o -> Forall P t ->
  exists r, o = Done r /\ match r with Ok x => cache n = Some x | Err _ => cache n = None end.

(** The required resources of an index, in its order. *)
Definition selected (required : T -> bool) (l : list NamespacedName) : list T := List.filter required (omap cache l).

Lemma collect_selected required l t o :
  runs (collect get required l) t o -> Forall P t -> o = Done (selected required l).
Proof.
  unfold collect. enough (forall acc t o, runs (fold_prog l (fun name acc => r <- get name ;;
    Ret match r with Ok x => if required x then acc ++ [x] else acc | Err _ => acc end) acc) t o -> Forall P t ->
    o = Done (acc ++ selected required l)) as Hgen by (intros Hr Hc; by apply (Hgen [] t o)).
  clear t o. induction l as [|n l IH]; intros acc t o Hr Hc.
  { destruct Hr as [_ ->]. unfold selected. cbn. by rewrite app_nil_r. }
  cbn [fold_prog] in Hr. apply runs_bind in Hr as [(t1 & t2 & acc' & -> & Hb & Hr)|(s & Hb & ->)].
  - apply Forall_app in Hc as [Hc1 Hc2]. specialize (IH acc' t2 o Hr Hc2). rewrite IH. f_equal.
    apply runs_bind in Hb as [(u1 & u2 & r & -> & Hg & [-> [= ->]])|(s & _ & [=])].
    rewrite app_nil_r in Hc1. destruct (reads n u1 _ Hg Hc1) as (r' & [= <-] & Hx).
    unfold selected. cbn. destruct r as [x|e]; rewrite Hx; [|done]. cbn.
    destruct (required x); [by rewrite <-app_assoc|done].
  - apply runs_bind in Hb as [(u1 & u2 & r & -> & _ & [_ [=]])|(s' & Hg & _)].
    destruct (reads n t _ Hg Hc) as (r' & [=] & _).
Qed.

Lemma list_page_exact index descend required q pageSize current t o :
  page_params q = inl (pageSize, current) ->
  runs (list_page get index descend required q) t o -> Forall P t ->
  let l := selected required (iterate descend index) in
  runs (page <- page_of pageSize current l ;; Ret [IndentedJSON (Z.of_nat (length l), page)]) [] o.
Proof.
  intros Hq Hr Hc l. unfold list_page in Hr. rewrite Hq in Hr.
  apply runs_bind in Hr as [(t1 & t2 & l' & -> & Hl & Hr)|(s & Hl & ->)].
  - apply Forall_app in Hc as [Hc1 _]. pose proof (collect_selected _ _ _ _ Hl Hc1) as [= ->]. fold l in Hr.
    enough (t2 = []) as -> by done. unfold page_of, slice in Hr.
    destruct (page_bounds _ _ _) as [[i k]|]; [destruct (k <? i)|]; by destruct Hr as [? _].
  - by pose proof (collect_selected _ _ _ _ Hl Hc) as [=].
Qed.
End list_handler.

(** The answers for volumes come from a cache. *)
Definition cached_pv (cache : NamespacedName -> option PersistentVolume) (e : event jfs) : Prop :=
  match e with
  | existT c a =>
      match c return jfs_answer c -> Prop with
      | GetPersistentVolume n => fun a => match a with Ok v => cache ("", n) = Some v | Err _ => cache ("", n) = None end
      | _ => fun _ => True
      end a
  end.
(** The cluster-wide resources of a cache. *)
Definition cluster_wide {T} (cache : NamespacedName -> option T) (n : NamespacedName) : option T := cache ("", n.2).

(** C35: the pages of the volumes.  The list handler answers every query with
    the number of the volumes of its index that can be read and pass its
    filters, and the page asked for of these, in the order of the index or the
    reverse, as long as the product of page number and page size fits 64 bits;
    the pages one after the other are all of them, each once.  With the largest
    numbers a query accepts, the product wraps and the handler panics on every
    list of more than two volumes. *)
Theorem listPVs_pages cache a q pageSize current t o :
  page_params q = inl (pageSize, current) ->
  runs (listPVsHandler a q) t o -> Forall (cached_pv cache) t ->
  let l := selected (cluster_wide cache) (pv_required q)
             (if decide (sget q "order" = "ascend") then pvIndexes a else rev (pvIndexes a)) in
  (current * pageSize < W64 ->
     o = Done [IndentedJSON (Z.of_nat (length l), page (Z.to_nat pageSize) (Z.to_nat current) l)]) /\
  (forall k, (length l <= k * Z.to_nat pageSize)%nat ->
     mjoin (map (fun c => page (Z.to_nat pageSize) c l) (seq 1 k)) = l) /\
  (pageSize = W64 - 1 -> current = W64 - 1 -> 2 < Z.of_nat (length l) < W64 ->
     o = Halted (GoPanic "slice bounds out of range")).
Proof.
  intros Hq Hr Hc. destruct (page_params_pos _ _ _ Hq) as [Hp Hcur].
  assert (forall n t o, runs (read_pv n) t o -> Forall (cached_pv cache) t ->
    exists r, o = Done r /\ match r with Ok x => cluster_wide cache n = Some x | Err _ => cluster_wide cache n = None end) as Hreads.
  { intros n u o' (r & t' & -> & _ & ->) [Hn _]%Forall_cons. by exists r. }
  pose proof (list_page_exact _ _ _ Hreads _ _ _ _ _ _ _ _ Hq Hr Hc) as Ho. cbv zeta in Ho.
  assert (iterate (negb (bool_decide (sget q "order" = "ascend"))) (pvIndexes a) =
    if decide (sget q "order" = "ascend") then pvIndexes a else rev (pvIndexes a)) as Hi by by case_bool_decide; case_decide.
  rewrite Hi in Ho. intros l. fold l in Ho. split_and!.
  - intros Hb. assert (page_of pageSize current l = Ret (page (Z.to_nat pageSize) (Z.to_nat current) l)) as E.
    { rewrite <-page_of_exact, !Z2Nat.id by lia. done. }
    rewrite E in Ho. by destruct Ho as [_ ->].
  - intros k Hk. by apply pages_cover.
  - intros -> -> Hl. rewrite page_of_wraps in Ho by done. by destruct Ho as [_ ->].
Qed.

(** ** CSI nodes *)

(** A CSI node that is indexed but gone is answered with an empty pod and
    status 200. *)
Theorem getCSINodeByName_gone a nodeName name e :
  csiNodeIndex a !! nodeName = Some name -> name <> ("", "") -> nodeName <> "" -> IsNotFound e = true ->
  runs (getCSINodeByName a nodeName) [ev (S := jfs) (GetPod Caller name.2 name.1) (Err e)] (Done [IndentedJSON zero_pod]).
Proof.
  intros Hn Hne Hnn He. unfold getCSINodeByName, getCSINode. rewrite bool_decide_false by done. rewrite Hn.
  cbn [default]. rewrite bool_decide_false by done. exists (Err e), []. split; [done|]. cbn. by rewrite He.
Qed.

(** The dashboard finds the app pod of a target as the mount pod driver does. *)
Lemma getUidFunc_getPodUid target : getUidFunc target = getPodUid target.
Proof. reflexivity. Qed.
