(* ===== verification/DashboardSync.v ===== *)
(** * The dashboard follows the cluster

    The indexes of the pods are kept by two goroutines that share the cache of
    an informer: the handler of its events queues the names of changed pods and
    removes the names of deleted ones; the worker takes a name from the queue,
    reads the pod, then the index in which it inserts it.  This file is the step
    relation of cache, events, queue, worker and indexes, one step for each
    access to what they share.  It proves that no labelled pod is missed in any
    interleaving, and that the indexes refine the ordered sets of the pods to be
    shown as long as no pod is deleted while the worker is busy. *)
From S2P Require Import Prelude.
From S2P Require Import GoStrings.
From S2P Require Import K8s.
From S2P Require Import Prog.
From S2P Require Import Effects.
From S2P Require Import Config.
From S2P Require Import Util.
From S2P Require Import PodUtil.
From S2P Require Import MountTable.
From S2P Require Import Dashboard.
From S2P Require Import DashboardFacts.
From stdpp Require Import sorting.
#[local] Open Scope Z_scope.
#[local] Open Scope go_scope.

(** ** The board *)

Abbreviation pod_cache := (gmap NamespacedName Pod).

(** The events of the informer, in the order of the changes of its cache; a
    deletion carries the last that was seen of the pod. *)
Inductive pod_event := Changed (n : NamespacedName) | Deleted (p : Pod).
Definition event_name (e : pod_event) : NamespacedName :=
  match e with Changed n => n | Deleted p => nn_of (p_meta p) end.

(** The worker of the pod controller: idle, before its reading of the pod, while
    it finds out whether the pod concerns it, and while it holds the lock of the
    pod's index and scans it.  What it still has to do is the rest of the
    program. *)
Inductive worker :=
| Idle
| Fetching (n : NamespacedName)
| Judging (n : NamespacedName) (p : Pod) (rest : M bool)
| Indexing (n : NamespacedName) (p : Pod) (rest : M (list NamespacedName)).
Definition at_work (w : worker) : option NamespacedName :=
  match w with Idle => None | Fetching n | Judging n _ _ | Indexing n _ _ => Some n end.
(** The worker holds the lock of an index: of the driver's pods or of the apps. *)
Definition locks (w : worker) (sys : bool) : bool :=
  match w with Indexing _ p _ => Bool.eqb (isSysPod p) sys | _ => false end.

Record board := {
  b_cache : pod_cache; b_events : list pod_event; b_queue : gset NamespacedName; b_work : worker; b_api : API;
}.

(** A pod belongs to the driver or to an app by its labels; the others use no
    claims. *)
Definition orderly (p : Pod) : bool :=
  negb (isAppPod p && isSysPod p) && (isAppPod p || isSysPod p || bool_decide (omap v_pvc (Volumes (p_spec p)) = [])).
(** What does not change in the life of a pod. *)
Definition same_pod (p q : Pod) : Prop :=
  UID (p_meta p) = UID (p_meta q) /\ CreationTimestamp (p_meta p) = CreationTimestamp (p_meta q) /\
  isAppPod p = isAppPod q /\ isSysPod p = isSysPod q.

(** The controllers and handlers of volumes and claims write the rest of the
    state, in small steps. *)
Definition volume_write (a a' : API) : Prop :=
  (exists f, a' = set_pv f a) \/ (exists f, a' = set_pvc f a) \/ (exists f, a' = set_pairs f a).

(** The steps of the worker: [PodReconcile], one reading at a time.  The map of
    CSI nodes is written together with the access to the index next to it. *)
Inductive worker_step (c : pod_cache) : worker -> API -> worker -> API -> Prop :=
| pod_missing n a : c !! n = None -> worker_step c (Fetching n) a Idle a
| pod_fetched n p a : c !! n = Some p -> worker_step c (Fetching n) a (Judging n p (concerns p)) a
| claim_read n p cmd k ans a : worker_step c (Judging n p (Vis cmd k)) a (Judging n p (k ans)) a
| pod_foreign n p a : worker_step c (Judging n p (Ret false)) a Idle a
| pod_dropped n p a : is_deleted p = true -> worker_step c (Judging n p (Ret true)) a Idle (drop_pod n p a)
| index_locked n p a :
    is_deleted p = false ->
    worker_step c (Judging n p (Ret true)) a
      (Indexing n p (index_pod p (pod_index p (announce_pod p a)))) (announce_pod p a)
| element_read n p cmd k ans a :
    cached (fun n => c !! n) (existT cmd ans) -> worker_step c (Indexing n p (Vis cmd k)) a (Indexing n p (k ans)) a
| pod_indexed n p l a : worker_step c (Indexing n p (Ret l)) a Idle (set_pod_index p l a).

(** An undisturbed worker runs [PodReconcile]. *)
Definition worker_alone (c : pod_cache) (x y : worker * API) : Prop := worker_step c x.1 x.2 y.1 y.2.

Lemma alone_l c w a w' a' z :
  worker_step c w a w' a' -> rtc (worker_alone c) (w', a') z -> rtc (worker_alone c) (w, a) z.
Proof. intros Hs. by apply (rtc_l (worker_alone c) (w, a) (w', a') z). Qed.
Lemma alone_once c w a w' a' : worker_step c w a w' a' -> rtc (worker_alone c) (w, a) (w', a').
Proof. intros Hs. by eapply alone_l. Qed.

Lemma judging_alone c n p (prog : M bool) a t b :
  runs prog t (Done b) -> rtc (worker_alone c) (Judging n p prog, a) (Judging n p (Ret b), a).
Proof.
  revert t. induction prog as [x|s|cmd k IH]; intros t Hr; [by destruct Hr as [_ [= ->]]|by destruct Hr|].
  destruct Hr as (ans & t' & -> & Hr). eapply alone_l; [by apply (claim_read c n p cmd k ans a)|]. by eapply IH.
Qed.
Lemma indexing_alone c n p (prog : M (list NamespacedName)) a t l :
  runs prog t (Done l) -> Forall (cached (fun n => c !! n)) t ->
  rtc (worker_alone c) (Indexing n p prog, a) (Indexing n p (Ret l), a).
Proof.
  revert t. induction prog as [x|s|cmd k IH]; intros t Hr Hc; [by destruct Hr as [_ [= ->]]|by destruct Hr|].
  destruct Hr as (ans & t' & -> & Hr). apply Forall_cons in Hc as [Ha Hc].
  eapply alone_l; [by apply (element_read c n p cmd k ans a)|]. by eapply IH.
Qed.

Lemma PodReconcile_alone c a n t a' e :
  runs (PodReconcile a n) t (Done (a', e)) -> Forall (cached (fun n => c !! n)) t ->
  rtc (worker_alone c) (Fetching n, a) (Idle, a').
Proof.
  intros ([p|er] & t' & -> & Hr) [Hp Hc]%Forall_cons; cbn [bind] in Hr; cbn [cached] in Hp; destruct n as [ns n]; cbn [fst snd] in Hp.
  2: { destruct Hr as [_ [= -> _]]. by apply alone_once, pod_missing. }
  apply runs_bind_done in Hr as (t1 & t2 & ours & -> & Hj & Hr). apply Forall_app in Hc as [_ Hc].
  eapply alone_l; [by apply (pod_fetched c (ns, n) p)|]. etrans; [by eapply judging_alone|].
  destruct ours; cbn [negb] in Hr; [|destruct Hr as [_ [= -> _]]; by apply alone_once, pod_foreign].
  destruct (is_deleted p) eqn:Ed; [destruct Hr as [_ [= -> _]]; by apply alone_once, pod_dropped|].
  apply runs_bind_done in Hr as (t3 & t4 & l & -> & Hi & [_ [= -> _]]). apply Forall_app in Hc as [Hc _].
  eapply alone_l; [by apply (index_locked c (ns, n) p)|]. etrans; [by eapply indexing_alone|].
  by apply alone_once, pod_indexed.
Qed.

Section board.
(** A uid is of one name, in all time. *)
Context (owner : string -> NamespacedName).

Definition owned (n : NamespacedName) (p : Pod) : Prop := nn_of (p_meta p) = n /\ owner (UID (p_meta p)) = n.
Definition identified (c : pod_cache) : Prop := forall n p, c !! n = Some p -> owned n p.

Definition no_deletion (es : list pod_event) : Prop := Forall (fun e => exists n, e = Changed n) es.

(** The steps.  In a [calm] cluster the pods are orderly, no pod is deleted while
    the worker is busy, and the handler of a deletion has run before the worker
    goes on and before another pod changes. *)
Inductive board_step (calm : bool) (b : board) : board -> Prop :=
| pod_changed n p :
    owned n p ->
    (calm = true -> orderly p = true /\ no_deletion (b_events b) /\ forall o, b_cache b !! n = Some o -> same_pod o p) ->
    board_step calm b {| b_cache := <[ n := p ]> (b_cache b); b_events := b_events b ++ [Changed n];
                         b_queue := b_queue b; b_work := b_work b; b_api := b_api b |}
| pod_deleted n o p :
    b_cache b !! n = Some o -> nn_of (p_meta p) = n ->
    (calm = true -> b_work b = Idle /\ no_deletion (b_events b) /\ same_pod o p) ->
    board_step calm b {| b_cache := delete n (b_cache b); b_events := b_events b ++ [Deleted p];
                         b_queue := b_queue b; b_work := b_work b; b_api := b_api b |}
| change_handled n es :
    b_events b = Changed n :: es ->
    board_step calm b {| b_cache := b_cache b; b_events := es;
                         b_queue := {[ n ]} ∪ b_queue b; b_work := b_work b; b_api := b_api b |}
| deletion_handled p es :
    b_events b = Deleted p :: es ->
    (isAppPod p = true -> locks (b_work b) false = false) ->
    (isAppPod p = false -> isSysPod p = true -> locks (b_work b) true = false) ->
    board_step calm b {| b_cache := b_cache b; b_events := es;
                         b_queue := if (PodDeleted (b_api b) p).2 then {[ nn_of (p_meta p) ]} ∪ b_queue b else b_queue b;
                         b_work := b_work b; b_api := (PodDeleted (b_api b) p).1 |}
| name_taken n :
    b_work b = Idle -> n ∈ b_queue b -> (calm = true -> no_deletion (b_events b)) ->
    board_step calm b {| b_cache := b_cache b; b_events := b_events b; b_queue := b_queue b ∖ {[ n ]};
                         b_work := Fetching n; b_api := b_api b |}
| worker_moved w a :
    worker_step (b_cache b) (b_work b) (b_api b) w a -> (calm = true -> no_deletion (b_events b)) ->
    board_step calm b {| b_cache := b_cache b; b_events := b_events b; b_queue := b_queue b; b_work := w; b_api := a |}
| volumes_written a :
    volume_write (b_api b) a ->
    board_step calm b {| b_cache := b_cache b; b_events := b_events b; b_queue := b_queue b; b_work := b_work b; b_api := a |}.

(** At the start every pod of the cache is announced. *)
Definition board_of (c : pod_cache) : board :=
  {| b_cache := c; b_events := map Changed (elements (dom c)); b_queue := ∅; b_work := Idle; b_api := NewAPI |}.
Definition board_reachable (calm : bool) (c : pod_cache) : board -> Prop := rtc (board_step calm) (board_of c).

(** Nothing is left to be done for a name. *)
Definition quiet (n : NamespacedName) (b : board) : Prop := (n ∉ map event_name (b_events b)) /\ n ∉ b_queue b.
Definition settled (n : NamespacedName) (b : board) : Prop := quiet n b /\ at_work (b_work b) <> Some n.

(** ** The indexes of pods and the other writers *)

Definition same_pod_indexes (a a' : API) : Prop := appIndexes a' = appIndexes a /\ sysIndexes a' = sysIndexes a.

Lemma volume_write_pods a a' : volume_write a a' -> same_pod_indexes a a'.
Proof. by intros [[f ->]|[[f ->]|[f ->]]]. Qed.
Lemma forget_csi_node_pods p a : same_pod_indexes a (forget_csi_node p a).
Proof. unfold forget_csi_node. by destruct (isCsiNode p). Qed.
Lemma announce_pod_pods p a : same_pod_indexes a (announce_pod p a).
Proof. unfold announce_pod, remember_csi_node. destruct (isSysPod p); [|done]. by destruct (_ && _). Qed.
Lemma pod_index_same p a a' : same_pod_indexes a a' -> pod_index p a' = pod_index p a.
Proof. intros [Ha Hs]. unfold pod_index. by rewrite Ha, Hs. Qed.

(** The handlers and reconcilers of volumes and claims are such writers. *)
Lemma volume_writes_reconcilers a n :
  (forall t a' e, runs (PVReconcile a n) t (Done (a', e)) -> rtc volume_write a a') /\
  (forall t a' e, runs (PVCReconcile a n) t (Done (a', e)) -> rtc volume_write a a') /\
  (forall old new, rtc volume_write a (PVCUpdated a old new).1) /\ (forall pvc, rtc volume_write a (PVCDeleted a pvc).1).
Proof.
  assert (forall f x, volume_write x (set_pv f x)) as W1 by (left; by eexists).
  assert (forall f x, volume_write x (set_pvc f x)) as W2 by (right; left; by eexists).
  assert (forall f x, volume_write x (set_pairs f x)) as W3 by (right; right; by eexists).
  split_and!.
  - intros t a' e ([pv|er] & t' & -> & Hr); cbn [bind] in Hr.
    + destruct (DeletionTimestamp (pv_meta pv)).
      { destruct Hr as [_ [= -> _]]. destruct (claim_of pv); [|by apply rtc_once].
        eapply rtc_l; [apply W1|]. eapply rtc_l; [apply W3|]. apply rtc_once, W2. }
      apply runs_bind_done in Hr as (t1 & t2 & l & -> & _ & Hr). eapply rtc_l; [apply (W1 (fun _ => l))|].
      destruct (claim_of pv); [|by destruct Hr as [_ [= -> _]]].
      destruct Hr as ([pvc|er] & t3 & -> & Hr); cbn [bind] in Hr; [|destruct Hr as [_ [= -> _]]; apply rtc_once, W3].
      apply runs_bind_done in Hr as (t4 & t5 & l' & -> & _ & [_ [= -> _]]). eapply rtc_l; [apply W3|]. apply rtc_once, W2.
    + destruct (IsNotFound er), Hr as [_ [= -> _]]; [apply rtc_once, W1|done].
  - intros t a' e ([pvc|er] & t' & -> & Hr); cbn [bind] in Hr; [|by destruct Hr as [_ [= -> _]]].
    case_bool_decide; [by destruct Hr as [_ [= -> _]]|]. case_bool_decide.
    { apply runs_bind_done in Hr as (t4 & t5 & l' & -> & _ & [_ [= -> _]]). apply rtc_once, W2. }
    case_bool_decide; [|by destruct Hr as [_ [= -> _]]].
    match type of Hr with runs (if ?b then _ else _) _ _ => destruct b end; [by destruct Hr as [_ [= -> _]]|].
    destruct Hr as ([pv|er] & t3 & -> & Hr); cbn [bind] in Hr; destruct Hr as [_ [= -> _]]; [apply rtc_once, W3|done].
  - intros old new. unfold PVCUpdated. destruct (_ && _); [apply rtc_once, W3|done].
  - intros pvc. eapply rtc_l; [apply W2|]. apply rtc_once, W3.
Qed.

(** ** No labelled pod is missed *)

Lemma elem_of_removeIndex_ne n m l : m <> n -> m ∈ l -> m ∈ removeIndex n l.
Proof.
  intros Hne. induction l as [|e l IH]; [done|]. cbn. case_bool_decide; rewrite !elem_of_cons; [|tauto].
  intros [->|?]; [congruence|done].
Qed.

(** A cached name has, behind every pending deletion, a pending change. *)
Definition announced (b : board) : Prop :=
  forall n p l1 l2, is_Some (b_cache b !! n) -> b_events b = l1 ++ Deleted p :: l2 -> nn_of (p_meta p) = n -> Changed n ∈ l2.

(** The scan of the pod [p] of the name [n], whose index was [l] when it was
    locked: the names of the index that can be read are kept. *)
Definition scan_keeps (p : Pod) (n : NamespacedName) (l : list NamespacedName) (b : board) (rest : M (list NamespacedName)) : Prop :=
  (exists l', rest = Ret l' /\ n ∈ l' /\ forall m, m ∈ l -> quiet m b -> is_Some (b_cache b !! m) -> m ∈ l') \/
  (exists back passed, rest = add_scan p_meta read_pod n p back passed /\ forall m, m ∈ l -> m ∈ back \/ m ∈ passed).

(** What the worker knows. *)
Definition knows (n : NamespacedName) (p : Pod) (b : board) : Prop :=
  owned n p /\ (quiet n b -> forall q, b_cache b !! n = Some q -> q = p).
Definition worker_ok (b : board) : Prop :=
  match b_work b with
  | Idle | Fetching _ => True
  | Judging n p rest => knows n p b /\ (isSysPod p || isAppPod p = true -> rest = Ret true)
  | Indexing n p rest => knows n p b /\ scan_keeps p n (pod_index p (b_api b)) b rest
  end.

(** The labelled live pods that are settled are in their index. *)
Definition shown (n : NamespacedName) (p : Pod) (a : API) : Prop :=
  if isSysPod p then n ∈ sysIndexes a else (isAppPod p = true -> n ∈ appIndexes a).
Record shows (b : board) : Prop := {
  sh_identified : identified (b_cache b);
  sh_announced : announced b;
  sh_worker : worker_ok b;
  sh_shown n p : settled n b -> b_cache b !! n = Some p -> is_deleted p = false -> shown n p (b_api b);
}.

(** A step that leaves the quiet names, their pods and the worker alone. *)
Lemma knows_kept n p b b' :
  (quiet n b' -> forall q, b_cache b' !! n = Some q -> quiet n b /\ b_cache b !! n = Some q) -> knows n p b -> knows n p b'.
Proof. intros Hq [Ho Hk]. split; [done|]. intros Hqu q Hl. destruct (Hq Hqu q Hl). by apply Hk. Qed.
Lemma scan_keeps_kept p n l b b' rest :
  (forall m, quiet m b' -> is_Some (b_cache b' !! m) -> quiet m b /\ is_Some (b_cache b !! m)) ->
  scan_keeps p n l b rest -> scan_keeps p n l b' rest.
Proof.
  intros Hq [(l' & -> & Hn & Hk)|Hs]; [left|by right]. exists l'. split_and!; [done..|]. intros m Hm Hqu Hs.
  destruct (Hq m Hqu Hs). by apply Hk.
Qed.

(** A step of the rest of the cluster, or of the handler: what is quiet after it
    was so before, with the same pod. *)
Lemma shows_step b b' :
  shows b -> identified (b_cache b') -> announced b' -> b_work b' = b_work b ->
  (forall n p, quiet n b' -> b_cache b' !! n = Some p -> quiet n b /\ b_cache b !! n = Some p) ->
  (forall n p, quiet n b' -> b_cache b' !! n = Some p -> shown n p (b_api b) -> shown n p (b_api b')) ->
  (forall sys, locks (b_work b) sys = true ->
     if sys then sysIndexes (b_api b') = sysIndexes (b_api b) else appIndexes (b_api b') = appIndexes (b_api b)) ->
  shows b'.
Proof.
  intros [_ _ Hw Hsh] Hid Han Hwork Hq Hkeep Hlock. split; [done|done| |].
  - unfold worker_ok in *. rewrite Hwork. destruct (b_work b) as [|n|n p rest|n p rest]; [done|done|..].
    + destruct Hw as [Hk Hr]. split; [|done]. eapply knows_kept; [|done]. intros Hqu q. by apply Hq.
    + destruct Hw as [Hk Hs]. split; [eapply knows_kept; [|done]; intros Hqu q; by apply Hq|].
      assert (pod_index p (b_api b') = pod_index p (b_api b)) as ->.
      { specialize (Hlock (isSysPod p)). cbn in Hlock. rewrite eqb_reflx in Hlock. unfold pod_index.
        destruct (isSysPod p); by apply Hlock. }
      eapply scan_keeps_kept; [|done]. intros m Hqu [q Hq']. destruct (Hq m q Hqu Hq') as [? ->]. by split.
  - intros n p [Hqu Hn] Hl Hd. rewrite Hwork in Hn. destruct (Hq n p Hqu Hl) as [Hqu' Hl'].
    apply Hkeep; [done..|]. apply Hsh; [by split|done..].
Qed.

Lemma shown_same n p a a' : same_pod_indexes a a' -> shown n p a -> shown n p a'.
Proof. intros [Ha Hs]. unfold shown. by rewrite Ha, Hs. Qed.

Lemma announced_tail b e es :
  announced b -> b_events b = e :: es -> forall b', b_cache b' = b_cache b -> b_events b' = es -> announced b'.
Proof.
  intros Ha He b' Hc Hes n p l1 l2 Hs Hl Hn. rewrite Hc in Hs. apply (Ha n p (e :: l1) l2 Hs); [|done]. by rewrite He, <-Hes, Hl.
Qed.

Lemma pod_changed_shows b n p b' :
  b' = {| b_cache := <[ n := p ]> (b_cache b); b_events := b_events b ++ [Changed n];
          b_queue := b_queue b; b_work := b_work b; b_api := b_api b |} ->
  owned n p -> shows b -> shows b'.
Proof.
  intros -> Ho Hb. assert (forall m q, quiet m {| b_cache := <[ n := p ]> (b_cache b); b_events := b_events b ++ [Changed n];
      b_queue := b_queue b; b_work := b_work b; b_api := b_api b |} -> <[ n := p ]> (b_cache b) !! m = Some q ->
      quiet m b /\ b_cache b !! m = Some q) as Hq.
  { intros m q [He Hqu] Hl. cbn in He, Hqu. rewrite map_app, elem_of_app in He. cbn in He.
    rewrite lookup_insert_ne in Hl by set_solver. split; [|done]. split; [tauto|done]. }
  apply (shows_step b); cbn; [done| | |done|exact Hq|done|by intros []].
  - intros m q [[-> ->]|[_ Hl]]%lookup_insert_Some; [done|]. by apply (sh_identified _ Hb).
  - intros m q l1 l2 Hs Hl Hn. cbn in *. destruct l2 as [|x l2 _] using rev_ind; [by apply app_inj_tail in Hl as [_ [=]]|].
    rewrite app_comm_cons, app_assoc in Hl. apply app_inj_tail in Hl as [Hl <-]. apply elem_of_app.
    destruct (decide (m = n)) as [->|Hne]; [right; by left|left]. rewrite lookup_insert_ne in Hs by done.
    by eapply (sh_announced _ Hb).
Qed.

Lemma pod_deleted_shows b n p b' :
  b' = {| b_cache := delete n (b_cache b); b_events := b_events b ++ [Deleted p];
          b_queue := b_queue b; b_work := b_work b; b_api := b_api b |} ->
  nn_of (p_meta p) = n -> shows b -> shows b'.
Proof.
  intros -> Hp Hb. apply (shows_step b); cbn; [done| | |done| |done|by intros []].
  - intros m q [_ Hl]%lookup_delete_Some. by apply (sh_identified _ Hb).
  - intros m q l1 l2 Hs Hl Hn. cbn in *. apply lookup_delete_is_Some in Hs as [Hne Hs].
    destruct l2 as [|x l2 _] using rev_ind; [apply app_inj_tail in Hl as [_ [= ->]]; congruence|].
    rewrite app_comm_cons, app_assoc in Hl. apply app_inj_tail in Hl as [Hl <-]. apply elem_of_app. left.
    by eapply (sh_announced _ Hb).
  - intros m q [He Hqu] [_ Hl]%lookup_delete_Some. cbn in He, Hqu. rewrite map_app, elem_of_app in He. split; [|done]. by split; [tauto|].
Qed.

Lemma change_handled_shows b n es b' :
  b' = {| b_cache := b_cache b; b_events := es; b_queue := {[ n ]} ∪ b_queue b; b_work := b_work b; b_api := b_api b |} ->
  b_events b = Changed n :: es -> shows b -> shows b'.
Proof.
  intros -> He Hb. apply (shows_step b); cbn; [done|apply (sh_identified _ Hb)|by eapply announced_tail; [apply (sh_announced _ Hb)|..]|done| |done|by intros []].
  intros m q [Hev Hqu] Hl. cbn in Hev, Hqu. split; [|done]. split; [|set_solver]. rewrite He. cbn. set_solver.
Qed.

Lemma deletion_handled_shows b p es b' :
  b' = {| b_cache := b_cache b; b_events := es;
          b_queue := if (PodDeleted (b_api b) p).2 then {[ nn_of (p_meta p) ]} ∪ b_queue b else b_queue b;
          b_work := b_work b; b_api := (PodDeleted (b_api b) p).1 |} ->
  b_events b = Deleted p :: es ->
  (isAppPod p = true -> locks (b_work b) false = false) ->
  (isAppPod p = false -> isSysPod p = true -> locks (b_work b) true = false) ->
  shows b -> shows b'.
Proof.
  intros -> He Happ Hsys Hb. set (n := nn_of (p_meta p)).
  assert ((pod_namespace p, pod_name p) = n) as Hname by done.
  assert (forall m q, m ∉ map event_name es -> b_cache b !! m = Some q -> m <> n) as Hne.
  { intros m q Hm Hl ->. apply Hm. pose proof (sh_announced _ Hb n p [] es ltac:(by eexists) He eq_refl) as Hin.
    apply list_elem_of_fmap. by exists (Changed n). }
  apply (shows_step b); cbn; [done|apply (sh_identified _ Hb)|by eapply announced_tail; [apply (sh_announced _ Hb)|..]|done|..].
  - intros m q [Hev Hqu] Hl. cbn in Hev, Hqu. split; [|done]. split; [|destruct (PodDeleted _ _).2; set_solver].
    rewrite He. cbn. specialize (Hne m q Hev Hl). fold n. set_solver.
  - intros m q [Hev _] Hl. cbn in Hev. specialize (Hne m q Hev Hl). unfold shown, PodDeleted. rewrite Hname.
    destruct (isAppPod p); [|destruct (isSysPod p); [|done]]; cbn [fst];
      match goal with |- context [forget_csi_node p ?x] => destruct (forget_csi_node_pods p x) as [-> ->] end; cbn;
      destruct (isSysPod q); auto using elem_of_removeIndex_ne.
  - intros sys Hl. unfold PodDeleted. destruct (isAppPod p) eqn:Ea; [|destruct (isSysPod p) eqn:Es]; cbn [fst]; [..|by destruct sys];
      match goal with |- context [forget_csi_node p ?x] => destruct (forget_csi_node_pods p x) as [-> ->] end; cbn;
      destruct sys; try done.
    + by rewrite Happ in Hl.
    + by rewrite Hsys in Hl.
Qed.

(** *** One reading of the scan *)

(** What follows the first command of a program when the cache answers it. *)
Definition after_read {A : Type} (c : pod_cache) (rest : M A) (Q : M A -> Prop) : Prop :=
  match rest with
  | Vis cmd k => forall ans, cached (fun n => c !! n) (existT cmd ans) -> Q (k ans)
  | _ => True
  end.
Lemma after_read_elim {A : Type} c (rest : M A) Q cmd k ans :
  after_read c rest Q -> rest = Vis cmd k -> cached (fun n => c !! n) (existT cmd ans) -> Q (k ans).
Proof. intros Hq ->. apply Hq. Qed.

Inductive scan_goes (c : pod_cache) (p : Pod) (n e : NamespacedName) (back passed : list NamespacedName) :
  M (list NamespacedName) -> Prop :=
| scan_unreadable : c !! e = None -> scan_goes c p n e back passed (Ret (n :: rev back ++ passed))
| scan_known q :
    c !! e = Some q -> UID (p_meta p) = UID (p_meta q) -> scan_goes c p n e back passed (Ret (rev (e :: back) ++ passed))
| scan_older q :
    c !! e = Some q -> UID (p_meta p) <> UID (p_meta q) -> CreationTimestamp (p_meta q) < CreationTimestamp (p_meta p) ->
    scan_goes c p n e back passed (Ret (rev (e :: back) ++ n :: passed))
| scan_on q :
    c !! e = Some q -> UID (p_meta p) <> UID (p_meta q) -> CreationTimestamp (p_meta p) <= CreationTimestamp (p_meta q) ->
    scan_goes c p n e back passed (add_scan p_meta read_pod n p back (e :: passed)).

Lemma scan_goes_on c p n e back passed :
  after_read c (add_scan p_meta read_pod n p (e :: back) passed) (scan_goes c p n e back passed).
Proof.
  destruct e as [ns nm]. cbn [add_scan]. unfold read_pod, sys. cbn [bind after_read fst snd cached].
  intros ans Hq. destruct ans as [q|er]; cbn [bind]; [|by apply scan_unreadable].
  case_bool_decide as Hu; [by eapply scan_known|].
  destruct (Z.ltb_spec (CreationTimestamp (p_meta q)) (CreationTimestamp (p_meta p))); [by eapply scan_older|by eapply scan_on].
Qed.

Lemma scan_keeps_next b p n l cmd k ans :
  identified (b_cache b) -> owned n p -> scan_keeps p n l b (Vis cmd k) ->
  cached (fun n => b_cache b !! n) (existT cmd ans) -> scan_keeps p n l b (k ans).
Proof.
  intros Hid [_ Ho] [(l' & [=] & _)|(back & passed & Hrest & Hl)] Ha. destruct back as [|e back]; [by cbn in Hrest|].
  pose proof (after_read_elim _ _ _ _ _ _ (scan_goes_on _ p n e back passed) (eq_sym Hrest) Ha) as Hgo.
  assert (forall m, m ∈ rev back <-> m ∈ back) as Hrev by (intros m; by rewrite !list_elem_of_In, <-in_rev).
  destruct Hgo as [He|q He Hu|q He _ _|q He _ _]; [left..|right].
  - eexists. split_and!; [done|by left|]. intros m Hm _ [x Hx]. rewrite elem_of_cons, elem_of_app, Hrev.
    destruct (Hl m Hm) as [[->|?]%elem_of_cons|?]; [congruence|tauto..].
  - assert (e = n) as -> by (destruct (Hid e q He) as [_ <-]; congruence). cbn [rev]. eexists. split_and!; [done|set_solver|].
    intros m Hm _ _. rewrite !elem_of_app, Hrev, list_elem_of_singleton. destruct (Hl m Hm) as [[->|?]%elem_of_cons|?]; tauto.
  - cbn [rev]. eexists. split_and!; [done|set_solver|].
    intros m Hm _ _. rewrite !elem_of_app, Hrev, list_elem_of_singleton, elem_of_cons. destruct (Hl m Hm) as [[->|?]%elem_of_cons|?]; tauto.
  - exists back, (e :: passed). split; [done|]. intros m Hm. rewrite elem_of_cons. destruct (Hl m Hm) as [[->|?]%elem_of_cons|?]; tauto.
Qed.

(** *** The steps of the worker *)

(** The worker is done with a name: the others are kept, and its own, when it is
    quiet, is shown. *)
Lemma worker_done_shows b n a :
  shows b -> at_work (b_work b) = Some n ->
  (forall m p, m <> n -> quiet m b -> b_cache b !! m = Some p -> shown m p (b_api b) -> shown m p a) ->
  (forall p, quiet n b -> b_cache b !! n = Some p -> is_deleted p = false -> shown n p a) ->
  shows {| b_cache := b_cache b; b_events := b_events b; b_queue := b_queue b; b_work := Idle; b_api := a |}.
Proof.
  intros [Hid Han _ Hsh] Hw Hother Hn. split; [done|done|done|]. cbn. intros m p [Hq _] Hl Hd.
  destruct (decide (m = n)) as [->|Hne]; [by apply Hn|]. apply Hother; [done..|]. apply Hsh; [|done..].
  split; [done|]. rewrite Hw. congruence.
Qed.

(** The worker goes on with its name. *)
Lemma worker_on_shows b n w a :
  shows b -> at_work (b_work b) = Some n -> at_work w = Some n -> same_pod_indexes (b_api b) a ->
  worker_ok {| b_cache := b_cache b; b_events := b_events b; b_queue := b_queue b; b_work := w; b_api := a |} ->
  shows {| b_cache := b_cache b; b_events := b_events b; b_queue := b_queue b; b_work := w; b_api := a |}.
Proof.
  intros [Hid Han _ Hsh] Hw Hw' Ha Hok. split; [done|done|done|]. cbn. intros m p [Hq Hm] Hl Hd.
  eapply shown_same; [done|]. apply Hsh; [|done..]. split; [done|]. cbn in Hm. congruence.
Qed.

Lemma shown_removed n m p q a : m <> n -> shown m p a -> shown m p (drop_pod n q a).
Proof.
  intros Hne Hs. eapply shown_same; [apply forget_csi_node_pods|]. unfold shown in *. cbn.
  destruct (isSysPod p); [done|]. intros Ha. apply elem_of_removeIndex_ne; auto.
Qed.

Lemma worker_moved_shows b w a :
  worker_step (b_cache b) (b_work b) (b_api b) w a -> shows b ->
  shows {| b_cache := b_cache b; b_events := b_events b; b_queue := b_queue b; b_work := w; b_api := a |}.
Proof.
  intros Hs Hb. pose proof (sh_worker _ Hb) as Hok. unfold worker_ok in Hok.
  destruct b as [c es q wk api]; cbn in *. inversion Hs; subst; cbn in *.
  - apply (worker_done_shows _ n a Hb); cbn; [done|done|congruence].
  - apply (worker_on_shows _ n _ a Hb); cbn; [done|done|done|]. unfold worker_ok. cbn. split.
    + split; [by apply (sh_identified _ Hb)|]. cbn. congruence.
    + unfold concerns. rewrite <-negb_orb. by intros ->.
  - apply (worker_on_shows _ n _ a Hb); cbn; [done|done|done|]. unfold worker_ok. cbn. destruct Hok as [Hk Hr].
    split; [done|]. intros Hours. specialize (Hr Hours). done.
  - apply (worker_done_shows _ n a Hb); cbn; [done|done|]. intros p' Hq Hl _. destruct Hok as [[_ Hk] Hr].
    rewrite (Hk Hq p' Hl). unfold shown. destruct (isSysPod p); [by specialize (Hr eq_refl)|]. intros Ha. rewrite Ha in Hr. by specialize (Hr eq_refl).
  - apply (worker_done_shows _ n _ Hb); cbn; [done| |].
    + intros m p' Hne _ _. by apply shown_removed.
    + intros p' Hq Hl Hd. destruct Hok as [[_ Hk] _]. rewrite (Hk Hq p' Hl) in Hd. congruence.
  - apply (worker_on_shows _ n _ _ Hb); cbn; [done|done|apply announce_pod_pods|]. unfold worker_ok. cbn.
    destruct Hok as [[[Hn Ho] Hk] _]. split; [by split|]. right. exists (rev (pod_index p (announce_pod p api))), [].
    unfold index_pod, addIndex. rewrite Hn. split; [done|]. intros m Hm. left. by rewrite list_elem_of_In, <-in_rev, <-list_elem_of_In.
  - apply (worker_on_shows _ n _ a Hb); cbn; [done|done|done|]. unfold worker_ok. cbn. destruct Hok as [Hk Hsc]. split; [done|].
    eapply scan_keeps_next; [by apply (sh_identified _ Hb)|apply Hk|exact Hsc|done].
  - destruct Hok as [[_ Hk] Hsc].
    assert (n ∈ l /\ forall m, m ∈ pod_index p api -> quiet m {| b_cache := c; b_events := es; b_queue := q; b_work := Indexing n p (Ret l); b_api := api |} ->
      is_Some (c !! m) -> m ∈ l) as [Hn Hl].
    { destruct Hsc as [(l' & [= <-] & Hn & Hl)|([|e back] & passed & Hrest & Hl)]; [done| |by cbn in Hrest].
      injection Hrest as ->. split; [by left|]. intros m Hm _ _. right. by destruct (Hl m Hm) as [?%elem_of_nil|?]. }
    apply (worker_done_shows _ n _ Hb); cbn; [done| |].
    + intros m p' Hne Hq Hlm. specialize (Hl m). unfold shown, set_pod_index, pod_index in *. destruct (isSysPod p), (isSysPod p'); cbn; auto.
    + intros p' Hq Hlp _. rewrite (Hk Hq p' Hlp). unfold shown, set_pod_index. by destruct (isSysPod p).
Qed.

Lemma board_step_shows calm b b' : shows b -> board_step calm b b' -> shows b'.
Proof.
  intros Hb Hs. destruct Hs as [n p Ho _|n o p _ Hp _|n es He|p es He Ha Hs|n Hw Hn _|w a Hw _|a Hw].
  - by eapply pod_changed_shows.
  - by eapply pod_deleted_shows.
  - by eapply change_handled_shows.
  - by eapply deletion_handled_shows.
  - destruct Hb as [Hid Han _ Hsh]. split; [done|done|done|]. cbn. intros m p [[He Hq] Hm] Hl Hd. cbn in *.
    apply Hsh; [|done..]. split; [split; [done|set_solver]|]. by rewrite Hw.
  - by apply worker_moved_shows.
  - apply volume_write_pods in Hw. apply (shows_step b); cbn; [done|apply (sh_identified _ Hb)|apply (sh_announced _ Hb)|done|done| |].
    + intros m p _ _. by apply shown_same.
    + destruct Hw. by intros [].
Qed.

Lemma board_of_quiet c n : quiet n (board_of c) -> c !! n = None.
Proof.
  intros [Hn _]. apply not_elem_of_dom. intros Hin. apply Hn. cbn. rewrite map_map, map_id. by apply elem_of_elements.
Qed.

Lemma board_reachable_shows calm c b : identified c -> board_reachable calm c b -> shows b.
Proof.
  intros Hid. apply (rtc_ind_r shows (board_of c)); [|by intros x y _ Hs Hx; eapply board_step_shows].
  split; [done| |done|].
  - intros n p l1 l2 _ Hl _. exfalso. assert (Deleted p ∈ map Changed (elements (dom c))) as (m & Hm & _)%list_elem_of_fmap; [|done].
    cbn in Hl. rewrite Hl. set_solver.
  - intros n p [Hq _] Hl. apply board_of_quiet in Hq. cbn in Hl. congruence.
Qed.

(** ** One index in a calm cluster *)

(** The index [l] of the pods of a class; [strict]: it drops the pods that are
    being deleted; [q]: the names that are not settled. *)
Record follows (strict : bool) (cls : Pod -> bool) (c : pod_cache) (q : gset NamespacedName) (l : list NamespacedName) : Prop := {
  f_ordered : ordered (fun n => c !! n) l;
  f_distinct : NoDup l;
  f_sound n : n ∈ l -> exists p, c !! n = Some p /\ cls p = true;
  f_live n p : strict = true -> n ∈ l -> n ∉ q -> c !! n = Some p -> is_deleted p = false;
  f_complete n p : c !! n = Some p -> cls p = true -> n ∉ q -> is_deleted p = false -> n ∈ l;
}.

Lemma ordered_ext (c c' : NamespacedName -> option Pod) l :
  (forall n, n ∈ l -> created c n = created c' n) -> ordered c l -> ordered c' l.
Proof.
  intros He Ho. induction Ho as [|n l Ho IH Hn]; constructor.
  - apply IH. intros m Hm. apply He. by right.
  - rewrite Forall_forall in Hn |- *. intros m Hm. rewrite <- !He by (by left || by right). by apply Hn.
Qed.

Lemma removeIndex_filter n l : NoDup l -> removeIndex n l = List.filter (fun e => negb (bool_decide (e = n))) l.
Proof.
  induction 1 as [|e l He Hl IH]; [done|]. cbn. case_bool_decide as E; cbn; [subst|by rewrite IH].
  symmetry. apply forallb_filter_id, forallb_forall. intros x Hx%list_elem_of_In.
  rewrite bool_decide_false; [done|]. by intros ->.
Qed.
Lemma elem_of_removeIndex n m l : NoDup l -> m ∈ removeIndex n l <-> m ∈ l /\ m <> n.
Proof.
  intros Hl. rewrite removeIndex_filter by done. rewrite list_elem_of_In, filter_In, <-list_elem_of_In.
  by rewrite negb_true_iff, bool_decide_eq_false.
Qed.
Lemma removeIndex_ordered c n l : NoDup l -> ordered c l -> ordered c (removeIndex n l) /\ NoDup (removeIndex n l).
Proof.
  intros Hl Ho. rewrite removeIndex_filter by done. split; [by apply ordered_filter|].
  apply NoDup_ListNoDup, List.NoDup_filter. by apply NoDup_ListNoDup.
Qed.

Section one_index.
Context (strict : bool) (cls : Pod -> bool).
Abbreviation follows := (follows strict cls).
(** All names but [n] that were not settled are not settled. *)
Definition within (n : NamespacedName) (q q' : gset NamespacedName) : Prop := forall m, m <> n -> m ∈ q -> m ∈ q'.

Lemma follows_mono c q q' l : q ⊆ q' -> follows c q l -> follows c q' l.
Proof. intros Hq [H1 H2 H3 H4 H5]. split; [done..| |]; intros m p; intros; [eapply H4|eapply H5]; eauto. Qed.

Lemma follows_changed c q q' l n p :
  (forall o, c !! n = Some o -> cls o = cls p /\ CreationTimestamp (p_meta o) = CreationTimestamp (p_meta p)) ->
  {[ n ]} ∪ q ⊆ q' -> follows c q l -> follows (<[ n := p ]> c) q' l.
Proof.
  intros Ho Hsub [H1 H2 H3 H4 H5]. apply (follows_mono _ ({[ n ]} ∪ q)); [done|]. split; [|done|..].
  - eapply ordered_ext; [|exact H1]. intros m Hm. unfold created. destruct (decide (m = n)) as [->|Hne].
    + rewrite lookup_insert_eq. destruct (H3 n Hm) as (o & Hl & _). rewrite Hl. by apply Ho.
    + by rewrite lookup_insert_ne.
  - intros m Hm. destruct (H3 m Hm) as (o & Hl & Hc). destruct (decide (m = n)) as [->|Hne].
    + exists p. rewrite lookup_insert_eq. split; [done|]. destruct (Ho o Hl) as [<- _]. done.
    + exists o. by rewrite lookup_insert_ne.
  - intros m p' Hs Hm Hq. rewrite lookup_insert_ne by set_solver. apply H4; [done|done|set_solver].
  - intros m p' Hl Hc Hq. rewrite lookup_insert_ne in Hl by set_solver. eapply H5; [done|done|set_solver].
Qed.

(** Pods of other classes, and of none, are not in the index. *)
Lemma follows_absent c q l n : follows c q l -> (forall p, c !! n = Some p -> cls p = false) -> n ∉ l.
Proof. intros Hf Hn Hin. destruct (f_sound _ _ _ _ _ Hf n Hin) as (p & Hl & Hc). by rewrite (Hn p Hl) in Hc. Qed.

Lemma follows_gone c q q' l n :
  within n q q' -> n ∉ l -> follows c q l -> follows (delete n c) q' l.
Proof.
  intros Hq Hn [H1 H2 H3 H4 H5]. split; [|done|..].
  - eapply ordered_ext; [|exact H1]. intros m Hm. unfold created. rewrite lookup_delete_ne; [done|]. by intros ->.
  - intros m Hm. destruct (H3 m Hm) as (o & Hl & Hc). exists o. rewrite lookup_delete_ne; [done|]. by intros ->.
  - intros m p' Hs Hm Hmq [Hne Hl]%lookup_delete_Some. eapply H4; eauto.
  - intros m p' [Hne Hl]%lookup_delete_Some Hc Hmq. eapply H5; eauto.
Qed.

(** The pod is gone and its name is taken out. *)
Lemma follows_dropped c q q' l n :
  within n q q' -> follows c q l -> follows (delete n c) q' (removeIndex n l).
Proof.
  intros Hq [H1 H2 H3 H4 H5]. destruct (removeIndex_ordered _ n l H2 H1) as [Ho Hn].
  pose proof (fun m => elem_of_removeIndex n m l H2) as He. split; [|done|..].
  - eapply ordered_ext; [|exact Ho]. intros m [_ Hm]%He. unfold created. by rewrite lookup_delete_ne.
  - intros m [Hm Hne]%He. destruct (H3 m Hm) as (o & Hl & Hc). exists o. by rewrite lookup_delete_ne.
  - intros m p' Hs [Hm Hne]%He Hmq [_ Hl]%lookup_delete_Some. eapply H4; eauto.
  - intros m p' [Hne Hl]%lookup_delete_Some Hc Hmq Hlive. apply He. split; [|done]. eapply H5; eauto.
Qed.

(** Taking a name out, of a pod that is gone, being deleted, or not settled. *)
Lemma follows_removed c q q' l n :
  within n q q' -> (n ∈ q' \/ forall p, c !! n = Some p -> cls p = true -> is_deleted p = true) ->
  follows c q l -> follows c q' (removeIndex n l).
Proof.
  intros Hq Hd [H1 H2 H3 H4 H5]. destruct (removeIndex_ordered _ n l H2 H1) as [Ho Hn].
  pose proof (fun m => elem_of_removeIndex n m l H2) as He. split; [done|done|..].
  - intros m [Hm _]%He. by apply H3.
  - intros m p Hs [Hm Hne]%He Hmq. apply H4; [done|done|]. by eauto.
  - intros m p Hl Hc Hmq Hlive. apply He. destruct (decide (m = n)) as [->|Hne].
    + destruct Hd as [|Hd]; [done|]. specialize (Hd p Hl Hc). congruence.
    + split; [|done]. eapply H5; eauto.
Qed.

(** A name is worked off that has no place in the index, or is not settled. *)
Lemma follows_seen c q q' l n :
  within n q q' -> (n ∈ q' \/ forall p, c !! n = Some p -> cls p = true -> is_deleted p = true /\ strict = false) ->
  follows c q l -> follows c q' l.
Proof.
  intros Hq Hd [H1 H2 H3 H4 H5]. split; [done|done|done|..].
  - intros m p Hs Hm Hmq Hl. destruct (decide (m = n)) as [->|Hne]; [|eapply H4; by eauto].
    destruct Hd as [|Hd]; [done|]. destruct (H3 n Hm) as (p' & Hl' & Hc). destruct (Hd p' Hl' Hc). congruence.
  - intros m p Hl Hc Hmq Hlive. destruct (decide (m = n)) as [->|Hne]; [|eapply H5; by eauto].
    destruct Hd as [|Hd]; [done|]. destruct (Hd p Hl Hc). congruence.
Qed.

(** What the insertion of a pod makes of an index. *)
Definition target (c : pod_cache) (p : Pod) (l : list NamespacedName) : list NamespacedName :=
  if decide (known (fun n => c !! n) p l) then l else insert_by_age (fun n => c !! n) p l.

Lemma follows_added c q q' l n p :
  identified c -> within n q q' -> follows c q l -> c !! n = Some p -> cls p = true -> (n ∈ q' \/ is_deleted p = false) ->
  follows c q' (target c p l).
Proof.
  intros Hid Hq [H1 H2 H3 H4 H5] Hp Hcls Hlive. destruct (Hid n p Hp) as [Hn Ho].
  assert (forall m, m ∈ target c p l <-> m = n \/ m ∈ l) as Hin.
  { unfold target. case_decide as Hk; intros m; [|by rewrite insert_by_age_perm, Hn, elem_of_cons].
    split; [by right|]. intros [->|?]; [|done]. apply list_elem_of_fmap in Hk as (k & Hu & Hk). symmetry in Hu.
    apply fmap_Some in Hu as (o & Hl & Hu). cbn in Hu. destruct (Hid k o Hl) as [_ Hk']. congruence. }
  assert (ordered (fun n => c !! n) (target c p l) /\ NoDup (target c p l)) as [Hord Hnd].
  { unfold target. case_decide as Hk; [done|]. split; [apply insert_by_age_ordered; [by rewrite Hn|done]|].
    rewrite insert_by_age_perm, Hn. constructor; [|done]. intros Hm. apply Hk. unfold known.
    apply list_elem_of_fmap. exists n. split; [|done]. unfold uid. by rewrite Hp. }
  split; [done|done|..].
  - intros m [->|Hm]%Hin; [by exists p|by apply H3].
  - intros m o Hs [Hm|Hm]%Hin Hmq Hmo; (destruct (decide (m = n)) as [->|Hne]; [|by eapply H4; eauto]);
      destruct Hlive; first [done|congruence].
  - intros m o Hmo Hco Hmq Hlo. apply Hin. destruct (decide (m = n)) as [->|Hne]; [by left|right]. eapply H5; eauto.
Qed.
End one_index.

(** ** The scan in a calm cluster *)

Section scan.
Context (c : pod_cache) (p : Pod) (n : NamespacedName).
Abbreviation uid_of := (uid (fun n => c !! n)).
Abbreviation created_at := (created (fun n => c !! n)).

(** What the scan comes to when all elements can be read. *)
Fixpoint scan_eval (back passed : list NamespacedName) : list NamespacedName :=
  match back with
  | [] => n :: passed
  | e :: back' =>
      if decide (uid_of e = Some (UID (p_meta p))) then rev back ++ passed
      else if created_at e <? CreationTimestamp (p_meta p) then rev back ++ n :: passed
      else scan_eval back' (e :: passed)
  end.

Lemma uid_created e q :
  c !! e = Some q -> uid_of e = Some (UID (p_meta q)) /\ created_at e = CreationTimestamp (p_meta q).
Proof. unfold uid, created. by intros ->. Qed.

Lemma scan_eval_runs back passed :
  readable (fun n => c !! n) back ->
  exists t, runs (add_scan p_meta read_pod n p back passed) t (Done (scan_eval back passed)) /\
    Forall (cached (fun n => c !! n)) t.
Proof.
  revert passed. induction back as [|e back IH]; intros passed; [by exists []|].
  intros [[q Hq] Hb]%Forall_cons. destruct (uid_created e q Hq) as [Hu Hc]. destruct e as [ns nm]. cbn [scan_eval].
  rewrite Hu, Hc. case_decide as Hd; [injection Hd as Hd|].
  - exists [ev (S := jfs) (GetPod Caller nm ns) (Ok q)]. split; [|by constructor].
    eexists _, _. split; [done|]. cbn [bind]. by rewrite bool_decide_true.
  - assert (UID (p_meta p) <> UID (p_meta q)) as Hne by congruence.
    destruct (CreationTimestamp (p_meta q) <? CreationTimestamp (p_meta p)) eqn:El.
    + exists [ev (S := jfs) (GetPod Caller nm ns) (Ok q)]. split; [|by constructor].
      eexists _, _. split; [done|]. cbn [bind]. by rewrite bool_decide_false, El.
    + destruct (IH ((ns, nm) :: passed) Hb) as (t & Hr & Ht).
      exists (ev (S := jfs) (GetPod Caller nm ns) (Ok q) :: t). split; [|by constructor].
      eexists _, _. split; [done|]. cbn [bind]. by rewrite bool_decide_false, El.
Qed.

Lemma scan_eval_target l :
  nn_of (p_meta p) = n -> readable (fun n => c !! n) l -> ordered (fun n => c !! n) l -> consistent (fun n => c !! n) p l ->
  scan_eval (rev l) [] = target c p l.
Proof.
  intros Hn Hr Ho Hc. destruct (scan_eval_runs (rev l) []) as (t & Hrun & Ht); [by apply Forall_rev|].
  rewrite <-Hn in Hrun at 1. destruct (scan_ordered (fun n => c !! n) p (rev l) [] t (scan_eval (rev l) [])) as [Hk Hnk]; [..|exact Hrun|exact Ht|].
  { by apply Forall_rev. } { by rewrite rev_involutive. } { by apply Forall_rev. }
  assert (known (fun n => c !! n) p (rev l) <-> known (fun n => c !! n) p l) as Hiff.
  { unfold known. rewrite map_rev, !list_elem_of_In, <-in_rev. done. }
  rewrite rev_involutive, app_nil_r in *. unfold target. case_decide; [apply Hk|apply Hnk]; by rewrite Hiff.
Qed.

(** The rest of a scan that comes to [l'], with the elements still to be read in
    the index [l]. *)
Definition comes_to (l l' : list NamespacedName) (rest : M (list NamespacedName)) : Prop :=
  rest = Ret l' \/
  exists back passed, rest = add_scan p_meta read_pod n p back passed /\ scan_eval back passed = l' /\ back ⊆ l.

Lemma comes_to_next l l' cmd k ans :
  readable (fun n => c !! n) l -> comes_to l l' (Vis cmd k) ->
  cached (fun n => c !! n) (existT cmd ans) -> comes_to l l' (k ans).
Proof.
  intros Hl [[=]|(back & passed & Hrest & He & Hb)] Ha. destruct back as [|e back]; [by cbn in Hrest|].
  pose proof (after_read_elim _ _ _ _ _ _ (scan_goes_on c p n e back passed) (eq_sym Hrest) Ha) as Hgo.
  unfold readable in Hl. rewrite Forall_forall in Hl. destruct (Hl e ltac:(apply Hb; by left)) as [q Hq].
  destruct (uid_created e q Hq) as [Hu Hc]. cbn [scan_eval] in He. rewrite Hu, Hc in He.
  destruct Hgo as [Hne|q' Hq' Hu'|q' Hq' Hu' Hc'|q' Hq' Hu' Hc']; [congruence|..]; rewrite Hq in Hq'; injection Hq' as <-.
  - left. rewrite decide_True in He by congruence. by rewrite <-He.
  - left. rewrite decide_False, (proj2 (Z.ltb_lt _ _)) in He by (done || congruence). by rewrite <-He.
  - right. exists back, (e :: passed). rewrite decide_False, (proj2 (Z.ltb_ge _ _)) in He by (done || congruence).
    split_and!; [done|done|]. intros m Hm. apply Hb. by right.
Qed.
End scan.

(** Caches that agree on the elements of an index. *)
Definition agree (c c' : pod_cache) (l : list NamespacedName) : Prop :=
  forall m, m ∈ l -> uid (fun n => c !! n) m = uid (fun n => c' !! n) m /\ created (fun n => c !! n) m = created (fun n => c' !! n) m.

Lemma scan_eval_agree c c' p n l back passed :
  agree c c' l -> back ⊆ l -> scan_eval c p n back passed = scan_eval c' p n back passed.
Proof.
  intros Ha. revert passed. induction back as [|e back IH]; intros passed Hb; [done|].
  assert (back ⊆ l) as Hb' by (intros m Hm; apply Hb; by right). destruct (Ha e (Hb e ltac:(by left))) as [Hu Hc].
  cbn [scan_eval]. rewrite Hu, Hc, IH by done. done.
Qed.
Lemma comes_to_agree c c' p n l l' rest : agree c c' l -> comes_to c p n l l' rest -> comes_to c' p n l l' rest.
Proof.
  intros Ha [?|(back & passed & Hr & He & Hb)]; [by left|right]. exists back, passed. split_and!; [done| |done].
  by rewrite <-(scan_eval_agree c c' p n l back passed).
Qed.
Lemma target_agree c c' p q l :
  agree c c' l -> UID (p_meta p) = UID (p_meta q) -> CreationTimestamp (p_meta p) = CreationTimestamp (p_meta q) ->
  nn_of (p_meta p) = nn_of (p_meta q) -> target c p l = target c' q l.
Proof.
  intros Ha Hu Hc Hn. unfold target.
  assert (known (fun n => c !! n) p l <-> known (fun n => c' !! n) q l) as Hk.
  { unfold known. rewrite Hu. enough (map (uid (fun n => c !! n)) l = map (uid (fun n => c' !! n)) l) as -> by done.
    apply map_ext_in. intros m Hm. by apply Ha, list_elem_of_In. }
  destruct (decide (known _ p l)) as [H1|H1], (decide (known _ q l)) as [H2|H2]; try tauto.
  unfold insert_by_age. rewrite Hc, Hn. f_equal; [|f_equal];
    apply filter_ext_in; intros m Hm; by rewrite (proj2 (Ha m (proj2 (list_elem_of_In _ _) Hm))).
Qed.

(** ** Both indexes in a calm cluster *)

(** The names that are not settled. *)
Definition unsettled (b : board) : gset NamespacedName :=
  b_queue b ∪ list_to_set (map event_name (b_events b)) ∪ (if at_work (b_work b) is Some n then {[ n ]} else ∅).

Lemma elem_of_unsettled n b :
  n ∈ unsettled b <-> n ∈ b_queue b \/ n ∈ map event_name (b_events b) \/ at_work (b_work b) = Some n.
Proof.
  unfold unsettled. rewrite !elem_of_union, elem_of_list_to_set. destruct (at_work (b_work b)); set_solver.
Qed.
Lemma settled_unsettled n b : settled n b <-> n ∉ unsettled b.
Proof. unfold settled, quiet. rewrite elem_of_unsettled. tauto. Qed.

(** The cache as the indexes should show it: a deletion that is not handled yet
    has not happened. *)
Inductive ghost (b : board) (g : pod_cache) : Prop :=
| ghost_now : no_deletion (b_events b) -> g = b_cache b -> ghost b g
| ghost_pending es p o :
    b_events b = es ++ [Deleted p] -> no_deletion es -> b_work b = Idle -> same_pod o p ->
    b_cache b !! nn_of (p_meta p) = None -> g = <[ nn_of (p_meta p) := o ]> (b_cache b) -> ghost b g.

(** The pod that was fetched is the cached one, or an earlier state of it whose
    change is yet to be worked off. *)
Definition tracks (n : NamespacedName) (p : Pod) (b : board) (g : pod_cache) : Prop :=
  owned n p /\ orderly p = true /\ exists p', g !! n = Some p' /\ same_pod p p' /\
    (p' = p \/ n ∈ b_queue b \/ n ∈ map event_name (b_events b)).
Definition calm_worker (b : board) (g : pod_cache) : Prop :=
  match b_work b with
  | Idle | Fetching _ => True
  | Judging n p rest => tracks n p b g /\ rest = Ret (isSysPod p || isAppPod p)
  | Indexing n p rest =>
      tracks n p b g /\ is_deleted p = false /\ isSysPod p || isAppPod p = true /\
      comes_to g p n (pod_index p (b_api b)) (target g p (pod_index p (b_api b))) rest
  end.

Record calm_ok (b : board) (g : pod_cache) : Prop := {
  co_ghost : ghost b g;
  co_identified : identified g;
  co_orderly n p : g !! n = Some p -> orderly p = true;
  co_app : follows true isAppPod g (unsettled b) (appIndexes (b_api b));
  co_sys : follows false isSysPod g (unsettled b) (sysIndexes (b_api b));
  co_worker : calm_worker b g;
}.

Lemma same_pod_trans p q r : same_pod p q -> same_pod q r -> same_pod p r.
Proof. intros (?&?&?&?) (?&?&?&?). unfold same_pod. split_and!; congruence. Qed.
Lemma same_pod_refl p : same_pod p p.
Proof. done. Qed.
Lemma no_deletion_app es es' : no_deletion (es ++ es') <-> no_deletion es /\ no_deletion es'.
Proof. apply Forall_app. Qed.
Lemma not_no_deletion es p : ~ no_deletion (es ++ [Deleted p]).
Proof. intros [_ [[n [=]] _]%Forall_cons]%no_deletion_app. Qed.
Lemma orderly_class p : orderly p = true -> isAppPod p = true -> isSysPod p = false.
Proof. unfold orderly. by destruct (isAppPod p), (isSysPod p). Qed.

Lemma ghost_now_inv b g : ghost b g -> no_deletion (b_events b) -> g = b_cache b.
Proof. intros [_ ?|es p o He _ _ _ _ _] Hn; [done|]. rewrite He in Hn. by apply not_no_deletion in Hn. Qed.

(** An orderly pod is judged by its labels alone. *)
Lemma concerns_orderly p : orderly p = true -> concerns p = Ret (isSysPod p || isAppPod p).
Proof.
  unfold orderly, concerns, isAppPodUnready. destruct (isSysPod p), (isAppPod p); cbn; try done.
  intros Hv%bool_decide_eq_true. by rewrite Hv.
Qed.

(** The indexes of a pod's class. *)
Lemma co_index b g p : calm_ok b g -> exists strict, follows strict (if isSysPod p then isSysPod else isAppPod) g (unsettled b) (pod_index p (b_api b)).
Proof. intros Hb. unfold pod_index. destruct (isSysPod p); eexists; [apply (co_sys _ _ Hb)|apply (co_app _ _ Hb)]. Qed.

Lemma index_readable b g p : calm_ok b g -> readable (fun n => g !! n) (pod_index p (b_api b)).
Proof.
  intros Hb. destruct (co_index b g p Hb) as [strict [_ _ Hs _ _]]. apply Forall_forall. intros m Hm.
  destruct (Hs m Hm) as (q & -> & _). by eexists.
Qed.

(** A change of the cache that keeps uids and times keeps what a scan comes to. *)
Lemma calm_worker_kept b b' g g' :
  calm_ok b g -> b_work b' = b_work b -> same_pod_indexes (b_api b) (b_api b') ->
  (forall n p, g !! n = Some p -> exists p', g' !! n = Some p' /\ same_pod p p' /\
     (p' = p \/ n ∈ b_queue b' \/ n ∈ map event_name (b_events b'))) ->
  (forall n, n ∈ b_queue b \/ n ∈ map event_name (b_events b) -> n ∈ b_queue b' \/ n ∈ map event_name (b_events b')) ->
  calm_worker b' g'.
Proof.
  intros Hb Hw Ha Hg Hq. pose proof (co_worker _ _ Hb) as Hok. unfold calm_worker in *. rewrite Hw.
  assert (forall n p, tracks n p b g -> tracks n p b' g') as Ht.
  { intros n p (Ho & Hord & p1 & Hl & Hs & Hp). split; [done|]. split; [done|].
    destruct (Hg n p1 Hl) as (p2 & Hl2 & Hs2 & Hp2). exists p2. split; [done|]. split; [by eapply same_pod_trans|].
    destruct Hp2 as [->|?]; [|by right]. destruct Hp as [->|Hp]; [by left|right]. by apply Hq. }
  destruct (b_work b) as [|n|n p rest|n p rest]; [done|done|..].
  - destruct Hok as [Htr ->]. split; [by apply Ht|done].
  - destruct Hok as (Htr & Hd & Hc & Hcome). split_and!; [by apply Ht|done|done|]. rewrite (pod_index_same _ _ _ Ha).
    assert (agree g g' (pod_index p (b_api b))) as Hag.
    { intros m Hm. pose proof (index_readable b g p Hb) as Hr. unfold readable in Hr. rewrite Forall_forall in Hr.
      destruct (Hr m Hm) as [q Hl]. destruct (Hg m q Hl) as (q' & Hl' & (Hu & Hcr & _) & _).
      unfold uid, created. rewrite Hl, Hl'. cbn. by rewrite Hu, Hcr. }
    rewrite <-(target_agree g g' p p _ Hag); [|done..]. by eapply comes_to_agree.
Qed.

Lemma pod_changed_calm b g n p b' :
  b' = {| b_cache := <[ n := p ]> (b_cache b); b_events := b_events b ++ [Changed n];
          b_queue := b_queue b; b_work := b_work b; b_api := b_api b |} ->
  owned n p -> orderly p = true -> no_deletion (b_events b) -> (forall o, b_cache b !! n = Some o -> same_pod o p) ->
  calm_ok b g -> calm_ok b' (<[ n := p ]> g).
Proof.
  intros Hb' Ho Hord Hnd Hsame Hb. pose proof (ghost_now_inv _ _ (co_ghost _ _ Hb) Hnd) as Hg. rewrite <-Hg in Hsame.
  assert ({[ n ]} ∪ unsettled b ⊆ unsettled b') as Hu.
  { intros m. rewrite Hb', elem_of_union, !elem_of_unsettled. cbn. rewrite map_app, elem_of_app. cbn. set_solver. }
  split; subst b'; cbn [b_api].
  - apply ghost_now; [|by rewrite Hg]. apply no_deletion_app. split; [done|]. by repeat constructor; exists n.
  - intros m q [[<- <-]|[_ Hl]]%lookup_insert_Some; [done|]. by apply (co_identified _ _ Hb).
  - intros m q [[_ <-]|[_ Hl]]%lookup_insert_Some; [done|]. by eapply (co_orderly _ _ Hb).
  - eapply follows_changed; [|done|apply (co_app _ _ Hb)]. intros o Hl. by destruct (Hsame o Hl) as (_ & ? & ? & _).
  - eapply follows_changed; [|done|apply (co_sys _ _ Hb)]. intros o Hl. by destruct (Hsame o Hl) as (_ & ? & _ & ?).
  - apply (calm_worker_kept b _ g); cbn; [done|done|done| |].
    + intros m q Hl. destruct (decide (m = n)) as [->|Hne].
      * exists p. rewrite lookup_insert_eq. split_and!; [done|by apply Hsame|]. right. right. rewrite map_app. cbn. set_solver.
      * exists q. rewrite lookup_insert_ne by done. split_and!; [done..|by left].
    + intros m. rewrite map_app, elem_of_app. tauto.
Qed.

Lemma pod_deleted_calm b g n o p b' :
  b' = {| b_cache := delete n (b_cache b); b_events := b_events b ++ [Deleted p];
          b_queue := b_queue b; b_work := b_work b; b_api := b_api b |} ->
  b_cache b !! n = Some o -> nn_of (p_meta p) = n -> b_work b = Idle -> no_deletion (b_events b) -> same_pod o p ->
  calm_ok b g -> calm_ok b' g.
Proof.
  intros Hb' Ho Hp Hw Hnd Hs Hb. pose proof (ghost_now_inv _ _ (co_ghost _ _ Hb) Hnd) as Hg.
  assert (unsettled b ⊆ unsettled b') as Hu.
  { intros m. rewrite Hb', !elem_of_unsettled. cbn. rewrite map_app, elem_of_app. tauto. }
  split; [|apply (co_identified _ _ Hb)|apply (co_orderly _ _ Hb)|..]; subst b'; cbn [b_api].
  - eapply (ghost_pending _ _ (b_events b) p o); cbn; [done..| |]; rewrite Hp; [apply lookup_delete_eq|].
    by rewrite insert_delete_eq, insert_id.
  - eapply follows_mono; [done|apply (co_app _ _ Hb)].
  - eapply follows_mono; [done|apply (co_sys _ _ Hb)].
  - unfold calm_worker. cbn. by rewrite Hw.
Qed.

Lemma change_handled_calm b g n es b' :
  b' = {| b_cache := b_cache b; b_events := es; b_queue := {[ n ]} ∪ b_queue b; b_work := b_work b; b_api := b_api b |} ->
  b_events b = Changed n :: es -> calm_ok b g -> calm_ok b' g.
Proof.
  intros Hb' He Hb. assert (unsettled b ⊆ unsettled b') as Hu.
  { intros m. rewrite Hb', !elem_of_unsettled. cbn. rewrite He. cbn. set_solver. }
  split; [|apply (co_identified _ _ Hb)|apply (co_orderly _ _ Hb)|..]; subst b'; cbn [b_api].
  - destruct (co_ghost _ _ Hb) as [Hn Hg|es0 p o He0 Hn Hw Hs Hl Hg].
    + rewrite He in Hn. apply Forall_cons in Hn as [_ Hn]. by apply ghost_now.
    + rewrite He in He0. destruct es0 as [|e es0]; [by injection He0|]. injection He0 as <- ->.
      apply Forall_cons in Hn as [_ Hn]. by eapply (ghost_pending _ _ es0 p o).
  - eapply follows_mono; [done|apply (co_app _ _ Hb)].
  - eapply follows_mono; [done|apply (co_sys _ _ Hb)].
  - apply (calm_worker_kept b _ g); cbn; [done|done|done| |].
    + intros m q Hl. exists q. split_and!; [done..|by left].
    + intros m. rewrite He. cbn. set_solver.
Qed.

Lemma deletion_handled_calm b g p es b' :
  b' = {| b_cache := b_cache b; b_events := es;
          b_queue := if (PodDeleted (b_api b) p).2 then {[ nn_of (p_meta p) ]} ∪ b_queue b else b_queue b;
          b_work := b_work b; b_api := (PodDeleted (b_api b) p).1 |} ->
  b_events b = Deleted p :: es -> calm_ok b g -> calm_ok b' (b_cache b).
Proof.
  intros Hb' He Hb. set (n := nn_of (p_meta p)).
  destruct (co_ghost _ _ Hb) as [Hn _|es0 p0 o He0 Hn Hw Hs Hl Hg].
  { rewrite He in Hn. by apply Forall_cons in Hn as [[? [=]] _]. }
  rewrite He in He0. destruct es0 as [|e es0].
  2: { injection He0 as <- ->. by apply Forall_cons in Hn as [[? [=]] _]. }
  injection He0 as <- ->. fold n in Hl, Hg. assert (delete n g = b_cache b) as Hdel by by rewrite Hg, delete_insert_eq, delete_id.
  assert (g !! n = Some o) as Hgo by by rewrite Hg, lookup_insert_eq.
  assert (within n (unsettled b) (unsettled b')) as Hu.
  { intros m Hne. rewrite Hb', !elem_of_unsettled. cbn. rewrite He. cbn. destruct (PodDeleted _ _).2; set_solver. }
  assert (forall m q, b_cache b !! m = Some q -> g !! m = Some q) as Hsub.
  { intros m q Hm. rewrite <-Hdel in Hm. by apply lookup_delete_Some in Hm as [_ ?]. }
  destruct Hs as (_ & _ & Hsa & Hss). pose proof (co_orderly _ _ Hb n o Hgo) as Hord. unfold orderly in Hord. rewrite Hsa, Hss in Hord.
  assert ((pod_namespace p, pod_name p) = n) as Hname by done.
  assert (forall q, g !! n = Some q -> q = o) as Hq by (intros q ?; congruence).
  split; [by subst b'; apply ghost_now|intros m q Hm; by apply (co_identified _ _ Hb), Hsub|intros m q Hm; by eapply (co_orderly _ _ Hb), Hsub|..].
  - rewrite <-Hdel. pose proof (co_app _ _ Hb) as Hf. assert (appIndexes (b_api b') = if isAppPod p then removeIndex n (appIndexes (b_api b)) else appIndexes (b_api b)) as ->.
    { subst b'. cbn. unfold PodDeleted. rewrite Hname. destruct (isAppPod p); [|destruct (isSysPod p)]; cbn [fst];
        try match goal with |- context [forget_csi_node p ?x] => destruct (forget_csi_node_pods p x) as [-> _] end; done. }
    destruct (isAppPod p) eqn:Ea; [by eapply follows_dropped|]. eapply follows_gone; [done| |done].
    eapply follows_absent; [done|]. intros q ->%Hq. congruence.
  - rewrite <-Hdel. pose proof (co_sys _ _ Hb) as Hf. assert (sysIndexes (b_api b') = if isSysPod p then removeIndex n (sysIndexes (b_api b)) else sysIndexes (b_api b)) as ->.
    { subst b'. cbn. unfold PodDeleted. rewrite Hname. destruct (isAppPod p); [|destruct (isSysPod p)]; cbn [fst];
        try match goal with |- context [forget_csi_node p ?x] => destruct (forget_csi_node_pods p x) as [_ ->] end;
        [by destruct (isSysPod p)|done|done]. }
    destruct (isSysPod p) eqn:Es; [by eapply follows_dropped|]. eapply follows_gone; [done| |done].
    eapply follows_absent; [done|]. intros q ->%Hq. congruence.
  - subst b'. unfold calm_worker. cbn. by rewrite Hw.
Qed.

(** The worker goes on with its name. *)
Lemma worker_on_calm b g n w a :
  no_deletion (b_events b) -> calm_ok b g -> at_work (b_work b) = Some n -> at_work w = Some n ->
  same_pod_indexes (b_api b) a ->
  let b' := {| b_cache := b_cache b; b_events := b_events b; b_queue := b_queue b; b_work := w; b_api := a |} in
  calm_worker b' g -> calm_ok b' g.
Proof.
  intros Hnd Hb Hw Hw' [Ha Hs] b' Hok. assert (unsettled b ⊆ unsettled b') as Hu.
  { intros m. rewrite !elem_of_unsettled. cbn. rewrite Hw, Hw'. tauto. }
  split; [|apply (co_identified _ _ Hb)|apply (co_orderly _ _ Hb)|..]; cbn [b' b_api]; [| | |done].
  - apply ghost_now; [done|]. exact (ghost_now_inv b g (co_ghost _ _ Hb) Hnd).
  - rewrite Ha. eapply follows_mono; [done|apply (co_app _ _ Hb)].
  - rewrite Hs. eapply follows_mono; [done|apply (co_sys _ _ Hb)].
Qed.

(** The worker is done with its name. *)
Lemma worker_done_calm b g n a :
  no_deletion (b_events b) -> calm_ok b g -> at_work (b_work b) = Some n ->
  let b' := {| b_cache := b_cache b; b_events := b_events b; b_queue := b_queue b; b_work := Idle; b_api := a |} in
  (within n (unsettled b) (unsettled b') ->
   follows true isAppPod g (unsettled b') (appIndexes a) /\ follows false isSysPod g (unsettled b') (sysIndexes a)) ->
  calm_ok b' g.
Proof.
  intros Hnd Hb Hw b' Hf. destruct Hf as [Happ Hsys].
  { intros m Hne. rewrite !elem_of_unsettled. cbn. rewrite Hw. naive_solver. }
  split; [|apply (co_identified _ _ Hb)|apply (co_orderly _ _ Hb)|done|done|done].
  apply ghost_now; [done|]. exact (ghost_now_inv b g (co_ghost _ _ Hb) Hnd).
Qed.

(** What is known of the pod in the cache when the worker is done with a pod. *)
Lemma tracks_done n p b g a :
  tracks n p b g ->
  let b' := {| b_cache := b_cache b; b_events := b_events b; b_queue := b_queue b; b_work := Idle; b_api := a |} in
  exists p', g !! n = Some p' /\ same_pod p p' /\ (n ∈ unsettled b' \/ p' = p).
Proof.
  intros (_ & _ & p' & Hl & Hs & Hp) b'. exists p'. split_and!; [done|done|]. rewrite elem_of_unsettled. cbn. tauto.
Qed.

Lemma index_consistent b g n p :
  calm_ok b g -> tracks n p b g -> consistent (fun n => g !! n) p (pod_index p (b_api b)).
Proof.
  intros Hb ((Hn & Ho) & _ & p' & Hl & (Hu & Hc & _) & _). apply Forall_forall. intros m _ Hm. unfold uid in Hm. apply fmap_Some in Hm as (q & Hq & Hm).
  cbn in Hm. destruct (co_identified _ _ Hb m q Hq) as [_ Hom]. assert (m = n) as -> by congruence.
  unfold created. rewrite Hl. done.
Qed.

Lemma worker_indexed_calm b g n p rest a l :
  no_deletion (b_events b) -> calm_ok b g -> b_work b = Indexing n p rest -> rest = Ret l -> a = set_pod_index p l (b_api b) ->
  calm_ok {| b_cache := b_cache b; b_events := b_events b; b_queue := b_queue b; b_work := Idle; b_api := a |} g.
Proof.
  intros Hnd Hb Hw -> ->. pose proof (co_worker _ _ Hb) as Hok. unfold calm_worker in Hok. rewrite Hw in Hok.
  destruct Hok as (Htr & Hd & Hcls & Hcome).
  assert (l = target g p (pod_index p (b_api b))) as ->.
  { destruct Hcome as [[= <-]|([|e back] & passed & Hrest & He & _)]; [done| |by cbn in Hrest]. cbn in He, Hrest. congruence. }
  apply (worker_done_calm b g n); [done|done|by rewrite Hw|]. intros Hwi.
  destruct (tracks_done n p b g (set_pod_index p (target g p (pod_index p (b_api b))) (b_api b)) Htr) as (p' & Hl & (Hu & Hc & Hsa & Hss) & Hp).
  destruct Htr as ([Hn _] & _). pose proof (co_identified _ _ Hb n p' Hl) as [Hn' _]. pose proof (co_orderly _ _ Hb n p' Hl) as Hord.
  rewrite (target_agree g g p p' _ ltac:(done) Hu Hc) by congruence.
  unfold set_pod_index, pod_index in *. destruct (isSysPod p) eqn:Es; cbn [appIndexes sysIndexes set_sys set_app].
  - split.
    + eapply follows_seen; [done| |apply (co_app _ _ Hb)]. right. intros q Hq Ha. assert (q = p') as -> by congruence.
      apply orderly_class in Ha; [congruence|done].
    + eapply follows_added; [apply (co_identified _ _ Hb)|done|apply (co_sys _ _ Hb)|done|congruence|].
      destruct Hp as [?|Hp]; [by left|right; by rewrite Hp].
  - split.
    + eapply follows_added; [apply (co_identified _ _ Hb)|done|apply (co_app _ _ Hb)|done|by cbn in Hcls; congruence|].
      destruct Hp as [?|Hp]; [by left|right; by rewrite Hp].
    + eapply follows_seen; [done| |apply (co_sys _ _ Hb)]. right. intros q Hq Ha. assert (q = p') as -> by congruence. congruence.
Qed.

Lemma worker_dropped_calm b g n p rest :
  no_deletion (b_events b) -> calm_ok b g -> b_work b = Judging n p rest -> is_deleted p = true ->
  calm_ok {| b_cache := b_cache b; b_events := b_events b; b_queue := b_queue b; b_work := Idle; b_api := drop_pod n p (b_api b) |} g.
Proof.
  intros Hnd Hb Hw Hd. pose proof (co_worker _ _ Hb) as Hok. unfold calm_worker in Hok. rewrite Hw in Hok. destruct Hok as [Htr _].
  apply (worker_done_calm b g n); [done|done|by rewrite Hw|]. intros Hwi.
  destruct (tracks_done n p b g (drop_pod n p (b_api b)) Htr) as (p' & Hl & _ & Hp).
  destruct (forget_csi_node_pods p (set_app (removeIndex n) (b_api b))) as [Ha Hs]. fold (drop_pod n p (b_api b)) in Ha, Hs.
  rewrite Ha, Hs. cbn [appIndexes sysIndexes set_app].
  split; [eapply follows_removed; [done| |apply (co_app _ _ Hb)]|eapply follows_seen; [done| |apply (co_sys _ _ Hb)]];
    (destruct Hp as [?|Hp]; [by left|right; intros q Hq _; assert (q = p) as -> by congruence; by try split]).
Qed.

Lemma worker_moved_calm b g w a :
  worker_step (b_cache b) (b_work b) (b_api b) w a -> no_deletion (b_events b) -> calm_ok b g ->
  calm_ok {| b_cache := b_cache b; b_events := b_events b; b_queue := b_queue b; b_work := w; b_api := a |} g.
Proof.
  intros Hs Hnd Hb. pose proof (ghost_now_inv _ _ (co_ghost _ _ Hb) Hnd) as Hg.
  pose proof (co_worker _ _ Hb) as Hok. unfold calm_worker in Hok.
  inversion Hs as [n a0 Hl Hw|n p a0 Hl Hw|n p cmd k ans a0 Hw|n p a0 Hw|n p a0 Hd Hw|n p a0 Hd Hw|n p cmd k ans a0 Ha Hw|n p l a0 Hw];
    subst; rewrite <-Hw in Hok.
  - apply (worker_done_calm b _ n); [done|done|by rewrite <-Hw|]. intros Hwi.
    split; (eapply follows_seen; [done|right; congruence|]); [apply (co_app _ _ Hb)|apply (co_sys _ _ Hb)].
  - pose proof (co_orderly _ _ Hb n p Hl) as Ho.
    apply (worker_on_calm b _ n); [done|done|by rewrite <-Hw|done|done|]. unfold calm_worker. cbn. split; [|by apply concerns_orderly].
    split; [by apply (co_identified _ _ Hb)|]. split; [done|]. exists p. split_and!; [done|done|by left].
  - by destruct Hok as [_ ?].
  - destruct Hok as [Htr [= Hr]]. symmetry in Hr. apply orb_false_iff in Hr as [Hs' Ha'].
    apply (worker_done_calm b _ n); [done|done|by rewrite <-Hw|]. intros Hwi.
    destruct Htr as (_ & _ & p' & Hl & (_ & _ & Hsa & Hss) & _).
    split; (eapply follows_seen; [done|right; intros q Hq Hc; assert (q = p') as -> by congruence; congruence|]);
      [apply (co_app _ _ Hb)|apply (co_sys _ _ Hb)].
  - by eapply worker_dropped_calm.
  - destruct Hok as [Htr [= Hr]]. pose proof (announce_pod_pods p (b_api b)) as Hsame.
    apply (worker_on_calm b _ n); [done|done|by rewrite <-Hw|done|done|]. unfold calm_worker. cbn.
    split_and!; [done|done|done|]. rewrite (pod_index_same _ _ _ Hsame). right.
    destruct Htr as (Ho & Ht). pose proof Ho as [Hn _]. unfold index_pod, addIndex. rewrite Hn.
    exists (rev (pod_index p (b_api b))), []. split_and!; [done| |intros m; by rewrite !list_elem_of_In, <-in_rev].
    apply scan_eval_target; [done|by apply index_readable| |by eapply index_consistent; [|split]].
    destruct (co_index b _ p Hb) as [strict [? _ _ _ _]]. done.
  - destruct Hok as (Htr & Hd & Hc & Hcome). apply (worker_on_calm b _ n); [done|done|by rewrite <-Hw|done|done|].
    unfold calm_worker. cbn. split_and!; [done..|]. eapply comes_to_next; [by apply index_readable|done|done].
  - by eapply worker_indexed_calm.
Qed.

Lemma board_step_calm b b' : (exists g, calm_ok b g) -> board_step true b b' -> exists g, calm_ok b' g.
Proof.
  intros [g Hb] Hs. destruct Hs as [n p Ho Hcalm|n o p Hl Hp Hcalm|n es He|p es He _ _|n Hw Hn Hcalm|w a Hw Hcalm|a Hw].
  - destruct (Hcalm eq_refl) as (? & ? & ?). eexists. by eapply pod_changed_calm.
  - destruct (Hcalm eq_refl) as (? & ? & ?). eexists. by eapply pod_deleted_calm.
  - eexists. by eapply change_handled_calm.
  - eexists. by eapply deletion_handled_calm.
  - exists g. specialize (Hcalm eq_refl). pose proof (ghost_now_inv _ _ (co_ghost _ _ Hb) Hcalm) as Hg.
    match goal with |- calm_ok ?x _ => assert (unsettled b ⊆ unsettled x) as Hu end.
    { intros m. rewrite !elem_of_unsettled. cbn. rewrite Hw. intros [Hm|[Hm|[=]]]; [|by right; left].
      destruct (decide (m = n)) as [->|]; [by right; right|left]. apply elem_of_difference. by rewrite elem_of_singleton. }
    split; [by apply ghost_now|apply (co_identified _ _ Hb)|apply (co_orderly _ _ Hb)|..|done];
      (eapply follows_mono; [exact Hu|]); [apply (co_app _ _ Hb)|apply (co_sys _ _ Hb)].
  - exists g. apply worker_moved_calm; auto.
  - exists g. apply volume_write_pods in Hw as Ha. destruct Hb as [Hgh Hid Hord Happ Hsys Hok].
    split; [|done|done|..]; cbn [b_api].
    + destruct Hgh as [? ?|]; [by apply ghost_now|by eapply ghost_pending].
    + by rewrite (proj1 Ha).
    + by rewrite (proj2 Ha).
    + apply (calm_worker_kept b _ g); cbn; [by split|done|done| |done]. intros m q Hl. exists q. split_and!; [done..|by left].
Qed.

Lemma board_reachable_calm c b :
  identified c -> (forall n p, c !! n = Some p -> orderly p = true) -> board_reachable true c b -> exists g, calm_ok b g.
Proof.
  intros Hid Hord. apply (rtc_ind_r (fun b => exists g, calm_ok b g) (board_of c)); [|by intros x y _ Hs Hx; eapply board_step_calm].
  exists c. assert (forall strict cls, follows strict cls c (unsettled (board_of c)) []) as Hf.
  { intros strict cls. split; [constructor|constructor|by intros n ?%elem_of_nil|by intros n p _ ?%elem_of_nil|].
    intros n p Hl _ Hq. exfalso. apply Hq, elem_of_unsettled. right. left. cbn. rewrite map_map, map_id.
    apply elem_of_elements. by eapply elem_of_dom_2. }
  split; [|done|done|apply Hf|apply Hf|done]. apply ghost_now; [|done]. apply Forall_forall. intros e Hin. cbn in Hin.
  apply list_elem_of_fmap in Hin as (n & -> & _). by exists n.
Qed.

(** C34: the dashboard follows the cluster.  Pods are created, updated and
    deleted; the informer's events are handled in the order of the changes, at
    any later time; the worker takes names from the queue in any order, and
    reads the pod, its claims and each element of the index one after the
    other, while everything else goes on, but for handlers that need the index
    it has locked; the controllers of volumes and claims write what they like
    of their own state.  A name is settled when no event of it is left, it is
    not queued, and the worker is not at it.  In every reachable state a
    settled labelled pod that is not being deleted is in its index.  In a calm
    cluster (the labels tell the driver's pods from those of apps and do not
    change, other pods use no claims, no pod is deleted while the worker is
    busy, and a deletion is handled before the worker goes on and before other
    pods change), whenever no deletion is still to be handled, both indexes are
    ordered by creation and without duplicates, the index of the apps holds of
    the settled names exactly those of the app pods that are not being deleted,
    and the index of the driver's pods holds only existing driver's pods (those
    being deleted included).  Without the calm
    the indexes can keep names of pods that are gone
    ([DashboardSyncWitnesses.stale_entry]). *)
Theorem dashboard_follows calm c b :
  identified c -> board_reachable calm c b ->
  let cache n := b_cache b !! n in
  let apps := appIndexes (b_api b) in
  let sys := sysIndexes (b_api b) in
  (forall n p, settled n b -> cache n = Some p -> is_deleted p = false ->
     if isSysPod p then n ∈ sys else (isAppPod p = true -> n ∈ apps)) /\
  (calm = true -> (forall n p, c !! n = Some p -> orderly p = true) -> no_deletion (b_events b) ->
   (ordered cache apps /\ NoDup apps /\ ordered cache sys /\ NoDup sys) /\
   (forall n, settled n b ->
      n ∈ apps <-> exists p, cache n = Some p /\ isAppPod p = true /\ is_deleted p = false) /\
   (forall n, n ∈ sys -> exists p, cache n = Some p /\ isSysPod p = true)).
Proof.
  intros Hid Hr. split.
  - intros n p Hq Hl Hd. by apply (sh_shown _ (board_reachable_shows calm c b Hid Hr)).
  - intros -> Hord Hnd. destruct (board_reachable_calm c b Hid Hord Hr) as [g Hb].
    pose proof (ghost_now_inv _ _ (co_ghost _ _ Hb) Hnd) as ->.
    destruct Hb as [_ _ _ [A1 A2 A3 A4 A5] [S1 S2 S3 _ _] _].
    split_and!; [done..| |done]. intros n Hq%settled_unsettled. split.
    + intros Hin. destruct (A3 n Hin) as (p & Hl & Hc). exists p. split_and!; [done..|by eapply A4].
    + intros (p & Hl & Hc & Hd). by eapply A5.
Qed.
End board.
