(* ===== verification/DashboardServerFacts.v ===== *)
(** * Properties of the server of the dashboard

    No request changes the cluster, the logs that can be read are those of pods
    that have to do with JuiceFS, and the static files are those of their
    directory. *)
From S2P Require Import Prelude.
From S2P Require Import GoStrings.
From S2P Require Import K8s.
From S2P Require Import Prog.
From S2P Require Import Effects.
From S2P Require Import Config.
From S2P Require Import Util.
From S2P Require Import PodUtil.
From S2P Require Import Dashboard.
From S2P Require Import DashboardApi.
From S2P Require Import DashboardServer.
#[local] Open Scope Z_scope.
#[local] Open Scope go_scope.

(** ** What a request looks at *)

Definition read_cmd (c : jfs_cmd) : bool :=
  match c with
  | GetPod _ _ _ | ListPod _ _ | GetPodLog _ _ _ | GetPersistentVolume _ | ListPersistentVolumes
  | GetPersistentVolumeClaim _ _ | GetStorageClass _ | ListStorageClasses | GetNode _ | ListEvents _ _ _
  | RangeKeys _ => true
  | _ => false
  end.

(** What the dashboard takes for a pod that has to do with JuiceFS: one with the
    labels of the driver or of an app, or with a claim, of whatever driver, that
    was just read. *)
Definition concerned (pod : Pod) (t : jtrace) : Prop :=
  isAppPod pod = true \/ isSysPod pod = true \/
  exists claim pvc, claim ∈ omap v_pvc (Volumes (p_spec pod)) /\
    ev (S := jfs) (GetPersistentVolumeClaim claim (pod_namespace pod)) (Ok pvc) ∈ t.
(** The command only reads, and reads the logs only of a container of a pod
    that was read before and is concerned. *)
Definition discreet (t : jtrace) (c : jfs_cmd) : Prop :=
  read_cmd c = true /\
  match c with
  | GetPodLog name ns container =>
      exists n pod, ev (S := jfs) (GetPod Caller n.2 n.1) (Ok pod) ∈ t /\ concerned pod t /\
        name = pod_name pod /\ ns = pod_namespace pod /\
        exists c, c ∈ InitContainers (p_spec pod) ++ Containers (p_spec pod) /\ c_name c = container
  | _ => True
  end.

(** All handlers but one read no logs at all. *)
Definition off_limits (c : jfs_cmd) : bool := negb (read_cmd c) || match c with GetPodLog _ _ _ => true | _ => false end.
Abbreviation no_logs := (avoids (S := jfs) off_limits).

Lemma no_logs_discreet {A} (p : M A) t : no_logs p -> issues (S := jfs) discreet p t.
Proof.
  apply issues_avoids. intros t' c [Hc Hl]%orb_false_iff. split; [by apply negb_false_iff|]. by destruct c.
Qed.

Create HintDb dashboard.
#[local] Hint Unfold listAppPod listSysPod list_selected listMountPod listCSINodePod listCSIControllerPod answer_list
  listPVsHandler listPVCsHandler list_page listSCsHandler getCSINodeByName getCSINode collect page_of slice
  pods_of_pv listMountPodOf listPVsOfPod listPVCsOfPod of_claims optional getPV getPVC getStorageClass
  filter_pod filterPVsOfPod filterMountPodsOfPod filterCSINodeOfPod complete_pod with_key getHandler
  listPodPVsHandler listPodPVCsHandler list_events getPodEvents getPVEvents getPVCEvents getPodNode
  listMountPodsOfAppPod listAppPodsOfMountPod getMountPodsOfPV getMountPodsOfPVC getPVOfSC
  read_pod read_pv read_pvc isAppPodUnready unready_step behind getPodMiddileware getPVMiddileware
  getPVCMiddileware getSCMiddileware : dashboard.
Ltac solve_no_logs := repeat (first [progress (repeat autounfold with dashboard; cbv zeta; cbn beta) | avoids_step]).

Lemma encode_issues {A} (f : A -> body) (p : M (reply A)) t :
  issues (S := jfs) discreet p t -> issues (S := jfs) discreet (encode f p) t.
Proof. intros Hp. by apply issues_bind. Qed.

Lemma pod_middleware_no_logs ns name : no_logs (getPodMiddileware ns name).
Proof. solve_no_logs. Qed.

(** The routes but that of the logs. *)
Lemma quiet_routes sysNamespace a r :
  r ∈ routes sysNamespace a -> (forall ps q t, issues (S := jfs) discreet (r_serve r ps q) t) \/
  r = pod_group "/logs/:container" (fun _ => Nothing) (fun ps pod => getPodLogs pod (sget ps "container")).
Proof.
  intros Hr. unfold routes in Hr.
  repeat (apply elem_of_cons in Hr as [->|Hr];
    [first [right; reflexivity|left; intros ps q t; apply encode_issues, no_logs_discreet; solve_no_logs]|]).
  by apply elem_of_nil in Hr.
Qed.

(** *** The pod of a request *)

(** A search that ends early ends at an element. *)
Lemma claim_seen ns l t v :
  runs (for_each l (unready_step ns) tt) t (Done (inr v)) ->
  exists claim pvc, claim ∈ l /\ ev (S := jfs) (GetPersistentVolumeClaim claim ns) (Ok pvc) ∈ t.
Proof.
  revert t. induction l as [|x l IH]; intros t; [by intros [_ ?]|].
  intros (t1 & t2 & [[]|[]] & -> & (r & t3 & -> & Hr) & Hl)%runs_bind_done; destruct r as [pvc|e]; try by destruct Hr as [_ [=]].
  - destruct (IH _ Hl) as (claim & pvc & Hin & He). exists claim, pvc. set_solver.
  - exists x, pvc. destruct Hr as [-> _]. set_solver.
Qed.

Lemma pod_middleware_concerned ns name t pod :
  runs (getPodMiddileware ns name) t (Done (inl pod)) ->
  ev (S := jfs) (GetPod Caller name ns) (Ok pod) ∈ t /\ concerned pod t.
Proof.
  intros ([p|e] & t1 & -> & Hr); prog_simpl_in Hr; [|by destruct Hr as [_ [=]]].
  apply runs_bind_done in Hr as (t2 & t3 & ours & -> & Ho & Hr). destruct ours; [|by destruct Hr as [_ [=]]].
  destruct Hr as [-> [= ->]]. split; [by left|]. unfold concerned.
  destruct (isAppPod p); [by left|]. destruct (isSysPod p); [right; by left|]. right. right. cbn [negb andb] in Ho.
  apply runs_bind_done in Ho as (t4 & t5 & [u|u] & -> & Hf & [_ [=]]). apply claim_seen in Hf as (claim & pvc & Hin & He).
  exists claim, pvc. split; [done|]. set_solver.
Qed.

Lemma logs_issues ps q t :
  issues (S := jfs) discreet
    (r_serve (pod_group "/logs/:container" (fun _ => Nothing) (fun ps pod => getPodLogs pod (sget ps "container"))) ps q) t.
Proof.
  apply encode_issues. unfold behind. apply issues_bind; [apply no_logs_discreet, pod_middleware_no_logs|].
  intros t' [pod|ws] Hm; [|destruct (existsb aborts ws); [done|apply no_logs_discreet; unfold getPodLogs; solve_no_logs]].
  apply pod_middleware_concerned in Hm as [Hin Hc]. unfold getPodLogs, with_key.
  destruct (existsb _ _) eqn:Ex; cbn [negb]; [|done]. apply existsb_true in Ex as (c & Hc' & Hn%bool_decide_eq_true).
  split; [|by intros [l|e]]. split; [done|]. exists (sget ps "namespace", sget ps "name"), pod. split_and!; [|..|done|done|].
  - apply elem_of_app. by right.
  - destruct Hc as [?|[?|(claim & pvc & ? & ?)]]; [by left|right; by left|]. right. right. exists claim, pvc. set_solver.
  - by exists c.
Qed.

(** C37: no request to the dashboard changes the cluster, and whose logs it
    reads.  Whatever the route, its parameters, the query and the state of the
    indexes, every command of a request is a read; and the logs of a container
    are only read after its pod was read and found to have the labels of the
    driver's pods or of an app's, or to use at least one claim that was read and
    exists, of whatever driver it may be: the logs of a pod without labels and
    without such a claim are never read. *)
Theorem requests_discreet sysNamespace a r ps q t o :
  r ∈ routes sysNamespace a -> runs (r_serve r ps q) t o ->
  forall t1 e t2, t = t1 ++ e :: t2 -> discreet t1 (projT1 e).
Proof.
  intros Hr Hrun. apply (issues_runs (S := jfs) discreet _ [] _ _) with (2 := Hrun).
  apply quiet_routes in Hr as [Hr| ->]; [apply Hr|apply logs_issues].
Qed.

(** ** Static files *)

(** The file of the path [rest] below a directory. *)
Definition below (dir : string) (rest : list string) : string :=
  path_of (HasPrefix dir "/") (path_elements (HasPrefix dir "/") dir ++ rest).
Definition plain_elements (rest : list string) : Prop := Forall (fun x => x <> "" /\ x <> "." /\ x <> "..") rest.

(** C38: the static files stay in their directory.  Whatever path is asked for,
    the only file looked at and the only file sent lie below the directory: they
    are its own elements followed by names that are not "..". *)
Theorem serve_app_confined staticDir path t o :
  staticDir <> "" -> runs (serve_app staticDir path) t o ->
  (forall file r, ev (S := jfs) (Stat file) r ∈ t -> exists rest, file = below staticDir rest /\ plain_elements rest) /\
  (forall l file, o = Done l -> File file ∈ l -> exists rest, file = below staticDir rest /\ plain_elements rest).
Proof.
  intros Hd. assert (forall p, Contains p ".." = false ->
    exists rest, path_Join [staticDir; p] = below staticDir rest /\ plain_elements rest) as Hj.
  { intros p Hp. by apply path_Join_below. }
  unfold serve_app. destruct (Contains path "..") eqn:Hp.
  - intros [-> ->]. split; [by intros file r ?%elem_of_nil|]. intros l file [= <-]. set_solver.
  - intros (r & t' & -> & Hr). prog_simpl_in Hr.
    assert (t' = [] /\ forall l file, o = Done l -> File file ∈ l ->
      file = path_Join [staticDir; "index.html"] \/ file = path_Join [staticDir; path]) as [-> Ho].
    { destruct r as [f|e]; [|destruct (IsNotExist e)]; destruct Hr as [-> ->]; (split; [done|]); [| |done];
        intros l file [= <-] [= ->]%list_elem_of_singleton; [|by left]. destruct (fi_dir f); auto. }
    split.
    + intros file x Hx%list_elem_of_singleton. apply (f_equal (fun e : event jfs => projT1 e)) in Hx as [= ->]. by apply Hj.
    + intros l file Hl Hf. destruct (Ho l file Hl Hf) as [-> | ->]; by apply Hj.
Qed.
