(* ===== verification/SidecarFacts.v ===== *)
(** * Side cars: their names and volumes

    What the webhook relies on: the volumes a builder gives to a side car, and
    the renaming that keeps several side cars of one pod apart. *)
From S2P Require Import Prelude.
From S2P Require Import GoStrings.
From S2P Require Import Decimal.
From S2P Require Import K8s.
From S2P Require Import Prog.
From S2P Require Import Effects.
From S2P Require Import Config.
From S2P Require Import Util.
From S2P Require Import Setting.
From S2P Require Import JfsSetting.
From S2P Require Import Builder.
From S2P Require Import Sidecar.
From S2P Require Import Webhook.
From S2P Require Import BuilderFacts.
#[local] Open Scope Z_scope.
#[local] Open Scope go_scope.

(** ** Names *)

Lemma family_prefix s : exists r, s = family s +:+ r.
Proof.
  induction s as [|c s [r IH]]; [by exists ""|]. cbn. destruct (is_digit c); [by exists (String c s)|].
  exists r. cbn. by rewrite <-IH.
Qed.

Lemma HasPrefix_trans a b c : HasPrefix a b = true -> HasPrefix b c = true -> HasPrefix a c = true.
Proof.
  intros [r1 ->]%HasPrefix_spec [r2 ->]%HasPrefix_spec. rewrite str_app_assoc. apply HasPrefix_app.
Qed.

(** A digit-free prefix shows in the family. *)
Lemma HasPrefix_family s p :
  all_chars (fun c => negb (is_digit c)) p = true -> HasPrefix s p = true -> HasPrefix (family s) p = true.
Proof.
  intros Hp [r ->]%HasPrefix_spec. apply HasPrefix_spec. exists (family r). revert Hp.
  induction p as [|c p IH]; [done|]. cbn. intros [Hc%negb_true_iff Hp]%andb_true_iff. by rewrite Hc, IH.
Qed.

(** The families of the volumes that builders make. *)
Definition own_families : list string :=
  ["rsa-key"; "init-config"; "config-"; JfsDirName; UpdateDBDirName; "cachedir-"; "cachedir-pvc-";
   "cachedir-empty-dir"; "cachedir-inline-volume-"; "hostpath-"; "jfs-check-mount"].
Definition own (x : string) : Prop := family x ∈ own_families.

Lemma own_no_mount x : own x -> HasPrefix x MountContainerName = false.
Proof.
  intros Hx. destruct (HasPrefix x MountContainerName) eqn:E; [|done]. exfalso.
  apply HasPrefix_family in E; [|done].
  assert (Forall (fun f => HasPrefix f MountContainerName = false) own_families) as Hf.
  { repeat (apply Forall_cons; split; [by vm_compute|]). constructor. }
  rewrite Forall_forall in Hf. specialize (Hf _ Hx). congruence.
Qed.

Lemma own_no_digit x c r : own x -> x = String c r -> is_digit c = false.
Proof.
  intros Hx ->. destruct (is_digit c) eqn:E; [|done]. unfold own in Hx. cbn in Hx. rewrite E in Hx.
  exfalso. revert Hx. apply (bool_decide_unpack _). by vm_compute.
Qed.

(** The names of the side cars: [jfs-mount], then [jfs-mount-1], ... *)
Definition sidecar_name (i : nat) : string :=
  match i with O => MountContainerName | S _ => MountContainerName +:+ "-" +:+ pretty i end.

Lemma sidecar_name_prefix i : HasPrefix (sidecar_name i) MountContainerName = true.
Proof. destruct i; [apply HasPrefix_refl|apply HasPrefix_app]. Qed.

Lemma dedup_container_prefix cs i name : HasPrefix (dedup_container cs i name) name = true.
Proof.
  unfold dedup_container. assert (HasPrefix name name = true) as H by apply HasPrefix_refl.
  revert H. generalize name at 1 3 as n. induction cs as [|c cs IH]; intros n Hn; [done|]. cbn.
  apply IH. case_bool_decide as E; [|done]. eapply HasPrefix_trans; [|apply Hn]. rewrite E. apply HasPrefix_app.
Qed.

(** Renaming for the next side car when the pod has the first [i] of them and
    other containers with other names. *)
Lemma dedup_container_next i (sides apps : list Container) :
  map c_name sides = rev (map sidecar_name (seq 0 i)) ->
  Forall (fun c => HasPrefix (c_name c) MountContainerName = false) apps ->
  dedup_container (sides ++ apps) i MountContainerName = sidecar_name i.
Proof.
  intros Hs Ha. unfold dedup_container. rewrite foldl_app.
  assert (forall n, HasPrefix n MountContainerName = true ->
            foldl (fun name c => if bool_decide (c_name c = name) then c_name c +:+ "-" +:+ pretty i else name) n apps = n)
    as Happs.
  { intros n Hn. clear Hs. induction Ha as [|c apps Hc _ IH]; [done|]. cbn.
    rewrite bool_decide_false; [done|]. intros E. congruence. }
  destruct i as [|i].
  { destruct sides; [|done]. cbn. by apply Happs. }
  cbn [seq map rev] in Hs. change (map c_name sides = rev (map sidecar_name (seq 1 i)) ++ [MountContainerName]) in Hs.
  apply map_eq_app in Hs as (s1 & s2 & -> & H1 & H2).
  destruct s2 as [|c [|]]; try done. injection H2 as H2. rewrite foldl_app. cbn [foldl].
  assert (foldl (fun name c => if bool_decide (c_name c = name) then c_name c +:+ "-" +:+ pretty (S i) else name)
            MountContainerName s1 = MountContainerName) as ->.
  { assert (Forall (fun n => n <> MountContainerName) (map c_name s1)) as Hf.
    { rewrite H1. apply Forall_forall. intros n Hn. apply list_elem_of_In, in_rev, in_map_iff in Hn as (k & <- & Hk).
      apply in_seq in Hk. destruct k; [lia|]. cbn. discriminate. }
    clear -Hf. induction s1 as [|c s1 IH]; [done|]. inversion_clear Hf. cbn.
    rewrite bool_decide_false by done. by apply IH. }
  rewrite bool_decide_true by done. rewrite H2. by apply Happs.
Qed.

(** *** Names of the renamed volumes *)

Definition renamed (cn : string) (podVolumes : list string) (x : string) : string :=
  if shared_volume x || negb (bool_decide (x ∈ podVolumes)) then x else cn +:+ "-" +:+ x.

Lemma digits_free (n : nat) c : is_digit c = false -> free_of c (pretty n).
Proof.
  intros Hc. eapply (all_chars_free is_digit); [done|]. unfold pretty, pretty_nat, pretty, pretty_N. by case_decide; [|apply pretty_N_go_digits].
Qed.

Lemma sidecar_volume_inj i j x y :
  own x -> own y -> sidecar_name i +:+ "-" +:+ x = sidecar_name j +:+ "-" +:+ y -> i = j /\ x = y.
Proof.
  intros Hx Hy E.
  assert (forall k z w, own z -> own w ->
            MountContainerName +:+ "-" +:+ z <> MountContainerName +:+ "-" +:+ pretty (S k) +:+ "-" +:+ w) as Hno.
  { intros k z w Hz _ E'. apply str_app_inv_head in E'. injection E' as E'.
    destruct (pretty_digit (S k)) as (c & r & Hc & Hd). rewrite Hc in E'. cbn in E'.
    rewrite (own_no_digit z c (r +:+ "-" +:+ w) Hz E') in Hd. done. }
  destruct i as [|i], j as [|j]; cbn [sidecar_name] in E.
  - split; [done|]. apply str_app_inv_head in E. by injection E.
  - rewrite !str_app_assoc in E. by apply Hno in E.
  - symmetry in E. rewrite !str_app_assoc in E. by apply Hno in E.
  - rewrite !str_app_assoc in E. apply str_app_inv_head in E. injection E as E.
    apply (f_equal (fun s => Split s "-")) in E as E2.
    change ("-" +:+ x) with (String "-" x) in E2. change ("-" +:+ y) with (String "-" y) in E2.
    rewrite !Split_char_cons in E2 by (by apply digits_free). injection E2 as E2 _.
    apply pretty_nat_inj in E2 as E3. injection E3 as ->. split; [done|].
    apply str_app_inv_head in E. by injection E.
Qed.

Lemma sidecar_volume_prefix i x : HasPrefix (sidecar_name i +:+ "-" +:+ x) MountContainerName = true.
Proof. eapply HasPrefix_trans; [apply HasPrefix_app|apply sidecar_name_prefix]. Qed.

(** ** Deduplicate *)

Definition rename_volume (f : string -> string) (v : Volume) : Volume :=
  {| v_name := f (v_name v); v_source := v_source v |}.
Definition rename_mounts (f : string -> string) (vm : VolumeMount) : VolumeMount := rename_mount (f (vm_name vm)) vm.

(** On volumes that are mounted one by one, the renaming is the same function
    on both sides. *)
Lemma dedup_volumes cn pv (l : list (Volume * VolumeMount)) :
  HasPrefix cn MountContainerName = true -> paired l -> NoDup (names l) -> Forall own (names l) ->
  foldl (dedup_volume cn pv) ([], l.*2) l.*1 =
  (map (rename_volume (renamed cn pv)) l.*1, map (rename_mounts (renamed cn pv)) l.*2).
Proof.
  intros Hcn Hp Hn Ho.
  enough (forall l1 l2, l = l1 ++ l2 ->
    foldl (dedup_volume cn pv)
      (map (rename_volume (renamed cn pv)) l1.*1, map (rename_mounts (renamed cn pv)) l1.*2 ++ l2.*2) l2.*1 =
    (map (rename_volume (renamed cn pv)) l.*1, map (rename_mounts (renamed cn pv)) l.*2)) as Hgen
    by (by apply (Hgen [] l)).
  intros l1 l2. revert l1. induction l2 as [|[mv mm] l2 IH]; intros l1 ->.
  { by rewrite !app_nil_r. }
  assert (vm_name mm = v_name mv) as Hmm.
  { apply Forall_app in Hp as [_ Hp]. by inversion Hp. }
  assert (map (rename_volume (renamed cn pv)) (l1 ++ [(mv, mm)]).*1 =
          map (rename_volume (renamed cn pv)) l1.*1 ++ [rename_volume (renamed cn pv) mv]) as Hv
    by (by rewrite fmap_app, map_app).
  assert (map (rename_mounts (renamed cn pv)) (l1 ++ [(mv, mm)]).*2 =
          map (rename_mounts (renamed cn pv)) l1.*2 ++ [rename_mounts (renamed cn pv) mm]) as Hm
    by (by rewrite fmap_app, map_app).
  specialize (IH (l1 ++ [(mv, mm)])). rewrite <-app_assoc in IH. specialize (IH eq_refl).
  rewrite Hv, Hm, <-app_assoc in IH. rewrite <-IH. cbn [fmap list_fmap fst snd foldl]. f_equal.
  assert (renamed cn pv (v_name mv) = if shared_volume (v_name mv) || negb (bool_decide (v_name mv ∈ pv))
          then v_name mv else cn +:+ "-" +:+ v_name mv) as Hr by done.
  change (rename_volume (renamed cn pv) mv) with {| v_name := renamed cn pv (v_name mv); v_source := v_source mv |}.
  change (rename_mounts (renamed cn pv) mm) with (rename_mount (renamed cn pv (vm_name mm)) mm).
  cbn [dedup_volume]. rewrite Hmm, Hr.
  destruct (shared_volume (v_name mv) || _) eqn:E.
  { f_equal; [by destruct mv|]. cbn [app]. do 2 f_equal. destruct mm; cbn in *. by subst. }
  f_equal. rewrite (proj2 (list_find_Some _ _ (length l1) mm)).
  - rewrite alter_app_r_alt by (by rewrite length_map, length_fmap).
    rewrite length_map, length_fmap, Nat.sub_diag. done.
  - split_and!.
    + rewrite lookup_app_r by (by rewrite length_map, length_fmap).
      by rewrite length_map, length_fmap, Nat.sub_diag.
    + done.
    + intros j y Hj Hlt. rewrite lookup_app_l in Hj by (by rewrite length_map, length_fmap).
      apply list_lookup_fmap_Some in Hj as (m & -> & Hj). apply list_lookup_fmap_Some in Hj as ([v' m'] & -> & Hj).
      assert ((v', m') ∈ l1) as Hin by (by eapply list_elem_of_lookup_2). cbn.
      assert (vm_name m' = v_name v') as Hm'.
      { apply Forall_app in Hp as [Hp _]. rewrite Forall_forall in Hp. by apply (Hp (v', m')). }
      rewrite Hm'. unfold renamed. intros Heq. destruct (shared_volume (v_name v') || _).
      * unfold names in Hn. rewrite map_app in Hn. apply NoDup_app in Hn as (_ & Hn & _).
        apply (Hn (v_name v')); [by apply (list_elem_of_fmap_2 (fun e => v_name e.1) _ (v', m'))|].
        cbn. rewrite Heq. by left.
      * assert (own (v_name mv)) as Hown.
        { rewrite Forall_forall in Ho. apply Ho. unfold names. rewrite map_app. apply elem_of_app. right. by left. }
        apply own_no_mount in Hown. rewrite <-Heq in Hown.
        assert (HasPrefix (cn +:+ "-" +:+ v_name v') MountContainerName = true) as Hx
          by (eapply HasPrefix_trans; [apply HasPrefix_app|done]).
        congruence.
Qed.

(** ** What the builders make *)

Section shapes.
Context `{Globals} `{QuantityParser} `{SettingCodec}.

(** The host directory of all mount points, and its mount in a side car. *)
Definition jfs_dir : Volume * VolumeMount :=
  ({| v_name := JfsDirName; v_source := HostPath g_MountPointPath (Some DirectoryOrCreate) |},
   {| vm_name := JfsDirName; vm_path := PodMountBase; vm_subPath := ""; vm_readOnly := false;
      vm_propagation := Some Bidirectional |}).

(** The script of a container mounts the setting [s] at its mount path. *)
Definition mounts_setting (s : JfsSetting) (c : Container) : Prop :=
  c_command c = ["sh"; "-c"; mount_script s] \/ c_command c = ["sh"; "-c"; serverless_script s].

(** A pod with one container [c] whose mounts are the volumes [l]. *)
Record side_car (s : JfsSetting) (mp : Pod) (l : list (Volume * VolumeMount)) (c : Container) : Prop := {
  sc_containers : Containers (p_spec mp) = [c];
  sc_name : c_name c = MountContainerName;
  sc_volumes : Volumes (p_spec mp) = l.*1;
  sc_mounts : c_volumeMounts c = l.*2;
  sc_paired : paired l;
  sc_nodup : NoDup (names l);
  sc_own : Forall own (names l);
  sc_jfs : jfs_dir ∈ l;
  sc_annotations : pod_annotations mp = ∅;
  sc_script : exists s', MountPath s' = MountPath s /\ mounts_setting s' c;
}.

Lemma overwriteSubdir_MountPath s : MountPath (overwriteSubdirWithSubPath s) = MountPath s.
Proof. unfold overwriteSubdirWithSubPath. case_bool_decide; [done|]. by destruct (foldl _ _ _). Qed.

(** Families of names: no duplicates together, and all of them known. *)
Lemma families_own (ls : list (string * list string)) :
  Forall (fun kl => Forall (fun x => family x = kl.1) kl.2) ls ->
  Forall (fun f => f ∈ own_families) ls.*1 -> Forall own (mjoin ls.*2).
Proof.
  intros Hl Ho. apply Forall_forall. intros x (l' & Hx & Hl')%list_elem_of_join.
  apply list_elem_of_fmap in Hl' as ([k l] & -> & Hin). rewrite Forall_forall in Hl. specialize (Hl _ Hin). cbn in *.
  rewrite Forall_forall in Hl. unfold own. rewrite (Hl _ Hx). rewrite Forall_forall in Ho.
  apply Ho, list_elem_of_fmap. by exists (k, l).
Qed.

(** The volumes of the serverless side car. *)
Definition serverless_volumes (s : JfsSetting) (configs : list (string * string)) : list (Volume * VolumeMount) :=
  genJuiceVolumes s configs ++ genServerlessVolumes s ++ serverless_cache_volumes s.
Definition serverless_families (s : JfsSetting) (configs : list (string * string)) : list (string * list string) :=
  [("rsa-key", if bool_decide (EncryptRsaKey s = "") then [] else ["rsa-key"]);
   ("init-config", if bool_decide (InitConfig s = "") then [] else ["init-config"]);
   ("config-", imap (fun i _ => "config-" +:+ pretty (1 + i)%nat) configs);
   (JfsDirName, [JfsDirName]); ("jfs-check-mount", ["jfs-check-mount"]);
   ("cachedir-pvc-", imap (fun i _ => "cachedir-pvc-" +:+ pretty (0 + i)%nat) (CachePVCs s));
   ("cachedir-empty-dir", match js_CacheEmptyDir s with Some _ => ["cachedir-empty-dir"] | None => [] end);
   ("cachedir-inline-volume-",
      imap (fun i _ => "cachedir-inline-volume-" +:+ pretty (0 + i)%nat) (CacheInlineVolumes s))].

Lemma serverless_volumes_paired s configs : paired (serverless_volumes s configs).
Proof.
  unfold serverless_volumes, genJuiceVolumes, genServerlessVolumes, serverless_cache_volumes.
  repeat apply Forall_app_2; try (by apply paired_imap).
  - by destruct (bool_decide _); repeat constructor.
  - by destruct (bool_decide _); repeat constructor.
  - by repeat constructor.
  - by destruct (js_CacheEmptyDir s); repeat constructor.
Qed.

Lemma serverless_volumes_families s configs :
  names (serverless_volumes s configs) = mjoin (serverless_families s configs).*2.
Proof.
  unfold serverless_volumes, genJuiceVolumes, genServerlessVolumes, serverless_cache_volumes.
  rewrite !names_app.
  rewrite (names_imap _ (fun i => "config-" +:+ pretty (1 + i)%nat)) by done.
  rewrite (names_imap _ (fun i => "cachedir-pvc-" +:+ pretty (0 + i)%nat) (CachePVCs s)) by done.
  rewrite (names_imap _ (fun i => "cachedir-inline-volume-" +:+ pretty (0 + i)%nat) (CacheInlineVolumes s)) by done.
  unfold serverless_families. cbn [fmap list_fmap snd mjoin list_join].
  rewrite app_nil_r, <- !app_assoc.
  destruct (bool_decide (EncryptRsaKey s = "")), (bool_decide (InitConfig s = "")), (js_CacheEmptyDir s); reflexivity.
Qed.

Lemma one_family x : family x = x -> NoDup [x] /\ Forall (fun y => family y = x) [x].
Proof. intros Hx. split; [apply NoDup_singleton|by repeat constructor]. Qed.
Lemma no_family k : NoDup (@nil string) /\ Forall (fun y => family y = k) (@nil string).
Proof. split; constructor. Qed.

(** A list of families, one after the other. *)
Ltac solve_families :=
  repeat (apply Forall_cons_2; [first [by apply numbered_family|by apply one_family|apply no_family]|]);
  apply Forall_nil_2.

Lemma serverless_families_ok s configs :
  Forall (fun kl => NoDup kl.2 /\ Forall (fun x => family x = kl.1) kl.2) (serverless_families s configs).
Proof.
  unfold serverless_families.
  destruct (bool_decide (EncryptRsaKey s = "")), (bool_decide (InitConfig s = "")), (js_CacheEmptyDir s); solve_families.
Qed.

(** The volumes of the side car that is a mount pod. *)
Definition container_volumes (s check : JfsSetting) (configs : list (string * string)) : list (Volume * VolumeMount) :=
  all_volumes s configs ++ [check_mount_volume check].
Definition container_families (s : JfsSetting) (configs : list (string * string)) : list (string * list string) :=
  volume_families s configs ++ [("jfs-check-mount", ["jfs-check-mount"])].

Lemma container_families_ok s configs :
  Forall (fun kl => NoDup kl.2 /\ Forall (fun x => family x = kl.1) kl.2) (container_families s configs).
Proof.
  unfold container_families, volume_families.
  destruct (bool_decide (EncryptRsaKey s = "")), (bool_decide (InitConfig s = "")), g_Immutable, (js_CacheEmptyDir s);
    cbn [app]; solve_families.
Qed.

Lemma container_volumes_families s check configs :
  names (container_volumes s check configs) = mjoin (container_families s configs).*2.
Proof.
  unfold container_volumes, container_families. rewrite names_app, all_volumes_families, fmap_app, join_app. done.
Qed.

(** Families with different keys, all known. *)
Lemma families_names (ls : list (string * list string)) l :
  names l = mjoin ls.*2 ->
  Forall (fun kl => NoDup kl.2 /\ Forall (fun x => family x = kl.1) kl.2) ls ->
  NoDup ls.*1 -> Forall (fun f => f ∈ own_families) ls.*1 -> NoDup (names l) /\ Forall own (names l).
Proof.
  intros -> Hl Hn Ho. split; [by apply NoDup_families|]. apply families_own; [|done].
  eapply Forall_impl; [apply Hl|]. by intros ? [].
Qed.

Lemma Container_side_car s capacity t mp s' :
  runs (Container_NewMountSidecar s capacity) t (Done (mp, s')) -> exists l c, side_car s mp l c.
Proof.
  unfold Container_NewMountSidecar, NewMountPod. rewrite !runs_bind.
  intros [(t1 & t2 & p & -> & Hg & Hr)|(e & _ & ?)]; [|done].
  apply runs_bind in Hg as [(t3 & t4 & q & -> & Hg & Hr')|(e & _ & ?)]; [|done].
  unfold genCommonJuicePod in Hg. destruct (regen_attr_spec s) as [a Ha]. remember (regen_attr s) as s1 eqn:Es1.
  apply runs_range_map in Hg as (configs & e & t' & _ & -> & _ & [-> [= ->]]).
  destruct Hr' as [-> [= ->]]. destruct Hr as [-> [= -> ->]].
  destruct (families_names (container_families s1 configs) (container_volumes s1 s1 configs)) as [Hn Ho];
    [apply container_volumes_families|apply container_families_ok|apply (bool_decide_unpack _); by vm_compute
    |apply (bool_decide_unpack _); by vm_compute|].
  exists (container_volumes s1 s1 configs). eexists. split; [reflexivity|reflexivity| | | |done|done| |done|].
  1: unfold container_volumes, all_volumes;
       cbn [p_spec Volumes add_volumes update_first with_containers with_volumes Containers with_script];
       rewrite !fmap_app; by rewrite <- !app_assoc.
  1: unfold container_volumes, all_volumes;
       cbn [c_volumeMounts with_volumeMounts with_env with_command with_check_mount with_lifecycle common_container];
       rewrite !fmap_app; by rewrite <- !app_assoc.
  - apply Forall_app; split; [apply all_volumes_paired|by repeat constructor].
  - unfold container_volumes, all_volumes. rewrite !elem_of_app. left; right; left. by left.
  - exists (overwriteSubdirWithSubPath s1). split; [|by left].
    rewrite overwriteSubdir_MountPath. by rewrite Ha.
Qed.

Lemma Serverless_side_car s capacity t mp s' :
  runs (Serverless_NewMountSidecar s capacity) t (Done (mp, s')) -> exists l c, side_car s mp l c.
Proof.
  unfold Serverless_NewMountSidecar. rewrite !runs_bind.
  intros [(t1 & t2 & p & -> & Hg & Hr)|(e & _ & ?)]; [|done].
  unfold genCommonJuicePod in Hg. destruct (regen_attr_spec s) as [a Ha]. remember (regen_attr s) as s1 eqn:Es1.
  apply runs_range_map in Hg as (configs & e & t' & _ & -> & _ & [-> [= ->]]).
  destruct Hr as [-> [= -> ->]].
  destruct (families_names (serverless_families s1 configs) (serverless_volumes s1 configs)) as [Hn Ho];
    [apply serverless_volumes_families|apply serverless_families_ok|apply (bool_decide_unpack _); by vm_compute
    |apply (bool_decide_unpack _); by vm_compute|].
  exists (serverless_volumes s1 configs). eexists. split; [reflexivity|reflexivity| | | |done|done| |done|].
  1: unfold serverless_volumes;
       cbn [p_spec Volumes add_volumes update_first with_containers with_volumes Containers with_script];
       rewrite !fmap_app, <- app_assoc; reflexivity.
  1: unfold serverless_volumes;
       cbn [c_volumeMounts with_volumeMounts with_env with_command with_check_mount with_lifecycle common_container];
       rewrite !fmap_app, <- app_assoc; reflexivity.
  - apply serverless_volumes_paired.
  - unfold serverless_volumes. rewrite !elem_of_app. right; left. by left.
  - exists (overwriteSubdirWithSubPath s1). split; [|by right].
    rewrite overwriteSubdir_MountPath. by rewrite Ha.
Qed.
End shapes.
