(* ===== verification/WebhookFacts.v ===== *)
(** * The side-car webhook: what it injects

    Every pod that [Mutate] returns has one side car per claim in front of its
    own containers, with names of its own, and the volumes of the claims show
    the mount points of the side cars.  The theorems are about the builders
    that share mounts through the host: the container builder and the plain
    serverless one. *)
From S2P Require Import Prelude.
From S2P Require Import GoStrings.
From S2P Require Import Decimal.
From S2P Require Import K8s.
From S2P Require Import Prog.
From S2P Require Import Effects.
From S2P Require Import Config.
From S2P Require Import Util.
From S2P Require Import PodUtil.
From S2P Require Import VolumeUtil.
From S2P Require Import Setting.
From S2P Require Import JfsSetting.
From S2P Require Import Builder.
From S2P Require Import PodMount.
From S2P Require Import Juicefs.
From S2P Require Import Sidecar.
From S2P Require Import Webhook.
From S2P Require Import BuilderFacts.
From S2P Require Import SidecarFacts.
#[local] Open Scope Z_scope.
#[local] Open Scope go_scope.

(** ** One side car *)

Definition claim_name (pair : PVPair) : string := Name (pvc_meta (PVC pair)).

(** The pod asks for one of the builders that need no host. *)
Definition bursts (serverless : bool) (pod : Pod) : bool :=
  serverless && (bool_decide (sget (pod_annotations pod) VCIANNOKey = VCIANNOValue) ||
                 bool_decide (sget (pod_labels pod) CCIANNOKey = CCIANNOValue)).

Section webhook.
Context `{Globals} `{Retry} `{QuantityParser} `{SettingCodec} `{PropagationCodec}.

(** A volume of the claim shows the directory [r] of the mount points. *)
Definition expose (claim r : string) (v : Volume) : Volume :=
  if bool_decide (v_pvc v = Some claim) then with_source (host_mount r) v else v.

(** The volumes of the side car that the pod gets: those it shares only once. *)
Definition kept (podVolumes : list string) (v : Volume) : bool :=
  negb (shared_volume (v_name v) && bool_decide (v_name v ∈ podVolumes)).

Definition volume_names (pod : Pod) : list string := map v_name (Volumes (p_spec pod)).

(** [out] is [pod] with the side car [c] with volumes [l], renamed. *)
Record injected (i : nat) (claim r : string) (l : list (Volume * VolumeMount)) (c : Container) (pod out : Pod) : Prop := {
  in_containers :
    let cn := dedup_container (Containers (p_spec pod)) i MountContainerName in
    Containers (p_spec out) =
      with_volumeMounts (map (rename_mounts (renamed cn (volume_names pod))) l.*2) (with_container_name cn c) ::
      Containers (p_spec pod);
  in_volumes :
    let cn := dedup_container (Containers (p_spec pod)) i MountContainerName in
    Volumes (p_spec out) =
      map (expose claim r) (Volumes (p_spec pod)) ++
      List.filter (kept (volume_names pod)) (map (rename_volume (renamed cn (volume_names pod))) l.*1);
  in_labels : pod_labels out = <[ InjectSidecarDone := True_ ]> (pod_labels pod);
  in_annotations : pod_annotations out = pod_annotations pod;
}.

Lemma overwrite_nothing (build : SidecarInterface) vols cns :
  (forall vm, OverwriteVolumeMounts build vm = vm) -> foldl (overwrite_mounts build) cns vols = cns.
Proof.
  intros Hb. revert cns. induction vols as [|v vols IH]; intros cns; [done|]. cbn. rewrite IH.
  unfold overwrite_mounts. rewrite <-(List.map_id cns) at 2. apply map_ext. intros c.
  replace (map _ (c_volumeMounts c)) with (c_volumeMounts c); [by destruct c|].
  rewrite <-(List.map_id (c_volumeMounts c)) at 1. apply map_ext. intros vm. rewrite Hb. by case_bool_decide.
Qed.

(** [Deduplicate] on the pod of a side car. *)
Lemma Deduplicate_side_car i s mp l c pod :
  side_car s mp l c ->
  let cn := dedup_container (Containers (p_spec pod)) i MountContainerName in
  let ρ := renamed cn (volume_names pod) in
  Containers (p_spec (Deduplicate pod mp i)) =
    [with_volumeMounts (map (rename_mounts ρ) l.*2) (with_container_name cn c)] /\
  Volumes (p_spec (Deduplicate pod mp i)) = map (rename_volume ρ) l.*1 /\
  pod_annotations (Deduplicate pod mp i) = ∅.
Proof.
  intros [Hc Hn Hv Hm Hp Hd Ho _ Ha _]. cbn zeta. unfold Deduplicate. rewrite Hc, Hn, Hv, Hm.
  rewrite (dedup_volumes _ _ l (dedup_container_prefix _ _ _) Hp Hd Ho). done.
Qed.

Lemma inject_side_car build i s mp l c pod r pair t out :
  side_car s mp l c -> (forall vm, OverwriteVolumeMounts build vm = vm) ->
  (forall v, OverwriteVolumes build v r = with_source (host_mount r) v) ->
  runs (inject build (Deduplicate pod mp i) r pair pod) t (Done (Ok out)) ->
  injected i (claim_name pair) r l c pod out.
Proof.
  intros Hs Hvm Hvol Hr. destruct (Deduplicate_side_car i s mp l c pod Hs) as (Hc & Hv & Ha).
  unfold inject in Hr. rewrite Hc in Hr. destruct Hr as [_ [= ->]]. split; cbn zeta.
  - cbn. rewrite overwrite_nothing by done. done.
  - cbn. rewrite Hv. f_equal. apply map_ext. intros v. unfold expose, claim_name. case_bool_decide; [apply Hvol|done].
  - done.
  - transitivity (pod_annotations (Deduplicate pod mp i) ∪ pod_annotations pod); [done|].
    rewrite Ha. apply map_empty_union.
Qed.

(** The builders that share through the host. *)
Lemma host_builder serverless pod pair s cap :
  bursts serverless pod = false ->
  let build := sidecar_builder serverless pod pair s cap in
  (forall vm, OverwriteVolumeMounts build vm = vm) /\
  (forall v r, OverwriteVolumes build v r = with_source (host_mount r) v) /\
  forall t mp, runs (NewMountSidecar build) t (Done mp) -> exists l c, side_car s mp.1 l c.
Proof.
  unfold bursts, sidecar_builder. intros Hb. cbn zeta. destruct serverless; cbn [negb andb] in *.
  - apply orb_false_iff in Hb as [-> ->]. split_and!; [done..|]. intros t [mp s'] Hr.
    exact (Serverless_side_car _ _ _ _ _ Hr).
  - split_and!; [done..|]. intros t [mp s'] Hr. exact (Container_side_car _ _ _ _ _ Hr).
Qed.

Lemma mutate_injects serverless pod pair i t out :
  bursts serverless pod = false -> runs (mutate serverless pod pair i) t (Done (Ok out)) ->
  exists s mp l c r, MountPath s = path_Join [PodMountBase; r] /\ side_car s mp l c /\
    injected i (claim_name pair) r l c pod out.
Proof.
  intros Hb Hr. unfold mutate in Hr.
  apply runs_bindR_ok in Hr as (_ & t1 & [[secrets volCtx] options] & _ & _ & Hr).
  apply runs_bind_done in Hr as (_ & t2 & csi & _ & _ & Hr).
  apply runs_bind_done in Hr as (_ & t3 & [[sec ctx] [s|e]] & _ & _ & Hr); [|by destruct Hr as [_ ?]].
  apply runs_bind_done in Hr as (_ & t4 & r & _ & _ & Hr).
  destruct (Attr s) as [a|]; [|by destruct Hr as [_ ?]].
  destruct (_ <=? 0); [by destruct Hr as [_ ?]|].
  apply runs_thenR_ok in Hr as (_ & t5 & _ & _ & Hr).
  apply runs_bind_done in Hr as (t6 & t7 & mp & _ & Hmp & Hr).
  set (s1 := sidecar_setting pod pair r a s) in *.
  destruct (host_builder serverless pod pair s1 (capacity_GiB (QuantityValue (pvc_storage (PVC pair)))) Hb)
    as (Hm1 & Hm2 & Hm3).
  destruct (Hm3 _ _ Hmp) as (l & c & Hs). exists s1, mp.1, l, c, r. split_and!; [done|done|].
  by eapply inject_side_car.
Qed.

(** ** All side cars of a pod *)

(** The container [c] runs a client that mounts at the directory [r] below the
    mount points, which it shares with the host. *)
Definition serves (r : string) (c : Container) : Prop :=
  (exists s, MountPath s = path_Join [PodMountBase; r] /\ mounts_setting s c) /\ jfs_dir.2 ∈ c_volumeMounts c.

Lemma injected_serves i claim r s mp l c pod out :
  MountPath s = path_Join [PodMountBase; r] -> side_car s mp l c -> injected i claim r l c pod out ->
  exists side, Containers (p_spec out) = side :: Containers (p_spec pod) /\ serves r side /\
    c_name side = dedup_container (Containers (p_spec pod)) i MountContainerName.
Proof.
  intros Hp Hs Hi. rewrite (in_containers _ _ _ _ _ _ _ Hi). eexists. split_and!; [done| |done]. split.
  - destruct (sc_script _ _ _ _ Hs) as (s' & Hs' & Hm). exists s'. split; [congruence|]. exact Hm.
  - cbn. pose proof (sc_jfs _ _ _ _ Hs) as Hj. apply (list_elem_of_fmap_2 snd) in Hj.
    apply (list_elem_of_fmap_2 (rename_mounts (renamed (dedup_container (Containers (p_spec pod)) i MountContainerName)
      (volume_names pod)))) in Hj. exact Hj.
Qed.

Lemma bursts_injected serverless i claim r l c pod out :
  injected i claim r l c pod out -> bursts serverless out = bursts serverless pod.
Proof.
  intros Hi. unfold bursts. rewrite (in_annotations _ _ _ _ _ _ _ Hi), (in_labels _ _ _ _ _ _ _ Hi).
  unfold sget. by rewrite lookup_insert_ne by done.
Qed.

(** A chain of injections, one per claim. *)
Inductive chain : nat -> list PVPair -> Pod -> list string -> list Container -> Pod -> Prop :=
| chain_nil i pod : chain i [] pod [] [] pod
| chain_cons i pair pairs pod s mp l c r side mid rs sides out :
    MountPath s = path_Join [PodMountBase; r] -> side_car s mp l c ->
    injected i (claim_name pair) r l c pod mid ->
    Containers (p_spec mid) = side :: Containers (p_spec pod) -> serves r side ->
    c_name side = dedup_container (Containers (p_spec pod)) i MountContainerName ->
    chain (S i) pairs mid rs sides out -> chain i (pair :: pairs) pod (r :: rs) (side :: sides) out.

Lemma Mutate_chain serverless pairs i pod t out :
  bursts serverless pod = false -> runs (Mutate_from serverless i pairs pod) t (Done (Ok out)) ->
  exists rs sides, chain i pairs pod rs sides out.
Proof.
  revert i pod t. induction pairs as [|pair pairs IH]; intros i pod t Hb Hr.
  { destruct Hr as [_ [= ->]]. exists [], []. constructor. }
  apply runs_bindR_ok in Hr as (t1 & t2 & mid & _ & Hm & Hr).
  destruct (mutate_injects _ _ _ _ _ _ Hb Hm) as (s & mp & l & c & r & Hp & Hs & Hi).
  rewrite <-(bursts_injected serverless _ _ _ _ _ _ _ Hi) in Hb.
  destruct (IH _ _ _ Hb Hr) as (rs & sides & Hc).
  destruct (injected_serves _ _ _ _ _ _ _ _ _ Hp Hs Hi) as (side & ? & ? & ?).
  exists (r :: rs), (side :: sides). by eapply chain_cons.
Qed.

(** ** Names *)

Definition is_sidecar_name (n : string) : bool := HasPrefix n MountContainerName.

(** Every mount names a volume of the pod. *)
Definition mounts_declared (pod : Pod) : Prop :=
  Forall (fun c => Forall (fun vm => vm_name vm ∈ volume_names pod) (c_volumeMounts c)) (Containers (p_spec pod)).

(** The pod after [i] side cars. *)
Record stage (i : nat) (pod : Pod) : Prop := {
  st_containers : exists sides apps, Containers (p_spec pod) = sides ++ apps /\
    map c_name sides = rev (map sidecar_name (seq 0 i)) /\
    Forall (fun c => is_sidecar_name (c_name c) = false) apps /\ NoDup (map c_name apps);
  st_volumes : NoDup (volume_names pod);
  st_names : Forall (fun n => is_sidecar_name n = false \/
    exists k x, (k < i)%nat /\ own x /\ n = sidecar_name k +:+ "-" +:+ x) (volume_names pod);
  st_mounts : mounts_declared pod;
}.

Lemma renamed_cases cn pv x :
  (renamed cn pv x = x /\ (shared_volume x = true \/ (x ∉ pv))) \/
  (renamed cn pv x = cn +:+ "-" +:+ x /\ shared_volume x = false /\ (x ∈ pv)).
Proof.
  unfold renamed. destruct (shared_volume x); [by left; auto|]. case_bool_decide; cbn; [right|left]; auto.
Qed.

(** The names of the volumes the pod gets are new and distinct. *)
Lemma renamed_fresh i pod x :
  stage i pod -> own x -> shared_volume x = false ->
  renamed (sidecar_name i) (volume_names pod) x ∉ volume_names pod.
Proof.
  intros Hs Hx Hsh. destruct (renamed_cases (sidecar_name i) (volume_names pod) x) as [[-> [?|?]]|(-> & _ & _)];
    [congruence|done|].
  intros Hin. pose proof (proj1 (Forall_forall _ _) (st_names _ _ Hs) _ Hin) as [Hf|(k & y & Hk & Hy & E)].
  - unfold is_sidecar_name in Hf. by rewrite sidecar_volume_prefix in Hf.
  - destruct (sidecar_volume_inj _ _ _ _ Hx Hy E). lia.
Qed.

Lemma renamed_inj i pv x y :
  own x -> own y -> renamed (sidecar_name i) pv x = renamed (sidecar_name i) pv y -> x = y.
Proof.
  intros Hx Hy. destruct (renamed_cases (sidecar_name i) pv x) as [[-> _]|[-> _]],
    (renamed_cases (sidecar_name i) pv y) as [[-> _]|[-> _]]; intros E.
  - done.
  - pose proof (own_no_mount x Hx) as Hp. by rewrite E, sidecar_volume_prefix in Hp.
  - pose proof (own_no_mount y Hy) as Hp. by rewrite <-E, sidecar_volume_prefix in Hp.
  - by destruct (sidecar_volume_inj _ _ _ _ Hx Hy E).
Qed.

Lemma shared_renamed cn pv x : shared_volume x = true -> renamed cn pv x = x.
Proof. intros Hx. unfold renamed. by rewrite Hx. Qed.
Lemma renamed_shared i pv x : own x -> shared_volume (renamed (sidecar_name i) pv x) = shared_volume x.
Proof.
  intros Hx. destruct (renamed_cases (sidecar_name i) pv x) as [[-> _]|(-> & -> & _)]; [done|].
  assert (forall n, is_sidecar_name n = true -> shared_volume n = false) as Hsh.
  { intros n Hn. unfold shared_volume. rewrite !bool_decide_false; [done|intros ->|intros ->]; vm_compute in Hn; done. }
  apply Hsh, sidecar_volume_prefix.
Qed.

Lemma in_next_name i claim r s mp l c pod out :
  stage i pod -> side_car s mp l c -> injected i claim r l c pod out ->
  dedup_container (Containers (p_spec pod)) i MountContainerName = sidecar_name i.
Proof. intros [(sides & apps & -> & Hn & Ha & _) _ _ _] _ _. by apply dedup_container_next. Qed.

Lemma map_names_rename (f : string -> string) (l : list (Volume * VolumeMount)) :
  map v_name (map (rename_volume f) l.*1) = map f (names l).
Proof. induction l as [|e l IH]; [done|]. cbn. by rewrite IH. Qed.
Lemma map_names_expose claim r vs : map v_name (map (expose claim r) vs) = map v_name vs.
Proof. rewrite map_map. apply map_ext. intros v. unfold expose. by case_bool_decide. Qed.

Lemma injected_names i claim r s mp l c pod out :
  stage i pod -> side_car s mp l c -> injected i claim r l c pod out ->
  volume_names out = volume_names pod ++
    List.filter (fun n => negb (shared_volume n && bool_decide (n ∈ volume_names pod)))
      (map (renamed (sidecar_name i) (volume_names pod)) (names l)).
Proof.
  intros Hs Hc Hi. unfold volume_names at 1. rewrite (in_volumes _ _ _ _ _ _ _ Hi). cbn zeta.
  rewrite (in_next_name _ _ _ _ _ _ _ _ _ Hs Hc Hi), map_app, map_names_expose. f_equal.
  rewrite <-map_names_rename. unfold kept. induction (map (rename_volume _) l.*1) as [|v vs IH]; [done|]. cbn.
  destruct (negb _); cbn; by rewrite IH.
Qed.

Lemma kept_fresh i pod x l :
  stage i pod -> Forall own (names l) ->
  x ∈ List.filter (fun n => negb (shared_volume n && bool_decide (n ∈ volume_names pod)))
        (map (renamed (sidecar_name i) (volume_names pod)) (names l)) ->
  (x ∉ volume_names pod) /\
  (is_sidecar_name x = false \/ exists k y, (k < S i)%nat /\ own y /\ x = sidecar_name k +:+ "-" +:+ y).
Proof.
  intros Hs Ho Hx. apply list_elem_of_In, filter_In in Hx as [Hx Hk].
  apply in_map_iff in Hx as (y & <- & Hy%list_elem_of_In). pose proof (proj1 (Forall_forall _ _) Ho _ Hy) as Hown.
  rewrite renamed_shared in Hk by done. split.
  - destruct (shared_volume y) eqn:E; [|by apply renamed_fresh].
    cbn in Hk. by apply negb_true_iff, bool_decide_eq_false in Hk.
  - destruct (renamed_cases (sidecar_name i) (volume_names pod) y) as [[-> _]|(-> & _ & _)].
    + left. by apply own_no_mount.
    + right. exists i, y. split_and!; [lia|done|done].
Qed.

Lemma stage_injected i claim r s mp l c pod out :
  stage i pod -> side_car s mp l c -> injected i claim r l c pod out -> stage (S i) out.
Proof.
  intros Hs Hc Hi. pose proof (injected_names _ _ _ _ _ _ _ _ _ Hs Hc Hi) as Hn.
  pose proof (in_containers _ _ _ _ _ _ _ Hi) as Hcs. cbn zeta in Hcs.
  rewrite (in_next_name _ _ _ _ _ _ _ _ _ Hs Hc Hi) in Hcs.
  pose proof (kept_fresh i pod) as Hk. pose proof (sc_own _ _ _ _ Hc) as Ho. split.
  - destruct (st_containers _ _ Hs) as (sides & apps & Ha & Hsd & Happ). eexists (_ :: sides), apps.
    rewrite Hcs, Ha. split; [reflexivity|]. split; [|done]. rewrite seq_S, map_app, rev_app_distr, <-Hsd. done.
  - rewrite Hn. apply NoDup_app. split_and!; [apply (st_volumes _ _ Hs)| |].
    + intros x Hx Hx'. by apply (Hk x l Hs Ho) in Hx' as [Hx' _].
    + apply NoDup_ListNoDup, List.NoDup_filter, NoDup_ListNoDup.
      pose proof (sc_nodup _ _ _ _ Hc) as Hnd. clear -Ho Hnd. apply NoDup_fmap_2_strong; [|done].
      intros x y Hx Hy E. rewrite Forall_forall in Ho. eapply renamed_inj; [by apply Ho|by apply Ho|exact E].
  - rewrite Hn. apply Forall_app_2.
    + eapply Forall_impl; [apply (st_names _ _ Hs)|]. intros n [?|(k & x & ? & ? & ->)]; [by left|].
      right. exists k, x. split_and!; [lia|done|done].
    + apply Forall_forall. intros x Hx. by apply (Hk x l Hs Ho) in Hx as [_ Hx].
  - unfold mounts_declared. rewrite Hcs, Hn. constructor.
    + cbn. apply Forall_forall. intros vm (m & -> & Hm)%list_elem_of_fmap. cbn.
      assert (vm_name m ∈ names l) as Hin.
      { rewrite <-(paired_names l) by apply (sc_paired _ _ _ _ Hc). by apply list_elem_of_fmap_2. }
      set (x := renamed _ _ (vm_name m)). apply elem_of_app.
      destruct (shared_volume x && bool_decide (x ∈ volume_names pod)) eqn:E.
      * left. apply andb_true_iff in E as [_ E%bool_decide_eq_true]. done.
      * right. apply list_elem_of_In, filter_In. rewrite E. split; [|done]. apply list_elem_of_In.
        by apply list_elem_of_fmap_2.
    + eapply Forall_impl; [apply (st_mounts _ _ Hs)|]. intros c' Hc'. eapply Forall_impl; [apply Hc'|].
      intros vm Hvm. apply elem_of_app. by left.
Qed.

Lemma stage_chain i pairs pod rs sides out :
  chain i pairs pod rs sides out -> stage i pod -> stage (i + length pairs) out.
Proof.
  induction 1 as [|i pair pairs pod s mp l c r side mid rs sides out _ Hc Hi _ _ _ _ IH]; intros Hs.
  - by rewrite Nat.add_0_r.
  - cbn [length]. rewrite Nat.add_succ_r. apply IH. by eapply stage_injected.
Qed.

Lemma sidecar_name_inj i j : sidecar_name i = sidecar_name j -> i = j.
Proof.
  destruct i as [|i], j as [|j]; try (cbn; discriminate); [done|]. unfold sidecar_name.
  intros E%str_app_inv_head. injection E as E. by apply pretty_nat_inj in E.
Qed.

Lemma stage_container_names i pod : stage i pod -> NoDup (map c_name (Containers (p_spec pod))).
Proof.
  intros Hs. destruct (st_containers _ _ Hs) as (sides & apps & -> & Hn & Ha & Hd).
  rewrite map_app, Hn. apply NoDup_app. split_and!; [| |done].
  - apply NoDup_ListNoDup, List.NoDup_rev, NoDup_ListNoDup. apply NoDup_fmap_2_strong; [|apply NoDup_ListNoDup, seq_NoDup].
    intros x y _ _. apply sidecar_name_inj.
  - intros x Hx Hx'. apply list_elem_of_In, in_rev, in_map_iff in Hx as (k & <- & _).
    apply list_elem_of_fmap in Hx' as (c & E & Hc). rewrite Forall_forall in Ha. specialize (Ha c Hc).
    unfold is_sidecar_name in Ha. rewrite <-E in Ha. by rewrite sidecar_name_prefix in Ha.
Qed.

(** A pod as an app declares it: distinct names that are not those of side
    cars, mounts of its own volumes. *)
Record app_pod (pod : Pod) : Prop := {
  ap_containers : NoDup (map c_name (Containers (p_spec pod)));
  ap_container_names : Forall (fun c => is_sidecar_name (c_name c) = false) (Containers (p_spec pod));
  ap_volumes : NoDup (volume_names pod);
  ap_volume_names : Forall (fun n => is_sidecar_name n = false) (volume_names pod);
  ap_mounts : mounts_declared pod;
}.

Lemma app_pod_stage pod : app_pod pod -> stage 0 pod.
Proof.
  intros [H1' H2' H3' H4' H5']. split; [|done| |done].
  - by exists [], (Containers (p_spec pod)).
  - eapply Forall_impl; [done|]. by left.
Qed.

(** C14: the side cars of a pod do not clash.  When the containers and the
    volumes of the pod have distinct names that do not start with [jfs-mount],
    its containers mount volumes of the pod, and it asks for none of the builders
    for serverless nodes (VCI, CCI: [bursts]), then in the pod that [Mutate]
    returns, whatever the volumes, the settings and the answers of the
    environment: container names are distinct, volume names are
    distinct, and every mount of an app container or side car names a volume
    of the pod. *)
Theorem Mutate_well_formed serverless pairs pod t out :
  app_pod pod -> bursts serverless pod = false ->
  runs (Mutate serverless pairs pod) t (Done (Ok out)) ->
  NoDup (map c_name (Containers (p_spec out))) /\ NoDup (volume_names out) /\ mounts_declared out.
Proof.
  intros Ha Hb Hr. destruct (Mutate_chain _ _ _ _ _ _ Hb Hr) as (rs & sides & Hc).
  pose proof (stage_chain _ _ _ _ _ _ Hc (app_pod_stage _ Ha)) as Hs.
  split_and!; [by eapply stage_container_names|apply (st_volumes _ _ Hs)|apply (st_mounts _ _ Hs)].
Qed.

(** ** What the app sees *)

(** The volumes of the claims, by the directory chosen for each: the first one
    for a claim. *)
Definition exposed (crs : list (string * string)) (v : Volume) : Volume :=
  match List.find (fun cr => bool_decide (v_pvc v = Some cr.1)) crs with
  | Some (_, r) => with_source (host_mount r) v
  | None => v
  end.

Lemma exposed_cons claim r crs v : exposed crs (expose claim r v) = exposed ((claim, r) :: crs) v.
Proof.
  unfold exposed at 2. cbn [List.find fst]. unfold expose. case_bool_decide; [|done].
  unfold exposed. cbn. by induction crs.
Qed.

Lemma chain_volumes i pairs pod rs sides out :
  chain i pairs pod rs sides out ->
  exists extra, Volumes (p_spec out) = map (exposed (zip (map claim_name pairs) rs)) (Volumes (p_spec pod)) ++ extra.
Proof.
  induction 1 as [i pod|i pair pairs pod s mp l c r side mid rs sides out _ Hc Hi _ _ _ _ [extra IH]].
  - exists []. rewrite app_nil_r. symmetry. apply List.map_id.
  - rewrite IH, (in_volumes _ _ _ _ _ _ _ Hi). cbn zeta. rewrite map_app, map_map, <-app_assoc. eexists. f_equal.
    apply map_ext. intros v. apply exposed_cons.
Qed.

Lemma chain_containers i pairs pod rs sides out :
  chain i pairs pod rs sides out ->
  length rs = length pairs /\ Forall2 serves rs sides /\
  Containers (p_spec out) = rev sides ++ Containers (p_spec pod).
Proof.
  induction 1 as [i pod|i pair pairs pod s mp l c r side mid rs sides out _ _ _ Hcs Hsv _ _ (H1' & H2' & H3')];
    [by split_and!|]. split_and!; [cbn; congruence|by constructor|].
  rewrite H3', Hcs. cbn. by rewrite <-app_assoc.
Qed.

Lemma chain_labels i pairs pod rs sides out :
  chain i pairs pod rs sides out -> pairs <> [] -> pod_labels out = <[ InjectSidecarDone := True_ ]> (pod_labels pod).
Proof.
  induction 1 as [i pod|i pair pairs pod s mp l c r side mid rs sides out _ _ Hi _ _ _ Hc IH]; [done|]. intros _.
  destruct pairs as [|pair' pairs].
  - inversion Hc; subst. apply (in_labels _ _ _ _ _ _ _ Hi).
  - rewrite IH by done. rewrite (in_labels _ _ _ _ _ _ _ Hi). apply insert_insert_eq.
Qed.

(** The directory of the mount points is a volume of the pod. *)
Definition has_jfs_dir (pod : Pod) : Prop :=
  exists v, v ∈ Volumes (p_spec pod) /\ v_name v = JfsDirName /\ v_hostPath v = Some g_MountPointPath.

Lemma expose_jfs_dir claim r v : v_hostPath v = Some g_MountPointPath -> expose claim r v = v.
Proof. unfold expose, v_hostPath, v_pvc. by destruct (v_source v). Qed.

Lemma injected_jfs_dir i claim r s mp l c pod out :
  side_car s mp l c -> injected i claim r l c pod out ->
  (JfsDirName ∈ volume_names pod -> has_jfs_dir pod) -> has_jfs_dir out.
Proof.
  intros Hc Hi Hp. unfold has_jfs_dir. rewrite (in_volumes _ _ _ _ _ _ _ Hi). cbn zeta.
  destruct (decide (JfsDirName ∈ volume_names pod)) as [Hin|Hno].
  - destruct (Hp Hin) as (v & Hv & Hn & Hh). exists v. split; [|done]. apply elem_of_app. left.
    apply list_elem_of_fmap. exists v. by rewrite expose_jfs_dir.
  - exists jfs_dir.1. split; [|done]. apply elem_of_app. right. apply list_elem_of_In, filter_In. split.
    + apply in_map_iff. exists jfs_dir.1. split; [|apply list_elem_of_In].
      * unfold rename_volume. by rewrite shared_renamed.
      * apply (list_elem_of_fmap_2 fst), (sc_jfs _ _ _ _ Hc).
    + unfold kept. by rewrite (bool_decide_false (v_name _ ∈ _)).
Qed.

Lemma chain_jfs_dir i pairs pod rs sides out :
  chain i pairs pod rs sides out -> (pairs <> [] -> JfsDirName ∈ volume_names pod -> has_jfs_dir pod) ->
  pairs <> [] -> has_jfs_dir out.
Proof.
  induction 1 as [i pod|i pair pairs pod s mp l c r side mid rs sides out _ Hc Hi _ _ _ Hch IH]; [done|].
  intros Hp _. pose proof (injected_jfs_dir _ _ _ _ _ _ _ _ _ Hc Hi (Hp ltac:(done))) as Hmid.
  destruct pairs as [|pair' pairs]; [by inversion Hch; subst|]. by apply IH.
Qed.

(** *** Pods of every kind *)

(** A container without the propagation of its mounts. *)
Definition plain (c : Container) : Container := with_volumeMounts (map (with_propagation "") (c_volumeMounts c)) c.

Lemma builder_plain serverless pod pair s cap vm :
  with_propagation "" (OverwriteVolumeMounts (sidecar_builder serverless pod pair s cap) vm) = with_propagation "" vm.
Proof. unfold sidecar_builder. by repeat case_match. Qed.

Lemma overwrite_plain build vols cns :
  (forall vm, with_propagation "" (OverwriteVolumeMounts build vm) = with_propagation "" vm) ->
  map plain (foldl (overwrite_mounts build) cns vols) = map plain cns.
Proof.
  intros Hb. revert cns. induction vols as [|v vols IH]; intros cns; [done|]. cbn [foldl]. rewrite IH. unfold overwrite_mounts.
  rewrite map_map. apply map_ext. intros c. unfold plain. cbn. rewrite map_map.
  match goal with |- with_volumeMounts ?l _ = _ => assert (l = map (with_propagation "") (c_volumeMounts c)) as -> end; [|done].
  apply map_ext. intros vm. by destruct (bool_decide _).
Qed.

Lemma mutate_plain serverless pod pair i t out :
  runs (mutate serverless pod pair i) t (Done (Ok out)) ->
  pod_labels out = <[ InjectSidecarDone := True_ ]> (pod_labels pod) /\
  exists c apps, Containers (p_spec out) = c :: apps /\ map plain apps = map plain (Containers (p_spec pod)).
Proof.
  intros Hr. unfold mutate in Hr.
  apply runs_bindR_ok in Hr as (_ & t1 & [[secrets volCtx] options] & _ & _ & Hr).
  apply runs_bind_done in Hr as (_ & t2 & csi & _ & _ & Hr).
  apply runs_bind_done in Hr as (_ & t3 & [[sec ctx] [s|e]] & _ & _ & Hr); [|by destruct Hr as [_ ?]].
  apply runs_bind_done in Hr as (_ & t4 & r & _ & _ & Hr).
  destruct (Attr s) as [a|]; [|by destruct Hr as [_ ?]].
  destruct (_ <=? 0); [by destruct Hr as [_ ?]|].
  apply runs_thenR_ok in Hr as (_ & t5 & _ & _ & Hr).
  apply runs_bind_done in Hr as (t6 & t7 & mp & _ & _ & Hr). unfold inject in Hr.
  destruct (Containers (p_spec (Deduplicate pod mp.1 i))) as [|c cs]; [by destruct Hr|]. destruct Hr as [_ [= ->]].
  split; [done|]. eexists c, _. split; [done|]. apply overwrite_plain. intros vm. apply builder_plain.
Qed.

Lemma Mutate_plain serverless pairs i pod t out :
  runs (Mutate_from serverless i pairs pod) t (Done (Ok out)) ->
  (pairs <> [] -> pod_labels out = <[ InjectSidecarDone := True_ ]> (pod_labels pod)) /\
  exists sides apps, Containers (p_spec out) = sides ++ apps /\ length sides = length pairs /\
    map plain apps = map plain (Containers (p_spec pod)).
Proof.
  revert i pod t. induction pairs as [|pair pairs IH]; intros i pod t Hr.
  { destruct Hr as [_ [= ->]]. split; [done|]. by exists [], (Containers (p_spec pod)). }
  apply runs_bindR_ok in Hr as (t1 & t2 & mid & _ & Hm & Hr). apply mutate_plain in Hm as (Hl & c & apps & Hc & Ha).
  pose proof (IH _ _ _ Hr) as (Hl' & sides & apps' & Hc' & Hlen & Ha'). split.
  - intros _. destruct pairs as [|pair' pairs]; [by destruct Hr as [_ [= ->]]|]. rewrite Hl', Hl by done. apply insert_insert_eq.
  - rewrite Hc in Ha'. cbn [map] in Ha'. destruct apps' as [|c' apps']; [done|]. injection Ha' as _ Ha'.
    exists (sides ++ [c']), apps'. rewrite Hc', <-app_assoc, length_app, Hlen. split_and!; [done|cbn; lia|congruence].
Qed.

(** C13: the app reads and writes the file systems of its claims.  When
    [Mutate] returns a pod for at least one claim, one side car per claim stands
    in front of the containers of the app, of which at most the propagation of
    mounts changed, and the webhook lets the pod pass when it sees it again,
    whatever builder the pod asks for.  If it asks for none of those for
    serverless nodes (VCI, CCI: [bursts]), [Mutate] has chosen a directory [r]
    for each claim; the containers of the app are unchanged; the side cars, the
    last one first, run a client that mounts at [r] below the mount points and
    have the host's directory of mount points mounted there with bidirectional
    propagation; each volume of the app that was a claim is now the host's
    directory [r] of the mount points, the others are unchanged, and the side
    cars' volumes follow.  The directory of the mount points is a volume of the
    pod (if the app did not use its name for something else). *)
Theorem Mutate_shares serverless pairs pod t out :
  pairs <> [] -> runs (Mutate serverless pairs pod) t (Done (Ok out)) ->
  (exists sides apps, Containers (p_spec out) = sides ++ apps /\ length sides = length pairs /\
     map plain apps = map plain (Containers (p_spec pod))) /\
  SidecarHandler_Handle serverless (Ok out) = Ret (Allowed "skip mutating the pod because injection is done") /\
  (bursts serverless pod = false ->
   exists rs sides extra,
    length rs = length pairs /\ Forall2 serves rs sides /\
    Containers (p_spec out) = rev sides ++ Containers (p_spec pod) /\
    Volumes (p_spec out) = map (exposed (zip (map claim_name pairs) rs)) (Volumes (p_spec pod)) ++ extra /\
    ((JfsDirName ∈ volume_names pod -> has_jfs_dir pod) -> has_jfs_dir out)).
Proof.
  intros Hne Hr. destruct (Mutate_plain _ _ _ _ _ _ Hr) as [Hl Hplain]. split; [done|]. split.
  { unfold SidecarHandler_Handle, CheckExpectValue. rewrite Hl by done. by rewrite lookup_insert_eq. }
  intros Hb. destruct (Mutate_chain _ _ _ _ _ _ Hb Hr) as (rs & sides & Hc).
  destruct (chain_containers _ _ _ _ _ _ Hc) as (H1' & H2' & H3').
  destruct (chain_volumes _ _ _ _ _ _ Hc) as [extra Hv]. exists rs, sides, extra. split_and!; [done..|].
  intros Hj. by eapply chain_jfs_dir.
Qed.
End webhook.
