(* ===== verification/StartupFacts.v ===== *)
(** * Properties of start-up

    The settings a process starts with are consistent, whatever its flags, its
    environment and the answers of the API server; one manager handles the
    mount pods of a node; the reloader keeps the last valid configuration. *)
From S2P Require Import Prelude.
From S2P Require Import GoStrings.
From S2P Require Import K8s.
From S2P Require Import GoTime.
From S2P Require Import Prog.
From S2P Require Import Effects.
From S2P Require Import Config.
From S2P Require Import Util.
From S2P Require Import Startup.
#[local] Open Scope Z_scope.
#[local] Open Scope go_scope.

(** What the components assume of the package variables. *)
Definition consistent (s : Variables) : Prop :=
  (ReconcileTimeout initial <= ReconcileTimeout s /\ SecretReconcilerInterval initial <= SecretReconcilerInterval s) /\
  5 <= ReconcilerInterval s /\
  (ByProcess s = true -> FormatInPod s = false /\ Provisioner s = false /\ Webhook s = false /\ MountManager s = false) /\
  (Webhook s = true -> FormatInPod s = true /\ MountManager s = false).

Lemma env_at_least_bound env k least : least <= env_at_least env k least.
Proof. unfold env_at_least. case_bool_decide; [lia|]. case_match; lia. Qed.

(** The kubelet answered with the pods of the node. *)
Definition kubelet_answers (t : jtrace) : Prop := exists pods, ev (S := jfs) GetNodeRunningPods (Ok pods) ∈ t.

Section node.
Context (waits : list Z) (env : smap) (f : Flags).
Implicit Types (t : jtrace).

Lemma StartReconciler_polls s t :
  runs (StartReconciler s) t (Done None) -> kubelet_answers t.
Proof.
  unfold StartReconciler. destruct (Atoi (KubeletPort s)) as [port|]; [|by intros [_ ?]].
  intros (a & t1 & -> & Hr). destruct a as [e|]; [by destruct Hr|].
  destruct Hr as (r & t2 & -> & Hr). destruct r as [pods|e]; [|by destruct Hr].
  exists pods. set_solver.
Qed.

Lemma attempts_polls s ws t :
  runs (attempts ws (StartReconciler s)) t (Done None) -> kubelet_answers t.
Proof.
  revert t. induction ws as [|d ws IH]; intros t; cbn [attempts]; [apply StartReconciler_polls|].
  intros [(t1 & t2 & e & -> & H1 & H2)|(? & _ & [=])]%runs_bind.
  destruct e as [e|].
  - destruct H2 as (a & t3 & -> & H2). destruct (IH _ H2) as [pods Hp]. exists pods. set_solver.
  - apply StartReconciler_polls in H1 as [pods Hp]. exists pods. set_solver.
Qed.

(** The managers of a node: none, or one for the mount pods. *)
Lemma node_managers_one s t l :
  runs (node_managers waits f s) t (Done l) ->
  if process f || negb (podManager f) then l = []
  else l = [WatchPods] \/ l = [PollKubelet] /\ KubeletPort s <> "" /\ HostIp s <> "" /\ kubelet_answers t.
Proof.
  unfold node_managers. destruct (process f || _); [by intros [_ [= ->]]|].
  case_bool_decide as Hk; [intros [_ [= ->]]; by left|].
  case_bool_decide as Hh; [intros [_ [= ->]]; by left|].
  intros [(t1 & t2 & [e|] & -> & H1 & [-> [= ->]])|(? & _ & [=])]%runs_bind; [by left|right].
  rewrite app_nil_r. split_and!; [done..|]. by eapply attempts_polls.
Qed.

Lemma parseNodeConfig_consistent t s :
  runs (parseNodeConfig env f) t (Done (Started s)) ->
  consistent s /\ ByProcess s = process f /\ MountManager s = false /\ Webhook s = false /\
  (ByProcess s = false -> PodName s <> "" /\ st_Namespace s <> "" /\
     ev (S := jfs) (GetPod Background (PodName s) (st_Namespace s)) (Ok (CSIPod s)) ∈ t).
Proof.
  unfold parseNodeConfig. destruct (process f).
  - intros [_ [= ->]]. split; [|done]. repeat split; cbn; try done; lia.
  - case_bool_decide as Hn; [by intros [_ ?]|]. case_bool_decide as Hs; [by intros [_ ?]|].
    cbn [orb]. intros (a & t1 & -> & Hr). destruct a as [e|]; [by destruct Hr|].
    destruct Hr as (r & t2 & -> & Hr). destruct r as [pod|e]; [|by destruct Hr].
    destruct Hr as [-> [= ->]]. split_and!; try done.
    + repeat split; cbn [ReconcileTimeout SecretReconcilerInterval ReconcilerInterval ByProcess Webhook]; try done.
      all: first [apply env_at_least_bound|lia].
    + intros _. cbn [PodName st_Namespace CSIPod]. split_and!; [done..|]. set_solver.
Qed.

Lemma parseControllerConfig_consistent t s :
  runs (parseControllerConfig env f) t (Done (Started s)) ->
  consistent s /\ ByProcess s = process f /\ MountManager s = negb (process f || webhook f) /\
  Webhook s = negb (process f) && webhook f /\
  (MountManager s = true -> exists ds, ev (S := jfs) (GetDaemonSet ds (st_Namespace s)) (Ok (p_spec (CSIPod s))) ∈ t).
Proof.
  unfold parseControllerConfig. destruct (process f).
  - intros [_ [= ->]]. split; [|done]. repeat split; cbn; try done; lia.
  - destruct (webhook f).
    + intros [_ [= ->]]. split; [|done]. repeat split; cbn; try done; try lia; by rewrite orb_true_r.
    + intros (a & t1 & -> & Hr). destruct a as [e|]; [by destruct Hr|].
      destruct Hr as (r & t2 & -> & Hr). destruct r as [spec|e]; [|by destruct Hr].
      destruct Hr as [-> [= ->]]. split_and!; try done.
      intros _. cbn. eexists. apply elem_of_cons; right; apply list_elem_of_here.
Qed.

(** C39: A process starts only with consistent settings.  A node process has its
    mode from the flag, never the controller's managers, and outside the
    process mode its own pod as just read from the API server; it runs a
    manager of mount pods exactly when asked to and then one, polling only if
    the kubelet answered.  A controller process outside the process mode
    inherits the daemon set's pod or injects side cars, with exactly the
    manager of its mode. *)
Theorem starts_consistent t s l :
  (runs (nodeRun waits env f) t (Done (Started s, l)) ->
     consistent s /\ nodeID f <> "" /\ ByProcess s = process f /\ MountManager s = false /\ Webhook s = false /\
     (ByProcess s = false -> PodName s <> "" /\ st_Namespace s <> "" /\
        ev (S := jfs) (GetPod Background (PodName s) (st_Namespace s)) (Ok (CSIPod s)) ∈ t) /\
     (if process f || negb (podManager f) then l = []
      else l = [WatchPods] \/ l = [PollKubelet] /\ KubeletPort s <> "" /\ HostIp s <> "" /\ kubelet_answers t)) /\
  (runs (controllerRun env f) t (Done (Started s, l)) ->
     consistent s /\ nodeID f <> "" /\ ByProcess s = process f /\
     l = (if process f then [] else if webhook f then [SidecarWebhook] else [MountControllers]) /\
     (l = [MountControllers] -> exists ds, ev (S := jfs) (GetDaemonSet ds (st_Namespace s)) (Ok (p_spec (CSIPod s))) ∈ t)).
Proof.
  split.
  - intros [(t1 & t2 & r & -> & H1 & H2)|(? & _ & [=])]%runs_bind.
    destruct r as [s'|?]; [|by destruct H2]. case_bool_decide as Hid; [by destruct H2|].
    apply runs_bind in H2 as [(t3 & t4 & l' & -> & H2 & [-> [= -> ->]])|(? & _ & [=])].
    apply parseNodeConfig_consistent in H1 as (Hc & Hb & Hm & Hw & Hp).
    apply node_managers_one in H2. split_and!; [done..| |].
    + intros Hf. destruct (Hp Hf) as (? & ? & ?). split_and!; [done..|]. set_solver.
    + destruct (process f || _); [done|]. destruct H2 as [?|(? & ? & ? & pods & Hin)]; [by left|right].
      split_and!; [done..|]. exists pods. set_solver.
  - intros [(t1 & t2 & r & -> & H1 & H2)|(? & _ & [=])]%runs_bind.
    destruct r as [s'|?]; [|by destruct H2]. case_bool_decide as Hid; [by destruct H2|].
    destruct H2 as [-> [= -> ->]]. rewrite app_nil_r.
    apply parseControllerConfig_consistent in H1 as (Hc & Hb & Hm & Hw & Hd).
    split_and!; [done..| |].
    + unfold controller_managers. rewrite Hm, Hw. by destruct (process f), (webhook f).
    + unfold controller_managers. intros Hl. apply Hd. by destruct (MountManager s'), (Webhook s').
Qed.
End node.

(** The tag of an image is taken to follow the first colon: the image of a
    registry with a port is used for both editions. *)
Example registry_port :
  ce_image {[ "JUICEFS_MOUNT_IMAGE" := "registry:5000/mount:ee-5.0" ]} "juicedata/mount:ce-nightly" =
  "registry:5000/mount:ee-5.0".
Proof. reflexivity. Qed.

(** ** The configuration file *)

Section reloading.
Context `{ConfigCodec} (env : smap) (configPath : string).

(** The configuration after a read of the file. *)
Definition loaded (g : Configuration) (e : event jfs) : Configuration :=
  match e with
  | existT c a =>
      match c return jfs_answer c -> Configuration with
      | ReadFile _ => fun r => match r with
                               | Ok data => match configured env data with Ok cfg => cfg | Err _ => g end
                               | Err _ => g
                               end
      | _ => fun _ => g
      end a
  end.

Lemma LoadConfig_loads g t g' e :
  runs (LoadConfig env configPath g) t (Done (g', e)) ->
  exists r, t = [ev (S := jfs) (ReadFile configPath) r] /\ g' = foldl loaded g t /\
            (e = None -> exists data, r = Ok data /\ configured env data = Ok g').
Proof.
  intros (r & t1 & -> & Hr). exists r. cbn. destruct r as [data|e'].
  - destruct Hr as [-> [= Hg]]. cbn. destruct (configured env data) eqn:Hc; injection Hg as -> ->; split_and!; try done.
    intros _. by exists data.
  - by destruct Hr as [-> [= -> ->]].
Qed.

(** A program that only reads the file moves the configuration by what it read. *)
Lemma reloads_load events g t g' :
  runs (fold_prog events (reload env configPath) g) t (Done g') ->
  g' = foldl loaded g t /\ length t = length (List.filter reloads events).
Proof.
  revert g t. induction events as [|x events IH]; intros g t; cbn [fold_prog List.filter].
  - by intros [-> [= ->]].
  - intros [(t1 & t2 & g1 & -> & H1 & H2)|(? & _ & [=])]%runs_bind. destruct (IH _ _ H2) as [-> Hlen].
    unfold reload in H1. destruct (reloads x).
    + apply runs_bind in H1 as [(t3 & t4 & [g2 e] & -> & H1 & [-> [= ->]])|(? & _ & [=])].
      destruct (LoadConfig_loads _ _ _ _ H1) as (r & -> & Hg & _). cbn [fst app length] in *.
      split; [by rewrite Hg|by rewrite <-Hlen].
    + by destruct H1 as [-> [= ->]].
Qed.

Lemma loaded_valid t g :
  (exists data, configured env data = Ok g) -> exists data, configured env data = Ok (foldl loaded g t).
Proof.
  revert g. induction t as [|[c a] t IH]; intros g Hg; [done|]. cbn [foldl]. apply IH.
  destruct c; try done. cbn. destruct a as [data|?]; [|done]. case_match eqn:E; [|done]. by exists data.
Qed.

(** The reloader runs with the configuration of the last text of the file that
    was read and parsed, which exists; it reads the file once at the start and
    once for every write, removal and tick. *)
Theorem reloader_keeps_valid watched events g t g' :
  runs (StartConfigReloader env configPath watched events g) t (Done (g', None)) ->
  g' = foldl loaded g t /\ (exists data, configured env data = Ok g') /\
  length t = S (length (List.filter reloads events)).
Proof.
  intros [(t1 & t2 & [g1 e] & -> & H1 & H2)|(? & _ & [=])]%runs_bind.
  destruct e as [e|]; [by destruct H2|]. destruct watched; [by destruct H2|].
  apply runs_bind in H2 as [(t3 & t4 & g2 & -> & H2 & [-> [= ->]])|(? & _ & [=])].
  destruct (LoadConfig_loads _ _ _ _ H1) as (r & Ht & Hg & Hv). destruct (reloads_load _ _ _ _ H2) as [-> Hlen].
  rewrite app_nil_r, foldl_app, <-Hg. split_and!; [done| |].
  - apply loaded_valid. destruct (Hv eq_refl) as (data & _ & Hc). by exists data.
  - rewrite length_app, Hlen, Ht. done.
Qed.
End reloading.
