(* ===== verification/ManagersFacts.v ===== *)
(** * Properties of the managers

    A manager is started exactly after everything it serves was registered, or
    the first failed call ends its goroutine; and the caches of the managers
    hold what the driver creates for them. *)
From S2P Require Import Prelude.
From S2P Require Import GoStrings.
From S2P Require Import K8s.
From S2P Require Import GoTime.
From S2P Require Import Prog.
From S2P Require Import Effects.
From S2P Require Import Config.
From S2P Require Import Util.
From S2P Require Import PodUtil.
From S2P Require Import Setting.
From S2P Require Import JfsSetting.
From S2P Require Import Builder.
From S2P Require Import PodMount.
From S2P Require Import Sidecar.
From S2P Require Import Webhook.
From S2P Require Import Startup.
From S2P Require Import Managers.
From S2P Require Import PodMountFacts.
From S2P Require Import WebhookFacts.
From S2P Require Import StartupFacts.
#[local] Open Scope Z_scope.
#[local] Open Scope go_scope.
#[local] Opaque GetReferenceKey GenHashOfSetting.

(** ** Commands that all succeed, or end at the first failure *)

Definition succeeds (c : mgr_cmd) : event mgrs :=
  existT c (match c return mgr_answer c with SetupSignalHandler | RegisterHandler _ _ => tt | _ => None end).
Definition fails_with (x : event mgrs) (e : error) : Prop :=
  match x with
  | existT c a =>
      match c return mgr_answer c -> Prop with
      | SetupSignalHandler | RegisterHandler _ _ => fun _ => False
      | _ => fun a => a = Some e
      end a
  end.
(** The commands up to [c] were issued, and only [c] failed. *)
Definition stopped_at (cmds : list mgr_cmd) (c : mgr_cmd) (e : error) (t : trace mgrs) : Prop :=
  exists before after x, cmds = before ++ c :: after /\ t = map succeeds before ++ [x] /\ projT1 x = c /\ fails_with x e.
(** The program issues the commands in order until one fails. *)
Definition performs (p : R (option error)) (cmds : list mgr_cmd) : Prop :=
  forall t o, runs p t o ->
    (t = map succeeds cmds /\ o = Done None) \/ exists c e, stopped_at cmds c e t /\ o = Done (Some e).

Lemma stopped_at_before cmds c e t rest : stopped_at cmds c e t -> stopped_at (cmds ++ rest) c e t.
Proof.
  intros (before & after & x & -> & -> & Hx). exists before, (after ++ rest), x. by rewrite <-app_assoc.
Qed.
Lemma stopped_at_after cmds c e t before :
  stopped_at cmds c e t -> stopped_at (before ++ cmds) c e (map succeeds before ++ t).
Proof.
  intros (b & after & x & -> & -> & Hx). exists (before ++ b), after, x. by rewrite map_app, <- !app_assoc.
Qed.

Lemma performs_none : performs (Ret None) [].
Proof. intros t o [-> ->]. by left. Qed.
Lemma performs_then p q l1 l2 : performs p l1 -> performs q l2 -> performs (and_then p q) (l1 ++ l2).
Proof.
  intros Hp Hq t o [(t1 & t2 & e & -> & [(-> & [= ->])|(c & er & Hs & [= ->])]%Hp & H2)|(s & [[_ [=]]|(c & e & _ & [=])]%Hp & _)]%runs_bind.
  - apply Hq in H2 as [[-> ->]|(c & e & Hs & ->)]; [left; by rewrite map_app|right].
    exists c, e. split; [|done]. by apply stopped_at_after.
  - destruct H2 as [-> ->]. right. exists c, er. rewrite app_nil_r. split; [|done]. by apply stopped_at_before.
Qed.

(** A call that may fail. *)
Ltac performs_call :=
  let e := fresh "e" in
  intros ? ? ([e|] & ? & -> & -> & ->); [right|by left];
  eexists _, e; split; [|done]; eexists [], [], _; by repeat split.

Create HintDb performs.
Lemma performs_GetConfig : performs (ask GetConfig) [GetConfig]. Proof. performs_call. Qed.
Lemma performs_NewManager o : performs (ask (NewManager o)) [NewManager o]. Proof. performs_call. Qed.
Lemma performs_NewClient : performs (ask NewClient) [NewClient]. Proof. performs_call. Qed.
Lemma performs_NewController n : performs (ask (NewController n)) [NewController n]. Proof. performs_call. Qed.
Lemma performs_WatchObjects n k : performs (ask (WatchObjects n k)) [WatchObjects n k]. Proof. performs_call. Qed.
Lemma performs_StartManager : performs (ask StartManager) [StartManager]. Proof. performs_call. Qed.
#[local] Hint Resolve performs_none performs_then performs_GetConfig performs_NewManager performs_NewClient
  performs_NewController performs_WatchObjects performs_StartManager : performs.

Section managers.
Context (s : Variables) (f : ManagerFlags).

(** The calls that register a controller or the handlers. *)
Definition register_commands (r : registered) : list mgr_cmd :=
  match r with
  | admission_handlers => map (fun r => RegisterHandler r.1 r.2) (admission_routes s)
  | _ => [NewController (controller_name r); WatchObjects (controller_name r) (watched_kind r)]
  end.

Lemma performs_Register : performs (Register s) (register_commands admission_handlers).
Proof.
  intros t o. unfold Register, register_commands. generalize (admission_routes s). intros l Hr. left.
  revert t Hr. induction l as [|x l IH]; intros t; [by intros [-> ->]|].
  cbn [fold_prog]. intros ([] & t' & -> & Hr). cbn [bind] in Hr. apply IH in Hr as [-> ->]. done.
Qed.
Lemma performs_SetupWithManager r : performs (SetupWithManager s r) (register_commands r).
Proof. destruct r; [..|apply performs_Register]; apply (performs_then _ _ [_] [_]); auto with performs. Qed.
Lemma performs_SetupSecretController :
  performs (SetupSecretController s) (flat_map register_commands (if CacheClientConf s then [secret_controller] else [])).
Proof.
  unfold SetupSecretController. destruct (CacheClientConf s); [|apply performs_none]. apply performs_SetupWithManager.
Qed.
Lemma performs_new_manager o : performs (new_manager o) [GetConfig; NewManager o; NewClient].
Proof. apply (performs_then _ _ [_] [_; _]), (performs_then _ _ [_] [_]); auto with performs. Qed.

(** Everything a manager does, when nothing fails. *)
Definition manager_commands (m : manager) (o : ManagerOptions) : list mgr_cmd :=
  [GetConfig; NewManager o; NewClient] ++ flat_map register_commands (registers s m) ++ [StartManager].

Lemma performs_pod_manager :
  performs (and_then NewPodManager (PodManager_Start s)) (manager_commands WatchPods pod_options).
Proof.
  apply performs_then; [apply performs_new_manager|].
  apply (performs_then _ _ [_; _] [_]); [apply performs_SetupWithManager|apply performs_StartManager].
Qed.
Lemma performs_webhook_manager :
  performs (and_then (NewWebhookManager s f) (WebhookManager_Start s)) (manager_commands SidecarWebhook (webhook_options f)).
Proof.
  unfold manager_commands. cbn [registers]. rewrite flat_map_app, <-app_assoc, app_assoc.
  apply performs_then; [apply performs_then; [apply performs_new_manager|apply performs_SetupSecretController]|].
  cbn [flat_map]. rewrite app_nil_r, <-app_assoc.
  apply performs_then; [apply performs_Register|].
  apply performs_then; [apply performs_SetupWithManager|apply performs_StartManager].
Qed.

(** How the goroutine of a manager ends when the call [c] fails. *)
Definition ending (m : manager) (c : mgr_cmd) : goroutine_end :=
  match m, c with
  | MountControllers, StartManager => Exits 1
  | MountControllers, _ => Returns
  | _, _ => Exits 255
  end.
Definition manager_ends (m : manager) (cmds : list mgr_cmd) (t : trace mgrs) (out : outcome goroutine_end) : Prop :=
  (t = map succeeds cmds /\ out = Done Returns) \/ exists c e, stopped_at cmds c e t /\ out = Done (ending m c).

Lemma signal_ends m p cmds t out :
  (forall t out, runs p t out -> manager_ends m cmds t out) ->
  runs (ask SetupSignalHandler ;;; p) t out -> manager_ends m (SetupSignalHandler :: cmds) t out.
Proof.
  intros Hp ([] & t' & -> & [[-> ->]|(c & e & Hs & ->)]%Hp); [by left|right].
  exists c, e. split; [|done]. apply (stopped_at_after _ _ _ _ [SetupSignalHandler] Hs).
Qed.
Lemma fatal_ends m p cmds t out :
  m <> MountControllers -> performs p cmds -> runs (fatal p) t out -> manager_ends m cmds t out.
Proof.
  intros Hm Hp [(t1 & t2 & e & -> & [(-> & [= ->])|(c & er & Hs & [= ->])]%Hp & [-> ->])|(x & [[_ [=]]|(c & e & _ & [=])]%Hp & _)]%runs_bind;
    rewrite app_nil_r; [by left|right]. exists c, er. split; [done|]. by destruct m.
Qed.

Lemma mount_ends t out :
  runs (e <- NewMountManager f ;; match e with Some _ => Ret Returns | None => MountManager_Start s end) t out ->
  manager_ends MountControllers (manager_commands MountControllers (mount_options f)) t out.
Proof.
  assert (performs (and_then (SetupWithManager s mount_controller)
            (and_then (SetupWithManager s job_controller) (SetupSecretController s)))
            (flat_map register_commands (registers s MountControllers))) as Hreg.
  { apply performs_then; [apply performs_SetupWithManager|].
    apply performs_then; [apply performs_SetupWithManager|apply performs_SetupSecretController]. }
  assert (forall l c e t, stopped_at l c e t -> StartManager ∉ l -> ending MountControllers c = Returns) as Hend.
  { intros l c e t0 (b & a & x & -> & _) Hn. destruct c; try done. contradict Hn. set_solver. }
  assert (StartManager ∉ flat_map register_commands (registers s MountControllers)) as Hno.
  { cbn. destruct (CacheClientConf s); set_solver. }
  pose proof (performs_new_manager (mount_options f)) as Hnew.
  intros [(t1 & t2 & e & -> & [(-> & [= ->])|(c & er & Hs & [= ->])]%Hnew & Hr)|(x & [[_ [=]]|(c & e & _ & [=])]%Hnew & _)]%runs_bind.
  - apply runs_bind in Hr as [(t3 & t4 & e & -> & [(-> & [= ->])|(c & er & Hs & [= ->])]%Hreg & Hr)|(x & [[_ [=]]|(c & e & _ & [=])]%Hreg & _)].
    + destruct Hr as ([e|] & t' & -> & -> & ->); [right|left].
      * exists StartManager, e. split; [|done]. unfold manager_commands.
        apply (stopped_at_after _ _ _ _ [GetConfig; NewManager _; NewClient]), stopped_at_after.
        eexists [], [], _. by repeat split.
      * split; [|done]. unfold manager_commands. by rewrite !map_app.
    + destruct Hr as [-> ->]. right. exists c, er. rewrite app_nil_r, (Hend _ _ _ _ Hs) by done. split; [|done].
      apply (stopped_at_after _ _ _ _ [GetConfig; NewManager _; NewClient]). by apply stopped_at_before.
  - destruct Hr as [-> ->]. right. exists c, er. rewrite app_nil_r, (Hend _ _ _ _ Hs) by set_solver. split; [|done].
    by apply stopped_at_before.
Qed.

Lemma run_manager_ends m o t out :
  manager_options f m = Some o -> runs (run_manager s f m) t out ->
  manager_ends m (SetupSignalHandler :: manager_commands m o) t out.
Proof.
  destruct m; intros [= <-]; apply signal_ends; intros t' out'.
  - by apply fatal_ends, performs_pod_manager.
  - apply mount_ends.
  - by apply fatal_ends, performs_webhook_manager.
Qed.
End managers.

(** The process runs at most one manager. *)
Lemma one_manager waits env fl t s l :
  runs (nodeRun waits env fl) t (Done (Started s, l)) \/ runs (controllerRun env fl) t (Done (Started s, l)) ->
  (length l <= 1)%nat.
Proof.
  intros [[(t1 & t2 & r & -> & H1 & H2)|(? & _ & [=])]%runs_bind|[(t1 & t2 & r & -> & H1 & H2)|(? & _ & [=])]%runs_bind].
  - destruct r as [s'|?]; [|by destruct H2]. case_bool_decide; [by destruct H2|].
    apply runs_bind in H2 as [(t3 & t4 & l' & -> & H2 & [-> [= -> ->]])|(? & _ & [=])].
    apply node_managers_one in H2. destruct (process fl || _); [subst; cbn; lia|].
    destruct H2 as [->|[-> _]]; cbn; lia.
  - destruct r as [s'|?]; [|by destruct H2]. case_bool_decide; [by destruct H2|]. destruct H2 as [-> [= -> ->]].
    apply parseControllerConfig_consistent in H1 as (_ & _ & Hm & Hw & _).
    unfold controller_managers. rewrite Hm, Hw. destruct (process fl), (webhook fl); cbn; lia.
Qed.

(** C40: managers are started as a whole.  A process runs at most one manager,
    so the signal handler is set up once.  Its goroutine builds the manager,
    registers exactly what the settings ask for, in order, and only then starts
    it: either every call succeeds, or the goroutine stops at the first failed
    one.  A failed call ends the process, but for the mount manager, whose
    construction and registrations that fail are only logged ([manager_ends]):
    there only the failed start ends the process. *)
Theorem managers_start waits env fl t s l f m o t' out :
  runs (nodeRun waits env fl) t (Done (Started s, l)) \/ runs (controllerRun env fl) t (Done (Started s, l)) ->
  m ∈ l -> manager_options f m = Some o -> runs (run_manager s f m) t' out ->
  l = [m] /\ manager_ends m (SetupSignalHandler :: manager_commands s m o) t' out.
Proof.
  intros Hl%one_manager Hm Ho Hr. split; [|by apply (run_manager_ends s f)].
  destruct l as [|x [|y l]]; [by apply elem_of_nil in Hm| |cbn in Hl; lia]. by apply list_elem_of_singleton in Hm as ->.
Qed.

(** ** What the caches hold *)

Section caches.
Context `{Globals} `{Retry} `{QuantityParser} `{SettingCodec} `{PropagationCodec} (f : ManagerFlags).

Lemma selects_one key v (labels : smap) :
  bool_decide ({[ key := v ]} ⊆ labels) = bool_decide (labels !! key = Some v).
Proof. apply bool_decide_ext, map_singleton_subseteq_l. Qed.

(** What the caches select by. *)
Lemma caches_spec labels :
  caches f WatchPods PodObjects labels = bool_decide (labels !! PodTypeKey = Some PodTypeValue) /\
  caches f MountControllers PodObjects labels = bool_decide (labels !! PodTypeKey = Some PodTypeValue) /\
  caches f MountControllers JobObjects labels = bool_decide (labels !! PodTypeKey = Some JobTypeValue) /\
  caches f SidecarWebhook PodObjects labels = bool_decide (labels !! InjectSidecarDone = Some True_).
Proof.
  rewrite <- !selects_one. unfold caches. cbn [manager_options mo_SelectorsByObject forallb fst snd mount_options pod_options webhook_options].
  rewrite !(bool_decide_true (_ = _)), !(bool_decide_false (_ = _)) by done. cbn [negb orb]. by rewrite !andb_true_r.
Qed.

(** The jobs that a program creates have the label of jobs. *)
Definition labels_jobs (t : jtrace) (c : jfs_cmd) : Prop :=
  match c with CreateJob j => nil_map (Labels (j_meta j)) !! PodTypeKey = Some JobTypeValue | _ => True end.
Definition creates_job (c : jfs_cmd) : bool := match c with CreateJob _ => true | _ => false end.
Lemma labels_jobs_none {A} (p : M A) t : avoids (S := jfs) creates_job p -> issues (S := jfs) labels_jobs p t.
Proof. apply issues_avoids. by intros ? []. Qed.

Lemma waitUtilJobCompleted_creates_none fuel name : avoids (S := jfs) creates_job (waitUtilJobCompleted fuel name).
Proof. unfold waitUtilJobCompleted, job_step, IsJobShouldBeRecycled, getNotCompleteCnLog, first_log. solve_avoids. Qed.

Lemma get_or_create_job_labels job t :
  nil_map (Labels (j_meta job)) !! PodTypeKey = Some JobTypeValue -> issues (S := jfs) labels_jobs (get_or_create_job job) t.
Proof. intros Hj. split; [done|]. intros [old|e]; [done|]. cbn. by destruct (IsNotFound e). Qed.

Lemma run_volume_job_labels fuel job secret t :
  nil_map (Labels (j_meta job)) !! PodTypeKey = Some JobTypeValue -> issues (S := jfs) labels_jobs (run_volume_job fuel job secret) t.
Proof.
  intros Hj. apply issues_bind; [by apply get_or_create_job_labels|]. intros t1 [old|e] _; [|done].
  apply labels_jobs_none. pose proof waitUtilJobCompleted_creates_none. solve_avoids; auto.
  apply RetryOnConflict_avoids; [done|]. unfold secret_attempt. solve_avoids.
Qed.

Lemma newJob_label s name t job s' : runs (newJob s name) t (Done (job, s')) -> nil_map (Labels (j_meta job)) !! PodTypeKey = Some JobTypeValue.
Proof. intros [(t1 & t2 & [pod x] & -> & _ & [-> [= -> ->]])|(? & _ & [=])]%runs_bind. done. Qed.

Lemma volume_jobs_labelled fuel s t :
  issues (S := jfs) labels_jobs (JCreateVolume fuel s) t /\ issues (S := jfs) labels_jobs (JDeleteVolume fuel s) t.
Proof.
  split; (apply issues_bind; [apply labels_jobs_none|]).
  1, 3: unfold NewJobForCreateVolume, NewJobForDeleteVolume, newJob, genCommonJuicePod, genJuiceVolumes; solve_avoids.
  all: intros t1 [job x] [(t2 & t3 & [j y] & -> & Hj%newJob_label & [-> [= -> ->]])|(? & _ & [=])]%runs_bind; by apply run_volume_job_labels.
Qed.

(** C31: the managers see what the driver makes for them.  A mount pod that
    [createOrAddRef] creates is in the caches of the pod manager and of the
    controllers of the mount pods exactly when no label of its attributes takes
    the place of the label that mount pods are selected by; every job that
    creates or deletes a volume is in the cache of the job controller; every
    pod into which the webhook injected a side car is in the cache of the
    controller that watches it. *)
Theorem caches_complete :
  (forall fuel podName s s' app t o p r,
     placed_setting s podName = Some s' -> runs (createOrAddRef fuel podName s app) t o ->
     ev (S := jfs) (CreatePod p) r ∈ t ->
     caches f WatchPods PodObjects (pod_labels p) = bool_decide (type_label s' = PodTypeValue) /\
     caches f MountControllers PodObjects (pod_labels p) = bool_decide (type_label s' = PodTypeValue)) /\
  (forall fuel s t o j r,
     runs (JCreateVolume fuel s) t o \/ runs (JDeleteVolume fuel s) t o ->
     ev (S := jfs) (CreateJob j) r ∈ t -> caches f MountControllers JobObjects (nil_map (Labels (j_meta j))) = true) /\
  (forall serverless pairs pod t out,
     pairs <> [] -> runs (Mutate serverless pairs pod) t (Done (Ok out)) ->
     caches f SidecarWebhook PodObjects (pod_labels out) = true).
Proof.
  split_and!.
  - intros fuel podName s s' app t o p r Hs Hr (t1 & t2 & Ht)%list_elem_of_split.
    pose proof (issues_runs (S := jfs) _ _ [] _ _ (createOrAddRef_issues fuel podName s s' app [] Hs) Hr t1 _ t2 Ht) as Hw.
    destruct Hw as (_ & _ & _ & _ & Hl & _). destruct (caches_spec (pod_labels p)) as (-> & -> & _). rewrite Hl.
    split; apply bool_decide_ext; split; [by intros [=]|by intros ->|by intros [=]|by intros ->].
  - intros fuel s t o j r Hr (t1 & t2 & Ht)%list_elem_of_split. destruct (volume_jobs_labelled fuel s []) as [Hc Hd].
    destruct (caches_spec (nil_map (Labels (j_meta j)))) as (_ & _ & -> & _). apply bool_decide_true.
    destruct Hr as [Hr|Hr].
    + exact (issues_runs (S := jfs) _ _ [] _ _ Hc Hr t1 _ t2 Ht).
    + exact (issues_runs (S := jfs) _ _ [] _ _ Hd Hr t1 _ t2 Ht).
  - intros serverless pairs pod t out Hne Hr. destruct (Mutate_plain _ _ _ _ _ _ Hr) as [Hl _].
    destruct (caches_spec (pod_labels out)) as (_ & _ & _ & ->). apply bool_decide_true.
    by rewrite Hl, lookup_insert_eq.
Qed.
End caches.
