(* ===== verification/DriverRpcFacts.v ===== *)
(** * Properties of the gRPC server

    The calls that the driver implements are those of the capabilities it
    advertises; its server listens where the endpoint says, and the provisioner
    is never started without a client. *)
From S2P Require Import Prelude.
From S2P Require Import GoStrings.
From S2P Require Import K8s.
From S2P Require Import GoTime.
From S2P Require Import Prog.
From S2P Require Import Effects.
From S2P Require Import Config.
From S2P Require Import Util.
From S2P Require Import Setting.
From S2P Require Import JfsSetting.
From S2P Require Import PodMount.
From S2P Require Import Juicefs.
From S2P Require Import DriverServices.
From S2P Require Import Startup.
From S2P Require Import Driver.
From S2P Require Import StartupFacts.
#[local] Open Scope Z_scope.
#[local] Open Scope go_scope.

(** ** Answers *)

(** Every value the program returns. *)
Fixpoint answers {A} (Q : A -> Prop) (p : M A) : Prop :=
  match p with
  | Ret a => Q a
  | Halt _ => True
  | Vis c k => forall a, answers Q (k a)
  end.

Lemma answers_runs {A} Q (p : M A) t a : answers Q p -> runs p t (Done a) -> Q a.
Proof.
  revert t. induction p as [b|s|c k IH]; intros t Hp; [by intros [_ [= ->]]|by intros [_ ?]|].
  intros (x & t' & _ & Hr). by apply (IH x t').
Qed.

Lemma answers_bind {A B} Q (p : M A) (f : A -> M B) : (forall a, answers Q (f a)) -> answers Q (bind p f).
Proof. intros Hf. induction p as [a|s|c k IH]; cbn; [apply Hf|done|]. intros a. apply IH. Qed.

Lemma answers_bind_post {A B} (P : A -> Prop) Q (p : M A) (f : A -> M B) :
  answers P p -> (forall a, P a -> answers Q (f a)) -> answers Q (bind p f).
Proof. intros Hp Hf. induction p as [a|s|c k IH]; cbn; [by apply Hf|done|]. intros a. apply IH, Hp. Qed.

Lemma answers_deferred {A} Q c (p : M A) : answers Q p -> answers Q (deferred c p).
Proof. induction p as [a|[m|]|c' k IH]; cbn; [done|done|done|]. intros Hp a. by apply IH. Qed.

Ltac answers_step :=
  match goal with
  | |- forall _, _ => intros ?
  | |- answers _ (Ret (_ <$> ?x)) => destruct x; cbn [answers fmap option_fmap option_map]
  | |- answers _ (Ret _) => cbn [answers]
  | |- answers _ (Halt _) => exact I
  | |- answers _ (panic _) => exact I
  | |- answers _ (bind _ _) => apply answers_bind
  | |- answers _ (with_release _ _) => apply answers_deferred
  | |- answers _ (match ?x with _ => _ end) => destruct x
  end.

Ltac solve_answers := repeat answers_step; cbn; repeat case_match; simplify_eq; done.

(** ** Capabilities *)

(** The capability the specification demands of a call. *)
Definition needed (r : rpc) : option capability :=
  match r with
  | CreateVolumeCall _ | DeleteVolumeCall _ _ => Some CREATE_DELETE_VOLUME
  | GetCapacityCall => Some GET_CAPACITY
  | ListVolumesCall => Some LIST_VOLUMES
  | CreateSnapshotCall | DeleteSnapshotCall => Some CREATE_DELETE_SNAPSHOT
  | ListSnapshotsCall => Some LIST_SNAPSHOTS
  | ControllerExpandVolumeCall _ => Some EXPAND_VOLUME
  | ControllerPublishVolumeCall | ControllerUnpublishVolumeCall => Some PUBLISH_UNPUBLISH_VOLUME
  | ControllerGetVolumeCall => Some GET_VOLUME
  | NodeStageVolumeCall | NodeUnstageVolumeCall => Some STAGE_UNSTAGE_VOLUME
  | NodeGetVolumeStatsCall _ _ => Some GET_VOLUME_STATS
  | NodeExpandVolumeCall => Some NODE_EXPAND_VOLUME
  | ValidateVolumeCapabilitiesCall _ _ | ControllerGetCapabilitiesCall => Some CONTROLLER_SERVICE
  | _ => None
  end.
Definition advertised : list capability := GetPluginCapabilities ++ ControllerGetCapabilities ++ NodeGetCapabilities.
Definition offered (r : rpc) : bool := match needed r with Some c => bool_decide (c ∈ advertised) | None => true end.

Definition is_unimplemented (e : error) : bool := match e with StatusError Unimplemented _ => true | _ => false end.
(** An answer that is not a refusal of the call, and that does not ask for a
    call that would be refused. *)
Definition proper (x : Vols * res response) : Prop :=
  match x.2 with
  | Err e => is_unimplemented e = false
  | Ok (Expanded _ nodeExpansionRequired) => nodeExpansionRequired = true -> offered NodeExpandVolumeCall = true
  | Ok _ => True
  end.

Section calls.
Context `{Globals} `{Retry} `{QuantityParser} `{SettingCodec} (fuel : nat) (driverVersion nodeID : string).

Definition implemented (e : option error) : Prop := match e with Some e => is_unimplemented e = false | None => True end.

Lemma publish_implemented req : answers implemented (NodePublishVolume fuel req).
Proof. unfold NodePublishVolume, publish_quota. solve_answers. Qed.
Lemma unpublish_implemented volumeId target : answers implemented (NodeUnpublishVolume fuel volumeId target).
Proof. unfold NodeUnpublishVolume. solve_answers. Qed.

Lemma delete_implemented vols volumeID secrets : answers (fun x => implemented x.2) (DeleteVolume fuel vols volumeID secrets).
Proof. unfold DeleteVolume. solve_answers. Qed.
Definition expanded (x : res Z) : Prop := match x with Err e => is_unimplemented e = false | Ok _ => True end.
Lemma expand_implemented req : answers expanded (ControllerExpandVolume req).
Proof. unfold ControllerExpandVolume. solve_answers. Qed.
Definition counted (x : res (VolumeUsage * VolumeUsage)) : Prop := match x with Err e => is_unimplemented e = false | Ok _ => True end.
Lemma stats_implemented volumeID volumePath : answers counted (NodeGetVolumeStats volumeID volumePath).
Proof. unfold NodeGetVolumeStats. solve_answers. Qed.

Lemma CreateVolume_implemented vols req e : (CreateVolume vols req).2 = Err e -> is_unimplemented e = false.
Proof. unfold CreateVolume. repeat case_match; cbn; by intros [= <-]. Qed.
Lemma Validate_implemented vols volumeID volCaps e : ValidateVolumeCapabilities vols volumeID volCaps = Err e -> is_unimplemented e = false.
Proof. unfold ValidateVolumeCapabilities. repeat case_match; by intros [= <-]. Qed.

Lemma handle_proper vols r : offered r = true -> answers proper (handle fuel driverVersion nodeID vols r).
Proof.
  intros Ho. destruct r; try done; cbn [handle].
  - pose proof (CreateVolume_implemented vols req) as Hc. destruct (CreateVolume vols req) as [v [y|e]]; [done|]. by apply Hc.
  - eapply answers_bind_post; [apply delete_implemented|]. by intros [v [e|]].
  - destruct (ValidateVolumeCapabilities vols volumeID volCaps) eqn:Ev; [done|]. by eapply Validate_implemented.
  - eapply answers_bind_post; [apply expand_implemented|]. by intros [n|e].
  - eapply answers_bind_post; [apply publish_implemented|]. by intros [e|].
  - eapply answers_bind_post; [apply unpublish_implemented|]. by intros [e|].
  - eapply answers_bind_post; [apply stats_implemented|]. by intros [n|e].
Qed.

(** C36: the driver implements exactly what it advertises.  A call whose
    capability it advertises (or that needs none) is never answered as
    unimplemented, whatever the environment does, and an expanded volume never
    asks for the expansion on the node that the driver refuses; a call whose
    capability it does not advertise is refused at once, without any effect;
    and only the calls that create and delete volumes change what the
    controller remembers. *)
Theorem handle_advertised vols r t vols' x :
  runs (handle fuel driverVersion nodeID vols r) t (Done (vols', x)) ->
  (if offered r then proper (vols', x) else t = [] /\ x = unimplemented /\ vols' = vols) /\
  (needed r <> Some CREATE_DELETE_VOLUME -> vols' = vols).
Proof.
  intros Hr. split.
  - destruct (offered r) eqn:Ho; [by eapply answers_runs; [apply handle_proper|]|].
    destruct r; try discriminate Ho; by destruct Hr as [-> [= -> ->]].
  - intros Hn. enough (answers (fun y => y.1 = vols) (handle fuel driverVersion nodeID vols r)) as Ha by exact (answers_runs _ _ _ _ Ha Hr).
    destruct r; try done; cbn [handle]; solve_answers.
Qed.
End calls.

(** ** The server *)

(** The endpoint of a server: a unix socket is absolute and was removed, or
    was not there. *)
Lemma ParseEndpoint_unix url_Parse endpoint t scheme addr :
  runs (ParseEndpoint url_Parse endpoint) t (Done (Ok (scheme, addr))) ->
  scheme = "tcp" /\ t = [] \/
  scheme = "unix" /\ exists e, t = [ev (S := jfs) (RemoveFile addr) e] /\ (e = None \/ exists e', e = Some e' /\ IsNotExist e' = true).
Proof.
  unfold ParseEndpoint. destruct (url_Parse endpoint) as [u|e]; [|by intros [_ [=]]].
  case_bool_decide as Ht; [intros [-> [= -> _]]; by left|]. case_bool_decide as Hu; [|by intros [_ [=]]].
  intros ([e|] & t' & -> & Hr); prog_simpl_in Hr.
  - destruct (IsNotExist e) eqn:Ee; [|by destruct Hr as [_ [=]]]. destruct Hr as [-> [= -> ->]]. right. split; [done|].
    exists (Some e). split; [done|]. right. by exists e.
  - destruct Hr as [-> [= -> ->]]. right. split; [done|]. exists None. split; [done|]. by left.
Qed.

(** The provisioner never lacks its client: a process that starts with
    consistent settings builds its services with one when it provisions. *)
Theorem provisioner_has_client url_Parse tz conf s endpoint nodeID ns t1 d serverVersion listen t2 p srv :
  consistent s -> let globals := globals_of tz s conf in
  runs (NewDriver endpoint nodeID ns) t1 (Done (Ok d)) ->
  runs (Driver_Run url_Parse d serverVersion listen) t2 (Done (p, srv)) ->
  p <> Fatal "K8sClient is nil".
Proof.
  intros (_ & _ & Hp & _) globals Hd Hr. unfold NewDriver in Hd. cbn [g_ByProcess globals_of globals] in Hd.
  apply runs_bind_done in Hr as (t3 & t4 & r & -> & _ & [_ [= -> _]]). cbn [g_Provisioner globals_of globals].
  destruct (ByProcess s).
  - by destruct (Hp eq_refl) as (_ & -> & _).
  - destruct (Provisioner s); [|done]. destruct Hd as ([e|] & t5 & -> & [_ [=]]). subst d. cbn. by destruct serverVersion.
Qed.
