(* ===== verification/KubeClientFacts.v ===== *)
(** * The driver linked with its clients

    The programs of the driver are written against the commands of Effects;
    linked with the code of pkg/k8sclient they send requests.  Every run of the
    linked program is a run of the program, so the theorems about its commands
    hold for the requests. *)
From S2P Require Import Prelude.
From S2P Require Import GoStrings.
From S2P Require Import K8s.
From S2P Require Import Prog.
From S2P Require Import Effects.
From S2P Require Import Config.
From S2P Require Import PodUtil.
From S2P Require Import Setting.
From S2P Require Import JfsSetting.
From S2P Require Import Builder.
From S2P Require Import PodMount.
From S2P Require Import Juicefs.
From S2P Require Import Interp.
From S2P Require Import KubeClient.
From S2P Require Import PodMountFacts.
From S2P Require Import JuicefsFacts.
#[local] Open Scope Z_scope.
#[local] Open Scope go_scope.

Create HintDb client.

(** A program that never halts. *)
Fixpoint returns {S A} (p : prog S A) : Prop :=
  match p with
  | Ret _ => True
  | Halt _ => False
  | Vis c k => forall a, returns (k a)
  end.

Lemma returns_runs {S A} (p : prog S A) t s : returns p -> ~ runs p t (Halted s).
Proof.
  revert t. induction p as [a|s'|c k IH]; intros t; [by intros _ [_ ?]|done|].
  intros Hp (a & t' & _ & Hr). by apply (IH a t').
Qed.

Lemma returns_bind {S A B} (p : prog S A) (f : A -> prog S B) :
  returns p -> (forall a, returns (f a)) -> returns (bind p f).
Proof. intros Hp Hf. induction p as [a|s|c k IH]; cbn; [done|done|]. intros a. by apply IH. Qed.

#[local] Hint Unfold NewClient NewKubeletClient kubelet_token kubelet_timeout env_number makeTransport GetNodeRunningPods
  list_request owner_exists Client.execute Client.ListPod Client.ListNode Client.CreatePod Client.GetPod Client.PatchPod
  Client.DeletePod Client.GetPodLog Client.GetSecret Client.CreateSecret Client.UpdateSecret Client.DeleteSecret
  Client.PatchSecret Client.GetJob Client.CreateJob Client.DeleteJob Client.GetPersistentVolume Client.ListPersistentVolumes
  Client.ListStorageClasses Client.GetPersistentVolumeClaim Client.GetReplicaSet Client.GetStatefulSet
  Client.GetStorageClass Client.GetDaemonSet Client.ExecuteInContainer : client.
Ltac unfold_client := cbn [client]; repeat autounfold with client.

Ltac client_step :=
  match goal with
  | |- forall _, _ => intros ?
  | |- returns (Ret _) => exact I
  | |- returns (request _) => intros ?; exact I
  | |- returns (bind _ _) => apply returns_bind
  | |- returns (bindK _ _) => apply returns_bind
  | |- returns (thenK _ _) => apply returns_bind
  | |- returns (only_error _) => apply returns_bind
  | |- returns (Getenv _) => apply returns_bind
  | |- returns (match ?x with _ => _ end) => destruct x
  end.

Ltac kube_avoids :=
  repeat match goal with
         | |- avoids _ (request _) => apply avoids_call; reflexivity
         | |- avoids _ (bindK _ _) => apply avoids_bind
         | |- avoids _ (thenK _ _) => apply avoids_bind
         | |- avoids _ (only_error _) => apply avoids_bind
         | |- avoids _ (Getenv _) => apply avoids_bind
         | _ => avoids_step
         end.

(** Deletions of pods. *)
Definition deletes_pod (c : kube_cmd) : bool := match c with Delete KPod _ _ _ => true | _ => false end.

Section linked.
Context `{SelectorCodec} (k : K8sClient) (kc : KubeletClient).

Lemma client_returns c : returns (client k kc c).
Proof.
  destruct c; unfold_client; repeat client_step.
Qed.

(** Linking loses nothing and adds nothing.  The runs of a program of the
    driver linked with its clients are exactly the runs of the program in which
    every command is carried out by its client: each event is a run of the
    client's code for that command that ends with the answer the program got. *)
Theorem linked_runs {A} (p : M A) t o :
  runs (linked k kc p) t o <-> exists u, runs p u o /\ implements (S := jfs) (T := kube) (client k kc) u t.
Proof. apply (runs_interp (S := jfs)). intros c t' s. apply returns_runs, client_returns. Qed.

(** Pods are only deleted by the command that says so. *)
Lemma client_avoids_delete c :
  (forall p, c <> DeletePod p) -> avoids (S := kube) deletes_pod (client k kc c).
Proof.
  intros Hc. destruct c; try (by destruct (Hc p)); unfold_client; kube_avoids.
Qed.

Lemma client_deletes c t1 e t2 a :
  runs (client k kc c) (t1 ++ e :: t2) (Done a) -> deletes_pod (projT1 e) = true ->
  t1 = [] /\ exists p, c = DeletePod p /\ projT1 e = Delete KPod (pod_namespace p) (pod_name p) None.
Proof.
  intros Hr He. assert ((exists p, c = DeletePod p) \/ forall p, c <> DeletePod p) as [[p ->]|Hc].
  { destruct c; try (by right). left. by eexists. }
  - destruct Hr as (r & t' & Ht & -> & _). destruct t1 as [|x [|]]; [|done..]. injection Ht as -> ->. split; [done|]. by exists p.
  - exfalso. assert (avoids (S := kube) deletes_pod (client k kc c)) as Hav.
    { by apply client_avoids_delete. }
    apply (avoids_runs _ _ _ _ Hav) in Hr. apply never_spec in Hr. rewrite Forall_app, Forall_cons in Hr.
    destruct Hr as (_ & Hr & _). cbn beta in Hr. congruence.
Qed.

(** Events of commands that are passed on. *)
Lemma implements_now u t :
  implements (S := jfs) (T := kube) (client k kc) u t -> Forall (fun e => projT1 e = Now) u ->
  Forall (fun e : event kube => projT1 e = Outside Now) t.
Proof.
  intros Hi. induction Hi as [|c a u t1 t2 Hr Hi IH]; intros Hu; [constructor|].
  apply Forall_cons in Hu as [Hc Hu]. cbn in Hc. subst c. destruct Hr as (n & t' & -> & -> & _). constructor; [done|]. by apply IH.
Qed.

(** C7: deletion of a mount pod, seen from the API server.  In every run of
    [JfsUnmount] linked with its clients, each DELETE of a pod comes after the
    clean-up of the target; it names the pod that a GET (not a list, which may
    come from a cache) answered before, without references; and nothing but the
    clock was asked between the two. *)
Theorem linked_unmount_deletes `{Globals} `{Retry} `{QuantityParser} `{SettingCodec} fuel volumeId target t o :
  g_ByProcess = false -> runs (linked k kc (JfsUnmount fuel volumeId target)) t o ->
  forall t1 ns name pr a t2, t = t1 ++ ev (S := kube) (Delete KPod ns name pr) a :: t2 ->
    ev (S := kube) (Outside (CleanupMountPoint target)) None ∈ t1 /\
    exists podName p t0 t3, podName <> "" /\
      t1 = t0 ++ ev (S := kube) (Get Caller KPod g_Namespace podName) (Ok p) :: t3 /\
      GetAllRefKeys p = ∅ /\ name = pod_name p /\ ns = pod_namespace p /\
      Forall (fun e : event kube => projT1 e = Outside Now) t3.
Proof.
  intros Hb (u & Hu & Hi)%(runs_interp (S := jfs)) t1 ns name pr a t2 Ht;
    [|intros c t' s; apply returns_runs, client_returns].
  destruct (implements_event (S := jfs) _ _ _ _ _ _ Hi Ht) as (u1 & c & b & u2 & t3 & t4 & t5 & -> & Hi1 & Hr & ->).
  destruct (client_deletes _ _ _ _ _ Hr) as [-> (p & -> & [= -> -> ->])]; [done|].
  pose proof (issues_runs (S := jfs) (unmount_writes target) _ [] _ _ (JfsUnmount_issues fuel volumeId target Hb) Hu
    _ _ _ eq_refl) as (Hc & podName & Hn & Hz & u0 & u3 & Hu1 & Hnow).
  cbn [app] in Hc, Hu1. rewrite app_nil_r. split.
  - apply list_elem_of_split in Hc as (v1 & v2 & ->). apply implements_split in Hi1 as (s1 & s2 & -> & _ & Hi2).
    apply (implements_inv (S := jfs)) in Hi2 as (s3 & s4 & -> & (x & s5 & -> & -> & [= <-]) & _). set_solver.
  - subst u1. apply implements_split in Hi1 as (s1 & s2 & -> & _ & Hi2).
    apply (implements_inv (S := jfs)) in Hi2 as (s3 & s4 & -> & (x & s5 & -> & -> & [= <-]) & Hi3).
    exists podName, p, s1, s4. split_and!; try done. by apply (implements_now u3).
Qed.
End linked.
