(* ===== verification/PublishFacts.v ===== *)
(** * Publishing and unpublishing a volume, end to end

    What a successful answer of the node service means: the whole path from
    [NodePublishVolume] through the provider, the settings, the pod mount, the
    reference and the wait to the bind mount, and back. *)
From S2P Require Import Prelude.
From S2P Require Import GoStrings.
From S2P Require Import Hash.
From S2P Require Import K8s.
From S2P Require Import GoTime.
From S2P Require Import Prog.
From S2P Require Import Effects.
From S2P Require Import Config.
From S2P Require Import Util.
From S2P Require Import PodUtil.
From S2P Require Import Setting.
From S2P Require Import JfsSetting.
From S2P Require Import Builder.
From S2P Require Import PodMount.
From S2P Require Import ProcessMount.
From S2P Require Import Juicefs.
From S2P Require Import DriverServices.
From S2P Require Import PodMountFacts.
From S2P Require Import JuicefsFacts.
#[local] Open Scope Z_scope.
#[local] Open Scope go_scope.
#[local] Opaque GetReferenceKey GenHashOfSetting.

(** ** What a run shows *)

Section publish.
Context `{Globals} `{Retry} `{QuantityParser} `{SettingCodec}.

(** The mount pod has the reference of the target: it was added to a live pod,
    or the pod was created with it. *)
Definition referenced (target podName : string) (t : jtrace) : Prop :=
  (exists t0 t1 t2, t = t0 ++ t1 ++ t2 /\ ref_shown target podName t1) \/
  exists p q, ev (S := jfs) (CreatePod p) (Ok q) ∈ t /\ pod_name p = podName /\
    pod_annotations p !! GetReferenceKey target = Some target.

(** The root of a JuiceFS file system was seen at the path. *)
Definition mount_ready (path : string) (t : jtrace) : Prop :=
  exists fi dev, ev (S := jfs) (Stat path) (Ok fi) ∈ t /\ fi_stat fi = Some (1, dev).

(** The source was bound to the target; or the mount table was read with an
    entry of the target, and its last entry, of whatever mount, is on the device
    of the file system, which the code takes for a bound target. *)
Definition bound (mountPath source target : string) (t : jtrace) : Prop :=
  ev (S := jfs) (Mount source target fsTypeNone ["bind"]) None ∈ t \/
  exists infos m, ev (S := jfs) ParseMountInfo (Ok infos) ∈ t /\
    shown_at mountPath infos m /\ mounted_at target infos /\ mi_minor <$> last infos = Some (mi_minor m).

(** ** The settings of a pod mount *)

Lemma parse_vol_ctx_UsePod volCtx s s' : parse_vol_ctx volCtx s = Ok s' -> UsePod s' = UsePod s.
Proof. unfold parse_vol_ctx. destruct volCtx; [|by intros [= ->]]. case_match; [done|]. by intros [= <-]. Qed.

Lemma GenPodAttrWithCfg_UsePod volCtx s s' : GenPodAttrWithCfg s volCtx = Ok s' -> UsePod s' = UsePod s.
Proof. unfold GenPodAttrWithCfg. case_match; [|done]. by intros [= <-]. Qed.

(** With secrets, the setting follows the mode of the driver. *)
Lemma ParseSetting_UsePod secrets volCtx options usePod pv pvc s :
  ParseSetting (Some secrets) volCtx options usePod pv pvc = Ok s -> UsePod s = usePod.
Proof.
  unfold ParseSetting. repeat (case_match; try done); intros [= ->];
    repeat match goal with
           | E : GenPodAttrWithCfg _ _ = Ok _ |- _ => apply GenPodAttrWithCfg_UsePod in E
           | E : parse_vol_ctx _ _ = Ok _ |- _ => apply parse_vol_ctx_UsePod in E
           end; cbn in *; congruence.
Qed.

Lemma client_command_UsePod secrets s t secrets' s' :
  runs (client_command secrets s) t (Done (secrets', Ok s')) -> UsePod s' = UsePod s.
Proof.
  unfold client_command. destruct (negb (IsCe s)); [case_bool_decide|].
  - by intros [_ [= _ ->]].
  - intros (t1 & t2 & [sec [cmd|e]] & -> & _ & [_ [=]])%runs_bind_done. by subst.
  - intros (t1 & t2 & [cmd|e] & -> & _ & [_ [=]])%runs_bind_done. by subst.
Qed.

Lemma Settings_UsePod volumeID secrets volCtx options t secrets' volCtx' s :
  runs (Settings volumeID (Some secrets) volCtx options) t (Done (secrets', volCtx', Ok s)) -> UsePod s = negb g_ByProcess.
Proof.
  unfold Settings, Settings_by. destruct (validOptions _ _); [|by intros [_ [=]]].
  intros (t1 & t2 & vo & -> & _ & Hr)%runs_bind_done. destruct (ParseSetting _ _ _ _ _ _) as [s0|] eqn:Ep; [|by destruct Hr as [_ [=]]].
  apply runs_bind_done in Hr as (t3 & t4 & [sec r] & -> & Hc & [_ [= _ _ <-]]).
  apply client_command_UsePod in Hc. apply ParseSetting_UsePod in Ep. cbn in Hc. congruence.
Qed.

(** The annotations of a claim that reach the volume context start with [juicefs]. *)
Lemma overlay_other pvc volCtx k :
  HasPrefix k "juicefs" = false -> nil_map (caller_map volCtx (overlay pvc volCtx)) !! k = nil_map volCtx !! k.
Proof.
  intros Hk. destruct volCtx as [ctx|]; [|done]. destruct pvc as [pvc|]; [|done]. apply lookup_union_r.
  apply map_lookup_filter_None. right. intros x _. cbn. congruence.
Qed.

Lemma Settings_volCtx volumeID secrets volCtx options t secrets' volCtx' s k :
  HasPrefix k "juicefs" = false -> runs (Settings volumeID secrets volCtx options) t (Done (secrets', volCtx', Ok s)) ->
  nil_map volCtx' !! k = nil_map volCtx !! k.
Proof.
  intros Hk. unfold Settings, Settings_by. destruct (validOptions _ _); [|by intros [_ [=]]].
  intros (t1 & t2 & vo & -> & _ & Hr)%runs_bind_done. destruct (ParseSetting _ _ _ _ _ _) as [s0|]; [|by destruct Hr as [_ [=]]].
  apply runs_bind_done in Hr as (t3 & t4 & [sec r] & -> & _ & [_ [= _ -> _]]). by apply overlay_other.
Qed.

Lemma genJfsSettings_ok volumeID target secrets volCtx options t secrets' volCtx' s :
  runs (genJfsSettings volumeID target (Some secrets) volCtx options) t (Done (secrets', volCtx', Ok s)) ->
  UsePod s = negb g_ByProcess /\ TargetPath s = target /\
  (forall k, HasPrefix k "juicefs" = false -> nil_map volCtx' !! k = nil_map volCtx !! k) /\
  exists t1 t2 t3, t = t1 ++ t2 ++ t3 /\ runs (getUniqueId volumeID) t2 (Done (Ok (js_UniqueId s))).
Proof.
  intros (t1 & t2 & [[sec ctx] [s0|e]] & -> & Hs & Hr)%runs_bind_done; [|by destruct Hr as [_ [=]]].
  assert (forall k, HasPrefix k "juicefs" = false -> nil_map ctx !! k = nil_map volCtx !! k) as Hctx.
  { intros k Hk. by eapply Settings_volCtx. }
  apply Settings_UsePod in Hs. apply runs_bind_done in Hr as (t3 & t4 & r & -> & Hr & [-> [= _ -> <-]]).
  apply runs_bindR_ok in Hr as (t5 & t6 & u & -> & Hu & Hr). unfold set_cache_uuid in Hr.
  assert (UsePod s = negb g_ByProcess /\ TargetPath s = target /\ js_UniqueId s = u) as (? & ? & ->).
  { destruct (negb (js_CleanCache _)); [destruct Hr as [_ [= ->]]; by split_and!|].
    apply runs_bindR_ok in Hr as (t7 & t8 & uuid & -> & _ & Hr).
    apply runs_bind_done in Hr as (t9 & t10 & [] & -> & _ & [_ [= ->]]). by split_and!. }
  split_and!; [done|done|done|]. exists t1, t5, t6. by rewrite app_nil_r.
Qed.

(** ** The pod mount *)

Lemma referenced_app target podName t1 t2 t3 : referenced target podName t2 -> referenced target podName (t1 ++ t2 ++ t3).
Proof.
  intros [(t4 & t5 & t6 & -> & Hr)|(p & q & Hin & Hp)].
  - left. exists (t1 ++ t4), t5, (t6 ++ t3). by rewrite <- !app_assoc.
  - right. exists p, q. split; [|done]. set_solver.
Qed.
Lemma referenced_after target podName t1 t2 : referenced target podName t2 -> referenced target podName (t1 ++ t2).
Proof. intros Hr. rewrite <-(app_nil_r t2). by apply referenced_app. Qed.

Lemma AddRefOfMount_referenced target podName t :
  runs (AddRefOfMount target podName) t (Done None) -> referenced target podName t.
Proof.
  intros (t0 & t1 & -> & Hf)%RetryOnConflict_retried%retried_ok. left. exists t0, t1, []. rewrite app_nil_r. split; [done|].
  by apply add_ref_attempt_ok.
Qed.

Lemma create_mount_pod_referenced podName hashVal s secret app t :
  runs (create_mount_pod podName hashVal (GetReferenceKey (TargetPath s)) s secret app) t (Done None) ->
  referenced (TargetPath s) podName t.
Proof.
  intros (t1 & t2 & [pod s'] & -> & Hn & Hr)%runs_bind_done. apply NewMountPod_meta in Hn as (Hn & _).
  apply runs_bind_done in Hr as (t3 & t4 & p & -> & Hp & Hr).
  assert (p_meta p = first_ref (GetReferenceKey (TargetPath s)) (TargetPath s) hashVal (p_meta pod)) as Hm.
  { destruct g_EnableNodeSelector; [by apply select_node_meta in Hp|]. by destruct Hp as [_ [= ->]]. }
  apply runs_thenE_ok in Hr as (t5 & t6 & -> & _ & Hr). destruct Hr as ([q|e] & t7 & -> & Hr); [|by destruct Hr as [_ [=]]].
  right. exists p, q. split; [rewrite !elem_of_app; do 3 right; by left|].
  unfold pod_name, pod_annotations. rewrite Hm. split; [done|]. cbn. apply lookup_insert_eq.
Qed.

Lemma createOrAddRef_ok fuel podName s app t s' :
  runs (createOrAddRef fuel podName s app) t (Done (s', None)) ->
  placed_setting s podName = Some s' /\ referenced (TargetPath s) podName t.
Proof.
  unfold createOrAddRef. destruct (placed_setting s podName) as [x|] eqn:Ex; [|by intros [_ ?]].
  assert (TargetPath x = TargetPath s) as Ht.
  { unfold placed_setting in Ex. apply bind_Some in Ex as (? & _ & [= <-]). done. }
  intros (t1 & t2 & e & -> & (t3 & Hl & ->)%runs_locked & [-> [= -> <-]])%runs_bind_done. split; [done|].
  apply loop_last in Hl as (t4 & t5 & u & -> & Hs). rewrite app_nil_r, <-app_assoc, app_comm_cons.
  apply referenced_app. rewrite <-Ht in *. destruct Hs as ([old|er] & t6 & -> & Hs); prog_simpl_in Hs.
  - apply (referenced_after _ _ [_]). case_bool_decide; [by destruct Hs as (? & ? & _ & _ & [=])|].
    apply runs_bind_done in Hs as (t7 & t8 & e & -> & Hs & [-> [= <-]]). rewrite app_nil_r.
    apply runs_thenE_ok in Hs as (t9 & t10 & -> & _ & Hs). by apply referenced_after, AddRefOfMount_referenced.
  - apply (referenced_after _ _ [_]). destruct (IsNotFound er); [|by destruct (IsTimeout er), Hs].
    apply runs_bind_done in Hs as (t7 & t8 & e & -> & Hs & [-> [= <-]]). rewrite app_nil_r.
    by eapply create_mount_pod_referenced.
Qed.

(** ** Readiness *)

Lemma DoWithTimeout_ok {A} ctx d (f : M (res A)) t a :
  runs (DoWithTimeout ctx d f) t (Done (Ok a)) -> exists e t', t = e :: t' /\ runs f t' (Done (Ok a)).
Proof.
  intros ([e|] & t' & -> & Hr); [|by eexists _, t'].
  prog_simpl_in Hr. by apply runs_bind_done in Hr as (t1 & t2 & u & _ & _ & [_ ?]).
Qed.

Lemma WaitUtilMountReady_ok fuel path d t :
  runs (WaitUtilMountReady fuel path d) t (Done None) -> mount_ready path t.
Proof.
  intros (t0 & t1 & u & -> & (t2 & t3 & [fi|[]] & -> & Hd & Hr)%runs_bind_done)%loop_last;
    try by (destruct Hr as (? & ? & _ & _ & [=]) || destruct Hr as [_ [=]]).
  apply DoWithTimeout_ok in Hd as (e & t4 & -> & (a & t5 & -> & [-> [= <-]])).
  destruct (fi_stat fi) as [[i dev]|] eqn:Ef; [|by destruct Hr as (? & ? & _ & _ & [=])].
  destruct (decide (i = 1)) as [->|Hne].
  - exists fi, dev. split; [|done]. set_solver.
  - destruct i as [|[]|]; try done; by destruct Hr as (? & ? & _ & _ & [=]).
Qed.

Lemma JMount_ok fuel app s t s' :
  runs (JMount fuel app s) t (Done (s', None)) ->
  exists podName t1 t2, t = t1 ++ t2 /\ placed_setting s podName = Some s' /\
    referenced (TargetPath s) podName t1 /\ mount_ready (MountPath s') t2.
Proof.
  intros (t1 & t2 & [podName|e] & -> & _ & Hr)%runs_bind_done; [|by destruct Hr as [_ [=]]].
  apply runs_bind_done in Hr as (t3 & t4 & [e|] & -> & _ & Hr); [by destruct Hr as [_ [=]]|].
  apply runs_bind_done in Hr as (t5 & t6 & [x [e|]] & -> & Hc & Hr); [by destruct Hr as [_ [=]]|].
  apply createOrAddRef_ok in Hc as [Hp Hc]. apply runs_bind_done in Hr as (t7 & t8 & e & -> & Hr & [-> [= -> <-]]).
  apply runs_thenE_ok in Hr as (t9 & t10 & -> & Hw & _).
  apply runs_bind_done in Hw as (t11 & t12 & [e|] & -> & Hw & Hr).
  { apply runs_bind_done in Hr as (? & ? & l & _ & _ & Hr). destruct (StripPasswd _); [|by destruct Hr].
    by destruct l, Hr. }
  apply WaitUtilMountReady_ok in Hw as (fi & dev & Hin & Hf).
  exists podName, (t1 ++ t3 ++ t5), ((t11 ++ t12) ++ t10). rewrite app_nil_r, <- !app_assoc. split_and!; [done|done| |].
  - rewrite (app_assoc t1 t3). by apply referenced_after.
  - exists fi, dev. split; [|done]. set_solver.
Qed.

(** ** The provider *)

(** The directory on the node that a mount pod mounts a volume at. *)
Definition mount_directory (uniqueId podName path : string) : Prop :=
  exists suffix, slice_from podName (Z.of_nat (String.length podName) - 7) = Some suffix /\
    path = path_Join [PodMountBase; uniqueId] +:+ suffix.

Lemma MountFs_ok fuel app s t s' path :
  UsePod s = true -> runs (MountFs fuel app s) t (Done (s', Ok path)) ->
  exists podName t1 t2, t = t1 ++ t2 /\ mount_directory (js_UniqueId s) podName path /\
    referenced (TargetPath s) podName t1 /\ mount_ready path t2.
Proof.
  intros Hp. unfold MountFs. rewrite Hp. intros (t1 & t2 & [x [e|]] & -> & Hj & Hr)%runs_bind_done; [by destruct Hr as [_ [=]]|].
  destruct (StripPasswd _); [|by destruct Hr]. destruct Hr as [-> [= -> ->]].
  change (UsePod (with_MountPath _ s)) with (UsePod s) in Hj. rewrite Hp in Hj.
  apply JMount_ok in Hj as (podName & t3 & t4 & -> & Hpl & Hf & Hm).
  exists podName, t3, t4. rewrite app_nil_r. split_and!; [done| |done|done].
  unfold placed_setting in Hpl. apply bind_Some in Hpl as (suffix & Hs & [= <-]). by exists suffix.
Qed.

Lemma JfsMount_ok fuel volumeID target secrets volCtx options t secrets' volCtx' fs :
  g_ByProcess = false ->
  runs (JfsMount fuel volumeID target (Some secrets) volCtx options) t (Done (secrets', volCtx', Ok fs)) ->
  illegal_access target = false /\
  (forall k, HasPrefix k "juicefs" = false -> nil_map volCtx' !! k = nil_map volCtx !! k) /\
  exists uniqueId podName t0 t1 t2 t3, t = t0 ++ t1 ++ t2 ++ t3 /\
    runs (getUniqueId volumeID) t1 (Done (Ok uniqueId)) /\ mount_directory uniqueId podName (fs_MountPath fs) /\
    referenced target podName t2 /\ mount_ready (fs_MountPath fs) t3.
Proof.
  intros Hb (t1 & t2 & [e|] & -> & Hv & Hr)%runs_bind_done; [by destruct Hr as [_ [=]]|].
  assert (illegal_access target = false) as Hi.
  { unfold validTarget in Hv. destruct (illegal_access target); [by destruct Hv as [_ [=]]|done]. }
  apply runs_bind_done in Hr as (t3 & t4 & [[sec ctx] [s|e]] & -> & Hg & Hr); [|by destruct Hr as [_ [=]]].
  apply genJfsSettings_ok in Hg as (Hu & Ht & Hctx & v1 & v2 & v3 & -> & Hid). rewrite Hb in Hu.
  apply runs_bind_done in Hr as (t5 & t6 & r & -> & Hr & [-> [= _ -> <-]]).
  apply runs_bindR_ok in Hr as (t7 & t8 & app & -> & _ & Hr).
  apply runs_bind_done in Hr as (t9 & t10 & [s' [path|e]] & -> & Hm & Hr); [|by destruct Hr as [_ [=]]].
  destruct Hr as [-> [= ->]]. apply MountFs_ok in Hm as (podName & t11 & t12 & -> & Hd & Hf & Hm); [|done].
  split; [done|]. split; [done|]. rewrite Ht in Hf.
  exists (js_UniqueId s), podName, (t1 ++ v1), v2, (v3 ++ t7 ++ t11), t12.
  split_and!; [by rewrite !app_nil_r, <- !app_assoc|done|done| |done]. by do 2 apply referenced_after.
Qed.

Lemma BindTarget_ok fs source target t :
  runs (BindTarget fs source target) t (Done None) -> bound (fs_MountPath fs) source target t.
Proof.
  assert (forall t, runs (bind_mount source target) t (Done None) ->
    ev (S := jfs) (Mount source target fsTypeNone ["bind"]) None ∈ t) as Hbind.
  { intros t1 (r & [[-> ->]|(e & r' & -> & ->)] & [=])%bind_mount_runs. by left. }
  intros ([infos|e] & t' & -> & Hr); [|by destruct Hr as [_ [=]]]. prog_simpl_in Hr.
  destruct (mount_minor (fs_MountPath fs) infos) as [n|] eqn:En; [|by destruct Hr as [_ [=]]].
  apply mount_minor_shown in En as (m & Hm & <-). unfold target_minor in Hr. destruct (existsb _ infos) eqn:Ex.
  - apply mounted_existsb in Ex. destruct (mi_minor <$> last infos) as [n|] eqn:El; [|left; right; by apply Hbind].
    destruct (Z.eqb_spec n (mi_minor m)) as [->|].
    + right. exists infos, m. split_and!; [by left|done..].
    + destruct Hr as (r & t2 & -> & Hr). left. do 2 right. by apply Hbind.
  - left. right. by apply Hbind.
Qed.

(** ** The node service *)

(** C4: what a published volume is.  When [NodePublishVolume] with secrets
    succeeds in pod mode, the target is a legal path, and the run has, in this
    order: determined the unique id of the volume, put the reference of the
    target on a live mount pod (or created the pod with it), seen the root of
    the JuiceFS file system at the directory that belongs to the unique id and
    this pod, and either bound the sub path of the request below this directory
    to the target, or read a mount table that has an entry of the target and
    whose last entry, whatever its mount point, is on the device of the file
    system ([bound]: then nothing is bound, see [BindTarget]; a target without an entry is
    always bound).  No annotation of a claim changes the sub path.  Requests
    without secrets are mounted in the driver's process and not covered. *)
Theorem NodePublishVolume_publishes fuel req t secrets :
  g_ByProcess = false -> np_Secrets req = Some secrets ->
  runs (NodePublishVolume fuel req) t (Done None) ->
  np_TargetPath req <> "" /\ illegal_access (np_TargetPath req) = false /\
  exists uniqueId podName path t0 t1 t2 t3 t4, t = t0 ++ t1 ++ t2 ++ t3 ++ t4 /\
    runs (getUniqueId (np_VolumeId req)) t1 (Done (Ok uniqueId)) /\
    mount_directory uniqueId podName path /\
    referenced (np_TargetPath req) podName t2 /\
    mount_ready path t3 /\
    bound path (path_Join [path; sget (nil_map (np_VolumeContext req)) "subPath"]) (np_TargetPath req) t4.
Proof.
  intros Hb Hs. unfold NodePublishVolume. case_bool_decide as Ht; [by intros [_ [=]]|].
  destruct (np_Capability req) as [c|]; [|by intros [_ [=]]]. destruct (negb _); [by intros [_ [=]]|].
  intros (t1 & t2 & [e|] & -> & _ & Hr)%runs_bind_done; [by destruct Hr as [_ [=]]|].
  rewrite Hs in Hr. apply runs_bind_done in Hr as (t3 & t4 & [[sec ctx] [fs|e]] & -> & Hm & Hr); [|by destruct Hr as [_ [=]]].
  apply JfsMount_ok in Hm as (Hi & Hctx & u & podName & v0 & v1 & v2 & v3 & -> & Hu & Hd & Hf & Hm); [|done].
  apply runs_bind_done in Hr as (t7 & t8 & [source|e] & -> & Hc & Hr); [|by destruct Hr as [_ [=]]].
  apply runs_thenR_ok in Hc as (t9 & t10 & -> & _ & [-> [= ->]]).
  apply runs_bind_done in Hr as (t11 & t12 & [e|] & -> & Hbt & Hr); [by destruct Hr as [_ [=]]|].
  apply BindTarget_ok in Hbt. split; [done|]. split; [done|].
  assert (sget (nil_map ctx) "subPath" = sget (nil_map (np_VolumeContext req)) "subPath") as Hsub.
  { unfold sget. by rewrite Hctx. }
  rewrite Hsub in Hbt. exists u, podName, (fs_MountPath fs), (t1 ++ v0), v1, v2, (v3 ++ t9), (t11 ++ t12).
  split_and!; [by rewrite app_nil_r, <- !app_assoc|done|done|done|..].
  - destruct Hm as (fi & dev & Hin & Hfi). exists fi, dev. split; [|done]. apply elem_of_app. by left.
  - destruct Hbt as [Hin|(infos & m & Hin & Hmm)]; [left|right; exists infos, m; split; [|done]]; apply elem_of_app; by left.
Qed.

(** ** Unpublishing *)

Definition unmounted (target : string) (t : jtrace) : Prop :=
  exists t0 out e t1, t = t0 ++ ev (S := jfs) (LazyUmount target) (out, Some e) :: ev (S := jfs) (CleanupMountPoint target) None :: t1 /\
    not_mounted out = true.

Definition vanished (podName : string) (t : jtrace) : Prop :=
  exists e, ev (S := jfs) (GetPod Caller podName g_Namespace) (Err e) ∈ t /\ IsNotFound e = true.

(** The mount pod is gone, was seen without the reference, or had it removed. *)
Definition released (target podName : string) (t : jtrace) : Prop :=
  vanished podName t \/
  exists p, seen_pod podName g_Namespace p ∈ t /\
    ((exists po, seen_pod (pod_name p) (pod_namespace p) po ∈ t /\ pod_annotations po !! GetReferenceKey target = None) \/
     ev (S := jfs) (PatchPod p (JSONPatch [RemovePath (annotation_path (GetReferenceKey target))])) None ∈ t).

(** The mount pod is gone, still used, deleted, or to be deleted later. *)
Definition disposed (podName : string) (t : jtrace) : Prop :=
  vanished podName t \/
  exists p, seen_pod podName g_Namespace p ∈ t /\
    (GetAllRefKeys p <> ∅ \/ ev (S := jfs) (DeletePod p) None ∈ t \/ is_Some (pod_annotations p !! DeleteDelayTimeKey)).

Lemma disposed_app podName t1 t2 t3 : disposed podName t2 -> disposed podName (t1 ++ t2 ++ t3).
Proof. unfold disposed, vanished. set_solver. Qed.

Lemma del_ref_attempt_ok pod target t :
  runs (del_ref_attempt pod (GetReferenceKey target)) t (Done None) ->
  (exists po, seen_pod (pod_name pod) (pod_namespace pod) po ∈ t /\ pod_annotations po !! GetReferenceKey target = None) \/
  ev (S := jfs) (PatchPod pod (JSONPatch [RemovePath (annotation_path (GetReferenceKey target))])) None ∈ t.
Proof.
  intros ([po|e] & t1 & -> & Hr); [|by destruct Hr as [_ [=]]]. prog_simpl_in Hr.
  destruct (pod_annotations po !! GetReferenceKey target) eqn:Ea.
  - destruct Hr as (a & t2 & -> & -> & [= <-]). right. right. by left.
  - left. exists po. split; [by left|done].
Qed.

Lemma UmountTarget_ok fuel target podName t :
  runs (UmountTarget fuel target podName) t (Done None) ->
  unmounted target t /\ (podName <> "" -> released target podName t).
Proof.
  intros (t1 & t2 & -> & Hl & Hr)%runs_thenE_ok. apply umount_loop_ok in Hl as (t0 & out & e & -> & Hm).
  apply runs_thenE_ok in Hr as (t3 & t4 & -> & (a & t5 & -> & -> & [= <-]) & Hr). split.
  - exists t0, out, e, t4. split; [|done]. by rewrite <-app_assoc.
  - intros Hn. rewrite bool_decide_false in Hr by done. destruct Hr as ([pod|er] & t6 & -> & Hr); prog_simpl_in Hr.
    + apply RetryOnConflict_retried, retried_ok in Hr as (t7 & t8 & -> & Hr). right. exists pod.
      split; [set_solver|]. apply del_ref_attempt_ok in Hr as [(po & Hin & Ha)|Hin]; [left; exists po; split; [|done]|right]; set_solver.
    + left. exists er. destruct (IsNotFound er) eqn:En; [|by destruct Hr as [_ [=]]]. split; [|done]. set_solver.
Qed.

Lemma jumount_attempt_ok podName t : runs (jumount_attempt podName) t (Done None) -> disposed podName t.
Proof.
  intros ([p|e] & t1 & -> & Hr); prog_simpl_in Hr; unfold disposed.
  - right. exists p. split; [by left|]. destruct (Nat.eqb_spec (GetRef p) 0) as [Hz|Hz]; cbn [negb] in Hr.
    + apply runs_bind_done in Hr as (t2 & t3 & [b [e|]] & -> & Hd & Hr); [by destruct b, Hr as [_ [=]]|].
      destruct b.
      * right; right. unfold ShouldDelay in Hd. destruct (pod_annotations p !! DeleteDelayTimeKey); [by eexists|].
        by destruct Hd as [_ [=]].
      * right; left. destruct Hr as ([e|] & t4 & -> & Hr); [by destruct Hr as [_ [=]]|]. right. apply elem_of_app. right. by left.
    + left. intros E. unfold GetRef in Hz. rewrite E in Hz. by apply Hz, map_size_empty.
  - left. exists e. destruct (IsNotFound e) eqn:En; [|by destruct Hr as [_ [=]]]. split; [by left|done].
Qed.

(** C5: what an unpublished volume is.  When [NodeUnpublishVolume] succeeds in
    pod mode, the run has, in this order: found the mount pods of the volume,
    of which the first with the reference of the target is taken; under the
    lock of that pod unmounted the target until nothing was mounted on it and
    cleaned it up; and, if there was such a pod, removed the reference from it
    (or seen it gone), and then seen that the pod is still referenced, or
    deleted it, or left it to its deletion delay. *)
Theorem NodeUnpublishVolume_unpublishes fuel volumeId target t :
  g_ByProcess = false ->
  runs (NodeUnpublishVolume fuel volumeId target) t (Done None) ->
  target <> "" /\
  exists uniqueId pods podName t0 t1 t2 t3, t = t0 ++ t1 ++ ev (S := jfs) (Lock (GetPodLock podName)) tt :: t2 ++ t3 ++
      [ev (S := jfs) (Unlock (GetPodLock podName)) tt] /\
    runs (mount_pods uniqueId) t1 (Done (Ok pods)) /\ podName = pod_of_target target pods /\
    unmounted target t2 /\
    (if bool_decide (podName = "") then t3 = [] else released target podName t2 /\ disposed podName t3).
Proof.
  intros Hb. unfold NodeUnpublishVolume. case_bool_decide as Ht; [by intros [_ [=]]|].
  intros (t1 & t2 & [e|] & -> & Hr & [-> Hn])%runs_bind_done; [done|]. clear Hn. split; [done|].
  apply runs_bindE_ok in Hr as (t3 & t4 & u & -> & _ & Hr). rewrite Hb in Hr.
  apply runs_bindE_ok in Hr as (t5 & t6 & pods & -> & Hp & (t7 & Hr & ->)%runs_locked). cbn [unlock_events].
  apply runs_thenE_ok in Hr as (t8 & t9 & -> & Hu & Hr). apply UmountTarget_ok in Hu as [Hu Hrel].
  exists u, pods, (pod_of_target target pods), t3, t5, t8, t9.
  split_and!; [by rewrite app_nil_r, <- !app_assoc|done|done|done|].
  case_bool_decide as Hn; [by destruct Hr as [-> _]|]. split; [by apply Hrel|].
  apply runs_bindE_ok in Hr as (t10 & t11 & refs & -> & Hg & Hr).
  destruct (Nat.eqb_spec refs 0) as [->|Hz].
  - rewrite <-(app_nil_r t11). apply disposed_app.
    apply RetryOnConflict_retried, retried_ok in Hr as (t12 & t13 & -> & Hr). rewrite <-(app_nil_r t13).
    by apply disposed_app, jumount_attempt_ok.
  - apply (disposed_app _ []). destruct Hg as ([p|e] & t12 & -> & Hg); prog_simpl_in Hg.
    + destruct Hg as [-> [= ->]]. right. exists p. split; [by left|]. left. intros E. apply Hz. unfold GetRef. by rewrite E.
    + by destruct (IsNotFound e), Hg as [_ [= ?]].
Qed.
End publish.
