(* ===== verification/References.v ===== *)
(** * References of a mount pod refine a set of targets

    What the node service promises about a shared mount pod: it holds a set of
    targets, a publish adds one, an unpublish removes one, and the pod is
    unused when the set is empty.  [AddRefOfMount] and [UmountTarget] implement
    this with annotations of the pod, through reads and patches of the API
    server, with retries and errors.  [api] is the API server the refinement is
    proved against: reads answer the stored pod, a patch is applied at once or
    fails without effect. *)
From S2P Require Import Prelude.
From S2P Require Import GoStrings.
From S2P Require Import Hash.
From S2P Require Import K8s.
From S2P Require Import Prog.
From S2P Require Import Effects.
From S2P Require Import Config.
From S2P Require Import Util.
From S2P Require Import PodUtil.
From S2P Require Import PodMount.
From S2P Require Import Cluster.
From S2P Require Import PodMountFacts.
#[local] Open Scope Z_scope.
#[local] Open Scope go_scope.
#[local] Opaque GetReferenceKey.

(** ** The API server *)

Abbreviation store := (gmap (string * string) Pod).

(** The event [e] takes the stored pods from [w] to [w']. *)
Definition api (e : event jfs) (w w' : store) : Prop :=
  match e with
  | existT c a =>
      match c return jfs_answer c -> Prop with
      | GetPod _ n ns => fun a =>
          w' = w /\ match a with Ok p => w !! (n, ns) = Some p | Err e => IsNotFound e = true -> w !! (n, ns) = None end
      | CreatePod p => fun a =>
          match a with
          | Ok _ => w !! key_of p = None /\ w' = <[ key_of p := p ]> w
          | Err _ => w' = w
          end
      | PatchPod p d => fun a =>
          match a with
          | None => exists q, w !! key_of p = Some q /\
                      w' = partial_alter (fun _ => settle (with_meta (apply_patch d (p_meta q)) q)) (key_of p) w
          | Some _ => w' = w
          end
      | DeletePod p => fun a =>
          match a with
          | None => exists q ts, w !! key_of p = Some q /\
                      w' = partial_alter (fun _ => settle (with_meta (with_deletion (Some ts) (p_meta q)) q)) (key_of p) w
          | Some _ => w' = w
          end
      | _ => fun _ => w' = w
      end a
  end.

(** The reference environment is such a server. *)
Lemma serve_api w c : api (ev (S := jfs) c (serve w c).2) (cl_pods w) (cl_pods (serve w c).1).
Proof.
  destruct c; try reflexivity; cbn -[settle apply_patch].
  - by destruct (cl_pods w !! (name, ns)).
  - by destruct (cl_pods w !! key_of p) eqn:E.
  - destruct (cl_pods w !! key_of p) eqn:E; [|done]. by eexists.
  - destruct (cl_pods w !! key_of p) eqn:E; [|done]. by eexists _, _.
  - by case_match.
  - by case_match.
Qed.

Fixpoint replay (w : store) (t : jtrace) (w' : store) : Prop :=
  match t with
  | [] => w' = w
  | e :: t => exists w1, api e w w1 /\ replay w1 t w'
  end.

Lemma replay_app w t1 t2 w' : replay w (t1 ++ t2) w' <-> exists w1, replay w t1 w1 /\ replay w1 t2 w'.
Proof.
  revert w. induction t1 as [|e t1 IH]; intros w; cbn; [split; [by eexists|by intros (? & -> & ?)]|].
  setoid_rewrite IH. naive_solver.
Qed.

(** Every run in the reference environment is one against the server. *)
Lemma exec_replay {A} w (p : M A) :
  replay (cl_pods w) (exec_trace (S := jfs) serve w p) (cl_pods (exec_state (S := jfs) serve w p)).
Proof.
  revert w. induction p as [a|s|c k IH]; intros w; [done..|].
  unfold exec_trace, exec_state in *. cbn. pose proof (serve_api w c) as Ha.
  destruct (serve w c) as [w1 a]. specialize (IH a w1).
  destruct (exec (S := jfs) serve w1 (k a)) as [[w2 t] o].
  by exists (cl_pods w1).
Qed.

Definition pod_write (c : jfs_cmd) : bool :=
  match c with CreatePod _ | PatchPod _ _ | DeletePod _ => true | _ => false end.

Lemma api_read e w w' : pod_write (projT1 e) = false -> api e w w' -> w' = w.
Proof. destruct e as [[] a]; cbn; try done. by intros _ [-> _]. Qed.

Lemma replay_read {A} (p : M A) t o w w' :
  avoids (S := jfs) pod_write p -> runs p t o -> replay w t w' -> w' = w.
Proof.
  intros Hp Hr. pose proof (avoids_runs _ _ _ _ Hp Hr) as Hn. apply never_spec in Hn. clear Hp Hr.
  revert w. induction Hn as [|e t He _ IH]; intros w; cbn; [done|]. intros (w1 & Ha & Hw).
  apply api_read in Ha as ->; [|done]. by apply IH.
Qed.

(** ** The abstract state *)

Definition targets (p : Pod) : gset string := map_img (GetAllRefKeys p).

Lemma elem_of_targets p t : t ∈ targets p <-> pod_annotations p !! GetReferenceKey t = Some t.
Proof.
  unfold targets, GetAllRefKeys. rewrite elem_of_map_img. setoid_rewrite map_lookup_filter_Some. unfold is_ref.
  split.
  - intros (k & Hk & E%bool_decide_eq_true). cbn [fst snd] in E. by rewrite <-E.
  - intros Ht. exists (GetReferenceKey t). split; [done|]. by apply bool_decide_eq_true.
Qed.

(** [GetRef] counts the targets. *)
Lemma GetRef_targets p : GetRef p = size (targets p).
Proof.
  unfold GetRef, targets. rewrite map_img_alt_L, size_list_to_set; [by rewrite length_fmap, length_map_to_list|].
  apply NoDup_fmap_2_strong; [|apply NoDup_map_to_list].
  intros [k v] [k' v'] Hk%elem_of_map_to_list Hk'%elem_of_map_to_list. cbn. intros ->.
  apply map_lookup_filter_Some in Hk as [_ E%bool_decide_eq_true], Hk' as [_ E'%bool_decide_eq_true]. cbn [fst snd] in *. congruence.
Qed.

(** A publish and an unpublish of a target. *)
Inductive ref_op := Acquire (target : string) | Drop (target : string).
Definition op_target (op : ref_op) : string := match op with Acquire t | Drop t => t end.
Definition spec (op : ref_op) (T : gset string) : gset string :=
  match op with Acquire t => {[ t ]} ∪ T | Drop t => T ∖ {[ t ]} end.

(** An operation that fails leaves the set alone. *)
Definition spec_result (op : ref_op) (r : option error) (T : gset string) : gset string :=
  match r with None => spec op T | Some _ => T end.

(** The annotations of the keys of the targets [U] are references. *)
Definition sane (U : gset string) (p : Pod) : Prop :=
  forall t, t ∈ U -> pod_annotations p !! GetReferenceKey t = None \/ pod_annotations p !! GetReferenceKey t = Some t.

Section references.
Context `{Globals} `{Retry} (U : gset string).

(** No two targets have the same key: their hashes do not collide. *)
Context (HU : forall t t', t ∈ U -> t' ∈ U -> GetReferenceKey t = GetReferenceKey t' -> t = t').

(** The mount pod [name] is stored, as a pod of that name that is not deleted. *)
Definition live (name : string) (w : store) (p : Pod) : Prop :=
  w !! (name, g_Namespace) = Some p /\ key_of p = (name, g_Namespace) /\ DeletionTimestamp (p_meta p) = None /\ sane U p.

Definition annotated (m : option smap) (p : Pod) : Pod := with_meta (with_annotations m (p_meta p)) p.

(** A patch of the annotations of the pod. *)
Lemma patch_live name w p d m :
  live name w p -> sane U (annotated m p) -> apply_patch d (p_meta p) = with_annotations m (p_meta p) ->
  partial_alter (fun _ => settle (with_meta (apply_patch d (p_meta p)) p)) (name, g_Namespace) w =
    <[ (name, g_Namespace) := annotated m p ]> w /\
  live name (<[ (name, g_Namespace) := annotated m p ]> w) (annotated m p).
Proof.
  intros (Hw & Hk & Hd & _) Hs ->. split.
  - unfold insert, map_insert. apply partial_alter_ext. intros x _. unfold settle. cbn. by rewrite Hd.
  - split_and!; [apply lookup_insert_eq|done|done|done].
Qed.

(** Adding the annotation of a reference, dropping it. *)
Lemma targets_add t p :
  t ∈ U -> sane U p -> let p' := annotated (Some (with_ref t (pod_annotations p))) p in
  sane U p' /\ targets p' = {[ t ]} ∪ targets p.
Proof.
  intros Ht Hs p'. assert (forall k, pod_annotations p' !! k = with_ref t (pod_annotations p) !! k) as Ha by done.
  split.
  - intros u Hu. rewrite Ha, with_ref_spec, decide_False by apply ref_key_not_delay.
    case_decide as E; [|by apply Hs]. right. by rewrite (HU u t Hu Ht E).
  - apply set_eq. intros u. rewrite elem_of_union, elem_of_singleton, !elem_of_targets, Ha, with_ref_spec.
    rewrite decide_False by apply ref_key_not_delay. case_decide as E.
    + split; [intros [= ->]; by left|]. intros [->|Hin]; [done|]. rewrite E in Hin.
      destruct (Hs t Ht) as [Hn|Hy]; congruence.
    + split; [by right|]. intros [->|?]; done.
Qed.

Lemma targets_drop t p :
  t ∈ U -> sane U p -> let p' := annotated (delete (GetReferenceKey t) <$> Annotations (p_meta p)) p in
  sane U p' /\ targets p' = targets p ∖ {[ t ]}.
Proof.
  intros Ht Hs p'. assert (pod_annotations p' = delete (GetReferenceKey t) (pod_annotations p)) as Ha.
  { unfold p', pod_annotations, nil_map. cbn. destruct (Annotations (p_meta p)); [done|]. cbn. by rewrite delete_empty. }
  split.
  - intros u Hu. rewrite Ha, lookup_delete. case_decide; [by left|by apply Hs].
  - apply set_eq. intros u. rewrite elem_of_difference, elem_of_singleton, !elem_of_targets, Ha, lookup_delete.
    case_decide as E; [|split; [intros Hin; split; [done|congruence]|by intros []]].
    split; [done|]. intros [Hin Hne]. exfalso. apply Hne. rewrite <-E in Hin.
    destruct (Hs t Ht) as [Hn|Hy]; congruence.
Qed.

(** [f] refines the operation [op] on the pod [name]. *)
Definition refines (name : string) (op : ref_op) (f : M (option error)) : Prop :=
  forall w p t r w', live name w p -> runs f t (Done r) -> replay w t w' ->
  exists p', live name w' p' /\ w' = <[ (name, g_Namespace) := p' ]> w /\
    targets p' = spec_result op r (targets p) /\ (is_Some r -> w' = w).

Lemma live_same name w p : live name w p -> w = <[ (name, g_Namespace) := p ]> w.
Proof. intros [Hw _]. by rewrite insert_id. Qed.

Lemma refines_id name op w p :
  live name w p -> forall r, (r = None -> spec op (targets p) = targets p) ->
  exists p', live name w p' /\ w = <[ (name, g_Namespace) := p' ]> w /\
    targets p' = spec_result op r (targets p) /\ (is_Some r -> w = w).
Proof.
  intros Hl r Hr. exists p. split_and!; [done|by apply live_same| |done]. destruct r; [done|]. symmetry. by apply Hr.
Qed.

Lemma add_ref_refines name t : t ∈ U -> refines name (Acquire t) (add_ref_attempt t name).
Proof.
  intros Ht w p tr r w' Hl (a & t' & -> & Hr) (w1 & [-> Ha] & Hw). prog_simpl_in Hr.
  destruct a as [old|e]; [|destruct Hr as [-> [= ->]]; cbn in Hw; subst; by apply refines_id].
  pose proof Hl as (Hp & Hk & Hd & Hs). rewrite Hp in Ha. injection Ha as <-.
  rewrite (bool_decide_false (is_Some _)) in Hr by (rewrite Hd; by intros []).
  destruct (pod_annotations p !! GetReferenceKey t) as [v|] eqn:Ek.
  - destruct Hr as [-> [= ->]]. cbn in Hw. subst. apply refines_id; [done|]. intros _. cbn.
    apply subseteq_union_1_L, singleton_subseteq_l, elem_of_targets. rewrite Ek.
    destruct (Hs t Ht); congruence.
  - destruct Hr as (r' & t'' & -> & -> & [= ->]). cbn [replay] in Hw. destruct Hw as (w1 & Ha & ->).
    destruct r' as [e|]; cbn [api ev] in Ha; [subst; by apply refines_id|].
    destruct Ha as (q & Hq & ->). rewrite Hk in *. rewrite Hp in Hq. injection Hq as <-.
    destruct (targets_add t p Ht Hs) as [Hs' Ht'].
    destruct (patch_live name w p (JSONPatch [ReplaceMap "/metadata/annotations" (Some (with_ref t (pod_annotations p)))])
      (Some (with_ref t (pod_annotations p))) Hl Hs' eq_refl) as [E Hl'].
    unfold with_ref in E at 1. rewrite E. eexists. split_and!; [done|done|done|]. by intros [].
Qed.

Lemma del_ref_refines name t q :
  t ∈ U -> key_of q = (name, g_Namespace) -> refines name (Drop t) (del_ref_attempt q (GetReferenceKey t)).
Proof.
  intros Ht Hq w p tr r w' Hl (a & t' & -> & Hr) (w1 & [-> Ha] & Hw). prog_simpl_in Hr.
  destruct a as [old|e]; [|destruct Hr as [-> [= ->]]; cbn in Hw; subst; by apply refines_id].
  pose proof Hl as (Hp & Hk & Hd & Hs). change (pod_name q, pod_namespace q) with (key_of q) in Ha.
  rewrite Hq, Hp in Ha. injection Ha as <-.
  destruct (pod_annotations p !! GetReferenceKey t) as [v|] eqn:Ek.
  - destruct Hr as (r' & t'' & -> & -> & [= ->]). cbn [replay] in Hw. destruct Hw as (w1 & Ha & ->).
    destruct r' as [e|]; cbn [api ev] in Ha; [subst; by apply refines_id|].
    destruct Ha as (q' & Hq' & ->). rewrite Hq in *. rewrite Hp in Hq'. injection Hq' as <-.
    destruct (targets_drop t p Ht Hs) as [Hs' Ht'].
    destruct (patch_live name w p (JSONPatch [RemovePath (annotation_path (GetReferenceKey t))])
      (delete (GetReferenceKey t) <$> Annotations (p_meta p)) Hl Hs') as [E Hl'].
    { cbn [apply_patch foldl apply_op]. unfold annotation_path. by rewrite TrimPrefix_app. }
    cbn [map] in *. rewrite E. eexists. split_and!; [done|done|done|]. by intros [].
  - destruct Hr as [-> [= ->]]. cbn in Hw. subst. apply refines_id; [done|]. intros _. cbn.
    apply set_eq. intros u. rewrite elem_of_difference, elem_of_singleton, elem_of_targets. split; [by intros []|].
    intros Hu. split; [done|]. intros ->. congruence.
Qed.

Lemma retried_refines name op f : refines name op f -> refines name op (RetryOnConflict f).
Proof.
  intros Hf w p t r w' Hl Hr%RetryOnConflict_retried. remember (Done r) as o eqn:Ho. revert w Hl.
  induction Hr as [t o Hr|t1 e d u t2 o H1' He Hr IH]; intros w Hl Hw; subst; [by eapply Hf|].
  apply replay_app in Hw as (w1 & Hw1 & (w2 & Hs & Hw2)). cbn in Hs. subst w2.
  destruct (Hf _ _ _ _ _ Hl H1' Hw1) as (_ & _ & _ & _ & Hsame). rewrite Hsame in * by done. by apply IH.
Qed.

Lemma runs_thenE_done (p q : M (option error)) t r :
  runs (thenE p q) t (Done r) ->
  exists t1 t2 a, t = t1 ++ t2 /\ runs p t1 (Done a) /\
    match a with None => runs q t2 (Done r) | Some e => t2 = [] /\ r = Some e end.
Proof.
  intros (t1 & t2 & a & -> & H1 & H2)%runs_bind_done. exists t1, t2, a. split_and!; [done..|].
  destruct a; [by destruct H2 as [-> [= ->]]|done].
Qed.

(** A first part that only reads, and whose errors are the result. *)
Lemma then_refines name op p q :
  avoids (S := jfs) pod_write p -> refines name op q -> refines name op (thenE p q).
Proof.
  intros Hp Hq w x t r w' Hl (t1 & t2 & a & -> & H1' & H2')%runs_thenE_done (w1 & Hw1 & Hw2)%replay_app.
  apply (replay_read p) with (2 := H1') in Hw1 as ->; [|done]. destruct a as [e|]; [|by eapply Hq].
  destruct H2' as [-> ->]. cbn in Hw2. subst. by apply refines_id.
Qed.

Context (fuel : nat).

(** The operations of the provider. *)
Definition perform (name : string) (op : ref_op) : M (option error) :=
  match op with Acquire t => AddRefOfMount t name | Drop t => UmountTarget fuel t name end.

Lemma perform_refines name op : name <> "" -> op_target op ∈ U -> refines name op (perform name op).
Proof.
  intros Hn. destruct op as [t|t]; cbn [op_target perform]; intros Ht.
  - by apply retried_refines, add_ref_refines.
  - unfold UmountTarget. apply then_refines; [|apply then_refines].
    + apply avoids_loop. intros []. unfold umount_round. solve_avoids.
    + solve_avoids.
    + rewrite bool_decide_false by done. intros w p tr r w' Hl (a & t' & -> & Hr) (w1 & [-> Ha] & Hw).
      prog_simpl_in Hr. pose proof Hl as (Hp & Hk & _). destruct a as [q|e].
      * rewrite Hp in Ha. injection Ha as <-. cbn [replay] in Hw.
        eapply (retried_refines name (Drop t)); [|exact Hl|exact Hr|exact Hw]. by apply del_ref_refines.
      * destruct (IsNotFound e) eqn:En; [by rewrite (Ha eq_refl) in Hp|]. destruct Hr as [-> [= ->]].
        cbn in Hw. subst. by apply refines_id.
Qed.

(** C12: the references of a mount pod refine a set of targets.  Start with a
    stored mount pod that is not being deleted, whose annotations at the keys
    of the targets are references, and let publishes ([AddRefOfMount]) and
    unpublishes ([UmountTarget]) of targets be performed one after the other,
    each with any answers of the API server and the system, any errors and any
    number of retries on conflicts.  Then the pod still is stored and not
    being deleted, the other pods are as before, the targets in its
    annotations are those of the abstract operations: added by each successful
    publish, removed by each successful unpublish, left alone by failures;
    and [GetRef] is their number. *)
Theorem references_refine name w p (calls : list (ref_op * jtrace * option error)) w' :
  name <> "" -> live name w p ->
  Forall (fun call => op_target call.1.1 ∈ U /\ runs (perform name call.1.1) call.1.2 (Done call.2)) calls ->
  replay w (mjoin (map (fun call => call.1.2) calls)) w' ->
  exists p', live name w' p' /\ w' = <[ (name, g_Namespace) := p' ]> w /\
    targets p' = foldl (fun T call => spec_result call.1.1 call.2 T) (targets p) calls /\
    GetRef p' = size (targets p').
Proof.
  intros Hn Hl Hc. revert w p Hl. induction Hc as [|[[op t] r] calls [Ht Hr] _ IH]; intros w p Hl Hw.
  - cbn in Hw. subst. exists p. split_and!; [done|by apply live_same|done|apply GetRef_targets].
  - cbn [map mjoin list_join] in Hw. apply replay_app in Hw as (w1 & Hw1 & Hw2).
    destruct (perform_refines name op Hn Ht w p t r w1 Hl Hr Hw1) as (p1 & Hl1 & -> & HT & _).
    destruct (IH _ _ Hl1 Hw2) as (p' & Hl' & -> & HT' & Hg). exists p'. split_and!; [done| | |done].
    + by rewrite insert_insert_eq.
    + cbn [foldl fst snd]. by rewrite <-HT.
Qed.
End references.
