(* ===== verification/Sharing.v ===== *)
(** * Sharing a mount pod: concurrent publishes, unpublishes and collections

    On a node any number of handlers work on the same mount pods at the same
    time: [JMount] adds the reference of a target, [JfsUnmount] removes one and
    deletes the unused pod, [Run] of the pod driver collects the references of
    dead app pods.  Their steps interleave with each other and with the rest of
    the cluster; they share the pod locks and the API server.  This file gives
    the step relation of such a node and proves that the locks make the
    references consistent: only a redeployment deletes a referenced pod, and
    apart from the copies that redeployments work on no reference is lost or
    revived. *)
From S2P Require Import Prelude.
From S2P Require Import GoStrings.
From S2P Require Import Hash.
From S2P Require Import GoTime.
From S2P Require Import K8s.
From S2P Require Import Prog.
From S2P Require Import Effects.
From S2P Require Import Config.
From S2P Require Import Util.
From S2P Require Import PodUtil.
From S2P Require Import Setting.
From S2P Require Import JfsSetting.
From S2P Require Import Builder.
From S2P Require Import MountTable.
From S2P Require Import PodMount.
From S2P Require Import ProcessMount.
From S2P Require Import Juicefs.
From S2P Require Import PodDriver.
From S2P Require Import Cluster.
From S2P Require Import PodDriverFacts.
From S2P Require Import PodMountFacts.
From S2P Require Import JuicefsFacts.
From S2P Require Import References.
#[local] Open Scope Z_scope.
#[local] Open Scope go_scope.
#[local] Opaque GetReferenceKey.

(** ** Critical sections *)

(** The mutex a handler holds, and what it did since it took it. *)
Abbreviation section := (option (Z * jtrace)).
Definition section_step (s : section) (e : event jfs) : section :=
  match projT1 e with
  | Lock x => Some (x, [])
  | Unlock _ => None
  | _ => (fun s => (s.1, s.2 ++ [e])) <$> s
  end.
Definition section_of (t : jtrace) : section := foldl section_step None t.

Lemma section_snoc t e : section_of (t ++ [e]) = section_step (section_of t) e.
Proof. unfold section_of. by rewrite foldl_app. Qed.

(** A patch that leaves the references alone. *)
Definition neutral (d : patch) : Prop :=
  forall p, GetAllRefKeys (with_meta (apply_patch d (p_meta p)) p) = GetAllRefKeys p.

(** What a handler does outside the critical sections. *)
Definition outside (c : jfs_cmd) : Prop :=
  match c with
  | Lock _ | Unlock _ | CreatePod _ | DeletePod _ => False
  | PatchPod _ d => neutral d
  | _ => True
  end.

(** ** The handlers *)

Section sharing.
Context `{Globals} `{Retry} `{QuantityParser} `{SettingCodec} `{MountJobs}.

Inductive handler_call :=
| Publish (fuel : nat) (app : option AppInfo) (s : JfsSetting)
| Unpublish (fuel : nat) (volumeId target : string)
| Collect (fuel : nat) (mit : mountInfoTable) (pod : Pod).

(** The handler has done [t] so far: the beginning of a run.  A collection is
    the run of the pod driver for a pod in the namespace of the mount pods,
    whatever its status: it collects the dead references, and redeploys a pod
    that failed, waits for resources, or was deleted. *)
Definition started (c : handler_call) (t : jtrace) : Prop :=
  match c with
  | Publish fuel app s => exists rest o, runs (JMount fuel app s) (t ++ rest) o
  | Unpublish fuel volumeId target =>
      g_ByProcess = false /\ exists rest o, runs (JfsUnmount fuel volumeId target) (t ++ rest) o
  | Collect fuel mit pod =>
      pod_namespace pod = g_Namespace /\ exists rest o, runs (Run fuel mit pod) (t ++ rest) o
  end.

(** The copies of its pod that the pod driver works on: the one it was called
    with, and what it read of it before. *)
Definition copies (c : handler_call) (h : jtrace) (q : Pod) : Prop :=
  match c with
  | Collect _ _ pod =>
      pod_namespace pod = g_Namespace /\ (q = pod \/ seen_pod (pod_name pod) g_Namespace q ∈ h)
  | _ => False
  end.

(** What it does in the critical section of the mutex [x], after [t], with the
    copies [Q]. *)
Definition ref_patch (c : handler_call) (Q : Pod -> Prop) (name : string) (t : jtrace) (p : Pod) (d : patch) : Prop :=
  match c with
  | Publish _ _ s =>
      (exists t0, t = t0 ++ [seen_pod name g_Namespace p]) /\
      d = JSONPatch [ReplaceMap "/metadata/annotations" (Some (with_ref (TargetPath s) (pod_annotations p)))]
  | Unpublish _ _ target =>
      seen_pod name g_Namespace p ∈ t /\ d = JSONPatch [RemovePath (annotation_path (GetReferenceKey target))]
  | Collect _ mit pod =>
      (p = pod /\ name = pod_name pod /\ exists dels, d = JSONPatch (map (fun k => RemovePath (annotation_path k)) dels) /\
        forall k, k ∈ dels -> (exists v, pod_annotations pod !! k = Some v /\ dead_ref mit (k, v)) \/ k = DeleteDelayAtKey) \/
      (Q p /\ name = pod_name p /\ exists t0 po,
        t = t0 ++ [ev (S := jfs) (GetPod Caller name (pod_namespace p)) (Ok po)] /\
        d = JSONPatch [ReplaceMap "/metadata/annotations" (Some (GetAllRefKeys p ∪ pod_annotations po))])
  end.
Definition unused_seen (name : string) (t : jtrace) (p : Pod) : Prop :=
  exists q t0 t1, t = t0 ++ seen_pod name g_Namespace q :: t1 /\ Forall (fun e => pod_write (projT1 e) = false) t1 /\
    GetAllRefKeys q = ∅ /\ (key_of p = (name, g_Namespace) \/ p = q).
(** Pods are created with the reference of a target, or as the copy of a pod. *)
Definition successor (c : handler_call) (Q : Pod -> Prop) (p : Pod) : Prop :=
  match c with
  | Publish _ _ s => pod_annotations p !! GetReferenceKey (TargetPath s) = Some (TargetPath s)
  | Unpublish _ _ _ => False
  | Collect _ _ _ => exists q, Q q /\ key_of p = key_of q /\ GetAllRefKeys p = GetAllRefKeys q
  end.
(** The copy of a pod that was rejected for the resources it asks for. *)
Definition rejected (Q : Pod -> Prop) (p : Pod) : Prop :=
  Q p /\ IsPodResourceError p = true /\ IsPodHasResource p = true.
Definition inside (c : handler_call) (Q : Pod -> Prop) (x : Z) (t : jtrace) (cmd : jfs_cmd) : Prop :=
  match cmd with
  | Lock _ | Unlock _ => False
  | CreatePod p => x = GetPodLock (pod_name p) /\ successor c Q p
  | DeletePod p => (exists name, x = GetPodLock name /\ unused_seen name t p) \/ rejected Q p
  | PatchPod p d => neutral d \/ exists name, x = GetPodLock name /\ ref_patch c Q name t p d
  | _ => True
  end.

(** The discipline of a handler after the history [h]. *)
Definition lawful (c : handler_call) (h : jtrace) (cmd : jfs_cmd) : Prop :=
  match section_of h with
  | None => match cmd with Lock _ => True | _ => outside cmd end
  | Some (x, t) => match cmd with Unlock y => y = x | _ => inside c (copies c h) x t cmd end
  end.

(** *** Programs under the discipline *)

Lemma copies_app c h h' q : copies c h q -> copies c (h ++ h') q.
Proof. destruct c; [done..|]. intros [Hn [->|Hin]]; (split; [done|]); [by left|right; apply elem_of_app; by left]. Qed.

Lemma inside_mono c (Q Q' : Pod -> Prop) x t cmd : (forall q, Q q -> Q' q) -> inside c Q x t cmd -> inside c Q' x t cmd.
Proof.
  intros HQ. destruct cmd; cbn [inside]; try done.
  - destruct c; cbn [successor]; [done..|]. intros [Hx (q & Hq & Hs)]. split; [done|]. exists q. auto.
  - intros [Hn|(name & Hx & Hp)]; [by left|right]. exists name. split; [done|].
    destruct c; cbn [ref_patch] in *; [done..|]. destruct Hp as [Hp|(Hp & Hr)]; [by left|right]. auto.
  - intros [Hu|(Hp & Hr)]; [by left|right]. split; auto.
Qed.

Lemma outside_lawful c {A} (p : M A) h :
  issues (S := jfs) (fun _ => outside) p [] -> section_of h = None ->
  issues (S := jfs) (lawful c) p h /\ forall t o, runs p t o -> section_of (h ++ t) = None.
Proof.
  intros Hp. assert (issues (S := jfs) (fun _ => outside) p h) as Hp'.
  { clear -Hp. generalize dependent (@nil (event jfs)). revert h. induction p as [a|s|cmd k IH]; intros h t; [done..|].
    intros [Hc Hk]. split; [done|]. intros a. eapply IH, Hk. }
  clear Hp. revert h Hp'. induction p as [a|s|cmd k IH]; intros h Hp Hs.
  - split; [done|]. intros t o [-> _]. by rewrite app_nil_r.
  - split; [done|]. intros t o [-> _]. by rewrite app_nil_r.
  - destruct Hp as [Hc Hk].
    assert (forall a, section_of (h ++ [ev (S := jfs) cmd a]) = None) as Hs'.
    { intros a. rewrite section_snoc, Hs. unfold section_step. cbn. by destruct cmd. }
    split.
    + split; [unfold lawful; rewrite Hs; by destruct cmd|]. intros a. by apply IH.
    + intros t o (a & t' & -> & Hr). change (ev (S := jfs) cmd a :: t') with ([ev (S := jfs) cmd a] ++ t').
      rewrite app_assoc. by eapply IH.
Qed.

Lemma inside_lawful c Q x {A} (p : M A) t h :
  issues (S := jfs) (inside c Q x) p t -> (forall q, Q q -> copies c h q) -> section_of h = Some (x, t) ->
  issues (S := jfs) (lawful c) (with_unlock x p) h.
Proof.
  revert t h. induction p as [a|[m|]|cmd k IH]; intros t h Hp HQ Hs; cbn [with_unlock].
  - split; [|done]. unfold lawful. by rewrite Hs.
  - split; [|done]. unfold lawful. by rewrite Hs.
  - done.
  - destruct Hp as [Hc Hk]. split.
    + unfold lawful. rewrite Hs. apply (inside_mono _ _ _ _ _ _ HQ) in Hc. by destruct cmd.
    + intros a. eapply IH; [apply Hk|intros q Hq; by apply copies_app, HQ|].
      rewrite section_snoc, Hs. unfold section_step. cbn. by destruct cmd.
Qed.

Lemma locked_lawful c Q name {A} (p : M A) h :
  issues (S := jfs) (inside c Q (GetPodLock name)) p [] -> (forall q, Q q -> copies c h q) -> section_of h = None ->
  issues (S := jfs) (lawful c) (locked name p) h /\
  forall t a, runs (locked name p) t (Done a) -> section_of (h ++ t) = None.
Proof.
  intros Hp HQ Hs. split.
  - split; [unfold lawful; by rewrite Hs|]. intros u. eapply inside_lawful; [done|intros q Hq; by apply copies_app, HQ|].
    by rewrite section_snoc.
  - intros t a (t' & _ & ->)%runs_locked. cbn [unlock_events].
    rewrite app_comm_cons, app_assoc, section_snoc. done.
Qed.
(** A part of a handler that starts and ends outside the critical sections. *)
Definition clean (c : handler_call) {A} (p : M A) (h : jtrace) : Prop :=
  issues (S := jfs) (lawful c) p h /\ forall t a, runs p t (Done a) -> section_of (h ++ t) = None.

Lemma clean_then c {A B} (p : M A) (f : A -> M B) h :
  clean c p h -> (forall a t, section_of (h ++ t) = None -> clean c (f a) (h ++ t)) -> clean c (bind p f) h.
Proof.
  intros [Hp Hs] Hf. split.
  - apply issues_bind; [done|]. intros t a Hr. apply Hf. by eapply Hs.
  - intros t b (t1 & t2 & a & -> & H1' & H2')%runs_bind_done. rewrite app_assoc. eapply Hf; [by eapply Hs|done].
Qed.
Lemma clean_bind c {A B} (p : M A) (f : A -> M B) h :
  clean c p h -> (forall a h', section_of h' = None -> clean c (f a) h') -> clean c (bind p f) h.
Proof. intros Hp Hf. apply clean_then; [done|]. intros a t. apply Hf. Qed.

(** One command more. *)
Lemma clean_vis c {A} cmd (k : jfs_answer cmd -> M A) h :
  outside cmd -> section_of h = None ->
  (forall a, section_of (h ++ [ev (S := jfs) cmd a]) = None -> clean c (k a) (h ++ [ev (S := jfs) cmd a])) ->
  clean c (Vis (S := jfs) cmd k) h.
Proof.
  intros Ho Hs Hk.
  assert (forall a, section_of (h ++ [ev (S := jfs) cmd a]) = None) as Hs'.
  { intros a. rewrite section_snoc, Hs. unfold section_step. cbn. by destruct cmd. }
  split.
  - split; [unfold lawful; rewrite Hs; by destruct cmd|]. intros a. by apply Hk.
  - intros t a (x & t' & -> & Hr). change (ev (S := jfs) cmd x :: t') with ([ev (S := jfs) cmd x] ++ t').
    rewrite app_assoc. eapply Hk; [apply Hs'|exact Hr].
Qed.

Lemma clean_outside c {A} (p : M A) h :
  issues (S := jfs) (fun _ => outside) p [] -> section_of h = None -> clean c p h.
Proof. intros Hp Hs. destruct (outside_lawful c p h Hp Hs) as [Hi Ho]. split; [done|]. intros t a. apply Ho. Qed.

Lemma clean_quiet c {A} (p : M A) h : quiet p -> section_of h = None -> clean c p h.
Proof.
  intros Hp. apply clean_outside. revert Hp. apply issues_avoids. by intros t [].
Qed.

Lemma clean_locked c Q name {A} (p : M A) h :
  issues (S := jfs) (inside c Q (GetPodLock name)) p [] -> (forall q, Q q -> copies c h q) -> section_of h = None ->
  clean c (locked name p) h.
Proof. intros Hp HQ Hs. by eapply locked_lawful. Qed.

Lemma inside_quiet c Q x {A} (p : M A) t : quiet p -> issues (S := jfs) (inside c Q x) p t.
Proof. apply issues_avoids. by intros t' []. Qed.

(** A handler without copies. *)
Definition no_copy (q : Pod) : Prop := False.

(** A program that also takes no locks. *)
Lemma issues_lock_free R {A} (p : M A) t :
  lock_free p -> issues (S := jfs) R p t -> issues (S := jfs) (fun t c => R t c /\ is_lock_cmd c = false) p t.
Proof.
  revert t. induction p as [a|s|cmd k IH]; intros t; [done..|]. intros [Hc Hk] [Hi Hr].
  split; [done|]. intros a. by apply IH.
Qed.

(** *** The patches *)

Lemma neutral_annotations k v : (forall t, GetReferenceKey t <> k) -> neutral (MergeAnnotations {[ k := v ]}).
Proof.
  intros Hk p. unfold GetAllRefKeys. apply map_eq. intros i. apply option_eq. intros u.
  rewrite !map_lookup_filter_Some. unfold is_ref. cbn [fst snd].
  enough (i <> k -> pod_annotations (with_meta (apply_patch (MergeAnnotations {[ k := v ]}) (p_meta p)) p) !! i =
                    pod_annotations p !! i) as Ha.
  { split; intros [Hl Hi]; (split; [|done]); rewrite bool_decide_eq_true in Hi;
      (assert (i <> k) as Hik by (intros ->; by destruct (Hk u))); specialize (Ha Hik); congruence. }
  intros Hik. unfold pod_annotations. cbn. rewrite lookup_union_r; [done|]. by apply lookup_singleton_ne.
Qed.

Lemma neutral_delay v : neutral (MergeAnnotations {[ DeleteDelayAtKey := v ]}).
Proof. apply neutral_annotations. intros t. apply ref_key_not_delay. Qed.
Lemma neutral_uuid v : neutral (MergeAnnotations {[ JuiceFSUUID := v ]}).
Proof.
  apply neutral_annotations. intros t E. apply (f_equal String.length) in E. by rewrite GetReferenceKey_length in E.
Qed.
Lemma neutral_labels l : neutral (MergeLabels l).
Proof. done. Qed.

(** *** Publishing *)

Lemma create_or_add_inside fuel0 app0 fuel podName hashVal s s' app t :
  TargetPath s' = TargetPath s ->
  issues (S := jfs) (inside (Publish fuel0 app0 s) no_copy (GetPodLock podName))
    (loop fuel (create_or_add_step podName hashVal (GetReferenceKey (TargetPath s')) s' (NewSecret s') app) tt) t.
Proof.
  intros Ht. eapply (issues_weaken (S := jfs)), issues_lock_free;
    [|apply create_or_add_lock_free|apply create_or_add_issues].
  intros t' [] [Hw Hl]; try done.
  - destruct Hw as (<- & _ & Hr & _). split; [done|]. by rewrite Ht in Hr.
  - destruct Hw as (-> & _ & _ & Hs). right. exists podName. split; [done|]. split; [exact Hs|]. by rewrite Ht.
Qed.

Lemma publish_lawful fuel app s : clean (Publish fuel app s) (JMount fuel app s) [].
Proof.
  unfold JMount. apply clean_bind.
  { apply clean_quiet; [|done]. unfold genMountPodName, GenPodNameByUniqueId.
    pose proof (RandStringRunes_avoids lock_or_pod). solve_avoids; auto. }
  intros [n|e] h Hs; [|by apply clean_quiet]. apply clean_bind.
  { apply clean_outside; [|done]. unfold label_app, setMountLabel, AddPodLabel. destruct app as [a|]; [|done].
    destruct (_ || _); [done|]. split; [done|]. by intros [p|e]. }
  clear h Hs. intros [e|] h Hs; [by apply clean_quiet|]. apply clean_bind.
  { unfold createOrAddRef. destruct (placed_setting s n) as [s'|] eqn:Es; [|by apply clean_quiet].
    apply clean_bind; [|intros e h' Hs'; by apply clean_quiet]. apply (clean_locked _ no_copy); [|by intros q []|done].
    apply create_or_add_inside. unfold placed_setting in Es. apply bind_Some in Es as (x & _ & [= <-]). done. }
  clear h Hs. intros [s' [e|]] h Hs; [by apply clean_quiet|]. apply clean_bind; [|intros e h' Hs'; by apply clean_quiet].
  apply clean_bind.
  { apply clean_quiet; [|done]. unfold waitUtilMountReady, getErrContainerLog, first_log.
    assert (forall f p d, quiet (WaitUtilMountReady f p d)).
    { intros. unfold WaitUtilMountReady, wait_mount_step, DoWithTimeout, go. solve_avoids. }
    solve_avoids; auto. }
  clear h Hs. intros [e|] h Hs; [by apply clean_quiet|]. unfold set_uuid.
  destruct (_ && _); [|by apply clean_quiet]. apply clean_bind.
  { apply clean_quiet; [|done]. unfold PodMount_GetJfsVolUUID. solve_avoids. }
  clear h Hs. intros [uuid|e] h Hs; [|by apply clean_quiet]. apply clean_outside; [|done].
  unfold setUUIDAnnotation, AddPodAnnotation. split; [done|]. intros [p|e]; [|done]. split; [|done]. apply neutral_uuid.
Qed.
(** *** Unpublishing *)

Lemma umount_inside fuel0 volumeId fuel target podName t :
  issues (S := jfs) (inside (Unpublish fuel0 volumeId target) no_copy (GetPodLock podName)) (UmountTarget fuel target podName) t.
Proof.
  apply issues_bind; [apply inside_quiet, avoids_loop; intros []; unfold umount_round; solve_avoids|].
  intros t0 [e|] _; [done|]. apply issues_bind; [apply inside_quiet; solve_avoids|].
  intros t1 [e|] _; [done|]. case_bool_decide; [done|].
  split; [done|]. intros [pod|e]; prog_simpl; [|by destruct (IsNotFound e)].
  set (t2 := _ ++ _). assert (seen_pod podName g_Namespace pod ∈ t2) as Hin.
  { unfold t2. rewrite elem_of_app. right. by left. }
  clearbody t2. eapply (issues_weaken (S := jfs) (fun t c => seen_pod podName g_Namespace pod ∈ t ->
    inside (Unpublish fuel0 volumeId target) no_copy (GetPodLock podName) t c)).
  { intros t' c Hc. apply Hc. apply elem_of_app. by left. }
  apply RetryOnConflict_issues; [done|]. intros t3. split; [done|]. intros [po|e]; prog_simpl; [|done].
  destruct (pod_annotations po !! GetReferenceKey target); [|done]. split; [|done].
  intros Hs. right. by exists podName.
Qed.

Lemma jumount_inside c podName t : issues (S := jfs) (inside c no_copy (GetPodLock podName)) (JUmount podName) t.
Proof.
  apply RetryOnConflict_issues; [done|]. clear t. intros t.
  split; [done|]. intros [p|e]; prog_simpl; [|by destruct (IsNotFound e)].
  destruct (Nat.eqb_spec (GetRef p) 0) as [Hz|]; cbn [negb]; [|done].
  apply map_size_empty_inv in Hz.
  assert (forall t1, Forall (fun e => pod_write (projT1 e) = false) t1 ->
    issues (S := jfs) (inside c no_copy (GetPodLock podName))
      (sys (DeletePod p) ?;; (sys (DeleteSecret (pod_name p +:+ "-secret") (pod_namespace p)) ;;; Ret None))
      ((t ++ [seen_pod podName g_Namespace p]) ++ t1)) as Hdel.
  { intros t1 Ht. split; [|by intros [e|]]. left. exists podName. split; [done|]. exists p, t, t1.
    rewrite <-app_assoc. split_and!; [done|done|done|by right]. }
  unfold ShouldDelay, GetTimeAfterDelay, AddPodAnnotation. fold (seen_pod podName g_Namespace p).
  destruct (pod_annotations p !! DeleteDelayTimeKey) as [d|]; [destruct (pod_annotations p !! DeleteDelayAtKey) as [a|]|].
  - destruct (GetTime a); [|specialize (Hdel [] ltac:(constructor)); rewrite app_nil_r in Hdel; exact Hdel].
    split; [done|]. intros now. prog_simpl. destruct (now <? a0); [done|]. apply Hdel. by repeat constructor.
  - destruct (ParseDuration d); [|specialize (Hdel [] ltac:(constructor)); rewrite app_nil_r in Hdel; exact Hdel].
    split; [done|]. intros now. prog_simpl. split; [left; apply neutral_delay|]. by intros [e|].
  - specialize (Hdel [] ltac:(constructor)). rewrite app_nil_r in Hdel. exact Hdel.
Qed.

Lemma unpublish_lawful fuel volumeId target :
  g_ByProcess = false -> clean (Unpublish fuel volumeId target) (JfsUnmount fuel volumeId target) [].
Proof.
  intros Hb. unfold JfsUnmount. rewrite Hb. apply clean_bind.
  { apply clean_quiet; [|done]. unfold getUniqueId. solve_avoids. }
  intros [u|e] h Hs; [|by apply clean_quiet]. unfold pod_unmount. apply clean_bind.
  { apply clean_quiet; [|done]. unfold mount_pods, GenPodNameByUniqueId. solve_avoids. }
  clear h Hs. intros [pods|e] h Hs; [|by apply clean_quiet]. apply (clean_locked _ no_copy); [|by intros q []|done].
  apply issues_bind; [apply umount_inside|]. intros t1 [e|] _; [done|]. case_bool_decide; [done|].
  apply issues_bind; [apply inside_quiet; unfold m_GetMountRef, podMount, GetMountRef; solve_avoids|].
  intros t2 [refs|e] _; [|done]. destruct (Nat.eqb refs 0); [|done]. apply jumount_inside.
Qed.

(** *** Collecting *)

Lemma gc_inside fuel mit pod ks t :
  pod_namespace pod = g_Namespace ->
  let kvs := entries (pod_annotations pod) ks in
  kvs ≡ₚ map_to_list (pod_annotations pod) ->
  let dels := if negb ((scan_refs mit kvs).2 =? 0) && negb (bool_decide (sget (pod_annotations pod) DeleteDelayAtKey = ""))
              then (scan_refs mit kvs).1 ++ [DeleteDelayAtKey] else (scan_refs mit kvs).1 in
  issues (S := jfs) (inside (Collect fuel mit pod) no_copy (GetPodLock (pod_name pod)))
    (gc_body pod dels (scan_refs mit kvs).2) t.
Proof.
  intros Hns kvs Hp dels.
  assert (forall k, k ∈ dels -> (exists v, pod_annotations pod !! k = Some v /\ dead_ref mit (k, v)) \/ k = DeleteDelayAtKey) as Hd.
  { intros k Hk. assert (k ∈ (scan_refs mit kvs).1 \/ k = DeleteDelayAtKey) as [Hk'|]; [|left|by right].
    { unfold dels in Hk. destruct (_ && _); [|by left].
      apply elem_of_app in Hk as [?| ->%list_elem_of_singleton]; auto. }
    apply scan_refs_dead in Hk' as (v & Hv & Hdead). exists v. split; [|done].
    apply elem_of_map_to_list. by rewrite <-Hp. }
  clearbody dels. unfold gc_body. apply issues_bind.
  - unfold drop_dead_refs. destruct dels as [|k dels]; [done|]. split; [done|]. intros [newPod|e]; prog_simpl; [|done].
    case_bool_decide; [done|]. split; [|done]. right. exists (pod_name pod). split; [done|]. left.
    split_and!; [done..|]. by exists (k :: dels).
  - intros t1 [e|] _; [done|]. destruct (_ && _); [|done]. apply issues_bind.
    + unfold ShouldDelay, GetTimeAfterDelay, AddPodAnnotation.
      destruct (pod_annotations pod !! DeleteDelayTimeKey) as [d|]; [|done].
      destruct (pod_annotations pod !! DeleteDelayAtKey) as [a|]; [by destruct (GetTime a)|].
      destruct (ParseDuration d); [|done]. split; [done|]. intros now. prog_simpl.
      split; [left; apply neutral_delay|]. by intros [e|].
    + intros t2 [[] [e|]] _; try done. unfold delete_unreferenced. split; [done|].
      intros [newPod|e]; prog_simpl; [|done]. case_bool_decide as Hz; [done|].
      apply map_size_empty_iff in Hz. split; [|by intros [e|]]. left. exists (pod_name pod). split; [done|].
      eexists newPod, (t ++ t1 ++ t2), []. split_and!; [|constructor|done|left; by rewrite <-Hns].
      unfold seen_pod. rewrite <-Hns, !app_assoc. done.
Qed.

Lemma off_targets_quiet {A} (p : M A) : avoids (S := jfs) off_targets p -> quiet p.
Proof. apply avoids_weaken. by intros []. Qed.

(** Redeployments: the handlers of pods that are not ready. *)
Lemma neutral_finalizers l : neutral (JSONPatch [ReplaceList "/metadata/finalizers" l]).
Proof. done. Qed.

Lemma redeploy_inside c q t fuel :
  (forall p, key_of p = key_of q -> GetAllRefKeys p = GetAllRefKeys q -> successor c (eq q) p) ->
  IsPodResourceError q = true -> IsPodHasResource q = true ->
  issues (S := jfs) (inside c (eq q) (GetPodLock (pod_name q))) (redeploy_without_resources fuel q) t.
Proof.
  intros Hsuc He Hr. unfold redeploy_without_resources.
  split; [left; apply neutral_finalizers|]. intros r. prog_simpl. split; [by right|]. intros [e|]; prog_simpl; [done|].
  apply issues_bind; [apply inside_quiet, avoids_loop; intros []; unfold wait_deleted_step; solve_avoids|].
  intros t1 [|] _; [|done]. split; [|done]. split; [done|]. by apply Hsuc.
Qed.

Lemma CleanUpCache_quiet fuel pod : quiet (CleanUpCache fuel pod).
Proof.
  unfold CleanUpCache, wait_gone_step, panic. solve_avoids.
  pose proof (CleanCache_no_pod fuel) as Hp. pose proof (CleanCache_lock_free fuel) as Hl.
  match goal with |- avoids _ (CleanCache _ ?i ?u ?v ?d) => specialize (Hp i u v d); specialize (Hl i u v d) end.
  induction (CleanCache _ _ _ _ _) as [a|s|cm k IH]; [done..|].
  destruct Hp as [Hc Hk], Hl as [Hc' Hk']. split; [by destruct cm|auto].
Qed.

Lemma error_clean fuel0 mit0 pod fuel q h :
  copies (Collect fuel0 mit0 pod) h q -> section_of h = None ->
  clean (Collect fuel0 mit0 pod) (podErrorHandler fuel (Some q)) h.
Proof.
  intros Hq Hs. apply (clean_locked _ (eq q)); [|by intros ? <-|done].
  destruct (IsPodResourceError q) eqn:He, (IsPodHasResource q) eqn:Hr; try done.
  apply redeploy_inside; [|done..]. intros p Hk Hp. by exists q.
Qed.

Lemma recreate_inside fuel0 mit0 pod fuel mit q src t :
  issues (S := jfs) (inside (Collect fuel0 mit0 pod) (eq q) (GetPodLock (pod_name q))) (recreate_mount_pod fuel mit q src) t.
Proof.
  unfold recreate_mount_pod. apply issues_bind; [apply inside_quiet, DoWithTimeoutE_avoids; [done..|solve_avoids]|].
  intros t1 e _. apply issues_bind; [apply inside_quiet; unfold UmountPath; solve_avoids|].
  intros t2 [] _. apply issues_bind; [by apply inside_quiet, Overwirte_avoids|].
  intros t3 [p e'] Hp. apply Overwirte_meta in Hp. cbn [fst] in *. split.
  - assert (key_of p = key_of q) as Hk by by unfold key_of, pod_name, pod_namespace; rewrite Hp.
    assert (GetAllRefKeys p = GetAllRefKeys q) as Hr by by unfold GetAllRefKeys, pod_annotations; rewrite Hp.
    split; [by injection Hk as -> _|]. by exists q.
  - intros r. prog_simpl. apply inside_quiet, (avoids_weaken (S := jfs) off_targets); [by intros []|]. solve_avoids.
Qed.

(** The section of a deleted pod that still has references. *)
Lemma deleted_inside fuel0 mit0 pod fuel mit q src t :
  issues (S := jfs) (inside (Collect fuel0 mit0 pod) (eq q) (GetPodLock (pod_name q)))
    (loop fuel (deleted_step fuel mit q src) tt) t.
Proof.
  apply (issues_loop (S := jfs) _ (fun _ _ => True)); [done|]. intros [] t1 _. split; [|done].
  split; [done|]. intros [po|e]; prog_simpl.
  - destruct (is_deleted po); [done|]. split; [|done]. right. exists (pod_name q). split; [done|]. right.
    split; [done|]. split; [done|]. by exists t1, po.
  - destruct (IsTimeout e); [done|]. destruct (IsNotFound e); [|done]. apply issues_bind; [apply recreate_inside|done].
Qed.

Lemma deleted_clean fuel0 mit0 pod fuel mit q h :
  copies (Collect fuel0 mit0 pod) h q -> section_of h = None ->
  clean (Collect fuel0 mit0 pod) (podDeletedHandler fuel mit (Some q)) h.
Proof.
  intros Hq Hs. unfold podDeletedHandler. destruct (ContainsString _ _); [|by apply clean_quiet].
  apply clean_then; [by apply clean_outside; [split|]|]. intros [e|] t1 Hs1; [by apply clean_quiet|].
  apply clean_then; [apply clean_quiet; [|done]; unfold go; solve_avoids; by apply checkMountPodStuck_avoids|].
  intros u t2 Hs2. destruct (IsPodResourceError q); [by apply clean_quiet|].
  destruct (GetMountPathOfPod q) as [[src vol]|]; [|by apply clean_quiet].
  destruct (Annotations (p_meta q)); [|by apply clean_quiet]. case_bool_decide.
  - apply clean_quiet; [|done]. unfold UmountPath, go. pose proof CleanUpCache_quiet.
    solve_avoids; auto. apply DoWithTimeoutE_avoids; [done..|]. solve_avoids.
  - apply (clean_locked _ (eq q)); [apply deleted_inside| |done]. intros ? <-. by do 2 apply copies_app.
Qed.

Lemma handle_clean fuel0 mit0 pod fuel mit st q h :
  copies (Collect fuel0 mit0 pod) h q -> section_of h = None ->
  clean (Collect fuel0 mit0 pod) (handle fuel mit st (Some q)) h.
Proof.
  intros Hq Hs. destruct st; cbn [handle].
  - apply clean_quiet, Hs. apply off_targets_quiet, podReadyHandler_off_targets.
  - by apply error_clean.
  - by apply deleted_clean.
  - by apply error_clean.
Qed.

Lemma collect_lawful fuel mit pod :
  pod_namespace pod = g_Namespace -> clean (Collect fuel mit pod) (Run fuel mit pod) [].
Proof.
  intros Hns. unfold Run. apply clean_then.
  - apply (clean_locked _ no_copy); [|by intros q []|done]. apply issues_bind; [by split|].
    intros t' kvs ([ks Hks] & ? & -> & -> & [= ->]). cbn [proj1_sig]. by apply gc_inside, entries_perm.
  - intros [e|] h Hs; [by apply clean_quiet|]. destruct (_ && _).
    + apply handle_clean; [|done]. split; [done|by left].
    + apply clean_vis; [done..|]. intros [q|e] Hs'; prog_simpl; [|by apply clean_quiet].
      apply handle_clean; [|done]. split; [done|]. right. rewrite Hns. apply elem_of_app. right. by left.
Qed.

(** A handler that has started keeps to the discipline. *)
Lemma started_lawful c t : started c t -> forall t1 e t2, t = t1 ++ e :: t2 -> lawful c t1 (projT1 e).
Proof.
  assert (forall {A} (p : M A) rest o, clean c p [] -> runs p (t ++ rest) o ->
    forall t1 e t2, t = t1 ++ e :: t2 -> lawful c t1 (projT1 e)) as Hgen.
  { intros A p rest o [Hi _] Hr t1 e t2 ->. rewrite <-app_assoc in Hr.
    exact (issues_runs (S := jfs) (lawful c) p [] _ o Hi Hr t1 e (t2 ++ rest) eq_refl). }
  destruct c as [fuel app s|fuel v target|fuel mit pod]; cbn [started].
  - intros (rest & o & Hr). eapply Hgen; [apply publish_lawful|done].
  - intros (Hb & rest & o & Hr). eapply Hgen; [by apply unpublish_lawful|done].
  - intros (Hns & rest & o & Hr). eapply Hgen; [by apply collect_lawful|done].
Qed.
(** ** The node *)

(** The histories of the handlers, who holds which mutex, and the stored pods. *)
Record node := {
  histories : list jtrace;
  mutexes : gmap Z nat;
  stored : store;
}.
Definition start (calls : list handler_call) (w : store) : node :=
  {| histories := map (fun _ => []) calls; mutexes := ∅; stored := w |}.

(** [sync.Mutex]: a free mutex is taken, a mutex is released. *)
Definition mutex_step (i : nat) (e : event jfs) (m m' : gmap Z nat) : Prop :=
  match projT1 e with
  | Lock x => m !! x = None /\ m' = <[ x := i ]> m
  | Unlock x => m' = delete x m
  | _ => m' = m
  end.

(** Stored pods are stored under their names. *)
Definition well_named (w : store) : Prop :=
  forall name p, w !! (name, g_Namespace) = Some p -> key_of p = (name, g_Namespace).
(** What the rest of the cluster does: the kubelet, users and the garbage
    collector of Kubernetes change and remove mount pods, but leave their
    references alone; the pods of other namespaces are arbitrary. *)
Definition world_step (w w' : store) : Prop :=
  well_named w' /\
  forall name p', w' !! (name, g_Namespace) = Some p' ->
    exists p, w !! (name, g_Namespace) = Some p /\ GetAllRefKeys p' = GetAllRefKeys p.

(** Who makes a step. *)
Inductive actor := World | Handler (i : nat) (e : event jfs).

Inductive node_step (calls : list handler_call) (n : node) : actor -> node -> Prop :=
| handler_steps i c h e m' w' :
    calls !! i = Some c -> histories n !! i = Some h -> started c (h ++ [e]) ->
    mutex_step i e (mutexes n) m' -> api e (stored n) w' ->
    node_step calls n (Handler i e)
      {| histories := <[ i := h ++ [e] ]> (histories n); mutexes := m'; stored := w' |}
| world_steps w' :
    world_step (stored n) w' ->
    node_step calls n World {| histories := histories n; mutexes := mutexes n; stored := w' |}.

Inductive reachable (calls : list handler_call) (w : store) : node -> Prop :=
| reach_start : reachable calls w (start calls w)
| reach_step n a n' : reachable calls w n -> node_step calls n a n' -> reachable calls w n'.

(** ** The invariant *)

(** The references of the mount pod [name] stay as they are in the event. *)
Definition leaves (name : string) (c : jfs_cmd) : Prop :=
  match c with
  | CreatePod p => key_of p <> (name, g_Namespace)
  | PatchPod p d => neutral d \/ key_of p <> (name, g_Namespace)
  | _ => True
  end.

Lemma settle_Some p p' : settle p = Some p' -> p' = p.
Proof. unfold settle. destruct (DeletionTimestamp (p_meta p)), (Finalizers (p_meta p)); by intros [= ->]. Qed.

Lemma api_named e w w' : api e w w' -> well_named w -> well_named w'.
Proof.
  intros Ha Hw name p' Hp.
  assert (forall p q r, w !! key_of p = Some q -> key_of r = key_of q ->
    w' = partial_alter (fun _ => settle r) (key_of p) w -> key_of p' = (name, g_Namespace)) as Hset.
  { intros p q r Hq Hk ->. destruct (decide (key_of p = (name, g_Namespace))) as [E|E].
    - rewrite E, lookup_partial_alter_eq in Hp. apply settle_Some in Hp as ->. rewrite Hk. apply Hw. by rewrite <-E.
    - rewrite lookup_partial_alter_ne in Hp by done. by apply Hw. }
  destruct e as [[] a]; cbn -[settle apply_patch] in Ha; try (subst w'; by apply Hw).
  - destruct Ha as [-> _]. by apply Hw.
  - destruct a as [q|]; [|subst; by apply Hw]. destruct Ha as [Hn ->].
    apply lookup_insert_Some in Hp as [[E ->]|[_ Hp]]; [done|by apply Hw].
  - destruct a; [subst; by apply Hw|]. destruct Ha as (q & Hq & E). eapply Hset; [done| |done].
    destruct d as [ops|l|l]; [|done|done]. cbn [apply_patch].
    assert (forall ops m, (Name (foldl (fun m op => apply_op op m) m ops), Namespace (foldl (fun m op => apply_op op m) m ops)) =
              (Name m, Namespace m)) as Hops.
    { clear. induction ops as [|op ops IH]; intros m; [done|]. cbn. rewrite IH.
      destruct op; cbn [apply_op]; try destruct (bool_decide _); done. }
    apply Hops.
  - destruct a; [subst; by apply Hw|]. destruct Ha as (q & ts & Hq & E). eapply Hset; [exact Hq| |exact E]; done.
Qed.

Lemma api_leaves name e w w' p' :
  api e w w' -> leaves name (projT1 e) -> w' !! (name, g_Namespace) = Some p' ->
  exists p, w !! (name, g_Namespace) = Some p /\ GetAllRefKeys p' = GetAllRefKeys p.
Proof.
  intros Ha Hl Hp.
  assert (forall p q r, w !! key_of p = Some q -> GetAllRefKeys r = GetAllRefKeys q ->
    w' = partial_alter (fun _ => settle r) (key_of p) w ->
    exists p, w !! (name, g_Namespace) = Some p /\ GetAllRefKeys p' = GetAllRefKeys p) as Hset.
  { intros p q r Hq Hk ->. destruct (decide (key_of p = (name, g_Namespace))) as [E|E].
    - rewrite E, lookup_partial_alter_eq in Hp. apply settle_Some in Hp as ->. exists q. by rewrite <-E.
    - rewrite lookup_partial_alter_ne in Hp by done. by exists p'. }
  destruct e as [[] a]; cbn -[settle apply_patch] in Ha; try (subst w'; by exists p').
  - destruct Ha as [-> _]. by exists p'.
  - destruct a as [q|]; [|subst; by exists p']. destruct Ha as [Hn ->]. cbn in Hl.
    apply lookup_insert_Some in Hp as [[E ->]|[_ Hp]]; [done|by exists p'].
  - destruct a; [subst; by exists p'|]. destruct Ha as (q & Hq & E). destruct Hl as [Hn|Hn]; [eapply Hset; [exact Hq|apply Hn|exact E]|].
    cbn in Hn. subst w'. rewrite lookup_partial_alter_ne in Hp by done. by exists p'.
  - destruct a; [subst; by exists p'|]. destruct Ha as (q & ts & Hq & E). eapply Hset; [exact Hq| |exact E]; done.
Qed.
(** What is known in the critical section [t] of the mutex [x]: a pod seen has
    the name asked for, and as long as the handler wrote no pod since, the
    references it saw are the stored ones. *)
Definition knows (w : store) (x : Z) (t : jtrace) : Prop :=
  forall name q t0 t1, t = t0 ++ seen_pod name g_Namespace q :: t1 ->
    key_of q = (name, g_Namespace) /\
    (x = GetPodLock name -> Forall (fun e => pod_write (projT1 e) = false) t1 ->
     forall p, w !! (name, g_Namespace) = Some p -> GetAllRefKeys p = GetAllRefKeys q).

Record consistent_node (calls : list handler_call) (n : node) : Prop := {
  named : well_named (stored n);
  holds_mutex i h x t : histories n !! i = Some h -> section_of h = Some (x, t) -> mutexes n !! x = Some i;
  knowing i h x t : histories n !! i = Some h -> section_of h = Some (x, t) -> knows (stored n) x t;
  copied i c h q : calls !! i = Some c -> histories n !! i = Some h -> copies c h q -> pod_namespace q = g_Namespace;
}.

Lemma start_consistent calls w : well_named w -> consistent_node calls (start calls w).
Proof.
  intros Hw. split; [done|..]; cbn.
  - intros i h x t. rewrite list_lookup_fmap. by intros (c & Hi & ->)%fmap_Some.
  - intros i h x t. rewrite list_lookup_fmap. by intros (c & Hi & ->)%fmap_Some.
  - intros i c h q _. rewrite list_lookup_fmap. intros (c' & Hi & ->)%fmap_Some.
    destruct c; [done..|]. by intros [Hns [->|Hin%elem_of_nil]].
Qed.

(** A copy read from the API server is a pod of the namespace. *)
Lemma copies_step c h e q w w' :
  well_named w -> api e w w' -> (forall q, copies c h q -> pod_namespace q = g_Namespace) ->
  copies c (h ++ [e]) q -> pod_namespace q = g_Namespace.
Proof.
  intros Hw Ha Hh. destruct c as [| |fuel mit pod]; [done..|]. intros [Hns [->|Hin]]; [done|].
  apply elem_of_app in Hin as [Hin| <-%list_elem_of_singleton]; [by apply Hh; split; [|right]|].
  destruct Ha as [_ Ha]. apply Hw in Ha. by injection Ha.
Qed.

Lemma knows_world w w' x t : world_step w w' -> knows w x t -> knows w' x t.
Proof.
  intros [_ Hr] Hk name q t0 t1 Ht. destruct (Hk name q t0 t1 Ht) as [Hkey Hs]. split; [done|].
  intros Hx Hf p' Hp'. destruct (Hr _ _ Hp') as (p & Hp & ->). by apply Hs.
Qed.

(** The pod of a patch of references is the mount pod of the section. *)
Lemma ref_patch_key c Q name w x t h p d :
  started c h -> knows w x t -> (forall q, Q q -> pod_namespace q = g_Namespace) ->
  ref_patch c Q name t p d -> key_of p = (name, g_Namespace).
Proof.
  intros Hst Hk HQ. destruct c as [fuel app s|fuel v target|fuel mit pod]; cbn [ref_patch started] in *.
  - intros [(t0 & ->) _]. by destruct (Hk name p t0 []).
  - intros [Hin _]. apply list_elem_of_split in Hin as (t0 & t1 & ->). by destruct (Hk name p t0 t1).
  - intros [(-> & -> & _)|(Hq & -> & _)]; [destruct Hst as (Hns & _)|apply HQ in Hq as Hns]; unfold key_of; by rewrite Hns.
Qed.

(** A step of a handler changes the references of a pod only under its lock. *)
Lemma lawful_leaves c h h' w cmd name :
  started c h' -> lawful c h cmd -> (forall x t, section_of h = Some (x, t) -> knows w x t) ->
  (forall q, copies c h q -> pod_namespace q = g_Namespace) ->
  leaves name cmd \/ exists t, section_of h = Some (GetPodLock name, t).
Proof.
  intros Hst Hl Hk HQ. unfold lawful in Hl. destruct (section_of h) as [[x t]|]; [|by left; destruct cmd; try done; left].
  specialize (Hk x t eq_refl). destruct cmd; try by left.
  - destruct Hl as [-> _]. cbn. destruct (decide (key_of p = (name, g_Namespace))) as [E|E]; [|by left].
    right. exists t. injection E as -> _. done.
  - destruct Hl as [Hn|(name' & -> & Hp)]; [by left; left|].
    pose proof (ref_patch_key _ _ _ _ _ _ _ _ _ Hst Hk HQ Hp) as Hkey. cbn.
    destruct (decide (name' = name)) as [->|Hne]; [right; by exists t|].
    left. right. rewrite Hkey. congruence.
Qed.

(** The handler's own knowledge after its step. *)
Lemma knows_step w w' x t e :
  api e w w' -> is_lock_cmd (projT1 e) = false -> well_named w -> knows w x t -> knows w' x (t ++ [e]).
Proof.
  intros Ha _ Hw Hk name q t0 t1 Ht. destruct t1 as [|e' t1 _] using rev_ind.
  - apply app_inj_tail in Ht as [-> ->]. destruct Ha as [-> Hq]. split; [by apply Hw|].
    intros _ _ p Hp. congruence.
  - rewrite app_comm_cons, app_assoc in Ht. apply app_inj_tail in Ht as [-> ->].
    destruct (Hk name q t0 t1 eq_refl) as [Hkey Hs]. split; [done|].
    intros Hx [Hf He]%Forall_app p Hp. rewrite Forall_singleton in He. rewrite (api_read _ _ _ He Ha) in Hp. by apply Hs.
Qed.

Lemma section_step_Some h e x t :
  section_of (h ++ [e]) = Some (x, t) ->
  (projT1 e = Lock x /\ t = []) \/
  (is_lock_cmd (projT1 e) = false /\ exists t0, section_of h = Some (x, t0) /\ t = t0 ++ [e]).
Proof.
  rewrite section_snoc. unfold section_step. destruct (section_of h) as [[y u]|], e as [[] a]; cbn;
    try (intros [= -> <-]; (by left) || (right; split; [done|by eexists])); try by intros [=].
Qed.

Lemma step_consistent calls n a n' : consistent_node calls n -> node_step calls n a n' -> consistent_node calls n'.
Proof.
  intros [Hn Hm Hk Hq] Hs. destruct Hs as [i c h e m' w' Hc Hh Hst Hmx Ha|w' Hw].
  - assert (lawful c h (projT1 e)) as Hl by by eapply started_lawful.
    assert (forall j hj, <[i := h ++ [e]]> (histories n) !! j = Some hj ->
      (j = i /\ hj = h ++ [e]) \/ (j <> i /\ histories n !! j = Some hj)) as Hj.
    { intros j hj [(-> & <- & _)|[Hne Hj]]%list_lookup_insert_Some; [by left|right; split; [done|done]]. }
    (* who holds what *)
    assert (forall j hj x t, <[i := h ++ [e]]> (histories n) !! j = Some hj -> section_of hj = Some (x, t) ->
      m' !! x = Some j) as Hm'.
    { intros j hj x t [[-> ->]|[Hne Hj']]%Hj Hsec.
      - apply section_step_Some in Hsec as [[He ->]|(Hlk & t0 & Hsec & ->)].
        + unfold mutex_step in Hmx. rewrite He in Hmx. destruct Hmx as [_ ->]. apply lookup_insert_eq.
        + apply (Hm i h) in Hsec; [|done]. unfold mutex_step in Hmx. by destruct (projT1 e); subst.
      - pose proof (Hm _ _ _ _ Hj' Hsec) as Hx. unfold mutex_step in Hmx. unfold lawful in Hl.
        destruct (projT1 e) as []; try (by subst m').
        + destruct Hmx as [Hfree ->]. rewrite lookup_insert_ne; [done|]. intros ->. congruence.
        + subst m'. rewrite lookup_delete_ne; [done|]. intros ->.
          destruct (section_of h) as [[y u]|] eqn:Es; [|done]. subst. pose proof (Hm _ _ _ _ Hh Es). congruence. }
    split; cbn; [by eapply api_named|exact Hm'| |].
    + intros j hj x t [[-> ->]|[Hne Hj']]%Hj Hsec.
      * apply section_step_Some in Hsec as [[He ->]|(Hlk & t0 & Hsec & ->)]; [by intros ? ? [] ?|].
        eapply knows_step; [done..|]. by eapply Hk.
      * pose proof (Hk _ _ _ _ Hj' Hsec) as Hkn. intros name q t0 t1 Ht.
        destruct (Hkn name q t0 t1 Ht) as [Hkey Hs]. split; [done|]. intros -> Hf p' Hp'.
        destruct (lawful_leaves c h (h ++ [e]) (stored n) (projT1 e) name) as [Hlv|[u Hu]]; [done|done|by intros x' t' ?; apply (Hk i h)|intros q' Hq'; by eapply Hq| |].
        -- destruct (api_leaves name e _ _ _ Ha Hlv Hp') as (p & Hp & ->). by apply Hs.
        -- exfalso. apply Hne. pose proof (Hm _ _ _ _ Hj' Hsec). pose proof (Hm _ _ _ _ Hh Hu). congruence.
    + intros j cj hj q Hcj [[-> ->]|[Hne Hj']]%Hj; [|by eapply Hq].
      assert (cj = c) as -> by congruence. eapply copies_step; [done..|]. intros q'. by eapply Hq.
  - destruct Hw as [Hw Hr]. split; cbn; [done|done| |exact Hq].
    intros i h x t Hh Hsec. eapply knows_world; [by split|]. by eapply Hk.
Qed.

Lemma reachable_consistent calls w n : well_named w -> reachable calls w n -> consistent_node calls n.
Proof. intros Hw. induction 1; [by apply start_consistent|by eapply step_consistent]. Qed.

(** ** What a handler does to the references *)

Definition ref_change (c : handler_call) (Q : Pod -> Prop) (m m' : smap) : Prop :=
  m' = m \/
  match c with
  | Publish _ _ s => m' = <[ GetReferenceKey (TargetPath s) := TargetPath s ]> m
  | Unpublish _ _ target => m' = delete (GetReferenceKey target) m
  | Collect _ mit pod =>
      (exists dead : list string, (forall k, k ∈ dead -> exists v, pod_annotations pod !! k = Some v /\ dead_ref mit (k, v)) /\
         m' = filter (fun kv => kv.1 ∉ dead) m) \/
      (exists q, Q q /\ m' = GetAllRefKeys q ∪ m)
  end.

Lemma refs_lookup p k v : GetAllRefKeys p !! k = Some v <-> pod_annotations p !! k = Some v /\ GetReferenceKey v = k.
Proof.
  unfold GetAllRefKeys. rewrite map_lookup_filter_Some. unfold is_ref. cbn [fst snd]. rewrite bool_decide_eq_true.
  split; intros []; split; done.
Qed.

Lemma refs_with_ref target p q :
  pod_annotations q = with_ref target (pod_annotations p) ->
  GetAllRefKeys q = <[ GetReferenceKey target := target ]> (GetAllRefKeys p).
Proof.
  intros Hq. apply map_eq. intros k. apply option_eq. intros v. rewrite refs_lookup, Hq, with_ref_spec.
  rewrite lookup_insert. case_decide as Ed; [|].
  - subst k. rewrite (decide_False (P := GetReferenceKey target = _)) by apply ref_key_not_delay.
    split; [by intros []|]. intros [_ Hk]%refs_lookup. by destruct (ref_key_not_delay v).
  - destruct (decide (k = GetReferenceKey target)) as [->|Hne].
    + rewrite decide_True by done. split; [by intros [[= ->] _]|]. by intros [= ->].
    + rewrite decide_False by done. by rewrite refs_lookup.
Qed.

Lemma removed_annotations dels p k :
  pod_annotations (with_meta (apply_patch (JSONPatch (map (fun k => RemovePath (annotation_path k)) dels)) (p_meta p)) p) !! k =
  if decide (k ∈ dels) then None else pod_annotations p !! k.
Proof.
  unfold pod_annotations. cbn [apply_patch with_meta p_meta]. generalize (p_meta p). intros m. revert m.
  induction dels as [|d dels IH]; intros m; [done|]. cbn [map foldl]. rewrite IH. clear IH.
  cbn [apply_op]. unfold annotation_path. rewrite TrimPrefix_app. cbn [Annotations with_annotations].
  assert (nil_map (delete d <$> Annotations m) !! k = if decide (k = d) then None else nil_map (Annotations m) !! k) as ->.
  { unfold nil_map. destruct (Annotations m) as [a|]; cbn; [|case_decide; [done|by rewrite lookup_empty]].
    rewrite lookup_delete. repeat case_decide; congruence. }
  destruct (decide (k ∈ dels)); [by rewrite decide_True by by right|].
  case_decide; [by rewrite decide_True by (subst; left)|]. rewrite decide_False; [done|].
  intros []%elem_of_cons; done.
Qed.
Lemma refs_replaced m p :
  GetAllRefKeys (with_meta (apply_patch (JSONPatch [ReplaceMap "/metadata/annotations" (Some m)]) (p_meta p)) p) =
  filter (fun kv => is_ref kv = true) m.
Proof. done. Qed.
(** Handing over the references of a copy. *)
Lemma refs_union p q : filter (fun kv => is_ref kv = true) (GetAllRefKeys p ∪ pod_annotations q) = GetAllRefKeys p ∪ GetAllRefKeys q.
Proof.
  apply map_eq. intros k. apply option_eq. intros v. unfold GetAllRefKeys.
  rewrite map_lookup_filter_Some, !lookup_union_Some_raw, !map_lookup_filter_Some, !map_lookup_filter_None. cbn [fst].
  split.
  - intros [[[Hp Hr]|[Hn Hq]] Hv]; [by left|]. right. by split.
  - intros [[Hp Hr]|[Hn [Hq Hr]]]; (split; [|done]); [by left|right]. by split.
Qed.

(** The changes of the three handlers. *)
Lemma ref_patch_changes c Q name t p d q :
  ref_patch c Q name t p d ->
  (forall s fuel app, c = Publish fuel app s -> GetAllRefKeys p = GetAllRefKeys q) ->
  (forall t0 po, t = t0 ++ [ev (S := jfs) (GetPod Caller name (pod_namespace p)) (Ok po)] -> Q p ->
     GetAllRefKeys po = GetAllRefKeys q) ->
  ref_change c Q (GetAllRefKeys q) (GetAllRefKeys (with_meta (apply_patch d (p_meta q)) q)).
Proof.
  intros Hp Hq Hpo. right. destruct c as [fuel app s|fuel v target|fuel mit pod]; cbn [ref_patch] in Hp.
  - destruct Hp as [_ ->]. rewrite <-(Hq s fuel app eq_refl). by apply refs_with_ref.
  - destruct Hp as [_ ->]. apply map_eq. intros k. apply option_eq. intros u.
    change [RemovePath (annotation_path (GetReferenceKey target))] with
      (map (fun k => RemovePath (annotation_path k)) [GetReferenceKey target]).
    rewrite refs_lookup, removed_annotations. destruct (decide (k = GetReferenceKey target)) as [->|Hne].
    + rewrite decide_True by by left. rewrite lookup_delete_eq. split; [by intros []|done].
    + rewrite decide_False by by intros ?%list_elem_of_singleton. rewrite lookup_delete_ne by done. by rewrite refs_lookup.
  - destruct Hp as [(_ & _ & dels & -> & Hd)|(HQ & _ & t0 & po & Ht & ->)];
      [left|right; exists p; split; [done|]; by rewrite refs_replaced, refs_union, (Hpo _ _ Ht HQ)]. exists (filter (fun k => k <> DeleteDelayAtKey) dels). split.
    + intros k [Hne Hk]%list_elem_of_filter. by destruct (Hd k Hk).
    + apply map_eq. intros k. apply option_eq. intros u.
      rewrite refs_lookup, removed_annotations, map_lookup_filter_Some, refs_lookup. cbn [fst].
      rewrite list_elem_of_filter. case_decide as Hk; [|tauto].
      split; [by intros []|]. intros [[_ Hu] Hn]. exfalso. apply Hn. split; [|done].
      rewrite <-Hu. apply ref_key_not_delay.
Qed.

Lemma handler_changes calls c h n i e m' w' name p1 p2 :
  consistent_node calls n -> calls !! i = Some c -> histories n !! i = Some h -> started c (h ++ [e]) ->
  mutex_step i e (mutexes n) m' -> api e (stored n) w' ->
  stored n !! (name, g_Namespace) = Some p1 -> w' !! (name, g_Namespace) = Some p2 ->
  ref_change c (copies c h) (GetAllRefKeys p1) (GetAllRefKeys p2).
Proof.
  intros [Hn Hm Hk Hq] Hc Hh Hst Hmx Ha H1' H2'.
  assert (lawful c h (projT1 e)) as Hl by by eapply started_lawful.
  assert (leaves name (projT1 e) -> ref_change c (copies c h) (GetAllRefKeys p1) (GetAllRefKeys p2)) as Hleaves.
  { intros Hlv. destruct (api_leaves name e _ _ _ Ha Hlv H2') as (p & Hp & ->). left. congruence. }
  destruct e as [[] a]; try by apply Hleaves.
  - cbn in Ha. destruct a as [q|]; [|subst w'; left; congruence]. destruct Ha as [Hnone ->].
    apply lookup_insert_Some in H2' as [[E ->]|[_ H2']]; [congruence|left; congruence].
  - cbn -[settle apply_patch] in Ha. destruct a; [subst w'; left; congruence|]. destruct Ha as (q & Hqs & ->).
    unfold lawful in Hl. cbn [projT1 ev] in Hl. destruct (section_of h) as [[x t]|] eqn:Es; [|by apply Hleaves; left].
    destruct Hl as [Hl|(name' & -> & Hp)]; [by apply Hleaves; left|].
    pose proof (Hk i h _ t Hh Es) as Hkn.
    pose proof (ref_patch_key _ _ _ _ _ _ _ _ _ Hst Hkn (fun q => Hq i c h q Hc Hh) Hp) as Hkey.
    destruct (decide (name' = name)) as [->|Hne]; [|apply Hleaves; right; rewrite Hkey; congruence].
    rewrite Hkey in *. rewrite lookup_partial_alter_eq in H2'. apply settle_Some in H2' as ->.
    rewrite Hqs in H1'. injection H1' as ->. apply ref_patch_changes with (1 := Hp).
    + intros s fuel app ->. destruct Hp as [(t0 & ->) _]. symmetry. by apply (Hkn name p t0 []).
    + intros t0 po -> Hcp. rewrite (Hq i c h p Hc Hh Hcp) in Hkn. symmetry. by apply (Hkn name po t0 []).
Qed.

(** The handler [i], what it was called for and what it did. *)
Definition acting (calls : list handler_call) (n : node) (i : nat) (c : handler_call) (h : jtrace) : Prop :=
  calls !! i = Some c /\ histories n !! i = Some h.

(** What a handler may delete. *)
Lemma delete_lawful calls n i c h p q :
  consistent_node calls n -> acting calls n i c h -> lawful c h (DeletePod p) -> stored n !! key_of p = Some q ->
  GetAllRefKeys q = ∅ \/ exists c h, acting calls n i c h /\ rejected (copies c h) p.
Proof.
  intros Hc [Hci Hh] Hl Hq. unfold lawful in Hl. destruct (section_of h) as [[x t]|] eqn:Es; [|done].
  destruct Hl as [(name & -> & q' & t0 & t1 & -> & Hf & Hz & Hkey)|Hr]; [left|right; by exists c, h].
  destruct (knowing _ _ Hc _ _ _ _ Hh Es name q' t0 t1 eq_refl) as [Hk' Hkn].
  assert (key_of p = (name, g_Namespace)) as E by by destruct Hkey as [?| ->].
  rewrite <-Hz. apply Hkn; [done|done|by rewrite <-E].
Qed.

(** C1: the handlers of a node share its mount pods safely.  Let any number of
    publishes, unpublishes and runs of the pod driver go on at the same time,
    each anywhere in its run, their steps and those of the rest of the cluster
    interleaved in any order in which the mutexes exclude and the API server
    answers what it stores; the rest of the cluster may do anything to the mount
    pods but change references.  Then two handlers are never in critical
    sections of the same mutex.  A handler only deletes a mount pod that at that
    moment has no reference, or, when it redeploys, its copy of a pod that was
    rejected for the resources it asks for.  A pod is created only where none
    is, with the reference of a target, or with the references of the copy that
    is redeployed.  And in every step the references of every mount pod either
    stay as they are, or change as the handler that steps means to: a publish
    adds the reference of its target, an unpublish removes the one of its
    target, the pod driver removes references of dead app pods, or hands those of
    its copy of a deleted pod over to the successor.  So outside redeployments no
    reference is lost, and none comes back. *)
Theorem sharing_safe calls w n :
  well_named w -> reachable calls w n ->
  (forall i j hi hj x ti tj, histories n !! i = Some hi -> histories n !! j = Some hj ->
     section_of hi = Some (x, ti) -> section_of hj = Some (x, tj) -> i = j) /\
  (forall a n', node_step calls n a n' ->
     (forall i p, a = Handler i (ev (S := jfs) (DeletePod p) None) ->
        exists q, stored n !! key_of p = Some q /\
          (GetAllRefKeys q = ∅ \/ exists c h, acting calls n i c h /\ rejected (copies c h) p)) /\
     (forall i p r, a = Handler i (ev (S := jfs) (CreatePod p) (Ok r)) ->
        stored n !! key_of p = None /\ exists c h, acting calls n i c h /\ successor c (copies c h) p) /\
     (forall name p1 p2, stored n !! (name, g_Namespace) = Some p1 -> stored n' !! (name, g_Namespace) = Some p2 ->
        match a with
        | World => GetAllRefKeys p2 = GetAllRefKeys p1
        | Handler i _ =>
            exists c h, acting calls n i c h /\ ref_change c (copies c h) (GetAllRefKeys p1) (GetAllRefKeys p2)
        end)).
Proof.
  intros Hw Hr. pose proof (reachable_consistent _ _ _ Hw Hr) as Hc. split.
  - intros i j hi hj x ti tj Hi Hj Hsi Hsj. pose proof (holds_mutex _ _ Hc _ _ _ _ Hi Hsi).
    pose proof (holds_mutex _ _ Hc _ _ _ _ Hj Hsj). congruence.
  - intros a n' Hs. destruct Hs as [i c h e m' w' Hci Hh Hst Hmx Ha|w' [_ Hw']]; [|split_and!; try done].
    + assert (lawful c h (projT1 e)) as Hl by by eapply started_lawful.
      split_and!; [intros j p [= -> ->]|intros j p r [= -> ->]|intros name p1 p2 H1' H2'; exists c, h; split; [done|by eapply handler_changes]].
      * destruct Ha as (q & ts & Hq & _). exists q. split; [done|]. by apply (delete_lawful calls n j c h).
      * split; [by destruct Ha|]. exists c, h. split; [done|]. unfold lawful in Hl.
        destruct (section_of h) as [[x t]|]; [|done]. by destruct Hl.
    + intros name p1 p2 H1' H2'. destruct (Hw' _ _ H2') as (p & Hp & ->). cbn in Hp. congruence.
Qed.
End sharing.

(** ** What is not safe: redeploying *)

(** The event stored a new pod. *)
Definition created (e : event jfs) : Prop :=
  match e with
  | existT c a => match c return jfs_answer c -> Prop with
                  | CreatePod _ => fun a => match a with Ok _ => True | Err _ => False end
                  | _ => fun _ => False
                  end a
  end.

(** What the copies of redeployments cost: a pod that failed for lack of
    resources is replaced under its lock, but by a copy read before the lock was
    taken: whatever references the stored pod
    got in between, the new pod has those of the copy. *)
Theorem redeploy_forgets fuel pod t o w w' p q :
  runs (redeploy_without_resources fuel pod) t o -> ev (S := jfs) (CreatePod p) (Ok q) ∈ t -> replay w t w' ->
  exists p', w' !! key_of pod = Some p' /\ GetAllRefKeys p' = GetAllRefKeys pod.
Proof.
  intros Hr Hin Hw. unfold redeploy_without_resources in Hr.
  assert (forall {A} (c : M A) u b, avoids (S := jfs) is_create_pod c -> runs c u b ->
    ev (S := jfs) (CreatePod p) (Ok q) ∉ u) as Hav.
  { intros A c u b Hc Hu Hin'. pose proof (avoids_runs _ _ _ _ Hc Hu) as Hn. apply never_spec in Hn.
    rewrite Forall_forall in Hn. by specialize (Hn _ Hin'). }
  assert (avoids (S := jfs) is_create_pod (RemoveFinalizer pod Finalizer)) as Hfin by by split.
  apply runs_bind in Hr as [(t1 & t2 & r & -> & H1 & Hr)|(s & H1 & _)]; [|by destruct (Hav _ _ _ _ Hfin H1)].
  apply elem_of_app in Hin as [Hin|Hin]; [by destruct (Hav _ _ _ _ Hfin H1)|].
  destruct Hr as (d & t3 & -> & Hr). apply elem_of_cons in Hin as [[=]|Hin]. prog_simpl_in Hr.
  destruct d as [e|]; [destruct Hr as [-> _]; by apply elem_of_nil in Hin|].
  assert (avoids (S := jfs) is_create_pod (loop fuel (wait_deleted_step pod) tt)) as Hloop.
  { apply avoids_loop. intros []. unfold wait_deleted_step. solve_avoids. }
  apply runs_bind in Hr as [(t4 & t5 & b & -> & H2 & Hr)|(s & H2 & _)]; [|by destruct (Hav _ _ _ _ Hloop H2)].
  apply elem_of_app in Hin as [Hin|Hin]; [by destruct (Hav _ _ _ _ Hloop H2)|].
  destruct b; [|destruct Hr as [-> _]; by apply elem_of_nil in Hin].
  destruct Hr as (c & t6 & -> & -> & _). apply elem_of_cons in Hin as [Heq|Hin]; [|by apply elem_of_nil in Hin].
  assert (created (ev (S := jfs) (CreatePod (DeleteResourceOfPod (recreated_pod pod))) c)) as Hc by by rewrite <-Heq.
  rewrite app_comm_cons, !app_assoc in Hw. apply replay_app in Hw as (w1 & _ & w2 & Ha & ->).
  destruct c as [q'|]; [|done]. destruct Ha as [_ ->]. exists (DeleteResourceOfPod (recreated_pod pod)).
  split; [exact (lookup_insert_eq w1 (key_of pod) _)|done].
Qed.
