(* ===== verification/VolumeJobs.v ===== *)
(** * Volume jobs: deleting a volume among the other handlers

    In pod mode the controller deletes a volume by a Kubernetes job and takes
    an absent job for a finished one.  The job is a resource of the API server
    that other handlers, the job controller and the TTL controller change at
    the same time.  This file interleaves the handler with all of them and
    proves what its success means: the job was seen or could be removed only
    after it ended, unless another handler removed it. *)
From S2P Require Import Prelude.
From S2P Require Import GoStrings.
From S2P Require Import Hash.
From S2P Require Import K8s.
From S2P Require Import GoTime.
From S2P Require Import Prog.
From S2P Require Import Effects.
From S2P Require Import Config.
From S2P Require Import Util.
From S2P Require Import VolumeUtil.
From S2P Require Import Setting.
From S2P Require Import JfsSetting.
From S2P Require Import Builder.
From S2P Require Import PodMount.
From S2P Require Import ProcessMount.
From S2P Require Import Juicefs.
From S2P Require Import DriverServices.
From S2P Require Import PodMountFacts.
From S2P Require Import PublishFacts.
From S2P Require Import Sharing.
#[local] Open Scope Z_scope.
#[local] Open Scope go_scope.

(** ** The jobs of the API server *)

Abbreviation job_store := (gmap (string * string) Job).
Definition job_key (j : Job) : string * string := (Name (j_meta j), Namespace (j_meta j)).

(** The answers of the API server to the commands on jobs, and the jobs after
    them; a failed request changes nothing. *)
Definition job_api (e : event jfs) (w w' : job_store) : Prop :=
  match e with
  | existT c a =>
      match c return jfs_answer c -> Prop with
      | GetJob _ name ns => fun a =>
          w' = w /\
          match a with
          | Ok j => w !! (name, ns) = Some j
          | Err er => IsNotFound er = true -> w !! (name, ns) = None
          end
      | CreateJob j => fun a =>
          match a with
          | Ok q => w !! job_key j = None /\ w' = <[ job_key j := q ]> w
          | Err _ => w' = w
          end
      | DeleteJob name ns => fun a =>
          match a with
          | None => is_Some (w !! (name, ns)) /\ w' = delete (name, ns) w
          | Some _ => w' = w
          end
      | _ => fun _ => w' = w
      end a
  end.

Definition finished (j : Job) : bool := IsJobCompleted j || IsJobFailed j.

(** The rest of the cluster creates jobs and changes them; it removes a job
    only when that is finished (the TTL controller of Kubernetes). *)
Definition jobs_world (w w' : job_store) : Prop :=
  forall k j, w !! k = Some j -> w' !! k = None -> finished j = true.

Definition job_move (a : actor) (w w' : job_store) : Prop :=
  match a with World => jobs_world w w' | Handler _ e => job_api e w w' end.

(** An interleaving: who moved, and the jobs after the move. *)
Abbreviation interleaving := (list (actor * job_store)).
Fixpoint moves (w : job_store) (tr : interleaving) : Prop :=
  match tr with [] => True | (a, w') :: tr => job_move a w w' /\ moves w' tr end.
Definition jobs_after (w : job_store) (tr : interleaving) : job_store := default w (last tr.*2).

(** The events of the handler [i]. *)
Definition own (i : nat) (a : actor) : option (event jfs) :=
  match a with Handler k e => if Nat.eqb k i then Some e else None | World => None end.
Definition events_of (i : nat) (tr : interleaving) : jtrace := omap (fun x => own i x.1) tr.

Lemma jobs_after_snoc w tr a w' : jobs_after w (tr ++ [(a, w')]) = w'.
Proof. unfold jobs_after. rewrite fmap_app. simpl. by rewrite last_snoc. Qed.

Lemma jobs_after_app w tr1 tr2 : jobs_after w (tr1 ++ tr2) = jobs_after (jobs_after w tr1) tr2.
Proof.
  induction tr2 as [|[a w'] tr2 _] using rev_ind; [by rewrite app_nil_r|].
  by rewrite app_assoc, !jobs_after_snoc.
Qed.
Lemma jobs_after_cons w a w' tr : jobs_after w ((a, w') :: tr) = jobs_after w' tr.
Proof. apply (jobs_after_app w [(a, w')]). Qed.

Lemma moves_app w tr1 tr2 : moves w (tr1 ++ tr2) <-> moves w tr1 /\ moves (jobs_after w tr1) tr2.
Proof.
  revert w. induction tr1 as [|[a w'] tr1 IH]; intros w; [by split; [|intros [_ ?]]|].
  cbn [app moves]. rewrite IH, jobs_after_cons. tauto.
Qed.

Lemma events_of_app i tr1 tr2 : events_of i (tr1 ++ tr2) = events_of i tr1 ++ events_of i tr2.
Proof. apply omap_app. Qed.

(** A run of the handler that falls in two parts cuts the interleaving. *)
Lemma events_split i tr t1 e t2 :
  events_of i tr = t1 ++ e :: t2 ->
  exists tr1 w1 tr2, tr = tr1 ++ (Handler i e, w1) :: tr2 /\ events_of i tr1 = t1 /\ events_of i tr2 = t2.
Proof.
  revert t1. induction tr as [|[a w'] tr IH]; intros t1 He; [by destruct t1|].
  change (events_of i ((a, w') :: tr)) with
    (match own i a with Some e => e :: events_of i tr | None => events_of i tr end) in He.
  destruct (own i a) as [x|] eqn:Ea.
  - destruct t1 as [|y t1]; injection He as -> He.
    + assert (a = Handler i e) as -> by (destruct a as [|k ?]; [done|]; cbn in Ea; destruct (Nat.eqb_spec k i); [|done]; by injection Ea as -> ; subst).
      by exists [], w', tr.
    + apply IH in He as (tr1 & w1 & tr2 & -> & <- & <-). exists ((a, w') :: tr1), w1, tr2.
      split_and!; [done| |done]. cbn. by rewrite Ea.
  - apply IH in He as (tr1 & w1 & tr2 & -> & <- & <-). exists ((a, w') :: tr1), w1, tr2.
    split_and!; [done| |done]. cbn. by rewrite Ea.
Qed.

(** ** How a job ends *)

(** The job [k] was completed in the store at some time. *)
Definition was_completed (k : string * string) (w : job_store) (tr : interleaving) : Prop :=
  exists tr1 tr2 j, tr = tr1 ++ tr2 /\ jobs_after w tr1 !! k = Some j /\ IsJobCompleted j = true.
(** The rest of the cluster removed the job after it failed. *)
Definition failed_and_recycled (k : string * string) (w : job_store) (tr : interleaving) : Prop :=
  exists tr1 w' tr2 j, tr = tr1 ++ (World, w') :: tr2 /\ jobs_after w tr1 !! k = Some j /\
    IsJobFailed j = true /\ w' !! k = None.
Definition deletes_job (k : string * string) : event jfs := ev (S := jfs) (DeleteJob k.1 k.2) None.
(** Another handler than [i] deleted the job. *)
Definition deleted_by_other (i : nat) (k : string * string) (tr : interleaving) : Prop :=
  exists m w', m <> i /\ (Handler m (deletes_job k), w') ∈ tr.

Lemma was_completed_cons k w a w' tr : was_completed k w' tr -> was_completed k w ((a, w') :: tr).
Proof.
  intros (tr1 & tr2 & j & -> & Hj & Hc). exists ((a, w') :: tr1), tr2, j. by rewrite jobs_after_cons.
Qed.

(** What happens in the beginning of an interleaving. *)
Lemma ended_app i k w tr1 tr2 :
  was_completed k w tr1 \/ failed_and_recycled k w tr1 \/ deleted_by_other i k tr1 ->
  was_completed k w (tr1 ++ tr2) \/ failed_and_recycled k w (tr1 ++ tr2) \/ deleted_by_other i k (tr1 ++ tr2).
Proof.
  intros [(t1 & t2 & j & -> & Hj)|[(t1 & w' & t2 & j & -> & Hj)|(m & w' & Hne & Hin)]].
  - left. exists t1, (t2 ++ tr2), j. by rewrite <-app_assoc.
  - right; left. exists t1, w', (t2 ++ tr2), j. by rewrite <-app_assoc.
  - right; right. exists m, w'. split; [done|]. apply elem_of_app. by left.
Qed.

(** Who can remove a job. *)
Lemma job_move_removes k a w w' :
  job_move a w w' -> is_Some (w !! k) -> w' !! k = None ->
  (a = World /\ exists j, w !! k = Some j /\ finished j = true) \/ (exists m, a = Handler m (deletes_job k)).
Proof.
  intros Hm [j Hj] Hk. destruct a as [|m [c r]].
  - left. split; [done|]. exists j. split; [done|]. by eapply Hm.
  - right. exists m. destruct c; cbn in Hm; try (exfalso; congruence).
    + destruct Hm as [-> _]. congruence.
    + destruct r; [|exfalso; congruence]. destruct Hm as [_ ->].
      apply lookup_insert_None in Hk as [Hk _]. congruence.
    + destruct r; [exfalso; congruence|]. destruct Hm as [_ ->].
      apply lookup_delete_None in Hk as [<-|?]; [done|congruence].
Qed.

(** A job that vanished without the handler's own deletion. *)
Lemma vanished_job i k w tr :
  moves w tr -> is_Some (w !! k) -> jobs_after w tr !! k = None -> deletes_job k ∉ events_of i tr ->
  was_completed k w tr \/ failed_and_recycled k w tr \/ deleted_by_other i k tr.
Proof.
  revert w. induction tr as [|[a w'] tr IH]; intros w Hm Hk Hn Hd; [change (w !! k = None) in Hn; destruct Hk; congruence|].
  destruct Hm as [Ha Hm]. rewrite jobs_after_cons in Hn.
  assert (deletes_job k ∉ events_of i tr) as Hd' by (contradict Hd; cbn; destruct (own i a); [by right|done]).
  destruct (w' !! k) as [j'|] eqn:Ek.
  - destruct (IH w' Hm) as [Hc|[(tr1 & w2 & tr2 & j & -> & Hj & Hf)|(m & w2 & Hne & Hin)]]; [by rewrite Ek|done|done|..].
    + left. by apply was_completed_cons.
    + right; left. exists ((a, w') :: tr1), w2, tr2, j. by rewrite jobs_after_cons.
    + right; right. exists m, w2. split; [done|by right].
  - destruct (job_move_removes k a w w' Ha Hk Ek) as [(-> & j & Hj & [Hc|Hf]%orb_true_iff)|[m ->]].
    + left. by exists [], ((World, w') :: tr), j.
    + right; left. by exists [], w', tr, j.
    + right; right. exists m, w'. split; [|by left]. intros ->. apply Hd. cbn. rewrite Nat.eqb_refl. by left.
Qed.

(** ** What the handler does *)

Section volume_jobs.
Context `{Globals} `{Retry} `{QuantityParser} `{SettingCodec}.
(** The secret is a JSON object of strings: decoding it leaves the attributes,
    which are an object, alone. *)
Hypothesis decode_keeps_attr : forall m s s', decode_setting m s = Ok s' -> Attr s' = Attr s.

Definition is_delete_job (c : jfs_cmd) : bool := match c with DeleteJob _ _ => true | _ => false end.
Abbreviation keeps_jobs := (avoids (S := jfs) is_delete_job).
Abbreviation no_deletion := (never (S := jfs) (fun e => is_delete_job (projT1 e))).

(** The event in which the job was found or created. *)
Definition obtained (job : Job) (e : event jfs) : Prop :=
  exists old, e = ev (S := jfs) (GetJob Caller (Name (j_meta job)) (Namespace (j_meta job))) (Ok old) \/
              e = ev (S := jfs) (CreateJob job) (Ok old).
(** The event that ends the wait for the job without an error. *)
Definition wait_over (name : string) (e : event jfs) : Prop :=
  exists ctx r, e = ev (S := jfs) (GetJob ctx name g_Namespace) r /\
    match r with Ok j => IsJobCompleted j = true | Err er => IsNotFound er = true end.

Lemma obtained_stored i job e w w' : job_move (Handler i e) w w' -> obtained job e -> is_Some (w' !! job_key job).
Proof. intros Hm (old & [-> | ->]); destruct Hm as [Hm1 Hm2]; subst; [by eexists|by rewrite lookup_insert_eq]. Qed.

Lemma get_or_create_job_ok job t old :
  runs (get_or_create_job job) t (Done (Ok old)) -> exists t0 e, t = t0 ++ [e] /\ obtained job e.
Proof.
  intros ([j|e] & t' & -> & Hr); prog_simpl_in Hr.
  - destruct Hr as [-> _]. eexists [], _. split; [done|]. exists j. by left.
  - destruct (IsNotFound e); [|by destruct Hr]. destruct Hr as ([q|er] & t2 & -> & -> & [=]).
    eexists [_], _. split; [done|]. exists q. by right.
Qed.

(** A round of the wait: it is over, or deletes no job. *)
Lemma job_step_runs name t r :
  runs (job_step name tt) t (Done r) ->
  match r with
  | inl _ => no_deletion t = true
  | inr (Some None) => exists e t', t = e :: t' /\ wait_over name e
  | _ => True
  end.
Proof.
  intros ([j|e] & t' & -> & Hr); prog_simpl_in Hr.
  - destruct (IsJobCompleted j) eqn:Ec.
    + apply runs_bind_done in Hr as (t1 & t2 & b & -> & _ & Hr).
      apply runs_bind_done in Hr as (t3 & t4 & [] & -> & _ & [-> [= ->]]).
      eexists _, _. split; [done|]. by eexists _, (Ok j).
    + by destruct Hr as (a & t2 & -> & -> & [= ->]).
  - destruct (IsNotFound e) eqn:En.
    + destruct Hr as [-> [= ->]]. eexists _, _. split; [done|]. by eexists _, (Err e).
    + by destruct Hr as ([c|] & t2 & -> & -> & [= ->]).
Qed.

Lemma job_wait_ok fuel name t :
  runs (loop fuel (job_step name) tt) t (Done (Some None)) ->
  exists t1 e t2, t = t1 ++ e :: t2 /\ no_deletion t1 = true /\ wait_over name e.
Proof.
  revert t. induction fuel as [|n IH]; intros t; [by intros [_ ?]|].
  intros (t1 & t2 & r & -> & Hs%job_step_runs & Hr)%runs_bind_done. destruct r as [[]|r].
  - apply IH in Hr as (t3 & e & t4 & -> & Hn & He). exists (t1 ++ t3), e, t4. rewrite <-app_assoc.
    split_and!; [done| |done]. by rewrite never_app, Hs.
  - destruct Hr as [-> [= <-]]. destruct Hs as (e & t' & -> & He). exists [], e, t'. by rewrite app_nil_r.
Qed.

Lemma waitUtilJobCompleted_ok fuel name t :
  runs (waitUtilJobCompleted fuel name) t (Done None) ->
  exists t1 e t2, t = t1 ++ e :: t2 /\ no_deletion t1 = true /\ wait_over name e.
Proof.
  intros (t1 & t2 & w & -> & Hl & Hr)%runs_bind_done. destruct w as [r|].
  - destruct Hr as [-> [= <-]]. rewrite app_nil_r. by apply job_wait_ok in Hl.
  - destruct Hr as ([[|pod pods]|e] & t3 & -> & Hr); prog_simpl_in Hr; try by destruct Hr.
    apply runs_bind_done in Hr as (t4 & t5 & [log|e] & -> & _ & Hr); by destruct Hr.
Qed.

Lemma createOrUpdateSecret_keeps_jobs secret : keeps_jobs (createOrUpdateSecret secret).
Proof. apply RetryOnConflict_avoids; [done|]. unfold secret_attempt. solve_avoids. Qed.

(** A successful volume job: obtained, not deleted meanwhile, over. *)
Lemma run_volume_job_ok fuel job secret t :
  runs (run_volume_job fuel job secret) t (Done None) ->
  exists t1 e t2 f t3, t = t1 ++ e :: t2 ++ f :: t3 /\ obtained job e /\ no_deletion t2 = true /\ wait_over (Name (j_meta job)) f.
Proof.
  intros (t1 & t2 & [old|er] & -> & Hg & Hr)%runs_bind_done; [|by destruct Hr as [_ [=]]].
  apply get_or_create_job_ok in Hg as (t0 & e & -> & He).
  apply runs_thenE_ok in Hr as (t3 & t4 & -> & Hsec & Hr).
  apply avoids_runs with (P := is_delete_job) in Hsec; [|apply createOrUpdateSecret_keeps_jobs].
  apply runs_bind_done in Hr as (t5 & t6 & [er|] & -> & Hw & Hr).
  { prog_simpl_in Hr. by destruct Hr as (? & ? & _ & _ & [=]). }
  apply waitUtilJobCompleted_ok in Hw as (t7 & f & t8 & -> & Hn & Hf). destruct Hr as [-> _].
  exists t0, e, (t3 ++ t7), f, t8. rewrite app_nil_r, <- !app_assoc. split_and!; [done|done| |done].
  by rewrite never_app, Hsec.
Qed.

(** ** The job of a deletion *)

(** The job whose first container runs the delete command of the sub path. *)
Definition deletion_job (volumeID subPath : string) (job : Job) : Prop :=
  job_key job = (GenJobNameByVolumeId volumeID +:+ "-delvol", g_Namespace) /\
  exists s c cs, SubPath s = subPath /\ Containers (j_spec job) = c :: cs /\
    c_command c = ["sh"; "-c"; Join [genInitCommand s; getDeleteVolumeCmd s] newline].

Lemma GenPodAttrWithCfg_namespace s volCtx s' :
  (Attr s = None \/ a_Namespace (attr_of s) = g_Namespace) -> GenPodAttrWithCfg s volCtx = Ok s' ->
  a_Namespace (attr_of s') = g_Namespace.
Proof.
  intros Hs. unfold GenPodAttrWithCfg.
  set (attr := with_preemption _). assert (a_Namespace attr = g_Namespace) as Ha.
  { unfold attr, attr_of in *. cbn. destruct Hs as [->|Hs]; [done|]. by destruct (Attr s). }
  clearbody attr. destruct volCtx as [ctx|]; [|by intros [= <-]].
  unfold attr_of_ctx. repeat (case_match; try done); intros [= <-]; by cbn; simplify_eq.
Qed.

Lemma parse_vol_ctx_Attr volCtx s s' : parse_vol_ctx volCtx s = Ok s' -> Attr s' = Attr s.
Proof. unfold parse_vol_ctx. destruct volCtx; [|by intros [= ->]]. case_match; [done|]. by intros [= <-]. Qed.

(** Every parsed setting with secrets has the driver's namespace. *)
Lemma ParseSetting_namespace secrets volCtx options usePod pv pvc s :
  ParseSetting (Some secrets) volCtx options usePod pv pvc = Ok s -> a_Namespace (attr_of s) = g_Namespace.
Proof using decode_keeps_attr.
  unfold ParseSetting. repeat (case_match; try done); intros [= ->];
    repeat match goal with
           | E : GenPodAttrWithCfg _ _ = Ok _ |- _ => eapply GenPodAttrWithCfg_namespace; [left|exact E]; clear E
           | E : parse_vol_ctx _ _ = Ok _ |- _ => apply parse_vol_ctx_Attr in E
           | E : decode_setting _ _ = Ok _ |- _ => apply decode_keeps_attr in E
           end; cbn in *; congruence.
Qed.

Lemma client_command_kept secrets s t secrets' s' :
  runs (client_command secrets s) t (Done (secrets', Ok s')) -> Attr s' = Attr s /\ VolumeId s' = VolumeId s.
Proof.
  unfold client_command. destruct (negb (IsCe s)); [case_bool_decide|].
  - by intros [_ [= _ ->]].
  - intros (t1 & t2 & [sec [cmd|e]] & -> & _ & [_ [=]])%runs_bind_done. by subst.
  - intros (t1 & t2 & [cmd|e] & -> & _ & [_ [=]])%runs_bind_done. by subst.
Qed.

Lemma genJfsSettings_volume volumeID target secrets volCtx options t secrets' volCtx' s :
  runs (genJfsSettings volumeID target (Some secrets) volCtx options) t (Done (secrets', volCtx', Ok s)) ->
  a_Namespace (attr_of s) = g_Namespace /\ VolumeId s = volumeID.
Proof using decode_keeps_attr.
  intros (t1 & t2 & [[sec ctx] [s0|e]] & -> & Hs & Hr)%runs_bind_done; [|by destruct Hr as [_ [=]]].
  assert (a_Namespace (attr_of s0) = g_Namespace /\ VolumeId s0 = volumeID) as [Hns Hv].
  { unfold Settings, Settings_by in Hs. destruct (validOptions _ _); [|by destruct Hs as [_ [=]]].
    apply runs_bind_done in Hs as (t3 & t4 & vo & -> & _ & Hs).
    destruct (ParseSetting _ _ _ _ _ _) as [s1|] eqn:Ep; [|by destruct Hs as [_ [=]]].
    apply runs_bind_done in Hs as (t5 & t6 & [sec' r] & -> & Hc & [_ [= _ _ <-]]).
    apply client_command_kept in Hc as [Ha Hv]. apply ParseSetting_namespace in Ep.
    split; [|done]. unfold attr_of in *. rewrite Ha. cbn. by destruct (Attr s1). }
  apply runs_bind_done in Hr as (t3 & t4 & r & -> & Hr & [_ [= _ _ <-]]).
  apply runs_bindR_ok in Hr as (t5 & t6 & u & -> & _ & Hr). unfold set_cache_uuid in Hr.
  destruct (negb (js_CleanCache _)); [destruct Hr as [_ [= ->]]; by split|].
  apply runs_bindR_ok in Hr as (t7 & t8 & uuid & -> & _ & Hr).
  apply runs_bind_done in Hr as (t9 & t10 & [] & -> & _ & [_ [= ->]]). by split.
Qed.

Lemma NewJobForDeleteVolume_job s t job s' :
  a_Namespace (attr_of s) = g_Namespace ->
  runs (NewJobForDeleteVolume s) t (Done (job, s')) -> deletion_job (VolumeId s) (SubPath s) job.
Proof.
  intros Hns (t1 & t2 & [j x] & -> & Hj & [-> [= -> ->]])%runs_bind_done.
  apply runs_bind_done in Hj as (t3 & t4 & [pod y] & -> & Hp & [-> [= -> ->]]).
  unfold genCommonJuicePod in Hp. apply runs_range_map in Hp as (l & e & t' & _ & -> & _ & [-> [= -> ->]]).
  split.
  - unfold job_key. cbn -[regen_attr GenJobNameByVolumeId]. f_equal.
    unfold regen_attr. destruct (GenPodAttrWithCfg _ _) as [z|] eqn:Ez; [|done].
    eapply GenPodAttrWithCfg_namespace in Ez; [done|by right].
  - eexists _, _, _. split; [|split; reflexivity].
    unfold regen_attr, GenPodAttrWithCfg. cbn. done.
Qed.

(** A successful deletion of a volume runs its job. *)
Lemma JfsDeleteVol_job fuel volumeID subPath secrets volCtx options t secrets' :
  g_ByProcess = false ->
  runs (JfsDeleteVol fuel volumeID subPath (Some secrets) volCtx options) t (Done (secrets', None)) ->
  exists job t1 e t2 f t3, deletion_job volumeID subPath job /\
    t = t1 ++ e :: t2 ++ f :: t3 /\ obtained job e /\ no_deletion t2 = true /\ wait_over (Name (j_meta job)) f.
Proof using decode_keeps_attr.
  intros Hb (t6 & t7 & [[ctx opts]|er] & -> & _ & Hj)%runs_bind_done; [|by destruct Hj as [_ [=]]].
  apply runs_bind_done in Hj as (t8 & t9 & [[sec' ctx'] [s|er]] & -> & Hg & Hj); [|by destruct Hj as [_ [=]]].
  apply genJfsSettings_volume in Hg as [Hns Hv].
  apply runs_bind_done in Hj as (t10 & t11 & er & -> & Hj & [-> [= -> <-]]).
  apply runs_thenE_ok in Hj as (t12 & t13 & -> & Hj & _). rewrite Hb in Hj.
  apply runs_bind_done in Hj as (t14 & t15 & [job s'] & -> & Hn & Hj).
  apply NewJobForDeleteVolume_job in Hn; [|done].
  apply run_volume_job_ok in Hj as (t16 & e & t17 & f & t18 & -> & He & Hno & Hf).
  exists job, (t6 ++ t8 ++ t14 ++ t16), e, t17, f.
  eexists. split; [by cbn in Hn; rewrite Hv in Hn|]. split; [|done].
  by rewrite <- !app_assoc; cbn; rewrite <- !app_assoc.
Qed.

(** ** What success means in an interleaving *)

(** The handler [i] found the deletion job of the volume or created it, and
    after that the job was completed, failed and was recycled, or was deleted
    by another handler. *)
Definition deleted_by_job (i : nat) (w : job_store) (tr : interleaving) (volumeID subPath : string) : Prop :=
  exists job tr1 e w1 tr2, deletion_job volumeID subPath job /\
    tr = tr1 ++ (Handler i e, w1) :: tr2 /\ obtained job e /\ is_Some (w1 !! job_key job) /\
    (was_completed (job_key job) w1 tr2 \/ failed_and_recycled (job_key job) w1 tr2 \/
     deleted_by_other i (job_key job) tr2).

Lemma JfsDeleteVol_deletes fuel volumeID subPath secrets volCtx options i w tr t0 t t1 secrets' :
  g_ByProcess = false -> moves w tr -> events_of i tr = t0 ++ t ++ t1 ->
  runs (JfsDeleteVol fuel volumeID subPath (Some secrets) volCtx options) t (Done (secrets', None)) ->
  deleted_by_job i w tr volumeID subPath.
Proof using decode_keeps_attr.
  intros Hb Hm He Hr.
  destruct (JfsDeleteVol_job _ _ _ _ _ _ _ _ Hb Hr) as (job & u1 & e & u2 & f & u3 & Hj & -> & Ho & Hno & Hf).
  replace (t0 ++ (u1 ++ e :: u2 ++ f :: u3) ++ t1) with ((t0 ++ u1) ++ e :: u2 ++ f :: u3 ++ t1) in He
    by (by rewrite <- !app_assoc; cbn; rewrite <-app_assoc).
  apply events_split in He as (tr1 & w1 & tr2 & -> & _ & He).
  apply moves_app in Hm as [_ [Hme Hm]]. pose proof (obtained_stored _ _ _ _ _ Hme Ho) as Hk.
  exists job, tr1, e, w1, tr2. split_and!; [done..|].
  apply events_split in He as (tr3 & w2 & tr4 & -> & Ht3 & _).
  apply moves_app in Hm as [Hm3 [Hmf _]].
  assert (wait_over (job_key job).1 f) as (ctx & r & -> & Hover) by done.
  assert (((job_key job).1, g_Namespace) = job_key job) as Hkey by (by destruct Hj as [-> _]).
  destruct Hmf as [_ Hmf]. rewrite Hkey in Hmf. destruct r as [j|er].
  - left. by exists tr3, ((Handler i (ev (S := jfs) (GetJob ctx (job_key job).1 g_Namespace) (Ok j)), w2) :: tr4), j.
  - apply ended_app, (vanished_job i); [done|done|by apply Hmf|].
    rewrite Ht3. intros Hin. apply never_spec in Hno. rewrite Forall_forall in Hno. by apply Hno in Hin.
Qed.

(** C6: what a deleted volume is.  In every interleaving of a handler with other
    handlers, the job controller and the TTL controller of Kubernetes, in pod
    mode.  When the controller's [DeleteVolume] succeeds, the volume is static
    or the request has no secrets, and it did nothing, the volume is still
    remembered; or the controller has forgotten the volume and its job ran.
    When the provisioner's [Delete] succeeds, the policy is not [Delete] and it
    did nothing; or another volume shares the sub path; or the job of the volume
    ran.  That the job ran means: the handler has found the job of the volume,
    or created it with the delete command of the volume's sub path; and after
    that the job was completed at some time, or it failed and was recycled
    before the handler looked, or another handler deleted it.  The handler never
    takes a job it deleted itself for a finished one. *)
Theorem volume_deleted fuel i w tr :
  g_ByProcess = false -> moves w tr ->
  (forall vols vols' volumeID secrets,
     runs (DeleteVolume fuel vols volumeID secrets) (events_of i tr) (Done (vols', None)) ->
     if CheckDynamicPV volumeID && negb (bool_decide (nil_map secrets = ∅))
     then vols' = delete volumeID vols /\ deleted_by_job i w tr volumeID volumeID
     else vols' = vols /\ events_of i tr = []) /\
  (forall volume,
     runs (Provisioner_Delete fuel volume) (events_of i tr) (Done None) ->
     if decide (pv_reclaimPolicy volume = "Delete")
     then exists csi, pv_csi volume = Some csi /\
       ((exists t0 t1, events_of i tr = t0 ++ t1 /\
           runs (CheckForSubPath volume (sget (VolumeAttributes csi) "pathPattern")) t0 (Done (Ok false))) \/
        deleted_by_job i w tr (Name (pv_meta volume)) (sget (VolumeAttributes csi) "subPath"))
     else events_of i tr = []).
Proof using decode_keeps_attr.
  intros Hb Hm. split.
  - intros vols vols' volumeID secrets. unfold DeleteVolume. case_bool_decide; [by intros [_ [=]]|].
    destruct (CheckDynamicPV volumeID); cbn [negb andb]; [|by intros [-> [= ->]]].
    case_bool_decide as Hs; cbn [negb]; [by intros [-> [= ->]]|].
    generalize (eq_refl (events_of i tr)). generalize (events_of i tr) at 2 3.
    intros t Ht (t1 & t2 & [] & -> & _ & Hr)%runs_bind_done; [|by destruct Hr as [_ [=]]]. cbn [negb] in Hr.
    apply runs_deferred in Hr as (t3 & Hr & Hrel & _). destruct (Hrel ltac:(done)) as [[] ->].
    apply runs_bind_done in Hr as (t4 & t5 & [sec [er|]] & -> & Hj & [-> [= ->]]). split; [done|].
    destruct secrets as [secrets|]; [|done]. rewrite app_nil_r in Ht. eapply JfsDeleteVol_deletes; [done..|exact Hj].
  - intros volume. unfold Provisioner_Delete. destruct (decide _) as [Hp|Hp].
    2: { rewrite bool_decide_false by done. by intros [? _]. }
    rewrite bool_decide_true by done. cbn [negb]. destruct (pv_csi volume) as [csi|]; [|by intros [_ [=]]].
    generalize (eq_refl (events_of i tr)). generalize (events_of i tr) at 2 3.
    intros t Ht (t1 & t2 & [[]|er] & -> & Hc & Hr)%runs_bind_done; [..|by destruct Hr as [_ [=]]]; exists csi; (split; [done|]).
    2: by left; exists t1, t2.
    right. cbn [negb] in Hr. destruct (NodePublishSecretRef csi) as [ref|]; [|by destruct Hr as [_ [=]]].
    destruct Hr as ([secret|er] & t3 & -> & Hr); [|by destruct Hr as [_ [=]]]. cbn [bind] in Hr.
    apply runs_bind_done in Hr as (t4 & t5 & [sec [er|]] & -> & Hj & Hr); [by destruct Hr as [_ [=]]|].
    eapply (JfsDeleteVol_deletes _ _ _ _ _ _ _ _ _ (t1 ++ [_])); [done..| |exact Hj]. by rewrite Ht, <-app_assoc.
Qed.
End volume_jobs.
