(* ===== verification/Witnesses.v ===== *)
(** * Witnesses

    Concrete inputs at which the hypotheses of the properties hold: sample
    process settings, pods and mounts, and executions of the programs against
    the reference environment of Cluster. *)
From S2P Require Import Prelude.
From S2P Require Import GoStrings.
From S2P Require Import Hash.
From S2P Require Import K8s.
From S2P Require Import GoTime.
From S2P Require Import Prog.
From S2P Require Import Effects.
From S2P Require Import Config.
From S2P Require Import Util.
From S2P Require Import PodUtil.
From S2P Require Import Setting.
From S2P Require Import MountTable.
From S2P Require Import Cluster.
From S2P Require Import PodDriver.
From S2P Require Import PodDriverFacts.
From S2P Require Import JfsSetting.
From S2P Require Import Builder.
From S2P Require Import BuilderFacts.
From S2P Require Import PodMount.
From S2P Require Import PodMountFacts.
From S2P Require Import MountRefs.
From S2P Require Import ProcessMount.
From S2P Require Import Juicefs.
From S2P Require Import JuicefsFacts.
From S2P Require Import ProcessFacts.
#[local] Open Scope Z_scope.
#[local] Open Scope go_scope.

(** ** Samples *)

#[local] Instance sample_globals : Globals :=
  {| g_ByProcess := false; g_FormatInPod := false; g_Provisioner := false; g_Webhook := false;
     g_Immutable := false; g_DriverName := DriverName; g_ReconcileTimeout := 5 * Minute;
     g_ReconcilerInterval := 5; g_SecretReconcilerInterval := 60 * Minute; g_NodeName := "node-1"; g_Namespace := "kube-system";
     g_HostIp := "10.0.0.1"; g_KubeletPort := "10250";
     g_CSIPod := {| p_meta := empty_meta; p_spec := empty_spec; p_status := empty_status |};
     g_MountPointPath := "/var/lib/juicefs/volume"; g_JFSConfigPath := "/var/lib/juicefs/config";
     g_JFSMountPriorityName := "system-node-critical"; g_JFSMountPreemptionPolicy := "";
     g_DefaultCEMountImage := "juicedata/mount:ce-nightly";
     g_DefaultEEMountImage := "juicedata/mount:ee-nightly";
     g_TZ := 0; g_EnableNodeSelector := false; g_MountPodPatch := [] |}.

#[local] Instance sample_quantities : QuantityParser := {| ParseQuantity := fun s => if bool_decide (s = "5Gi") then Some (5 * Gi) else None; QuantityString := pretty |}.

#[local, refine] Instance sample_jobs : MountJobs :=
  {| CleanCache := fun _ image _ _ _ => r <- sys (ExecuteInContainer image "" "" ["clean"]) ;; Ret r.2 |}.
Proof.
  - intros. solve_avoids.
  - intros. solve_avoids.
  - intros. solve_needs.
Defined.

Definition named (name : string) : ObjectMeta :=
  {| Name := name; Namespace := "kube-system"; UID := ""; ResourceVersion := ""; Labels := None;
     Annotations := None; Finalizers := []; CreationTimestamp := 0; DeletionTimestamp := None; OwnerReferences := None |}.
Definition mount_container : Container :=
  with_resources {| Limits := None; Requests := Some {[ "cpu" := nano ]} |}
    (with_command ["sh"; "-c"; "/bin/mount.juicefs redis://localhost /jfs/pvc-1"] empty_container).
Definition phase_status (phase reason : string) : PodStatus :=
  {| Phase := phase; Reason := reason; Message := ""; Conditions := []; ContainerStatuses := [];
     InitContainerStatuses := [] |}.

(** A mount pod nobody uses. *)
Definition idle_pod : Pod :=
  {| p_meta := named "mount-1"; p_spec := with_containers [mount_container] empty_spec;
     p_status := phase_status "Running" "" |}.
(** A mount pod that the kubelet rejected. *)
Definition rejected_pod : Pod :=
  {| p_meta := with_finalizers [Finalizer] (with_annotations (Some {[ "a" := "b" ]}) (named "mount-1"));
     p_spec := with_containers [mount_container] empty_spec;
     p_status := phase_status "Failed" "OutOfcpu" |}.

Definition with_pod (p : Pod) : cluster := set_pods (fun _ => {[ key_of p := p ]}) empty_cluster.

(** The run of a program in a cluster. *)
Abbreviation trace_in w p := (exec_trace (S := jfs) serve w p).
Abbreviation out_in w p := (exec_out (S := jfs) serve w p).

(** ** The mount pod driver *)

Lemma checkAnnotations_delete_safe_witness :
  let t := trace_in (with_pod idle_pod) (checkAnnotations newMountInfoTable idle_pod) in
  happens (S := jfs) (fun e => is_delete_pod (projT1 e)) t = true /\
  deletes_only_unreferenced idle_pod t.
Proof.
  split; [by vm_compute|].
  exact (proj1 (checkAnnotations_delete_safe newMountInfoTable idle_pod _ _
                  (exec_runs (S := jfs) serve (with_pod idle_pod) _))).
Defined.

(** An idle pod whose deletion is to be delayed. *)
Definition delayed_pod : Pod :=
  with_meta (with_annotations (Some {[ DeleteDelayTimeKey := "5m" ]}) (p_meta idle_pod)) idle_pod.

Lemma checkAnnotations_patches_witness :
  let t := trace_in (with_pod delayed_pod) (checkAnnotations newMountInfoTable delayed_pod) in
  happens (S := jfs) (fun e => is_patch_pod (projT1 e)) t = true /\
  forall t1 e t2, t = t1 ++ e :: t2 -> gc_patch newMountInfoTable delayed_pod t1 (projT1 e).
Proof.
  split; [by vm_compute|].
  exact (checkAnnotations_patches newMountInfoTable delayed_pod _ _
           (exec_runs (S := jfs) serve (with_pod delayed_pod) _)).
Defined.

(** A pod rejected for lack of cpu, with its deletion delayed and one
    finalizer more than the driver's in the second case. *)
Definition delayed_rejected_pod (finalizers : list string) : Pod :=
  with_meta (with_finalizers finalizers (p_meta delayed_pod)) rejected_pod.

Lemma Run_writes_witness :
  let pod := delayed_rejected_pod [Finalizer] in
  let t := trace_in (with_pod pod) (Run 3 newMountInfoTable pod) in
  happens (S := jfs) (fun e => is_create_pod (projT1 e)) t = true /\
  forall t1 e t2, t = t1 ++ e :: t2 -> run_writes newMountInfoTable pod t1 (projT1 e).
Proof.
  split; [by vm_compute|].
  exact (Run_writes 3 newMountInfoTable (delayed_rejected_pod [Finalizer]) _ _
           (exec_runs (S := jfs) serve (with_pod (delayed_rejected_pod [Finalizer])) _)).
Defined.

Lemma Run_terminates_witness :
  let pod := delayed_rejected_pod [Finalizer; "example.com/hold"] in
  let p := Run 2 newMountInfoTable pod in
  out_in (with_pod pod) p = Halted NoFuel /\ (2 <= jpolls (trace_in (with_pod pod) p))%nat.
Proof.
  assert (out_in (with_pod (delayed_rejected_pod [Finalizer; "example.com/hold"]))
            (Run 2 newMountInfoTable (delayed_rejected_pod [Finalizer; "example.com/hold"]))
          = Halted NoFuel) as Ho by by vm_compute.
  split; [exact Ho|].
  apply (Run_terminates 2 newMountInfoTable (delayed_rejected_pod [Finalizer; "example.com/hold"])).
  rewrite <-Ho. apply exec_runs.
Defined.

Lemma podErrorHandler_settles_witness :
  let pod := {| p_meta := named "mount-1";
                p_spec := p_spec (DeleteResourceOfPod (recreated_pod rejected_pod));
                p_status := phase_status "Failed" "OutOfcpu" |} in
  IsPodResourceError pod = true /\
  length (trace_in (with_pod pod) (podErrorHandler 3 (Some pod))) = 2%nat.
Proof.
  split; [by vm_compute|].
  by rewrite (proj2 (podErrorHandler_settles 3 rejected_pod (named "mount-1")
    (phase_status "Failed" "OutOfcpu") _ _ (exec_runs (S := jfs) serve (with_pod _) _))).
Defined.

(** A deleted mount pod with the finalizer. *)
Definition deleted_pod : Pod :=
  with_meta (with_deletion (Some 7) (with_finalizers [Finalizer] (named "mount-1"))) idle_pod.

Lemma podDeletedHandler_once_witness :
  exists (r : option error) t',
    trace_in (with_pod deleted_pod) (podDeletedHandler 3 newMountInfoTable (Some deleted_pod))
    = ev (S := jfs) (finalizer_patch deleted_pod) r :: t'.
Proof.
  destruct (podDeletedHandler_once 3 newMountInfoTable deleted_pod _ _
              (exec_runs (S := jfs) serve (with_pod deleted_pod) _)) as [(H & _)|(_ & r & t' & H & _)].
  - exfalso. apply H. by left.
  - by exists r, t'.
Defined.

Definition app_target : string :=
  "/var/lib/kubelet/pods/uid-1/volumes/kubernetes.io~csi/pvc-1/mount".
Definition corrupt_target : targetItem :=
  set_status (new_item app_target "" 1) targetStatusCorrupt None.
Definition corrupt_item : mountItem :=
  {| podExist := true; podDeleted := false; baseTarget := corrupt_target; subPathTarget := [] |}.

Lemma umountTargetUntilRemain_runs_witness :
  let p := umountTargetUntilRemain corrupt_item app_target 0 in
  let t := trace_in empty_cluster p in
  happens (S := jfs) (fun e => is_lazy_umount (projT1 e)) t = true /\
  exists e, out_in empty_cluster p = Done (Some e).
Proof.
  split; [by vm_compute|].
  destruct (umountTargetUntilRemain_runs corrupt_item app_target 0 _ _
              (exec_runs (S := jfs) serve empty_cluster _)) as [H|(e & t0 & r & c & H & _)].
  - exfalso. revert H. by vm_compute.
  - by exists e.
Defined.


Lemma stuck_timeout_minute_witness :
  let spec := {| NodeName := ""; NodeSelector := ∅; Containers := []; InitContainers := []; Volumes := [];
                 RestartPolicy := ""; TerminationGracePeriodSeconds := Some 3600; PriorityClassName := "";
                 ServiceAccountName := ""; HostNetwork := false; HostPID := false; PreemptionPolicy := None;
                 Affinity := ""; SchedulerName := ""; Tolerations := ""; inherited := "" |} in
  stuck_timeout (with_spec spec idle_pod) = Minute.
Proof. apply stuck_timeout_minute. simpl. lia. Defined.

(** ** Mounting through a pod *)

(** Five attempts, ten milliseconds apart, as client-go's default. *)
#[local] Instance sample_retry : Retry := retry_instance (10 * Millisecond) 4.

(** A decoder that knows no YAML: every text is an empty map. *)
#[local] Instance sample_codec : SettingCodec :=
  {| decode_setting := fun _ s => Ok s; decode_map := fun _ => Ok ∅; decode_inline := fun _ => Ok [];
     encode_patch := fun _ => ""; decode_patch := fun _ p => p; selector_matches := fun _ => None;
     encode_setting := fun s => js_Name s |}.

Definition sample_target : string :=
  "/var/lib/kubelet/pods/uid-1/volumes/kubernetes.io~csi/pvc-1/mount".
Definition mount_name : string := "juicefs-node-1-pvc-1-abcdef".
Definition sample_setting : JfsSetting :=
  with_MountPath "/jfs/pvc-1" (with_paths sample_target "" (with_identity "pvc-1" "pvc-1" "uuid-1"
    (with_Options ["cache-size=100"] (with_CacheDirs ["/var/jfsCache"]
       match ParseSetting (Some (<[ "name" := "myjfs" ]> {[ "metaurl" := "redis://localhost" ]})) None [] true None None with
       | Ok s => s
       | Err _ => empty_setting
       end)))).
(** Mounted under its name. *)
Definition placed_sample : JfsSetting := default sample_setting (placed_setting sample_setting mount_name).
Definition mount_pod_1 : Pod :=
  {| p_meta := named mount_name; p_spec := with_containers [mount_container] empty_spec;
     p_status := phase_status "Running" "" |}.

Lemma AddRefOfMount_adds_witness :
  let t := trace_in (with_pod mount_pod_1) (AddRefOfMount sample_target mount_name) in
  happens (S := jfs) (fun e => is_patch_pod (projT1 e)) t = true /\ ref_shown sample_target mount_name t.
Proof.
  assert (out_in (with_pod mount_pod_1) (AddRefOfMount sample_target mount_name) = Done None) as Ho
    by by vm_compute.
  split; [by vm_compute|].
  exact (proj2 (AddRefOfMount_adds sample_target mount_name _ _
                  (exec_runs (S := jfs) serve (with_pod mount_pod_1) _)) Ho).
Defined.

Lemma JUmount_deletes_unreferenced_witness :
  let t := trace_in (with_pod mount_pod_1) (JUmount mount_name) in
  happens (S := jfs) (fun e => is_delete_pod (projT1 e)) t = true /\
  forall t1 e t2, t = t1 ++ e :: t2 -> jumount_writes mount_name t1 (projT1 e).
Proof.
  split; [by vm_compute|].
  exact (JUmount_deletes_unreferenced mount_name _ _
           (exec_runs (S := jfs) serve (with_pod mount_pod_1) _)).
Defined.

Lemma createOrAddRef_creates_witness :
  let t := trace_in empty_cluster (createOrAddRef 2 mount_name sample_setting None) in
  happens (S := jfs) (fun e => is_create_pod (projT1 e)) t = true /\
  forall t1 e t2, t = t1 ++ e :: t2 ->
    create_writes mount_name (GenHashOfSetting sample_setting) placed_sample t1 (projT1 e).
Proof.
  split; [by vm_compute|].
  exact (createOrAddRef_creates 2 mount_name sample_setting placed_sample None _ _ eq_refl
           (exec_runs (S := jfs) serve empty_cluster _)).
Defined.

(** A cluster in which the target is not mounted. *)
Definition unmounted_cluster : cluster :=
  let w := with_pod (with_meta (with_annotations (Some {[ GetReferenceKey sample_target := sample_target ]})
                                  (named mount_name)) mount_pod_1) in
  {| cl_pods := cl_pods w; cl_secrets := cl_secrets w; cl_jobs := cl_jobs w; cl_stats := cl_stats w;
     cl_mounts := cl_mounts w; cl_nodes := cl_nodes w;
     cl_outputs := {[ "umount -l " +:+ sample_target := "umount: not mounted" ]}; cl_clock := 0; cl_pvs := [] |}.

Lemma UmountTarget_order_witness :
  let t := trace_in unmounted_cluster (UmountTarget 2 sample_target mount_name) in
  happens (S := jfs) (fun e => is_patch_pod (projT1 e)) t = true /\
  forall t1 e t2, t = t1 ++ e :: t2 -> umount_writes sample_target t1 (projT1 e).
Proof.
  split; [by vm_compute|].
  exact (UmountTarget_order 2 sample_target mount_name _ _
           (exec_runs (S := jfs) serve unmounted_cluster _)).
Defined.

Lemma NewMountPod_mount_path_witness :
  exists pod, GetMountPathOfPod pod = Ok ("/jfs/pvc-1-abcdef", "pvc-1-abcdef").
Proof.
  pose proof (exec_runs (S := jfs) serve empty_cluster (NewMountPod placed_sample mount_name)) as Hr.
  destruct (out_in empty_cluster (NewMountPod placed_sample mount_name)) as [[pod s']|] eqn:Ho.
  - exists pod. apply (NewMountPod_mount_path placed_sample mount_name _ pod s' "" "pvc-1-abcdef" [] Hr).
    + by split.
    + reflexivity.
    + reflexivity.
    + intros Hce. exfalso. by vm_compute in Hce.
    + by repeat constructor.
  - exfalso. revert Ho. by vm_compute.
Defined.

Lemma NewMountPod_volumes_consistent_witness :
  exists pod, length (Volumes (p_spec pod)) = 3%nat /\ NoDup (map v_name (Volumes (p_spec pod))).
Proof.
  pose proof (exec_runs (S := jfs) serve empty_cluster (NewMountPod placed_sample mount_name)) as Hr.
  assert (match out_in empty_cluster (NewMountPod placed_sample mount_name) with
          | Done (pod, _) => length (Volumes (p_spec pod)) = 3%nat | _ => False end) as Hl by by vm_compute.
  destruct (out_in empty_cluster (NewMountPod placed_sample mount_name)) as [[pod s']|]; [|done].
  exists pod. split; [done|]. apply (NewMountPod_volumes_consistent placed_sample mount_name _ pod s' Hr).
Defined.

(** A setting with secrets. *)
Definition secret_setting : JfsSetting :=
  match ParseSetting (Some (<[ "name" := "myjfs" ]> (<[ "secretkey" := "s3cret" ]>
                              {[ "metaurl" := "redis://:pw@localhost" ]}))) None [] true None None with
  | Ok s => s
  | Err _ => empty_setting
  end.

Lemma NewMountPod_hides_secrets_witness :
  SecretKey secret_setting = "s3cret" /\
  out_in empty_cluster (NewMountPod secret_setting "m") <> Halted NoFuel /\
  match out_in empty_cluster (NewMountPod secret_setting "m") with
  | Done (pod, _) =>
      exists s'', runs (NewMountPod (redact secret_setting) "m")
                    (trace_in empty_cluster (NewMountPod secret_setting "m")) (Done (pod, s''))
  | Halted _ => False
  end.
Proof.
  split; [by vm_compute|].
  pose proof (exec_runs (S := jfs) serve empty_cluster (NewMountPod secret_setting "m")) as Hr.
  assert (match out_in empty_cluster (NewMountPod secret_setting "m") with Done _ => True | _ => False end) as Ho
    by by vm_compute.
  destruct (out_in empty_cluster (NewMountPod secret_setting "m")) as [[pod s']|]; [|done].
  split; [done|]. exact (NewMountPod_hides_secrets secret_setting "m" _ pod s' Hr).
Defined.

(** ** The provider *)

Lemma JfsUnmount_safe_witness :
  let p := JfsUnmount 2 "pvc-1" sample_target in
  let t := trace_in unmounted_cluster p in
  happens (S := jfs) (fun e => is_delete_pod (projT1 e)) t = true /\
  forall t1 e t2, t = t1 ++ e :: t2 -> unmount_writes sample_target t1 (projT1 e).
Proof.
  split; [by vm_compute|].
  exact (proj2 (JfsUnmount_safe 2 "pvc-1" sample_target) eq_refl _ _
           (exec_runs (S := jfs) serve unmounted_cluster _)).
Defined.

Definition ee_secrets (key : string) : smap :=
  <[ "name" := "vol" ]> (<[ "token" := key ]> {[ "secretkey" := key ]}).

Lemma commands_hide_secrets_witness :
  let p s := AuthFs (Some s) empty_setting false in
  let t := trace_in empty_cluster (p (ee_secrets "aaa")) in
  let cmd := "/usr/bin/juicefs auth vol --token=${token} --secret-key=${secretkey}" in
  exists s2, runs (p (ee_secrets "bbb")) t (Done (s2, Ok cmd)).
Proof.
  assert (same_public (ee_secrets "aaa") (ee_secrets "bbb")) as Hs.
  { intros k. unfold ee_secrets. destruct (decide (k = "token")) as [->|H1]; [by vm_compute|].
    destruct (decide (k = "secretkey")) as [->|H2]; [by vm_compute|].
    destruct (decide (k = "name")) as [->|H3]; [by vm_compute|].
    rewrite !lookup_insert_ne, !lookup_singleton_ne by done. by destruct (bool_decide _). }
  pose proof (exec_runs (S := jfs) serve empty_cluster (AuthFs (Some (ee_secrets "aaa")) empty_setting false)) as Hr.
  assert (match out_in empty_cluster (AuthFs (Some (ee_secrets "aaa")) empty_setting false) with
          | Done (_, r) => r = Ok "/usr/bin/juicefs auth vol --token=${token} --secret-key=${secretkey}"
          | Halted _ => False end) as Ho by by vm_compute.
  destruct (out_in empty_cluster (AuthFs (Some (ee_secrets "aaa")) empty_setting false)) as [[s1 r]|]; [|done].
  assert (g_ByProcess = false) as Hb by reflexivity.
  assert (same_public_options (FormatOptions empty_setting) (FormatOptions empty_setting)) as Hf
    by (split; [done|constructor]).
  subst r. apply (proj1 (commands_hide_secrets (ee_secrets "aaa") (ee_secrets "bbb") empty_setting empty_setting
                           false _ Hb Hs eq_refl Hf) s1). exact Hr.
Defined.

Lemma parseVersion_String_witness :
  let v := {| Major := 4; Minor := 9; Patch := 0; Tag := "rc.1" |} in
  version_String v = "4.9.0-rc.1" /\ parseVersion "4.9.0-rc.1" = Ok v.
Proof.
  split; [reflexivity|]. apply (parseVersion_String {| Major := 4; Minor := 9; Patch := 0; Tag := "rc.1" |}).
  split_and!; simpl; (lia || done).
Defined.

Lemma validTarget_safe_witness :
  runs (validTarget sample_target) [] (Done None) /\
  exists dir, kubelet_dir = Some dir /\ (sample_target = dir \/ exists rest, sample_target = dir +:+ "/pods/" +:+ rest).
Proof.
  assert (runs (validTarget sample_target) [] (Done None)) as Hr by by vm_compute.
  split; [exact Hr|]. apply (proj1 (validTarget_safe sample_target) [] Hr). reflexivity.
Defined.


Lemma validOptions_space_witness :
  validOptions ["buffer-size =99999999999"] ∅ = Ok ["buffer-size=99999999999"].
Proof. apply (validOptions_space ∅ "99999999999"); reflexivity. Defined.

(** A target bound to the file system (device 7), and another mount after it. *)
Definition bound_cluster : cluster :=
  let mi m p := {| mi_minor := m; mi_root := "/"; mi_mountPoint := p |} in
  {| cl_pods := ∅; cl_secrets := ∅; cl_jobs := ∅; cl_stats := ∅;
     cl_mounts := [mi 7 "/jfs/pvc-1"; mi 7 sample_target; mi 9 "/run/user"]; cl_nodes := [];
     cl_outputs := ∅; cl_clock := 0; cl_pvs := [] |}.
Definition sample_fs : Jfs :=
  {| fs_Name := "vol"; fs_MountPath := "/jfs/pvc-1"; fs_Options := []; fs_Setting := empty_setting |}.

Definition table_answer (e : event jfs) : option (res (list MountInfo)) :=
  match e with existT c a => match c return jfs_answer c -> option (res (list MountInfo)) with
                             | ParseMountInfo => Some | _ => fun _ => None end a end.

(** The target is already bound, and is unmounted all the same. *)
Lemma BindTarget_plan_witness :
  let t := trace_in bound_cluster (BindTarget sample_fs "/jfs/pvc-1/pvc-1" sample_target) in
  exists r t' o, t = ev (S := jfs) ParseMountInfo (Ok (cl_mounts bound_cluster)) :: ev (S := jfs) (LazyUmount sample_target) r :: t' /\
    binds "/jfs/pvc-1/pvc-1" sample_target t' o.
Proof.
  destruct (BindTarget_plan sample_fs "/jfs/pvc-1/pvc-1" sample_target _ _
              (exec_runs (S := jfs) serve bound_cluster _)) as (r & t' & Ht & Hr).
  assert (head (trace_in bound_cluster (BindTarget sample_fs "/jfs/pvc-1/pvc-1" sample_target)) =
    Some (ev (S := jfs) ParseMountInfo (Ok (cl_mounts bound_cluster)))) as Hh by (vm_compute; reflexivity).
  rewrite Ht in Hh. injection Hh as Hh. apply (f_equal table_answer) in Hh. injection Hh as ->.
  destruct Hr as [_ Hr]. destruct Hr as (m & Hm & _ & Hr); [by left|].
  destruct Hr as (l & z & Hl & _ & Hr); [right; by left|].
  assert (mi_minor m = 7) as Hm7.
  { destruct Hm as (l1 & l2 & Hm & Hp & _). assert (m ∈ l1 ++ m :: l2) as Hin by set_solver. rewrite <-Hm in Hin.
    repeat (apply elem_of_cons in Hin as [->|Hin]; [reflexivity || discriminate Hp|]). by apply elem_of_nil in Hin. }
  assert (z = {| mi_minor := 9; mi_root := "/"; mi_mountPoint := "/run/user" |}) as ->.
  { apply (f_equal last) in Hl. rewrite last_snoc in Hl. by injection Hl. }
  destruct Hr as (r' & t'' & -> & Hb); [by rewrite Hm7|]. by exists r', t'', (out_in bound_cluster (BindTarget sample_fs "/jfs/pvc-1/pvc-1" sample_target)).
Defined.

Lemma SetQuota_rounds_down_witness :
  exists c, 1 <= c /\ c * 2 ^ 30 <= 5368709121 < (c + 1) * 2 ^ 30.
Proof.
  destruct (proj2 (SetQuota_rounds_down (Some {[ "name" := "vol" ]}) empty_setting "/pvc-1" 5368709121))
    as (c & Hc & Hb & _); [lia|]. exists c. split; [exact Hc|exact Hb].
Defined.

Lemma ParseToBytes_exact_witness : ParseToBytes "300" = Ok (300 * 2 ^ 20) /\ ParseToBytes "2G" = Ok (2 * 2 ^ 30).
Proof.
  split.
  - apply (proj1 (ParseToBytes_exact 300 ltac:(lia))). lia.
  - apply (proj2 (ParseToBytes_exact 2 ltac:(lia)) (Ascii.ascii_of_nat 71) 30); [reflexivity|lia].
Defined.

(** Two mounts of one device: the file system and the target. *)
Definition proc_table : string :=
  "10 1 0:7 / /var/lib/jfs/v rw - fuse.juicefs JuiceFS:v rw" +:+ newline +:+
  "11 1 0:7 / /data rw - fuse.juicefs JuiceFS:v rw" +:+ newline.
Definition two_mounts : cluster :=
  {| cl_pods := ∅; cl_secrets := ∅; cl_jobs := ∅;
     cl_stats := {[ "/data" := {| fi_perm := 511; fi_stat := Some (1, 7); fi_dir := true |} ]};
     cl_mounts := [{| mi_minor := 7; mi_root := "/"; mi_mountPoint := "/data" |}]; cl_nodes := [];
     cl_outputs := {[ "cat /proc/self/mountinfo" := proc_table ]}; cl_clock := 0; cl_pvs := [] |}.


Lemma ce_jmount_ready_witness :
  let p := ce_jmount 2 "redis://localhost" "/data" [] ∅ in
  exists t0 fi dev, trace_in two_mounts p = t0 ++ [ev (S := jfs) (Stat "/data") (Ok fi)] /\ fi_stat fi = Some (1, dev).
Proof.
  assert (out_in two_mounts (ce_jmount 2 "redis://localhost" "/data" [] ∅) = Done None) as Ho by by vm_compute.
  apply (ce_jmount_ready 2 "redis://localhost" "/data" [] ∅). rewrite <- Ho.
  apply (exec_runs (S := jfs) serve two_mounts).
Defined.
