(* ===== verification/ServiceWitnesses.v ===== *)
(** * Witnesses of the services

    Concrete inputs at which the hypotheses of the properties of the CSI
    services hold. *)
From S2P Require Import Prelude.
From S2P Require Import GoStrings.
From S2P Require Import K8s.
From S2P Require Import GoTime.
From S2P Require Import Prog.
From S2P Require Import Effects.
From S2P Require Import Config.
From S2P Require Import Util.
From S2P Require Import VolumeUtil.
From S2P Require Import Setting.
From S2P Require Import PodMount.
From S2P Require Import ProcessMount.
From S2P Require Import Juicefs.
From S2P Require Import DriverServices.
From S2P Require Import DriverFacts.
From S2P Require Import Cluster.
From S2P Require Import Witnesses.
#[local] Open Scope Z_scope.
#[local] Open Scope go_scope.
#[local] Existing Instances sample_globals sample_quantities sample_retry sample_codec.

Definition dynamic_id : string := "pvc-3f0b2c1a-1111-2222-3333-0123456789ab".
Definition delete_call : Vols * string * option smap := (∅, dynamic_id, Some {[ "name" := "vol" ]}).

(** The PV is gone: the first handler fails after taking the lock, the second
    is turned away in between. *)
Definition delete_trace : jtrace := exec_trace (S := jfs) serve empty_cluster (DeleteVolume 1 ∅ dynamic_id (Some {[ "name" := "vol" ]})).
Definition delete_schedule : schedule :=
  match delete_trace with
  | e :: t => (0%nat, e) :: (1%nat, ev (S := jfs) (TryAcquireVolume dynamic_id) false) :: map (pair 0%nat) t
  | [] => []
  end.

Lemma delete_schedule_runs i a :
  [delete_call; delete_call] !! i = Some a ->
  exists o, o <> Halted NoFuel /\ runs (DeleteVolume 1 a.1.1 a.1.2 a.2) (handler i delete_schedule) o.
Proof.
  intros Ha. destruct i as [|[|i]]; [..|done]; injection Ha as <-.
  - exists (exec_out (S := jfs) serve empty_cluster (DeleteVolume 1 ∅ dynamic_id (Some {[ "name" := "vol" ]}))).
    split; [by vm_compute|]. exact (exec_runs (S := jfs) serve empty_cluster _).
  - eexists. split; [|exists false, []; split; [vm_compute; reflexivity|split; vm_compute; reflexivity]]. done.
Qed.

Lemma DeleteVolume_exclusive_witness :
  length delete_schedule = 4%nat /\
  table_after ∅ delete_schedule = Some ∅.
Proof.
  split; [by vm_compute|].
  assert (exists vl, table_after ∅ delete_schedule = Some vl) as [vl Hvl] by (eexists; vm_compute; reflexivity).
  assert (forall i call, [delete_call; delete_call] !! i = Some call ->
            deleting 1 call (handler i delete_schedule)) as Hd.
  { intros i call Hc. destruct (delete_schedule_runs i call Hc) as (o & _ & Hr).
    exists [], o. by rewrite app_nil_r. }
  destruct (DeleteVolume_exclusive 1 [delete_call; delete_call] delete_schedule vl Hd) as (_ & _ & Hfree).
  { repeat constructor; eexists; reflexivity. }
  { exact Hvl. }
  rewrite Hvl. f_equal. exact (Hfree delete_schedule_runs).
Defined.

(** ** The provisioner *)

Definition pv_source (secret : string) : CSIPersistentVolumeSource :=
  {| Driver := DriverName; VolumeHandle := "pv-1"; ReadOnly := false; FSType := FsType;
     VolumeAttributes := {[ "subPath" := "a/b"; "pathPattern" := "${.PVC.name}"; "secretFinalizer" := "true";
                            ProvisionerSecretName := secret; ProvisionerSecretNamespace := "kube-system" ]};
     NodePublishSecretRef := Some {| sr_name := secret; sr_namespace := "kube-system" |};
     ControllerExpandSecretRef := None |}.
Definition sample_pv (name : string) : PersistentVolume :=
  {| pv_meta := named name; pv_csi := Some (pv_source "secret-1"); pv_claimRef := Some ("claim-1", "default");
     pv_storageClassName := "juicefs-sc"; pv_reclaimPolicy := "Delete"; pv_mountOptions := [];
     pv_capacity := 5 * 2 ^ 30; pv_accessModes := ["ReadWriteMany"]; pv_volumeMode := None |}.

Definition volume_secret : Secret :=
  {| s_meta := with_finalizers [Finalizer] (named "secret-1");
     Data := {[ "name" := "vol"; "metaurl" := "redis://localhost" ]}; StringData := ∅ |}.
Definition provisioned_cluster (pvs : list PersistentVolume) : cluster :=
  {| cl_pods := ∅; cl_secrets := {[ ("secret-1", "kube-system") := volume_secret ]}; cl_jobs := ∅;
     cl_stats := ∅; cl_mounts := []; cl_nodes := []; cl_outputs := ∅; cl_clock := 0; cl_pvs := pvs |}.
Definition creates_job (e : event jfs) : bool := match projT1 e with CreateJob _ => true | _ => false end.

(** The cluster with a claim for every volume. *)
Definition sample_claim (name namespace : string) : PersistentVolumeClaim :=
  {| pvc_meta := {| Name := name; Namespace := namespace; UID := ""; ResourceVersion := ""; Labels := None;
                    Annotations := None; Finalizers := []; CreationTimestamp := 0; DeletionTimestamp := None; OwnerReferences := None |};
     pvc_storageClassName := Some "juicefs-sc"; pvc_volumeName := "pv-1"; pvc_accessModes := ["ReadWriteMany"];
     pvc_storage := 5 * 2 ^ 30; pvc_selector := None; pvc_volumeMode := None;
     pvc_phase := "Bound" |}.
Definition serve_claims (w : cluster) (c : jfs_cmd) : cluster * jfs_answer c :=
  match c return cluster * jfs_answer c with
  | GetPersistentVolumeClaim n ns => (w, Ok (sample_claim n ns))
  | c => serve w c
  end.


(** ** The controller and node services *)

Definition create_request (bytes : Z) : CreateVolumeRequest :=
  {| cv_Name := "pvc-1"; cv_Capabilities := [{| vc_access := MountAccess []; vc_mode := MULTI_NODE_MULTI_WRITER |}];
     cv_RequiredBytes := bytes; cv_Parameters := ∅ |}.

Lemma CreateVolume_remembers_witness :
  exists msg, CreateVolume {[ "pvc-1" := 5 ]} (create_request 6) = ({[ "pvc-1" := 5 ]}, Err (StatusError AlreadyExists msg)).
Proof.
  assert (forall b, well_formed (create_request b)) as Hw by (intros b; split_and!; done).
  destruct (CreateVolume_remembers ∅ (create_request 5) (create_request 6) (Hw 5) (Hw 6) eq_refl ltac:(by vm_compute))
    as (_ & _ & _ & _ & Hl).
  destruct (Hl ltac:(cbn; lia)) as [msg Hm]. exists msg. exact Hm.
Defined.

(** A mounted target that exists. *)
Definition mounted_cluster : cluster :=
  {| cl_pods := ∅; cl_secrets := ∅; cl_jobs := ∅;
     cl_stats := {[ "/data" := {| fi_perm := 511; fi_stat := Some (1, 7); fi_dir := true |} ]};
     cl_mounts := [{| mi_minor := 7; mi_root := "/"; mi_mountPoint := "/data" |}]; cl_nodes := [];
     cl_outputs := ∅; cl_clock := 0; cl_pvs := [] |}.

Definition statfs_answer (e : event jfs) : option (res (Z * Z * Z * Z * Z)) :=
  match e with
  | existT c a =>
      match c return jfs_answer c -> option (res (Z * Z * Z * Z * Z)) with
      | Statfs _ => fun a => Some a
      | _ => fun _ => None
      end a
  end.

Lemma NodeGetVolumeStats_exact_witness :
  exists bytes inodes,
    out_in mounted_cluster (NodeGetVolumeStats "pvc-1" "/data") = Done (Ok (bytes, inodes)) /\
    bytes = exact_usage 4096 1000 600 /\ inodes = exact_usage 1 100 40.
Proof.
  destruct (out_in mounted_cluster (NodeGetVolumeStats "pvc-1" "/data")) as [[[bytes inodes]|e]|s] eqn:Ho;
    [|vm_compute in Ho; discriminate Ho..].
  exists bytes, inodes. split; [reflexivity|].
  pose proof (exec_runs (S := jfs) serve mounted_cluster (NodeGetVolumeStats "pvc-1" "/data")) as Hr.
  change (exec_out (S := jfs) serve mounted_cluster _) with
    (out_in mounted_cluster (NodeGetVolumeStats "pvc-1" "/data")) in Hr.
  rewrite Ho in Hr.
  destruct (NodeGetVolumeStats_exact "pvc-1" "/data" _ bytes inodes Hr) as (_ & _ & a & Ha & Hb).
  assert (a = Ok (4096, 1000, 600, 100, 40)) as ->.
  { apply (list_elem_of_fmap_2 statfs_answer) in Ha. cbn [statfs_answer ev] in Ha.
    replace (statfs_answer <$> _) with
      [None; None; None; None; Some (Ok (4096, 1000, 600, 100, 40))] in Ha by (vm_compute; reflexivity).
    repeat (apply elem_of_cons in Ha as [Ha|Ha]; [try discriminate Ha|]); [by injection Ha as ->|].
    by apply elem_of_nil in Ha. }
  destruct Hb as (H1 & H2 & _); [lia..|]. split; [exact H1|exact H2].
Defined.
