(* ===== verification/ControllerWitnesses.v ===== *)
(** * Witnesses of the controllers

    Concrete inputs at which the hypotheses of the properties of the
    reconcilers hold. *)
From S2P Require Import Prelude.
From S2P Require Import GoStrings.
From S2P Require Import K8s.
From S2P Require Import GoTime.
From S2P Require Import Prog.
From S2P Require Import Effects.
From S2P Require Import Config.
From S2P Require Import Util.
From S2P Require Import Setting.
From S2P Require Import MountTable.
From S2P Require Import PodDriver.
From S2P Require Import Controllers.
From S2P Require Import ControllersFacts.
From S2P Require Import Cluster.
From S2P Require Import Witnesses.
#[local] Open Scope Z_scope.
#[local] Open Scope go_scope.
#[local] Existing Instances sample_globals sample_quantities sample_retry sample_codec sample_jobs.

(** ** The polling loop *)

Definition polled_pod : Pod :=
  {| p_meta := with_labels (Some {[ PodTypeKey := PodTypeValue ]}) (named "juicefs-node-1-pvc-1");
     p_spec := empty_spec; p_status := empty_status |}.
Lemma polled_pod_unique : distinct_names [polled_pod].
Proof.
  unfold distinct_names. apply NoDup_fmap_2_strong; [|apply NoDup_ListNoDup, List.NoDup_filter, NoDup_ListNoDup, NoDup_singleton].
  intros x y [Hx _]%list_elem_of_In%filter_In [Hy _]%list_elem_of_In%filter_In _. destruct Hx as [<-|[]], Hy as [<-|[]]. done.
Qed.

(** Three rounds in the reference cluster, five seconds apart: the pod keeps its
    status and is handed over in the first one only. *)
Definition three_rounds : M LastStatus := doReconcile 1 3 ∅.
Definition handed_once (rs : list (list Pod * list Pod)) : Prop :=
  forall i j ri rj, (i < j)%nat -> rs !! i = Some ri -> rs !! j = Some rj -> polled_pod ∈ ri.2 -> polled_pod ∈ rj.2 ->
  exists k rk, (i <= k <= j)%nat /\ rs !! k = Some rk /\ changed (pod_name polled_pod) podPending rk.1.

Lemma clock_bounded lo hi t :
  forallb (fun e => match clock_reading e with Some n => (lo <=? n) && (n <=? hi) | None => true end) t = true ->
  clock_within lo hi t.
Proof.
  intros Ht. unfold clock_within. rewrite Forall_forall. intros e He n Hn. rewrite forallb_forall in Ht.
  specialize (Ht e (proj1 (list_elem_of_In _ _) He)). rewrite Hn in Ht. apply andb_true_iff in Ht as [?%Z.leb_le ?%Z.leb_le]. lia.
Qed.

Lemma reconciler_never_retries_witness :
  exists rs last', rounds 1 ∅ (trace_in (with_pod polled_pod) three_rounds) rs last' /\ handed_once rs.
Proof.
  assert (exists last', out_in (with_pod polled_pod) three_rounds = Done last') as [last' Ho].
  { destruct (out_in (with_pod polled_pod) three_rounds) as [l|s] eqn:E; [by exists l|]. vm_compute in E. discriminate E. }
  assert (runs three_rounds (trace_in (with_pod polled_pod) three_rounds) (Done last')) as Hr.
  { rewrite <-Ho. apply exec_runs. }
  assert (clock_within 0 Minute (trace_in (with_pod polled_pod) three_rounds)) as Hc.
  { apply clock_bounded. vm_compute. reflexivity. }
  destruct (reconciler_never_retries 1 3 ∅ _ last' Hr) as (rs & Hrs & Hno). exists rs, last'. split; [exact Hrs|].
  intros i j ri rj Hij Hi Hj Hin Hin'. apply (Hno 0 Minute Hc ltac:(reflexivity) i j ri rj polled_pod polled_pod Hij Hi Hj Hin Hin' eq_refl).
Defined.

Definition listing (e : event jfs) : option (list Pod) :=
  match e with
  | existT c a =>
      match c return jfs_answer c -> option (list Pod) with
      | GetNodeRunningPods => fun r => match r with Ok l => Some l | Err _ => None end
      | _ => fun _ => None
      end a
  end.
Definition polled_cluster : cluster := with_pod polled_pod.

(** A round in the reference cluster: the goroutine of the pod runs the driver. *)
Lemma reconciler_starts_witness :
  let t := trace_in polled_cluster (reconcile_round 1 ∅) in
  exists pods mis t1 t2 t3 r,
    t = [ev (S := jfs) GetNodeRunningPods (Ok pods); ev (S := jfs) ParseMountInfo (Ok mis)] ++ t1 ++ t2 ++ t3 /\
    runs (handle_task 1 {| mis := mis; deletedPods := ∅ |} pods polled_pod) t2 (Done r).
Proof.
  set (t := trace_in polled_cluster (reconcile_round 1 ∅)).
  assert (exists last', runs (reconcile_round 1 ∅) t (Done last')) as [last' Hr].
  { destruct (exec_out (S := jfs) serve polled_cluster (reconcile_round 1 ∅)) as [l|s] eqn:E;
      [|vm_compute in E; discriminate E].
    exists l. rewrite <- E. apply exec_runs. }
  assert (clock_within 0 0 t) as Hc.
  { unfold clock_within, t. apply List.Forall_forall. intros e He n Hn.
    assert (forallb (fun e => match clock_reading e with Some n => n =? 0 | None => true end)
              (trace_in polled_cluster (reconcile_round 1 ∅)) = true) as Hall by by vm_compute.
    rewrite forallb_forall in Hall. specialize (Hall e He). rewrite Hn in Hall. apply Z.eqb_eq in Hall. lia. }
  destruct (reconciler_starts 1 ∅ t last' 0 0 Hr Hc) as [[e Ht]|[(pods & e & Ht)|(pods & mis & t' & Ht & Hin)]].
  - apply (f_equal length) in Ht. vm_compute in Ht. discriminate Ht.
  - apply (f_equal length) in Ht. vm_compute in Ht. discriminate Ht.
  - assert (pods = [polled_pod]) as ->.
    { apply (f_equal (fun t => hd_error t ≫= listing)) in Ht. vm_compute in Ht. injection Ht as <-. by vm_compute. }
    destruct (Hin polled_pod_unique polled_pod) as (t1 & t2 & t3 & r & -> & Hrun & _); [by left|by vm_compute| |].
    + intros at_ Hat. rewrite lookup_empty in Hat. discriminate Hat.
    + exists [polled_pod], mis, t1, t2, t3, r. split; [exact Ht|exact Hrun].
Defined.

(** ** The recycling controllers *)

(** Deleted, held by the finalizer, on a node without CSI pods. *)
Definition orphan_pod : Pod :=
  {| p_meta := {| Name := "mount-1"; Namespace := "juicefs"; UID := ""; ResourceVersion := ""; Labels := None;
                  Annotations := None; Finalizers := [Finalizer]; CreationTimestamp := 0; DeletionTimestamp := Some 0; OwnerReferences := None |};
     p_spec := empty_spec; p_status := empty_status |}.
Definition orphan_request : Request := {| rq_Name := "mount-1"; rq_Namespace := "juicefs" |}.
Definition orphan_cluster : cluster := with_pod orphan_pod.
Definition is_patch (e : event jfs) : bool := match projT1 e with PatchPod _ _ => true | _ => false end.

Definition read_pod (e : event jfs) : option Pod :=
  match e with
  | existT c a =>
      match c return jfs_answer c -> option Pod with
      | GetPod _ _ _ => fun r => match r with Ok p => Some p | Err _ => None end
      | _ => fun _ => None
      end a
  end.

Lemma recyclers_safe_witness :
  let t := trace_in orphan_cluster (MountController_Reconcile orphan_request) in
  happens (S := jfs) is_patch t = true /\ forall t1 e t2, t = t1 ++ e :: t2 -> mount_recycles t1 (projT1 e).
Proof.
  split; [by vm_compute|].
  exact (proj1 (recyclers_safe orphan_request _ _) (exec_runs (S := jfs) serve orphan_cluster _)).
Defined.

Lemma filters_complete_witness :
  exists pod, MountController_onCreate pod = true /\ pod_name pod = "mount-1".
Proof.
  destruct (proj1 (filters_complete orphan_request _ _) (exec_runs (S := jfs) serve orphan_cluster _))
    as (ctx & pod & Ht & Hc & _).
  { vm_compute. lia. }
  exists pod. split; [exact Hc|].
  apply (f_equal (fun o => o ≫= read_pod)) in Ht. vm_compute in Ht. injection Ht as <-. reflexivity.
Defined.
