(* ===== verification/WebhookWitnesses.v ===== *)
(** * Witnesses of the webhook and of the references

    An app pod with two claims is mutated in the reference environment; a mount
    pod is published to two targets and unpublished from one. *)
From S2P Require Import Prelude.
From S2P Require Import GoStrings.
From S2P Require Import K8s.
From S2P Require Import Prog.
From S2P Require Import Effects.
From S2P Require Import Config.
From S2P Require Import Util.
From S2P Require Import PodUtil.
From S2P Require Import VolumeUtil.
From S2P Require Import Setting.
From S2P Require Import JfsSetting.
From S2P Require Import Builder.
From S2P Require Import PodMount.
From S2P Require Import Sidecar.
From S2P Require Import Webhook.
From S2P Require Import Cluster.
From S2P Require Import SidecarFacts.
From S2P Require Import WebhookFacts.
From S2P Require Import References.
From S2P Require Import Witnesses.
From S2P Require Import ServiceWitnesses.
From Stdlib Require Import Ascii.
#[local] Open Scope Z_scope.
#[local] Open Scope go_scope.
#[local] Existing Instances sample_globals sample_quantities sample_retry sample_codec.

(** ** A codec for the propagations: the bits of an encoding *)

Fixpoint bits (p : positive) : string :=
  match p with
  | xH => ""
  | xO p => String "0" (bits p)
  | xI p => String "1" (bits p)
  end.
Fixpoint of_bits (s : string) : positive :=
  match s with
  | EmptyString => xH
  | String c s => if bool_decide (c = "0"%char) then xO (of_bits s) else xI (of_bits s)
  end.
Lemma of_bits_bits p : of_bits (bits p) = p.
Proof. induction p as [p IH|p IH|]; cbn; by rewrite ?IH. Qed.

#[local, refine] Instance sample_propagation : PropagationCodec :=
  {| marshal_propagations := fun l => bits (countable.encode l);
     unmarshal_propagations := fun s => countable.decode (of_bits s) |}.
Proof. intros l. rewrite of_bits_bits. apply countable.decode_encode. Defined.

(** ** An app with two claims *)

Definition claim_volume (name claim : string) : Volume := {| v_name := name; v_source := PVCVolume claim false |}.
Definition app_container : Container :=
  with_volumeMounts [mount_at "data" "/data"; mount_at "logs" "/logs"] (with_container_name "app" empty_container).
Definition app_sample : Pod :=
  {| p_meta := named "app-1";
     p_spec := with_volumes [claim_volume "data" "claim-1"; claim_volume "logs" "claim-2"]
                 (with_containers [app_container] empty_spec);
     p_status := empty_status |}.
Definition static_pv (name : string) : PersistentVolume :=
  {| pv_meta := named name;
     pv_csi := Some {| Driver := DriverName; VolumeHandle := name; ReadOnly := false; FSType := "juicefs"; VolumeAttributes := ∅;
                       NodePublishSecretRef := Some {| sr_name := "secret-1"; sr_namespace := "kube-system" |};
                       ControllerExpandSecretRef := None |};
     pv_claimRef := None; pv_storageClassName := ""; pv_reclaimPolicy := "Retain"; pv_mountOptions := [];
     pv_capacity := 5 * Gi; pv_accessModes := ["ReadWriteMany"]; pv_volumeMode := None |}.
Definition big_claim (name : string) : PersistentVolumeClaim :=
  {| pvc_meta := named name; pvc_storageClassName := None; pvc_volumeName := "pv"; pvc_accessModes := ["ReadWriteMany"];
     pvc_storage := 5 * Gi; pvc_selector := None; pvc_volumeMode := None;
     pvc_phase := "Bound" |}.
Definition sample_pairs : list PVPair :=
  [{| PV := static_pv "pv-1"; PVC := big_claim "claim-1" |}; {| PV := static_pv "pv-2"; PVC := big_claim "claim-2" |}].

Definition mutated : outcome (res Pod) := out_in (provisioned_cluster []) (Mutate false sample_pairs app_sample).
Definition mutated_pod : Pod := match mutated with Done (Ok out) => out | _ => app_sample end.

Lemma mutated_runs :
  runs (Mutate false sample_pairs app_sample) (trace_in (provisioned_cluster []) (Mutate false sample_pairs app_sample))
    (Done (Ok mutated_pod)).
Proof.
  pose proof (exec_runs (S := jfs) serve (provisioned_cluster []) (Mutate false sample_pairs app_sample)) as Hr.
  unfold mutated_pod, mutated. destruct (exec_out _ _ _) as [[out|e]|s] eqn:E; [exact Hr|exfalso..];
    vm_compute in E; discriminate E.
Qed.

Lemma app_sample_ok : app_pod app_sample.
Proof.
  split; [apply (bool_decide_unpack _); by vm_compute| |apply (bool_decide_unpack _); by vm_compute| |].
  - repeat constructor.
  - repeat constructor.
  - apply (bool_decide_unpack _). by vm_compute.
Qed.

(** The second side car is renamed, and so are its volumes. *)
Lemma Mutate_well_formed_witness :
  map c_name (Containers (p_spec mutated_pod)) = ["jfs-mount-1"; "jfs-mount"; "app"] /\
  volume_names mutated_pod = ["data"; "logs"; "jfs-dir"; "updatedb"; "cachedir-0"; "jfs-check-mount";
                              "jfs-mount-1-cachedir-0"; "jfs-mount-1-jfs-check-mount"] /\
  NoDup (volume_names mutated_pod) /\ mounts_declared mutated_pod.
Proof.
  split; [by vm_compute|]. split; [by vm_compute|].
  exact (proj2 (Mutate_well_formed false sample_pairs app_sample _ mutated_pod app_sample_ok eq_refl mutated_runs)).
Defined.

Lemma Mutate_shares_witness :
  exists rs sides extra, length rs = 2%nat /\ Forall2 serves rs sides /\
    Containers (p_spec mutated_pod) = rev sides ++ [app_container] /\
    Volumes (p_spec mutated_pod) =
      map (exposed (zip ["claim-1"; "claim-2"] rs)) (Volumes (p_spec app_sample)) ++ extra /\ has_jfs_dir mutated_pod.
Proof.
  destruct (Mutate_shares false sample_pairs app_sample _ mutated_pod ltac:(discriminate) mutated_runs) as (_ & _ & Hhost).
  destruct (Hhost eq_refl) as (rs & sides & extra & H1 & H2 & H3 & H4 & H5).
  exists rs, sides, extra. split_and!; [exact H1|exact H2|exact H3|exact H4|]. apply H5.
  intros Hj. exfalso. revert Hj. apply (bool_decide_unpack _). by vm_compute.
Defined.

(** ** Two publishes and an unpublish *)

Definition other_target : string := "/var/lib/kubelet/pods/uid-2/volumes/kubernetes.io~csi/pvc-1/mount".
Definition sample_targets : gset string := {[ sample_target; other_target ]}.

Lemma sample_targets_inj t t' :
  t ∈ sample_targets -> t' ∈ sample_targets -> GetReferenceKey t = GetReferenceKey t' -> t = t'.
Proof.
  unfold sample_targets. intros [Ht|Ht]%elem_of_union [Ht'|Ht']%elem_of_union E;
    apply elem_of_singleton in Ht, Ht'; subst; try reflexivity; exfalso; vm_compute in E; discriminate E.
Qed.

(** Unmounting stops when nothing is mounted any more. *)
Definition shared_cluster : cluster :=
  {| cl_pods := {[ key_of mount_pod_1 := mount_pod_1 ]}; cl_secrets := ∅; cl_jobs := ∅; cl_stats := ∅; cl_mounts := [];
     cl_nodes := []; cl_outputs := {[ "umount -l " +:+ sample_target := "not mounted" ]}; cl_clock := 0; cl_pvs := [] |}.
Definition step (w : cluster) (op : ref_op) : cluster := exec_state (S := jfs) serve w (perform 2 mount_name op).
Definition sample_call (w : cluster) (op : ref_op) : ref_op * jtrace * option error :=
  (op, trace_in w (perform 2 mount_name op),
   match out_in w (perform 2 mount_name op) with Done r => r | Halted _ => None end).
Fixpoint perform_all (w : cluster) (ops : list ref_op) : list (ref_op * jtrace * option error) * cluster :=
  match ops with
  | [] => ([], w)
  | op :: ops => let r := perform_all (step w op) ops in (sample_call w op :: r.1, r.2)
  end.
Definition sample_ops : list ref_op := [Acquire sample_target; Acquire other_target; Drop sample_target].

Definition returns (o : outcome (option error)) : bool := match o with Done _ => true | Halted _ => false end.
Lemma sample_call_runs w op :
  returns (out_in w (perform 2 mount_name op)) = true ->
  runs (perform 2 mount_name op) (sample_call w op).1.2 (Done (sample_call w op).2).
Proof.
  intros Hr. pose proof (exec_runs (S := jfs) serve w (perform 2 mount_name op)) as Hx.
  unfold sample_call. cbn [fst snd]. destruct (exec_out _ _ _); [exact Hx|discriminate Hr].
Qed.

Lemma perform_all_replay w ops :
  replay (cl_pods w) (mjoin (map (fun call => call.1.2) (perform_all w ops).1)) (cl_pods (perform_all w ops).2).
Proof.
  revert w. induction ops as [|op ops IH]; intros w; [done|]. cbn [perform_all fst snd map mjoin list_join].
  apply replay_app. exists (cl_pods (step w op)). split; [apply exec_replay|apply IH].
Qed.

(** Every operation returns, and is about a sample target. *)
Fixpoint all_return (w : cluster) (ops : list ref_op) : bool :=
  match ops with
  | [] => true
  | op :: ops => returns (out_in w (perform 2 mount_name op)) && bool_decide (op_target op ∈ sample_targets) &&
                 all_return (step w op) ops
  end.
Lemma perform_all_runs w ops :
  all_return w ops = true ->
  Forall (fun call => op_target call.1.1 ∈ sample_targets /\ runs (perform 2 mount_name call.1.1) call.1.2 (Done call.2))
    (perform_all w ops).1.
Proof.
  revert w. induction ops as [|op ops IH]; intros w; cbn [all_return perform_all]; [constructor|].
  intros [[Hr Ht%bool_decide_eq_true]%andb_true_iff Ha]%andb_true_iff. constructor; [|by apply IH].
  split; [exact Ht|by apply sample_call_runs].
Qed.

Lemma sample_live : live sample_targets mount_name (cl_pods shared_cluster) mount_pod_1.
Proof.
  split_and!; [reflexivity|reflexivity|reflexivity|]. intros t Ht. left.
  apply elem_of_union in Ht as [Ht|Ht]; apply elem_of_singleton in Ht; subst; vm_compute; reflexivity.
Qed.

Lemma sample_results : map (fun call => (call.1.1, call.2)) (perform_all shared_cluster sample_ops).1 =
  [(Acquire sample_target, None); (Acquire other_target, None); (Drop sample_target, None)].
Proof. vm_compute. reflexivity. Qed.

Lemma foldl_spec_results (calls : list (ref_op * jtrace * option error)) T :
  foldl (fun T call => spec_result call.1.1 call.2 T) T calls =
  foldl (fun T c => spec_result c.1 c.2 T) T (map (fun call => (call.1.1, call.2)) calls).
Proof. revert T. induction calls as [|c calls IH]; intros T; [done|]. cbn. apply IH. Qed.

(** After two publishes and an unpublish one target is left. *)
Lemma references_refine_witness :
  exists p', cl_pods (perform_all shared_cluster sample_ops).2 !! (mount_name, "kube-system") = Some p' /\
    targets p' = {[ other_target ]} /\ GetRef p' = 1%nat.
Proof.
  assert (all_return shared_cluster sample_ops = true) as Hr by (vm_compute; reflexivity).
  destruct (references_refine sample_targets sample_targets_inj 2 mount_name (cl_pods shared_cluster) mount_pod_1
    (perform_all shared_cluster sample_ops).1 (cl_pods (perform_all shared_cluster sample_ops).2) ltac:(discriminate) sample_live
    (perform_all_runs _ _ Hr) (perform_all_replay _ _)) as (p' & (Hp & _) & _ & HT & Hg).
  exists p'. split; [exact Hp|]. rewrite foldl_spec_results, sample_results in HT.
  assert (targets mount_pod_1 = ∅) as E by (vm_compute; reflexivity).
  rewrite E in HT. cbn [foldl fst snd spec_result spec] in HT.
  assert (targets p' = {[ other_target ]}) as HT'.
  { rewrite HT. apply (bool_decide_unpack _). vm_compute. reflexivity. }
  split; [exact HT'|]. rewrite Hg, HT'. reflexivity.
Defined.
