(* ===== verification/SharingWitnesses.v ===== *)
(** * Witness of the sharing of mount pods

    While a publish is between the look at its mount pod and the patch that
    adds its reference, another pod is collected; then the patch is applied. *)
From S2P Require Import Prelude.
From S2P Require Import GoStrings.
From S2P Require Import Hash.
From S2P Require Import K8s.
From S2P Require Import Prog.
From S2P Require Import Effects.
From S2P Require Import Config.
From S2P Require Import Util.
From S2P Require Import PodUtil.
From S2P Require Import JfsSetting.
From S2P Require Import MountTable.
From S2P Require Import PodMount.
From S2P Require Import PodDriver.
From S2P Require Import Cluster.
From S2P Require Import DriverFacts.
From S2P Require Import PodMountFacts.
From S2P Require Import References.
From S2P Require Import Sharing.
From S2P Require Import Witnesses.
#[local] Open Scope Z_scope.
#[local] Open Scope go_scope.
#[local] Existing Instances sample_globals sample_quantities sample_retry sample_codec sample_jobs.

(** ** Schedules reach nodes *)

Definition mutex_after (m : option (gmap Z nat)) (x : nat * event jfs) : option (gmap Z nat) :=
  m ← m;
  match projT1 x.2 with
  | Lock y => match m !! y with None => Some (<[ y := x.1 ]> m) | Some _ => None end
  | Unlock y => Some (delete y m)
  | _ => Some m
  end.
Definition mutexes_after (tr : schedule) : option (gmap Z nat) := foldl mutex_after (Some ∅) tr.

Lemma started_prefix c t t' : started c (t ++ t') -> started c t.
Proof.
  destruct c.
  - intros (rest & o & Hr). exists (t' ++ rest), o. by rewrite app_assoc.
  - intros (Hb & rest & o & Hr). split; [done|]. exists (t' ++ rest), o. by rewrite app_assoc.
  - intros (Hn & rest & o & Hr). split; [done|]. exists (t' ++ rest), o. by rewrite app_assoc.
Qed.

Lemma mutex_after_step m x m' : mutex_after (Some m) x = Some m' -> mutex_step x.1 x.2 m m'.
Proof.
  destruct x as [i [[] a]]; unfold mutex_after, mutex_step; cbn; try (by intros [= ->]).
  destruct (m !! i0) eqn:E; [done|]. by intros [= ->].
Qed.

Lemma schedule_reachable calls w (tr : schedule) m w' :
  (forall i c, calls !! i = Some c -> started c (handler i tr)) ->
  Forall (fun x => is_Some (calls !! x.1)) tr -> mutexes_after tr = Some m -> replay w tr.*2 w' ->
  reachable calls w {| histories := map (fun i => handler i tr) (seq 0 (length calls)); mutexes := m; stored := w' |}.
Proof.
  revert m w'. induction tr as [|[i e] tr IH] using rev_ind; intros m w' Hs Hi Hm Hw.
  { cbn in Hm, Hw. simplify_eq. replace (map _ _) with (map (fun _ : handler_call => @nil (event jfs)) calls); [constructor|].
    apply (list_eq_same_length _ _ (length calls)); [by rewrite length_fmap, length_seq|by rewrite length_fmap|].
    intros k x y _. rewrite !list_lookup_fmap. intros (? & _ & ->)%fmap_Some (? & _ & ->)%fmap_Some. done. }
  apply Forall_app in Hi as [Hi [[c Hc] _]%Forall_cons]. cbn [fst] in Hc.
  unfold mutexes_after in Hm. rewrite foldl_app in Hm. cbn [foldl] in Hm. fold (mutexes_after tr) in Hm.
  destruct (mutexes_after tr) as [m0|] eqn:Em; [|done]. apply mutex_after_step in Hm. cbn [fst snd] in Hm.
  rewrite fmap_app in Hw. apply replay_app in Hw as (w0 & Hw & w1 & Ha & ->). cbn [snd fmap list_fmap] in Ha.
  assert (forall j, handler j (tr ++ [(i, e)]) = handler j tr ++ (if Nat.eqb i j then [e] else [])) as Hh by (intros; apply handler_snoc).
  assert (reachable calls w {| histories := map (fun i => handler i tr) (seq 0 (length calls)); mutexes := m0; stored := w0 |}) as Hr.
  { apply IH; [|done|done|done]. intros j c' Hj. apply (started_prefix _ _ (if Nat.eqb i j then [e] else [])).
    rewrite <-Hh. by apply Hs. }
  pose proof (lookup_lt_Some _ _ _ Hc) as Hlt.
  assert (map (fun j => handler j (tr ++ [(i, e)])) (seq 0 (length calls)) =
    <[ i := handler i tr ++ [e] ]> (map (fun j => handler j tr) (seq 0 (length calls)))) as ->.
  { apply list_eq. intros j. rewrite list_lookup_fmap. destruct (decide (j = i)) as [->|Hne].
    - rewrite list_lookup_insert_eq by by rewrite length_fmap, length_seq. rewrite lookup_seq_lt by done. cbn.
      by rewrite Hh, Nat.eqb_refl.
    - rewrite list_lookup_insert_ne, list_lookup_fmap by done. destruct (seq 0 _ !! j) as [k|] eqn:Ek; [|done]. cbn.
      apply lookup_seq in Ek as [Ek _]. cbn in Ek. subst k. rewrite Hh. rewrite (proj2 (Nat.eqb_neq i j)) by done. by rewrite app_nil_r. }
  refine (reach_step _ _ _ _ _ Hr (handler_steps calls {| histories := map (fun i => handler i tr) (seq 0 (length calls)); mutexes := m0; stored := w0 |}
    i c (handler i tr) e m w1 Hc _ _ Hm Ha)).
  - cbn. by rewrite list_lookup_fmap, lookup_seq_lt.
  - pose proof (Hs i c Hc) as Hst. by rewrite Hh, Nat.eqb_refl in Hst.
Qed.

(** ** A publish and a collection *)

Definition conditions : list PodCondition :=
  map (fun t => {| pc_type := t; pc_status := ConditionTrue; pc_reason := ""; pc_message := "" |}) ["Ready"; "ContainersReady"].
Definition ready_status : PodStatus :=
  {| Phase := "Running"; Reason := ""; Message := ""; Conditions := conditions; ContainerStatuses := [];
     InitContainerStatuses := [] |}.
Definition on_node (node name : string) : Pod :=
  {| p_meta := named name; p_spec := with_placement node "" "Always" (with_containers [mount_container] empty_spec); p_status := ready_status |}.
Definition busy_pod : Pod := on_node "node-1" mount_name.
Definition spare_pod : Pod := on_node "node-2" "juicefs-node-2-pvc-9-zzzzzz".
Definition two_pods : cluster := set_pods (fun _ => {[ key_of busy_pod := busy_pod; key_of spare_pod := spare_pod ]}) empty_cluster.

Definition publish_call : handler_call := Publish 2 None sample_setting.
Definition collect_call : handler_call := Collect 2 newMountInfoTable spare_pod.
Definition publish_trace : jtrace := trace_in two_pods (JMount 2 None sample_setting).
Definition collect_trace : jtrace := trace_in two_pods (Run 2 newMountInfoTable spare_pod).

Lemma handler_tagged i k (t : jtrace) : handler i (map (pair k) t) = if Nat.eqb k i then t else [].
Proof.
  unfold handler. induction t as [|e t IH]; cbn; [by destruct (Nat.eqb k i)|].
  destruct (Nat.eqb k i); cbn; by rewrite IH.
Qed.
Lemma handler_app i (tr tr' : schedule) : handler i (tr ++ tr') = handler i tr ++ handler i tr'.
Proof. unfold handler. by rewrite List.filter_app, fmap_app. Qed.

(** The publish up to its patch, the whole collection, the patch. *)
Definition calls : list handler_call := [publish_call; collect_call].
Definition tagged : schedule := map (pair 0%nat) (take 6 publish_trace) ++ map (pair 1%nat) collect_trace.
Definition collected : store := cl_pods (exec_state (S := jfs) serve two_pods (Run 2 newMountInfoTable spare_pod)).
Definition ref_added : event jfs :=
  ev (S := jfs) (PatchPod busy_pod (JSONPatch [ReplaceMap "/metadata/annotations" (Some (with_ref sample_target ∅))])) None.

Lemma two_pods_named : well_named (cl_pods two_pods).
Proof.
  intros name p Hp. unfold two_pods in Hp. cbn [cl_pods set_pods] in Hp.
  apply lookup_insert_Some in Hp as [[<- <-]|[_ Hp]]; [reflexivity|]. by apply lookup_singleton_Some in Hp as [<- <-].
Qed.
Lemma publish_runs : runs (JMount 2 None sample_setting) publish_trace (out_in two_pods (JMount 2 None sample_setting)).
Proof. apply exec_runs. Qed.
Lemma collect_runs : runs (Run 2 newMountInfoTable spare_pod) collect_trace (out_in two_pods (Run 2 newMountInfoTable spare_pod)).
Proof. apply exec_runs. Qed.

Lemma tagged_started i c : calls !! i = Some c -> started c (handler i tagged).
Proof.
  unfold tagged. rewrite handler_app, !handler_tagged. destruct i as [|[|i]]; cbn [calls lookup list_lookup Nat.eqb]; [..|done].
  - intros [= <-]. rewrite app_nil_r. exists (drop 6 publish_trace), (out_in two_pods (JMount 2 None sample_setting)).
    rewrite take_drop. exact publish_runs.
  - intros [= <-]. split; [reflexivity|]. exists [], (out_in two_pods (Run 2 newMountInfoTable spare_pod)).
    rewrite app_nil_r. exact collect_runs.
Qed.

Lemma tagged_events (k : nat) (t : jtrace) : (map (pair k) t).*2 = t.
Proof. induction t as [|e t IH]; [done|]. cbn. by rewrite IH. Qed.

(** Reads leave the stored pods alone. *)
Lemma replay_reads w t t' w' :
  never (S := jfs) (fun e => pod_write (projT1 e)) t = true -> replay w (t ++ t') w' -> replay w t w.
Proof.
  intros Hn%(never_spec (S := jfs)) (w1 & Hr & _)%replay_app. clear t'.
  enough (w1 = w) as -> by done. revert w Hr. induction Hn as [|e t He _ IH]; intros w; [by intros ->|].
  intros (w2 & Ha & Hr). rewrite (api_read _ _ _ He Ha) in Hr. by apply IH.
Qed.

Lemma publish_reads : never (S := jfs) (fun e => pod_write (projT1 e)) (take 6 publish_trace) = true.
Proof. vm_compute. reflexivity. Qed.
Lemma publish_replay : exists w', replay (cl_pods two_pods) (take 6 publish_trace ++ drop 6 publish_trace) w'.
Proof. rewrite take_drop. eexists. apply exec_replay. Qed.
Lemma collect_replay : replay (cl_pods two_pods) collect_trace collected.
Proof. apply exec_replay. Qed.
#[local] Opaque publish_trace collect_trace collected two_pods.

Lemma tagged_replay : replay (cl_pods two_pods) tagged.*2 collected.
Proof.
  unfold tagged. rewrite fmap_app, !tagged_events. apply replay_app. exists (cl_pods two_pods).
  split; [|exact collect_replay]. destruct publish_replay as [w' Hr]. exact (replay_reads _ _ _ _ publish_reads Hr).
Qed.

Lemma patch_is_next : take 6 publish_trace ++ [ref_added] = take 7 publish_trace.
Proof. vm_compute. reflexivity. Qed.
Lemma patch_started : started publish_call (take 6 publish_trace ++ [ref_added]).
Proof.
  rewrite patch_is_next. exists (drop 7 publish_trace), (out_in two_pods (JMount 2 None sample_setting)).
  rewrite take_drop. exact publish_runs.
Qed.
Lemma busy_stored : collected !! (mount_name, "kube-system") = Some busy_pod.
Proof. vm_compute. reflexivity. Qed.
Definition patched : Pod := with_meta (with_annotations (Some (with_ref sample_target ∅)) (p_meta busy_pod)) busy_pod.

Definition before_patch (m : gmap Z nat) : node :=
  {| histories := [take 6 publish_trace; collect_trace]; mutexes := m; stored := collected |}.
Definition after_patch (m : gmap Z nat) : node :=
  {| histories := [take 6 publish_trace ++ [ref_added]; collect_trace]; mutexes := m;
     stored := partial_alter (fun _ => Some patched) (mount_name, "kube-system") collected |}.

Lemma before_reachable : exists m, reachable calls (cl_pods two_pods) (before_patch m).
Proof.
  destruct (mutexes_after tagged) as [m|] eqn:Em; [|vm_compute in Em; discriminate Em]. exists m.
  assert (before_patch m = {| histories := map (fun i => handler i tagged) (seq 0 (length calls)); mutexes := m; stored := collected |}) as ->.
  { unfold before_patch, tagged. cbn [calls length seq map]. by rewrite !handler_app, !handler_tagged, app_nil_r. }
  apply schedule_reachable; [exact tagged_started| |exact Em|exact tagged_replay].
  unfold tagged. apply Forall_app. split; apply Forall_map, Forall_true; intros e; by eexists.
Qed.

Lemma refs_differ : GetAllRefKeys patched <> GetAllRefKeys busy_pod.
Proof.
  rewrite (refs_with_ref sample_target busy_pod patched) by reflexivity. intros E.
  assert (GetAllRefKeys busy_pod = ∅) as Hb by reflexivity. rewrite Hb in E.
  by apply insert_non_empty in E.
Qed.

(** The spare pod is gone, and the reference is added. *)
Lemma sharing_safe_witness :
  collected !! key_of spare_pod = None /\
  exists m, node_step calls (before_patch m) (Handler 0 ref_added) (after_patch m) /\
    GetAllRefKeys patched = <[ GetReferenceKey sample_target := sample_target ]> (GetAllRefKeys busy_pod).
Proof.
  split; [vm_compute; reflexivity|]. destruct before_reachable as [m Hm]. exists m.
  assert (node_step calls (before_patch m) (Handler 0 ref_added) (after_patch m)) as Hs.
  { refine (handler_steps calls (before_patch m) 0 publish_call (take 6 publish_trace) ref_added m _ eq_refl eq_refl patch_started eq_refl _).
    exists busy_pod. split; [exact busy_stored|reflexivity]. }
  split; [exact Hs|].
  destruct (proj2 (proj2 (proj2 (sharing_safe calls (cl_pods two_pods) (before_patch m) two_pods_named Hm) _ _ Hs)) mount_name busy_pod patched busy_stored)
    as (c & h & [Hc _] & [E|E]).
  - exact (lookup_partial_alter_eq (fun _ => Some patched) collected (mount_name, "kube-system")).
  - by destruct refs_differ.
  - injection Hc as <-. exact E.
Defined.
