(* ===== verification/PublishWitnesses.v ===== *)
(** * Witnesses of publishing and unpublishing

    A volume is published on an empty node: the mount pod is created, its file
    system appears, and the target is bound.  Then the volume is unpublished
    from the cluster this leaves behind. *)
From S2P Require Import Prelude.
From S2P Require Import GoStrings.
From S2P Require Import Hash.
From S2P Require Import K8s.
From S2P Require Import Prog.
From S2P Require Import Effects.
From S2P Require Import Config.
From S2P Require Import Util.
From S2P Require Import PodUtil.
From S2P Require Import JfsSetting.
From S2P Require Import PodMount.
From S2P Require Import Juicefs.
From S2P Require Import DriverServices.
From S2P Require Import Interp.
From S2P Require Import KubeClient.
From S2P Require Import Cluster.
From S2P Require Import KubeCluster.
From S2P Require Import PodMountFacts.
From S2P Require Import KubeClientFacts.
From S2P Require Import PublishFacts.
From S2P Require Import Witnesses.
#[local] Open Scope Z_scope.
#[local] Open Scope go_scope.
#[local] Existing Instances sample_globals sample_quantities sample_retry sample_codec.

Definition published_target : string := "/var/lib/kubelet/pods/uid-1/volumes/kubernetes.io~csi/pvc-1/mount".
Definition publish_secrets : smap := {[ "name" := "vol" ]}.
Definition publish_request : PublishRequest :=
  {| np_VolumeId := "pvc-1"; np_TargetPath := published_target;
     np_Capability := Some {| vc_mode := SINGLE_NODE_WRITER; vc_access := MountAccess [] |};
     np_Readonly := false; np_VolumeContext := Some {[ "subPath" := "data" ]}; np_Secrets := Some publish_secrets |}.
Definition mount_dir : string := "/jfs/pvc-1-aaaaaa".
Definition directory (inode : Z) : FileInfo := {| fi_perm := 0x1ff; fi_stat := Some (inode, 0x35); fi_dir := true |}.
Definition empty_node : cluster :=
  {| cl_pods := ∅; cl_secrets := ∅; cl_jobs := ∅;
     cl_stats := {[ mount_dir := directory 1; mount_dir +:+ "/data" := directory 2 ]};
     cl_mounts := [{| mi_minor := 0x35; mi_root := "/"; mi_mountPoint := mount_dir |}]; cl_nodes := [];
     cl_outputs := {[ "umount -l " +:+ published_target := "umount: not mounted." ]}; cl_clock := 0; cl_pvs := [] |}.
Definition published_node : cluster := exec_state (S := jfs) serve empty_node (NodePublishVolume 3 publish_request).

Lemma published : out_in empty_node (NodePublishVolume 3 publish_request) = Done None.
Proof. vm_compute. reflexivity. Qed.
Lemma unpublished : out_in published_node (NodeUnpublishVolume 3 "pvc-1" published_target) = Done None.
Proof. vm_compute. reflexivity. Qed.

Lemma NodePublishVolume_publishes_witness :
  exists uniqueId podName path t0 t1 t2 t3 t4,
    trace_in empty_node (NodePublishVolume 3 publish_request) = t0 ++ t1 ++ t2 ++ t3 ++ t4 /\
    runs (getUniqueId "pvc-1") t1 (Done (Ok uniqueId)) /\
    mount_directory uniqueId podName path /\ referenced published_target podName t2 /\
    mount_ready path t3 /\ bound path (path_Join [path; "data"]) published_target t4.
Proof.
  refine (proj2 (proj2 (NodePublishVolume_publishes 3 publish_request _ publish_secrets eq_refl eq_refl _))).
  rewrite <-published. apply exec_runs.
Defined.

(** The pod of the published volume is deleted with its last target. *)
Lemma NodeUnpublishVolume_unpublishes_witness :
  GetRef <$> (cl_pods published_node !! ("juicefs-node-1-pvc-1-aaaaaa", "kube-system")) = Some 1%nat /\
  exists uniqueId pods podName t0 t1 t2 t3,
    trace_in published_node (NodeUnpublishVolume 3 "pvc-1" published_target) =
      t0 ++ t1 ++ ev (S := jfs) (Lock (GetPodLock podName)) tt :: t2 ++ t3 ++ [ev (S := jfs) (Unlock (GetPodLock podName)) tt] /\
    runs (mount_pods uniqueId) t1 (Done (Ok pods)) /\ podName = pod_of_target published_target pods /\
    unmounted published_target t2 /\
    (if bool_decide (podName = "") then t3 = [] else released published_target podName t2 /\ disposed podName t3).
Proof.
  split.
  - vm_compute. reflexivity.
  - refine (proj2 (NodeUnpublishVolume_unpublishes 3 "pvc-1" published_target _ eq_refl _)).
    rewrite <-unpublished. apply exec_runs.
Defined.

(** ** The requests of an unpublish *)

#[local] Instance plain_selectors : SelectorCodec :=
  {| label_selector := fun _ _ => Ok ""; field_selector := fun _ => ""; unmarshal_pods := fun _ => Ok [] |}.
Definition sample_client : K8sClient := {| enableAPIServerListCache := true; QPS := None; Burst := None |}.
Definition sample_kubelet : KubeletClient := {| kc_host := "10.0.0.1"; kc_port := 10250; kc_timeout := 10 * Second |}.
Definition linked_unmount : K (option error) := linked sample_client sample_kubelet (JfsUnmount 3 "pvc-1" published_target).
Definition requests : trace kube := exec_trace (S := kube) serve_request published_node linked_unmount.
Definition deletes (e : event kube) : bool := deletes_pod (projT1 e).

(** The requests up to the deletion of the pod, and the answer to it. *)
Fixpoint before_delete (t : trace kube) : trace kube :=
  match t with [] => [] | e :: t' => if deletes e then [] else e :: before_delete t' end.
Fixpoint from_delete (t : trace kube) : trace kube :=
  match t with [] => [] | e :: t' => if deletes e then t else from_delete t' end.
Lemma split_delete t : t = before_delete t ++ from_delete t.
Proof. induction t as [|e t IH]; [done|]. cbn. destruct (deletes e); [done|]. cbn. by rewrite <-IH. Qed.

Definition deleted_name : string := "juicefs-node-1-pvc-1-aaaaaa".
Lemma delete_requested :
  exists t2, from_delete requests = ev (S := kube) (Delete KPod "kube-system" deleted_name None) None :: t2.
Proof. eexists. vm_compute. reflexivity. Qed.

Lemma linked_unmount_deletes_witness :
  exists podName p t0 t3,
    before_delete requests = t0 ++ ev (S := kube) (Get Caller KPod "kube-system" podName) (Ok p) :: t3 /\
    GetAllRefKeys p = ∅ /\ deleted_name = pod_name p.
Proof.
  assert (g_ByProcess = false) as Hp by reflexivity. destruct delete_requested as [t2 Ht].
  destruct (linked_unmount_deletes sample_client sample_kubelet 3 "pvc-1" published_target requests _ Hp
    (exec_runs (S := kube) serve_request published_node linked_unmount) (before_delete requests) "kube-system" deleted_name None None t2
    (eq_trans (split_delete requests) (f_equal (app (before_delete requests)) Ht)))
    as (_ & podName & p & t0 & t3 & _ & Hb & Hz & Hn & _).
  exists podName, p, t0, t3. split; [exact Hb|]. split; [exact Hz|exact Hn].
Defined.
