(* ===== verification/VolumeJobWitnesses.v ===== *)
(** * Witnesses of the volume jobs

    A volume is deleted while its job runs: the job completes during the wait,
    or it fails and is recycled during the wait, which the handler takes for a
    completed job. *)
From S2P Require Import Prelude.
From S2P Require Import GoStrings.
From S2P Require Import Hash.
From S2P Require Import K8s.
From S2P Require Import Prog.
From S2P Require Import Effects.
From S2P Require Import Config.
From S2P Require Import Util.
From S2P Require Import JfsSetting.
From S2P Require Import Builder.
From S2P Require Import PodMount.
From S2P Require Import Juicefs.
From S2P Require Import DriverServices.
From S2P Require Import Cluster.
From S2P Require Import PublishFacts.
From S2P Require Import Sharing.
From S2P Require Import VolumeJobs.
From S2P Require Import Witnesses.
#[local] Open Scope Z_scope.
#[local] Open Scope go_scope.
#[local] Existing Instances sample_globals sample_quantities sample_retry sample_codec.

(** ** A handler in a cluster whose jobs go on while it sleeps *)

Lemma serve_jobs w c : job_api (existT c (serve w c).2) (cl_jobs w) (cl_jobs (serve w c).1).
Proof.
  destruct c; cbn; try done.
  all: try (destruct (cl_pods w !! _); done).
  all: destruct (cl_jobs w !! _) eqn:E; cbn; try done; by rewrite E.
Qed.

Section fate.
Context (fate : job_store -> job_store) (fate_ok : forall w, jobs_world w (fate w)).

(** What the rest of the cluster does after a command. *)
Definition world_after (c : jfs_cmd) (w : cluster) : cluster :=
  match c with Sleep _ => set_jobs fate w | _ => w end.
Definition serve_fate (w : cluster) (c : jfs_cmd) : cluster * jfs_answer c :=
  (world_after c (serve w c).1, (serve w c).2).
Fixpoint weave {A} (w : cluster) (p : M A) : interleaving :=
  match p with
  | Ret _ | Halt _ => []
  | Vis c k =>
      let wa := serve w c in
      (Handler 0 (existT c wa.2), cl_jobs wa.1) ::
      (World, cl_jobs (world_after c wa.1)) :: weave (world_after c wa.1) (k wa.2)
  end.

Lemma weave_moves {A} (p : M A) w : moves (cl_jobs w) (weave w p).
Proof using fate_ok.
  revert w. induction p as [a|s|c k IH]; intros w; [done..|]. cbn [weave moves job_move].
  split; [apply serve_jobs|]. split; [|apply IH].
  assert (forall m, jobs_world m m) as Hid by (intros m x j; congruence).
  destruct c; cbn [world_after]; first [apply Hid|apply fate_ok].
Qed.

Lemma weave_events {A} (p : M A) w : events_of 0 (weave w p) = exec_trace (S := jfs) serve_fate w p.
Proof.
  revert w. induction p as [a|s|c k IH]; intros w; [done..|].
  change (events_of 0 (weave w (Vis c k))) with
    (existT c (serve w c).2 :: events_of 0 (weave (world_after c (serve w c).1) (k (serve w c).2))).
  rewrite IH. unfold exec_trace. cbn [exec serve_fate].
  by destruct (exec (S := jfs) serve_fate _ (k (serve w c).2)) as [[w2 t] o].
Qed.
End fate.

(** ** The job of a volume completes *)

Definition deleted_id : string := "pvc-3f0b2c1a-1111-2222-3333-0123456789ab".
Definition deleted_pv : PersistentVolume :=
  {| pv_meta := named deleted_id;
     pv_csi := Some {| Driver := "csi.juicefs.com"; VolumeHandle := deleted_id; ReadOnly := false; VolumeAttributes := ∅;
                       NodePublishSecretRef := None; ControllerExpandSecretRef := None; FSType := "juicefs" |};
     pv_claimRef := Some ("claim", "default"); pv_storageClassName := "sc"; pv_reclaimPolicy := "Delete";
     pv_mountOptions := []; pv_capacity := 0; pv_accessModes := []; pv_volumeMode := None |}.
Definition volume_cluster : cluster :=
  {| cl_pods := ∅; cl_secrets := ∅; cl_jobs := ∅; cl_stats := ∅; cl_mounts := []; cl_nodes := [];
     cl_outputs := ∅; cl_clock := 0; cl_pvs := [deleted_pv] |}.
Definition deletion_secrets : smap := {[ "name" := "vol" ]}.
Definition deletion : M (Vols * option error) := DeleteVolume 3 {[ deleted_id := 1 ]} deleted_id (Some deletion_secrets).

Definition ends_as (condition : string) (j : Job) : Job :=
  {| j_meta := j_meta j; j_spec := j_spec j; TTLSecondsAfterFinished := TTLSecondsAfterFinished j;
     j_conditions := [(condition, "True")]; CompletionTime := None |}.
(** Finished jobs are recycled, the others end. *)
Definition ends (condition : string) (m : job_store) : job_store :=
  ends_as condition <$> filter (fun kj => finished kj.2 = false) m.
Lemma ends_ok condition m : jobs_world m (ends condition m).
Proof.
  intros k j Hj Hn. unfold ends in Hn. rewrite lookup_fmap, fmap_None, map_lookup_filter_None in Hn.
  destruct Hn as [Hn|Hn]; [congruence|]. specialize (Hn j Hj). cbn in Hn. by destruct (finished j).
Qed.
Definition completes : job_store -> job_store := ends "Complete".

Lemma deletion_completes : exec_out (S := jfs) (serve_fate completes) volume_cluster deletion = Done (∅, None).
Proof. vm_compute. reflexivity. Qed.

Lemma volume_deleted_witness :
  deleted_by_job 0 ∅ (weave completes volume_cluster deletion) deleted_id deleted_id.
Proof.
  assert (forall m s s', decode_setting m s = Ok s' -> Attr s' = Attr s) as Hattr by (intros m s s' [= ->]; reflexivity).
  assert (runs deletion (events_of 0 (weave completes volume_cluster deletion)) (Done (∅, None))) as Hr.
  { rewrite weave_events, <-deletion_completes. apply exec_runs. }
  pose proof (proj1 (volume_deleted Hattr 3 0 ∅ _ eq_refl (weave_moves completes (ends_ok "Complete") deletion volume_cluster))
    {[ deleted_id := 1 ]} ∅ deleted_id (Some deletion_secrets) Hr) as Hd.
  assert (CheckDynamicPV deleted_id && negb (bool_decide (nil_map (Some deletion_secrets) = ∅)) = true) as Hc by (vm_compute; reflexivity).
  rewrite Hc in Hd. exact (proj2 Hd).
Defined.

(** ** The job fails and is recycled *)

Definition fails : job_store -> job_store := ends "Failed".

(** During the wait the job fails and is recycled, the handler finds it gone
    and reports success: no job of the interleaving was ever completed. *)
Example failed_deletion_reported :
  exec_out (S := jfs) (serve_fate fails) volume_cluster deletion = Done (∅, None) /\
  Forall (fun x => map_Forall (fun _ j => IsJobCompleted j = false) x.2) (weave fails volume_cluster deletion) /\
  List.existsb (fun x => existsb (fun kj => IsJobFailed kj.2) (map_to_list x.2)) (weave fails volume_cluster deletion) = true.
Proof.
  split; [vm_compute; reflexivity|]. split; [|vm_compute; reflexivity].
  apply (bool_decide_unpack _). vm_compute. exact I.
Qed.
