(* ===== verification/DashboardWitnesses.v ===== *)
(** * Witnesses of the dashboard

    A pod is added to an index of two; a list of three volumes is asked for its
    second page, and for a page whose bounds wrap; the logs of the mount pod of a
    published volume are read; a file is served. *)
From S2P Require Import Prelude.
From S2P Require Import GoStrings.
From S2P Require Import K8s.
From S2P Require Import Prog.
From S2P Require Import Effects.
From S2P Require Import Config.
From S2P Require Import Util.
From S2P Require Import Cluster.
From S2P Require Import Dashboard.
From S2P Require Import DashboardApi.
From S2P Require Import DashboardServer.
From S2P Require Import DashboardFacts.
From S2P Require Import DashboardServerFacts.
From S2P Require Import Witnesses.
From S2P Require Import ServiceWitnesses.
From S2P Require Import PublishWitnesses.
From stdpp Require Import sorting.
#[local] Open Scope Z_scope.
#[local] Open Scope go_scope.

(** ** The index *)

Definition born (name uid : string) (created : Z) : Pod :=
  {| p_meta := {| Name := name; Namespace := "default"; UID := uid; ResourceVersion := ""; Labels := None;
                  Annotations := None; Finalizers := []; CreationTimestamp := created; DeletionTimestamp := None;
                  OwnerReferences := None |};
     p_spec := empty_spec; p_status := empty_status |}.
Definition three_pods : gmap NamespacedName Pod :=
  {[ ("default", "a") := born "a" "uid-a" 1; ("default", "b") := born "b" "uid-b" 2; ("default", "c") := born "c" "uid-c" 3 ]}.
Definition old_index : list NamespacedName := [("default", "a"); ("default", "c")].
Definition index_trace : jtrace :=
  [ev (S := jfs) (GetPod Caller "c" "default") (Ok (born "c" "uid-c" 3));
   ev (S := jfs) (GetPod Caller "a" "default") (Ok (born "a" "uid-a" 1))].

Lemma addIndex_inserts_witness :
  runs (index_pod (born "b" "uid-b" 2) old_index) index_trace
    (Done [("default", "a"); ("default", "b"); ("default", "c")]) /\
  ordered (fun n => three_pods !! n) [("default", "a"); ("default", "b"); ("default", "c")].
Proof.
  assert (runs (index_pod (born "b" "uid-b" 2) old_index) index_trace
    (Done [("default", "a"); ("default", "b"); ("default", "c")])) as Hr.
  { do 2 (eexists _, _; split; [reflexivity|]). split; reflexivity. }
  split; [exact Hr|].
  refine (proj1 (proj2 (addIndex_inserts (fun n => three_pods !! n) (born "b" "uid-b" 2) old_index index_trace _ Hr _ _ _ _ _))).
  - repeat apply List.Forall_cons; try apply List.Forall_nil; vm_compute; reflexivity.
  - vm_compute; reflexivity.
  - repeat apply List.Forall_cons; try apply List.Forall_nil; vm_compute; eexists; reflexivity.
  - repeat (constructor || (vm_compute; intros [=])).
  - repeat apply List.Forall_cons; try apply List.Forall_nil; vm_compute; intros [=].
Defined.

(** ** The pages *)

Definition three_volumes : list PersistentVolume := [sample_pv "pv-1"; sample_pv "pv-2"; sample_pv "pv-3"].
Definition volume_cache (n : NamespacedName) : option PersistentVolume :=
  List.find (fun pv => bool_decide (Name (pv_meta pv) = n.2)) three_volumes.
Definition pv_index : API := set_pv (fun _ => [("", "pv-1"); ("", "pv-2"); ("", "pv-3")]) NewAPI.
Definition page_query (pageSize current : string) : query :=
  {[ "pageSize" := pageSize; "current" := current; "order" := "ascend" ]}.
Definition largest : string := "18446744073709551615".
Definition pages_trace (q : query) : jtrace :=
  exec_trace (S := jfs) serve (provisioned_cluster three_volumes) (listPVsHandler pv_index q).
Definition pages_outcome (q : query) :=
  exec_out (S := jfs) serve (provisioned_cluster three_volumes) (listPVsHandler pv_index q).

Lemma listPVs_pages_witness :
  pages_outcome (page_query "2" "2") = Done [IndentedJSON (3, [sample_pv "pv-3"])] /\
  pages_outcome (page_query largest largest) = Halted (GoPanic "slice bounds out of range").
Proof.
  assert (forall s, s = "2" \/ s = largest -> Forall (cached_pv volume_cache) (pages_trace (page_query s s))) as Hc.
  { intros s [-> | ->]; repeat apply List.Forall_cons; try apply List.Forall_nil; vm_compute; reflexivity. }
  split.
  - refine (eq_trans (proj1 (listPVs_pages volume_cache pv_index (page_query "2" "2") 2 2 _ _ _ (exec_runs (S := jfs) serve _ _) (Hc "2" (or_introl eq_refl))) _) _);
      vm_compute; reflexivity.
  - refine (proj2 (proj2 (listPVs_pages volume_cache pv_index (page_query largest largest) (W64 - 1) (W64 - 1) _ _ _ (exec_runs (S := jfs) serve _ _) (Hc largest (or_intror eq_refl)))) _ _ _);
      try reflexivity; vm_compute; split; reflexivity.
Defined.

(** ** Requests *)

Definition logs_route : route :=
  pod_group "/logs/:container" (fun _ => Nothing) (fun ps pod => getPodLogs pod (sget ps "container")).
Definition logs_params : smap := {[ "namespace" := "kube-system"; "name" := deleted_name; "container" := "jfs-mount" ]}.
Definition logs_trace : jtrace := exec_trace (S := jfs) serve published_node (r_serve logs_route logs_params ∅).

Lemma logs_read :
  exists a t2, logs_trace = take 1 logs_trace ++ ev (S := jfs) (GetPodLog deleted_name "kube-system" "jfs-mount") a :: t2.
Proof.
  assert (exists a t2, drop 1 logs_trace = ev (S := jfs) (GetPodLog deleted_name "kube-system" "jfs-mount") a :: t2) as (a & t2 & Hd)
    by (eexists _, _; vm_compute; reflexivity).
  exists a, t2. by rewrite <-Hd, take_drop.
Qed.

Lemma requests_discreet_witness :
  exists n pod, ev (S := jfs) (GetPod Caller n.2 n.1) (Ok pod) ∈ take 1 logs_trace /\ concerned pod (take 1 logs_trace) /\
    deleted_name = pod_name pod.
Proof.
  destruct logs_read as (a & t2 & Ht).
  assert (logs_route ∈ routes "kube-system" NewAPI) as Hin by (unfold routes; do 12 apply list_elem_of_further; apply list_elem_of_here).
  destruct (requests_discreet "kube-system" NewAPI logs_route logs_params ∅ logs_trace _ Hin
    (exec_runs (S := jfs) serve published_node _) _ _ t2 Ht) as (_ & n & pod & He & Hc & Hn & _).
  exists n, pod. split; [exact He|]. split; [exact Hc|exact Hn].
Defined.

Lemma serve_app_confined_witness :
  let t := [ev (S := jfs) (Stat "/static/js/app.js") (Ok {| fi_perm := 0; fi_stat := None; fi_dir := false |})] in
  runs (serve_app "/static" "/js/app.js") t (Done [File "/static/js/app.js"]) /\
  exists rest, "/static/js/app.js" = below "/static" rest /\ plain_elements rest.
Proof.
  intros t.
  assert (runs (serve_app "/static" "/js/app.js") t (Done [File "/static/js/app.js"])) as Hr
    by (eexists _, _; split; [reflexivity|split; reflexivity]).
  split; [exact Hr|].
  refine (proj2 (serve_app_confined "/static" "/js/app.js" t _ _ Hr) [File "/static/js/app.js"] "/static/js/app.js" eq_refl _).
  - discriminate.
  - apply list_elem_of_here.
Defined.
