(* ===== verification/DashboardSyncWitnesses.v ===== *)
(** * Witnesses of the dashboard's indexes

    An app pod and a mount pod are indexed; and what a name that cannot be read
    does to an index. *)
From S2P Require Import Prelude.
From S2P Require Import GoStrings.
From S2P Require Import K8s.
From S2P Require Import Prog.
From S2P Require Import Effects.
From S2P Require Import Config.
From S2P Require Import Util.
From S2P Require Import MountTable.
From S2P Require Import Dashboard.
From S2P Require Import DashboardFacts.
From S2P Require Import DashboardSync.
From S2P Require Import DashboardWitnesses.
From stdpp Require Import sorting.
#[local] Open Scope Z_scope.
#[local] Open Scope go_scope.

(** ** Following the cluster *)

(** An app pod and a mount pod appear, are worked off, and the app pod goes. *)
Definition labelled (name uid : string) (created : Z) (l : smap) : Pod :=
  let p := born name uid created in with_meta (with_labels (Some l) (p_meta p)) p.
Definition app_one : Pod := labelled "app" "uid-1" 1 {[ UniqueId := "pvc-1" ]}.
Definition mount_two : Pod := labelled "mount" "uid-2" 2 {[ "app.kubernetes.io/name" := "juicefs-mount" ]}.
Definition app_name_ : NamespacedName := ("default", "app").
Definition mount_name_ : NamespacedName := ("default", "mount").
Definition first_cache : gmap NamespacedName Pod := {[ app_name_ := app_one ]}.
Definition shown_cache : gmap NamespacedName Pod := <[ mount_name_ := mount_two ]> first_cache.
(** The uids and their names. *)
Definition name_of_uid (u : string) : NamespacedName := if bool_decide (u = "uid-1") then app_name_ else mount_name_.
Abbreviation steps calm := (board_step name_of_uid calm).

(** The worker is at the app pod, with its index locked, when the mount pod is
    created; then it works off the mount pod. *)
Definition fetched_app : worker := Judging app_name_ app_one (Ret true).
Definition board_1 : board :=
  {| b_cache := first_cache; b_events := []; b_queue := ({[ app_name_ ]} ∪ ∅) ∖ {[ app_name_ ]}; b_work := fetched_app; b_api := NewAPI |}.
Definition api_2 : API := set_app (fun _ => [app_name_]) NewAPI.
Definition api_3 : API := set_sys (fun _ => [mount_name_]) api_2.
Definition board_3 : board :=
  {| b_cache := shown_cache; b_events := []; b_queue := ({[ mount_name_ ]} ∪ b_queue board_1) ∖ {[ mount_name_ ]}; b_work := Idle; b_api := api_3 |}.

Lemma first_identified : identified name_of_uid first_cache.
Proof. unfold first_cache. by intros n p [<- <-]%lookup_singleton_Some. Qed.

Lemma board_1_reachable calm : board_reachable name_of_uid calm first_cache board_1.
Proof.
  unfold board_reachable, board_of.
  assert (elements (dom first_cache : gset NamespacedName) = [app_name_]) as -> by (vm_compute; reflexivity).
  eapply rtc_l; [by eapply (change_handled _ _ _ app_name_ [])|]. cbn.
  eapply rtc_l; [apply (name_taken _ _ _ app_name_); [done|cbn; set_solver|by constructor]|]. cbn.
  eapply rtc_l; [apply worker_moved; [by apply (pod_fetched _ _ app_one)|by constructor]|]. apply rtc_refl.
Qed.

Lemma board_3_reachable : board_reachable name_of_uid true first_cache board_3.
Proof.
  unfold board_reachable. etrans; [apply (board_1_reachable true)|].
  eapply rtc_l; [apply worker_moved; [by apply index_locked|by constructor]|]. cbn.
  eapply rtc_l; [apply (pod_changed _ _ _ mount_name_ mount_two); [done|]|].
  { intros _. split; [done|]. split; [by constructor|]. intros o Ho. by vm_compute in Ho. }
  cbn. eapply rtc_l; [by eapply (change_handled _ _ _ mount_name_ [])|]. cbn.
  eapply rtc_l; [apply worker_moved; [by apply (pod_indexed _ _ _ [app_name_])|by constructor]|]. cbn.
  eapply rtc_l; [apply (name_taken _ _ _ mount_name_); [done|cbn; set_solver|by constructor]|]. cbn.
  eapply rtc_l; [apply worker_moved; [by apply (pod_fetched _ _ mount_two)|by constructor]|]. cbn.
  eapply rtc_l; [apply worker_moved; [by apply index_locked|by constructor]|]. cbn.
  eapply rtc_l; [apply worker_moved; [by apply (pod_indexed _ _ _ [mount_name_])|by constructor]|]. apply rtc_refl.
Qed.

Lemma dashboard_follows_witness :
  settled app_name_ board_3 /\ app_name_ ∈ appIndexes (b_api board_3) /\ NoDup (appIndexes (b_api board_3)) /\
  (exists p, b_cache board_3 !! app_name_ = Some p /\ isAppPod p = true /\ is_deleted p = false).
Proof.
  assert (forall n p, first_cache !! n = Some p -> orderly p = true) as Hord.
  { unfold first_cache. intros n p Hl. apply lookup_singleton_Some in Hl as [_ <-]. reflexivity. }
  assert (no_deletion (b_events board_3)) as Hnd by constructor.
  assert (settled app_name_ board_3) as Hs.
  { split; [split|discriminate]; [intros Hin; inversion Hin|]. apply (bool_decide_unpack _). vm_compute. exact I. }
  destruct (dashboard_follows name_of_uid true first_cache board_3 first_identified board_3_reachable) as [_ Hcalm].
  destruct (Hcalm eq_refl Hord Hnd) as ((_ & Hd & _) & Happs & _).
  assert (app_name_ ∈ appIndexes (b_api board_3)) as Hin by (left).
  split; [exact Hs|]. split; [exact Hin|]. split; [exact Hd|]. apply Happs; [exact Hs|exact Hin].
Defined.

(** The app pod is deleted, and its deletion handled, between the worker's
    reading of it and the lock of the index: its name stays in the index. *)
Example stale_entry :
  exists b, board_reachable name_of_uid false first_cache b /\ settled app_name_ b /\ b_cache b !! app_name_ = None /\
    b_events b = [] /\ app_name_ ∈ appIndexes (b_api b).
Proof.
  eexists. split; [|split_and!].
  - unfold board_reachable. etrans; [apply (board_1_reachable false)|].
    eapply rtc_l; [by apply (pod_deleted _ _ _ app_name_ app_one app_one)|]. cbn.
    eapply rtc_l; [by eapply (deletion_handled _ _ _ app_one [])|]. cbn.
    eapply rtc_l; [apply worker_moved; [by apply index_locked|done]|]. cbn.
    eapply rtc_l; [apply worker_moved; [by apply (pod_indexed _ _ _ [app_name_])|done]|]. apply rtc_refl.
  - split; [split|discriminate]; [intros Hin; inversion Hin|]. apply (bool_decide_unpack _). vm_compute. exact I.
  - reflexivity.
  - reflexivity.
  - left.
Qed.

(** ** A name that cannot be read *)

Definition at_default (n : string) : NamespacedName := ("default", n).
Definition read_ (p : Pod) : event jfs := ev (S := jfs) (GetPod Caller (Name (p_meta p)) "default") (Ok p).
Definition unread (n : string) : event jfs := ev (S := jfs) (GetPod Caller n "default") (Err (APIError NotFound "not found")).

(** The pods [a], [b], [c] were created in this order, [x] is gone.  Indexing
    [b] removes [x] and puts [b] in front of [a]; the next event of [b] indexes
    it a second time, and its deletion removes one of the two. *)
Example stale_duplicates :
  let a := born "a" "uid-a" 1 in
  let b := born "b" "uid-b" 2 in
  let c := born "c" "uid-c" 3 in
  runs (index_pod b [at_default "a"; at_default "x"; at_default "c"]) [read_ c; unread "x"]
    (Done [at_default "b"; at_default "a"; at_default "c"]) /\
  runs (index_pod b [at_default "b"; at_default "a"; at_default "c"]) [read_ c; read_ a]
    (Done [at_default "b"; at_default "a"; at_default "b"; at_default "c"]) /\
  removeIndex (at_default "b") [at_default "b"; at_default "a"; at_default "b"; at_default "c"] =
    [at_default "a"; at_default "b"; at_default "c"].
Proof.
  split_and!; [do 2 (eexists _, _; split; [reflexivity|]); by split..|reflexivity].
Qed.

(** A new CSI node pod of a host is forgotten with its predecessor. *)
Definition csi_node_pod (name : string) : Pod :=
  let p := labelled name name 1 (<[ "app" := "juicefs-csi-node" ]> {[ "app.kubernetes.io/name" := "juicefs-csi-driver" ]}) in
  {| p_meta := p_meta p; p_spec := with_placement "node-1" "" "" (p_spec p); p_status := p_status p |}.
Example csi_node_forgotten :
  let known := remember_csi_node (csi_node_pod "new") (remember_csi_node (csi_node_pod "old") NewAPI) in
  csiNodeIndex known !! "node-1" = Some ("default", "new") /\
  csiNodeIndex (PodDeleted known (csi_node_pod "old")).1 !! "node-1" = None.
Proof. vm_compute. done. Qed.
