(* ===== verification/StartupWitnesses.v ===== *)
(** * Witnesses of start-up

    A node process that polls its kubelet, and the controller of a cluster in
    side car mode, and two calls of the gRPC server. *)
From S2P Require Import Prelude.
From S2P Require Import GoStrings.
From S2P Require Import K8s.
From S2P Require Import Prog.
From S2P Require Import Effects.
From S2P Require Import Config.
From S2P Require Import DriverServices.
From S2P Require Import Startup.
From S2P Require Import Driver.
From S2P Require Import StartupFacts.
From S2P Require Import DriverRpcFacts.
From S2P Require Import Witnesses.
From S2P Require Import ServiceWitnesses.
#[local] Open Scope Z_scope.
#[local] Open Scope go_scope.

Definition sample_env : smap :=
  {[ "POD_NAME" := "juicefs-csi-node-x"; "JUICEFS_MOUNT_NAMESPACE" := "kube-system"; "HOST_IP" := "10.0.0.1";
     "KUBELET_PORT" := "10250"; "JUICEFS_RECONCILE_TIMEOUT" := "10s"; "JUICEFS_IMMUTABLE" := "T";
     "JUICEFS_MOUNT_IMAGE" := "juicedata/mount:ee-5.0" ]}.
Definition sample_flags (w : bool) : Flags :=
  {| process := false; formatInPod := false; provisioner := true; cacheConf := false; webhook := w; validationWebhook := false;
     podManager := true; reconcilerInterval := 2; nodeID := "node-1" |}.
Definition own_pod : Pod :=
  {| p_meta := {| Name := "juicefs-csi-node-x"; Namespace := "kube-system"; UID := ""; ResourceVersion := ""; Labels := None;
                  Annotations := None; Finalizers := []; CreationTimestamp := 1; DeletionTimestamp := None;
                  OwnerReferences := None |};
     p_spec := empty_spec; p_status := empty_status |}.
(** The kubelet answers at the second attempt. *)
Definition node_trace : jtrace :=
  [ev (S := jfs) NewK8sClient None;
   ev (S := jfs) (GetPod Background "juicefs-csi-node-x" "kube-system") (Ok own_pod);
   ev (S := jfs) (NewKubeletClient "10.0.0.1" 10250) None;
   ev (S := jfs) GetNodeRunningPods (Err (Errorf "unauthorized"));
   ev (S := jfs) (Sleep 10) tt;
   ev (S := jfs) (NewKubeletClient "10.0.0.1" 10250) None;
   ev (S := jfs) GetNodeRunningPods (Ok [own_pod]);
   ev (S := jfs) NewK8sClient None].
Definition node_settings : Variables :=
  match parseNodeConfig sample_env (sample_flags false) with
  | Vis NewK8sClient k => match k None with
                          | Vis (GetPod _ _ _) k => match k (Ok own_pod) with Ret (Started s) => s | _ => initial end
                          | _ => initial
                          end
  | _ => initial
  end.

Lemma starts_consistent_witness :
  (consistent node_settings /\ ReconcilerInterval node_settings = 5 /\ CSIPod node_settings = own_pod /\
   DefaultEEMountImage node_settings = "juicedata/mount:ee-5.0") /\
  (exists s, runs (controllerRun sample_env (sample_flags true)) [] (Done (Started s, [SidecarWebhook])) /\ consistent s).
Proof.
  split.
  - assert (runs (nodeRun [10; 50; 250] sample_env (sample_flags false)) node_trace (Done (Started node_settings, [PollKubelet]))) as Hr.
    { do 8 (eexists _, _; split; [reflexivity|]). split; vm_compute; reflexivity. }
    split; [|split; [|split]; vm_compute; reflexivity].
    exact (proj1 (proj1 (starts_consistent [10; 50; 250] sample_env (sample_flags false) node_trace node_settings [PollKubelet]) Hr)).
  - eexists. match goal with |- ?P /\ _ => assert P as Hr by (split; reflexivity) end.
    split; [exact Hr|].
    exact (proj1 (proj2 (starts_consistent [] sample_env (sample_flags true) [] _ [SidecarWebhook]) Hr)).
Defined.

(** ** Calls of the gRPC server *)

#[local] Existing Instances sample_globals sample_quantities sample_retry sample_codec.

(** A volume is created and remembered; the snapshots of it are refused. *)
Lemma handle_advertised_witness :
  (exists vols x, runs (handle 1 "v0.24" "node-1" ∅ (CreateVolumeCall (create_request 5))) [] (Done (vols, x)) /\
     vols !! "pvc-1" = Some 5 /\ proper (vols, x)) /\
  (exists x, runs (handle 1 "v0.24" "node-1" {[ "pvc-1" := 5 ]} ListSnapshotsCall) [] (Done ({[ "pvc-1" := 5 ]}, x)) /\
     x = unimplemented).
Proof.
  split.
  - assert (exists vols x, runs (handle 1 "v0.24" "node-1" ∅ (CreateVolumeCall (create_request 5))) [] (Done (vols, x)) /\
              vols !! "pvc-1" = Some 5) as (vols & x & Hr & Hv).
    { eexists _, _. split; [split; [reflexivity|vm_compute; reflexivity]|vm_compute; reflexivity]. }
    exists vols, x. split; [exact Hr|]. split; [exact Hv|].
    exact (proj1 (handle_advertised 1 "v0.24" "node-1" ∅ (CreateVolumeCall (create_request 5)) [] vols x Hr)).
  - assert (runs (handle 1 "v0.24" "node-1" {[ "pvc-1" := 5 ]} ListSnapshotsCall) [] (Done ({[ "pvc-1" := 5 ]}, unimplemented))) as Hr
      by (split; reflexivity).
    exists unimplemented. split; [exact Hr|].
    exact (proj1 (proj2 (proj1 (handle_advertised 1 "v0.24" "node-1" {[ "pvc-1" := 5 ]} ListSnapshotsCall [] _ _ Hr)))).
Defined.
