(* ===== verification/ManagersWitnesses.v ===== *)
(** * Witnesses of the managers

    The webhook's manager of a controller in side car mode, and a mount pod in
    the caches of the managers that look after it. *)
From S2P Require Import Prelude.
From S2P Require Import GoStrings.
From S2P Require Import K8s.
From S2P Require Import Prog.
From S2P Require Import Effects.
From S2P Require Import Config.
From S2P Require Import PodUtil.
From S2P Require Import JfsSetting.
From S2P Require Import Builder.
From S2P Require Import PodMount.
From S2P Require Import Sidecar.
From S2P Require Import Webhook.
From S2P Require Import Startup.
From S2P Require Import Managers.
From S2P Require Import Cluster.
From S2P Require Import PodMountFacts.
From S2P Require Import StartupFacts.
From S2P Require Import ManagersFacts.
From S2P Require Import Witnesses.
From S2P Require Import WebhookWitnesses.
From S2P Require Import StartupWitnesses.
#[local] Open Scope Z_scope.
#[local] Open Scope go_scope.
#[local] Existing Instances sample_globals sample_quantities sample_retry sample_codec sample_propagation.

Definition manager_flags : ManagerFlags :=
  {| leaderElection := true; leaderElectionNamespace := "kube-system"; leaderElectionLeaseDuration := 15 * Second;
     certDir := "/etc/webhook/certs"; webhookPort := 9444 |}.

(** Controller-runtime without a failure, and without the app controller. *)
Definition serve_managers (broken : mgr_cmd -> bool) (u : unit) (c : mgr_cmd) : unit * mgr_answer c :=
  (tt, match c return mgr_answer c with
       | SetupSignalHandler | RegisterHandler _ _ => tt
       | c => if broken c then Some (Errorf "broken") else None
       end).
Definition webhook_run (broken : mgr_cmd -> bool) (s : Variables) : trace mgrs * outcome goroutine_end :=
  (exec_trace (S := mgrs) (serve_managers broken) tt (run_manager s manager_flags SidecarWebhook),
   exec_out (S := mgrs) (serve_managers broken) tt (run_manager s manager_flags SidecarWebhook)).
Definition is_app_controller (c : mgr_cmd) : bool :=
  match c with NewController name => bool_decide (name = "app") | _ => false end.

Lemma managers_start_witness :
  exists s, runs (controllerRun sample_env (sample_flags true)) [] (Done (Started s, [SidecarWebhook])) /\
    (webhook_run (fun _ => false) s).2 = Done Returns /\ (webhook_run is_app_controller s).2 = Done (Exits 255) /\
    forall broken, manager_ends SidecarWebhook
      (SetupSignalHandler :: manager_commands s SidecarWebhook (webhook_options manager_flags))
      (webhook_run broken s).1 (webhook_run broken s).2.
Proof.
  eexists. match goal with |- ?P /\ _ => assert P as Hr by (split; reflexivity) end.
  split; [exact Hr|]. split; [vm_compute; reflexivity|]. split; [vm_compute; reflexivity|]. intros broken.
  exact (proj2 (managers_start [] sample_env (sample_flags true) [] _ _ manager_flags SidecarWebhook _ _ _
           (or_intror Hr) (list_elem_of_here _ _) eq_refl
           (exec_runs (S := mgrs) (serve_managers broken) tt (run_manager _ manager_flags SidecarWebhook)))).
Defined.

(** ** Caches *)

Fixpoint created_pod (t : jtrace) : option (Pod * res Pod) :=
  match t with
  | [] => None
  | existT c a :: t =>
      match c return jfs_answer c -> option (Pod * res Pod) with
      | CreatePod p => fun a => Some (p, a)
      | _ => fun _ => created_pod t
      end a
  end.
Lemma created_pod_in t p r : created_pod t = Some (p, r) -> ev (S := jfs) (CreatePod p) r ∈ t.
Proof.
  induction t as [|[c a] t IH]; [done|]. destruct c; cbn; try (intros Hc; right; by apply IH).
  intros [= -> ->]. by left.
Qed.

(** A setting whose pod attributes have a label of the user's. *)
Definition labelled_setting (l : smap) : JfsSetting :=
  let a := attr_of sample_setting in
  with_Attr {| a_Namespace := a_Namespace a; a_MountPointPath := a_MountPointPath a; a_JFSConfigPath := a_JFSConfigPath a;
               a_JFSMountPriorityName := a_JFSMountPriorityName a; a_ServiceAccountName := a_ServiceAccountName a;
               a_Resources := a_Resources a; a_Labels := l; a_Annotations := a_Annotations a;
               a_LivenessProbe := a_LivenessProbe a; a_ReadinessProbe := a_ReadinessProbe a;
               a_StartupProbe := a_StartupProbe a; a_Lifecycle := a_Lifecycle a; a_Image := a_Image a;
               a_HostNetwork := a_HostNetwork a; a_HostPID := a_HostPID a; a_PreemptionPolicy := a_PreemptionPolicy a;
               a_Tolerations := a_Tolerations a; a_inherited := a_inherited a |} sample_setting.
Definition labelled_run (l : smap) : jtrace :=
  trace_in empty_cluster (createOrAddRef 2 mount_name (labelled_setting l) None).
Definition labelled_placed (l : smap) : JfsSetting := default empty_setting (placed_setting (labelled_setting l) mount_name).
Lemma labelled_placed_eq l : placed_setting (labelled_setting l) mount_name = Some (labelled_placed l).
Proof. reflexivity. Qed.
#[local] Opaque labelled_run labelled_placed.

(** A label of one's own leaves the pod in the caches; a label under the
    driver's key takes the pod out of them. *)
Lemma caches_complete_witness :
  (exists p r, created_pod (labelled_run {[ "team" := "a" ]}) = Some (p, r) /\
     caches manager_flags WatchPods PodObjects (pod_labels p) = true) /\
  (exists p r, created_pod (labelled_run {[ PodTypeKey := "mine" ]}) = Some (p, r) /\
     caches manager_flags WatchPods PodObjects (pod_labels p) = false).
Proof.
  assert (forall l b, bool_decide (is_Some (created_pod (labelled_run l))) = true ->
    bool_decide (type_label (labelled_placed l) = PodTypeValue) = b ->
    exists p r, created_pod (labelled_run l) = Some (p, r) /\ caches manager_flags WatchPods PodObjects (pod_labels p) = b) as Hrun.
  { intros l b Hc%bool_decide_eq_true <-. destruct Hc as [[p r] Hp]. exists p, r. split; [exact Hp|].
    exact (proj1 (proj1 (caches_complete manager_flags) 2%nat mount_name (labelled_setting l) _ None (labelled_run l) _ p r
             (labelled_placed_eq l) (exec_runs (S := jfs) serve empty_cluster _) (created_pod_in _ _ _ Hp))). }
  split; apply Hrun; vm_compute; reflexivity.
Defined.
